(* ===== verification/_CoqProject ===== *)
-Q . S2P
Prelude.v
RcHeap.v
StreamBuffer.v
SharedBuffer.v
CountThreads.v
SparseArray.v
Os.v
Pthread.v
ThreadRun.v
Sync.v
SyncTest.v
Tls.v
Xfer.v
XferQueue.v
XferDecode.v
Kernel.v
KernelEpoll.v
KernelEpollPipe.v
KernelKqueue.v
KqueueThreads.v
KqueueLaws.v
Out.v
OutProps.v
OutFrame.v
OutOwner.v
Loop.v
LoopThreads.v
LoopCore.v
LoopProps.v
LoopLife.v
LoopOthers.v
HandlerLife.v
FlushWait.v
LoopFlush.v
FlushOutput.v
Timer.v
Signal.v
Connect.v
Listen.v
Dispatch.v
ListenConnect.v
LoopRegister.v
CountTest.v
HandlerTest.v
Endian.v
