(* ===== verification/Prelude.v ===== *)
(** * mpio: a verification development (root file)

    mpio is a C++ library for event-driven network programs.  Its core is
    mp::wavy: an event loop run by any number of worker threads, which share
    the work of polling the kernel, running the handlers of descriptors,
    running submitted tasks, and sending the output that a descriptor did not
    take at once.  Around it are buffers for protocol parsers and small tools.

    ** Parts, and the files that model them

    - src/mp/stream_buffer.h: a growing receive buffer whose blocks are shared
      by reference counts.  RcHeap (malloc'd blocks with counts), StreamBuffer.
    - src/mp/shared_buffer.h: a buffer that hands out counted regions.
      SharedBuffer, on RcHeap; CountThreads, with the refs in several threads.
    - src/mp/sparse_array.hmpl: an array of lazily constructed objects.
      SparseArray.
    - src/mpsrc/wavy_out.cc, class xfer: a queue of pending transfers in one
      byte buffer.  Xfer models the operations on bytes and shows that they
      refine operations on a list of records; XferQueue has the theorems;
      XferDecode reads the bytes back.
    - src/mpsrc/wavy_kernel.h: the interface of the event notification.  Kernel
      is that interface as a type class, with the laws its clients need as a
      second class; KernelEpoll models wavy_kernel_epoll.h and proves the laws
      from what the manual pages promise about epoll; KernelEpollPipe is its branch
      for timers without timerfd; KernelKqueue models
      wavy_kernel_kqueue.h, with the table of identifiers of timers and signals,
      KqueueLaws proves the same laws for it, and KqueueThreads interleaves the
      threads that take identifiers without a lock.
    - src/mpsrc/wavy_out.cc, wavy_out.h, class out: the pending output of every
      descriptor.  Out (operations), OutProps (the invariant of any
      interleaving of its operations), OutFrame (what it leaves alone), OutOwner
      (requests that own an object).
    - src/mpsrc/wavy_loop.cc, wavy_loop.h: the event loop.  Loop (operations
      and the pieces of thread_main between two points where the mutex is
      acquired or released), LoopThreads (the interleavings of workers,
      handlers and clients, and the invariant), LoopCore (each piece keeps
      it), LoopProps (the theorems, and runs on a concrete environment),
      LoopLife (construction, starting and joining the workers, destruction),
      LoopFlush (a loop that its client's own thread runs), FlushOutput (such a
      loop with output pending), LoopOthers (what goes on around one handler),
      LoopRegister (timers and signals added to a running loop), FlushWait (threads
      that flush while workers run), HandlerLife (the shared pointers of the
      handler table, and when handlers are destroyed).
    - the services built on the loop, each with its handler or task:
      src/mpsrc/wavy_timer.* (Timer), wavy_signal.* with src/mp/signal.h
      (Signal), wavy_connect.cc (Connect), wavy_listen.cc (Listen).  They call
      the operations of Loop and, for timers and signals, of KernelEpoll.
      src/mp/wavy.hmpl, class basic_handler: how the loop calls them.  Dispatch.
    - src/mp/pthread.h: threads, mutexes and the scoped locks.  Pthread; Loop
      starts, joins and detaches its workers with it.  ThreadRun: the function
      object that run hands to the new thread.
    - src/mp/sync.hmpl: an object with a mutex.  Sync, and SyncTest for the
      threads of src/test/sync.cc; src/mp/tls_set.h: data of every thread.  Tls.
    - src/mp/endian.h: the 64-bit byte swap.  Endian.
    - the programs of src/test, as clients of the parts above: CountTest
      (timer.cc, signal.cc), HandlerTest (handler.cc), ListenConnect
      (listen_connect.cc), SyncTest (sync.cc).
    The operations keep the names they have in the sources, with a suffix _new
    and _delete for constructors and destructors.  Os is what is outside:
    system calls, client callbacks, the allocator.

    ** How the code is modelled

    An operation is a function of the state monad [M] (Prelude) on the state of
    its class and a [world], which records every system call with its answer
    and decides which allocations succeed.  Its outcome is a result, a C++
    exception (both with the state left behind), undefined behaviour ([Undef]:
    access out of bounds or after free, double free, a data race) or
    divergence.  [wp] is the weakest precondition; it excludes undefined
    behaviour and divergence, so a theorem that an operation meets a [wp] is a
    safety and termination statement as well.  Machine words are [Z] with the
    wrap-around written out ([wrap], [signed]); a 64-bit little-endian Linux
    machine is assumed where a size or a layout matters.

    The operating system is an instance of the class [Os], which answers a
    call from the calls made so far.  [OsSpec] and [EpollSpec] state the
    documented behaviour that a theorem uses; [ready_os] and [scripted_os] are
    instances on which the witnesses of the theorems run.

    Concurrency: an operation under a mutex is one atomic step; a worker thread
    is a control point ([LoopThreads.pc]) and the code up to its next release or
    acquisition of the mutex.  [LoopThreads.step] interleaves the workers'
    pieces, what a handler does with its event, and the calls of tasks, handlers
    and other threads, in any order; a signal may wake any waiter, a wait may
    end by itself.  Where the code shares data without a lock (KqueueThreads,
    CountThreads, HandlerLife, CountTest) the threads are interleaved between single
    accesses instead, and an operation is the sequence of them: a copy of a
    shared pointer reads the pointer and then counts it up, a decrement and the
    free that may follow are two accesses.  The interleavings are sequentially
    consistent.

    ** What the theorems show

    - Buffers: a stream_buffer is a byte queue, a shared_buffer hands out stable
      regions, a sparse_array is a finite map; no use after free, no double
      free, no leak; where the arithmetic or the code fails is stated as well.
      The counters work without a lock: with refs in any number of threads no
      access meets a freed block and held regions keep their bytes, although the
      object rewinds and reallocates; the accesses compute the operations.
    - Transfers: whatever is pushed, written partially or cleared, the delivered
      and the queued bytes are the requested ones in order, and each finalizer
      runs once.  The untyped bytes are whole records at any time, and reading
      them back gives what was pushed.
    - Output of a descriptor: under any interleaving the stream is what the
      writers asked for, [m_watching] counts the busy descriptors, a descriptor
      has at most one registration or event, and none stalls.  A request that owns
      an object takes it over once, or leaves it to the caller.
    - Event loop: a worker's event is the only one of its descriptor until it is
      handed on, so a handler runs on one worker only until then; one worker
      polls, tasks start in order, no wakeup is lost with two workers or more,
      every piece of code returns, and workers leave after [end].  With a single
      worker the loop does not start tasks; this is a theorem too.  The
      constructor leaves the state the interleavings start from, or nothing
      open; [run] joins every worker once; the destructor joins, destroys the
      handlers that no client has a pointer to and runs every finalizer that is
      left, or throws from the join with nothing destroyed.  [flush] without workers
      runs the queued tasks in order and returns; after [end], with work left, it
      does not return.  With output pending it returns as well, everything sent,
      when the answers that achieve nothing (EAGAIN, EINTR, an empty wait) are
      finitely many: [FlushOutput.Responsive] counts those still to come, and the
      turns are bounded by them and by what is owed.
      While workers run, a thread in [flush] misses no wakeup; after [end] it can
      sleep for ever.  The handler table is read without the mutex: since a
      descriptor has one event at a time, no worker copies a pointer that another
      thread drops, and every handler is destroyed once, after its last run; but
      [remove_handler] from outside, and [remove] in a handler that handed its event
      on before, can free a handler that a worker is about to run.
    - Handlers: for each kind, what its call does, those of clients with any calls
      of [more], [next] and [remove] on their event, and that the loop then leaves
      the descriptor alone, registers it again or gives it up, whatever the handler
      throws.
    - Services: connect makes the calls of its protocol, repeating interrupted polls,
      reports each attempt once and neither leaks nor loses its socket; the accept loop hands over every connection; listen, add_timer and
      the signal handler undo what they did when a step fails, with the one
      exception the theorem on listen states; a signal handler restores the
      disposition of its signal; one-shot timers end.  That a connect timeout of
      whole seconds is ignored is a theorem as well.
    - Kqueue: identifiers are fresh and given back, events are re-armed as they
      were, and the registration of a destroyed signal stays behind.  Threads that
      take identifiers at the same time get different ones, and none is lost.
    - Programs: the counter that the timer callback of a test keeps without a lock
      is exact on any number of workers; the writer, from its loop's constructor to
      the destructor, sends its sixty bytes in order;
      every accepted or connected descriptor is closed once.
    - Locks: a scoped lock is released on every way out of its block; at most one
      [ref] to a [sync] object exists at a time, so the threads of the test print
      what they should; [lock_all] holds every element and gives all back.

    ** Bounds and fuel

    [Prelude.growth_fuel] (65) decides the doubling loops of the buffers, since
    64 doublings bring a 64-bit word to zero ([double_until_growth],
    [double_until_pow2_none]).  [Xfer.execute] and [clear] run with one more
    unit than there are bytes, and every turn passes a type word
    ([execute_refines_walk] excludes divergence).  [Connect.connect_poll] and
    [Listen.on_read] take the number of turns as fuel; their theorems ask for
    more than the interruptions, or the pending connections, that the system
    allows, and show that the loops end.  [Loop.flush] takes the turns of its
    loop, one more than there are tasks, or two for each byte, finalizer or busy
    descriptor that is owed and for each answer still to come that achieves nothing,
    and two more ([flush_drains]; for the sixty bytes of the test 152 and two for each
    such answer); [KernelEpollPipe.notify_from] the calls of
    write, eight times one more than the interruptions in a row that the system
    allows.  [Signal.thread_main] has fuel as well and diverges when it runs out; no
    theorem uses it.
    [KernelKqueue.xident_search] makes the 512 turns of the source.  The
    theorems on [out] bound the size of a queue by 2^61 bytes and the number of
    descriptors by 2^31; those on kqueue the number of descriptors by 2^31 - 256.

    ** Not modelled

    The overload of wait without a timeout; the implementation of connect that
    the preprocessor disables; of sync and tls_set the functions that do not compile, and iocntl,
    which does not compile at all; the texts of error messages; template glue and
    portability headers; the Ruby scripts that expand .hmpl files.  Of the test
    programs: fork, sleeping, and the signals that one sends itself.  Memory orders
    weaker than sequential consistency; of shared pointers, weak ones.  The facade
    [loop], which forwards each call to [loop_impl].
    Doubles are IEEE 754 binary64 numbers (SpecFloat).  The kernel laws speak of
    one mask per kernel, as the loop and [out] use it: a kqueue can have separate
    registrations of a descriptor for reading and writing.  Timers and signals
    are outside the laws.
*)

From Stdlib Require Import ZArith Lia.
From stdpp Require Import base tactics option list numbers fin_maps gmap.

#[global] Open Scope Z_scope.
#[export] Set Warnings "-clear-no-such-hyp".

Create HintDb mpio discriminated.
Create Rewrite HintDb mpio_rw.

(** ** Machine integers *)

(** [wrap w z]: the value an unsigned [w]-bit variable holds after [z] is stored in it. *)
Definition wrap (w z : Z) : Z := z mod 2 ^ w.

(** [size_t], [uint64_t] and pointers are 64 bits wide; [unsigned int] is 32. *)
Abbreviation wrap64 := (wrap 64).
Abbreviation wrap32 := (wrap 32).

Lemma wrap_small w z : 0 <= z < 2 ^ w -> wrap w z = z.
Proof. intros. unfold wrap. by rewrite Z.mod_small. Qed.

Lemma wrap_range w z : 0 <= w -> 0 <= wrap w z < 2 ^ w.
Proof. intros. unfold wrap. apply Z.mod_pos_bound. lia. Qed.

Lemma wrap64_small z : 0 <= z < 2 ^ 64 -> wrap64 z = z.
Proof. apply wrap_small. Qed.

Lemma wrap32_small z : 0 <= z < 2 ^ 32 -> wrap32 z = z.
Proof. apply wrap_small. Qed.

#[export] Hint Rewrite wrap64_small wrap32_small using lia : mpio_rw.

(** Signed reading of a [w]-bit word (two's complement). *)
Definition signed (w z : Z) : Z :=
  if wrap w z <? 2 ^ (w - 1) then wrap w z else wrap w z - 2 ^ w.

Lemma signed_small w z : 0 < w -> - 2 ^ (w - 1) <= z < 2 ^ (w - 1) -> signed w z = z.
Proof.
  intros Hw Hz.
  assert (2 ^ w = 2 * 2 ^ (w - 1)) as Hp.
  { rewrite <-Z.pow_succ_r by lia. f_equal. lia. }
  assert (Hc : 0 <= z \/ z < 0) by lia. unfold signed, wrap. destruct Hc as [Hc|Hc].
  - rewrite Z.mod_small by lia. destruct (Z.ltb_spec z (2 ^ (w - 1))); lia.
  - assert (z mod 2 ^ w = z + 2 ^ w) as ->.
    { symmetry. apply Z.mod_unique with (-1); lia. }
    destruct (Z.ltb_spec (z + 2 ^ w) (2 ^ (w - 1))); lia.
Qed.

(** ** Outcomes: returning, throwing, undefined behaviour, not returning *)

(** The C++ exceptions the sources throw or let through. *)
Inductive exn : Type :=
| BadAlloc                    (* std::bad_alloc *)
| SystemError (code : Z)      (* mp::system_error, with its errno *)
| PthreadError (code : Z)     (* mp::pthread_error *)
| RuntimeError                (* std::runtime_error *)
| LogicError                  (* std::logic_error *)
| UserException.              (* anything a callback or a constructor throws *)

#[export] Instance exn_eq_dec : EqDecision exn.
Proof. solve_decision. Defined.

Inductive outcome (S A : Type) : Type :=
| Ret (a : A) (s : S)
| Throw (e : exn) (s : S)
| Undef                       (* the C++ program has undefined behaviour here *)
| Diverge.                    (* the C++ program does not leave a loop *)
Arguments Ret {S A} a s.
Arguments Throw {S A} e s.
Arguments Undef {S A}.
Arguments Diverge {S A}.

(** A computation on a state [S]. *)
Definition M (S A : Type) : Type := S -> outcome S A.

#[export] Instance M_ret S : MRet (M S) := fun A a s => Ret a s.
#[export] Instance M_bind S : MBind (M S) := fun A B k m s =>
  match m s with
  | Ret a s' => k a s'
  | Throw e s' => Throw e s'
  | Undef => Undef
  | Diverge => Diverge
  end.

Definition throw {S A} (e : exn) : M S A := fun s => Throw e s.
Definition undef {S A} : M S A := fun _ => Undef.
Definition diverge {S A} : M S A := fun _ => Diverge.
Definition get {S} : M S S := fun s => Ret s s.
Definition put {S} (s : S) : M S unit := fun _ => Ret tt s.
Definition modify {S} (f : S -> S) : M S unit := fun s => Ret tt (f s).

(** [try m catch (...) { h }]: [h] receives the exception and may rethrow it. *)
Definition catch {S A} (m : M S A) (h : exn -> M S A) : M S A := fun s =>
  match m s with
  | Throw e s' => h e s'
  | o => o
  end.

(** Running a computation on a part of a larger state. *)
Definition zoom {S T A} (prj : T -> S) (upd : S -> T -> T) (m : M S A) : M T A := fun t =>
  match m (prj t) with
  | Ret a s => Ret a (upd s t)
  | Throw e s => Throw e (upd s t)
  | Undef => Undef
  | Diverge => Diverge
  end.

(** [wp m Q E s]: run from [s], [m] comes back, with [Q] when it returns and
    [E] when it throws; undefined behaviour and divergence are excluded. *)
Definition wp {S A} (m : M S A) (Q : A -> S -> Prop) (E : exn -> S -> Prop) (s : S) : Prop :=
  match m s with
  | Ret a s' => Q a s'
  | Throw e s' => E e s'
  | Undef | Diverge => False
  end.

(** No exception is allowed. *)
Definition no_exn {S} : exn -> S -> Prop := fun _ _ => False.

Section WP.
Context {S : Type}.
Implicit Types (s : S) (E : exn -> S -> Prop).

Lemma wp_ret {A} (a : A) Q E s : Q a s -> wp (mret a) Q E s.
Proof. done. Qed.

Lemma wp_bind {A B} (m : M S A) (k : A -> M S B) Q E s :
  wp m (fun a => wp (k a) Q E) E s -> wp (m ≫= k) Q E s.
Proof. unfold wp, mbind, M_bind. by destruct (m s). Qed.

Lemma wp_throw {A} e (Q : A -> S -> Prop) E s : E e s -> wp (throw e) Q E s.
Proof. done. Qed.

Lemma wp_get Q E s : Q s s -> wp get Q E s.
Proof. done. Qed.

Lemma wp_put s' Q E s : Q tt s' -> wp (put s') Q E s.
Proof. done. Qed.

Lemma wp_modify f Q E s : Q tt (f s) -> wp (modify f) Q E s.
Proof. done. Qed.

Lemma wp_catch {A} (m : M S A) h Q E s :
  wp m Q (fun e => wp (h e) Q E) s -> wp (catch m h) Q E s.
Proof. unfold wp, catch. by destruct (m s). Qed.

Lemma wp_mono {A} (m : M S A) (Q Q' : A -> S -> Prop) E E' s :
  (forall a s', Q a s' -> Q' a s') -> (forall e s', E e s' -> E' e s') ->
  wp m Q E s -> wp m Q' E' s.
Proof. unfold wp. destruct (m s); naive_solver. Qed.

Lemma wp_and {A} (m : M S A) (Q1 Q2 : A -> S -> Prop) E1 E2 s :
  wp m Q1 E1 s -> wp m Q2 E2 s ->
  wp m (fun a s' => Q1 a s' /\ Q2 a s') (fun e s' => E1 e s' /\ E2 e s') s.
Proof. unfold wp. by destruct (m s). Qed.

Lemma wp_zoom {T A} (prj : T -> S) (upd : S -> T -> T) (m : M S A)
    (Q : A -> T -> Prop) (E : exn -> T -> Prop) (t : T) :
  wp m (fun a s => Q a (upd s t)) (fun e s => E e (upd s t)) (prj t) ->
  wp (zoom prj upd m) Q E t.
Proof. unfold wp, zoom. by destruct (m (prj t)). Qed.

(** From a [wp] to the run it describes. *)
Lemma wp_run {A} (m : M S A) Q s :
  wp m Q no_exn s -> exists a s', m s = Ret a s' /\ Q a s'.
Proof. unfold wp, no_exn. destruct (m s); naive_solver. Qed.
End WP.

(** ** What every run respects

    [respects R m]: if [m] comes back, returning or throwing, the states before
    and after are related by [R]. *)
Definition respects {S A} (R : S -> S -> Prop) (m : M S A) : Prop := forall s,
  match m s with Ret _ s' | Throw _ s' => R s s' | Undef | Diverge => True end.

Section Respects.
Context {S : Type} (R : S -> S -> Prop) {HR : PreOrder R}.

Lemma respects_ret {A} (a : A) : respects R (mret a).
Proof. intros s. by cbn. Qed.

Lemma respects_throw {A} e : respects R (throw (A := A) e).
Proof. intros s. by cbn. Qed.

Lemma respects_undef {A} : respects R (undef (A := A)).
Proof. done. Qed.

Lemma respects_diverge {A} : respects R (diverge (A := A)).
Proof. done. Qed.

Lemma respects_get : respects R get.
Proof. intros s. by cbn. Qed.

Lemma respects_bind {A B} (m : M S A) (k : A -> M S B) :
  respects R m -> (forall a, respects R (k a)) -> respects R (m ≫= k).
Proof.
  intros Hm Hk s. unfold mbind, M_bind. specialize (Hm s). destruct (m s) as [a s'|e s'| |]; [|done..].
  specialize (Hk a s'). destruct (k a s') as [b s''|e s''| |]; [by etrans|by etrans|done..].
Qed.

Lemma respects_catch {A} (m : M S A) (h : exn -> M S A) :
  respects R m -> (forall e, respects R (h e)) -> respects R (catch m h).
Proof.
  intros Hm Hh s. unfold catch. specialize (Hm s). destruct (m s) as [a s'|e s'| |]; [done| |done..].
  specialize (Hh e s'). destruct (h e s') as [b s''|e' s''| |]; [by etrans|by etrans|done..].
Qed.

Lemma respects_run {A} (m : M S A) s a s' : respects R m -> m s = Ret a s' -> R s s'.
Proof. intros Hm Hrun. specialize (Hm s). by rewrite Hrun in Hm. Qed.
End Respects.

(** On the part that a larger state keeps in [prj]. *)
Lemma respects_zoom {S T A X} (R : X -> X -> Prop) (f : S -> X) (f' : T -> X) prj upd (m : M S A) :
  (forall t, f' t = f (prj t)) -> (forall s t, f' (upd s t) = f s) ->
  respects (fun s s' => R (f s) (f s')) m -> respects (fun t t' => R (f' t) (f' t')) (zoom prj upd m).
Proof.
  intros H1 H2 Hm t. specialize (Hm (prj t)). unfold zoom. destruct (m (prj t)); try done; by rewrite H1, H2.
Qed.

#[export] Hint Resolve respects_ret respects_throw respects_undef respects_diverge respects_get
  respects_bind respects_catch : mpio.

(** Going through a computation: binds, conditionals and matches. *)
Ltac respects_step :=
  lazymatch goal with
  | |- forall _, _ => intros ?
  | |- respects _ (mbind _ _) => apply respects_bind; [apply _| |]
  | |- respects _ (catch _ _) => apply respects_catch; [apply _| |]
  | |- respects _ (mret _) => apply respects_ret; apply _
  | |- respects _ (throw _) => apply respects_throw; apply _
  | |- respects _ undef => apply respects_undef
  | |- respects _ diverge => apply respects_diverge
  | |- respects _ get => apply respects_get; apply _
  | |- respects _ (if ?b then _ else _) => destruct b
  | |- respects _ (match ?x with _ => _ end) => destruct x
  | |- respects _ (let _ := _ in _) => cbv zeta
  end.

#[export] Hint Resolve wp_ret wp_get wp_put wp_modify wp_throw : mpio.

(** One step of symbolic execution. *)
Ltac wp_step :=
  lazymatch goal with
  | |- wp (_ ≫= _) _ _ _ => apply wp_bind
  | |- wp (mret _) _ _ _ => apply wp_ret
  | |- wp (throw _) _ _ _ => apply wp_throw
  | |- wp get _ _ _ => apply wp_get
  | |- wp (put _) _ _ _ => apply wp_put
  | |- wp (modify _) _ _ _ => apply wp_modify
  | |- wp (catch _ _) _ _ _ => apply wp_catch
  | |- wp (zoom _ _ _) _ _ _ => apply wp_zoom
  end.
Ltac wp_steps := repeat (wp_step; simpl).

(** ** Byte sequences addressed by offset *)

Abbreviation zlen l := (Z.of_nat (length l)).

(** [slice off n l]: the [n] cells of [l] from offset [off]. *)
Definition slice {A} (off n : Z) (l : list A) : list A :=
  take (Z.to_nat n) (drop (Z.to_nat off) l).

(** [splice off bs l]: [l] after [bs] is stored at offset [off]. *)
Definition splice {A} (off : Z) (bs l : list A) : list A :=
  take (Z.to_nat off) l ++ bs ++ drop (Z.to_nat off + length bs) l.

Section Slices.
Context {A : Type}.
Implicit Types (l bs pre post : list A).

Lemma zlen_slice off n l :
  0 <= off -> 0 <= n -> off + n <= zlen l -> zlen (slice off n l) = n.
Proof. intros. unfold slice. rewrite length_take, length_drop. lia. Qed.

Lemma zlen_splice off bs l :
  0 <= off -> off + zlen bs <= zlen l -> zlen (splice off bs l) = zlen l.
Proof.
  intros. unfold splice. rewrite !length_app, length_take, length_drop. lia.
Qed.

Lemma slice_mid off n pre bs post :
  zlen pre = off -> zlen bs = n -> slice off n (pre ++ bs ++ post) = bs.
Proof.
  intros <- <-. unfold slice. rewrite !Nat2Z.id, drop_app_length, take_app_length.
  done.
Qed.

Lemma slice_all n l : zlen l = n -> slice 0 n l = l.
Proof. intros <-. unfold slice. rewrite Nat2Z.id. by rewrite drop_0, firstn_all. Qed.

Lemma slice_nil off l : slice off 0 l = [].
Proof. done. Qed.

Lemma slice_split off n m l :
  0 <= off -> 0 <= n -> 0 <= m -> slice off (n + m) l = slice off n l ++ slice (off + n) m l.
Proof.
  intros. unfold slice. rewrite !Z2Nat.inj_add by lia.
  rewrite <-drop_drop. by rewrite take_take_drop.
Qed.

(** A slice of a slice. *)
Lemma slice_slice off n off' n' l :
  0 <= off -> 0 <= off' -> 0 <= n' -> off' + n' <= n ->
  slice off' n' (slice off n l) = slice (off + off') n' l.
Proof.
  intros. unfold slice. rewrite skipn_firstn_comm, take_take, drop_drop.
  f_equal; [lia|]. f_equal. lia.
Qed.

Lemma slice_splice_before off n off' bs l :
  0 <= off -> 0 <= n -> off + n <= off' -> off' <= zlen l ->
  slice off n (splice off' bs l) = slice off n l.
Proof.
  intros. unfold slice, splice. rewrite drop_app_le by (rewrite length_take; lia).
  rewrite take_app_le by (rewrite length_drop, length_take; lia).
  rewrite skipn_firstn_comm, take_take. f_equal. lia.
Qed.

Lemma slice_splice_same off n bs l :
  0 <= off <= zlen l -> zlen bs = n -> slice off n (splice off bs l) = bs.
Proof. intros ? <-. unfold splice. apply slice_mid; rewrite ?length_take; lia. Qed.

Lemma slice_splice_after off n off' bs l :
  0 <= off' -> off' + zlen bs <= off -> off' + zlen bs <= zlen l ->
  slice off n (splice off' bs l) = slice off n l.
Proof.
  intros. unfold slice, splice. f_equal.
  rewrite drop_app_ge by (rewrite length_take; lia).
  rewrite drop_app_ge by (rewrite length_take; lia).
  rewrite drop_drop. f_equal. rewrite length_take. lia.
Qed.

Lemma splice_mid off bs bs' pre post :
  zlen pre = off -> zlen bs = zlen bs' ->
  splice off bs' (pre ++ bs ++ post) = pre ++ bs' ++ post.
Proof.
  intros <- Hlen. unfold splice. rewrite Nat2Z.id, take_app_length.
  rewrite (app_assoc pre bs post), drop_app_length' by (rewrite length_app; lia).
  done.
Qed.
End Slices.

(** Little-endian encoding of a [n]-byte word. *)
Fixpoint le_bytes (n : nat) (z : Z) : list Z :=
  match n with
  | O => []
  | S n' => z mod 256 :: le_bytes n' (z / 256)
  end.

Fixpoint le_val (l : list Z) : Z :=
  match l with
  | [] => 0
  | b :: l' => b + 256 * le_val l'
  end.

Lemma length_le_bytes n z : length (le_bytes n z) = n.
Proof. revert z. induction n; intros z; simpl; [done|]. by rewrite IHn. Qed.

#[export] Hint Rewrite length_le_bytes @length_app @length_nil : mpio_rw.

(** Round trip: reading back a word that was stored keeps its low [n] bytes. *)
Lemma le_val_bytes n z : le_val (le_bytes n z) = z mod 2 ^ (8 * Z.of_nat n).
Proof.
  revert z. induction n as [|n IH]; intros z; [by rewrite Z.mod_1_r|].
  cbn [le_bytes le_val]. rewrite IH, Nat2Z.inj_succ.
  replace (8 * Z.succ (Z.of_nat n)) with (8 + 8 * Z.of_nat n) by lia.
  rewrite Z.pow_add_r by lia. change (2 ^ 8) with 256.
  pose proof (Z.pow_pos_nonneg 2 (8 * Z.of_nat n)). rewrite Z.rem_mul_r by lia. done.
Qed.

Lemma le_val_bytes_small n z :
  0 <= z < 2 ^ (8 * Z.of_nat n) -> le_val (le_bytes n z) = z.
Proof. intros. rewrite le_val_bytes. by apply Z.mod_small. Qed.

(** ** The growth loop of the buffers

    [while(size < need) { size *= 2; }] on [size_t], with fuel. Sixty-four
    doublings bring any [size_t] to zero, where the loop stays for ever, so 65
    units of fuel decide whether the C++ loop ends. *)
Fixpoint double_until (fuel : nat) (size need : Z) : option Z :=
  match fuel with
  | O => None
  | S fuel' =>
      if size <? need then double_until fuel' (wrap64 (size * 2)) need else Some size
  end.

Definition growth_fuel : nat := 65.

Lemma double_until_ge fuel size need m :
  double_until fuel size need = Some m -> need <= m.
Proof.
  revert size. induction fuel as [|fuel IH]; intros size; simpl; [done|].
  destruct (Z.ltb_spec size need); [apply IH|]. by intros [= <-].
Qed.

(** The loop ends with a size that is enough, and less than twice what was asked. *)
Lemma double_until_spec k size need :
  0 < size -> need <= 2 ^ 63 -> size < 2 ^ 64 -> 2 ^ 64 <= size * 2 ^ Z.of_nat k ->
  exists m, double_until (S k) size need = Some m /\
    need <= m < 2 ^ 64 /\ size <= m /\ (m = size \/ m < 2 * need).
Proof.
  revert size. induction k as [|k IH]; intros size Hpos Hneed Hlt Hk.
  { simpl in Hk. lia. }
  rewrite Nat2Z.inj_succ, Z.pow_succ_r in Hk by lia.
  cbn [double_until]. destruct (Z.ltb_spec size need) as [Hsz|Hsz].
  - rewrite wrap64_small by lia.
    destruct (IH (size * 2)) as (m & Hm & ? & ? & ?); [lia..|].
    cbn [double_until] in Hm. exists m. split; [exact Hm|]. lia.
  - exists size. split; [done|]. lia.
Qed.

Lemma double_until_growth size need :
  0 < size < 2 ^ 64 -> need <= 2 ^ 63 ->
  exists m, double_until growth_fuel size need = Some m /\
    need <= m < 2 ^ 64 /\ size <= m /\ (m = size \/ m < 2 * need).
Proof. intros. apply (double_until_spec 64); lia. Qed.

(** The shapes that never end: zero never grows. *)
Lemma double_until_zero fuel need : 0 < need -> double_until fuel 0 need = None.
Proof.
  intros. induction fuel as [|fuel IH]; simpl; [done|].
  destruct (Z.ltb_spec 0 need); [done|lia].
Qed.

(** More fuel does not change a result. *)
Lemma double_until_mono fuel fuel' size need m :
  (fuel <= fuel')%nat -> double_until fuel size need = Some m ->
  double_until fuel' size need = Some m.
Proof.
  revert fuel' size. induction fuel as [|fuel IH]; intros [|fuel'] size; simpl;
    [done..|lia|].
  intros. destruct (size <? need); [|done]. apply IH; [lia|done].
Qed.

Definition grow {S} (size need : Z) : M S Z :=
  match double_until growth_fuel size need with
  | Some n => mret n
  | None => diverge
  end.

Lemma wp_grow {S} size need (Q : Z -> S -> Prop) E s :
  0 < size < 2 ^ 64 -> need <= 2 ^ 63 ->
  (forall n, need <= n < 2 ^ 64 -> size <= n -> n = size \/ n < 2 * need -> Q n s) ->
  wp (grow size need) Q E s.
Proof.
  intros Hs Hn HQ. destruct (double_until_growth size need) as (n & Hd & ? & ? & ?); [done..|].
  unfold wp, grow. rewrite Hd. by apply HQ.
Qed.

Lemma slice_app_l {A} off n (l l' : list A) :
  0 <= off -> 0 <= n -> off + n <= zlen l -> slice off n (l ++ l') = slice off n l.
Proof.
  intros. unfold slice. rewrite drop_app_le by lia. rewrite take_app_le; [done|].
  rewrite length_drop. lia.
Qed.

(** An array of lists, one of which is singled out or replaced. *)
Lemma concat_lookup {A} (ls : list (list A)) i l :
  ls !! i = Some l -> concat ls ≡ₚ l ++ concat (delete i ls).
Proof.
  intros Hi. rewrite <-(take_drop_middle ls i l Hi) at 1.
  rewrite delete_take_drop, !concat_app. simpl. by rewrite Permutation_app_swap_app.
Qed.

Lemma concat_insert {A} (ls : list (list A)) i l :
  (i < length ls)%nat -> concat (<[i := l]> ls) ≡ₚ l ++ concat (delete i ls).
Proof.
  intros Hi. rewrite insert_take_drop by done.
  rewrite delete_take_drop, !concat_app. simpl. by rewrite Permutation_app_swap_app.
Qed.

Lemma concat_swap {A} (ls : list (list A)) i j l l' :
  ls !! i = Some l -> ls !! j = Some l' -> concat (<[j := l]> (<[i := l']> ls)) ≡ₚ concat ls.
Proof.
  intros Hi Hj. assert (i < length ls)%nat by (by eapply lookup_lt_Some). assert (j < length ls)%nat by (by eapply lookup_lt_Some).
  destruct (decide (i = j)) as [<-|Hne].
  - assert (l' = l) as -> by congruence. by rewrite list_insert_insert_eq, list_insert_id.
  - assert ((<[i := l']> ls) !! j = Some l') as Hj' by (by rewrite list_lookup_insert_ne).
    pose proof (concat_lookup _ _ _ Hj') as H1. rewrite concat_insert in H1 by done. apply (inj (app l')) in H1.
    rewrite concat_insert by (by rewrite length_insert). by rewrite <-H1, <-concat_lookup.
Qed.

(** Past 2^63 the loop never ends when it starts from a power of two. *)
Lemma double_until_pow2_none fuel k need :
  (k <= 63)%nat -> 2 ^ 63 < need -> double_until fuel (2 ^ Z.of_nat k) need = None.
Proof.
  intros Hk Hneed. remember (63 - k)%nat as j eqn:Hj. revert k fuel Hk Hj.
  induction j as [|j IH]; intros k [|fuel] Hk Hj; [done| |done|]; cbn [double_until].
  - assert (k = 63%nat) as -> by lia. change (2 ^ Z.of_nat 63) with (2 ^ 63).
    destruct (Z.ltb_spec (2 ^ 63) need); [|lia].
    change (wrap64 (2 ^ 63 * 2)) with 0. apply double_until_zero. lia.
  - assert (2 ^ Z.of_nat k <= 2 ^ 62) by (apply Z.pow_le_mono_r; lia).
    destruct (Z.ltb_spec (2 ^ Z.of_nat k) need); [|lia].
    rewrite wrap64_small by lia.
    replace (2 ^ Z.of_nat k * 2) with (2 ^ Z.of_nat (S k))
      by (rewrite Nat2Z.inj_succ, Z.pow_succ_r; lia).
    apply IH; lia.
Qed.

Lemma M_bind_ret {S A B} (m : M S A) (k : A -> M S B) s a s' :
  m s = Ret a s' -> (m ≫= k) s = k a s'.
Proof. intros H. unfold mbind, M_bind. by rewrite H. Qed.

(** The results of a partial map, with one element singled out or replaced. *)
Lemma omap_lookup_perm {A B} (f : A -> option B) (l : list A) i x :
  l !! i = Some x -> omap f l ≡ₚ option_list (f x) ++ omap f (delete i l).
Proof.
  intros Hi. rewrite <-(take_drop_middle l i x Hi) at 1.
  rewrite delete_take_drop, !omap_app. simpl.
  destruct (f x); simpl; [by rewrite <-Permutation_middle|done].
Qed.

Lemma omap_insert_perm {A B} (f : A -> option B) (l : list A) i x :
  (i < length l)%nat -> omap f (<[i := x]> l) ≡ₚ option_list (f x) ++ omap f (delete i l).
Proof.
  intros Hi. rewrite insert_take_drop by done.
  rewrite delete_take_drop, !omap_app. simpl.
  destruct (f x); simpl; [by rewrite <-Permutation_middle|done].
Qed.

(** Accesses located by the list they fall in. *)
Lemma slice_at {A} off n (l pre bs post : list A) :
  l = pre ++ bs ++ post -> zlen pre = off -> zlen bs = n -> slice off n l = bs.
Proof. intros ->. apply slice_mid. Qed.

Lemma splice_at {A} off (l pre bs bs' post : list A) :
  l = pre ++ bs ++ post -> zlen pre = off -> zlen bs = zlen bs' ->
  splice off bs' l = pre ++ bs' ++ post.
Proof. intros ->. apply splice_mid. Qed.

(** Equality of lists up to the association of [++]. *)
Ltac app_eq := rewrite <-?app_assoc; cbn [app]; rewrite <-?app_assoc; reflexivity.

(** ** Counting *)

Definition countb {A} (f : A -> bool) (l : list A) : Z := zlen (filter (fun x => f x = true) l).

Lemma countb_insert {A} (f : A -> bool) l i x y :
  l !! i = Some x -> countb f (<[i := y]> l) =
    countb f l - (if f x then 1 else 0) + (if f y then 1 else 0).
Proof.
  intros Hi. unfold countb. rewrite insert_take_drop by (by eapply lookup_lt_Some).
  rewrite <-(take_drop_middle l i x Hi) at 3.
  rewrite !list.filter_app, !length_app, !filter_cons.
  destruct (f x), (f y); repeat case_decide; try done; simpl length; lia.
Qed.

Lemma countb_range {A} (f : A -> bool) l : 0 <= countb f l <= zlen l.
Proof. unfold countb. pose proof (length_filter (fun x => f x = true) l). lia. Qed.

Lemma countb_app {A} (f : A -> bool) l1 l2 : countb f (l1 ++ l2) = countb f l1 + countb f l2.
Proof. unfold countb. rewrite list.filter_app, length_app. lia. Qed.

Lemma countb_pos {A} (f : A -> bool) l x : x ∈ l -> f x = true -> 0 < countb f l.
Proof.
  intros Hx Hf. unfold countb. destruct (filter _ l) eqn:He; [|simpl; lia].
  assert (x ∈ filter (fun x => f x = true) l) as Hin by (by apply list_elem_of_filter).
  rewrite He in Hin. by apply not_elem_of_nil in Hin.
Qed.

Lemma countb_elem {A} (f : A -> bool) l : 0 < countb f l -> exists i x, l !! i = Some x /\ f x = true.
Proof.
  unfold countb. destruct (filter _ l) as [|x l'] eqn:He; [simpl; lia|]. intros _.
  assert (x ∈ filter (fun x => f x = true) l) as Hin by (rewrite He; by apply elem_of_cons; left).
  apply list_elem_of_filter in Hin as [Hf Hin]. apply list_elem_of_lookup_1 in Hin as [i Hi]. eauto.
Qed.

Lemma countb_none {A} (f : A -> bool) l : countb f l = 0 <-> Forall (fun x => f x = false) l.
Proof.
  split.
  - intros H0. apply Forall_forall. intros x Hx. destruct (f x) eqn:Hf; [|done].
    pose proof (countb_pos f l x Hx Hf). lia.
  - unfold countb. induction 1 as [|x l Hx _ IH]; [done|]. rewrite filter_cons_False; [done|by rewrite Hx].
Qed.

(** At most one element counts. *)
Lemma countb_two {A} (f : A -> bool) l i j x y :
  countb f l <= 1 -> l !! i = Some x -> l !! j = Some y -> f x = true -> f y = true -> i = j.
Proof.
  revert i j. induction l as [|z l IH]; intros i j Hc Hi Hj Hx Hy; [done|].
  rewrite (countb_app f [z] l : countb f (z :: l) = _) in Hc. pose proof (countb_range f l).
  assert (f z = true -> countb f [z] = 1) as H1 by (intros Hz; unfold countb; by rewrite filter_cons_True).
  pose proof (countb_range f [z]). destruct i as [|i], j as [|j]; simpl in Hi, Hj; simplify_eq; [done|..].
  - pose proof (countb_pos f l y (list_elem_of_lookup_2 _ _ _ Hj) Hy). rewrite (H1 Hx) in Hc. lia.
  - pose proof (countb_pos f l x (list_elem_of_lookup_2 _ _ _ Hi) Hx). rewrite (H1 Hy) in Hc. lia.
  - f_equal. apply IH; [lia|done..].
Qed.

(** A decidable proposition about concrete data, by evaluation. *)
Ltac decided := apply (bool_decide_unpack _); vm_compute; exact I.
