(* ===== verification/RcHeap.v ===== *)
(** * Reference-counted blocks

    The heap that [stream_buffer] and [shared_buffer] share: blocks obtained
    from malloc whose first [sizeof(count_t)] bytes hold a 32-bit reference
    count, updated with the [__sync] builtins.  A block's other bytes are a
    list of cells, [None] for a byte that was never written.  Allocation
    failures come from a script of booleans, one per allocation; an exhausted
    script means that allocations succeed.  Each allocation above PTRDIFF_MAX
    fails.  The module defines the four counter functions both headers carry,
    [std::vector<void*>::push_back], and the ownership invariant: the count of
    a live block is the number of pointers that own it. *)

From Stdlib Require Import ZArith Lia.
From stdpp Require Import base tactics option list numbers fin_maps gmap.
From S2P Require Import Prelude.

Abbreviation loc := nat.

Record block := Block {
  blk_count : option Z;          (* the reference count, None before init_count *)
  blk_data : list (option Z)     (* the cells of the allocation, count included *)
}.

Record heap := Heap {
  hp_blocks : gmap loc block;
  hp_script : list bool          (* whether the coming allocations succeed *)
}.

(** [sizeof(count_t)]. *)
Definition sizeof_count : Z := 4.

Definition ptrdiff_max : Z := 2 ^ 63 - 1.

Definition upd_blocks (f : gmap loc block -> gmap loc block) : M heap unit :=
  modify (fun h => Heap (f (hp_blocks h)) (hp_script h)).

(** The allocator's next answer. *)
Definition alloc_answer : M heap bool := fun h =>
  match hp_script h with
  | [] => Ret true h
  | b :: s => Ret b (Heap (hp_blocks h) s)
  end.

Definition get_block (l : loc) : M heap block := fun h =>
  match hp_blocks h !! l with
  | Some b => Ret b h
  | None => Undef
  end.

(** [malloc(n)]: NULL is [None]; the new cells are indeterminate. *)
Definition malloc (n : Z) : M heap (option loc) :=
  ok ← alloc_answer;
  if bool_decide (n <= ptrdiff_max) && ok then
    h ← get;
    let l := fresh (dom (hp_blocks h)) in
    _ ← upd_blocks <[l := Block None (replicate (Z.to_nat n) None)]>;
    mret (Some l)
  else mret None.

Definition free (l : loc) : M heap unit :=
  _ ← get_block l;
  upd_blocks (delete l).

(** [realloc(p, n)]: on failure the old block is untouched. *)
Definition realloc (l : loc) (n : Z) : M heap (option loc) :=
  ok ← alloc_answer;
  if bool_decide (n <= ptrdiff_max) && ok then
    b ← get_block l;
    _ ← upd_blocks (delete l);
    h ← get;
    let l' := fresh (dom (hp_blocks h)) in
    let d := take (Z.to_nat n) (blk_data b) in
    _ ← upd_blocks <[l' := Block (blk_count b) (d ++ replicate (Z.to_nat n - length d) None)]>;
    mret (Some l')
  else mret None.

(** [memcpy(dst + doff, src + soff, n)] between two blocks. *)
Definition memcpy (dst : loc) (doff : Z) (src : loc) (soff n : Z) : M heap unit :=
  bs ← get_block src;
  bd ← get_block dst;
  if bool_decide (0 <= soff /\ 0 <= n /\ soff + n <= zlen (blk_data bs) /\
                  0 <= doff /\ doff + n <= zlen (blk_data bd) /\ dst <> src)
  then upd_blocks <[dst := Block (blk_count bd)
                            (splice doff (slice soff n (blk_data bs)) (blk_data bd))]>
  else undef.

(** Storing bytes through a pointer into a block (a read(2) into the buffer). *)
Definition store (l : loc) (off : Z) (bs : list Z) : M heap unit :=
  b ← get_block l;
  if bool_decide (0 <= off /\ off + zlen bs <= zlen (blk_data b))
  then upd_blocks <[l := Block (blk_count b) (splice off (Some <$> bs) (blk_data b))]>
  else undef.

(** ** The counter functions *)

Definition init_count (d : loc) : M heap unit :=
  b ← get_block d;
  upd_blocks <[d := Block (Some 1) (blk_data b)]>.

Definition get_count (d : loc) : M heap Z :=
  b ← get_block d;
  match blk_count b with
  | Some c => mret c
  | None => undef
  end.

Definition incr_count (d : loc) : M heap unit :=
  c ← get_count d;
  b ← get_block d;
  upd_blocks <[d := Block (Some (wrap32 (c + 1))) (blk_data b)]>.

Definition decr_count (d : loc) : M heap unit :=
  c ← get_count d;
  b ← get_block d;
  _ ← upd_blocks <[d := Block (Some (wrap32 (c - 1))) (blk_data b)]>;
  if wrap32 (c - 1) =? 0 then free d else mret tt.

(** [std::vector<void*>::push_back]: it may have to allocate. *)
Definition push_back (v : list loc) (d : loc) : M heap (list loc) :=
  ok ← alloc_answer;
  if ok : bool then mret (v ++ [d]) else throw BadAlloc.

(** [std::for_each]. *)
Fixpoint for_each (f : loc -> M heap unit) (v : list loc) : M heap unit :=
  match v with
  | [] => mret tt
  | d :: v' => _ ← f d; for_each f v'
  end.

(** ** The ownership invariant *)

(** How many of the pointers [os] own [l]. *)
Definition occ (l : loc) (os : list loc) : Z := Z.of_nat (count_occ Nat.eq_dec os l).

Definition rc_inv (m : gmap loc block) (os : list loc) : Prop :=
  forall l, match m !! l with
            | Some b => blk_count b = Some (occ l os) /\ 0 < occ l os
            | None => occ l os = 0
            end.

Definition data_of (h : heap) (l : loc) : option (list (option Z)) :=
  blk_data <$> hp_blocks h !! l.

Lemma occ_nil l : occ l [] = 0.
Proof. done. Qed.

Lemma occ_cons l x os : occ l (x :: os) = (if decide (x = l) then 1 else 0) + occ l os.
Proof.
  unfold occ. simpl. destruct (Nat.eq_dec x l), (decide (x = l)); lia || congruence.
Qed.

Lemma occ_app l os1 os2 : occ l (os1 ++ os2) = occ l os1 + occ l os2.
Proof. unfold occ. rewrite count_occ_app. lia. Qed.

Lemma occ_nonneg l os : 0 <= occ l os.
Proof. unfold occ. lia. Qed.

Lemma occ_le_length l os : occ l os <= zlen os.
Proof. unfold occ. pose proof (count_occ_bound Nat.eq_dec l os). lia. Qed.

Lemma occ_elem l os : 0 < occ l os <-> l ∈ os.
Proof. unfold occ. rewrite list_elem_of_In, (count_occ_In Nat.eq_dec). lia. Qed.

#[export] Hint Rewrite occ_nil occ_cons occ_app : mpio_rw.

#[export] Instance rc_inv_proper m : Proper ((≡ₚ) ==> iff) (rc_inv m).
Proof.
  assert (forall os os', os ≡ₚ os' -> rc_inv m os -> rc_inv m os') as H.
  { intros os os' Hp Hm l. specialize (Hm l). unfold occ in *.
    rewrite <-(proj1 (Permutation_count_occ Nat.eq_dec _ _) Hp l). done. }
  intros os os' Hp. split; apply H; [done|by symmetry].
Qed.

(** An owned block is there, with its count. *)
Lemma rc_inv_owned m os l :
  rc_inv m os -> l ∈ os -> exists b, m !! l = Some b /\ blk_count b = Some (occ l os).
Proof.
  intros Hm Hl. pose proof (Hm l) as Hml. apply occ_elem in Hl.
  destruct (m !! l) as [b|]; [destruct Hml; eauto|lia].
Qed.

(** A block nobody owns is not there: the invariant excludes leaks. *)
Lemma rc_inv_nil m : rc_inv m [] -> m = ∅.
Proof.
  intros Hm. apply map_empty. intros l. pose proof (Hm l) as Hml.
  destruct (m !! l); [destruct Hml as [_ Hml]; rewrite occ_nil in Hml; lia|done].
Qed.

(** [h'] shows the owners [os] the bytes [h] did. *)
Definition same_data (os : list loc) (h h' : heap) : Prop :=
  forall l, l ∈ os -> data_of h' l = data_of h l.

#[export] Instance same_data_preorder os : PreOrder (same_data os).
Proof. split; [done|]. intros h1 h2 h3 H1 H2 l Hl. by rewrite H2, H1. Qed.

Lemma same_data_incl os os' h h' : os' ⊆ os -> same_data os h h' -> same_data os' h h'.
Proof. unfold same_data. set_solver. Qed.

#[export] Hint Resolve same_data_incl : mpio.

(** Owners fit the 32-bit counter. *)
Definition few (os : list loc) : Prop := zlen os < 2 ^ 32.

Section HeapRules.
Context (E : exn -> heap -> Prop).
Implicit Types (h : heap) (m : gmap loc block) (os v : list loc) (l : loc).

Lemma wp_alloc_answer Q h :
  (forall ok s, s ⊆ hp_script h -> (ok = false -> false ∈ hp_script h) ->
     Q ok (Heap (hp_blocks h) s)) -> wp alloc_answer Q E h.
Proof.
  intros HQ. unfold wp, alloc_answer. destruct h as [m [|b s]]; apply HQ; simpl.
  - done.
  - done.
  - set_solver.
  - set_solver.
Qed.

Lemma wp_get_block Q h l b : hp_blocks h !! l = Some b -> Q b h -> wp (get_block l) Q E h.
Proof. intros Hb. unfold wp, get_block. by rewrite Hb. Qed.

Lemma wp_malloc Q h n :
  (forall s l, s ⊆ hp_script h -> hp_blocks h !! l = None -> n <= ptrdiff_max ->
     Q (Some l) (Heap (<[l := Block None (replicate (Z.to_nat n) None)]> (hp_blocks h)) s)) ->
  (forall s, n > ptrdiff_max \/ false ∈ hp_script h -> Q None (Heap (hp_blocks h) s)) ->
  wp (malloc n) Q E h.
Proof.
  intros HQ HN. unfold malloc. wp_step. apply wp_alloc_answer. intros ok s Hs Hok.
  case_bool_decide; destruct ok; simpl; unfold upd_blocks; wp_steps;
    try (apply HN; naive_solver lia).
  apply HQ; [done| |done]. apply not_elem_of_dom, is_fresh.
Qed.

Lemma wp_realloc Q h l n b :
  hp_blocks h !! l = Some b ->
  (forall s l', s ⊆ hp_script h -> delete l (hp_blocks h) !! l' = None -> n <= ptrdiff_max ->
     Q (Some l') (Heap (<[l' := Block (blk_count b)
         (take (Z.to_nat n) (blk_data b) ++
          replicate (Z.to_nat n - length (take (Z.to_nat n) (blk_data b))) None)]>
         (delete l (hp_blocks h))) s)) ->
  (forall s, n > ptrdiff_max \/ false ∈ hp_script h -> Q None (Heap (hp_blocks h) s)) ->
  wp (realloc l n) Q E h.
Proof.
  intros Hb HQ HN. unfold realloc. wp_step. apply wp_alloc_answer. intros ok s Hs Hok.
  case_bool_decide; destruct ok; simpl; wp_steps; try (apply HN; naive_solver lia).
  eapply wp_get_block; [done|]. unfold upd_blocks. wp_steps.
  apply HQ; [done| |done]. apply not_elem_of_dom, is_fresh.
Qed.

Lemma wp_push_back Q h v d :
  (forall s, s ⊆ hp_script h -> Q (v ++ [d]) (Heap (hp_blocks h) s)) ->
  (forall s, false ∈ hp_script h -> E BadAlloc (Heap (hp_blocks h) s)) ->
  wp (push_back v d) Q E h.
Proof.
  intros HQ HE. unfold push_back. wp_step. apply wp_alloc_answer.
  intros [] s Hs Hok; wp_steps; auto.
Qed.

Lemma wp_get_count Q h os l :
  rc_inv (hp_blocks h) os -> l ∈ os -> Q (occ l os) h -> wp (get_count l) Q E h.
Proof.
  intros Hm Hl HQ. destruct (rc_inv_owned _ _ _ Hm Hl) as (b & Hb & Hc).
  unfold get_count. wp_step. eapply wp_get_block; [done|]. rewrite Hc. by wp_steps.
Qed.

(** A fresh block with count one has one owner. *)
Lemma rc_inv_alloc m os l d :
  rc_inv m os -> m !! l = None -> rc_inv (<[l := Block (Some 1) d]> m) (l :: os).
Proof.
  intros Hm Hl l'. pose proof (Hm l) as Hl0. rewrite Hl in Hl0. specialize (Hm l').
  autorewrite with mpio_rw. destruct (decide (l = l')) as [<-|].
  - rewrite lookup_insert_eq, Hl0. split; [done|lia].
  - rewrite lookup_insert_ne by done. by rewrite Z.add_0_l.
Qed.

(** Changing the bytes of a block does not change who owns it. *)
Lemma rc_inv_data m os l b d :
  rc_inv m os -> m !! l = Some b -> rc_inv (<[l := Block (blk_count b) d]> m) os.
Proof.
  intros Hm Hl l'. pose proof (Hm l) as Hl0. rewrite Hl in Hl0. specialize (Hm l').
  destruct (decide (l = l')) as [<-|].
  - by rewrite lookup_insert_eq.
  - by rewrite lookup_insert_ne by done.
Qed.

(** A block with a single owner that is deleted leaves the others owned. *)
Lemma rc_inv_delete m os l : rc_inv m (l :: os) -> l ∉ os -> rc_inv (delete l m) os.
Proof.
  intros Hm Hl l'. pose proof (Hm l') as Hl'. rewrite occ_cons in Hl'.
  destruct (decide (l = l')) as [<-|].
  - rewrite lookup_delete_eq. rewrite <-occ_elem in Hl. pose proof (occ_nonneg l os). lia.
  - by rewrite lookup_delete_ne by done.
Qed.

(** A location that is not allocated is not owned. *)
Lemma rc_inv_not_owned m os l : rc_inv m os -> m !! l = None -> l ∉ os.
Proof.
  intros Hm Hl Hin. destruct (rc_inv_owned _ _ _ Hm Hin) as (b & Hb & _). congruence.
Qed.

(** init_count on a block that malloc just returned gives it one owner. *)
Lemma wp_init_count Q m os s l d :
  rc_inv m os -> m !! l = None ->
  (forall h', rc_inv (hp_blocks h') (l :: os) -> l ∉ os -> same_data os (Heap m s) h' ->
     data_of h' l = Some d -> hp_script h' = s -> delete l (hp_blocks h') = m -> Q tt h') ->
  wp (init_count l) Q E (Heap (<[l := Block None d]> m) s).
Proof.
  intros Hrc Hl HQ. unfold init_count. wp_step.
  eapply wp_get_block; [apply lookup_insert_eq|]. unfold upd_blocks. wp_steps.
  rewrite insert_insert_eq. pose proof (rc_inv_not_owned _ _ _ Hrc Hl) as Hno.
  apply HQ; simpl; [by apply rc_inv_alloc|done| | |done|by apply delete_insert_id].
  - intros l' Hl'. unfold data_of. simpl. rewrite lookup_insert_ne; [done|congruence].
  - unfold data_of. simpl. by rewrite lookup_insert_eq.
Qed.

(** realloc of a block with one owner. *)
Lemma wp_realloc_sole Q h os l n d :
  rc_inv (hp_blocks h) (l :: os) -> l ∉ os -> data_of h l = Some d -> zlen d <= n ->
  (forall h' l' pad, rc_inv (hp_blocks h') (l' :: os) -> l' ∉ os -> same_data os h h' ->
     data_of h' l' = Some (d ++ pad) -> zlen (d ++ pad) = n -> n <= ptrdiff_max ->
     Q (Some l') h') ->
  (forall h', hp_blocks h' = hp_blocks h -> n > ptrdiff_max \/ false ∈ hp_script h ->
     Q None h') ->
  wp (realloc l n) Q E h.
Proof.
  intros Hrc Hl Hd Hn HQ HN. unfold data_of in Hd.
  destruct (hp_blocks h !! l) as [b|] eqn:Hb; [|done]. simpl in Hd. injection Hd as Hbd.
  eapply wp_realloc; [done| |intros s Hf; by apply HN].
  intros s l' _ Hl' Hn'. rewrite Hbd, (take_ge d) by lia.
  assert (blk_count b = Some 1) as ->.
  { pose proof (Hrc l) as Hm. rewrite Hb, occ_cons, decide_True in Hm by done.
    rewrite <-occ_elem in Hl. pose proof (occ_nonneg l os).
    destruct Hm as [-> _]. f_equal. lia. }
  pose proof (rc_inv_delete _ _ _ Hrc Hl) as Hrc'.
  pose proof (rc_inv_not_owned _ _ _ Hrc' Hl') as Hno.
  eapply HQ; simpl; [by apply rc_inv_alloc|done| | | |done].
  - intros l0 Hl0. unfold data_of. simpl.
    rewrite lookup_insert_ne, lookup_delete_ne by congruence. done.
  - unfold data_of. simpl. by rewrite lookup_insert_eq.
  - rewrite length_app, length_replicate. lia.
Qed.

Lemma wp_incr_count Q h os l :
  rc_inv (hp_blocks h) os -> l ∈ os -> few (l :: os) ->
  (forall h', rc_inv (hp_blocks h') (l :: os) -> (forall l', data_of h' l' = data_of h l') ->
     Q tt h') ->
  wp (incr_count l) Q E h.
Proof.
  intros Hm Hl Hf HQ. unfold incr_count. wp_step. eapply wp_get_count; [done..|].
  destruct (rc_inv_owned _ _ _ Hm Hl) as (b & Hb & Hc).
  wp_step. eapply wp_get_block; [done|]. unfold upd_blocks. wp_steps.
  pose proof (occ_le_length l os). pose proof (occ_nonneg l os).
  unfold few in Hf. cbn [length] in Hf. rewrite wrap32_small by lia.
  apply HQ; simpl.
  - intros l'. pose proof (Hm l') as Hl'. autorewrite with mpio_rw.
    destruct (decide (l = l')) as [<-|].
    + rewrite lookup_insert_eq. simpl. split; [f_equal|]; lia.
    + rewrite lookup_insert_ne by done. by rewrite Z.add_0_l.
  - intros l'. unfold data_of. simpl. destruct (decide (l = l')) as [<-|].
    + by rewrite lookup_insert_eq, Hb.
    + by rewrite lookup_insert_ne by done.
Qed.

Lemma wp_decr_count Q h os l :
  rc_inv (hp_blocks h) (l :: os) -> few (l :: os) ->
  (forall h', rc_inv (hp_blocks h') os -> same_data os h h' -> Q tt h') ->
  wp (decr_count l) Q E h.
Proof.
  intros Hm Hf HQ. assert (l ∈ l :: os) as Hl by set_solver.
  unfold decr_count. wp_step. eapply wp_get_count; [done..|].
  destruct (rc_inv_owned _ _ _ Hm Hl) as (b & Hb & Hc).
  wp_step. eapply wp_get_block; [done|]. unfold upd_blocks. wp_steps.
  pose proof (occ_le_length l os). pose proof (occ_nonneg l os).
  unfold few in Hf. cbn [length] in Hf.
  assert (wrap32 (occ l (l :: os) - 1) = occ l os) as ->.
  { autorewrite with mpio_rw. rewrite decide_True by done. rewrite wrap32_small; lia. }
  assert (forall l', l <> l' -> occ l' (l :: os) = occ l' os) as Hne.
  { intros. autorewrite with mpio_rw. by rewrite decide_False by done. }
  destruct (Z.eqb_spec (occ l os) 0) as [Hz|Hz].
  - unfold free. wp_step. eapply wp_get_block; [apply lookup_insert_eq|].
    unfold upd_blocks. wp_steps. apply HQ; simpl.
    + intros l'. pose proof (Hm l') as Hl'. destruct (decide (l = l')) as [<-|].
      * by rewrite lookup_delete_eq.
      * rewrite lookup_delete_ne, lookup_insert_ne, <-Hne by done. done.
    + intros l' Hl'. assert (l <> l') by (intros <-; apply occ_elem in Hl'; lia).
      unfold data_of. simpl. by rewrite lookup_delete_ne, lookup_insert_ne by done.
  - wp_steps. apply HQ; simpl.
    + intros l'. pose proof (Hm l') as Hl'. destruct (decide (l = l')) as [<-|].
      * rewrite lookup_insert_eq. simpl. split; [done|lia].
      * by rewrite lookup_insert_ne, <-Hne by done.
    + intros l' _. unfold data_of. simpl. destruct (decide (l = l')) as [<-|].
      * by rewrite lookup_insert_eq, Hb.
      * by rewrite lookup_insert_ne by done.
Qed.

Lemma wp_for_each_decr Q h v os :
  rc_inv (hp_blocks h) (v ++ os) -> few (v ++ os) ->
  (forall h', rc_inv (hp_blocks h') os -> same_data os h h' -> Q tt h') ->
  wp (for_each decr_count v) Q E h.
Proof.
  revert h. induction v as [|l v IH]; intros h Hm Hf HQ; simpl in *.
  - wp_steps. by apply HQ.
  - wp_step. eapply wp_decr_count; [done..|]. intros h' Hm' Hd. apply IH; [done| |].
    + unfold few in *. cbn [length] in Hf. lia.
    + intros h'' Hm'' Hd''. apply HQ; [done|]. etrans; [|done].
      eapply same_data_incl; [|done]. set_solver.
Qed.
End HeapRules.
