(* ===== verification/StreamBuffer.v ===== *)
(** * stream_buffer (src/mp/stream_buffer.h)

    A growing receive buffer.  Its bytes lie in a reference-counted block:
    [m_off, m_used) holds the data that was received and not yet consumed,
    [m_used, m_used + m_free) is the space to receive into.  [ref] objects
    keep blocks alive while data parsed out of them is in use.

    The file defines every operation of the class on the heap of RcHeap, then
    shows that the class is a FIFO of bytes ([sb_rep] is the representation
    relation) whose operations never touch the bytes a [ref] holds. *)

From Stdlib Require Import ZArith Lia.
From stdpp Require Import base tactics option list numbers fin_maps gmap.
From S2P Require Import Prelude RcHeap.

(** ** State *)

(** [stream_buffer::ref] is its [m_array]. *)
Abbreviation ref := (list loc).

Record stream_buffer := StreamBuffer {
  m_buffer : loc;
  m_used : Z;
  m_free : Z;
  m_off : Z;
  m_ref : ref
}.

(** The object and the heap its pointers go to. *)
Abbreviation sbst := (heap * stream_buffer)%type.

Definition on_heap {A} (m : M heap A) : M sbst A := zoom fst (fun h st => (h, snd st)) m.
Definition get_sb : M sbst stream_buffer := st ← get; mret (snd st).
Definition put_sb (sb : stream_buffer) : M sbst unit := modify (fun st => (fst st, sb)).

(** ** class ref *)

Definition ref_new : ref := [].

(** [ref(const ref& o) : m_array(m_array)]: the vector is copied from itself,
    before its construction, instead of from [o.m_array]. *)
Definition ref_copy (o : ref) : M heap ref := undef.

Definition ref_clear (m_array : ref) : M heap ref :=
  _ ← for_each decr_count m_array;
  mret [].

Definition ref_push (m_array : ref) (d : loc) : M heap ref :=
  m_array' ← push_back m_array d;
  _ ← incr_count d;
  mret m_array'.

Definition ref_move (m_array : ref) (d : loc) : M heap ref := push_back m_array d.

Definition ref_swap (this x : ref) : ref * ref := (x, this).

(** ** class stream_buffer *)

Definition stream_buffer_new (initial_buffer_size : Z) : M heap stream_buffer :=
  let initsz := Z.max initial_buffer_size sizeof_count in
  p ← malloc initsz;
  match p with
  | None => throw BadAlloc
  | Some b =>
      _ ← init_count b;
      mret (StreamBuffer b sizeof_count (wrap64 (initsz - sizeof_count)) sizeof_count ref_new)
  end.

(** The destructor's body, then the destructor of the member [m_ref]. *)
Definition stream_buffer_delete (sb : stream_buffer) : M heap unit :=
  _ ← decr_count (m_buffer sb);
  _ ← ref_clear (m_ref sb);
  mret tt.

(** Pointers are a block and an offset. *)
Definition buffer : M sbst (loc * Z) := sb ← get_sb; mret (m_buffer sb, m_used sb).
Definition buffer_capacity : M sbst Z := sb ← get_sb; mret (m_free sb).
Definition buffer_filled (len : Z) : M sbst unit :=
  sb ← get_sb;
  put_sb (StreamBuffer (m_buffer sb) (wrap64 (m_used sb + len)) (wrap64 (m_free sb - len))
                       (m_off sb) (m_ref sb)).

Definition data : M sbst (loc * Z) := sb ← get_sb; mret (m_buffer sb, m_off sb).
Definition data_size : M sbst Z := sb ← get_sb; mret (wrap64 (m_used sb - m_off sb)).
Definition data_consumed (len : Z) : M sbst unit :=
  sb ← get_sb;
  put_sb (StreamBuffer (m_buffer sb) (m_used sb) (m_free sb) (wrap64 (m_off sb + len))
                       (m_ref sb)).

(** [ref r; r.swap(m_ref); return r;] *)
Definition retain : M sbst ref :=
  sb ← get_sb;
  let '(r, m_ref') := ref_swap ref_new (m_ref sb) in
  _ ← put_sb (StreamBuffer (m_buffer sb) (m_used sb) (m_free sb) (m_off sb) m_ref');
  mret r.

(** [to] is passed by address: its new value is the result. *)
Definition retain_to (to : ref) : M sbst ref :=
  sb ← get_sb;
  pushed ← on_heap (ref_push (m_ref sb) (m_buffer sb));
  let '(to', m_ref') := ref_swap to pushed in
  cleared ← on_heap (ref_clear m_ref');
  _ ← put_sb (StreamBuffer (m_buffer sb) (m_used sb) (m_free sb) (m_off sb) cleared);
  mret to'.

(** [cond && get_count(m_buffer) == 1] *)
Definition and_sole (cond : bool) : M sbst bool :=
  if cond then
    sb ← get_sb;
    c ← on_heap (get_count (m_buffer sb));
    mret (c =? 1)
  else mret false.

Definition expand_buffer (len initial_buffer_size : Z) : M sbst unit :=
  sb ← get_sb;
  sole ← and_sole (m_off sb =? sizeof_count);
  if sole : bool then
    next_size ← grow (wrap64 (wrap64 (m_used sb + m_free sb) * 2)) (wrap64 (len + m_used sb));
    tmp ← on_heap (realloc (m_buffer sb) next_size);
    match tmp with
    | None => throw BadAlloc
    | Some tmp =>
        put_sb (StreamBuffer tmp (m_used sb) (wrap64 (next_size - m_used sb)) (m_off sb)
                             (m_ref sb))
    end
  else
    let initsz := Z.max initial_buffer_size sizeof_count in
    let not_used := wrap64 (m_used sb - m_off sb) in
    next_size ← grow initsz (wrap64 (len + not_used + sizeof_count));
    tmp ← on_heap (malloc next_size);
    match tmp with
    | None => throw BadAlloc
    | Some tmp =>
        _ ← on_heap (init_count tmp);
        m_ref' ← catch (on_heap (ref_move (m_ref sb) (m_buffer sb)))
                       (fun e => _ ← on_heap (free tmp); throw e);
        _ ← on_heap (memcpy tmp sizeof_count (m_buffer sb) (m_off sb) not_used);
        let used := wrap64 (not_used + sizeof_count) in
        put_sb (StreamBuffer tmp used (wrap64 (next_size - used)) sizeof_count m_ref')
    end.

Definition reserve_buffer (len initial_buffer_size : Z) : M sbst unit :=
  sb ← get_sb;
  sole ← and_sole (m_used sb =? m_off sb);
  _ ← (if sole : bool then
         put_sb (StreamBuffer (m_buffer sb) sizeof_count
                   (wrap64 (m_free sb + wrap64 (m_used sb - sizeof_count))) sizeof_count
                   (m_ref sb))
       else mret tt);
  sb ← get_sb;
  if m_free sb <? len then expand_buffer len initial_buffer_size else mret tt.

(** What a client does with [buffer()]: it stores bytes there and declares them. *)
Definition receive (bs : list Z) : M sbst unit :=
  p ← buffer;
  _ ← on_heap (store p.1 p.2 bs);
  buffer_filled (zlen bs).

(** What a client reads through [data()] and [data_size()]. *)
Definition peek : M sbst (list (option Z)) :=
  p ← data;
  n ← data_size;
  b ← on_heap (get_block p.1);
  mret (slice p.2 n (blk_data b)).

(** ** Representation and ownership

    [sb_rep st os q]: the object holds the unconsumed bytes [q]; the block it
    points to and its [m_ref] own their blocks together with [os], the
    pointers that [ref] objects of the client hold. *)

Record sb_rep (st : sbst) (os : list loc) (q : list Z) : Prop := SbRep {
  rep_rc : rc_inv (hp_blocks (fst st)) (m_buffer (snd st) :: m_ref (snd st) ++ os);
  rep_data : exists d, data_of (fst st) (m_buffer (snd st)) = Some d /\
    zlen d = m_used (snd st) + m_free (snd st) /\
    slice (m_off (snd st)) (m_used (snd st) - m_off (snd st)) d = Some <$> q;
  rep_off : sizeof_count <= m_off (snd st) <= m_used (snd st);
  rep_free : 0 <= m_free (snd st);
  rep_cap : m_used (snd st) + m_free (snd st) <= ptrdiff_max
}.

(** The first [u] cells of block [l] are [bs], and the buffer has filled that
    far when [l] is its current block: what a [ref] taken then relies on. *)
Definition pinned (st : sbst) (l : loc) (u : Z) (bs : list (option Z)) : Prop :=
  (exists d, data_of (fst st) l = Some d /\ 0 <= u <= zlen d /\ slice 0 u d = bs) /\
  (l = m_buffer (snd st) -> u <= m_used (snd st)).

(** Every byte range pinned through one of [os] stays pinned. *)
Definition keeps (os : list loc) (st st' : sbst) : Prop :=
  forall l u bs, l ∈ os -> pinned st l u bs -> pinned st' l u bs.

#[export] Instance keeps_preorder os : PreOrder (keeps os).
Proof.
  split; [by intros st l u bs|]. intros st1 st2 st3 H1 H2 l u bs Hl Hp. by apply H2, H1.
Qed.

(** Representation does not depend on the order in which owners are listed. *)
#[export] Instance sb_rep_proper st : Proper ((≡ₚ) ==> (=) ==> iff) (sb_rep st).
Proof.
  assert (forall os os' q, os ≡ₚ os' -> sb_rep st os q -> sb_rep st os' q) as H.
  { intros os os' q Hp []; split; [|done..]. by rewrite <-Hp. }
  intros os os' Hp q ? <-. split; apply H; [done|by symmetry].
Qed.

Lemma rep_length st os q :
  sb_rep st os q -> zlen q = m_used (snd st) - m_off (snd st).
Proof.
  intros [? (d & _ & Hlen & Hq) ? ? ?]. apply (f_equal length) in Hq.
  rewrite length_fmap in Hq. rewrite <-Hq. apply zlen_slice; unfold sizeof_count in *; lia.
Qed.

(** The class reports what it holds. *)
Lemma rep_peek st os q : sb_rep st os q -> peek st = Ret (Some <$> q) st.
Proof.
  destruct st as [h sb]. intros Hr. pose proof (rep_length _ _ _ Hr).
  destruct Hr as [? (d & Hd & Hlen & Hq) ? ? ?]; simpl in *.
  unfold data_of in Hd. destruct (hp_blocks h !! m_buffer sb) as [b|] eqn:Hb; [|done].
  unfold ptrdiff_max, sizeof_count in *. injection Hd as Hbd.
  unfold peek, mbind, M_bind, data, data_size, get_sb, mbind, M_bind, get, mret, M_ret,
    on_heap, zoom, get_block; simpl. rewrite Hb. simpl.
  rewrite wrap64_small by lia. by rewrite Hbd, Hq.
Qed.

Section Rules.
Implicit Types (st : sbst) (os : list loc) (q : list Z) (E : exn -> sbst -> Prop).

Lemma wp_get_sb Q E st : Q (snd st) st -> wp get_sb Q E st.
Proof. done. Qed.

Lemma wp_put_sb sb' Q E st : Q tt (fst st, sb') -> wp (put_sb sb') Q E st.
Proof. done. Qed.

Lemma wp_on_heap {A} (m : M heap A) Q E st :
  wp m (fun a h => Q a (h, snd st)) (fun e h => E e (h, snd st)) (fst st) ->
  wp (on_heap m) Q E st.
Proof. intros H. exact (wp_zoom fst (fun h st => (h, snd st)) m Q E st H). Qed.

Lemma wp_and_sole c os q Q E st :
  sb_rep st os q ->
  (c = true -> m_buffer (snd st) ∉ m_ref (snd st) ++ os -> Q true st) ->
  (c = false \/ m_buffer (snd st) ∈ m_ref (snd st) ++ os -> Q false st) ->
  wp (and_sole c) Q E st.
Proof.
  intros [Hrc _ _ _ _] HT HF. unfold and_sole. destruct c; [|by apply wp_ret, HF; left].
  wp_step. apply wp_get_sb. wp_step. apply wp_on_heap.
  eapply wp_get_count; [done|set_solver|].
  apply wp_ret. destruct st as [h sb]. simpl.
  rewrite occ_cons, decide_True by done.
  pose proof (occ_nonneg (m_buffer sb) (m_ref sb ++ os)).
  destruct (Z.eqb_spec (1 + occ (m_buffer sb) (m_ref sb ++ os)) 1).
  - apply HT; simpl; [done|]. rewrite <-occ_elem. lia.
  - apply HF; simpl. right. rewrite <-occ_elem. lia.
Qed.
End Rules.

Ltac sb_step :=
  lazymatch goal with
  | |- wp get_sb _ _ _ => apply wp_get_sb
  | |- wp (put_sb _) _ _ _ => apply wp_put_sb
  | |- wp (on_heap _) _ _ _ => apply wp_on_heap
  | _ => wp_step
  end.
Ltac sb_steps := repeat (sb_step; simpl).

(** ** Construction, filling and consuming *)

Lemma new_rep h os init :
  rc_inv (hp_blocks h) os -> 0 <= init ->
  wp (stream_buffer_new init)
     (fun sb h' => sb_rep (h', sb) os [] /\ same_data os h h')
     (fun e h' => e = BadAlloc /\ hp_blocks h' = hp_blocks h) h.
Proof.
  intros Hrc Hi. unfold stream_buffer_new. wp_step.
  apply wp_malloc; [|intros s _; by wp_steps].
  intros s l _ Hl Hn. wp_step. apply (wp_init_count _ _ _ os); [done..|].
  intros h' Hrc' _ Hsd Hd _ _. wp_steps. unfold sizeof_count, ptrdiff_max in *.
  rewrite wrap64_small by lia. split; [|done].
  split; simpl; [done| |unfold sizeof_count, ptrdiff_max; lia..].
  eexists. split; [done|]. rewrite length_replicate. split; [lia|done].
Qed.

Lemma receive_rep st os q bs :
  sb_rep st os q -> zlen bs <= m_free (snd st) ->
  wp (receive bs) (fun _ st' => sb_rep st' os (q ++ bs) /\ keeps os st st') no_exn st.
Proof.
  destruct st as [h sb]. intros [Hrc (d & Hd & Hlen & Hq) Hoff Hfree Hcap] Hbs; simpl in *.
  unfold data_of in Hd. destruct (hp_blocks h !! m_buffer sb) as [b|] eqn:Hb; [|done].
  simpl in Hd. injection Hd as Hbd. subst d.
  unfold sizeof_count, ptrdiff_max in *.
  unfold receive, buffer. sb_steps. unfold store. wp_step.
  eapply wp_get_block; [done|]. rewrite bool_decide_true by lia.
  unfold upd_blocks, buffer_filled. sb_steps. rewrite !wrap64_small by lia.
  assert (zlen (splice (m_used sb) (Some <$> bs) (blk_data b)) = m_used sb + m_free sb) as Hl'.
  { rewrite zlen_splice; rewrite ?length_fmap; lia. }
  split.
  - split; simpl; unfold sizeof_count, ptrdiff_max; [by apply rc_inv_data| |lia..].
    eexists. unfold data_of. simpl. rewrite lookup_insert_eq. split; [done|]. simpl.
    split; [lia|].
    replace (m_used sb + zlen bs - m_off sb)
      with ((m_used sb - m_off sb) + zlen bs) by lia.
    rewrite slice_split, slice_splice_before, Hq by lia.
    replace (m_off sb + (m_used sb - m_off sb)) with (m_used sb) by lia.
    rewrite slice_splice_same by (rewrite ?length_fmap; lia). by rewrite fmap_app.
  - intros l u bs' Hl [(d & Hd & Hu & Hs) Hcur]. simpl in *. unfold data_of in Hd.
    split; simpl; [|intros; specialize (Hcur ltac:(done)); lia].
    destruct (decide (m_buffer sb = l)) as [<-|Hne].
    + rewrite Hb in Hd. injection Hd as <-. unfold data_of. simpl.
      rewrite lookup_insert_eq. eexists. split; [done|]. simpl.
      split; [lia|]. rewrite slice_splice_before by (specialize (Hcur ltac:(done)); lia). done.
    + exists d. unfold data_of. simpl. rewrite lookup_insert_ne by done. by rewrite Hd.
Qed.

Lemma consumed_rep st os q n :
  sb_rep st os q -> 0 <= n <= zlen q ->
  wp (data_consumed n)
     (fun _ st' => sb_rep st' os (drop (Z.to_nat n) q) /\ keeps os st st') no_exn st.
Proof.
  destruct st as [h sb]. intros Hr Hn. pose proof (rep_length _ _ _ Hr) as Hql.
  destruct Hr as [Hrc (d & Hd & Hlen & Hq) Hoff Hfree Hcap]; simpl in *.
  unfold sizeof_count, ptrdiff_max in *. unfold data_consumed. sb_steps.
  rewrite wrap64_small by lia. split; [|by intros l u bs].
  split; simpl; unfold sizeof_count, ptrdiff_max; [done| |lia..].
  exists d. split; [done|]. split; [done|].
  rewrite fmap_drop, <-Hq.
  replace (slice (m_off sb + n) (m_used sb - (m_off sb + n)) d)
    with (slice n (m_used sb - m_off sb - n) (slice (m_off sb) (m_used sb - m_off sb) d))
    by (rewrite slice_slice by lia; f_equal; lia).
  rewrite Hq. unfold slice. apply take_ge. rewrite length_drop, length_fmap. lia.
Qed.

(** ** Growing *)

(** The in-place branch: [realloc] of a block nobody else holds. *)
Lemma realloc_rep st os q next d :
  sb_rep st os q -> m_buffer (snd st) ∉ m_ref (snd st) ++ os ->
  data_of (fst st) (m_buffer (snd st)) = Some d -> zlen d <= next ->
  wp (on_heap (realloc (m_buffer (snd st)) next))
     (fun p st' => match p with
        | None => sb_rep st' os q /\ keeps os st st' /\
            (next > ptrdiff_max \/ false ∈ hp_script (fst st))
        | Some l => next <= ptrdiff_max /\ snd st' = snd st /\
            (let sb := snd st in let sb' := StreamBuffer l (m_used sb)
               (next - m_used sb) (m_off sb) (m_ref sb) in
             sb_rep (fst st', sb') os q /\ keeps os st (fst st', sb'))
        end) no_exn st.
Proof.
  destruct st as [h sb]. intros [Hrc (d' & Hd' & Hlen & Hq) Hoff Hfree Hcap] Hsole Hd Hn.
  simpl in *. assert (d' = d) as -> by congruence. apply wp_on_heap. simpl.
  eapply wp_realloc_sole; [done..| |].
  - intros h' l' pad Hrc' Hno Hsd Hdl' Hpad Hpm. simpl. split_and!; [done..| |].
    + split; simpl; [done| |done|lia|lia]. eexists. split; [done|]. split; [lia|].
      unfold sizeof_count in *. by rewrite slice_app_l by lia.
    + intros l u bs Hl [(d0 & Hd0 & Hu & Hs) Hcur]. simpl in *.
      assert (l ∈ m_ref sb ++ os) as Hown by (clear -Hl; set_solver).
      split; simpl; [exists d0; by rewrite Hsd|congruence].
  - intros h' Hh' Hf. simpl. unfold data_of in Hd. split; [|split; [|done]].
    + split; simpl; [by rewrite Hh'| |done..]. exists d. unfold data_of. by rewrite Hh'.
    + intros l u bs Hl. unfold pinned, data_of. simpl. by rewrite Hh'.
Qed.

(** The other branch: the unconsumed bytes move to a new block [l] and [m_ref]
    takes over the old one. *)
Lemma move_rep st os q next l h1 :
  sb_rep st os q ->
  let sb := snd st in
  rc_inv (hp_blocks h1) (l :: m_buffer sb :: m_ref sb ++ os) ->
  l ∉ m_buffer sb :: m_ref sb ++ os -> same_data (m_buffer sb :: m_ref sb ++ os) (fst st) h1 ->
  data_of h1 l = Some (replicate (Z.to_nat next) None) ->
  zlen q + sizeof_count <= next <= ptrdiff_max ->
  let sb' := StreamBuffer l (zlen q + sizeof_count) (next - (zlen q + sizeof_count))
                          sizeof_count (m_ref sb ++ [m_buffer sb]) in
  wp (memcpy l sizeof_count (m_buffer sb) (m_off sb) (zlen q))
     (fun _ h' => sb_rep (h', sb') os q /\ keeps os st (h', sb')) no_exn h1.
Proof.
  destruct st as [h sb]. intros Hr. simpl. intros Hrc1 Hno Hsd Hl Hn.
  pose proof (rep_length _ _ _ Hr) as Hql.
  destruct Hr as [_ (d & Hd & Hlen & Hq) Hoff Hfree Hcap]. simpl in *.
  rewrite <-(Hsd (m_buffer sb)) in Hd by set_solver. unfold data_of in Hd, Hl.
  destruct (hp_blocks h1 !! m_buffer sb) as [b|] eqn:Hb; [|done].
  destruct (hp_blocks h1 !! l) as [bl|] eqn:Hbl; [|done].
  simpl in Hd, Hl. injection Hd as <-. injection Hl as Hdl.
  assert (l <> m_buffer sb) by (clear -Hno; set_solver).
  unfold sizeof_count, ptrdiff_max in *. unfold memcpy. wp_step.
  eapply wp_get_block; [done|]. wp_step. eapply wp_get_block; [done|].
  rewrite Hdl, bool_decide_true by (rewrite length_replicate; repeat split; (done || lia)).
  unfold upd_blocks. wp_steps. rewrite Hql, Hq.
  split.
  - split; simpl; unfold sizeof_count, ptrdiff_max; [| |lia..].
    + rewrite <-app_assoc. simpl. rewrite <-Permutation_middle. by apply rc_inv_data.
    + eexists. unfold data_of. simpl. rewrite lookup_insert_eq. split; [done|]. simpl.
      rewrite zlen_splice by (rewrite ?length_replicate, ?length_fmap; lia).
      rewrite length_replicate. split; [lia|].
      apply slice_splice_same; rewrite ?length_replicate, ?length_fmap; lia.
  - intros l' u bs Hl' [(d0 & Hd0 & Hu & Hs) Hcur]. simpl in *.
    assert (l <> l') by (clear -Hno Hl'; set_solver).
    split; simpl; [|congruence]. exists d0. split; [|done].
    rewrite <-Hd0, <-(Hsd l') by (clear -Hl'; set_solver).
    unfold data_of. simpl. by rewrite lookup_insert_ne by done.
Qed.

(** [len] more bytes can be asked for without [size_t] overflow. *)
Definition reserve_pre (st : sbst) (len init : Z) : Prop :=
  0 <= len /\ 0 <= init < 2 ^ 64 /\ m_used (snd st) + len <= 2 ^ 63.

(** What an allocation failure can be blamed on. *)
Definition short_of_memory (st : sbst) (len init : Z) : Prop :=
  false ∈ hp_script (fst st) \/ 2 ^ 61 < m_used (snd st) + m_free (snd st) \/
  2 ^ 61 < len \/ 2 ^ 61 < init.

Lemma expand_rep st os q len init :
  sb_rep st os q -> reserve_pre st len init ->
  wp (expand_buffer len init)
     (fun _ st' => sb_rep st' os q /\ keeps os st st' /\ len <= m_free (snd st'))
     (fun e st' => e = BadAlloc /\ sb_rep st' os q /\ keeps os st st' /\
        short_of_memory st len init) st.
Proof.
  intros Hr (Hlen & Hi & Hmax). unfold expand_buffer. wp_step. apply wp_get_sb. wp_step.
  pose proof (rep_length _ _ _ Hr) as Hql.
  destruct (rep_data _ _ _ Hr) as (d & Hd & Hdl & _).
  pose proof (rep_off _ _ _ Hr). pose proof (rep_free _ _ _ Hr). pose proof (rep_cap _ _ _ Hr).
  unfold sizeof_count, ptrdiff_max in *.
  eapply wp_and_sole; [done| |].
  - intros _ Hsole. rewrite (wrap64_small (_ + m_free _)) by lia.
    rewrite !wrap64_small by lia. wp_step. apply wp_grow; [lia..|].
    intros next Hnext Hge Hup. wp_step.
    eapply wp_mono; [..|eapply realloc_rep; try done; lia]; [|done].
    intros [l|] st'; simpl.
    + intros (Hpm & Hsb & Hr' & Hk). apply wp_put_sb. unfold ptrdiff_max in Hpm.
      rewrite wrap64_small by lia. split; [done|]. split; [done|]. simpl. lia.
    + intros (Hr' & Hk & Hf). apply wp_throw. split_and!; [done..|].
      unfold short_of_memory, ptrdiff_max in *. destruct Hf as [Hf|Hf]; [right; lia|by left].
  - intros _. rewrite (wrap64_small (_ - _)) by lia.
    rewrite !wrap64_small by (unfold sizeof_count; lia).
    unfold sizeof_count. wp_step. apply wp_grow; [lia..|].
    intros next Hnext Hge Hup. wp_step. apply wp_on_heap.
    apply wp_malloc; [|intros s Hf; simpl; apply wp_throw].
    2: { split; [done|]. split; [by destruct Hr|]. split; [by intros l u bs|].
         unfold short_of_memory, ptrdiff_max in *. destruct Hf as [Hf|Hf]; [right; lia|by left]. }
    intros s l Hs Hl Hpm. simpl. unfold ptrdiff_max in Hpm.
    wp_step. apply wp_on_heap. simpl. pose proof (rep_rc _ _ _ Hr) as Hrc.
    eapply wp_init_count; [done..|]. intros h1 Hrc1 Hno Hsd Hnew Hs1 Hdel. simpl. wp_steps.
    apply wp_on_heap. unfold ref_move. simpl. apply wp_push_back; intros s' Hf; simpl.
    + sb_steps. rewrite <-Hql. eapply wp_mono; [| |eapply move_rep; try done].
      * intros _ h' [Hr' Hk]. apply wp_put_sb. simpl. unfold sizeof_count in *.
        rewrite !wrap64_small by lia. split; [done|]. split; [done|]. simpl. lia.
      * done.
      * unfold sizeof_count, ptrdiff_max. lia.
    + sb_steps. unfold free.
      assert (l ∈ l :: m_buffer (snd st) :: m_ref (snd st) ++ os) as Hin by set_solver.
      destruct (rc_inv_owned _ _ _ Hrc1 Hin) as (b & Hb & _).
      wp_step. eapply wp_get_block; [done|].
      unfold upd_blocks. sb_steps. rewrite Hdel.
      split; [done|]. split; [by destruct Hr|]. split; [by intros l' u bs|].
      left. apply Hs. by rewrite <-Hs1.
Qed.

Lemma reserve_rep st os q len init :
  sb_rep st os q -> reserve_pre st len init ->
  wp (reserve_buffer len init)
     (fun _ st' => sb_rep st' os q /\ keeps os st st' /\ len <= m_free (snd st'))
     (fun e st' => e = BadAlloc /\ sb_rep st' os q /\ keeps os st st' /\
        short_of_memory st len init) st.
Proof.
  intros Hr Hpre. unfold reserve_buffer. wp_step. apply wp_get_sb. wp_step.
  assert (forall st1, sb_rep st1 os q -> keeps os st st1 -> reserve_pre st1 len init ->
    (short_of_memory st1 len init -> short_of_memory st len init) ->
    wp (sb ← get_sb; if m_free sb <? len then expand_buffer len init else mret tt)
     (fun _ st' => sb_rep st' os q /\ keeps os st st' /\ len <= m_free (snd st'))
     (fun e st' => e = BadAlloc /\ sb_rep st' os q /\ keeps os st st' /\
        short_of_memory st len init) st1) as Hrest.
  { intros st1 Hr1 Hk1 Hp1 Hshort. wp_step. apply wp_get_sb.
    destruct (Z.ltb_spec (m_free (snd st1)) len); [|by wp_steps].
    eapply wp_mono; [| |by eapply expand_rep].
    - intros _ st' (? & Hk & ?). split_and!; [done| |done]. by trans st1.
    - intros e st' (? & ? & Hk & ?). split_and!; [done..| |by apply Hshort]. by trans st1. }
  eapply wp_and_sole; [done| |].
  - intros Heq Hsole. apply Z.eqb_eq in Heq. wp_step. apply wp_put_sb.
    pose proof (rep_length _ _ _ Hr) as Hql. destruct Hpre as (? & ? & ?).
    destruct Hr as [Hrc (d & Hd & Hdl & Hq) Hoff Hfree Hcap].
    unfold sizeof_count, ptrdiff_max in *. rewrite (wrap64_small (_ - _)) by lia.
    rewrite wrap64_small by lia.
    assert (q = []) as -> by (apply length_zero_iff_nil; lia).
    apply Hrest; simpl.
    + split; simpl; unfold sizeof_count, ptrdiff_max; [done| |lia..].
      exists d. split; [done|]. split; [lia|done].
    + intros l u bs Hl [Hdat Hcur]. split; [done|]. simpl. intros ->. clear -Hsole Hl. set_solver.
    + split_and!; simpl; lia.
    + unfold short_of_memory. simpl. intros [?|?]; [by left|right; lia].
  - intros _. wp_step. apply wp_ret. by apply Hrest.
Qed.

(** ** Handing blocks to a [ref], and destruction *)

Lemma same_data_keeps os h h' sb sb' :
  same_data os h h' -> m_buffer sb' = m_buffer sb -> m_used sb' = m_used sb ->
  keeps os (h, sb) (h', sb').
Proof.
  intros Hs Hb Hu l u bs Hl [(d & Hd & ? & ?) Hc]. simpl in *. split; simpl; [exists d; by rewrite Hs|].
  rewrite Hb, Hu. exact Hc.
Qed.

(** [to] receives every block retained so far and the current one; the
    pointers it held are released. *)
Lemma retain_to_rep st os q to :
  sb_rep st (to ++ os) q -> few (m_buffer (snd st) :: m_buffer (snd st) :: m_ref (snd st) ++ to ++ os) ->
  wp (retain_to to)
     (fun to' st' => to' = m_ref (snd st) ++ [m_buffer (snd st)] /\
        sb_rep st' (to' ++ os) q /\ keeps os st st' /\
        (let sb := snd st in snd st' = StreamBuffer (m_buffer sb) (m_used sb) (m_free sb)
                                                    (m_off sb) []))
     (fun e st' => e = BadAlloc /\ sb_rep st' (to ++ os) q /\ keeps (to ++ os) st st') st.
Proof.
  destruct st as [h sb]. intros [Hrc (d & Hd & Hlen & Hq) Hoff Hfree Hcap] Hfew. simpl in *.
  unfold retain_to. sb_steps. unfold ref_push. wp_step. apply wp_push_back; intros s _; simpl.
  2: { split; [done|]. split; [by split; [..|exists d| | |]|]. by apply same_data_keeps. }
  wp_step. eapply wp_incr_count; [done|set_solver|done|]. intros h1 Hrc1 Hd1. sb_steps.
  unfold ref_clear. wp_step. eapply (wp_for_each_decr _ _ _ _ ((m_ref sb ++ [m_buffer sb]) ++ m_buffer sb :: os)).
  - eapply rc_inv_proper; [|exact Hrc1]. solve_Permutation.
  - unfold few in *. revert Hfew. rewrite ?length_app. simpl. rewrite ?length_app. lia.
  - intros h2 Hrc2 Hd2. sb_steps.
    assert (data_of h2 (m_buffer sb) = Some d) as Hd2'.
    { rewrite Hd2 by set_solver. by rewrite Hd1. }
    split; [done|]. split; [|split; [|done]].
    + split; simpl; [|by exists d|done..]. eapply rc_inv_proper; [|exact Hrc2]. solve_Permutation.
    + apply same_data_keeps; [|done..]. intros l Hl. rewrite Hd2 by set_solver. by rewrite Hd1.
Qed.

Lemma retain_rep st os q :
  sb_rep st os q ->
  let sb := snd st in
  let sb' := StreamBuffer (m_buffer sb) (m_used sb) (m_free sb) (m_off sb) [] in
  retain st = Ret (m_ref sb) (fst st, sb') /\ sb_rep (fst st, sb') (m_ref sb ++ os) q.
Proof. by intros []. Qed.

Lemma delete_rep st os q :
  sb_rep st os q -> few (m_buffer (snd st) :: m_ref (snd st) ++ os) ->
  wp (stream_buffer_delete (snd st))
     (fun _ h' => rc_inv (hp_blocks h') os /\ same_data os (fst st) h') no_exn (fst st).
Proof.
  destruct st as [h sb]. intros [Hrc _ _ _ _] Hfew. simpl in *. unfold stream_buffer_delete.
  wp_step. eapply wp_decr_count; [done..|]. intros h1 Hrc1 Hd1. wp_step.
  unfold ref_clear. wp_step. eapply wp_for_each_decr; [done| |].
  - unfold few in *. cbn [length] in Hfew. lia.
  - intros h2 Hrc2 Hd2. wp_steps. split; [done|].
    intros l Hl. by rewrite Hd2, Hd1 by set_solver.
Qed.

(** ** The contract: a FIFO of bytes

    A client owns the buffer and some [ref] objects.  It performs operations
    in any order, as long as each respects what the header asks for; an
    operation may throw [bad_alloc] and the client goes on.  The copy constructor
    of [ref] is not among the operations: it copies its member from itself, which is
    undefined ([ref_copy]); the object that [retain] returns is the client's. *)

Inductive sb_op : Type :=
| OpReserve (len init : Z)        (* reserve_buffer(len, init) *)
| OpReceive (bs : list Z)         (* store bs at buffer(); buffer_filled(|bs|) *)
| OpConsume (n : Z)               (* data_consumed(n) *)
| OpRetainTo (i : nat)            (* retain_to(&refs[i]) *)
| OpRetain                        (* a new ref, initialised by retain() *)
| OpSwap (i j : nat)              (* refs[i].swap(refs[j]) *)
| OpClear (i : nat).              (* refs[i].clear() *)

Abbreviation client := (sbst * list ref)%type.

Definition on_sb {A} (m : M sbst A) : M client A := zoom fst (fun st c => (st, snd c)) m.

Definition client_ref (i : nat) : M client ref :=
  c ← get;
  match snd c !! i with
  | Some r => mret r
  | None => undef
  end.

Definition set_ref (i : nat) (r : ref) : M client unit :=
  modify (fun c => (fst c, <[i := r]> (snd c))).

Definition run_op (op : sb_op) : M client unit :=
  match op with
  | OpReserve len init => on_sb (reserve_buffer len init)
  | OpReceive bs => on_sb (receive bs)
  | OpConsume n => on_sb (data_consumed n)
  | OpRetainTo i => to ← client_ref i; to' ← on_sb (retain_to to); set_ref i to'
  | OpRetain => r ← on_sb retain; modify (fun c => (fst c, snd c ++ [r]))
  | OpSwap i j =>
      this ← client_ref i;
      x ← client_ref j;
      let '(this, x) := ref_swap this x in
      _ ← set_ref i this;
      set_ref j x
  | OpClear i => r ← client_ref i; r' ← on_sb (on_heap (ref_clear r)); set_ref i r'
  end.

(** What the caller must ensure. *)
Definition contract (c : client) (op : sb_op) : Prop :=
  match op with
  | OpReserve len init => reserve_pre (fst c) len init
  | OpReceive bs => zlen bs <= m_free (snd (fst c))
  | OpConsume n => 0 <= n <= m_used (snd (fst c)) - m_off (snd (fst c))
  | OpRetain => True
  | OpSwap i j => (i < length (snd c))%nat /\ (j < length (snd c))%nat
  | OpRetainTo i | OpClear i =>
      (i < length (snd c))%nat /\
      few (m_buffer (snd (fst c)) :: m_buffer (snd (fst c)) :: m_ref (snd (fst c))
             ++ concat (snd c))
  end.

(** The specification: the bytes that were received and not consumed. *)
Definition fifo_step (q : list Z) (op : sb_op) : list Z :=
  match op with
  | OpReceive bs => q ++ bs
  | OpConsume n => drop (Z.to_nat n) q
  | _ => q
  end.

Definition client_inv (c : client) (q : list Z) : Prop := sb_rep (fst c) (concat (snd c)) q.

(** The pointers of the other [ref] objects. *)
Definition others (op : sb_op) (refs : list ref) : list loc :=
  match op with
  | OpRetainTo i | OpClear i => concat (delete i refs)
  | _ => concat refs
  end.

(** The operation is not on the [i]-th [ref]. *)
Definition avoids (i : nat) (op : sb_op) : Prop :=
  match op with
  | OpRetainTo j | OpClear j => j <> i
  | OpSwap j k => j <> i /\ k <> i
  | _ => True
  end.

Lemma few_perm os os' : os ≡ₚ os' -> few os -> few os'.
Proof. unfold few. intros Hp. by rewrite Hp. Qed.

Lemma wp_client_ref i Q E (c : client) r :
  snd c !! i = Some r -> Q r c -> wp (client_ref i) Q E c.
Proof. intros Hi HQ. unfold client_ref. wp_steps. by rewrite Hi. Qed.

Lemma clear_rep st os q r :
  sb_rep st (r ++ os) q -> few (m_buffer (snd st) :: m_ref (snd st) ++ r ++ os) ->
  wp (on_heap (ref_clear r))
     (fun r' st' => r' = [] /\ sb_rep st' os q /\ keeps os st st') no_exn st.
Proof.
  destruct st as [h sb]. intros [Hrc (d & Hd & ? & ?) ? ? ?] Hf. simpl in *.
  apply wp_on_heap. unfold ref_clear. wp_step.
  eapply (wp_for_each_decr _ _ _ r (m_buffer sb :: m_ref sb ++ os)).
  - eapply rc_inv_proper; [|exact Hrc]. solve_Permutation.
  - eapply few_perm; [|exact Hf]. solve_Permutation.
  - intros h' Hrc' Hd'. wp_steps. split; [done|]. split.
    + split; simpl; [done| |done..]. exists d. by rewrite Hd' by set_solver.
    + apply same_data_keeps; [|done..]. intros l Hl. apply Hd'. set_solver.
Qed.

(** One client operation follows the specification, or throws and keeps the bytes. *)
Lemma run_op_refines c q op :
  client_inv c q -> contract c op ->
  wp (run_op op)
     (fun _ c' => client_inv c' (fifo_step q op) /\
        (forall i r, avoids i op -> snd c !! i = Some r -> snd c' !! i = Some r) /\
        keeps (others op (snd c)) (fst c) (fst c'))
     (fun e c' => e = BadAlloc /\ client_inv c' q /\ snd c' = snd c /\
        keeps (others op (snd c)) (fst c) (fst c')) c.
Proof.
  destruct c as [st refs]. unfold client_inv, contract. simpl.
  intros Hr Hc. destruct op as [len init|bs|n|i| |i j|i]; simpl in *.
  - apply wp_zoom. eapply wp_mono; [| |by eapply reserve_rep].
    + by intros _ st' (? & ? & _).
    + by intros e st' (? & ? & ? & _).
  - apply wp_zoom. eapply wp_mono; [| |by eapply receive_rep]; [|done].
    by intros _ st' (? & ?).
  - apply wp_zoom. eapply wp_mono; [| |eapply (consumed_rep _ _ _ n Hr)]; [|done|].
    + by intros _ st' (? & ?).
    + by rewrite (rep_length _ _ _ Hr).
  - destruct Hc as [Hi Hf]. destruct (lookup_lt_is_Some_2 _ _ Hi) as [to Hto].
    wp_step. eapply wp_client_ref; [done|]. wp_step. apply wp_zoom.
    pose proof (concat_lookup _ _ _ Hto) as Hp.
    eapply wp_mono; [| |eapply retain_to_rep].
    + intros to' st' (_ & Hr' & Hk & _). unfold set_ref. wp_steps.
      rewrite (concat_insert _ _ _ Hi). split_and!; [done| |done].
      intros j rj Hj Hrj. by rewrite list_lookup_insert_ne.
    + intros e st' (-> & Hr' & Hk). simpl. rewrite Hp. split_and!; [done..|].
      intros l u b Hl. apply Hk. set_solver.
    + by rewrite <-Hp.
    + eapply few_perm; [|exact Hf]. by rewrite Hp.
  - destruct (retain_rep _ _ _ Hr) as [Hrun Hr']. wp_step. apply wp_zoom. unfold wp at 1. cbn [fst snd]. rewrite Hrun.
    wp_steps. rewrite concat_app. cbn [concat]. rewrite app_nil_r, (Permutation_app_comm (concat refs)). split; [done|]. split.
    + intros i r _ Hi. by apply lookup_app_l_Some.
    + by intros l u bs.
  - destruct Hc as [Hi Hj]. destruct (lookup_lt_is_Some_2 _ _ Hi) as [ri Hri], (lookup_lt_is_Some_2 _ _ Hj) as [rj Hrj].
    wp_step. eapply wp_client_ref; [done|]. wp_step. eapply wp_client_ref; [done|]. unfold set_ref. wp_steps.
    rewrite (concat_swap _ _ _ _ _ Hri Hrj). split; [done|]. split; [|done].
    intros k r [Hki Hkj] Hk. by rewrite !list_lookup_insert_ne.
  - destruct Hc as [Hi Hf]. destruct (lookup_lt_is_Some_2 _ _ Hi) as [r Hri].
    wp_step. eapply wp_client_ref; [done|]. wp_step. apply wp_zoom.
    pose proof (concat_lookup _ _ _ Hri) as Hp.
    eapply wp_mono; [| |eapply clear_rep].
    + intros r' st' (-> & Hr' & Hk). unfold set_ref. wp_steps.
      rewrite (concat_insert _ _ _ Hi). split_and!; [done| |done].
      intros j rj Hj Hrj. by rewrite list_lookup_insert_ne.
    + done.
    + by rewrite <-Hp.
    + assert (few (m_buffer (snd st) :: m_ref (snd st) ++ r ++ concat (delete i refs))); [|done].
      unfold few in *. revert Hf. rewrite Hp. cbn [length]. lia.
Qed.

(** ** Reachable states *)

(** The states of a client that creates a buffer and [n] empty [ref] objects,
    then performs operations within their contract, some of which throw. *)
Inductive reach : client -> list Z -> Prop :=
| reach_new script init n sb h :
    0 <= init -> stream_buffer_new init (Heap ∅ script) = Ret sb h ->
    reach ((h, sb), replicate n ref_new) []
| reach_op c q op c' :
    reach c q -> contract c op -> run_op op c = Ret tt c' -> reach c' (fifo_step q op)
| reach_throw c q op e c' :
    reach c q -> contract c op -> run_op op c = Throw e c' -> reach c' q.

Lemma wp_ret_inv {S A} (m : M S A) Q E s a s' : wp m Q E s -> m s = Ret a s' -> Q a s'.
Proof. unfold wp. by intros H Heq; rewrite Heq in H. Qed.

Lemma wp_throw_inv {S A} (m : M S A) Q E s e s' : wp m Q E s -> m s = Throw e s' -> E e s'.
Proof. unfold wp. by intros H Heq; rewrite Heq in H. Qed.

Lemma concat_replicate_nil {A} n : concat (replicate n (@nil A)) = [].
Proof. by induction n. Qed.

Lemma reach_inv c q : reach c q -> client_inv c q.
Proof.
  induction 1 as [script init n sb h Hi Hnew|c q op c' _ IH Hc Hrun|c q op e c' _ IH Hc Hrun].
  - unfold client_inv. simpl. unfold ref_new. rewrite concat_replicate_nil.
    assert (rc_inv ∅ []) as Hrc by done.
    by destruct (wp_ret_inv _ _ _ _ _ _ (new_rep (Heap ∅ script) [] init Hrc Hi) Hnew).
  - by destruct (wp_ret_inv _ _ _ _ _ _ (run_op_refines c q op IH Hc) Hrun).
  - destruct (wp_throw_inv _ _ _ _ _ _ (run_op_refines c q op IH Hc) Hrun) as (_ & ? & _). done.
Qed.

(** Operations on other [ref] objects and on the buffer, from one state to another. *)
Inductive steps (i : nat) : client -> client -> Prop :=
| steps_refl c : steps i c c
| steps_op c c1 op c2 :
    steps i c c1 -> contract c1 op -> avoids i op ->
    run_op op c1 = Ret tt c2 \/ (exists e, run_op op c1 = Throw e c2) -> steps i c c2.

Lemma others_owns op i refs (r : ref) l :
  avoids i op -> refs !! i = Some r -> l ∈ r -> l ∈ others op refs.
Proof.
  intros Hav Hi Hl.
  assert (l ∈ concat refs) as Hcc by (rewrite (concat_lookup _ _ _ Hi); set_solver).
  assert (forall j, j <> i -> l ∈ concat (delete j refs)) as Hdel.
  { intros j Hj. apply list_elem_of_In, in_concat. exists r. split; [|by apply list_elem_of_In].
    apply list_elem_of_In, list_elem_of_lookup. destruct (decide (i < j)%nat).
    - exists i. by rewrite list_lookup_delete_lt.
    - exists (pred i). rewrite list_lookup_delete_ge by lia.
      by replace (S (pred i)) with i by lia. }
  destruct op; simpl in *; try done; by apply Hdel.
Qed.

Lemma steps_inv i c c' q r l u bs :
  steps i c c' -> client_inv c q -> snd c !! i = Some r -> l ∈ r -> pinned (fst c) l u bs ->
  exists q', client_inv c' q' /\ snd c' !! i = Some r /\ pinned (fst c') l u bs.
Proof.
  intros Hs Hinv Hi Hl Hp. induction Hs as [|c c1 op c2 _ IH Hc Hav Hrun]; [by eauto|].
  destruct (IH Hinv Hi Hp) as (q1 & Hinv1 & Hi1 & Hp1).
  pose proof (run_op_refines _ _ _ Hinv1 Hc) as Hwp.
  pose proof (others_owns _ _ _ _ _ Hav Hi1 Hl) as Hown.
  destruct Hrun as [Hrun|[e Hrun]].
  - destruct (wp_ret_inv _ _ _ _ _ _ Hwp Hrun) as (Hinv2 & Hrefs & Hk).
    eexists. split; [exact Hinv2|]. split; [by apply Hrefs|]. by apply Hk.
  - destruct (wp_throw_inv _ _ _ _ _ _ Hwp Hrun) as (_ & Hinv2 & Hrefs & Hk).
    eexists. split; [exact Hinv2|]. rewrite Hrefs. split; [done|]. by apply Hk.
Qed.

(** What [retain_to] leaves behind. *)
Lemma run_retain_to c q i c1 :
  client_inv c q -> contract c (OpRetainTo i) -> run_op (OpRetainTo i) c = Ret tt c1 ->
  client_inv c1 q /\ snd c1 !! i = Some (m_ref (snd (fst c)) ++ [m_buffer (snd (fst c))]) /\
  let sb := snd (fst c) in
  snd (fst c1) = StreamBuffer (m_buffer sb) (m_used sb) (m_free sb) (m_off sb) [].
Proof.
  destruct c as [st refs]. unfold client_inv, contract. simpl. intros Hr [Hi Hf] Hrun.
  destruct (lookup_lt_is_Some_2 _ _ Hi) as [to Hto].
  pose proof (concat_lookup _ _ _ Hto) as Hp.
  refine (wp_ret_inv _ (fun _ c1 => _) (fun _ _ => True) _ _ _ _ Hrun).
  wp_step. eapply wp_client_ref; [done|]. wp_step. apply wp_zoom.
  eapply wp_mono; [| |eapply retain_to_rep].
  - intros to' st' (-> & Hr' & _ & Hsb). unfold set_ref. wp_steps.
    split_and!; [|by rewrite list_lookup_insert_eq|done].
    by rewrite (concat_insert _ _ _ Hi).
  - done.
  - by rewrite <-Hp.
  - eapply few_perm; [|exact Hf]. by rewrite Hp.
Qed.

(** ** Properties *)

(** C22. Refinement to a FIFO: in every reachable state [data()] and
    [data_size()] show exactly the bytes received and not consumed, in order;
    and every operation of the class and of its [ref]s, the copy constructor of
    [ref] excepted, that is within its contract (room for what is received, no more
    consumed than there is, no overflow of [size_t] in what is reserved, counts below
    2^32) returns or throws [bad_alloc], without undefined behaviour (no use after
    free, no double free, no access out of bounds) and without looping. *)
Theorem sb_refines_fifo (c : client) (q : list Z) (Hr : reach c q) :
  peek (fst c) = Ret (Some <$> q) (fst c) /\
  forall op, contract c op ->
    exists c', run_op op c = Ret tt c' \/ run_op op c = Throw BadAlloc c'.
Proof.
  apply reach_inv in Hr. split; [by apply rep_peek with (concat (snd c))|].
  intros op Hc. pose proof (run_op_refines _ _ _ Hr Hc) as Hwp. unfold wp in Hwp.
  destruct (run_op op c) as [[] c'|e c'| |]; try done; exists c'; [by left|].
  destruct Hwp as [-> _]. by right.
Qed.

(** C23. Bytes that a [ref] obtained by [retain_to] covers stay in memory,
    unchanged, whatever is done to the buffer and to other [ref] objects
    until that [ref] is reused or cleared. *)
Theorem retained_bytes_stable (c c1 c2 : client) (q : list Z) (i : nat)
    (Hr : reach c q) (Hc : contract c (OpRetainTo i))
    (Hrun : run_op (OpRetainTo i) c = Ret tt c1) (Hsteps : steps i c1 c2) :
  let sb := snd (fst c) in
  exists b, hp_blocks (fst (fst c2)) !! m_buffer sb = Some b /\
    slice (m_off sb) (m_used sb - m_off sb) (blk_data b) = Some <$> q.
Proof.
  apply reach_inv in Hr. destruct (run_retain_to _ _ _ _ Hr Hc Hrun) as (Hinv1 & Hi1 & Hsb1).
  destruct c as [st refs]. simpl in *.
  pose proof Hinv1 as [_ (d & Hd & Hdl & Hq) Hoff Hfree _]. rewrite Hsb1 in *. simpl in *.
  unfold sizeof_count in *.
  destruct (steps_inv i c1 c2 q _ (m_buffer (snd st)) (m_used (snd st))
              (slice 0 (m_used (snd st)) d) Hsteps Hinv1 Hi1) as (q' & _ & _ & Hpin).
  { set_solver. }
  { split; [|by rewrite Hsb1]. exists d. split_and!; [done|lia|lia|done]. }
  destruct Hpin as [(d2 & Hd2 & Hu & Hs2) _]. unfold data_of in Hd2.
  destruct (hp_blocks (fst (fst c2)) !! m_buffer (snd st)) as [b|]; [|done].
  injection Hd2 as <-. exists b. split; [done|]. rewrite <-Hq.
  pose proof (f_equal (slice (m_off (snd st)) (m_used (snd st) - m_off (snd st))) Hs2) as Hs3.
  rewrite !slice_slice in Hs3 by lia. exact Hs3.
Qed.

(** [reserve_buffer(len)] makes room for [len] bytes and keeps the
    unconsumed bytes; when it throws [bad_alloc] they are kept too, and that
    happens only when the allocator failed or a size is beyond 2^61. *)
Theorem reserve_makes_room (c : client) (q : list Z) (len init : Z)
    (Hr : reach c q) (Hc : reserve_pre (fst c) len init) :
  exists st', peek st' = Ret (Some <$> q) st' /\
    ((reserve_buffer len init (fst c) = Ret tt st' /\ len <= m_free (snd st')) \/
     (reserve_buffer len init (fst c) = Throw BadAlloc st' /\
      short_of_memory (fst c) len init)).
Proof.
  apply reach_inv in Hr. pose proof (reserve_rep _ _ _ _ _ Hr Hc) as Hwp. unfold wp in Hwp.
  destruct (reserve_buffer len init (fst c)) as [[] st'|e st'| |]; [..|done|done]; exists st'.
  - destruct Hwp as (Hr' & _ & Hroom). split; [by eapply rep_peek|]. by left.
  - destruct Hwp as (-> & Hr' & _ & Hshort). split; [by eapply rep_peek|]. by right.
Qed.

(** No leak: destroying the buffer when every [ref] is empty leaves no
    block allocated. *)
Theorem delete_frees_all (c : client) (q : list Z)
    (Hr : reach c q) (Hrefs : Forall (fun r => r = []) (snd c))
    (Hfew : few (m_buffer (snd (fst c)) :: m_ref (snd (fst c)))) :
  exists h', stream_buffer_delete (snd (fst c)) (fst (fst c)) = Ret tt h' /\ hp_blocks h' = ∅.
Proof.
  apply reach_inv in Hr. unfold client_inv in Hr.
  assert (concat (snd c) = []) as Hnil.
  { clear -Hrefs. induction Hrefs as [|r rs -> _ IH]; [done|exact IH]. }
  rewrite Hnil in Hr.
  destruct (wp_run _ _ _ (delete_rep _ _ _ Hr ltac:(by rewrite app_nil_r)))
    as ([] & h' & Hrun & Hrc & _).
  exists h'. split; [done|]. by apply rc_inv_nil.
Qed.

(** [retain()] does not protect the current block: when no [ref] holds
    that block already, consuming the data and reserving again makes the
    buffer receive at the start of the very block the returned [ref] should
    keep; [retain_to] in the same place keeps it ([retained_bytes_stable]). *)
Theorem retain_omits_current_block (c : client) (q : list Z) (init : Z)
    (Hr : reach c q) (Hi : 0 <= init < 2 ^ 64)
    (Hsole : m_buffer (snd (fst c)) ∉ m_ref (snd (fst c)) ++ concat (snd c)) :
  exists st',
    (r ← retain; _ ← data_consumed (zlen q); _ ← reserve_buffer 0 init; mret r) (fst c)
      = Ret (m_ref (snd (fst c))) st' /\
    buffer st' = Ret (m_buffer (snd (fst c)), sizeof_count) st'.
Proof.
  apply reach_inv in Hr. destruct c as [[h sb] refs]. unfold client_inv in Hr. simpl in *.
  destruct (retain_rep _ _ _ Hr) as [Hrun Hr']. simpl in *.
  rewrite (M_bind_ret _ _ _ _ _ Hrun).
  set (sb' := StreamBuffer _ _ _ _ []) in *.
  pose proof (rep_length _ _ _ Hr) as Hlen. simpl in Hlen.
  pose proof (rep_off _ _ _ Hr) as Hoff. simpl in Hoff.
  pose proof (rep_free _ _ _ Hr) as Hfree. simpl in Hfree.
  pose proof (rep_cap _ _ _ Hr) as Hcap. simpl in Hcap. unfold sizeof_count, ptrdiff_max in *.
  edestruct (wp_run (_ ← data_consumed (zlen q); _ ← reserve_buffer 0 init; mret (m_ref sb))
    (fun r st' => r = m_ref sb /\ buffer st' = Ret (m_buffer sb, 4) st') (h, sb'))
    as (r & st' & Hrun' & -> & Hbuf); [|by eauto].
  wp_step. unfold data_consumed. sb_steps.
  replace (m_off sb + zlen q) with (m_used sb) by lia. rewrite wrap64_small by lia.
  unfold reserve_buffer. wp_step. apply wp_bind, wp_get_sb. simpl. rewrite Z.eqb_refl. wp_step.
  pose proof Hr as [Hrc _ _ _ _]. simpl in Hrc.
  apply wp_bind, wp_get_sb. wp_step. apply wp_on_heap. eapply wp_get_count; [exact Hrc|set_solver|].
  simpl. rewrite occ_cons, decide_True by done.
  assert (occ (m_buffer sb) (m_ref sb ++ concat refs) = 0) as ->.
  { rewrite <-occ_elem in Hsole. pose proof (occ_nonneg (m_buffer sb) (m_ref sb ++ concat refs)). lia. }
  simpl. sb_steps. unfold sizeof_count.
  rewrite (wrap64_small (_ - _)), wrap64_small by lia.
  destruct (Z.ltb_spec (m_free sb + (m_used sb - 4)) 0); [lia|]. by sb_steps.
Qed.

(** [MP_STREAM_BUFFER_INITIAL_BUFFER_SIZE] *)
Definition initial_buffer_size_default : Z := 8 * 1024.

Lemma new_default :
  exists l d, let h := Heap {[l := Block (Some 1) d]} [] in
  stream_buffer_new initial_buffer_size_default (Heap ∅ []) = Ret (StreamBuffer l 4 8188 4 []) h.
Proof.
  edestruct (wp_run (stream_buffer_new initial_buffer_size_default)
    (fun sb h => exists l d, sb = StreamBuffer l 4 8188 4 [] /\
       h = Heap {[l := Block (Some 1) d]} []) (Heap ∅ []))
    as (sb & h & Hrun & l & d & -> & ->); [|by eauto].
  unfold stream_buffer_new. wp_step. apply wp_malloc.
  - intros s l Hs _ _. simpl in Hs. assert (s = []) as -> by (destruct s; set_solver).
    wp_step. unfold init_count. wp_step. eapply wp_get_block; [apply lookup_insert_eq|].
    unfold upd_blocks. wp_steps. rewrite insert_insert_eq. by eauto.
  - intros s [Hbad|Hbad]; [|set_solver].
    unfold initial_buffer_size_default, sizeof_count, ptrdiff_max in Hbad. lia.
Qed.

(** The limits of [reserve_buffer]'s arithmetic, on a buffer of the
    default size: a request between 2^63 - 4 and 2^64 - 4 makes the growth loop
    run for ever, and a larger one wraps [len + m_used] around, so that the
    call returns with less room than was asked for. *)
Theorem reserve_overflow (sb : stream_buffer) (h : heap) (len init : Z)
    (Hnew : stream_buffer_new initial_buffer_size_default (Heap ∅ []) = Ret sb h) :
  (2 ^ 63 - 4 < len < 2 ^ 64 - 4 -> reserve_buffer len init (h, sb) = Diverge) /\
  (2 ^ 64 - 4 <= len < 2 ^ 64 ->
     exists st', reserve_buffer len init (h, sb) = Ret tt st' /\ m_free (snd st') < len).
Proof.
  destruct new_default as (l & d & Heq). rewrite Hnew in Heq. injection Heq as -> ->.
  set (h := Heap {[l := Block (Some 1) d]} []). set (sb := StreamBuffer l 4 8188 4 []).
  assert (forall c, and_sole c (h, sb) = Ret c (h, sb)) as Hsole.
  { intros []; [|done].
    cbv [and_sole get_sb mbind M_bind get mret M_ret on_heap zoom get_count get_block].
    unfold h. cbn [hp_blocks fst snd m_buffer sb]. by rewrite lookup_singleton_eq. }
  assert (8188 < len -> reserve_buffer len init (h, sb) = expand_buffer len init (h, sb)) as Hres.
  { intros Hlen. unfold reserve_buffer. erewrite M_bind_ret by reflexivity.
    erewrite M_bind_ret by apply Hsole. cbn [m_used m_off sb snd Z.eqb Pos.eqb].
    erewrite M_bind_ret by reflexivity. erewrite M_bind_ret by reflexivity.
    change (m_free _) with 8188. destruct (Z.ltb_spec 8188 len); [done|lia]. }
  set (k := fun next_size => tmp ← on_heap (realloc l next_size);
     match tmp with
     | None => throw BadAlloc
     | Some tmp => put_sb (StreamBuffer tmp 4 (wrap64 (next_size - 4)) 4 [])
     end).
  assert (expand_buffer len init (h, sb) =
    (grow (2 ^ 14) (wrap64 (len + 4)) ≫= k) (h, sb)) as Hexp.
  { unfold expand_buffer. erewrite M_bind_ret by reflexivity.
    erewrite M_bind_ret by apply Hsole. done. }
  split; intros Hlen; rewrite Hres, Hexp by lia.
  - rewrite wrap64_small by lia. unfold grow.
    change (2 ^ 14) with (2 ^ Z.of_nat 14). rewrite double_until_pow2_none by lia. done.
  - assert (wrap64 (len + 4) = len + 4 - 2 ^ 64) as ->.
    { unfold wrap. symmetry. apply Z.mod_unique with 1; lia. }
    assert (forall st, grow (2 ^ 14) (len + 4 - 2 ^ 64) st = Ret (S:=sbst) (2 ^ 14) st) as Hgrow.
    { intros st. unfold grow, growth_fuel. cbn [double_until].
      by destruct (Z.ltb_spec (2 ^ 14) (len + 4 - 2 ^ 64)); [lia|]. }
    erewrite M_bind_ret by apply Hgrow. unfold k.
    cbv [mbind M_bind on_heap zoom realloc alloc_answer get_block get mret M_ret upd_blocks modify].
    unfold h. cbn [hp_script fst]. rewrite bool_decide_true by (unfold ptrdiff_max; lia).
    cbn [andb hp_blocks]. rewrite lookup_singleton_eq. eexists. split; [done|].
    change (wrap64 (2 ^ 14 - 4) < len). change (wrap64 (2 ^ 14 - 4)) with 16380. lia.
Qed.

(** ** Witnesses *)

(** A run on concrete inputs; exceptions are survived. *)
Definition run_all (ops : list sb_op) (c : client) : client :=
  fold_left (fun c op => match run_op op c with Ret _ c' | Throw _ c' => c' | _ => c end) ops c.

Definition ex_new (script : list bool) : client :=
  match stream_buffer_new 16 (Heap ∅ script) with
  | Ret sb h => ((h, sb), [ref_new; ref_new])
  | _ => ((Heap ∅ [], StreamBuffer 0 0 0 0 []), [])
  end.

Lemma ex_new_reach : reach (ex_new []) [].
Proof. apply (reach_new [] 16 2); [lia|vm_compute; reflexivity]. Qed.

Definition ex_full : client := run_all [OpReceive [1; 2; 3]] (ex_new []).

Lemma ex_full_reach : reach ex_full [1; 2; 3].
Proof.
  apply (reach_op (ex_new []) [] (OpReceive [1; 2; 3]) ex_full ex_new_reach).
  - vm_compute. discriminate.
  - vm_compute. reflexivity.
Qed.

Lemma sb_refines_fifo_witness :
  peek (fst ex_full) = Ret [Some 1; Some 2; Some 3] (fst ex_full).
Proof. exact (proj1 (sb_refines_fifo ex_full [1; 2; 3] ex_full_reach)). Defined.

Definition ex_retained : client := run_all [OpRetainTo 0] ex_full.
Definition ex_reused : client :=
  run_all [OpConsume 3; OpReserve 64 16; OpReceive [7; 7; 7; 7]] ex_retained.

Lemma ex_steps : steps 0 ex_retained ex_reused.
Proof.
  set (c1 := run_all [OpConsume 3] ex_retained).
  set (c2 := run_all [OpReserve 64 16] c1).
  refine (steps_op 0 _ c2 (OpReceive [7; 7; 7; 7]) _ _ _ _ _);
    [refine (steps_op 0 _ c1 (OpReserve 64 16) _ _ _ _ _);
     [refine (steps_op 0 _ _ (OpConsume 3) _ (steps_refl 0 _) _ _ _)|..]|..].
  all: try exact I.
  all: try (left; vm_compute; reflexivity).
  all: vm_compute; repeat split; discriminate.
Qed.

Lemma retained_bytes_stable_witness :
  exists b, hp_blocks (fst (fst ex_reused)) !! m_buffer (snd (fst ex_full)) = Some b /\
    slice 4 3 (blk_data b) = [Some 1; Some 2; Some 3].
Proof.
  refine (retained_bytes_stable ex_full ex_retained ex_reused [1; 2; 3] 0 ex_full_reach _ _ ex_steps).
  - vm_compute. repeat split; lia.
  - vm_compute. reflexivity.
Defined.

Lemma reserve_makes_room_witness :
  exists st', peek st' = Ret [Some 1; Some 2; Some 3] st' /\
    ((reserve_buffer 100 16 (fst ex_full) = Ret tt st' /\ 100 <= m_free (snd st')) \/
     (reserve_buffer 100 16 (fst ex_full) = Throw BadAlloc st' /\
      short_of_memory (fst ex_full) 100 16)).
Proof.
  refine (reserve_makes_room ex_full [1; 2; 3] 100 16 ex_full_reach _).
  vm_compute. repeat split; discriminate.
Defined.

Lemma delete_frees_all_witness :
  exists h', stream_buffer_delete (snd (fst ex_full)) (fst (fst ex_full)) = Ret tt h' /\
    hp_blocks h' = ∅.
Proof.
  refine (delete_frees_all ex_full [1; 2; 3] ex_full_reach _ _).
  - repeat constructor.
  - vm_compute. reflexivity.
Defined.

Lemma retain_omits_current_block_witness :
  exists st',
    (r ← retain; _ ← data_consumed 3; _ ← reserve_buffer 0 16; mret r) (fst ex_full)
      = Ret [] st' /\ buffer st' = Ret (0%nat, 4) st'.
Proof.
  refine (retain_omits_current_block ex_full [1; 2; 3] 16 ex_full_reach _ _).
  - lia.
  - vm_compute. intros H. inversion H.
Defined.

Lemma reserve_overflow_witness :
  exists sb h, reserve_buffer (2 ^ 63) 8192 (h, sb) = Diverge.
Proof.
  destruct (stream_buffer_new initial_buffer_size_default (Heap ∅ [])) as [sb h|? ?| |] eqn:Hnew;
    try (exfalso; destruct new_default as (l & d & Heq); congruence).
  exists sb, h. apply (proj1 (reserve_overflow sb h (2 ^ 63) 8192 Hnew)). lia.
Defined.
