(* ===== verification/SharedBuffer.v ===== *)
(** * shared_buffer (src/mp/shared_buffer.h)

    A buffer out of which regions are handed to [ref] objects: [hold] takes a
    region off the unused space and returns a [ref] that keeps the block
    alive, [skip] takes one without a [ref].  The file defines every operation
    of the class on the heap of RcHeap and shows the promise of the class: the
    bytes of a held region are not handed out again, and not freed, while the
    [ref] lives. *)

From Stdlib Require Import ZArith Lia.
From stdpp Require Import base tactics option list numbers fin_maps gmap.
From S2P Require Import Prelude RcHeap.

(** ** State *)

(** [shared_buffer::ref] is its pointer [m]; [None] is NULL. *)
Abbreviation ref := (option loc).

Record shared_buffer := SharedBuffer {
  m_buffer : loc;
  m_used : Z;
  m_free : Z
}.

Abbreviation shst := (heap * shared_buffer)%type.

Definition on_heap {A} (m : M heap A) : M shst A := zoom fst (fun h st => (h, snd st)) m.
Definition get_sh : M shst shared_buffer := st ← get; mret (snd st).
Definition put_sh (sh : shared_buffer) : M shst unit := modify (fun st => (fst st, sh)).

(** ** class ref *)

(** [incr_count(m)] dereferences its argument: NULL is undefined behaviour. *)
Definition ref_incr (m : ref) : M heap unit :=
  match m with
  | Some l => incr_count l
  | None => undef
  end.

Definition ref_new : ref := None.

Definition ref_of (p : loc) : M heap ref :=
  _ ← ref_incr (Some p);
  mret (Some p).

Definition ref_copy (o : ref) : M heap ref :=
  _ ← ref_incr o;
  mret o.

Definition ref_clear (m : ref) : M heap ref :=
  match m with
  | Some l => _ ← decr_count l; mret None
  | None => mret None
  end.

Definition ref_reset (m : ref) (p : loc) : M heap ref :=
  _ ← ref_clear m;
  _ ← ref_incr (Some p);
  mret (Some p).

Definition ref_swap (this x : ref) : ref * ref := (x, this).

(** ** class shared_buffer *)

Definition shared_buffer_new (init_size : Z) : M heap shared_buffer :=
  let initsz := Z.max init_size sizeof_count in
  p ← malloc initsz;
  match p with
  | None => throw BadAlloc
  | Some b =>
      _ ← init_count b;
      mret (SharedBuffer b sizeof_count (wrap64 (initsz - sizeof_count)))
  end.

Definition shared_buffer_delete (sh : shared_buffer) : M heap unit := decr_count (m_buffer sh).

Definition buffer : M shst (loc * Z) := sh ← get_sh; mret (m_buffer sh, m_used sh).
Definition buffer_capacity : M shst Z := sh ← get_sh; mret (m_free sh).

Definition sole_owner : M shst bool :=
  sh ← get_sh;
  c ← on_heap (get_count (m_buffer sh));
  mret (c =? 1).

Definition expand_buffer (len init_size : Z) : M shst unit :=
  sh ← get_sh;
  sole ← (if m_used sh =? sizeof_count then sole_owner else mret false);
  if sole : bool then
    next_size ← grow (wrap64 (wrap64 (m_used sh + m_free sh) * 2)) (wrap64 (len + m_used sh));
    tmp ← on_heap (realloc (m_buffer sh) next_size);
    match tmp with
    | None => throw BadAlloc
    | Some tmp => put_sh (SharedBuffer tmp (m_used sh) (wrap64 (next_size - m_used sh)))
    end
  else
    let initsz := Z.max init_size sizeof_count in
    next_size ← grow initsz (wrap64 (len + sizeof_count));
    tmp ← on_heap (malloc next_size);
    match tmp with
    | None => throw BadAlloc
    | Some tmp =>
        _ ← on_heap (init_count tmp);
        _ ← on_heap (decr_count (m_buffer sh));
        put_sh (SharedBuffer tmp sizeof_count (wrap64 (next_size - sizeof_count)))
    end.

Definition reserve_buffer (len init_size : Z) : M shst unit :=
  sh ← get_sh;
  sole ← sole_owner;
  _ ← (if sole : bool then
         put_sh (SharedBuffer (m_buffer sh) sizeof_count
                   (wrap64 (m_free sh + wrap64 (m_used sh - sizeof_count))))
       else mret tt);
  sh ← get_sh;
  if m_free sh <? len then expand_buffer len init_size else mret tt.

Definition skip (len : Z) : M shst unit :=
  sh ← get_sh;
  let len := if m_free sh <? len then m_free sh else len in
  put_sh (SharedBuffer (m_buffer sh) (wrap64 (m_used sh + len)) (wrap64 (m_free sh - len))).

Definition hold (len : Z) : M shst ref :=
  sh ← get_sh;
  let len := if m_free sh <? len then m_free sh else len in
  _ ← put_sh (SharedBuffer (m_buffer sh) (wrap64 (m_used sh + len)) (wrap64 (m_free sh - len)));
  on_heap (ref_of (m_buffer sh)).

(** A client stores bytes at [buffer()]. *)
Definition store_at_buffer (bs : list Z) : M shst unit :=
  p ← buffer;
  on_heap (store p.1 p.2 bs).

(** ** Representation *)

Record sh_rep (st : shst) (os : list loc) : Prop := ShRep {
  rep_rc : rc_inv (hp_blocks (fst st)) (m_buffer (snd st) :: os);
  rep_data : exists d, data_of (fst st) (m_buffer (snd st)) = Some d /\
    zlen d = m_used (snd st) + m_free (snd st);
  rep_used : sizeof_count <= m_used (snd st);
  rep_free : 0 <= m_free (snd st);
  rep_cap : m_used (snd st) + m_free (snd st) <= ptrdiff_max
}.

(** The cells [[a, a + n)] of block [l] are [bs] and lie below [buffer()]. *)
Definition holds (st : shst) (l : loc) (a n : Z) (bs : list (option Z)) : Prop :=
  (exists d, data_of (fst st) l = Some d /\ 0 <= a /\ 0 <= n /\ a + n <= zlen d /\
     slice a n d = bs) /\
  (l = m_buffer (snd st) -> a + n <= m_used (snd st)).

Definition keeps (os : list loc) (st st' : shst) : Prop :=
  forall l a n bs, l ∈ os -> holds st l a n bs -> holds st' l a n bs.

#[export] Instance keeps_preorder os : PreOrder (keeps os).
Proof.
  split; [by intros st l a n bs|].
  intros st1 st2 st3 H1 H2 l a n bs Hl Hp. by apply H2, H1.
Qed.

#[export] Instance sh_rep_proper st : Proper ((≡ₚ) ==> iff) (sh_rep st).
Proof.
  assert (forall os os', os ≡ₚ os' -> sh_rep st os -> sh_rep st os') as H.
  { intros os os' Hp []; split; [|done..]. by rewrite <-Hp. }
  intros os os' Hp. split; apply H; [done|by symmetry].
Qed.

Lemma wp_get_sh Q E (st : shst) : Q (snd st) st -> wp get_sh Q E st.
Proof. done. Qed.

Lemma wp_put_sh sh' Q E (st : shst) : Q tt (fst st, sh') -> wp (put_sh sh') Q E st.
Proof. done. Qed.

Lemma sh_wp_on_heap {A} (m : M heap A) Q E (st : shst) :
  wp m (fun a h => Q a (h, snd st)) (fun e h => E e (h, snd st)) (fst st) ->
  wp (on_heap m) Q E st.
Proof. intros H. exact (wp_zoom fst (fun h st => (h, snd st)) m Q E st H). Qed.

Ltac sh_step :=
  lazymatch goal with
  | |- wp get_sh _ _ _ => apply wp_get_sh
  | |- wp (put_sh _) _ _ _ => apply wp_put_sh
  | |- wp (on_heap _) _ _ _ => apply sh_wp_on_heap
  | _ => wp_step
  end.
Ltac sh_steps := repeat (sh_step; simpl).

Lemma wp_sole_owner os Q E st :
  sh_rep st os ->
  (m_buffer (snd st) ∉ os -> Q true st) -> (m_buffer (snd st) ∈ os -> Q false st) ->
  wp sole_owner Q E st.
Proof.
  intros [Hrc _ _ _ _] HT HF. unfold sole_owner. sh_step. apply wp_get_sh.
  sh_step. apply sh_wp_on_heap. eapply wp_get_count; [done|set_solver|].
  apply wp_ret. destruct st as [h sh]. simpl in *. rewrite occ_cons, decide_True by done.
  pose proof (occ_nonneg (m_buffer sh) os).
  destruct (Z.eqb_spec (1 + occ (m_buffer sh) os) 1); [apply HT|apply HF];
    rewrite <-occ_elem; lia.
Qed.

Lemma sh_new_rep h os init :
  rc_inv (hp_blocks h) os -> 0 <= init ->
  wp (shared_buffer_new init) (fun sh h' => sh_rep (h', sh) os)
     (fun e h' => e = BadAlloc /\ hp_blocks h' = hp_blocks h) h.
Proof.
  intros Hrc Hi. unfold shared_buffer_new. wp_step.
  apply wp_malloc; [|intros s _; by wp_steps].
  intros s l _ Hl Hn. wp_step. unfold init_count. wp_step.
  eapply wp_get_block; [apply lookup_insert_eq|]. unfold upd_blocks. wp_steps.
  unfold sizeof_count, ptrdiff_max in *. rewrite wrap64_small by lia.
  rewrite insert_insert_eq. split; simpl; unfold sizeof_count, ptrdiff_max; [|  |lia..].
  - by apply rc_inv_alloc.
  - eexists. unfold data_of. simpl. rewrite lookup_insert_eq. split; [done|]. simpl.
    rewrite length_replicate. lia.
Qed.

(** Owners keep what they hold when the object still points to the same block
    and has not rewound, or has left the block. *)
Lemma sh_same_data_keeps os h h' sh sh' :
  same_data os h h' ->
  (m_buffer sh' = m_buffer sh /\ m_used sh <= m_used sh' \/ m_buffer sh' ∉ os) ->
  keeps os (h, sh) (h', sh').
Proof.
  intros Hs Hb l a n bs Hl [(d & Hd & ? & ? & ? & ?) Hc]. simpl in *.
  split; simpl; [exists d; by rewrite Hs|].
  intros ->. destruct Hb as [[Hb Hu]|Hb]; [|done]. rewrite Hb in Hc. specialize (Hc eq_refl). lia.
Qed.

Lemma store_rep st os bs :
  sh_rep st os -> zlen bs <= m_free (snd st) ->
  wp (store_at_buffer bs)
     (fun _ st' => sh_rep st' os /\ keeps os st st' /\ snd st' = snd st /\
        exists d, data_of (fst st') (m_buffer (snd st)) = Some d /\
          slice (m_used (snd st)) (zlen bs) d = Some <$> bs) no_exn st.
Proof.
  destruct st as [h sh]. intros [Hrc (d & Hd & Hlen) Hused Hfree Hcap] Hbs; simpl in *.
  unfold data_of in Hd. destruct (hp_blocks h !! m_buffer sh) as [b|] eqn:Hb; [|done].
  simpl in Hd. injection Hd as Hbd. subst d. unfold sizeof_count, ptrdiff_max in *.
  unfold store_at_buffer, buffer. sh_steps. unfold store. wp_step.
  eapply wp_get_block; [done|]. rewrite bool_decide_true by lia.
  unfold upd_blocks. sh_steps.
  assert (zlen (splice (m_used sh) (Some <$> bs) (blk_data b)) = m_used sh + m_free sh) as Hl'.
  { rewrite zlen_splice; rewrite ?length_fmap; lia. }
  split_and!; [| |done|].
  - split; simpl; unfold sizeof_count, ptrdiff_max; [by apply rc_inv_data| |lia..].
    eexists. unfold data_of. simpl. rewrite lookup_insert_eq. done.
  - intros l a n bs' Hl [(d & Hd & Ha & Hn & Han & Hs) Hcur]. simpl in *. unfold data_of in Hd.
    split; simpl; [|done]. destruct (decide (m_buffer sh = l)) as [<-|Hne].
    + rewrite Hb in Hd. injection Hd as <-. specialize (Hcur eq_refl). unfold data_of. simpl.
      rewrite lookup_insert_eq. eexists. split; [done|]. simpl.
      split_and!; [lia..|]. by rewrite slice_splice_before by lia.
    + exists d. unfold data_of. simpl. rewrite lookup_insert_ne by done. by rewrite Hd.
  - eexists. unfold data_of. simpl. rewrite lookup_insert_eq. split; [done|]. simpl.
    apply slice_splice_same; rewrite ?length_fmap; lia.
Qed.

(** The length [skip] and [hold] really take. *)
Definition clamp (free len : Z) : Z := if free <? len then free else len.

Lemma skip_rep st os len :
  sh_rep st os -> 0 <= len ->
  wp (skip len) (fun _ st' => sh_rep st' os /\ keeps os st st' /\
     let n := clamp (m_free (snd st)) len in
     st' = (fst st, SharedBuffer (m_buffer (snd st)) (m_used (snd st) + n) (m_free (snd st) - n)))
     no_exn st.
Proof.
  destruct st as [h sh]. intros [Hrc (d & Hd & Hlen) Hused Hfree Hcap] Hl; simpl in *.
  unfold sizeof_count, ptrdiff_max in *. unfold skip. sh_steps. fold (clamp (m_free sh) len).
  assert (0 <= clamp (m_free sh) len <= m_free sh).
  { unfold clamp. destruct (Z.ltb_spec (m_free sh) len); lia. }
  rewrite !wrap64_small by lia. split_and!; [| |done].
  - split; simpl; unfold sizeof_count, ptrdiff_max; [done|exists d; split; [done|lia]|lia..].
  - apply sh_same_data_keeps; [done|]. left. simpl. lia.
Qed.

Lemma hold_rep st os len :
  sh_rep st os -> 0 <= len -> few (m_buffer (snd st) :: m_buffer (snd st) :: os) ->
  wp (hold len) (fun r st' => r = Some (m_buffer (snd st)) /\
     sh_rep st' (m_buffer (snd st) :: os) /\ keeps os st st' /\
     (forall l, data_of (fst st') l = data_of (fst st) l) /\
     let n := clamp (m_free (snd st)) len in
     snd st' = SharedBuffer (m_buffer (snd st)) (m_used (snd st) + n) (m_free (snd st) - n))
     no_exn st.
Proof.
  destruct st as [h sh]. intros [Hrc (d & Hd & Hlen) Hused Hfree Hcap] Hl Hf; simpl in *.
  unfold sizeof_count, ptrdiff_max in *. unfold hold. sh_steps. fold (clamp (m_free sh) len).
  assert (0 <= clamp (m_free sh) len <= m_free sh).
  { unfold clamp. destruct (Z.ltb_spec (m_free sh) len); lia. }
  rewrite !wrap64_small by lia. unfold ref_of, ref_incr. wp_step.
  eapply wp_incr_count; [done|set_solver|done|]. intros h' Hrc' Hsd. sh_steps.
  split_and!; [done| | |done|done].
  - split; simpl; unfold sizeof_count, ptrdiff_max; [done|exists d; rewrite Hsd; split; [done|lia]|lia..].
  - apply sh_same_data_keeps; [by intros l _|]. left. simpl. lia.
Qed.

(** A request that does not overflow [size_t]. *)
Definition reserve_pre (st : shst) (len init : Z) : Prop :=
  0 <= len /\ 0 <= init < 2 ^ 64 /\ m_used (snd st) + len <= 2 ^ 63.

Definition reserved (st : shst) (os : list loc) (len : Z) : unit -> shst -> Prop :=
  fun _ st' => sh_rep st' os /\ keeps os st st' /\ len <= m_free (snd st').

(** What an allocation failure can be blamed on. *)
Definition short_of_memory (st : shst) (len init : Z) : Prop :=
  false ∈ hp_script (fst st) \/ 2 ^ 61 < m_used (snd st) + m_free (snd st) \/
  2 ^ 61 < len \/ 2 ^ 61 < init.

Definition not_reserved (st : shst) (os : list loc) (len init : Z) : exn -> shst -> Prop :=
  fun e st' => e = BadAlloc /\ sh_rep st' os /\ keeps os st st' /\ short_of_memory st len init.

(** An allocation that failed changed nothing. *)
Lemma sh_no_memory h h' sh os len init :
  sh_rep (h, sh) os -> hp_blocks h' = hp_blocks h -> short_of_memory (h, sh) len init ->
  not_reserved (h, sh) os len init BadAlloc (h', sh).
Proof.
  intros [Hrc (d & Hd & Hdl) Hused Hfree Hcap] Hh Hsm. simpl in *. split_and!; [done| | |done].
  - split; simpl; [by rewrite Hh| |done..]. exists d. unfold data_of. by rewrite Hh.
  - apply sh_same_data_keeps; [intros l _; unfold data_of; by rewrite Hh|]. by left.
Qed.

Lemma sh_expand_rep st os len init :
  sh_rep st os -> reserve_pre st len init -> few (m_buffer (snd st) :: m_buffer (snd st) :: os) ->
  wp (expand_buffer len init) (reserved st os len) (not_reserved st os len init) st.
Proof.
  destruct st as [h sh]. intros Hr (Hlen & Hi & Hmax) Hf. simpl in *.
  unfold expand_buffer. wp_step. apply wp_get_sh. simpl. wp_step.
  pose proof Hr as [Hrc (d & Hd & Hdl) Hused Hfree Hcap]. simpl in *.
  unfold sizeof_count, ptrdiff_max in *.
  assert (forall h', hp_blocks h' = hp_blocks h -> short_of_memory (h, sh) len init ->
    not_reserved (h, sh) os len init BadAlloc (h', sh)) as Hfail by (intros h'; by apply sh_no_memory).
  assert (forall n size need, n = size \/ n < 2 * need ->
    size = (m_used sh + m_free sh) * 2 \/ size = init `max` 4 -> need <= len + m_used sh ->
    n > ptrdiff_max \/ false ∈ hp_script h -> short_of_memory (h, sh) len init) as Hblame.
  { intros n size need Hup Hsz Hneed [Hbad|Hbad]; [right|by left].
    unfold ptrdiff_max in Hbad. simpl. lia. }
  match goal with |- wp _ ?K _ _ => assert (m_buffer sh ∉ os -> K true (h, sh)) as HT end.
  { intros Hsole. rewrite (wrap64_small (_ + m_free _)), !wrap64_small by lia.
    wp_step. apply wp_grow; [lia..|]. intros next Hnext Hge Hup.
    wp_step. apply sh_wp_on_heap. eapply (wp_realloc_sole _ _ _ os); [done|done|done|lia| |].
    - intros h' l' pad Hrc' Hno Hsd Hdl' Hpad Hpm. unfold ptrdiff_max in *.
      apply wp_put_sh. rewrite wrap64_small by lia. split_and!; simpl; [| |lia].
      + split; simpl; unfold sizeof_count, ptrdiff_max; [done|eexists; split; [done|lia]|lia..].
      + apply sh_same_data_keeps; [done|by right].
    - intros h' Hh' Hbad. apply wp_throw, Hfail; [done|]. eapply Hblame; [exact Hup|lia|lia|exact Hbad]. }
  match goal with |- wp _ ?K _ _ => assert (K false (h, sh)) as HF end.
  { rewrite !wrap64_small by (unfold sizeof_count; lia). wp_step.
    apply wp_grow; [unfold sizeof_count; lia..|]. unfold sizeof_count. intros next Hnext Hge Hup.
    wp_step. apply sh_wp_on_heap, wp_malloc; [|intros s Hbad; apply wp_throw, Hfail; [done|]; eapply Hblame; [exact Hup|lia|lia|exact Hbad]].
    intros s l _ Hl Hpm. wp_step. apply sh_wp_on_heap.
    eapply wp_init_count; [done..|]. intros h1 Hrc1 Hno Hsd Hnew _ _. simpl. wp_step.
    apply sh_wp_on_heap. simpl. eapply (wp_decr_count _ _ _ (l :: os)).
    - by rewrite Permutation_swap.
    - done.
    - intros h2 Hrc2 Hsd2. apply wp_put_sh. unfold ptrdiff_max in *.
      rewrite wrap64_small by lia. split_and!; simpl; [| |lia].
      + split; simpl; unfold sizeof_count, ptrdiff_max; [done| |lia..]. eexists.
        rewrite Hsd2 by set_solver. split; [done|]. rewrite length_replicate. lia.
      + apply sh_same_data_keeps; [|right; clear -Hno; set_solver].
        intros l' Hl'. rewrite Hsd2, Hsd by set_solver. done. }
  destruct (Z.eqb_spec (m_used sh) 4); [|by apply wp_ret]. by eapply wp_sole_owner.
Qed.

Lemma sh_reserve_rep st os len init :
  sh_rep st os -> reserve_pre st len init -> few (m_buffer (snd st) :: m_buffer (snd st) :: os) ->
  wp (reserve_buffer len init) (reserved st os len) (not_reserved st os len init) st.
Proof.
  intros Hr Hpre Hf. unfold reserve_buffer. wp_step. apply wp_get_sh. wp_step.
  assert (forall st1, sh_rep st1 os -> keeps os st st1 -> reserve_pre st1 len init ->
    m_buffer (snd st1) = m_buffer (snd st) ->
    (short_of_memory st1 len init -> short_of_memory st len init) ->
    wp (sh ← get_sh; if m_free sh <? len then expand_buffer len init else mret tt)
     (reserved st os len) (not_reserved st os len init) st1) as Hrest.
  { intros st1 Hr1 Hk1 Hp1 Hb1 Hshort. wp_step. apply wp_get_sh.
    destruct (Z.ltb_spec (m_free (snd st1)) len); [|by wp_steps].
    eapply wp_mono; [| |eapply sh_expand_rep; [done..|by rewrite Hb1]].
    - intros ? st' (? & Hk & ?). split_and!; [done| |done]. by trans st1.
    - intros e st' (? & ? & Hk & ?). split_and!; [done..| |by apply Hshort]. by trans st1. }
  eapply wp_sole_owner; [done| |].
  - intros Hsole. wp_step. apply wp_put_sh. destruct Hpre as (? & ? & ?).
    destruct st as [h sh]. destruct Hr as [Hrc (d & Hd & Hdl) Hused Hfree Hcap].
    simpl in *. unfold sizeof_count, ptrdiff_max in *.
    rewrite (wrap64_small (_ - _)), wrap64_small by lia. apply Hrest; simpl; [| | |done|].
    + split; simpl; unfold sizeof_count, ptrdiff_max; [done|exists d; split; [done|lia]|lia..].
    + apply sh_same_data_keeps; [done|by right].
    + split_and!; simpl; lia.
    + unfold short_of_memory. simpl. intros [?|?]; [by left|right; lia].
  - intros _. wp_step. apply wp_ret. by apply Hrest.
Qed.

(** ** The contract: held regions are exclusive and stable *)

Inductive sh_op : Type :=
| OpReserve (len init : Z)    (* reserve_buffer(len, init) *)
| OpStore (bs : list Z)       (* bytes stored at buffer() *)
| OpHold (len : Z)            (* refs.push_back(hold(len)) *)
| OpSkip (len : Z)            (* skip(len) *)
| OpCopy (i : nat)            (* refs.push_back(ref(refs[i])) *)
| OpClear (i : nat).          (* refs[i].clear() *)

Abbreviation client := (shst * list ref)%type.

(** The pointers the client's [ref] objects hold. *)
Definition owners (refs : list ref) : list loc := omap id refs.

Definition on_sh {A} (m : M shst A) : M client A := zoom fst (fun st c => (st, snd c)) m.

Definition client_ref (i : nat) : M client ref :=
  c ← get;
  match snd c !! i with
  | Some r => mret r
  | None => undef
  end.

Definition upd_refs (f : list ref -> list ref) : M client unit :=
  modify (fun c => (fst c, f (snd c))).

Definition run_op (op : sh_op) : M client unit :=
  match op with
  | OpReserve len init => on_sh (reserve_buffer len init)
  | OpStore bs => on_sh (store_at_buffer bs)
  | OpHold len => r ← on_sh (hold len); upd_refs (fun refs => refs ++ [r])
  | OpSkip len => on_sh (skip len)
  | OpCopy i =>
      o ← client_ref i; r ← on_sh (on_heap (ref_copy o)); upd_refs (fun refs => refs ++ [r])
  | OpClear i => o ← client_ref i; r ← on_sh (on_heap (ref_clear o)); upd_refs <[i := r]>
  end.

Definition client_few (c : client) : Prop :=
  let b := m_buffer (snd (fst c)) in few (b :: b :: owners (snd c)).

(** What the caller must ensure; copying an empty [ref] is excluded. *)
Definition contract (c : client) (op : sh_op) : Prop :=
  client_few c /\
  match op with
  | OpReserve len init => reserve_pre (fst c) len init
  | OpStore bs => zlen bs <= m_free (snd (fst c))
  | OpHold len | OpSkip len => 0 <= len
  | OpCopy i => exists l, snd c !! i = Some (Some l)
  | OpClear i => (i < length (snd c))%nat
  end.

(** The operation keeps the [i]-th [ref]. *)
Definition spares (i : nat) (op : sh_op) : Prop := op <> OpClear i.

Definition client_inv (c : client) : Prop := sh_rep (fst c) (owners (snd c)).

Lemma owners_app refs refs' : owners (refs ++ refs') = owners refs ++ owners refs'.
Proof. apply omap_app. Qed.

Lemma owners_snoc refs l : owners (refs ++ [Some l]) ≡ₚ l :: owners refs.
Proof. rewrite owners_app. simpl. by rewrite (comm (++)). Qed.

Lemma owners_clear refs i l :
  refs !! i = Some (Some l) -> owners refs ≡ₚ l :: owners (<[i := None]> refs).
Proof.
  intros Hi. rewrite <-(take_drop_middle refs i (Some l) Hi) at 1.
  rewrite insert_take_drop by (by eapply lookup_lt_Some). rewrite !owners_app. simpl.
  by rewrite <-Permutation_middle.
Qed.

Lemma owners_elem refs i l : refs !! i = Some (Some l) -> l ∈ owners refs.
Proof. intros Hi. rewrite (owners_clear _ _ _ Hi). set_solver. Qed.

(** Owners that the operation does not drop. *)
Definition kept (op : sh_op) (refs : list ref) : list loc :=
  match op with OpClear i => owners (<[i := None]> refs) | _ => owners refs end.

Lemma kept_elem op refs i l : spares i op -> refs !! i = Some (Some l) -> l ∈ kept op refs.
Proof.
  intros Hs Hi. destruct op as [| | | | |j]; try by eapply owners_elem. simpl.
  apply (owners_elem _ i). rewrite list_lookup_insert_ne; [done|]. unfold spares in Hs. congruence.
Qed.

Lemma sh_wp_client_ref i Q E (c : client) r :
  snd c !! i = Some r -> Q r c -> wp (client_ref i) Q E c.
Proof. intros Hi HQ. unfold client_ref. wp_steps. by rewrite Hi. Qed.

Lemma copy_rep st os l :
  sh_rep st os -> l ∈ os -> few (l :: m_buffer (snd st) :: os) ->
  wp (on_heap (ref_copy (Some l)))
     (fun r st' => r = Some l /\ sh_rep st' (l :: os) /\ keeps os st st') no_exn st.
Proof.
  destruct st as [h sh]. intros [Hrc (d & Hd & Hlen) ? ? ?] Hl Hf. simpl in *.
  apply sh_wp_on_heap. unfold ref_copy, ref_incr. wp_step.
  eapply wp_incr_count; [done|set_solver|done|]. intros h' Hrc' Hsd. wp_steps.
  split_and!; [done| |].
  - split; simpl; [by rewrite Permutation_swap|exists d; by rewrite Hsd|done..].
  - apply sh_same_data_keeps; [by intros l' _|]. by left.
Qed.

Lemma sh_clear_rep st os l :
  sh_rep st (l :: os) -> few (l :: m_buffer (snd st) :: os) ->
  wp (on_heap (ref_clear (Some l)))
     (fun r st' => r = None /\ sh_rep st' os /\ keeps os st st') no_exn st.
Proof.
  destruct st as [h sh]. intros [Hrc (d & Hd & Hlen) ? ? ?] Hf. simpl in *.
  apply sh_wp_on_heap. unfold ref_clear. wp_step.
  eapply (wp_decr_count _ _ _ (m_buffer sh :: os)); [by rewrite Permutation_swap|done|].
  intros h' Hrc' Hsd. wp_steps. split_and!; [done| |].
  - split; simpl; [done|exists d; rewrite Hsd by set_solver; done|done..].
  - apply sh_same_data_keeps; [intros l' Hl'; apply Hsd; set_solver|]. by left.
Qed.

(** One client operation: the representation is kept, and so is every region
    held through a [ref] that the operation does not clear. *)
Definition op_ok (op : sh_op) (c c' : client) : Prop :=
  client_inv c' /\ keeps (kept op (snd c)) (fst c) (fst c') /\
  forall i l, spares i op -> snd c !! i = Some (Some l) -> snd c' !! i = Some (Some l).

Lemma sh_run_op_ok c op :
  client_inv c -> contract c op ->
  wp (run_op op) (fun _ c' => op_ok op c c') (fun e c' => e = BadAlloc /\ op_ok op c c') c.
Proof.
  destruct c as [st refs]. unfold client_inv, contract, client_few, op_ok. simpl.
  intros Hr [Hf Hc]. destruct op as [len init|bs|len|len|i|i]; simpl in *.
  - apply wp_zoom. eapply wp_mono; [| |by eapply sh_reserve_rep].
    + by intros _ st' (? & ? & _).
    + by intros e st' (? & ? & ? & _).
  - apply wp_zoom. eapply wp_mono; [| |by eapply store_rep]; [|done].
    by intros _ st' (? & ? & _).
  - wp_step. apply wp_zoom. eapply wp_mono; [| |by eapply hold_rep]; [|done].
    intros r st' (-> & Hr' & Hk & _). unfold upd_refs. wp_steps. split_and!; [|done|].
    + unfold client_inv. simpl. by rewrite owners_snoc.
    + intros i l _ Hi. by apply lookup_app_l_Some.
  - apply wp_zoom. eapply wp_mono; [| |by eapply skip_rep]; [|done].
    by intros _ st' (? & ? & _).
  - destruct Hc as [l Hi]. wp_step. eapply sh_wp_client_ref; [done|]. wp_step. apply wp_zoom.
    pose proof (owners_elem _ _ _ Hi).
    eapply wp_mono; [| |eapply copy_rep; [done..|exact Hf]]; [|done].
    intros r st' (-> & Hr' & Hk). unfold upd_refs. wp_steps. split_and!; [|done|].
    + unfold client_inv. simpl. by rewrite owners_snoc.
    + intros j l' _ Hj. by apply lookup_app_l_Some.
  - destruct (lookup_lt_is_Some_2 _ _ Hc) as [o Ho]. wp_step. eapply sh_wp_client_ref; [done|].
    assert (forall j l, spares j (OpClear i) -> refs !! j = Some (Some l) ->
      <[i := None]> refs !! j = Some (Some l)) as Hother.
    { intros j l Hs Hj. rewrite list_lookup_insert_ne; [done|]. unfold spares in Hs. congruence. }
    wp_step. apply wp_zoom. destruct o as [l|].
    + pose proof (owners_clear _ _ _ Ho) as Hp. eapply wp_mono; [| |eapply (sh_clear_rep _ (owners (<[i := None]> refs)))].
      * intros r st' (-> & Hr' & Hk). unfold upd_refs. wp_steps.
        split_and!; [exact Hr'|exact Hk|exact Hother].
      * done.
      * by rewrite <-Hp.
      * apply Permutation_length in Hp. unfold few in *. simpl in *. lia.
    + apply sh_wp_on_heap. unfold ref_clear, upd_refs. wp_steps. destruct st as [h sh]. simpl.
      rewrite (list_insert_id refs i None Ho). by split_and!.
Qed.

(** ** Reachable states *)

Inductive reach : client -> Prop :=
| reach_new script init sh h :
    0 <= init -> shared_buffer_new init (Heap ∅ script) = Ret sh h -> reach ((h, sh), [])
| reach_op c op c' :
    reach c -> contract c op ->
    run_op op c = Ret tt c' \/ (exists e, run_op op c = Throw e c') -> reach c'.

Lemma run_op_inv c op c' :
  client_inv c -> contract c op ->
  run_op op c = Ret tt c' \/ (exists e, run_op op c = Throw e c') -> op_ok op c c'.
Proof.
  intros Hinv Hc Hrun. pose proof (sh_run_op_ok _ _ Hinv Hc) as Hwp. unfold wp in Hwp.
  destruct Hrun as [Hrun|[e Hrun]]; rewrite Hrun in Hwp; [done|by destruct Hwp].
Qed.

Lemma sh_reach_inv c : reach c -> client_inv c.
Proof.
  induction 1 as [script init sh h Hi Hnew|c op c' _ IH Hc Hrun].
  - assert (rc_inv ∅ []) as Hrc by done.
    pose proof (sh_new_rep (Heap ∅ script) [] init Hrc Hi) as Hwp. unfold wp in Hwp.
    by rewrite Hnew in Hwp.
  - by destruct (run_op_inv _ _ _ IH Hc Hrun).
Qed.

(** Operations that spare the [i]-th [ref]. *)
Inductive steps (i : nat) : client -> client -> Prop :=
| steps_refl c : steps i c c
| steps_op c c1 op c2 :
    steps i c c1 -> contract c1 op -> spares i op ->
    run_op op c1 = Ret tt c2 \/ (exists e, run_op op c1 = Throw e c2) -> steps i c c2.

Lemma steps_holds i c c' l a n bs :
  steps i c c' -> client_inv c -> snd c !! i = Some (Some l) -> holds (fst c) l a n bs ->
  client_inv c' /\ snd c' !! i = Some (Some l) /\ holds (fst c') l a n bs.
Proof.
  intros Hs Hinv Hi Hh. induction Hs as [|c c1 op c2 _ IH Hc Hsp Hrun]; [done|].
  destruct (IH Hinv Hi Hh) as (Hinv1 & Hi1 & Hh1).
  destruct (run_op_inv _ _ _ Hinv1 Hc Hrun) as (Hinv2 & Hk & Hrefs).
  split_and!; [done|by apply Hrefs|]. apply Hk; [|done]. by eapply kept_elem.
Qed.

(** ** Properties *)

(** Safety: in every reachable state each operation within its contract
    returns or throws [bad_alloc] (no use after free, no double free, no store
    out of bounds, no endless loop), and the unused space
    [[buffer(), buffer() + buffer_capacity())] lies inside the current block. *)
Theorem shared_buffer_safe (c : client) (Hr : reach c) :
  (exists b, hp_blocks (fst (fst c)) !! m_buffer (snd (fst c)) = Some b /\
     zlen (blk_data b) = m_used (snd (fst c)) + m_free (snd (fst c))) /\
  forall op, contract c op ->
    exists c', run_op op c = Ret tt c' \/ run_op op c = Throw BadAlloc c'.
Proof.
  apply sh_reach_inv in Hr. split.
  - destruct Hr as [_ (d & Hd & Hlen) _ _ _]. unfold data_of in Hd.
    destruct (hp_blocks _ !! _) as [b|]; [|done]. injection Hd as <-. by eauto.
  - intros op Hc. pose proof (sh_run_op_ok _ _ Hr Hc) as Hwp. unfold wp in Hwp.
    destruct (run_op op c) as [[] c'|e c'| |]; try done; exists c'; [by left|].
    destruct Hwp as [-> _]. by right.
Qed.

(** A held region is exclusive and stable: the bytes stored at [buffer()]
    and then taken with [hold] stay in memory unchanged, whatever is stored,
    reserved, held, skipped, copied or cleared afterwards, as long as that
    [ref] is not cleared. *)
Theorem held_bytes_stable (c c1 c2 c3 : client) (bs : list Z)
    (Hr : reach c) (Hc : contract c (OpStore bs)) (Hstore : run_op (OpStore bs) c = Ret tt c1)
    (Hhold : run_op (OpHold (zlen bs)) c1 = Ret tt c2)
    (Hsteps : steps (length (snd c)) c2 c3) :
  let sh := snd (fst c) in
  exists b, hp_blocks (fst (fst c3)) !! m_buffer sh = Some b /\
    slice (m_used sh) (zlen bs) (blk_data b) = Some <$> bs.
Proof.
  apply sh_reach_inv in Hr. destruct c as [st refs]. unfold client_inv in Hr.
  destruct Hc as [Hf Hbs]. unfold client_few in Hf. simpl in *.
  pose proof (store_rep _ _ _ Hr Hbs) as Hw1. unfold wp in Hw1. unfold on_sh, zoom in Hstore.
  simpl in Hstore. destruct (store_at_buffer bs st) as [[] st1|? ?| |] eqn:Hst; try done.
  injection Hstore as <-. destruct Hw1 as (Hr1 & _ & Hsh1 & d & Hd & Hs).
  assert (few (m_buffer (snd st1) :: m_buffer (snd st1) :: owners refs)) as Hf1 by by rewrite Hsh1.
  pose proof (hold_rep _ _ (zlen bs) Hr1 ltac:(lia) Hf1) as Hw2. unfold wp in Hw2.
  unfold mbind, M_bind, on_sh, zoom in Hhold. simpl in Hhold.
  destruct (hold (zlen bs) st1) as [r st2|? ?| |] eqn:Hh; try done.
  destruct Hw2 as (-> & Hr2 & _ & Hd2 & Hsh2). injection Hhold as <-.
  unfold clamp in Hsh2. rewrite Hsh1 in *.
  destruct (Z.ltb_spec (m_free (snd st)) (zlen bs)); [lia|].
  pose proof (rep_used _ _ Hr). pose proof (rep_cap _ _ Hr). unfold sizeof_count in *.
  destruct (steps_holds (length refs) (st2, refs ++ [Some (m_buffer (snd st))]) c3
    (m_buffer (snd st)) (m_used (snd st)) (zlen bs) (Some <$> bs) Hsteps) as (_ & _ & Hh3).
  - unfold client_inv. simpl. by rewrite owners_snoc.
  - simpl. by rewrite lookup_app_r, Nat.sub_diag by done.
  - split; simpl; [|rewrite Hsh2; simpl; lia]. exists d. rewrite Hd2.
    pose proof (rep_data _ _ Hr1) as (d' & Hd' & Hdl). rewrite Hsh1 in *.
    assert (d' = d) as -> by congruence. split_and!; [done|lia..|done].
  - destruct Hh3 as [(d3 & Hd3 & _ & _ & _ & Hs3) _]. unfold data_of in Hd3.
    destruct (hp_blocks (fst (fst c3)) !! _) as [b|]; [|done]. injection Hd3 as <-. by eauto.
Qed.

(** [reserve_buffer(len)] leaves room for [len] bytes at [buffer()] when
    it returns; it throws [bad_alloc] only when the allocator failed or a size
    is beyond 2^61; in both cases every region
    held through the client's [ref]s is intact. *)
Theorem shared_reserve_makes_room (c : client) (len init : Z)
    (Hr : reach c) (Hc : contract c (OpReserve len init)) :
  exists st', keeps (owners (snd c)) (fst c) st' /\
    ((reserve_buffer len init (fst c) = Ret tt st' /\ len <= m_free (snd st')) \/
     (reserve_buffer len init (fst c) = Throw BadAlloc st' /\
      short_of_memory (fst c) len init)).
Proof.
  apply sh_reach_inv in Hr. destruct Hc as [Hf Hc].
  pose proof (sh_reserve_rep _ _ _ _ Hr Hc Hf) as Hwp. unfold wp in Hwp.
  destruct (reserve_buffer len init (fst c)) as [[] st'|e st'| |]; [..|done|done]; exists st'.
  - destruct Hwp as (_ & Hk & Hroom). split; [done|]. by left.
  - destruct Hwp as (-> & _ & Hk & Hshort). split; [done|]. by right.
Qed.

(** No leak: when the client's [ref]s are empty and the buffer is
    destroyed, no block remains. *)
Theorem shared_delete_frees_all (c : client)
    (Hr : reach c) (Hrefs : Forall (fun r => r = None) (snd c)) :
  exists h', shared_buffer_delete (snd (fst c)) (fst (fst c)) = Ret tt h' /\ hp_blocks h' = ∅.
Proof.
  apply sh_reach_inv in Hr. destruct Hr as [Hrc _ _ _ _].
  assert (owners (snd c) = []) as Hnil.
  { clear -Hrefs. induction Hrefs as [|r rs -> _ IH]; [done|exact IH]. }
  rewrite Hnil in Hrc.
  edestruct (wp_run (shared_buffer_delete (snd (fst c))) (fun _ h' => hp_blocks h' = ∅))
    as ([] & h' & Hrun & Hempty); [|by eauto].
  eapply wp_decr_count; [done| |intros h' Hrc' _; by apply rc_inv_nil].
  unfold few. simpl. lia.
Qed.

(** Copying an empty [ref] dereferences NULL. *)
Lemma copy_of_empty_ref h : ref_copy ref_new h = Undef.
Proof. done. Qed.

(** ** Witnesses *)

Definition run_all (ops : list sh_op) (c : client) : client :=
  fold_left (fun c op => match run_op op c with Ret _ c' | Throw _ c' => c' | _ => c end) ops c.

Definition ex_new : client :=
  match shared_buffer_new 16 (Heap ∅ []) with
  | Ret sh h => ((h, sh), [])
  | _ => ((Heap ∅ [], SharedBuffer 0 0 0), [])
  end.

Lemma sh_ex_new_reach : reach ex_new.
Proof. apply (reach_new [] 16); [lia|vm_compute; reflexivity]. Qed.

Lemma shared_buffer_safe_witness :
  exists c', run_op (OpReserve 100 16) ex_new = Ret tt c' \/
             run_op (OpReserve 100 16) ex_new = Throw BadAlloc c'.
Proof.
  apply (proj2 (shared_buffer_safe ex_new sh_ex_new_reach)).
  vm_compute. repeat split; discriminate.
Defined.

Definition ex_held : client := run_all [OpStore [1; 2; 3]; OpHold 3] ex_new.
Definition ex_later : client := run_all [OpReserve 64 16; OpStore [9; 9; 9]] ex_held.

Lemma sh_ex_steps : steps 0 ex_held ex_later.
Proof.
  set (c1 := run_all [OpReserve 64 16] ex_held).
  refine (steps_op 0 _ c1 (OpStore [9; 9; 9]) _ _ _ _ _);
    [refine (steps_op 0 _ _ (OpReserve 64 16) _ (steps_refl 0 _) _ _ _)|..].
  all: try (by intros [=]).
  all: try (left; vm_compute; reflexivity).
  all: vm_compute; repeat split; discriminate.
Qed.

Lemma held_bytes_stable_witness :
  exists b, hp_blocks (fst (fst ex_later)) !! m_buffer (snd (fst ex_new)) = Some b /\
    slice 4 3 (blk_data b) = [Some 1; Some 2; Some 3].
Proof.
  refine (held_bytes_stable ex_new (run_all [OpStore [1; 2; 3]] ex_new) ex_held ex_later [1; 2; 3]
            sh_ex_new_reach _ _ _ sh_ex_steps).
  - vm_compute. repeat split; discriminate.
  - vm_compute. reflexivity.
  - vm_compute. reflexivity.
Defined.

Lemma shared_reserve_makes_room_witness :
  exists st', keeps [] (fst ex_new) st' /\
    ((reserve_buffer 100 16 (fst ex_new) = Ret tt st' /\ 100 <= m_free (snd st')) \/
     (reserve_buffer 100 16 (fst ex_new) = Throw BadAlloc st' /\
      short_of_memory (fst ex_new) 100 16)).
Proof.
  refine (shared_reserve_makes_room ex_new 100 16 sh_ex_new_reach _).
  vm_compute. repeat split; discriminate.
Defined.

Lemma shared_delete_frees_all_witness :
  exists h', shared_buffer_delete (snd (fst ex_new)) (fst (fst ex_new)) = Ret tt h' /\
    hp_blocks h' = ∅.
Proof. refine (shared_delete_frees_all ex_new sh_ex_new_reach _). repeat constructor. Defined.

(** [ref] declares no assignment: the implicit one copies the pointer and counts
    nothing.  Two refs that have one count between them free the block under the
    object. *)
Lemma assigned_ref_frees_early :
  match shared_buffer_new 16 (Heap ∅ []) with
  | Ret sh h =>
      match hold 5 (h, sh) with
      | Ret r st => (_ ← ref_clear r; _ ← ref_clear r; shared_buffer_delete (snd st)) (fst st) = Undef
      | _ => False
      end
  | _ => False
  end.
Proof. by vm_compute. Qed.
