(* ===== verification/CountThreads.v ===== *)
(** * Reference counts used by several threads (src/mp/shared_buffer.h)

    The [ref]s of a [shared_buffer] may live in other threads than the object.
    No lock is taken: the counter is read with a plain load, changed with
    atomic builtins, and the block is freed by whoever brings the counter to
    zero, in an access of its own.  The threads are interleaved between these
    accesses: one uses the object, any number of others copy and clear refs.
    The file shows that no access touches a freed block, that a held region
    keeps its bytes although the object's thread rewinds and reallocates, that
    nothing leaks, and that the operations are wait-free. *)

From Stdlib Require Import ZArith Lia.
From stdpp Require Import base tactics option list numbers fin_maps gmap.
From S2P Require Import Prelude RcHeap SharedBuffer.

(** ** The accesses to a counter *)

(** [__sync_sub_and_fetch((count_t* )d, 1)]. *)
Definition sub_and_fetch (d : loc) : M heap Z :=
  c ← get_count d;
  b ← get_block d;
  _ ← upd_blocks <[d := Block (Some (wrap32 (c - 1))) (blk_data b)]>;
  mret (wrap32 (c - 1)).

(** Alone, the two accesses of [decr_count] are the function. *)
Lemma decr_count_split d h :
  decr_count d h = (r ← sub_and_fetch d; if r =? 0 then free d else mret tt) h.
Proof.
  unfold decr_count, sub_and_fetch, get_count, get_block, upd_blocks, modify, mbind, M_bind, mret, M_ret.
  destruct (hp_blocks h !! d) as [b|] eqn:Hb; [|done]. destruct (blk_count b) as [c|]; [by rewrite Hb|done].
Qed.

(** The count of a block is the number of its owners; the blocks [fs] have lost
    the last one and await the free of whoever took the count to zero. *)
Record cnt_inv (m : gmap loc block) (os fs : list loc) : Prop := CntInv {
  cn_nodup : NoDup fs;
  cn_at l : match m !! l with
            | Some b => blk_count b = Some (occ l os) /\ (0 < occ l os <-> l ∉ fs)
            | None => occ l os = 0 /\ l ∉ fs
            end
}.

#[export] Instance cnt_inv_proper m : Proper ((≡ₚ) ==> (≡ₚ) ==> iff) (cnt_inv m).
Proof.
  assert (forall os os' fs fs', os ≡ₚ os' -> fs ≡ₚ fs' -> cnt_inv m os fs -> cnt_inv m os' fs') as H.
  { intros os os' fs fs' Ho Hf [Hn Hm]. split; [by rewrite <-Hf|]. intros l. specialize (Hm l). unfold occ in *.
    rewrite <-(proj1 (Permutation_count_occ Nat.eq_dec _ _) Ho l).
    assert (l ∉ fs <-> l ∉ fs') as Hl by (by rewrite Hf). destruct (m !! l); rewrite <-Hl; done. }
  intros os os' Ho fs fs' Hf. split; apply H; by symmetry || done.
Qed.

#[export] Instance occ_proper l : Proper ((≡ₚ) ==> eq) (occ l).
Proof. intros os os' H. unfold occ. by rewrite (proj1 (Permutation_count_occ Nat.eq_dec _ _) H l). Qed.

Lemma cnt_inv_rc m os : rc_inv m os <-> cnt_inv m os [].
Proof.
  split.
  - intros H. split; [constructor|]. intros l. specialize (H l). destruct (m !! l); [|split; [done|set_solver]].
    destruct H. split; [done|]. split; [set_solver|done].
  - intros [_ H] l. specialize (H l). destruct (m !! l); [|tauto]. destruct H as [? H]. split; [done|]. apply H. set_solver.
Qed.

Lemma cnt_owned m os fs l :
  cnt_inv m os fs -> l ∈ os -> exists b, m !! l = Some b /\ blk_count b = Some (occ l os) /\ l ∉ fs.
Proof.
  intros [_ H] Hl%occ_elem. specialize (H l). destruct (m !! l) as [b|]; [|lia]. exists b. split; [done|]. tauto.
Qed.

Lemma cnt_dead m os fs l : cnt_inv m os fs -> l ∈ fs -> l ∉ os /\ exists b, m !! l = Some b.
Proof.
  intros [_ H] Hl. specialize (H l). rewrite <-occ_elem. destruct (m !! l) as [b|]; [|tauto]. split; [tauto|by exists b].
Qed.

Lemma cnt_absent m os fs l : cnt_inv m os fs -> m !! l = None -> l ∉ os /\ l ∉ fs.
Proof. intros [_ H] Hl. specialize (H l). rewrite Hl in H. rewrite <-occ_elem. split; [lia|tauto]. Qed.

Lemma cnt_nobody m : cnt_inv m [] [] -> m = ∅.
Proof. intros H%cnt_inv_rc. by apply rc_inv_nil. Qed.

Section Rules.
Context (E : exn -> heap -> Prop).
Implicit Types (h : heap) (os fs : list loc) (l : loc).

Lemma cnt_get Q h os fs l :
  cnt_inv (hp_blocks h) os fs -> l ∈ os -> Q (occ l os) h -> wp (get_count l) Q E h.
Proof.
  intros Hm Hl HQ. destruct (cnt_owned _ _ _ _ Hm Hl) as (b & Hb & Hc & _).
  unfold get_count. wp_step. eapply wp_get_block; [done|]. rewrite Hc. by wp_steps.
Qed.

(** The blocks after the count of [l] was changed. *)
Lemma data_of_count h l b c s l' :
  hp_blocks h !! l = Some b -> data_of (Heap (<[l := Block c (blk_data b)]> (hp_blocks h)) s) l' = data_of h l'.
Proof.
  intros Hb. unfold data_of. simpl. destruct (decide (l = l')) as [<-|]; [by rewrite lookup_insert_eq, Hb|by rewrite lookup_insert_ne].
Qed.

Lemma cnt_incr Q h os fs l :
  cnt_inv (hp_blocks h) os fs -> l ∈ os -> 1 + occ l os < 2 ^ 32 ->
  (forall h', cnt_inv (hp_blocks h') (l :: os) fs -> (forall l', data_of h' l' = data_of h l') -> Q tt h') ->
  wp (incr_count l) Q E h.
Proof.
  intros Hm Hl Hf HQ. unfold incr_count. wp_step. eapply cnt_get; [done..|]. wp_step.
  destruct (cnt_owned _ _ _ _ Hm Hl) as (b & Hb & Hc & Hlf). eapply wp_get_block; [done|]. unfold upd_blocks. wp_steps.
  pose proof (occ_nonneg l os).
  rewrite wrap32_small by lia. apply HQ; [|by intros l'; apply data_of_count].
  destruct Hm as [Hn Hm]. split; [done|]. intros l'. specialize (Hm l'). autorewrite with mpio_rw. simpl.
  destruct (decide (l = l')) as [<-|].
  - rewrite lookup_insert_eq. simpl. split; [f_equal; lia|]. split; [done|]. intros _. apply occ_elem in Hl. lia.
  - rewrite lookup_insert_ne by done. by rewrite Z.add_0_l.
Qed.

Lemma cnt_sub Q h os fs l :
  cnt_inv (hp_blocks h) (l :: os) fs -> occ l (l :: os) < 2 ^ 32 ->
  (forall h', cnt_inv (hp_blocks h') os (if occ l os =? 0 then l :: fs else fs) ->
     (forall l', data_of h' l' = data_of h l') -> Q (occ l os) h') ->
  wp (sub_and_fetch l) Q E h.
Proof.
  intros Hm Hf HQ. assert (l ∈ l :: os) as Hl by set_solver.
  unfold sub_and_fetch. wp_step. eapply cnt_get; [done..|]. wp_step.
  destruct (cnt_owned _ _ _ _ Hm Hl) as (b & Hb & Hc & Hlf). eapply wp_get_block; [done|]. unfold upd_blocks. wp_steps.
  pose proof (occ_nonneg l os). autorewrite with mpio_rw in Hf. rewrite decide_True in Hf by done.
  assert (wrap32 (occ l (l :: os) - 1) = occ l os) as ->.
  { autorewrite with mpio_rw. rewrite decide_True by done. rewrite wrap32_small; lia. }
  apply HQ; [|by intros l'; apply data_of_count]. destruct Hm as [Hn Hm]. split.
  { destruct (_ =? _); [by constructor|done]. }
  intros l'. specialize (Hm l'). autorewrite with mpio_rw in Hm. simpl. destruct (decide (l = l')) as [<-|Hne].
  - rewrite lookup_insert_eq. simpl. split; [done|]. destruct (Z.eqb_spec (occ l os) 0); [set_solver by lia|]. split; [done|lia].
  - rewrite lookup_insert_ne by done. rewrite ?Z.add_0_l in Hm. destruct (_ =? _); [|done].
    destruct (hp_blocks h !! l') as [b'|]; destruct Hm as [Hm1 Hm2]; (split; [done|]); rewrite not_elem_of_cons; naive_solver.
Qed.

Lemma cnt_free Q h os fs l :
  cnt_inv (hp_blocks h) os (l :: fs) ->
  (forall h', cnt_inv (hp_blocks h') os fs -> same_data os h h' -> hp_blocks h' = delete l (hp_blocks h) -> Q tt h') ->
  wp (free l) Q E h.
Proof.
  intros Hm HQ. destruct (cnt_dead _ _ _ l Hm) as [Hl [b Hb]]; [set_solver|].
  unfold free. wp_step. eapply wp_get_block; [done|]. unfold upd_blocks. wp_steps. apply HQ.
  - destruct Hm as [[Hlf Hn]%NoDup_cons Hm]. split; [done|]. intros l'. specialize (Hm l'). simpl.
    destruct (decide (l = l')) as [<-|Hne].
    + rewrite lookup_delete_eq. split; [|done]. pose proof (occ_nonneg l os). rewrite <-occ_elem in Hl. lia.
    + rewrite lookup_delete_ne by done. destruct (hp_blocks h !! l'); rewrite not_elem_of_cons in Hm; naive_solver.
  - intros l' Hl'. assert (l <> l') by (intros <-; done). unfold data_of. simpl. by rewrite lookup_delete_ne.
  - done.
Qed.

(** [malloc] and the [init_count] of the new block, which nobody else can reach. *)
Lemma cnt_new Q h os fs n :
  0 <= n -> cnt_inv (hp_blocks h) os fs ->
  (forall h' l, cnt_inv (hp_blocks h') (l :: os) fs -> l ∉ os -> l ∉ fs -> same_data (os ++ fs) h h' -> n <= ptrdiff_max ->
     data_of h' l = Some (replicate (Z.to_nat n) None) -> Q (Some l) h') ->
  (forall h', hp_blocks h' = hp_blocks h -> Q None h') ->
  wp (p ← malloc n; match p with Some l => _ ← init_count l; mret (Some l) | None => mret None end) Q E h.
Proof.
  intros Hn Hm HQ HN. wp_step. apply wp_malloc; [|by intros s _; wp_steps; apply HN].
  intros s l _ Hl Hmax. destruct (cnt_absent _ _ _ _ Hm Hl) as [Hlo Hlf]. wp_step. unfold init_count. wp_step.
  eapply wp_get_block; [apply lookup_insert_eq|]. unfold upd_blocks. wp_steps. rewrite insert_insert_eq.
  apply HQ; [|done|done| |done|by unfold data_of; simpl; rewrite lookup_insert_eq].
  - destruct Hm as [Hnd Hm]. split; [done|]. intros l'. specialize (Hm l'). autorewrite with mpio_rw. simpl.
    destruct (decide (l = l')) as [<-|].
    + rewrite lookup_insert_eq. rewrite Hl in Hm. simpl. destruct Hm as [-> _]. split; [done|]. split; [done|lia].
    + rewrite lookup_insert_ne by done. by rewrite Z.add_0_l.
  - intros l' Hl'. assert (l <> l') by (intros <-; set_solver). unfold data_of. simpl. by rewrite lookup_insert_ne.
Qed.

(** [realloc] by the only owner. *)
Lemma cnt_realloc Q h os fs l n d :
  0 <= n -> cnt_inv (hp_blocks h) (l :: os) fs -> l ∉ os -> data_of h l = Some d ->
  (forall h' l' d', cnt_inv (hp_blocks h') (l' :: os) fs -> l' ∉ os -> same_data os h h' -> n <= ptrdiff_max ->
     data_of h' l' = Some d' -> zlen d' = n -> Q (Some l') h') ->
  (forall h', hp_blocks h' = hp_blocks h -> Q None h') ->
  wp (realloc l n) Q E h.
Proof.
  intros Hn Hm Hlo Hd HQ HN. destruct (cnt_owned _ _ _ l Hm) as (b & Hb & Hc & Hlf); [set_solver|].
  assert (cnt_inv (delete l (hp_blocks h)) os fs) as Hdel.
  { destruct Hm as [Hnd Hm]. split; [done|]. intros l'. specialize (Hm l'). autorewrite with mpio_rw in Hm.
    destruct (decide (l = l')) as [<-|]; [|by rewrite lookup_delete_ne by done].
    rewrite lookup_delete_eq. pose proof (occ_nonneg l os). rewrite <-occ_elem in Hlo. split; [lia|done]. }
  eapply wp_realloc; [done| |by intros s _; apply HN]. intros s l' _ Hl' Hmax.
  destruct (cnt_absent _ _ _ _ Hdel Hl') as [Hlo' Hlf']. eapply HQ; [|done| |done|unfold data_of; simpl; by rewrite lookup_insert_eq|].
  - assert (occ l (l :: os) = 1) as Hone.
    { autorewrite with mpio_rw. rewrite decide_True by done. pose proof (occ_nonneg l os). rewrite <-occ_elem in Hlo. lia. }
    destruct Hdel as [Hnd Hdel]. split; [done|]. intros l0. specialize (Hdel l0). autorewrite with mpio_rw. simpl.
    destruct (decide (l' = l0)) as [<-|].
    + rewrite lookup_insert_eq. simpl. rewrite Hc, Hone. rewrite Hl' in Hdel. destruct Hdel as [-> _]. split; [done|]. split; [done|lia].
    + rewrite lookup_insert_ne by done. by rewrite Z.add_0_l.
  - intros l0 Hl0. assert (l' <> l0) by (intros <-; done). assert (l <> l0) by (intros <-; done).
    unfold data_of. simpl. by rewrite lookup_insert_ne, lookup_delete_ne.
  - simpl. rewrite length_app, length_replicate, length_take. lia.
Qed.

Lemma cnt_store Q h os fs l off bs d :
  cnt_inv (hp_blocks h) os fs -> data_of h l = Some d -> 0 <= off -> off + zlen bs <= zlen d ->
  (forall h', cnt_inv (hp_blocks h') os fs -> (forall l', l' <> l -> data_of h' l' = data_of h l') ->
     data_of h' l = Some (splice off (Some <$> bs) d) -> Q tt h') ->
  wp (store l off bs) Q E h.
Proof.
  intros Hm Hd Hoff Hlen HQ. unfold data_of in Hd. destruct (hp_blocks h !! l) as [b|] eqn:Hb; [|done]. injection Hd as <-.
  unfold store. wp_step. eapply wp_get_block; [done|]. rewrite bool_decide_true by lia. unfold upd_blocks. wp_steps. apply HQ.
  - destruct Hm as [Hnd Hm]. split; [done|]. intros l'. specialize (Hm l'). simpl. destruct (decide (l = l')) as [<-|].
    + rewrite lookup_insert_eq. by rewrite Hb in Hm.
    + by rewrite lookup_insert_ne.
  - intros l' Hne. unfold data_of. simpl. by rewrite lookup_insert_ne.
  - unfold data_of. simpl. by rewrite lookup_insert_eq.
Qed.
End Rules.

(** ** Threads *)

(** A [ref] and what its holder knows: the region [hold] took and its bytes then. *)
Record held := Held { hd_loc : loc; hd_off : Z; hd_len : Z; hd_bytes : list (option Z) }.

(** The next access of the thread that uses the object. *)
Inductive opc : Type :=
| OIdle
| OReserve (len init : Z)         (* reserve_buffer, at get_count *)
| OExpand (len init : Z)          (* expand_buffer, at the condition *)
| ORealloc (len init : Z)         (* in its first branch *)
| OMalloc (len init : Z)          (* in its second branch *)
| OSub (tmp : loc) (size : Z)     (* decr_count of the old block, at the builtin *)
| OFree (tmp : loc) (size : Z)    (* at the free of it *)
| OThrown                         (* std::bad_alloc *)
| OHold (len : Z)
| OIncr (a n : Z) (bs : list (option Z))  (* in ref(void* ), the region taken *)
| OHeld (r : held)                (* hold returned *)
| OSubLast                        (* the destructor, at the builtin *)
| OFreeLast                       (* at the free *)
| OGone.                          (* destroyed *)

(** The next access of any other thread. *)
Inductive tpc : Type :=
| TIdle
| TCopy (r : held)                (* ref(const ref&), at incr_count *)
| TSub (r : held)                 (* clear, at the builtin *)
| TFree (l : loc).                (* at the free *)

(** What a region shows. *)
Definition region (h : heap) (l : loc) (a n : Z) : list (option Z) := default [] (slice a n <$> data_of h l).

Definition o_moved (tmp : loc) (size : Z) : M shst opc :=
  _ ← put_sh (SharedBuffer tmp sizeof_count (wrap64 (size - sizeof_count)));
  mret OIdle.

(** The code of the object's thread, up to its next access to a counter or the heap. *)
Definition o_code (p : opc) : option (M shst opc) :=
  match p with
  | OReserve len init => Some (
      sh ← get_sh;
      sole ← sole_owner;
      _ ← (if sole : bool then
             put_sh (SharedBuffer (m_buffer sh) sizeof_count
                       (wrap64 (m_free sh + wrap64 (m_used sh - sizeof_count))))
           else mret tt);
      sh ← get_sh;
      mret (if m_free sh <? len then OExpand len init else OIdle))
  | OExpand len init => Some (
      sh ← get_sh;
      sole ← (if m_used sh =? sizeof_count then sole_owner else mret false);
      mret (if sole : bool then ORealloc len init else OMalloc len init))
  | ORealloc len init => Some (
      sh ← get_sh;
      next_size ← grow (wrap64 (wrap64 (m_used sh + m_free sh) * 2)) (wrap64 (len + m_used sh));
      tmp ← on_heap (realloc (m_buffer sh) next_size);
      match tmp with
      | None => throw BadAlloc
      | Some tmp =>
          _ ← put_sh (SharedBuffer tmp (m_used sh) (wrap64 (next_size - m_used sh)));
          mret OIdle
      end)
  | OMalloc len init => Some (
      next_size ← grow (Z.max init sizeof_count) (wrap64 (len + sizeof_count));
      tmp ← on_heap (p ← malloc next_size;
                     match p with Some l => _ ← init_count l; mret (Some l) | None => mret None end);
      match tmp with None => throw BadAlloc | Some tmp => mret (OSub tmp next_size) end)
  | OSub tmp size => Some (
      sh ← get_sh;
      c ← on_heap (sub_and_fetch (m_buffer sh));
      if c =? 0 then mret (OFree tmp size) else o_moved tmp size)
  | OFree tmp size => Some (
      sh ← get_sh;
      _ ← on_heap (free (m_buffer sh));
      o_moved tmp size)
  | OHold len => Some (
      st ← get;
      let sh := snd st in
      let len := if m_free sh <? len then m_free sh else len in
      _ ← put_sh (SharedBuffer (m_buffer sh) (wrap64 (m_used sh + len)) (wrap64 (m_free sh - len)));
      mret (OIncr (m_used sh) len (region (fst st) (m_buffer sh) (m_used sh) len)))
  | OIncr a n bs => Some (
      sh ← get_sh;
      _ ← on_heap (ref_of (m_buffer sh));
      mret (OHeld (Held (m_buffer sh) a n bs)))
  | OSubLast => Some (
      sh ← get_sh;
      c ← on_heap (sub_and_fetch (m_buffer sh));
      mret (if c =? 0 then OFreeLast else OGone))
  | OFreeLast => Some (
      sh ← get_sh;
      _ ← on_heap (free (m_buffer sh));
      mret OGone)
  | OIdle | OThrown | OHeld _ | OGone => None
  end.

(** The code of the others; with the thread's new state come the refs that it leaves. *)
Definition t_code (p : tpc) : option (M heap (tpc * list held)) :=
  match p with
  | TIdle => None
  | TCopy r => Some (_ ← ref_copy (Some (hd_loc r)); mret (TIdle, [r; r]))
  | TSub r => Some (c ← sub_and_fetch (hd_loc r); mret (if c =? 0 then TFree (hd_loc r) else TIdle, []))
  | TFree l => Some (_ ← free l; mret (TIdle, []))
  end.

(** ** One thread *)

Fixpoint o_alone (n : nat) (p : opc) : M shst opc :=
  match n with
  | O => mret p
  | S n => match o_code p with Some m => p' ← m; o_alone n p' | None => mret p end
  end.

(** The monad's laws, at a state. *)
Lemma bind_same {S A B} (m m' : M S A) (k k' : A -> M S B) s :
  m s = m' s -> (forall a s', m s = Ret a s' -> k a s' = k' a s') -> (a ← m; k a) s = (a ← m'; k' a) s.
Proof. intros Hm H. unfold mbind, M_bind. rewrite <-Hm. destruct (m s); try done. by apply H. Qed.

Lemma bind_bind {S A B C} (m : M S A) (f : A -> M S B) (g : B -> M S C) s :
  (b ← (a ← m; f a); g b) s = (a ← m; b ← f a; g b) s.
Proof. unfold mbind, M_bind. by destruct (m s). Qed.

Lemma ret_bind {S A B} (a : A) (k : A -> M S B) s : (a ← mret a; k a) s = k a s.
Proof. done. Qed.

Lemma on_heap_bind {A B} (m : M heap A) (k : A -> M heap B) st :
  on_heap (a ← m; k a) st = (a ← on_heap m; on_heap (k a)) st.
Proof. unfold on_heap, zoom, mbind, M_bind. destruct (m (fst st)); done. Qed.

Lemma on_heap_snd {A} (m : M heap A) a st st' : on_heap m st = Ret a st' -> snd st' = snd st.
Proof. unfold on_heap, zoom. destruct (m (fst st)); try done. by intros [= _ <-]. Qed.

Lemma on_heap_decr d st :
  on_heap (decr_count d) st = (c ← on_heap (sub_and_fetch d); if c =? 0 then on_heap (free d) else mret tt) st.
Proof.
  trans (on_heap (r ← sub_and_fetch d; if r =? 0 then free d else mret tt) st).
  - unfold on_heap, zoom. by rewrite decr_count_split.
  - rewrite on_heap_bind. apply bind_same; [done|]. intros c [h sh] _. by destruct (c =? 0).
Qed.

(** The accesses of a thread that runs alone compute the operations. *)
Lemma o_alone_idle n st : o_alone n OIdle st = Ret OIdle st.
Proof. by destruct n. Qed.

Lemma o_alone_S n p m st : o_code p = Some m -> o_alone (S n) p st = (q ← m; o_alone n q) st.
Proof. intros H. cbn [o_alone]. by rewrite H. Qed.

Lemma o_alone_move n tmp size sh st :
  snd st = sh ->
  o_alone (S (S n)) (OSub tmp size) st =
    (_ ← on_heap (decr_count (m_buffer sh));
     _ ← put_sh (SharedBuffer tmp sizeof_count (wrap64 (size - sizeof_count))); mret OIdle) st.
Proof.
  intros <-. set (p' := SharedBuffer _ _ _). trans ((c ← (on_heap (sub_and_fetch (m_buffer (snd st))));
    _ ← (if c =? 0 then on_heap (free (m_buffer (snd st))) else mret tt); _ ← put_sh p'; mret OIdle) st).
  - change (o_alone (S (S n)) (OSub tmp size) st) with
      ((q ← (c ← on_heap (sub_and_fetch (m_buffer (snd st))); if c =? 0 then mret (OFree tmp size) else o_moved tmp size); o_alone (S n) q) st).
    rewrite bind_bind. apply bind_same; [done|]. intros c st1 H1%on_heap_snd. destruct (c =? 0).
    + rewrite ret_bind. change (o_alone (S n) (OFree tmp size) st1) with
        ((q ← (_ ← on_heap (free (m_buffer (snd st1))); o_moved tmp size); o_alone n q) st1).
      rewrite bind_bind, H1. apply bind_same; [done|]. intros [] st2 _. apply o_alone_idle.
    + rewrite ret_bind. unfold o_moved. rewrite bind_bind. apply bind_same; [done|]. intros [] st2 _. apply o_alone_idle.
  - rewrite <-bind_bind. by apply bind_same; [rewrite on_heap_decr|].
Qed.

Lemma sole_snd (b : bool) a st st' :
  (if b then sole_owner else mret false) st = Ret a st' -> snd st' = snd st.
Proof.
  destruct b; [|by intros [= _ <-]]. unfold sole_owner, get_sh, get, mbind, M_bind, mret, M_ret.
  destruct (on_heap _ _) as [c st1| | |] eqn:H; try done. intros [= _ <-]. by apply on_heap_snd in H.
Qed.

Lemma grow_state {S} size need n (s s' : S) : grow size need s = Ret n s' -> s' = s.
Proof. unfold grow. destruct (double_until _ _ _); [by intros [= _ <-]|done]. Qed.

Lemma o_alone_realloc n len init sh st :
  snd st = sh ->
  o_alone (S n) (ORealloc len init) st =
    (next_size ← grow (wrap64 (wrap64 (m_used sh + m_free sh) * 2)) (wrap64 (len + m_used sh));
     tmp ← on_heap (realloc (m_buffer sh) next_size);
     _ ← match tmp with
         | None => throw BadAlloc
         | Some tmp => put_sh (SharedBuffer tmp (m_used sh) (wrap64 (next_size - m_used sh)))
         end; mret OIdle) st.
Proof.
  intros <-. cbn [o_alone o_code]. rewrite bind_bind. change ((get_sh ≫= ?k) st) with (k (snd st) st). cbv beta.
  rewrite bind_bind. apply bind_same; [done|]. intros next st1 _. rewrite bind_bind. apply bind_same; [done|].
  intros [tmp|] st2 _; [|done]. rewrite bind_bind. apply bind_same; [done|]. intros [] st3 _. by rewrite ret_bind, o_alone_idle.
Qed.

Lemma o_alone_malloc n len init sh st :
  snd st = sh ->
  o_alone (S (S (S n))) (OMalloc len init) st =
    (next_size ← grow (Z.max init sizeof_count) (wrap64 (len + sizeof_count));
     tmp ← on_heap (malloc next_size);
     _ ← match tmp with
         | None => throw BadAlloc
         | Some tmp =>
             _ ← on_heap (init_count tmp);
             _ ← on_heap (decr_count (m_buffer sh));
             put_sh (SharedBuffer tmp sizeof_count (wrap64 (next_size - sizeof_count)))
         end; mret OIdle) st.
Proof.
  intros <-. rewrite (o_alone_S _ (OMalloc len init) _ _ eq_refl). set (k := o_alone (S (S n))).
  rewrite bind_bind. apply bind_same; [done|]. intros next st1 ->%grow_state.
  rewrite bind_bind. trans ((tmp ← (p ← on_heap (malloc next); match p with Some l => _ ← on_heap (init_count l); mret (Some l) | None => mret None end);
    b ← match tmp with Some tmp => mret (OSub tmp next) | None => throw BadAlloc end; k b) st).
  { apply bind_same; [|done]. rewrite on_heap_bind. apply bind_same; [done|]. intros [l|] [h sh] _; [|done].
    rewrite on_heap_bind. apply bind_same; [done|]. by intros [] [h1 sh1] _. }
  rewrite bind_bind. apply bind_same; [done|]. intros [tmp|] st2 H2%on_heap_snd; [|done].
  rewrite !bind_bind. apply bind_same; [done|]. intros [] st3 H3%on_heap_snd. rewrite ret_bind. cbv beta. rewrite ret_bind.
  unfold k. rewrite (o_alone_move n tmp next (snd st)), bind_bind by congruence. done.
Qed.

Lemma o_alone_expand len init st :
  o_alone 4 (OExpand len init) st = (_ ← expand_buffer len init; mret OIdle) st.
Proof.
  change (o_alone 4 (OExpand len init) st) with
    ((p ← (sole ← (if m_used (snd st) =? sizeof_count then sole_owner else mret false);
           mret (if sole : bool then ORealloc len init else OMalloc len init)); o_alone 3 p) st).
  unfold expand_buffer. rewrite !bind_bind. change ((get_sh ≫= ?k) st) with (k (snd st) st). cbv beta.
  rewrite bind_bind. apply bind_same; [done|]. intros [] st1 H%sole_snd; rewrite ret_bind.
  - rewrite (o_alone_realloc 2 _ _ (snd st)) by done. rewrite bind_bind. apply bind_same; [done|]. intros n st2 _. by rewrite bind_bind.
  - rewrite (o_alone_malloc 0 _ _ (snd st)) by done. rewrite bind_bind. apply bind_same; [done|]. intros n st2 _. by rewrite bind_bind.
Qed.

Lemma o_alone_reserve len init st :
  o_alone 5 (OReserve len init) st = (_ ← reserve_buffer len init; mret OIdle) st.
Proof.
  unfold reserve_buffer. rewrite (o_alone_S 4 (OReserve len init) _ _ eq_refl).
  rewrite !bind_bind. apply bind_same; [done|]. intros sh st1 _. rewrite !bind_bind. apply bind_same; [done|].
  intros sole st2 _. rewrite !bind_bind. apply bind_same; [done|]. intros [] st3 _. rewrite !bind_bind. apply bind_same; [done|].
  intros sh' st4 _. rewrite ret_bind. destruct (_ <? _); [apply o_alone_expand|]. apply o_alone_idle.
Qed.

Lemma o_alone_hold len st :
  o_alone 2 (OHold len) st =
    (r ← hold len; mret (OHeld (Held (m_buffer (snd st)) (m_used (snd st)) (clamp (m_free (snd st)) len)
       (region (fst st) (m_buffer (snd st)) (m_used (snd st)) (clamp (m_free (snd st)) len))))) st.
Proof.
  unfold hold. change (o_alone 2 (OHold len) st) with (o_alone 1 (OIncr (m_used (snd st)) (clamp (m_free (snd st)) len)
    (region (fst st) (m_buffer (snd st)) (m_used (snd st)) (clamp (m_free (snd st)) len)))
    (fst st, SharedBuffer (m_buffer (snd st)) (wrap64 (m_used (snd st) + clamp (m_free (snd st)) len)) (wrap64 (m_free (snd st) - clamp (m_free (snd st)) len)))).
  cbn [o_alone o_code]. rewrite !bind_bind. change ((get_sh ≫= ?k) ?st) with (k (snd st) st). cbv beta.
  rewrite !bind_bind. change ((put_sh ?x ≫= ?k) ?s) with (k tt (fst s, x)). cbv beta. by apply bind_same.
Qed.

Lemma o_alone_delete st :
  o_alone 2 OSubLast st = (_ ← on_heap (shared_buffer_delete (snd st)); mret OGone) st.
Proof.
  unfold shared_buffer_delete. trans ((_ ← (c ← on_heap (sub_and_fetch (m_buffer (snd st))); if c =? 0 then on_heap (free (m_buffer (snd st))) else mret tt); mret OGone) st).
  - rewrite (o_alone_S 1 OSubLast _ _ eq_refl), !bind_bind. change ((get_sh ≫= ?k) ?st) with (k (snd st) st). cbv beta. rewrite !bind_bind.
    apply bind_same; [done|]. intros c st1 H%on_heap_snd. rewrite ret_bind. destruct (c =? 0); [|done].
    rewrite (o_alone_S 0 OFreeLast _ _ eq_refl), !bind_bind. change ((get_sh ≫= ?k) ?st) with (k (snd st) st). cbv beta.
    rewrite H, !bind_bind. by apply bind_same.
  - apply bind_same; [symmetry; apply on_heap_decr|done].
Qed.

Fixpoint t_alone (n : nat) (p : tpc) : M heap (tpc * list held) :=
  match n with
  | O => mret (p, [])
  | S n =>
      match t_code p with
      | Some m => r ← m; r' ← t_alone n (fst r); mret (fst r', snd r ++ snd r')
      | None => mret (p, [])
      end
  end.

Lemma t_alone_clear r h : t_alone 2 (TSub r) h = (_ ← ref_clear (Some (hd_loc r)); mret (TIdle, [])) h.
Proof.
  change (t_alone 2 (TSub r) h) with ((q ← (c ← sub_and_fetch (hd_loc r); mret (if c =? 0 then TFree (hd_loc r) else TIdle, []));
    r' ← t_alone 1 (fst q); mret (fst r', snd q ++ snd r')) h).
  unfold ref_clear. rewrite !bind_bind.
  trans ((_ ← (c ← sub_and_fetch (hd_loc r); if c =? 0 then free (hd_loc r) else mret tt); mret (TIdle, @nil held)) h).
  - rewrite bind_bind. apply bind_same; [done|]. intros c h1 _. rewrite ret_bind. simpl. destruct (c =? 0); [|done].
    cbn [t_code]. rewrite !bind_bind. by apply bind_same.
  - apply bind_same; [by rewrite decr_count_split|done].
Qed.

(** ** Steps *)

(** [c_refs] are the [ref] objects that no thread is working on, wherever they
    are kept; each is used by one thread at a time. *)
Record shared := Shared {
  c_st : shst;
  c_opc : opc;
  c_refs : list held;
  c_thr : list tpc
}.

Definition obj_owned (sh : shared_buffer) (p : opc) : list loc :=
  match p with
  | OSub tmp _ => [m_buffer sh; tmp]
  | OFree tmp _ => [tmp]
  | OFreeLast | OGone => []
  | _ => [m_buffer sh]
  end.

Definition obj_dead (sh : shared_buffer) (p : opc) : list loc :=
  match p with OFree _ _ | OFreeLast => [m_buffer sh] | _ => [] end.

Definition obj_held (p : opc) : list held := match p with OHeld r => [r] | _ => [] end.

Definition thr_held (p : tpc) : list held := match p with TCopy r | TSub r => [r] | _ => [] end.
Definition thr_dead (p : tpc) : list loc := match p with TFree l => [l] | _ => [] end.

(** Every [ref] there is. *)
Definition all_held (p : opc) (refs : list held) (ts : list tpc) : list held :=
  obj_held p ++ refs ++ concat (thr_held <$> ts).

Definition all_owned (sh : shared_buffer) (p : opc) (refs : list held) (ts : list tpc) : list loc :=
  obj_owned sh p ++ (hd_loc <$> all_held p refs ts).

Definition all_dead (sh : shared_buffer) (p : opc) (ts : list tpc) : list loc :=
  obj_dead sh p ++ concat (thr_dead <$> ts).

Definition held_of (c : shared) : list held := all_held (c_opc c) (c_refs c) (c_thr c).
Definition owned_of (c : shared) : list loc := all_owned (snd (c_st c)) (c_opc c) (c_refs c) (c_thr c).
Definition dead_of (c : shared) : list loc := all_dead (snd (c_st c)) (c_opc c) (c_thr c).

(** The 32-bit counter of the block has room for one more. *)
Definition room (c : shared) (l : loc) : Prop := 1 + occ l (owned_of c) < 2 ^ 32.

(** What the object's thread calls: [reserve_buffer] within the limits of [size_t],
    [hold], the destructor; a caller may catch the exception. *)
Inductive o_call (c : shared) : opc -> opc -> Prop :=
| call_reserve len init : reserve_pre (c_st c) len init -> o_call c OIdle (OReserve len init)
| call_hold len : 0 <= len -> o_call c OIdle (OHold len)
| call_delete : o_call c OIdle OSubLast
| call_caught : o_call c OThrown OIdle.

Inductive sh_step (c : shared) : shared -> Prop :=
| s_object m p' st' :
    o_code (c_opc c) = Some m -> (forall a n bs, c_opc c = OIncr a n bs -> room c (m_buffer (snd (c_st c)))) ->
    m (c_st c) = Ret p' st' \/ (exists e, m (c_st c) = Throw e st' /\ p' = OThrown) ->
    sh_step c (Shared st' p' (c_refs c) (c_thr c))
| s_call p' : o_call c (c_opc c) p' -> sh_step c (Shared (c_st c) p' (c_refs c) (c_thr c))
| s_store bs st' :
    c_opc c = OIdle -> zlen bs <= m_free (snd (c_st c)) -> store_at_buffer bs (c_st c) = Ret tt st' ->
    sh_step c (Shared st' OIdle (c_refs c) (c_thr c))
| s_skip len st' :
    c_opc c = OIdle -> 0 <= len -> skip len (c_st c) = Ret tt st' -> sh_step c (Shared st' OIdle (c_refs c) (c_thr c))
| s_give r : c_opc c = OHeld r -> sh_step c (Shared (c_st c) OIdle (r :: c_refs c) (c_thr c))
| s_take t r refs' p' :
    c_thr c !! t = Some TIdle -> c_refs c ≡ₚ r :: refs' -> p' = TCopy r \/ p' = TSub r ->
    sh_step c (Shared (c_st c) (c_opc c) refs' (<[t := p']> (c_thr c)))
| s_thread t p m p' new h' :
    c_thr c !! t = Some p -> t_code p = Some m -> (forall r, p = TCopy r -> room c (hd_loc r)) -> m (fst (c_st c)) = Ret (p', new) h' ->
    sh_step c (Shared (h', snd (c_st c)) (c_opc c) (new ++ c_refs c) (<[t := p']> (c_thr c)))
| s_new : sh_step c (Shared (c_st c) (c_opc c) (c_refs c) (c_thr c ++ [TIdle])).

(** From the constructor on. *)
Inductive sh_reach : shared -> Prop :=
| sh_start script init sh h :
    0 <= init -> shared_buffer_new init (Heap ∅ script) = Ret sh h -> sh_reach (Shared (h, sh) OIdle [] [])
| sh_next c c' : sh_reach c -> sh_step c c' -> sh_reach c'.

(** ** The invariant *)

(** The fields describe the block, while the object has it. *)
Record fields_ok (st : shst) : Prop := FieldsOk {
  fo_data : exists d, data_of (fst st) (m_buffer (snd st)) = Some d /\ zlen d = m_used (snd st) + m_free (snd st);
  fo_used : sizeof_count <= m_used (snd st);
  fo_free : 0 <= m_free (snd st);
  fo_cap : m_used (snd st) + m_free (snd st) <= ptrdiff_max
}.

(** What the object's thread knows at each point; the new block of [OSub] and [OFree]
    is not known to anybody else. *)
Definition o_knows (st : shst) (locs : list loc) (p : opc) : Prop :=
  match p with
  | OReserve len init | OExpand len init | OMalloc len init => reserve_pre st len init
  | ORealloc len init => reserve_pre st len init /\ m_used (snd st) = sizeof_count /\ m_buffer (snd st) ∉ locs
  | OSub tmp size | OFree tmp size =>
      tmp ∉ (m_buffer (snd st) :: locs) /\ sizeof_count <= size <= ptrdiff_max /\
      (exists d, data_of (fst st) tmp = Some d /\ zlen d = size)
  | OHold len => 0 <= len
  | OIncr a n bs => holds st (m_buffer (snd st)) a n bs
  | _ => True
  end.

Definition shows (st : shst) (r : held) : Prop := holds st (hd_loc r) (hd_off r) (hd_len r) (hd_bytes r).

Record sh_inv (c : shared) : Prop := ShInv {
  si_few l : occ l (owned_of c) < 2 ^ 32;
  si_rc : cnt_inv (hp_blocks (fst (c_st c))) (owned_of c) (dead_of c);
  si_fields : m_buffer (snd (c_st c)) ∈ obj_owned (snd (c_st c)) (c_opc c) -> fields_ok (c_st c);
  si_held r : r ∈ held_of c -> shows (c_st c) r;
  si_knows : o_knows (c_st c) (hd_loc <$> held_of c) (c_opc c)
}.

Lemma shows_keeps st st' (rs : list held) r : keeps (hd_loc <$> rs) st st' -> r ∈ rs -> shows st r -> shows st' r.
Proof. intros Hk Hr. apply Hk. by apply list_elem_of_fmap_2. Qed.

Lemma fields_data st h' : same_data [m_buffer (snd st)] (fst st) h' -> fields_ok st -> fields_ok (h', snd st).
Proof. intros Hs [(d & Hd & Hz) ? ? ?]. split; [|done..]. exists d. simpl. rewrite Hs by set_solver. done. Qed.

Lemma knows_data st h' locs locs' p :
  same_data (obj_owned (snd st) p ++ locs) (fst st) h' -> locs' ⊆ locs -> o_knows st locs p -> o_knows (h', snd st) locs' p.
Proof.
  intros Hs Hl. destruct p; simpl in *; try done.
  - intros (? & ? & ?). split_and!; [done|done|set_solver].
  - intros (Ht & ? & d & Hd & ?). split_and!; [set_solver|lia|lia|]. exists d. rewrite Hs by set_solver. done.
  - intros (Ht & ? & d & Hd & ?). split_and!; [set_solver|lia|lia|]. exists d. rewrite Hs by set_solver. done.
  - intros [(d & Hd & Hr) ?]. split; [|done]. exists d. simpl. rewrite Hs by set_solver. done.
Qed.

(** The other threads. *)
Lemma sh_inv_others c h' refs' ts' :
  sh_inv c -> (forall l, occ l (all_owned (snd (c_st c)) (c_opc c) refs' ts') < 2 ^ 32) ->
  cnt_inv (hp_blocks h') (all_owned (snd (c_st c)) (c_opc c) refs' ts') (all_dead (snd (c_st c)) (c_opc c) ts') ->
  same_data (owned_of c) (fst (c_st c)) h' -> all_held (c_opc c) refs' ts' ⊆ held_of c ->
  sh_inv (Shared (h', snd (c_st c)) (c_opc c) refs' ts').
Proof.
  intros [_ Hrc Hf Hh Hk] Hfew Hrc' Hs Hsub. destruct c as [[h sh] p refs ts]. unfold held_of, owned_of, all_owned in *. simpl in *.
  split; simpl.
  - done.
  - done.
  - intros Hm. apply (fields_data (h, sh)); [|by apply Hf]. eapply same_data_incl; [|exact Hs]. set_solver.
  - intros r Hr%Hsub. specialize (Hh r Hr). revert Hh. eapply shows_keeps; [|done].
    apply sh_same_data_keeps; [|by left]. eapply same_data_incl; [|exact Hs]. set_solver.
  - eapply (knows_data (h, sh)); [exact Hs| |done]. unfold held_of. simpl. intros l (r & -> & Hr)%list_elem_of_fmap.
    apply list_elem_of_fmap_2. by apply Hsub.
Qed.

(** Replacing a thread. *)
Lemma thr_insert {A B} (f : B -> list A) (ts : list B) t p :
  ts !! t = Some p -> exists rest, concat (f <$> ts) ≡ₚ f p ++ rest /\
    (forall p', concat (f <$> <[t := p']> ts) ≡ₚ f p' ++ rest) /\
    (forall j q, j <> t -> ts !! j = Some q -> f q ⊆ rest).
Proof.
  intros Ht. exists (concat (delete t (f <$> ts))).
  assert ((f <$> ts) !! t = Some (f p)) as Hf by (by rewrite list_lookup_fmap, Ht).
  split_and!; [by apply concat_lookup| |].
  - intros p'. rewrite list_fmap_insert. apply concat_insert. by eapply lookup_lt_Some.
  - intros j q Hj Hq x Hx%list_elem_of_In. apply list_elem_of_In, in_concat. exists (f q). split; [|done]. apply list_elem_of_In.
    assert ((f <$> ts) !! j = Some (f q)) as Hfq by (by rewrite list_lookup_fmap, Hq).
    destruct (decide (j < t)%nat) as [Hlt|Hge].
    + apply list_elem_of_lookup. exists j. by rewrite list_lookup_delete_lt.
    + apply list_elem_of_lookup. exists (j - 1)%nat. rewrite list_lookup_delete_ge by lia. by replace (S (j - 1)) with j by lia.
Qed.

Lemma same_data_refl os h h' : (forall l, data_of h' l = data_of h l) -> same_data os h h'.
Proof. by intros H l _. Qed.

#[local] Hint Resolve same_data_refl : core.

(** [t_code] changes the counts, the blocks to free and the refs as it says. *)
Lemma t_code_inv p m h os ds :
  t_code p = Some m -> cnt_inv (hp_blocks h) ((hd_loc <$> thr_held p) ++ os) (thr_dead p ++ ds) ->
  (forall l, occ l ((hd_loc <$> thr_held p) ++ os) < 2 ^ 32) ->
  (forall r, p = TCopy r -> 1 + occ (hd_loc r) ((hd_loc <$> thr_held p) ++ os) < 2 ^ 32) ->
  wp m (fun r h' =>
    (forall l, occ l ((hd_loc <$> thr_held (fst r) ++ snd r) ++ os) < 2 ^ 32) /\
    cnt_inv (hp_blocks h') ((hd_loc <$> thr_held (fst r) ++ snd r) ++ os) (thr_dead (fst r) ++ ds) /\
    same_data ((hd_loc <$> thr_held p) ++ os) h h' /\ thr_held (fst r) ++ snd r ⊆ thr_held p) no_exn h.
Proof.
  intros Hm Hinv Hfew Hcopy. destruct p as [|r|r|l]; simpl in Hm; try done; injection Hm as <-; simpl in *.
  - specialize (Hcopy r eq_refl). unfold ref_copy, ref_incr. wp_step. wp_step.
    eapply cnt_incr; [exact Hinv|set_solver|done|]. intros h' Hinv' Hd. wp_steps.
    split_and!; [|exact Hinv'|by apply same_data_refl|set_solver].
    intros l. specialize (Hfew l). autorewrite with mpio_rw in *. destruct (decide (hd_loc r = l)) as [<-|]; [|lia].
    rewrite decide_True in Hcopy by done. lia.
  - wp_step. eapply cnt_sub; [exact Hinv|apply Hfew|]. intros h' Hinv' Hd. wp_steps.
    assert (forall l, occ l os < 2 ^ 32) as Hfew'.
    { intros l. specialize (Hfew l). autorewrite with mpio_rw in *. destruct (decide _); lia. }
    destruct (_ =? _); simpl; (split_and!; [exact Hfew'|exact Hinv'|by apply same_data_refl|set_solver]).
  - wp_step. eapply cnt_free; [exact Hinv|]. intros h' Hinv' Hd _. wp_steps. split_and!; [exact Hfew|exact Hinv'|exact Hd|set_solver].
Qed.

(** What a thread has, and what the rest has. *)
Lemma split_thr c t p :
  c_thr c !! t = Some p -> exists os ds rs,
    owned_of c ≡ₚ (hd_loc <$> thr_held p) ++ os /\ dead_of c ≡ₚ thr_dead p ++ ds /\ held_of c ≡ₚ thr_held p ++ c_refs c ++ rs /\
    forall p' refs', all_owned (snd (c_st c)) (c_opc c) (refs' ++ c_refs c) (<[t := p']> (c_thr c)) ≡ₚ (hd_loc <$> thr_held p' ++ refs') ++ os /\
      all_dead (snd (c_st c)) (c_opc c) (<[t := p']> (c_thr c)) ≡ₚ thr_dead p' ++ ds /\
      forall refs', all_held (c_opc c) refs' (<[t := p']> (c_thr c)) ≡ₚ thr_held p' ++ refs' ++ rs.
Proof.
  intros Ht. destruct (thr_insert thr_held _ _ _ Ht) as (rh & Hh & Hh' & _). destruct (thr_insert thr_dead _ _ _ Ht) as (rd & Hd & Hd' & _).
  exists (obj_owned (snd (c_st c)) (c_opc c) ++ (hd_loc <$> obj_held (c_opc c) ++ c_refs c ++ rh)), (obj_dead (snd (c_st c)) (c_opc c) ++ rd), (obj_held (c_opc c) ++ rh).
  unfold owned_of, dead_of, held_of, all_owned, all_dead, all_held.
  split_and!; [rewrite Hh| rewrite Hd|rewrite Hh|intros p' refs'; split_and!; [rewrite Hh'|rewrite Hd'|intros refs0; rewrite Hh']];
    rewrite ?fmap_app; solve_Permutation.
Qed.

Lemma sh_take_inv c t r refs' p' :
  sh_inv c -> c_thr c !! t = Some TIdle -> c_refs c ≡ₚ r :: refs' -> p' = TCopy r \/ p' = TSub r ->
  sh_inv (Shared (c_st c) (c_opc c) refs' (<[t := p']> (c_thr c))).
Proof.
  intros Hinv Ht Hp Hp'. destruct (thr_insert thr_held _ _ _ Ht) as (rh & Hh & Hh' & _). destruct (thr_insert thr_dead _ _ _ Ht) as (rd & Hd & Hd' & _).
  assert (thr_held p' = [r] /\ thr_dead p' = []) as [Hr Hz] by (destruct Hp' as [-> | ->]; done). specialize (Hh' p'). specialize (Hd' p').
  rewrite Hr in Hh'. rewrite Hz in Hd'. simpl in *.
  assert (all_held (c_opc c) refs' (<[t:=p']> (c_thr c)) ≡ₚ held_of c) as Hsame.
  { unfold held_of, all_held. rewrite Hh, Hh', Hp. solve_Permutation. }
  pose proof (sh_inv_others c (fst (c_st c)) refs' (<[t := p']> (c_thr c)) Hinv) as H. rewrite <-surjective_pairing in H. apply H.
  - intros l. unfold all_owned. rewrite Hsame. apply (si_few _ Hinv).
  - pose proof (si_rc _ Hinv) as Hrc. unfold owned_of, dead_of, all_owned, all_dead in *. rewrite Hd'. rewrite Hd in Hrc. by rewrite Hsame.
  - done.
  - by rewrite Hsame.
Qed.

Lemma sh_thread_inv c t p m :
  sh_inv c -> c_thr c !! t = Some p -> t_code p = Some m -> (forall r, p = TCopy r -> room c (hd_loc r)) ->
  wp m (fun r h' => sh_inv (Shared (h', snd (c_st c)) (c_opc c) (snd r ++ c_refs c) (<[t := fst r]> (c_thr c)))) no_exn (fst (c_st c)).
Proof.
  intros Hinv Ht Hm Hroom. destruct (split_thr c t p Ht) as (os & ds & rs & Ho & Hd & Hh & Hn).
  pose proof (si_rc _ Hinv) as Hrc. rewrite Ho, Hd in Hrc. unfold room in Hroom.
  eapply wp_mono; [| |apply (t_code_inv p m _ os ds Hm Hrc)]; [|done|intros l; rewrite <-Ho; apply (si_few _ Hinv)|intros r Hr; rewrite <-Ho; by apply Hroom].
  intros [p' new] h' (Hf' & Hrc' & Hs & Hsub). simpl in *.
  destruct (Hn p' new) as (Ho' & Hd' & Hh'). apply sh_inv_others; [done|intros l; by rewrite Ho'|..].
  - by rewrite Ho', Hd'.
  - eapply same_data_incl; [|exact Hs]. by rewrite Ho.
  - rewrite Hh', Hh. set_solver.
Qed.

Lemma sh_new_inv c : sh_inv c -> sh_inv (Shared (c_st c) (c_opc c) (c_refs c) (c_thr c ++ [TIdle])).
Proof.
  intros Hinv. assert (forall A (f : tpc -> list A), f TIdle = [] -> concat (f <$> c_thr c ++ [TIdle]) = concat (f <$> c_thr c)) as Happ.
  { intros A f Hf. rewrite fmap_app, concat_app. simpl. rewrite Hf. by rewrite !app_nil_r. }
  destruct Hinv as [Hn Hrc Hf Hh Hk]. unfold owned_of, dead_of, held_of, all_owned, all_dead, all_held in *.
  split; unfold owned_of, dead_of, held_of, all_owned, all_dead, all_held; simpl; rewrite ?Happ by done; done.
Qed.

(** ** The object's thread *)

(** The invariant as the object's thread sees it: [rs] are the refs, and [ds] the
    blocks to be freed, of the others. *)
Record obj_inv (st : shst) (p : opc) (rs : list held) (ds : list loc) : Prop := ObjInv {
  oi_few l : occ l (obj_owned (snd st) p ++ (hd_loc <$> obj_held p ++ rs)) < 2 ^ 32;
  oi_rc : cnt_inv (hp_blocks (fst st)) (obj_owned (snd st) p ++ (hd_loc <$> obj_held p ++ rs)) (obj_dead (snd st) p ++ ds);
  oi_fields : m_buffer (snd st) ∈ obj_owned (snd st) p -> fields_ok st;
  oi_held r : r ∈ obj_held p ++ rs -> shows st r;
  oi_knows : o_knows st (hd_loc <$> obj_held p ++ rs) p
}.

Lemma sh_obj_inv st p refs ts :
  sh_inv (Shared st p refs ts) <-> obj_inv st p (refs ++ concat (thr_held <$> ts)) (concat (thr_dead <$> ts)).
Proof. split; intros []; split; done. Qed.

(** Accesses each call still makes. *)
Definition o_dist (p : opc) : nat :=
  match p with
  | OReserve _ _ => 5 | OExpand _ _ => 4 | ORealloc _ _ | OMalloc _ _ => 3 | OSub _ _ => 2 | OFree _ _ => 1
  | OHold _ | OSubLast => 2 | OIncr _ _ _ | OFreeLast => 1
  | _ => 0
  end.

Definition o_done (st : shst) (p : opc) (rs : list held) (ds : list loc) : opc -> shst -> Prop :=
  fun p' st' => obj_inv st' p' rs ds /\ (o_dist p' < o_dist p)%nat.

Definition o_failed (rs : list held) (ds : list loc) : exn -> shst -> Prop :=
  fun e st' => e = BadAlloc /\ obj_inv st' OThrown rs ds.

(** Points of one kind: the object has its block, and no ref is being handed out. *)
Definition o_plain (p : opc) : Prop := (forall sh, obj_owned sh p = [m_buffer sh] /\ obj_dead sh p = []) /\ obj_held p = [].

Lemma obj_inv_plain st p rs ds :
  o_plain p -> obj_inv st p rs ds <->
    ((forall l, occ l (m_buffer (snd st) :: (hd_loc <$> rs)) < 2 ^ 32) /\
     cnt_inv (hp_blocks (fst st)) (m_buffer (snd st) :: (hd_loc <$> rs)) ds /\ fields_ok st /\
     (forall r, r ∈ rs -> shows st r) /\ o_knows st (hd_loc <$> rs) p).
Proof.
  intros [Ho Hh]. destruct (Ho (snd st)) as [Ho' Hd]. split.
  - intros [Hf Hrc Hfo Hr Hk]. rewrite Ho', Hh in *. rewrite Hd in Hrc. simpl in *. split_and!; try done. apply Hfo. set_solver.
  - intros (Hf & Hrc & Hfo & Hr & Hk). split; rewrite ?Ho', ?Hd, ?Hh; done.
Qed.

(** From one such point to another, the fields of the object alone having changed. *)
Lemma obj_inv_put h sh sh' p p' rs ds :
  o_plain p -> o_plain p' -> obj_inv (h, sh) p rs ds -> m_buffer sh' = m_buffer sh ->
  (fields_ok (h, sh) -> fields_ok (h, sh')) -> (m_used sh <= m_used sh' \/ m_buffer sh ∉ (hd_loc <$> rs)) ->
  o_knows (h, sh') (hd_loc <$> rs) p' -> obj_inv (h, sh') p' rs ds.
Proof.
  intros Hp Hp' Hinv Hb Hfo Hk Hkn. apply (obj_inv_plain _ _ _ _ Hp) in Hinv as (Hf & Hrc & Hfi & Hr & _).
  apply (obj_inv_plain _ _ _ _ Hp'). simpl in *. rewrite Hb. split_and!; [done|done|by apply Hfo| |done].
  intros r Hin. specialize (Hr r Hin). revert Hr. eapply shows_keeps; [|exact Hin].
  apply sh_same_data_keeps; [done|]. rewrite Hb. destruct Hk; [by left|by right].
Qed.

Lemma o_sole_owner st p rs ds (Q : bool -> shst -> Prop) E :
  o_plain p -> obj_inv st p rs ds -> (m_buffer (snd st) ∉ (hd_loc <$> rs) -> Q true st) -> Q false st -> wp sole_owner Q E st.
Proof.
  intros Hp Hinv HT HF. apply (obj_inv_plain _ _ _ _ Hp) in Hinv as (Hf & Hrc & _).
  unfold sole_owner. sh_step. apply wp_get_sh. sh_step. apply sh_wp_on_heap. eapply cnt_get; [exact Hrc|set_solver|].
  apply wp_ret. destruct st as [h sh]. simpl in *. rewrite occ_cons, decide_True by done.
  pose proof (occ_nonneg (m_buffer sh) (hd_loc <$> rs)).
  destruct (Z.eqb_spec (1 + occ (m_buffer sh) (hd_loc <$> rs)) 1); [|done]. apply HT. rewrite <-occ_elem. lia.
Qed.

Lemma o_reserve_inv len init st rs ds m :
  o_code (OReserve len init) = Some m -> obj_inv st (OReserve len init) rs ds ->
  wp m (o_done st (OReserve len init) rs ds) (o_failed rs ds) st.
Proof.
  intros [= <-] Hinv. destruct st as [h sh]. pose proof (oi_knows _ _ _ _ Hinv) as (Hl & Hi & Hu). simpl in *.
  assert (forall sh', m_buffer sh' = m_buffer sh -> (fields_ok (h, sh) -> fields_ok (h, sh')) -> m_used sh' + len <= 2 ^ 63 ->
    m_used sh <= m_used sh' \/ m_buffer sh ∉ (hd_loc <$> rs) ->
    wp (sh ← get_sh; mret (if m_free sh <? len then OExpand len init else OIdle)) (o_done (h, sh) (OReserve len init) rs ds) (o_failed rs ds) (h, sh')) as Hrest.
  { intros sh' Hb Hf Hu' Hk. sh_steps. unfold o_done. destruct (m_free sh' <? len); simpl; (split; [|lia]);
      (eapply obj_inv_put; [| |exact Hinv|done|done|done|done]; done). }
  wp_step. apply wp_get_sh. wp_step. eapply o_sole_owner; [|exact Hinv| |]; [done|..]; simpl.
  - intros Hsole. sh_steps. unfold sizeof_count, ptrdiff_max in *.
    pose proof (oi_fields _ _ _ _ Hinv ltac:(simpl; set_solver)) as [_ Hus Hfr Hcap]. unfold sizeof_count, ptrdiff_max in *. simpl in *.
    rewrite (wrap64_small (_ - _)), wrap64_small by lia. apply Hrest; simpl; [done| |lia|by right].
    intros [(d & Hd & Hz) _ _ _]. split; simpl; unfold sizeof_count, ptrdiff_max; [exists d; split; [done|simpl in *; lia]|lia..].
  - sh_steps. apply Hrest; [done|done|lia|left; lia].
Qed.

Lemma o_expand_inv len init st rs ds m :
  o_code (OExpand len init) = Some m -> obj_inv st (OExpand len init) rs ds ->
  wp m (o_done st (OExpand len init) rs ds) (o_failed rs ds) st.
Proof.
  intros [= <-] Hinv. destruct st as [h sh]. pose proof (oi_knows _ _ _ _ Hinv) as Hpre. simpl in *.
  assert (forall p', o_plain p' -> o_knows (h, sh) (hd_loc <$> rs) p' -> (o_dist p' < 4)%nat -> o_done (h, sh) (OExpand len init) rs ds p' (h, sh)) as Hgo.
  { intros p' Hp Hk Hd. split; [|done]. eapply obj_inv_put; [|done|exact Hinv|done|done|left; lia|done]. done. }
  wp_step. apply wp_get_sh. wp_step. simpl. destruct (Z.eqb_spec (m_used sh) sizeof_count) as [Hu|Hu].
  - eapply o_sole_owner; [|exact Hinv| |]; [done|..]; simpl; intros; sh_steps; apply Hgo; try done; simpl; lia.
  - sh_steps. apply Hgo; try done; simpl; lia.
Qed.

Lemma few_fresh os l' : (forall l, occ l os < 2 ^ 32) -> l' ∉ os -> forall l, occ l (l' :: os) < 2 ^ 32.
Proof.
  intros Hf Hl l. specialize (Hf l). autorewrite with mpio_rw. destruct (decide (l' = l)) as [<-|]; [|lia].
  rewrite <-occ_elem in Hl. lia.
Qed.

Lemma few_less os l' : (forall l, occ l (l' :: os) < 2 ^ 32) -> forall l, occ l os < 2 ^ 32.
Proof. intros Hf l. specialize (Hf l). autorewrite with mpio_rw in Hf. destruct (decide _); lia. Qed.

(** The object turns to a block that nobody else knows. *)
Lemma o_moved_inv h h' sh sh' p rs ds :
  o_plain p -> p = OIdle \/ p = OThrown -> (forall r, r ∈ rs -> shows (h, sh) r) -> (forall l, occ l (hd_loc <$> rs) < 2 ^ 32) ->
  cnt_inv (hp_blocks h') (m_buffer sh' :: (hd_loc <$> rs)) ds -> m_buffer sh' ∉ (hd_loc <$> rs) ->
  same_data (hd_loc <$> rs) h h' -> fields_ok (h', sh') -> obj_inv (h', sh') p rs ds.
Proof.
  intros Hp Hpc Hr Hf Hrc Hno Hs Hfo. apply (obj_inv_plain _ _ _ _ Hp). split_and!; simpl; [by apply few_fresh|done|done| |by destruct Hpc as [-> | ->]].
  intros r Hin. specialize (Hr r Hin). revert Hr. eapply shows_keeps; [|exact Hin]. apply sh_same_data_keeps; [done|by right].
Qed.

(** An allocation that failed. *)
Lemma o_no_memory h h' sh p rs ds :
  o_plain p -> obj_inv (h, sh) p rs ds -> hp_blocks h' = hp_blocks h -> obj_inv (h', sh) OThrown rs ds.
Proof.
  intros Hp Hinv Hh. apply (obj_inv_plain _ _ _ _ Hp) in Hinv as (Hf & Hrc & Hfo & Hr & _). simpl in *.
  assert (forall os, same_data os h h') as Hs by (intros os l _; unfold data_of; by rewrite Hh).
  apply obj_inv_plain; [done|]. simpl. rewrite Hh. split_and!; [done|done| | |done].
  - exact (fields_data (h, sh) h' (Hs _) Hfo).
  - intros r Hin. specialize (Hr r Hin). revert Hr. eapply shows_keeps; [|exact Hin]. apply sh_same_data_keeps; [done|by left].
Qed.

Lemma o_realloc_inv len init st rs ds m :
  o_code (ORealloc len init) = Some m -> obj_inv st (ORealloc len init) rs ds ->
  wp m (o_done st (ORealloc len init) rs ds) (o_failed rs ds) st.
Proof.
  intros [= <-] Hinv. destruct st as [h sh].
  pose proof (proj1 (obj_inv_plain _ (ORealloc len init) _ _ ltac:(done)) Hinv) as (Hf & Hrc & Hfo & Hr & (Hl & Hi & Hu) & Hused & Hno).
  pose proof Hfo as [(d & Hd & Hz) Hus Hfr Hcap]. unfold sizeof_count, ptrdiff_max in *. simpl in *.
  wp_step. apply wp_get_sh. simpl. rewrite (wrap64_small (_ + m_free _)), !wrap64_small by lia.
  wp_step. apply wp_grow; [lia..|]. intros next Hnext Hge Hup. wp_step. apply sh_wp_on_heap.
  eapply cnt_realloc; [lia|exact Hrc|exact Hno|exact Hd| |].
  - intros h' l' d' Hrc' Hno' Hs Hmax Hd' Hz'. unfold ptrdiff_max in *. sh_steps. rewrite wrap64_small by lia. split; [|simpl; lia].
    eapply (o_moved_inv h); [done|by left|done|by eapply few_less|exact Hrc'|exact Hno'|exact Hs|].
    split; simpl; unfold sizeof_count, ptrdiff_max; [exists d'; split; [done|lia]|lia..].
  - intros h' Hh'. sh_steps. split; [done|]. eapply o_no_memory; [|exact Hinv|exact Hh']; done.
Qed.

Lemma o_malloc_inv len init st rs ds m :
  o_code (OMalloc len init) = Some m -> obj_inv st (OMalloc len init) rs ds ->
  wp m (o_done st (OMalloc len init) rs ds) (o_failed rs ds) st.
Proof.
  intros [= <-] Hinv. destruct st as [h sh].
  pose proof (proj1 (obj_inv_plain _ (OMalloc len init) _ _ ltac:(done)) Hinv) as (Hf & Hrc & Hfo & Hr & (Hl & Hi & Hu)).
  pose proof Hfo as [(d & Hd & Hz) Hus Hfr Hcap]. unfold sizeof_count, ptrdiff_max in *. simpl in *.
  wp_step. rewrite wrap64_small by lia. apply wp_grow; [lia..|]. intros next Hnext Hge Hup. wp_step. apply sh_wp_on_heap.
  eapply (cnt_new _ _ _ (m_buffer sh :: (hd_loc <$> rs)) ds); [lia|exact Hrc| |].
  - intros h' l' Hrc' Hno Hnd Hs Hmax Hd'. unfold ptrdiff_max in *. sh_steps. split; [|simpl; lia].
    assert (m_buffer sh :: l' :: (hd_loc <$> rs) ≡ₚ l' :: m_buffer sh :: (hd_loc <$> rs)) as Hp by constructor.
    split; simpl; rewrite ?Hp.
    + intros l. rewrite Hp. by apply few_fresh.
    + done.
    + intros _. eapply (fields_data (h, sh)); [|done]. eapply same_data_incl; [|exact Hs]. set_solver.
    + intros r Hin. specialize (Hr r Hin). revert Hr. eapply shows_keeps; [|exact Hin].
      apply sh_same_data_keeps; [|by left]. eapply same_data_incl; [|exact Hs]. set_solver.
    + split_and!; [done|unfold sizeof_count; lia|done|]. eexists. split; [exact Hd'|]. rewrite length_replicate. lia.
  - intros h' Hh'. sh_steps. split; [done|]. eapply o_no_memory; [|exact Hinv|exact Hh']; done.
Qed.

Lemma o_tmp_fields h' tmp size locs st :
  o_knows st locs (OSub tmp size) -> same_data [tmp] (fst st) h' ->
  fields_ok (h', SharedBuffer tmp sizeof_count (wrap64 (size - sizeof_count))).
Proof.
  intros (_ & Hsz & d & Hd & Hz) Hs. unfold sizeof_count, ptrdiff_max in *. rewrite wrap64_small by lia.
  split; simpl; unfold sizeof_count, ptrdiff_max; [|lia..]. exists d. rewrite Hs by set_solver. split; [done|lia].
Qed.

Lemma o_sub_inv tmp size st rs ds m :
  o_code (OSub tmp size) = Some m -> obj_inv st (OSub tmp size) rs ds ->
  wp m (o_done st (OSub tmp size) rs ds) (o_failed rs ds) st.
Proof.
  intros [= <-] [Hf Hrc Hfo Hr Hk]. destruct st as [h sh]. simpl in *. pose proof Hk as (Ht & Hsz & d & Hd & Hz).
  wp_step. apply wp_get_sh. wp_step. apply sh_wp_on_heap. eapply cnt_sub; [exact Hrc|apply Hf|].
  intros h' Hrc' Hdata. assert (forall os, same_data os h h') as Hs by (by intros os l _). simpl in *.
  destruct (Z.eqb_spec (occ (m_buffer sh) (tmp :: (hd_loc <$> rs))) 0) as [Hz0|Hz0].
  - sh_steps. split; [|simpl; lia]. split; simpl; [by eapply few_less|exact Hrc'|set_solver| |].
    + intros r Hin. specialize (Hr r Hin). revert Hr. eapply shows_keeps; [|exact Hin]. apply sh_same_data_keeps; [done|by left].
    + split_and!; [done|lia|lia|]. exists d. by rewrite Hdata.
  - unfold o_moved. sh_steps. split; [|simpl; lia].
    eapply (o_moved_inv h); [done|by left|done|by do 2 eapply few_less|exact Hrc'|set_solver|done|by eapply (o_tmp_fields h' tmp size _ (h, sh))].
Qed.

Lemma o_free_inv tmp size st rs ds m :
  o_code (OFree tmp size) = Some m -> obj_inv st (OFree tmp size) rs ds ->
  wp m (o_done st (OFree tmp size) rs ds) (o_failed rs ds) st.
Proof.
  intros [= <-] [Hf Hrc Hfo Hr Hk]. destruct st as [h sh]. simpl in *. pose proof Hk as (Ht & Hsz & d & Hd & Hz).
  wp_step. apply wp_get_sh. wp_step. apply sh_wp_on_heap. eapply cnt_free; [exact Hrc|].
  intros h' Hrc' Hs _. unfold o_moved. sh_steps. split; [|simpl; lia].
  eapply (o_moved_inv h); [done|by left|done|by eapply few_less|exact Hrc'|set_solver| |].
  - eapply same_data_incl; [|exact Hs]. set_solver.
  - eapply (o_tmp_fields h' tmp size _ (h, sh)); [exact Hk|]. eapply same_data_incl; [|exact Hs]. set_solver.
Qed.

Lemma o_hold_inv len st rs ds m :
  o_code (OHold len) = Some m -> obj_inv st (OHold len) rs ds ->
  wp m (o_done st (OHold len) rs ds) (o_failed rs ds) st.
Proof.
  intros [= <-] Hinv. destruct st as [h sh].
  pose proof (proj1 (obj_inv_plain _ (OHold len) _ _ ltac:(done)) Hinv) as (Hf & Hrc & Hfo & Hr & Hl).
  pose proof Hfo as [(d & Hd & Hz) Hus Hfr Hcap]. unfold sizeof_count, ptrdiff_max in *. simpl in *.
  sh_steps. fold (clamp (m_free sh) len). assert (0 <= clamp (m_free sh) len <= m_free sh).
  { unfold clamp. destruct (Z.ltb_spec (m_free sh) len); lia. }
  rewrite !wrap64_small by lia. split; [|simpl; lia].
  eapply obj_inv_put; [| |exact Hinv|done| |left; simpl; lia|]; [done|done| |].
  - intros _. split; simpl; unfold sizeof_count, ptrdiff_max; [exists d; split; [done|lia]|lia..].
  - split; simpl; [|lia]. exists d. unfold region. rewrite Hd. split_and!; [done|lia|lia|lia|done].
Qed.

Lemma o_incr_inv a n bs st rs ds m :
  o_code (OIncr a n bs) = Some m -> 1 + occ (m_buffer (snd st)) (m_buffer (snd st) :: (hd_loc <$> rs)) < 2 ^ 32 ->
  obj_inv st (OIncr a n bs) rs ds -> wp m (o_done st (OIncr a n bs) rs ds) (o_failed rs ds) st.
Proof.
  intros [= <-] Hroom Hinv. destruct st as [h sh].
  pose proof (proj1 (obj_inv_plain _ (OIncr a n bs) _ _ ltac:(done)) Hinv) as (Hf & Hrc & Hfo & Hr & Hl). simpl in *.
  wp_step. apply wp_get_sh. wp_step. apply sh_wp_on_heap. unfold ref_of, ref_incr. wp_step.
  eapply cnt_incr; [exact Hrc|set_solver|done|]. intros h' Hrc' Hdata. assert (forall os, same_data os h h') as Hs by (by intros os l _).
  wp_steps. simpl. split; [|simpl; lia].
  assert (keeps (m_buffer sh :: (hd_loc <$> rs)) (h, sh) (h', sh)) as Hk by (apply sh_same_data_keeps; [done|by left]).
  split; simpl; [|exact Hrc'| | |done].
  - change (list_fmap held loc hd_loc rs) with (hd_loc <$> rs). intros l. specialize (Hf l). autorewrite with mpio_rw in *.
    rewrite decide_True in Hroom by done. destruct (decide (m_buffer sh = l)) as [<-|]; lia.
  - intros _. by apply (fields_data (h, sh)).
  - intros r [->|Hin]%elem_of_cons; [apply Hk; [set_solver|done]|]. apply Hk; [|by apply Hr].
    apply list_elem_of_further, list_elem_of_fmap_2. done.
Qed.

Lemma o_sublast_inv st rs ds m :
  o_code OSubLast = Some m -> obj_inv st OSubLast rs ds -> wp m (o_done st OSubLast rs ds) (o_failed rs ds) st.
Proof.
  intros [= <-] [Hf Hrc Hfo Hr _]. destruct st as [h sh]. simpl in *.
  wp_step. apply wp_get_sh. wp_step. apply sh_wp_on_heap. eapply cnt_sub; [exact Hrc|apply Hf|].
  intros h' Hrc' Hdata. wp_steps. simpl. assert (forall r, r ∈ rs -> shows (h', sh) r) as Hr'.
  { intros r Hin. specialize (Hr r Hin). revert Hr. eapply shows_keeps; [|exact Hin]. apply sh_same_data_keeps; [by intros l _|by left]. }
  pose proof (few_less _ _ Hf). destruct (_ =? 0); (split; [|simpl; lia]); (split; simpl; [done|exact Hrc'|set_solver|done|done]).
Qed.

Lemma o_freelast_inv st rs ds m :
  o_code OFreeLast = Some m -> obj_inv st OFreeLast rs ds -> wp m (o_done st OFreeLast rs ds) (o_failed rs ds) st.
Proof.
  intros [= <-] [Hf Hrc Hfo Hr _]. destruct st as [h sh]. simpl in *.
  wp_step. apply wp_get_sh. wp_step. apply sh_wp_on_heap. eapply cnt_free; [exact Hrc|].
  intros h' Hrc' Hs _. wp_steps. simpl. split; [|simpl; lia]. split; simpl; [done|exact Hrc'|set_solver| |done].
  intros r Hin. specialize (Hr r Hin). revert Hr. eapply shows_keeps; [|exact Hin]. apply sh_same_data_keeps; [done|by left].
Qed.

(** Each access of the object's thread keeps the invariant and brings its call
    nearer to its end, whatever the others do. *)
Lemma o_code_inv st p rs ds m :
  obj_inv st p rs ds -> o_code p = Some m ->
  (forall a n bs, p = OIncr a n bs -> 1 + occ (m_buffer (snd st)) (m_buffer (snd st) :: (hd_loc <$> rs)) < 2 ^ 32) ->
  wp m (o_done st p rs ds) (o_failed rs ds) st.
Proof.
  intros Hinv Hm Hroom. destruct p; try done.
  - by apply o_reserve_inv.
  - by apply o_expand_inv.
  - by apply o_realloc_inv.
  - by apply o_malloc_inv.
  - by apply o_sub_inv.
  - by apply o_free_inv.
  - by apply o_hold_inv.
  - apply o_incr_inv; [done| |done]. by eapply Hroom.
  - by apply o_sublast_inv.
  - by apply o_freelast_inv.
Qed.

(** What the client does with the object between the calls. *)
Lemma o_store_inv bs st rs ds :
  obj_inv st OIdle rs ds -> zlen bs <= m_free (snd st) ->
  wp (store_at_buffer bs) (fun _ st' => obj_inv st' OIdle rs ds /\ snd st' = snd st) no_exn st.
Proof.
  intros Hinv Hlen. destruct st as [h sh].
  pose proof (proj1 (obj_inv_plain _ OIdle _ _ ltac:(done)) Hinv) as (Hf & Hrc & Hfo & Hr & _).
  pose proof Hfo as [(d & Hd & Hz) Hus Hfr Hcap]. unfold sizeof_count, ptrdiff_max in *. simpl in *.
  unfold store_at_buffer, buffer. sh_steps. eapply cnt_store; [exact Hrc|exact Hd|lia|lia|].
  intros h' Hrc' Hother Hsame. split; [|done].
  assert (zlen (splice (m_used sh) (Some <$> bs) d) = zlen d) as Hl' by (rewrite zlen_splice; rewrite ?length_fmap; lia).
  apply (obj_inv_plain _ OIdle); [done|]. split_and!; simpl; [done|done| | |done].
  - split; simpl; unfold sizeof_count, ptrdiff_max; [eexists; split; [exact Hsame|lia]|lia..].
  - intros r Hin. specialize (Hr r Hin). destruct Hr as [(d' & Hd' & Ha & Hn & Han & Hs) Hcur]. simpl in *.
    split; simpl; [|done]. destruct (decide (hd_loc r = m_buffer sh)) as [Heq|Hne].
    + specialize (Hcur Heq). rewrite Heq in *. rewrite Hd in Hd'. injection Hd' as <-. eexists. split; [exact Hsame|].
      split_and!; [lia..|]. rewrite <-Hs. apply slice_splice_before; lia.
    + exists d'. rewrite Hother by done. done.
Qed.

Lemma o_skip_inv len st st' rs ds :
  obj_inv st OIdle rs ds -> 0 <= len -> skip len st = Ret tt st' -> obj_inv st' OIdle rs ds.
Proof.
  intros Hinv Hl Hrun. destruct st as [h sh].
  pose proof (proj1 (obj_inv_plain _ OIdle _ _ ltac:(done)) Hinv) as (Hf & Hrc & Hfo & Hr & _).
  pose proof Hfo as [(d & Hd & Hz) Hus Hfr Hcap]. unfold sizeof_count, ptrdiff_max in *. simpl in *.
  injection Hrun as <-. simpl. fold (clamp (m_free sh) len). assert (0 <= clamp (m_free sh) len <= m_free sh).
  { unfold clamp. destruct (Z.ltb_spec (m_free sh) len); lia. }
  rewrite !wrap64_small by lia. eapply obj_inv_put; [| |exact Hinv|done| |left; simpl; lia|done]; [done|done|].
  intros _. split; simpl; unfold sizeof_count, ptrdiff_max; [exists d; split; [done|lia]|lia..].
Qed.

Lemma room_obj st p refs ts :
  (forall a n bs, p = OIncr a n bs -> room (Shared st p refs ts) (m_buffer (snd st))) ->
  forall a n bs, p = OIncr a n bs ->
    1 + occ (m_buffer (snd st)) (m_buffer (snd st) :: (hd_loc <$> refs ++ concat (thr_held <$> ts))) < 2 ^ 32.
Proof. intros H a n bs ->. exact (H a n bs eq_refl). Qed.

Lemma sh_step_inv c c' : sh_inv c -> sh_step c c' -> sh_inv c'.
Proof.
  intros Hinv Hs. destruct c as [st p refs ts]. pose proof (proj1 (sh_obj_inv _ _ _ _) Hinv) as Ho.
  destruct Hs as [m p' st' Hm Hroom Hrun|p' Hcall|bs st' Hp Hlen Hrun|len st' Hp Hl Hrun|r Hp|t r refs' p' Ht Hr Hp'|t q m q' new h' Ht Hm Hroom Hrun|];
    simpl in *.
  - pose proof (o_code_inv _ _ _ _ _ Ho Hm) as Hwp. unfold wp in Hwp. apply sh_obj_inv.
    specialize (Hwp (room_obj _ _ _ _ Hroom)). destruct Hrun as [Hrun|(e & Hrun & ->)]; rewrite Hrun in Hwp; [by destruct Hwp|by destruct Hwp].
  - apply sh_obj_inv. inversion Hcall; subst; destruct st as [h sh]; (eapply obj_inv_put; [| |exact Ho|done|done|left; lia|done]; done).
  - subst p. apply sh_obj_inv. pose proof (o_store_inv _ _ _ _ Ho Hlen) as Hwp. unfold wp in Hwp. rewrite Hrun in Hwp. by destruct Hwp.
  - subst p. apply sh_obj_inv. by eapply o_skip_inv.
  - subst p. destruct Hinv as [Hn Hrc Hf Hh Hk]. by split.
  - by eapply (sh_take_inv (Shared st p refs ts)).
  - pose proof (sh_thread_inv (Shared st p refs ts) t q m Hinv Ht Hm Hroom) as Hwp. unfold wp in Hwp. simpl in Hwp. by rewrite Hrun in Hwp.
  - by apply (sh_new_inv (Shared st p refs ts)).
Qed.

Lemma sh_reach_inv_c c : sh_reach c -> sh_inv c.
Proof.
  induction 1 as [script init sh h Hi Hrun|c c' _ IH Hs]; [|by eapply sh_step_inv].
  assert (rc_inv ∅ []) as Hrc0 by done. pose proof (sh_new_rep (Heap ∅ script) [] init Hrc0 Hi) as Hwp. unfold wp in Hwp. rewrite Hrun in Hwp.
  destruct Hwp as [Hrc Hd Hu Hf Hcap]. simpl in *. apply cnt_inv_rc in Hrc. apply sh_obj_inv. simpl.
  apply (obj_inv_plain _ OIdle); [done|]. simpl. split_and!; [|done|by split| |done].
  - apply few_fresh; [|set_solver]. intros l. rewrite occ_nil. lia.
  - intros r Hr. set_solver.
Qed.

(** C24. The reference counts of a [shared_buffer] whose refs are used by other threads,
    in any interleaving of the accesses: while no counter overflows, no access of any
    thread touches a freed block, frees one twice or throws anything but [bad_alloc],
    every ref still shows the bytes that its region held when it was taken, although
    the object's thread rewinds, reallocates and leaves blocks behind, and each access
    of that thread brings its call nearer to its end, whatever the others do. *)
Theorem shared_refs_safe (c : shared) :
  sh_reach c ->
  (forall m, o_code (c_opc c) = Some m ->
     (forall a n bs, c_opc c = OIncr a n bs -> room c (m_buffer (snd (c_st c)))) ->
     wp m (fun p' _ => (o_dist p' < o_dist (c_opc c))%nat) (fun e _ => e = BadAlloc) (c_st c)) /\
  (forall t p m, c_thr c !! t = Some p -> t_code p = Some m -> (forall r, p = TCopy r -> room c (hd_loc r)) ->
     wp m (fun _ _ => True) no_exn (fst (c_st c))) /\
  (forall r, r ∈ held_of c -> exists d, data_of (fst (c_st c)) (hd_loc r) = Some d /\
     0 <= hd_off r /\ hd_off r + hd_len r <= zlen d /\ slice (hd_off r) (hd_len r) d = hd_bytes r).
Proof.
  intros Hinv%sh_reach_inv_c. split_and!.
  - intros m Hm Hroom. destruct c as [st p refs ts]. eapply wp_mono; [| |eapply o_code_inv; [by apply sh_obj_inv|exact Hm|exact (room_obj _ _ _ _ Hroom)]].
    + by intros p' st' [_ ?].
    + by intros e st' [? _].
  - intros t p m Ht Hm Hroom. by eapply wp_mono; [| |eapply sh_thread_inv].
  - intros r Hr. destruct (si_held _ Hinv r Hr) as [(d & Hd & ? & ? & ? & ?) _]. by exists d.
Qed.

(** C25. Nothing leaks and nothing is freed early: in any interleaving a block exists as
    long as somebody owns it, its counter being the number of its owners, or until the
    one thread that took the counter to zero has freed it; once the object is destroyed,
    the refs are cleared and the threads are done, no block is left. *)
Theorem shared_refs_reclaimed (c : shared) :
  sh_reach c ->
  (forall l b, hp_blocks (fst (c_st c)) !! l = Some b ->
     blk_count b = Some (occ l (owned_of c)) /\ (l ∈ owned_of c \/ l ∈ dead_of c)) /\
  (forall l, l ∈ owned_of c -> is_Some (hp_blocks (fst (c_st c)) !! l)) /\ NoDup (dead_of c) /\
  (c_opc c = OGone -> c_refs c = [] -> Forall (fun p => p = TIdle) (c_thr c) -> hp_blocks (fst (c_st c)) = ∅).
Proof.
  intros [_ Hrc _ _ _]%sh_reach_inv_c. split_and!.
  - intros l b Hb. destruct Hrc as [_ Hrc]. specialize (Hrc l). rewrite Hb in Hrc. destruct Hrc as [Hc Hl]. split; [done|].
    rewrite <-occ_elem. destruct (decide (l ∈ dead_of c)); [by right|]. left. tauto.
  - intros l Hl. destruct (cnt_owned _ _ _ _ Hrc Hl) as (b & Hb & _). by exists b.
  - apply Hrc.
  - intros Hp Hrefs Hts. apply cnt_nobody. unfold owned_of, dead_of, all_owned, all_dead, all_held in Hrc. rewrite Hp, Hrefs in Hrc. simpl in Hrc.
    assert (forall A (f : tpc -> list A), f TIdle = [] -> concat (f <$> c_thr c) = []) as Hnil.
    { intros A f Hf. clear -Hts Hf. induction Hts as [|q ts -> _ IH]; [done|]. rewrite fmap_cons. cbn [concat]. by rewrite Hf. }
    rewrite !Hnil in Hrc by done. done.
Qed.

(** The accesses the threads are interleaved at are those of the operations: a thread
    that makes them without interruption computes [reserve_buffer], [hold], the destructor
    and [ref::clear] as they are defined. *)
Theorem accesses_compute (len init : Z) (st : shst) (r : held) (h : heap) :
  o_alone 5 (OReserve len init) st = (_ ← reserve_buffer len init; mret OIdle) st /\
  (let n := clamp (m_free (snd st)) len in
   o_alone 2 (OHold len) st =
     (_ ← hold len; mret (OHeld (Held (m_buffer (snd st)) (m_used (snd st)) n (region (fst st) (m_buffer (snd st)) (m_used (snd st)) n)))) st) /\
  o_alone 2 OSubLast st = (_ ← on_heap (shared_buffer_delete (snd st)); mret OGone) st /\
  t_alone 2 (TSub r) h = (_ ← ref_clear (Some (hd_loc r)); mret (TIdle, [])) h /\
  t_alone 1 (TCopy r) h = (_ ← ref_copy (Some (hd_loc r)); mret (TIdle, [r; r])) h.
Proof.
  split_and!; [apply o_alone_reserve|apply o_alone_hold|apply o_alone_delete|apply t_alone_clear|].
  cbn [t_alone t_code]. rewrite bind_bind. by apply bind_same.
Qed.

(** ** Runs *)

Inductive sh_move : Type :=
| MvObject | MvCall (p : opc) | MvStore (bs : list Z) | MvSkip (len : Z) | MvGive
| MvCopy (t : nat) (i : nat) | MvClear (t : nat) (i : nat) | MvStep (t : nat) | MvNew.

Definition call_ok (c : shared) (p p' : opc) : bool :=
  match p, p' with
  | OIdle, OReserve len init =>
      bool_decide (0 <= len /\ (0 <= init < 2 ^ 64) /\ m_used (snd (c_st c)) + len <= 2 ^ 63)
  | OIdle, OHold len => bool_decide (0 <= len)
  | OIdle, OSubLast | OThrown, OIdle => true
  | _, _ => false
  end.

Definition room_b (c : shared) (l : loc) : bool := 1 + occ l (owned_of c) <? 2 ^ 32.

Definition take_ref (c : shared) (t i : nat) (f : held -> tpc) : option shared :=
  r ← c_refs c !! i;
  match c_thr c !! t with
  | Some TIdle => Some (Shared (c_st c) (c_opc c) (delete i (c_refs c)) (<[t := f r]> (c_thr c)))
  | _ => None
  end.

Definition sh_run_move (mv : sh_move) (c : shared) : option shared :=
  match mv with
  | MvObject =>
      m ← o_code (c_opc c);
      if match c_opc c with OIncr _ _ _ => room_b c (m_buffer (snd (c_st c))) | _ => true end then
        match m (c_st c) with
        | Ret p' st' => Some (Shared st' p' (c_refs c) (c_thr c))
        | Throw _ st' => Some (Shared st' OThrown (c_refs c) (c_thr c))
        | _ => None
        end
      else None
  | MvCall p' => if call_ok c (c_opc c) p' then Some (Shared (c_st c) p' (c_refs c) (c_thr c)) else None
  | MvStore bs =>
      match c_opc c, store_at_buffer bs (c_st c) with
      | OIdle, Ret _ st' => if zlen bs <=? m_free (snd (c_st c)) then Some (Shared st' OIdle (c_refs c) (c_thr c)) else None
      | _, _ => None
      end
  | MvSkip len =>
      match c_opc c, skip len (c_st c) with
      | OIdle, Ret _ st' => if 0 <=? len then Some (Shared st' OIdle (c_refs c) (c_thr c)) else None
      | _, _ => None
      end
  | MvGive => match c_opc c with OHeld r => Some (Shared (c_st c) OIdle (r :: c_refs c) (c_thr c)) | _ => None end
  | MvCopy t i => take_ref c t i TCopy
  | MvClear t i => take_ref c t i TSub
  | MvStep t =>
      p ← c_thr c !! t;
      m ← t_code p;
      if match p with TCopy r => room_b c (hd_loc r) | _ => true end then
        match m (fst (c_st c)) with
        | Ret r h' => Some (Shared (h', snd (c_st c)) (c_opc c) (snd r ++ c_refs c) (<[t := fst r]> (c_thr c)))
        | _ => None
        end
      else None
  | MvNew => Some (Shared (c_st c) (c_opc c) (c_refs c) (c_thr c ++ [TIdle]))
  end.

Fixpoint sh_run (ms : list sh_move) (c : shared) : option shared :=
  match ms with [] => Some c | m :: ms => sh_run_move m c ≫= sh_run ms end.

Lemma room_b_spec c l : room_b c l = true -> room c l.
Proof. unfold room_b, room. by intros ?%Z.ltb_lt. Qed.

Lemma take_ref_step c t i f c' :
  (forall r, f r = TCopy r \/ f r = TSub r) -> take_ref c t i f = Some c' -> sh_step c c'.
Proof.
  intros Hf H. unfold take_ref in H. destruct (c_refs c !! i) as [r|] eqn:Hr; [|done]. cbn [mbind option_bind] in H.
  destruct (c_thr c !! t) as [[]|] eqn:Ht; try done. injection H as <-. eapply s_take; [done| |apply Hf].
  by apply delete_Permutation.
Qed.

Lemma call_ok_spec c p p' : call_ok c p p' = true -> o_call c p p'.
Proof.
  destruct p, p'; cbn [call_ok]; try done; intros H; constructor; apply bool_decide_eq_true in H; exact H.
Qed.

Lemma sh_run_move_step mv c c' : sh_run_move mv c = Some c' -> sh_step c c'.
Proof.
  intros H. destruct mv; cbn [sh_run_move] in H.
  - destruct (o_code (c_opc c)) as [m|] eqn:Hm; [|done]. cbn [mbind option_bind] in H. destruct (match c_opc c with OIncr _ _ _ => _ | _ => _ end) eqn:Hroom; [|done].
    assert (forall a n bs, c_opc c = OIncr a n bs -> room c (m_buffer (snd (c_st c)))) as Hr.
    { intros a n bs Hp. rewrite Hp in Hroom. by apply room_b_spec. }
    destruct (m (c_st c)) as [p' st'|e st'| |] eqn:Hrun; try done; injection H as <-; eapply s_object; eauto.
  - destruct (call_ok c (c_opc c) p) eqn:Hc; [|done]. injection H as <-. by apply s_call, call_ok_spec.
  - destruct (c_opc c) eqn:Hp; try done. destruct (store_at_buffer bs (c_st c)) as [[] st'| | |] eqn:Hrun; try done.
    destruct (Z.leb_spec (zlen bs) (m_free (snd (c_st c)))); [|done]. injection H as <-. by eapply s_store.
  - destruct (c_opc c) eqn:Hp; try done. destruct (skip len (c_st c)) as [[] st'| | |] eqn:Hrun; try done.
    destruct (Z.leb_spec 0 len); [|done]. injection H as <-. by eapply s_skip.
  - destruct (c_opc c) eqn:Hp; try done. injection H as <-. by apply s_give.
  - eapply take_ref_step; [|exact H]. by left.
  - eapply take_ref_step; [|exact H]. by right.
  - destruct (c_thr c !! t) as [p|] eqn:Ht; [|done]. cbn [mbind option_bind] in H. destruct (t_code p) as [m|] eqn:Hm; [|done].
    cbn [mbind option_bind] in H. destruct (match p with TCopy _ => _ | _ => _ end) eqn:Hroom; [|done].
    destruct (m (fst (c_st c))) as [[p' new] h'| | |] eqn:Hrun; try done. injection H as <-. eapply s_thread; [done..| |done].
    intros r ->. by apply room_b_spec.
  - injection H as <-. apply s_new.
Qed.

Lemma sh_run_reach ms c c' : sh_reach c -> sh_run ms c = Some c' -> sh_reach c'.
Proof.
  revert c. induction ms as [|m ms IH]; intros c Hr; cbn [sh_run]; [by intros [= <-]|].
  destruct (sh_run_move m c) as [c1|] eqn:Hm; [|done]. cbn [mbind option_bind]. apply IH. eapply sh_next; [exact Hr|by eapply sh_run_move_step].
Qed.

(** The object's thread stores five bytes, holds them and gives the ref to the others;
    one thread copies it.  The object's thread then asks for more than is free: it sees
    two owners, allocates, and is stopped before it gives up the old block.  Both refs
    are cleared meanwhile, so that the object's thread is the one that frees it. *)
Definition sample_start : shared :=
  Shared (Heap {[ 0%nat := Block (Some 1) (replicate 16 None) ]} [], SharedBuffer 0%nat 4 12) OIdle [] [].

Lemma sample_start_reach : sh_reach sample_start.
Proof. by apply (sh_start [] 16). Qed.

Definition sample_moves : list sh_move :=
  [MvStore [104; 101; 108; 108; 111]; MvCall (OHold 5); MvObject; MvObject; MvGive; MvNew; MvNew;
   MvCopy 0 0; MvStep 0; MvCall (OReserve 20 16); MvObject; MvObject; MvObject; MvClear 1 0; MvStep 1].

Definition sample_mid : shared := default sample_start (sh_run sample_moves sample_start).

Lemma shared_refs_safe_witness :
  (c_opc sample_mid = OSub 1%nat 32 /\ blk_count <$> hp_blocks (fst (c_st sample_mid)) !! 0%nat = Some (Some 2) /\
   c_refs sample_mid = [Held 0%nat 4 5 (Some <$> [104; 101; 108; 108; 111])]) /\
  wp (default (mret OIdle) (o_code (c_opc sample_mid))) (fun p' _ => (o_dist p' < o_dist (c_opc sample_mid))%nat) (fun e _ => e = BadAlloc) (c_st sample_mid) /\
  exists d, data_of (fst (c_st sample_mid)) 0%nat = Some d /\ 0 <= 4 /\ 4 + 5 <= zlen d /\ slice 4 5 d = Some <$> [104; 101; 108; 108; 111].
Proof.
  assert (sh_reach sample_mid) as Hr.
  { apply (sh_run_reach sample_moves sample_start); [apply sample_start_reach|by vm_compute]. }
  destruct (shared_refs_safe _ Hr) as (Ho & _ & Hh). split_and!; [by vm_compute..| |].
  - apply Ho; [done|]. intros a n bs Hp. by vm_compute in Hp.
  - refine (Hh (Held 0%nat 4 5 (Some <$> [104; 101; 108; 108; 111])) _). vm_compute. apply list_elem_of_here.
Defined.

(** The same run to its end. *)
Definition sample_rest : list sh_move :=
  [MvClear 1 0; MvStep 1; MvObject; MvObject; MvCall OSubLast; MvObject; MvObject].

Definition sample_end : shared := default sample_start (sh_run sample_rest sample_mid).

Lemma shared_refs_reclaimed_witness :
  (c_opc sample_end = OGone /\ c_refs sample_end = [] /\ c_thr sample_end = [TIdle; TIdle]) /\ hp_blocks (fst (c_st sample_end)) = ∅.
Proof.
  assert (sh_reach sample_end) as Hr.
  { apply (sh_run_reach (sample_moves ++ sample_rest) sample_start); [apply sample_start_reach|by vm_compute]. }
  split; [split_and!; by vm_compute|]. apply (shared_refs_reclaimed _ Hr); [by vm_compute..|]. by vm_compute; repeat constructor.
Defined.
