(* ===== verification/SparseArray.v ===== *)
(** * sparse_array (src/mp/sparse_array.hmpl)

    An array of optional objects, grown in chunks of 64 items.  An item has an
    [enable] flag and raw storage in which an object is constructed and
    destroyed explicitly; the model keeps which storage holds a live object,
    and a log of the objects whose destructor ran.  Constructors may throw and
    allocations may fail.  The file shows that the class is a finite map, that
    every object it constructs is destroyed exactly once, and where the class
    has undefined behaviour. *)

From Stdlib Require Import ZArith Lia.
From stdpp Require Import base tactics option list numbers fin_maps gmap.
From S2P Require Import Prelude.

Section SparseArray.
Context {T : Type}.

(** ** State *)

Record item := Item {
  enable : bool;
  obj : option T           (* the live object in [data], if any *)
}.

Record sparse_array := SparseArray {
  base_array : list (list item);
  sa_script : list bool;   (* whether the coming allocations succeed *)
  sa_log : list T          (* objects destroyed so far, in order *)
}.

Definition EXTEND_ARRAY_SIZE : Z := 64.

(** ** Operations *)

Definition alloc_answer : M sparse_array bool := fun sa =>
  match sa_script sa with
  | [] => Ret true sa
  | b :: s => Ret b (SparseArray (base_array sa) s (sa_log sa))
  end.

Definition set_base (base : list (list item)) : M sparse_array unit :=
  modify (fun sa => SparseArray base (sa_script sa) (sa_log sa)).

(** [calloc] leaves [enable] false; [push_back] may throw, and then the new
    chunk is lost. *)
Definition extend_array : M sparse_array unit :=
  ex ← alloc_answer;
  if ex : bool then
    pushed ← alloc_answer;
    if pushed : bool then
      sa ← get;
      set_base (base_array sa ++ [replicate (Z.to_nat EXTEND_ARRAY_SIZE) (Item false None)])
    else throw BadAlloc
  else throw BadAlloc.

Definition chunk_of (index : Z) : nat := Z.to_nat (index / EXTEND_ARRAY_SIZE).
Definition offset_of (index : Z) : nat := Z.to_nat (index mod EXTEND_ARRAY_SIZE).

(** [item_of(index)], read; an index beyond the chunks is out of bounds. *)
Definition item_of (index : Z) : M sparse_array item :=
  sa ← get;
  match base_array sa !! chunk_of index ≫= (.!! offset_of index) with
  | Some it => mret it
  | None => undef
  end.

(** [item_of(index) = it]. *)
Definition assign_item (index : Z) (it : item) : M sparse_array unit :=
  sa ← get;
  match base_array sa !! chunk_of index with
  | Some c =>
      if bool_decide (offset_of index < length c)%nat
      then set_base (<[chunk_of index := <[offset_of index := it]> c]> (base_array sa))
      else undef
  | None => undef
  end.

(** [reinterpret_cast<T*>(item.data)->~T()] *)
Definition destroy (o : option T) : M sparse_array unit :=
  match o with
  | Some x => modify (fun sa => SparseArray (base_array sa) (sa_script sa) (sa_log sa ++ [x]))
  | None => undef
  end.

(** [while(base_array.size() <= index / EXTEND_ARRAY_SIZE) { extend_array(); }] *)
Fixpoint extend_to (fuel : nat) (index : Z) : M sparse_array unit :=
  match fuel with
  | O => diverge
  | S fuel' =>
      sa ← get;
      if zlen (base_array sa) <=? index / EXTEND_ARRAY_SIZE
      then _ ← extend_array; extend_to fuel' index
      else mret tt
  end.

(** Each turn adds a chunk. *)
Definition extend_fuel (index : Z) : nat := S (S (Z.to_nat (index / EXTEND_ARRAY_SIZE))).

Definition set_impl (index : Z) : M sparse_array unit :=
  _ ← extend_to (extend_fuel index) index;
  it ← item_of index;
  if enable it
  then _ ← destroy (obj it); assign_item index (Item true None)
  else assign_item index (Item true (obj it)).

Definition revert (index : Z) : M sparse_array unit :=
  it ← item_of index;
  assign_item index (Item false (obj it)).

(** [new (set_impl(index)) T(...)] in a function-try-block; [ctor] is the
    constructed object, or [None] when the constructor throws. *)
Definition set (index : Z) (ctor : option T) : M sparse_array unit :=
  catch
    (_ ← set_impl index;
     match ctor with
     | Some x => it ← item_of index; assign_item index (Item (enable it) (Some x))
     | None => throw UserException
     end)
    (fun e => _ ← revert index; throw e).

Definition reset (index : Z) : M sparse_array unit :=
  it ← item_of index;
  _ ← assign_item index (Item false (obj it));
  _ ← destroy (obj it);
  assign_item index (Item false None).

(** [data(index)], used as an object. *)
Definition data (index : Z) : M sparse_array T :=
  it ← item_of index;
  match obj it with
  | Some x => mret x
  | None => undef
  end.

Definition capacity : M sparse_array Z :=
  sa ← get;
  mret (wrap64 (zlen (base_array sa) * EXTEND_ARRAY_SIZE)).

(** [get(index)]: NULL, or the object pointed to. *)
Definition get_at (index : Z) : M sparse_array (option T) :=
  cap ← capacity;
  if index <? cap then
    it ← item_of index;
    if enable it then
      match obj it with
      | Some x => mret (Some x)
      | None => undef
      end
    else mret None
  else mret None.

Definition test (index : Z) : M sparse_array bool :=
  cap ← capacity;
  if index <? cap then it ← item_of index; mret (enable it) else mret false.

Definition sparse_array_new (script : list bool) : outcome sparse_array unit :=
  extend_array (SparseArray [] script []).

(** The destructor: every enabled item of every chunk, in order. *)
Fixpoint destroy_items (its : list item) : M sparse_array unit :=
  match its with
  | [] => mret tt
  | it :: its' =>
      _ ← (if enable it then destroy (obj it) else mret tt);
      destroy_items its'
  end.

Fixpoint destroy_chunks (cs : list (list item)) : M sparse_array unit :=
  match cs with
  | [] => mret tt
  | c :: cs' => _ ← destroy_items c; destroy_chunks cs'
  end.

Definition sparse_array_delete : M sparse_array unit :=
  sa ← get;
  destroy_chunks (base_array sa).
End SparseArray.
Arguments item : clear implicits.
Arguments sparse_array : clear implicits.

(** ** Chunks as one array *)

Definition chunks64 {A} (cs : list (list A)) : Prop := Forall (fun c => length c = 64%nat) cs.

Lemma length_chunks64 {A} (cs : list (list A)) :
  chunks64 cs -> length (concat cs) = (64 * length cs)%nat.
Proof. induction 1 as [|c cs Hc _ IH]; [done|]. simpl. rewrite length_app, Hc, IH. lia. Qed.

(** Item [i] of the array is item [i mod 64] of chunk [i / 64]. *)
Lemma lookup_chunks64 {A} (cs : list (list A)) (i : nat) :
  chunks64 cs -> concat cs !! i = cs !! (i / 64)%nat ≫= (.!! (i mod 64)%nat).
Proof.
  intros Hcs. revert i. induction Hcs as [|c cs Hc _ IH]; intros i; [done|].
  cbn [concat]. destruct (decide (i < 64)%nat) as [Hi|Hi].
  - rewrite Nat.div_small, Nat.mod_small by done. cbn. by rewrite lookup_app_l by lia.
  - rewrite lookup_app_r, Hc, IH by lia.
    replace i with (i - 64 + 1 * 64)%nat at 3 4 by lia.
    rewrite Nat.div_add, Nat.Div0.mod_add, Nat.add_1_r by lia. done.
Qed.

Lemma insert_chunks64 {A} (cs : list (list A)) (i : nat) c x :
  chunks64 cs -> cs !! (i / 64)%nat = Some c ->
  concat (<[(i / 64)%nat := <[(i mod 64)%nat := x]> c]> cs) = <[i := x]> (concat cs).
Proof.
  intros Hcs. revert i. induction Hcs as [|c' cs Hc _ IH]; intros i; [done|].
  destruct (decide (i < 64)%nat) as [Hi|Hi].
  - rewrite Nat.div_small, Nat.mod_small by done. simpl. intros [= ->].
    by rewrite insert_app_l by lia.
  - replace i with (i - 64 + 1 * 64)%nat at 1 2 3 by lia.
    rewrite Nat.div_add, Nat.Div0.mod_add, Nat.add_1_r by lia. cbn [lookup list_lookup insert list_insert concat]. intros Hl.
    rewrite insert_app_r_alt, Hc by lia. f_equal. by apply IH.
Qed.

Section Rules.
Context {T : Type}.
Implicit Types (sa : sparse_array T) (it : item T) (x : T) (index : Z).

(** The array as one list of items, and what each operation needs of it. *)
Definition items sa : list (item T) := concat (base_array sa).

Lemma nat_div_mod index :
  0 <= index -> chunk_of index = (Z.to_nat index / 64)%nat /\
                offset_of index = (Z.to_nat index mod 64)%nat.
Proof.
  intros. unfold chunk_of, offset_of, EXTEND_ARRAY_SIZE.
  rewrite Z2Nat.inj_div, Z2Nat.inj_mod by lia. done.
Qed.

Lemma item_of_run sa index :
  chunks64 (base_array sa) -> 0 <= index ->
  item_of index sa = match items sa !! Z.to_nat index with
                     | Some it => Ret it sa
                     | None => Undef
                     end.
Proof.
  intros Hcs Hi. destruct (nat_div_mod index Hi) as [Hc Ho].
  unfold item_of, items. cbv [mbind M_bind get]. rewrite Hc, Ho, lookup_chunks64 by done.
  by destruct (base_array sa !! _) as [c|]; simpl; [destruct (c !! _)|].
Qed.

Lemma wp_item_of sa index it (Q : item T -> sparse_array T -> Prop) E :
  chunks64 (base_array sa) -> 0 <= index -> items sa !! Z.to_nat index = Some it ->
  Q it sa -> wp (item_of index) Q E sa.
Proof. intros ? ? Hit HQ. unfold wp. by rewrite item_of_run, Hit. Qed.

Lemma wp_assign_item sa index it (Q : unit -> sparse_array T -> Prop) E :
  chunks64 (base_array sa) -> 0 <= index -> (Z.to_nat index < length (items sa))%nat ->
  (forall base, chunks64 base -> length base = length (base_array sa) ->
     concat base = <[Z.to_nat index := it]> (items sa) ->
     Q tt (SparseArray base (sa_script sa) (sa_log sa))) ->
  wp (assign_item index it) Q E sa.
Proof.
  intros Hcs Hi Hlt HQ. destruct (nat_div_mod index Hi) as [Hc Ho].
  unfold items in *. pose proof (length_chunks64 _ Hcs) as Hlen.
  pose proof (Nat.mod_upper_bound (Z.to_nat index) 64).
  pose proof (Nat.Div0.div_lt_upper_bound (Z.to_nat index) 64 (length (base_array sa))).
  destruct (lookup_lt_is_Some_2 (base_array sa) (Z.to_nat index / 64)) as [c Hcl]; [lia|].
  assert (length c = 64%nat) as Hl64 by (eapply (Forall_lookup_1 (fun c => length c = 64%nat)); done).
  unfold assign_item. wp_steps. rewrite Hc, Ho, Hcl, bool_decide_true by lia.
  unfold set_base. wp_steps. apply HQ.
  - apply Forall_insert; [done|]. by rewrite length_insert.
  - by rewrite length_insert.
  - by apply insert_chunks64.
Qed.

(** Chunks are added until the index is in range. *)
Lemma wp_extend_to fuel sa index (Q : unit -> sparse_array T -> Prop) E :
  chunks64 (base_array sa) -> 0 <= index ->
  zlen (base_array sa) <= index / 64 + 1 \/ index / 64 < zlen (base_array sa) ->
  (Z.to_nat (index / 64 + 1) - length (base_array sa) < fuel)%nat ->
  index / 64 < zlen (base_array sa) \/ false ∉ sa_script sa ->
  (forall sa' k, chunks64 (base_array sa') -> index / 64 < zlen (base_array sa') ->
     zlen (base_array sa') = Z.max (zlen (base_array sa)) (index / 64 + 1) ->
     items sa' = items sa ++ replicate k (Item false None) -> sa_log sa' = sa_log sa ->
     sa_script sa' ⊆ sa_script sa -> Q tt sa') ->
  wp (extend_to fuel index) Q E sa.
Proof.
  revert sa. induction fuel as [|fuel IH]; intros sa Hcs Hi Hle Hf Hs HQ; [lia|].
  cbn [extend_to]. wp_steps. change EXTEND_ARRAY_SIZE with 64.
  destruct (Z.leb_spec (zlen (base_array sa)) (index / 64)) as [Hlt|Hge]; wp_steps.
  - destruct Hs as [Hs|Hs]; [lia|].
    unfold extend_array. wp_steps.
    assert (forall s (Q : bool -> sparse_array T -> Prop), false ∉ s ->
      (forall s', s' ⊆ s -> Q true (SparseArray (base_array sa) s' (sa_log sa))) ->
      wp alloc_answer Q E (SparseArray (base_array sa) s (sa_log sa))) as Hans.
    { intros [|[] s] Q' Hns HQ'; unfold wp, alloc_answer; simpl; [by apply HQ'|..].
      - apply HQ'. set_solver.
      - set_solver. }
    destruct sa as [base s log]. simpl in *. apply Hans; [done|]. intros s1 Hs1. wp_steps.
    apply Hans; [set_solver|]. intros s2 Hs2. unfold set_base. wp_steps.
    apply IH; simpl.
    + apply Forall_app. split; [done|]. by repeat constructor.
    + done.
    + rewrite length_app. simpl. lia.
    + rewrite length_app. simpl. lia.
    + right. set_solver.
    + intros sa' k Hcs' Hin Hmax Hits Hlog Hsub. apply (HQ sa' (64 + k)%nat); [done|done| | |done|].
      * rewrite Hmax, length_app. simpl. lia.
      * rewrite Hits, replicate_add, app_assoc. unfold items. cbn [base_array].
        rewrite concat_app. cbn [concat]. by rewrite app_nil_r.
      * set_solver.
  - apply (HQ sa 0%nat); [done|lia|lia| |done|done]. by rewrite app_nil_r.
Qed.
End Rules.

(** ** Representation: a finite map of live objects *)

Section Rep.
Context {T : Type}.
Implicit Types (sa : sparse_array T) (it : item T) (x : T) (index : Z) (m : gmap nat T).

(** The flag of an item tells whether it holds an object. *)
Definition flag_ok it : Prop := enable it = bool_decide (is_Some (obj it)).

Record sa_rep sa m : Prop := SaRep {
  rep_chunks : chunks64 (base_array sa);
  rep_size : 0 < zlen (base_array sa) /\ zlen (base_array sa) * 64 < 2 ^ 64;
  rep_flags : Forall flag_ok (items sa);
  rep_lookup : forall i, m !! i = items sa !! i ≫= obj
}.

(** The objects whose lifetime has not ended. *)
Definition live sa : list T := omap obj (items sa).

(** Index in range of the chunks. *)
Definition in_range sa index : Prop := 0 <= index < 64 * zlen (base_array sa).

Lemma in_range_items sa m index :
  sa_rep sa m -> in_range sa index -> (Z.to_nat index < length (items sa))%nat.
Proof. intros [Hcs _ _ _] [? ?]. unfold items. rewrite length_chunks64 by done. lia. Qed.

Lemma rep_blank sa sa' m k :
  sa_rep sa m -> chunks64 (base_array sa') -> items sa' = items sa ++ replicate k (Item false None) ->
  0 < zlen (base_array sa') -> zlen (base_array sa') * 64 < 2 ^ 64 -> sa_rep sa' m.
Proof.
  intros [Hcs Hsz Hfl Hm] Hcs' Hits ? ?. split; [done|done| |].
  - rewrite Hits. apply Forall_app. split; [done|]. by apply Forall_replicate.
  - intros i. rewrite Hm, Hits. destruct (decide (i < length (items sa))%nat).
    + by rewrite lookup_app_l by done.
    + rewrite lookup_app_r, lookup_ge_None_2 by lia. simpl.
      destruct (replicate _ _ !! _) as [it|] eqn:Hit; [|done].
      by apply lookup_replicate in Hit as [-> _].
Qed.

(** Replacing one item replaces one binding. *)
Lemma rep_assign sa sa' m i it :
  sa_rep sa m -> (i < length (items sa))%nat -> chunks64 (base_array sa') ->
  length (base_array sa') = length (base_array sa) -> items sa' = <[i := it]> (items sa) ->
  flag_ok it -> sa_rep sa' (partial_alter (fun _ => obj it) i m).
Proof.
  intros [Hcs Hsz Hfl Hm] Hi Hcs' Hlen Hits Hok. split; [done|by rewrite Hlen| |].
  - rewrite Hits. by apply Forall_insert.
  - intros j. rewrite Hits. destruct (decide (i = j)) as [<-|Hij].
    + by rewrite lookup_partial_alter_eq, list_lookup_insert_eq.
    + by rewrite lookup_partial_alter_ne, list_lookup_insert_ne by done.
Qed.

Lemma rep_item sa m index :
  sa_rep sa m -> in_range sa index ->
  exists it, items sa !! Z.to_nat index = Some it /\ flag_ok it /\ m !! Z.to_nat index = obj it.
Proof.
  intros Hr Hi. destruct (lookup_lt_is_Some_2 _ _ (in_range_items _ _ _ Hr Hi)) as [it Hit].
  exists it. split; [done|]. split.
  - eapply Forall_lookup_1; [exact (rep_flags _ _ Hr)|done].
  - by rewrite (rep_lookup _ _ Hr), Hit.
Qed.

(** Memory is available, or not needed, to reach the index. *)
Definition can_reach sa index : Prop :=
  0 <= index < 2 ^ 63 /\ (in_range sa index \/ false ∉ sa_script sa).

(** The item is enabled and its previous object is gone. *)
Definition vacated sa m index sa1 : Prop :=
  exists sa0, sa_rep sa0 m /\ in_range sa0 index /\
    live sa0 = live sa /\
    zlen (base_array sa0) = Z.max (zlen (base_array sa)) (index / 64 + 1) /\
    chunks64 (base_array sa1) /\ length (base_array sa1) = length (base_array sa0) /\
    items sa1 = <[Z.to_nat index := Item true None]> (items sa0) /\
    sa_log sa1 = sa_log sa ++ option_list (m !! Z.to_nat index).

Lemma set_impl_vacates sa m index E :
  sa_rep sa m -> can_reach sa index ->
  wp (set_impl index) (fun _ sa1 => vacated sa m index sa1) E sa.
Proof.
  intros Hr [Hi Hreach]. pose proof Hr as [Hcs [Hpos Hsz] Hfl Hm]. unfold set_impl. wp_step.
  assert (in_range sa index <-> index / 64 < zlen (base_array sa)) as Hrange.
  { unfold in_range. split; [intros; apply Z.div_lt_upper_bound; lia|].
    intros. pose proof (Z.mul_succ_div_gt index 64). lia. }
  rewrite Hrange in Hreach.
  assert (0 <= index / 64 /\ 64 * (index / 64) <= index) as [Hd0 Hd1].
  { split; [apply Z.div_pos; lia|apply Z.mul_div_le; lia]. }
  apply wp_extend_to; [done|lia|lia| |done|].
  { unfold extend_fuel, EXTEND_ARRAY_SIZE. lia. }
  intros sa0 k Hcs0 Hin Hmax Hits Hlog _.
  assert (in_range sa0 index) as Hin0.
  { unfold in_range. pose proof (Z.mul_succ_div_gt index 64). lia. }
  assert (sa_rep sa0 m) as Hr0 by (eapply rep_blank; [done|done|exact Hits|lia|lia]).
  assert (live sa0 = live sa) as Hlive.
  { unfold live. rewrite Hits, omap_app.
    assert (omap obj (replicate k (Item false (@None T))) = []) as ->
      by (clear; by induction k as [|k IH]; [|exact IH]).
    apply app_nil_r. }
  destruct (rep_item _ _ _ Hr0 Hin0) as (it & Hit & Hok & Hmi).
  wp_step. eapply wp_item_of; [done|lia|done|]. unfold flag_ok in Hok. rewrite Hok.
  pose proof (in_range_items _ _ _ Hr0 Hin0) as Hlt.
  destruct (obj it) as [x|] eqn:Hobj; simpl.
  - wp_steps.
    apply wp_assign_item; [done|lia|done|]. intros base Hb1 Hb2 Hb3. exists sa0.
    rewrite Hmi. simpl. rewrite Hlog. by split_and!.
  - apply wp_assign_item; [done|lia|done|]. intros base Hb1 Hb2 Hb3. exists sa0.
    rewrite Hmi. simpl. rewrite Hlog, app_nil_r. by split_and!.
Qed.
End Rep.

(** ** The operations against the map *)

Section Ops.
Context {T : Type}.
Implicit Types (sa : sparse_array T) (it : item T) (x : T) (index : Z) (m : gmap nat T).

(** The life of every object that was ever constructed: destroyed or still live. *)
Definition accounts sa (cs : list T) : Prop := sa_log sa ++ live sa ≡ₚ cs.

Definition grown sa sa' index : Prop :=
  zlen (base_array sa') = Z.max (zlen (base_array sa)) (index / 64 + 1).

(** Writing the final item into the vacated place. *)
Lemma vacated_assign sa m index sa1 sa2 it cs :
  vacated sa m index sa1 -> accounts sa cs -> flag_ok it ->
  chunks64 (base_array sa2) -> length (base_array sa2) = length (base_array sa1) ->
  items sa2 = <[Z.to_nat index := it]> (items sa1) -> sa_log sa2 = sa_log sa1 ->
  sa_rep sa2 (partial_alter (fun _ => obj it) (Z.to_nat index) m) /\
  accounts sa2 (option_list (obj it) ++ cs) /\ grown sa sa2 index.
Proof.
  intros (sa0 & Hr0 & Hin0 & Hlive & Hmax & Hcs1 & Hlen1 & Hits1 & Hlog1) Hacc Hok Hcs2 Hlen2 Hits2 Hlog2.
  pose proof (in_range_items _ _ _ Hr0 Hin0) as Hlt.
  rewrite Hits1, list_insert_insert_eq in Hits2.
  split_and!; [|..|unfold grown; lia].
  - eapply rep_assign; [exact Hr0|done|done|lia|done|done].
  - destruct (rep_item _ _ _ Hr0 Hin0) as (it0 & Hit0 & _ & Hm0).
    unfold accounts in *. rewrite Hlog2, Hlog1, Hm0, <-Hacc, <-Hlive. unfold live.
    rewrite Hits2, (omap_insert_perm obj) by done.
    rewrite (omap_lookup_perm obj (items sa0) _ it0 Hit0).
    solve_Permutation.
Qed.

Lemma set_rep sa m index ctor cs :
  sa_rep sa m -> accounts sa cs -> can_reach sa index ->
  wp (set index ctor)
     (fun _ sa' => exists x, ctor = Some x /\ sa_rep sa' (<[Z.to_nat index := x]> m) /\
        accounts sa' (x :: cs) /\ grown sa sa' index)
     (fun e sa' => ctor = None /\ e = UserException /\
        sa_rep sa' (delete (Z.to_nat index) m) /\ accounts sa' cs /\ grown sa sa' index) sa.
Proof.
  intros Hr Hacc Hreach. unfold set. wp_step. wp_step. pose proof Hreach as [Hi _].
  eapply wp_mono; [| |by eapply (set_impl_vacates _ _ _ (fun _ _ => False))]; [|done].
  intros ? sa1 Hv. cbv beta in Hv. pose proof Hv as (sa0 & Hr0 & Hin0 & _ & _ & Hcs1 & _ & Hits1 & _).
  pose proof (in_range_items _ _ _ Hr0 Hin0) as Hlt.
  assert (items sa1 !! Z.to_nat index = Some (Item true None)) as Hit1
    by by rewrite Hits1, list_lookup_insert_eq.
  assert (Z.to_nat index < length (items sa1))%nat as Hlt1 by by rewrite Hits1, length_insert.
  destruct ctor as [x|].
  - wp_step. eapply wp_item_of; [done|lia|done|]. apply wp_assign_item; [done|lia|done|].
    intros base Hb1 Hb2 Hb3. exists x. split; [done|].
    by apply (vacated_assign sa m index sa1 _ (Item true (Some x)) cs).
  - unfold revert. wp_steps. eapply wp_item_of; [done|lia|done|].
    apply wp_assign_item; [done|lia|done|]. intros base Hb1 Hb2 Hb3. wp_steps.
    split; [done|]. split; [done|].
    by apply (vacated_assign sa m index sa1 _ (Item false None) cs).
Qed.

Lemma reset_rep sa m index x cs :
  sa_rep sa m -> accounts sa cs -> 0 <= index -> m !! Z.to_nat index = Some x ->
  wp (reset index)
     (fun _ sa' => sa_rep sa' (delete (Z.to_nat index) m) /\ accounts sa' cs /\
        base_array sa' <> [] /\ sa_script sa' = sa_script sa /\
        length (base_array sa') = length (base_array sa) /\ sa_log sa' = sa_log sa ++ [x])
     no_exn sa.
Proof.
  intros Hr Hacc Hi Hx. pose proof Hr as [Hcs [Hpos _] _ Hm].
  rewrite Hm in Hx. destruct (items sa !! Z.to_nat index) as [it|] eqn:Hit; [|done].
  simpl in Hx. pose proof (lookup_lt_Some _ _ _ Hit) as Hlt.
  unfold reset. wp_step. eapply wp_item_of; [done|lia|done|]. wp_step.
  apply wp_assign_item; [done|lia|done|]. intros base Hb1 Hb2 Hb3. wp_step. rewrite Hx.
  unfold destroy. wp_steps.
  assert (Z.to_nat index < length (concat base))%nat by by rewrite Hb3, length_insert.
  apply wp_assign_item; [done|lia|done|]. intros base' Hb1' Hb2' Hb3'. simpl in *.
  unfold items in Hb3'. simpl in Hb3'. rewrite Hb3, list_insert_insert_eq in Hb3'.
  split_and!; [|..|by destruct base'; simpl in *; [lia|]|done|lia|done].
  - by eapply (rep_assign sa _ m _ (Item false None)); simpl; [..|lia| |].
  - unfold accounts, live, items in *. simpl. rewrite Hb3', <-Hacc.
    rewrite (omap_insert_perm obj) by done. rewrite (omap_lookup_perm obj _ _ it Hit), Hx.
    simpl. by rewrite <-app_assoc.
Qed.

(** The readers return what the map holds. *)
Lemma capacity_run sa m :
  sa_rep sa m -> capacity sa = Ret (64 * zlen (base_array sa)) sa.
Proof.
  intros [_ [_ Hsz] _ _]. unfold capacity, EXTEND_ARRAY_SIZE. cbv [mbind M_bind get mret M_ret].
  by rewrite wrap64_small, Z.mul_comm by lia.
Qed.

Lemma out_of_range sa m index :
  sa_rep sa m -> 64 * zlen (base_array sa) <= index -> m !! Z.to_nat index = None.
Proof.
  intros [Hcs _ _ Hm] Hi. rewrite Hm, lookup_ge_None_2; [done|].
  unfold items. rewrite length_chunks64 by done. lia.
Qed.

Lemma get_at_run sa m index :
  sa_rep sa m -> 0 <= index -> get_at index sa = Ret (m !! Z.to_nat index) sa.
Proof.
  intros Hr Hi. unfold get_at. rewrite (M_bind_ret _ _ _ _ _ (capacity_run _ _ Hr)).
  destruct (Z.ltb_spec index (64 * zlen (base_array sa))) as [Hlt|Hge].
  - destruct (rep_item sa m index Hr ltac:(by split)) as (it & Hit & Hok & Hmi).
    erewrite M_bind_ret by (rewrite item_of_run by (apply Hr || done); by rewrite Hit).
    unfold flag_ok in Hok. rewrite Hok, Hmi. by destruct (obj it).
  - by rewrite (out_of_range _ _ _ Hr Hge).
Qed.

Lemma test_run sa m index :
  sa_rep sa m -> 0 <= index ->
  test index sa = Ret (bool_decide (is_Some (m !! Z.to_nat index))) sa.
Proof.
  intros Hr Hi. unfold test. rewrite (M_bind_ret _ _ _ _ _ (capacity_run _ _ Hr)).
  destruct (Z.ltb_spec index (64 * zlen (base_array sa))) as [Hlt|Hge].
  - destruct (rep_item sa m index Hr ltac:(by split)) as (it & Hit & Hok & Hmi).
    erewrite M_bind_ret by (rewrite item_of_run by (apply Hr || done); by rewrite Hit).
    unfold flag_ok in Hok. by rewrite Hok, Hmi.
  - by rewrite (out_of_range _ _ _ Hr Hge).
Qed.

Lemma data_run sa m index :
  sa_rep sa m -> 0 <= index ->
  data index sa = match m !! Z.to_nat index with Some x => Ret x sa | None => Undef end.
Proof.
  intros Hr Hi. unfold data. rewrite (rep_lookup _ _ Hr). unfold mbind at 1, M_bind.
  rewrite item_of_run by (apply Hr || done).
  destruct (items sa !! _) as [it|]; simpl; [by destruct (obj it)|done].
Qed.

(** Destroying the items of a list ends exactly the lives it holds. *)
Lemma destroy_items_run its base s log :
  Forall flag_ok its ->
  destroy_items its (SparseArray base s log) = Ret tt (SparseArray base s (log ++ omap (@obj T) its)).
Proof.
  intros Hf. revert log. induction Hf as [|it its Hok _ IH]; intros log; simpl.
  - by rewrite app_nil_r.
  - unfold flag_ok in Hok. rewrite Hok. destruct (obj it) as [x|] eqn:Hx.
    + erewrite M_bind_ret by reflexivity. simpl. rewrite IH, <-app_assoc. done.
    + erewrite M_bind_ret by reflexivity. rewrite IH. done.
Qed.

Lemma destroy_chunks_run cs base s log :
  Forall flag_ok (concat cs) ->
  destroy_chunks cs (SparseArray base s log)
    = Ret tt (SparseArray base s (log ++ omap (@obj T) (concat cs))).
Proof.
  revert log. induction cs as [|c cs IH]; intros log Hf; simpl in *.
  - by rewrite app_nil_r.
  - apply Forall_app in Hf as [Hf1 Hf2].
    erewrite M_bind_ret by (by apply destroy_items_run). rewrite IH by done.
    by rewrite omap_app, app_assoc.
Qed.
End Ops.

(** ** The contract: a finite map with exact object lifetimes *)

Inductive sa_op (T : Type) : Type :=
| OpSet (index : Z) (ctor : option T)     (* set(index, ...) *)
| OpReset (index : Z).                    (* reset(index) *)
Arguments OpSet {T} index ctor.
Arguments OpReset {T} index.

Section Client.
Context {T : Type}.
Implicit Types (sa : sparse_array T) (m : gmap nat T) (op : sa_op T).

Definition run_op op : M (sparse_array T) unit :=
  match op with
  | OpSet index ctor => set index ctor
  | OpReset index => reset index
  end.

(** An index is settable when memory does not run out on the way to it, and
    resettable when it is set. *)
Definition contract sa m op : Prop :=
  match op with
  | OpSet index _ => can_reach sa index
  | OpReset index => 0 <= index /\ is_Some (m !! Z.to_nat index)
  end.

Definition map_step m op : gmap nat T :=
  match op with
  | OpSet index (Some x) => <[Z.to_nat index := x]> m
  | OpSet index None | OpReset index => delete (Z.to_nat index) m
  end.

(** The objects an operation constructs. *)
Definition constructs op : list T :=
  match op with OpSet _ (Some x) => [x] | _ => [] end.

(** [reach sa m cs]: [sa] is the array after some operations, [m] the map they
    describe, and [cs] all the objects they constructed. *)
Inductive reach : sparse_array T -> gmap nat T -> list T -> Prop :=
| reach_new script sa :
    sparse_array_new script = Ret tt sa -> reach sa ∅ []
| reach_op sa m cs op sa' :
    reach sa m cs -> contract sa m op ->
    run_op op sa = Ret tt sa' \/ (exists e, run_op op sa = Throw e sa') ->
    reach sa' (map_step m op) (constructs op ++ cs).

Lemma sa_run_op_ok sa m cs op :
  sa_rep sa m -> accounts sa cs -> contract sa m op ->
  exists sa', (run_op op sa = Ret tt sa' \/ run_op op sa = Throw UserException sa') /\
    sa_rep sa' (map_step m op) /\ accounts sa' (constructs op ++ cs).
Proof.
  intros Hr Hacc Hc. destruct op as [index ctor|index]; simpl in *.
  - pose proof (set_rep _ _ _ ctor _ Hr Hacc Hc) as Hwp. unfold wp in Hwp.
    destruct (set index ctor sa) as [[] sa'|e sa'| |]; [..|done|done]; exists sa'.
    + destruct Hwp as (x & -> & ? & ? & _). split; [by left|done].
    + destruct Hwp as (-> & -> & ? & ? & _). split; [by right|done].
  - destruct Hc as [Hi [x Hx]].
    destruct (wp_run _ _ _ (reset_rep _ _ _ _ _ Hr Hacc Hi Hx)) as ([] & sa' & Hrun & ? & ? & _).
    exists sa'. split; [by left|done].
Qed.

Lemma reach_rep sa m cs : reach sa m cs -> sa_rep sa m /\ accounts sa cs.
Proof.
  induction 1 as [script sa Hnew|sa m cs op sa' _ [Hr Hacc] Hc Hrun].
  - assert (base_array sa = [replicate 64 (Item false None)] /\ sa_log sa = []) as [Hb Hl].
    { unfold sparse_array_new, extend_array, mbind, M_bind, alloc_answer in Hnew.
      destruct script as [|[] [|[] script]]; simpl in Hnew; try done;
        injection Hnew as <-; by split. }
    assert (items sa = replicate 64 (Item false None)) as Hits.
    { unfold items. rewrite Hb. apply app_nil_r. }
    split; [split|].
    + rewrite Hb. by repeat constructor.
    + rewrite Hb. simpl. lia.
    + rewrite Hits. by apply Forall_replicate.
    + intros i. rewrite Hits, lookup_empty. destruct (replicate _ _ !! i) as [it|] eqn:Hit; [|done].
      by apply lookup_replicate in Hit as [-> _].
    + unfold accounts, live. by rewrite Hits, Hl.
  - destruct (sa_run_op_ok _ _ _ _ Hr Hacc Hc) as (sa2 & Hrun2 & ? & ?).
    assert (sa2 = sa') as -> by (destruct Hrun as [Hrun|[e Hrun]]; destruct Hrun2; congruence).
    done.
Qed.

(** ** Properties *)

(** C28. The class is a finite map: in every reachable state [get], [test] and
    [data] report the map (and [data] of an unset index is undefined), and
    [set]/[reset] within their contract return, or rethrow what the
    constructor of the element threw. *)
Theorem sparse_array_is_map sa m cs (Hr : reach sa m cs) :
  (forall index, 0 <= index ->
     get_at index sa = Ret (m !! Z.to_nat index) sa /\
     test index sa = Ret (bool_decide (is_Some (m !! Z.to_nat index))) sa /\
     data index sa = match m !! Z.to_nat index with Some x => Ret x sa | None => Undef end) /\
  (forall op, contract sa m op ->
     exists sa', run_op op sa = Ret tt sa' \/ run_op op sa = Throw UserException sa').
Proof.
  apply reach_rep in Hr as [Hr Hacc]. split.
  - intros index Hi. split_and!; [by apply get_at_run|by apply test_run|by apply data_run].
  - intros op Hc. destruct (sa_run_op_ok _ _ _ _ Hr Hacc Hc) as (sa' & Hrun & _). eauto.
Qed.

(** C29. Lifetimes: the destructor destroys exactly the objects still set, so
    that over the life of the array every object constructed in it is
    destroyed once and only once. *)
Theorem sparse_array_lifetimes sa m cs (Hr : reach sa m cs) :
  exists sa', sparse_array_delete sa = Ret tt sa' /\ sa_log sa' ≡ₚ cs.
Proof.
  apply reach_rep in Hr as [Hr Hacc]. destruct sa as [base script log].
  eexists. split; [apply (destroy_chunks_run base), Hr|]. exact Hacc.
Qed.

(** [set] enables exactly its index: it stores the new object, ends the
    life of the one it replaces, and grows the array to the fewest chunks that
    contain the index; when the constructor throws, the index ends up unset. *)
Theorem set_functional sa m cs (index : Z) (ctor : option T)
    (Hr : reach sa m cs) (Hc : can_reach sa index) :
  exists sa', set index ctor sa = match ctor with
                                  | Some _ => Ret tt sa'
                                  | None => Throw UserException sa'
                                  end /\
    capacity sa' = Ret (64 * Z.max (zlen (base_array sa)) (index / 64 + 1)) sa' /\
    get_at index sa' = Ret ctor sa' /\
    forall j, 0 <= j -> j <> index -> get_at j sa' = Ret (m !! Z.to_nat j) sa'.
Proof.
  apply reach_rep in Hr as [Hr Hacc]. pose proof Hc as [Hi _].
  pose proof (set_rep _ _ _ ctor _ Hr Hacc Hc) as Hwp. unfold wp in Hwp.
  destruct (set index ctor sa) as [[] sa'|e sa'| |]; [..|done|done]; exists sa'.
  - destruct Hwp as (x & -> & Hr' & _ & Hg). unfold grown in Hg.
    rewrite (capacity_run _ _ Hr'), Hg, (get_at_run _ _ _ Hr'), lookup_insert_eq by lia.
    split_and!; [done..|]. intros j Hj Hne. rewrite (get_at_run _ _ _ Hr') by lia.
    rewrite lookup_insert_ne by (intros ?; apply Hne; lia). done.
  - destruct Hwp as (-> & -> & Hr' & _ & Hg). unfold grown in Hg.
    rewrite (capacity_run _ _ Hr'), Hg, (get_at_run _ _ _ Hr'), lookup_delete_eq by lia.
    split_and!; [done..|]. intros j Hj Hne. rewrite (get_at_run _ _ _ Hr') by lia.
    rewrite lookup_delete_ne by (intros ?; apply Hne; lia). done.
Qed.

(** Where the class is unsafe: [set] on an index beyond the chunks when
    the allocation of a chunk fails runs [revert] on an item that does not
    exist, and [reset] of an index that is not set destroys no object. *)
Theorem sparse_array_hazards sa m cs (index : Z) (ctor : option T) (script : list bool)
    (Hr : reach sa m cs) (Hi : 0 <= index) :
  (64 * zlen (base_array sa) <= index -> sa_script sa = false :: script ->
     set index ctor sa = Undef) /\
  (m !! Z.to_nat index = None -> reset index sa = Undef).
Proof.
  apply reach_rep in Hr as [Hr _]. pose proof Hr as [Hcs _ _ Hm]. split.
  - intros Hge Hs. destruct sa as [base s log]. simpl in *. subst s.
    assert (zlen base <= index / 64) as Hdiv by (apply Z.div_le_lower_bound; lia).
    assert (item_of index (SparseArray base script log) = Undef) as Hoob.
    { rewrite item_of_run by done. unfold items. simpl.
      rewrite lookup_ge_None_2; [done|]. rewrite length_chunks64 by done. lia. }
    assert (set_impl index (SparseArray base (false :: script) log)
            = Throw BadAlloc (SparseArray base script log)) as Himpl.
    { unfold set_impl, extend_fuel. cbn [extend_to].
      cbv [mbind M_bind get extend_array alloc_answer]. simpl.
      change EXTEND_ARRAY_SIZE with 64.
      destruct (Z.leb_spec (zlen base) (index / 64)); [done|lia]. }
    unfold set, catch. unfold mbind at 1, M_bind at 1. rewrite Himpl.
    unfold revert, mbind, M_bind. by rewrite Hoob.
  - intros Hnone. unfold reset. unfold mbind at 1, M_bind. rewrite item_of_run by done.
    destruct (items sa !! Z.to_nat index) as [it|] eqn:Hit; [|done].
    rewrite Hm, Hit in Hnone. simpl in Hnone. unfold mbind at 1, M_bind.
    destruct (assign_item index _ sa) as [[] sa'|e sa'| |] eqn:Hass; [|exfalso|done|exfalso].
    + by rewrite Hnone.
    + revert Hass. unfold assign_item, mbind, M_bind, get. simpl.
      repeat case_match; naive_solver.
    + revert Hass. unfold assign_item, mbind, M_bind, get. simpl.
      repeat case_match; naive_solver.
Qed.
End Client.

(** ** Witnesses *)

Definition ex_sa (script : list bool) : sparse_array Z :=
  match sparse_array_new script with Ret _ sa => sa | _ => SparseArray [] [] [] end.

Definition run_all (ops : list (sa_op Z)) (sa : sparse_array Z) : sparse_array Z :=
  fold_left (fun sa op => match run_op op sa with Ret _ sa' | Throw _ sa' => sa' | _ => sa end)
            ops sa.

Lemma sa_ex_new_reach script : script = [] \/ script = [true; true; false] -> reach (ex_sa script) ∅ [].
Proof.
  intros [->| ->]; [apply (reach_new [])|apply (reach_new [true; true; false])];
    vm_compute; reflexivity.
Qed.

Definition ex_set : sparse_array Z := run_all [OpSet 70 (Some 5)] (ex_sa []).

Lemma ex_set_reach : reach ex_set {[70%nat := 5]} [5].
Proof.
  apply (reach_op (ex_sa []) ∅ [] (OpSet 70 (Some 5))).
  - apply sa_ex_new_reach. by left.
  - split; [lia|]. right. vm_compute. intros H. inversion H.
  - left. vm_compute. reflexivity.
Qed.

Lemma sparse_array_is_map_witness :
  get_at 70 ex_set = Ret (Some 5) ex_set /\ test 3 ex_set = Ret false ex_set.
Proof.
  split.
  - exact (proj1 (proj1 (sparse_array_is_map _ _ _ ex_set_reach) 70 ltac:(lia))).
  - exact (proj1 (proj2 (proj1 (sparse_array_is_map _ _ _ ex_set_reach) 3 ltac:(lia)))).
Defined.

Lemma sparse_array_lifetimes_witness :
  exists sa', sparse_array_delete ex_set = Ret tt sa' /\ sa_log sa' ≡ₚ [5].
Proof. exact (sparse_array_lifetimes _ _ _ ex_set_reach). Defined.

Lemma set_functional_witness :
  exists sa', set 200 None ex_set = Throw UserException sa' /\
    capacity sa' = Ret 256 sa' /\ get_at 200 sa' = Ret None sa' /\
    forall j, 0 <= j -> j <> 200 -> get_at j sa' = Ret (({[70%nat := 5]} : gmap nat Z) !! Z.to_nat j) sa'.
Proof.
  refine (set_functional _ _ _ 200 None ex_set_reach _).
  split; [lia|]. right. vm_compute. intros H. inversion H.
Defined.

Lemma sparse_array_hazards_witness :
  set 64 (Some 5) (ex_sa [true; true; false]) = Undef /\ reset 0 (ex_sa [true; true; false]) = Undef.
Proof.
  assert (reach (ex_sa [true; true; false]) ∅ []) as Hr by (apply sa_ex_new_reach; by right).
  split.
  - refine (proj1 (sparse_array_hazards _ _ _ 64 (Some 5) [] Hr ltac:(lia)) _ _).
    + vm_compute. discriminate.
    + reflexivity.
  - exact (proj2 (sparse_array_hazards _ _ _ 0 None [] Hr ltac:(lia)) eq_refl).
Defined.
