(* ===== verification/Os.v ===== *)
(** * The environment: system calls, callbacks and the allocator

    The sources call the operating system and the functions their clients
    registered.  Neither is code of the repository, so they are parameters:
    the class [Os] gives the answer of each system call from the calls made so
    far, [OsSpec] states what the manual pages promise about the answers, and
    a [world] records every call in order.  Theorems are proved for every
    instance; [scripted_os] is a concrete one for evaluating the definitions. *)

From Stdlib Require Import ZArith Lia.
From stdpp Require Import base tactics option list numbers.
From S2P Require Import Prelude.

Inductive errno : Type :=
| EAGAIN
| EINTR
| EINPROGRESS
| ETIMEDOUT
| EMFILE
| EDEADLK
| EBUSY
| EOTHER (code : Z).

#[export] Instance errno_eq_dec : EqDecision errno.
Proof. solve_decision. Defined.

(** [errno == EAGAIN || errno == EINTR] *)
Definition would_retry (e : errno) : bool :=
  match e with EAGAIN | EINTR => true | _ => false end.

(** The value of [errno], on Linux. *)
Definition errno_code (e : errno) : Z :=
  match e with
  | EAGAIN => 11 | EINTR => 4 | EINPROGRESS => 115 | ETIMEDOUT => 110 | EMFILE => 24
  | EDEADLK => 35 | EBUSY => 16
  | EOTHER code => code
  end.

(** System calls, with the arguments the sources pass. *)
Inductive request : Type :=
| Writev (fd : Z) (iov : list (Z * Z))          (* (iov_base, iov_len) pairs *)
| Sendfile (fd infd off len : Z)
| Write (fd buf size : Z)
| ShutdownRd (fd : Z)
| Getrlimit                                     (* getrlimit(RLIMIT_NOFILE): rlim_cur *)
| SetNonblock (fd : Z)                          (* fcntl(fd, F_SETFL, O_NONBLOCK) *)
| Close (fd : Z)
| Read (fd size : Z)
| EpollCreate (size : Z)
| EpollAdd (ep fd events data : Z)              (* epoll_ctl, with ev.events and ev.data.u64 *)
| EpollMod (ep fd events data : Z)
| EpollDel (ep fd : Z)
| EpollWait (ep maxevents timeout : Z)          (* stores the data.u64 of each event *)
| TimerfdCreate
| TimerfdSettime (fd : Z) (value interval : Z * Z)
| Signalfd (signo : Z)
| Pipe                                          (* stores the read end and the write end *)
| TimerCreate (sival_int : Z)                   (* CLOCK_MONOTONIC, SIGEV_THREAD: stores the timer *)
| TimerSettime (timer : Z) (value interval : Z * Z)
| TimerDelete (timer : Z)
| PthreadCreate
| PthreadJoin (thread : Z)
| PthreadDetach (thread : Z)
| PthreadCancel (thread : Z)
| MutexLock (m : Z)                             (* the pthread_ functions return the error *)
| MutexTrylock (m : Z)
| MutexUnlock (m : Z)
| RwlockRdlock (m : Z)
| RwlockTryrdlock (m : Z)
| RwlockWrlock (m : Z)
| RwlockTrywrlock (m : Z)
| RwlockUnlock (m : Z)
| CondSignal (c : Z)
| CondBroadcast (c : Z)
| CondWait (c m : Z)
| CondTimedwait (c m : Z) (abstime : Z * Z)
| Socket (family type protocol : Z)
| Connect (fd : Z) (addr : list Z)
| PollOut (fd timeout_msec : Z)                 (* poll(2) of one descriptor for POLLOUT *)
| SockError (fd : Z)                            (* getsockopt(SO_ERROR): stores the value *)
| Setsockopt (fd level optname : Z) (value : list Z)
| Bind (fd : Z) (addr : list Z)
| Listen (fd backlog : Z)
| Accept (fd : Z)
| SigBlock (set : list Z)                       (* sigprocmask(SIG_BLOCK, set) *)
| SigUnblock (set : list Z)
| Sigaction (signo handler : Z)                 (* stores the previous handler *)
| Sigwait (set : list Z)
| MutexInit (m : Z) (kind : option Z)
| MutexDestroy (m : Z)
| RwlockInit (m : Z)
| RwlockDestroy (m : Z)
| CondInit (c : Z)
| CondDestroy (c : Z)
| Callback (f : Z) (args : list Z)              (* a function of the client: an error is an exception *)
| KeyCreate
| KeySet (key value : Z)
| KeyGet (key : Z)
| Kqueue
| KeventChange (kq ident filter flags fflags data udata : Z)
| KeventWait (kq maxevents : Z) (timeout : option (Z * Z)).

#[export] Instance request_eq_dec : EqDecision request.
Proof. solve_decision. Defined.

(** The stream a call writes to or shuts down. *)
Definition stream_of (r : request) : option Z :=
  match r with
  | Writev fd _ | Sendfile fd _ _ _ | Write fd _ _ | ShutdownRd fd => Some fd
  | _ => None
  end.

(** A call returns a value, with what it stored through its pointer arguments,
    or -1 and an errno. *)
Inductive sysret : Type :=
| SysOk (n : Z) (out : list Z)
| SysErr (e : errno).

#[export] Instance sysret_eq_dec : EqDecision sysret.
Proof. solve_decision. Defined.

Inductive event : Type :=
| Sys (r : request) (a : sysret)
| Finalize (fin user : Z).                      (* fin(user) was called *)

Abbreviation trace := (list event).

Class Os := {
  (** The answer to a call, after the calls of the trace. *)
  sys : trace -> request -> sysret;
  (** Whether memcpy copies correctly when the source is above the
      destination and the two overlap, which the C standard leaves undefined. *)
  memcpy_may_overlap : bool
}.

(** writev(2), sendfile(2), write(2): a count is at most what was asked for. *)
Class OsSpec (O : Os) : Prop := {
  writev_bound tr fd iov n out :
    sys tr (Writev fd iov) = SysOk n out -> 0 <= n <= foldr (fun v s => snd v + s) 0 iov;
  sendfile_bound tr fd infd off len n out :
    sys tr (Sendfile fd infd off len) = SysOk n out -> 0 <= n <= len;
  write_bound tr fd buf size n out :
    sys tr (Write fd buf size) = SysOk n out -> 0 <= n <= size
}.

(** How often a call was made. *)
Definition is_call (r : request) (ev : event) : bool :=
  match ev with Sys r' _ => bool_decide (r' = r) | Finalize _ _ => false end.

Definition calls (r : request) (tr : trace) : Z := countb (is_call r) tr.

Lemma calls_app r tr1 tr2 : calls r (tr1 ++ tr2) = calls r tr1 + calls r tr2.
Proof. apply countb_app. Qed.

Lemma calls_one r a : calls r [Sys r a] = 1.
Proof. unfold calls, countb. rewrite filter_cons_True; [done|]. simpl. by apply bool_decide_eq_true_2. Qed.

Lemma calls_other r r' a : r' <> r -> calls r [Sys r' a] = 0.
Proof. intros. apply countb_none. constructor; [|done]. simpl. by apply bool_decide_eq_false_2. Qed.

Lemma calls_nil r : calls r [] = 0.
Proof. done. Qed.

Lemma calls_cons r ev tr : calls r (ev :: tr) = calls r [ev] + calls r tr.
Proof. apply (calls_app r [ev] tr). Qed.

Record world := World {
  w_trace : trace;
  w_alloc : list bool           (* whether the coming allocations succeed *)
}.

(** At most one system call was made, which is not on a stream. *)
Definition quiet (w w' : world) : Prop :=
  w_alloc w' = w_alloc w /\
  (w_trace w' = w_trace w \/
   exists r a, w_trace w' = w_trace w ++ [Sys r a] /\ stream_of r = None).

Section Calls.
Context {OS : Os}.

Definition syscall (r : request) : M world sysret := fun w =>
  let a := sys (w_trace w) r in
  Ret a (World (w_trace w ++ [Sys r a]) (w_alloc w)).

(** Calling a finalizer: exceptions it throws are swallowed by the callers. *)
Definition call_finalize (fin user : Z) : M world unit :=
  modify (fun w => World (w_trace w ++ [Finalize fin user]) (w_alloc w)).

(** Whether an allocation of [n] bytes succeeds. *)
Definition can_alloc (n : Z) : M world bool := fun w =>
  match w_alloc w with
  | [] => Ret (bool_decide (n <= 2 ^ 63 - 1)) w
  | b :: s => Ret (bool_decide (n <= 2 ^ 63 - 1) && b) (World (w_trace w) s)
  end.

(** Calling a function object of the client. *)
Definition call_client (f : Z) (args : list Z) : M world Z :=
  r ← syscall (Callback f args);
  match r with SysOk n _ => mret n | SysErr _ => throw UserException end.

Definition calls_back (ev : event) : bool := match ev with Sys (Callback _ _) _ => true | _ => false end.

(** Nothing of the client is called. *)
Definition no_callback (tr : trace) : Prop := Forall (fun ev => calls_back ev = false) tr.

(** errno after a call that follows a failure [e]: a call that succeeds leaves it. *)
Definition errno_after (e : errno) (a : sysret) : errno :=
  match a with SysErr e' => e' | SysOk _ _ => e end.

(** [if(call < 0)] *)
Definition is_err (a : sysret) : bool := match a with SysOk _ _ => false | SysErr _ => true end.

Lemma syscall_bind {A} r (k : sysret -> M world A) w :
  (syscall r ≫= k) w =
    let a := sys (w_trace w) r in k a (World (w_trace w ++ [Sys r a]) (w_alloc w)).
Proof. done. Qed.

Lemma wp_can_alloc n (Q : bool -> world -> Prop) E w :
  n <= 2 ^ 63 - 1 -> Q (default true (head (w_alloc w))) (World (w_trace w) (tail (w_alloc w))) ->
  wp (can_alloc n) Q E w.
Proof.
  intros Hn HQ. unfold wp, can_alloc. rewrite bool_decide_true by done. destruct w as [tr [|b s]]; exact HQ.
Qed.

Lemma wp_can_alloc_any n (Q : bool -> world -> Prop) E w :
  (forall b s, (b = true -> n <= 2 ^ 63 - 1) -> Q b (World (w_trace w) s)) ->
  wp (can_alloc n) Q E w.
Proof.
  intros HQ. destruct w as [tr [|b s]]; unfold wp, can_alloc; simpl in *.
  - apply HQ. by intros ?%bool_decide_eq_true.
  - apply HQ. by intros [?%bool_decide_eq_true ?]%andb_true_iff.
Qed.

Lemma wp_syscall r (Q : sysret -> world -> Prop) E w :
  (forall a, a = sys (w_trace w) r -> Q a (World (w_trace w ++ [Sys r a]) (w_alloc w))) ->
  wp (syscall r) Q E w.
Proof. intros HQ. by apply HQ. Qed.
End Calls.

(** An environment that answers from a list, in order, and then with success.
    A transfer count is cut down to what was asked for; a negative size is
    refused. *)
Definition transfer_limit (r : request) : option Z :=
  match r with
  | Writev _ iov => Some (foldr (fun v s => snd v + s) 0 iov)
  | Sendfile _ _ _ len => Some len
  | Write _ _ size => Some size
  | _ => None
  end.

Definition clamp_answer (r : request) (a : sysret) : sysret :=
  match transfer_limit r, a with
  | Some m, SysOk n out => if m <? 0 then SysErr (EOTHER 22) else SysOk (Z.max 0 (Z.min n m)) out
  | _, _ => a
  end.

Definition full_answer (r : request) : sysret := SysOk (default 0 (transfer_limit r)) [].

Definition is_sys (e : event) : bool := match e with Sys _ _ => true | _ => false end.

Definition scripted_os (overlap : bool) (answers : list sysret) : Os := {|
  sys := fun tr r =>
    clamp_answer r (default (full_answer r) (answers !! length (filter (fun e => is_sys e = true) tr)));
  memcpy_may_overlap := overlap
|}.

Lemma clamp_bound r a m n out :
  transfer_limit r = Some m -> clamp_answer r a = SysOk n out -> 0 <= n <= m.
Proof.
  unfold clamp_answer. intros ->. destruct a as [k o|]; [|done].
  destruct (Z.ltb_spec m 0); [done|]. intros [= <- _]. lia.
Qed.

#[export] Instance scripted_spec overlap answers : OsSpec (scripted_os overlap answers).
Proof.
  split; intros *; cbn [sys scripted_os]; intros H; by eapply clamp_bound in H; [|done].
Qed.

(** Counting the calls of a concrete trace. *)
Ltac count_calls :=
  repeat match goal with
    | |- context [calls ?r (?tr1 ++ ?tr2)] => rewrite (calls_app r tr1 tr2)
    | |- context [calls ?r (?ev :: ?tr)] => lazymatch tr with [] => fail | _ => rewrite (calls_cons r ev tr) end
    end;
  rewrite ?calls_nil, ?calls_one, ?calls_other by done; try lia.
