(* ===== verification/Pthread.v ===== *)
(** * Threads, mutexes and condition variables (src/mp/pthread.h)

    The wrappers turn the error that a pthread_ function returns into an
    exception.  [pthread_thread] throws the error itself; the others throw its
    negation.  A scoped lock remembers the object it holds and releases it when
    it is destroyed. *)

From Stdlib Require Import ZArith Lia.
From stdpp Require Import base tactics option list numbers.
From S2P Require Import Prelude Os.

Section Pthread.
Context {OS : Os}.

(** [if(err) { throw pthread_error(err, ...) }] *)
Definition pthread_call (r : request) : M world Z :=
  a ← syscall r;
  match a with SysOk n _ => mret n | SysErr e => throw (PthreadError (errno_code e)) end.

(** [if(err != 0) { throw pthread_error(-err, ...) }] *)
Definition pthread_call_neg (r : request) : M world unit :=
  a ← syscall r;
  match a with SysOk _ _ => mret tt | SysErr e => throw (PthreadError (- errno_code e)) end.

(** The same, with one error that is answered by [false]. *)
Definition pthread_try (r : request) (no : errno) : M world bool :=
  a ← syscall r;
  match a with
  | SysOk _ _ => mret true
  | SysErr e => if decide (e = no) then mret false else throw (PthreadError (- errno_code e))
  end.

(** ** pthread_thread: [m_thread] is a number *)

Definition sizeof_function : Z := 32.

(** [create] returns [m_thread]. *)
Definition thread_create : M world Z := pthread_call PthreadCreate.

(** The copy of the function is freed when [create] throws. *)
Definition thread_run : M world Z :=
  ok ← can_alloc sizeof_function;
  if ok : bool then thread_create else throw BadAlloc.

Definition thread_detach (m_thread : Z) : M world unit :=
  _ ← pthread_call (PthreadDetach m_thread); mret tt.

Definition thread_join (m_thread : Z) : M world Z := pthread_call (PthreadJoin m_thread).

Definition thread_cancel (m_thread : Z) : M world unit :=
  _ ← syscall (PthreadCancel m_thread); mret tt.

(** ** pthread_mutex *)

Definition mutex_new (m : Z) (kind : option Z) : M world unit :=
  _ ← syscall (MutexInit m kind); mret tt.
Definition mutex_delete (m : Z) : M world unit := _ ← syscall (MutexDestroy m); mret tt.
Definition mutex_lock (m : Z) : M world unit := pthread_call_neg (MutexLock m).
Definition mutex_trylock (m : Z) : M world bool := pthread_try (MutexTrylock m) EBUSY.
Definition mutex_unlock (m : Z) : M world unit := pthread_call_neg (MutexUnlock m).

(** ** pthread_rwlock *)

Definition rwlock_new (m : Z) : M world unit := _ ← syscall (RwlockInit m); mret tt.
Definition rwlock_delete (m : Z) : M world unit := _ ← syscall (RwlockDestroy m); mret tt.
Definition rdlock (m : Z) : M world unit := pthread_call_neg (RwlockRdlock m).
Definition tryrdlock (m : Z) : M world bool := pthread_try (RwlockTryrdlock m) EBUSY.
Definition wrlock (m : Z) : M world unit := pthread_call_neg (RwlockWrlock m).
Definition trywrlock (m : Z) : M world bool := pthread_try (RwlockTrywrlock m) EBUSY.
Definition rwlock_unlock (m : Z) : M world unit := pthread_call_neg (RwlockUnlock m).

(** ** pthread_cond *)

Definition cond_new (c : Z) : M world unit := _ ← syscall (CondInit c); mret tt.
Definition cond_delete (c : Z) : M world unit := _ ← syscall (CondDestroy c); mret tt.
Definition cond_signal (c : Z) : M world unit := pthread_call_neg (CondSignal c).
Definition cond_broadcast (c : Z) : M world unit := pthread_call_neg (CondBroadcast c).
Definition cond_wait (c m : Z) : M world unit := pthread_call_neg (CondWait c m).
Definition cond_timedwait (c m : Z) (abstime : Z * Z) : M world bool :=
  pthread_try (CondTimedwait c m abstime) ETIMEDOUT.

(** ** pthread_scoped_lock, pthread_scoped_rdlock, pthread_scoped_wrlock

    The three classes have the same text and differ in what they call. *)
Inductive lock_kind : Type := KMutex | KRead | KWrite.

Definition acquire (k : lock_kind) : Z -> M world unit :=
  match k with KMutex => mutex_lock | KRead => rdlock | KWrite => wrlock end.

Definition release (k : lock_kind) : Z -> M world unit :=
  match k with KMutex => mutex_unlock | KRead | KWrite => rwlock_unlock end.

(** [m_mutex], NULL or the object. *)
Definition scoped : Type := option Z.

Abbreviation sst := (scoped * world)%type.

Definition on_scope_world {A} (m : M world A) : M sst A := zoom snd (fun w st => (fst st, w)) m.
Definition set_scope (lk : scoped) : M sst unit := modify (fun st => (lk, snd st)).

Definition scoped_empty : scoped := None.

Definition scoped_new (k : lock_kind) (mutex : Z) : M world scoped :=
  _ ← acquire k mutex; mret (Some mutex).

Definition scoped_delete (k : lock_kind) (lk : scoped) : M world unit :=
  match lk with Some m => release k m | None => mret tt end.

Definition scoped_unlock (k : lock_kind) : M sst unit :=
  st ← get;
  match fst st with
  | Some m => _ ← on_scope_world (release k m); set_scope None
  | None => mret tt
  end.

Definition scoped_relock (k : lock_kind) (mutex : Z) : M sst unit :=
  _ ← scoped_unlock k;
  _ ← on_scope_world (acquire k mutex);
  set_scope (Some mutex).

Definition scoped_owns (lk : scoped) : bool := match lk with Some _ => true | None => false end.

(** The class for reading ... *)
Definition scoped_rdlock_new : Z -> M world scoped := scoped_new KRead.
Definition scoped_rdlock_delete : scoped -> M world unit := scoped_delete KRead.
Definition scoped_rdlock_unlock : M sst unit := scoped_unlock KRead.
Definition scoped_rdlock_owns : scoped -> bool := scoped_owns.
Definition scoped_rdlock_relock : Z -> M sst unit := scoped_relock KRead.

(** ... and the one for writing. *)
Definition scoped_wrlock_new : Z -> M world scoped := scoped_new KWrite.
Definition scoped_wrlock_delete : scoped -> M world unit := scoped_delete KWrite.
Definition scoped_wrlock_unlock : M sst unit := scoped_unlock KWrite.
Definition scoped_wrlock_owns : scoped -> bool := scoped_owns.
Definition scoped_wrlock_relock : Z -> M sst unit := scoped_relock KWrite.
End Pthread.

(** ** What a scope does

    [scope k m body]: the block of a scoped lock of [m], within which [body]
    uses the lock; the destructor runs also when the body throws. *)
Section Scope.
Context {OS : Os}.

Inductive scope_op : Type := SUnlock | SRelock (mutex : Z).

Definition run_scope_op (k : lock_kind) (op : scope_op) : M (scoped * world) unit :=
  match op with SUnlock => scoped_unlock k | SRelock m => scoped_relock k m end.

Fixpoint run_scope_ops (k : lock_kind) (ops : list scope_op) : M (scoped * world) unit :=
  match ops with [] => mret tt | op :: ops => _ ← run_scope_op k op; run_scope_ops k ops end.

(** A block with a scoped lock, and the destructor at its end. *)
Definition within (lk : scoped) (body : M (scoped * world) unit) (delete : scoped -> M world unit) : M world unit := fun w =>
  match body (lk, w) with
  | Ret _ (lk, w) => delete lk w
  | Throw e (lk, w) => (_ ← delete lk; throw e) w
  | Undef => Undef
  | Diverge => Diverge
  end.

Lemma wp_within lk body delete (Q : unit -> world -> Prop) E w :
  wp body (fun _ st => wp (delete (fst st)) Q E (snd st))
    (fun e st => wp (delete (fst st)) (fun _ w => E e w) E (snd st)) (lk, w) ->
  wp (within lk body delete) Q E w.
Proof.
  unfold wp, within. destruct (body (lk, w)) as [[] [lk' w']|e [lk' w']| |]; simpl; try done.
  unfold mbind, M_bind. by destruct (delete lk' w') as [[]| | |].
Qed.

Definition scope (k : lock_kind) (m : Z) (body : list scope_op) : M world unit :=
  lk ← scoped_new k m;
  within lk (run_scope_ops k body) (scoped_delete k).

Definition lock_request (k : lock_kind) (m : Z) : request :=
  match k with KMutex => MutexLock m | KRead => RwlockRdlock m | KWrite => RwlockWrlock m end.

Definition unlock_request (k : lock_kind) (m : Z) : request :=
  match k with KMutex => MutexUnlock m | KRead | KWrite => RwlockUnlock m end.

(** How often the object is held: successful acquisitions without the releases. *)
Definition lock_delta (k : lock_kind) (m : Z) (ev : event) : Z :=
  match ev with
  | Sys r (SysOk _ _) =>
      (if decide (r = lock_request k m) then 1 else 0) - (if decide (r = unlock_request k m) then 1 else 0)
  | _ => 0
  end.

Definition balance (k : lock_kind) (m : Z) (tr : trace) : Z := foldr (fun ev n => lock_delta k m ev + n) 0 tr.

Lemma balance_app k m tr1 tr2 : balance k m (tr1 ++ tr2) = balance k m tr1 + balance k m tr2.
Proof. induction tr1 as [|ev tr1 IH]; [done|]. simpl. rewrite IH. lia. Qed.

(** pthread_mutex_unlock(3p), pthread_rwlock_unlock(3p): releasing what is held succeeds. *)
Definition releases_held (k : lock_kind) : Prop := forall m tr,
  0 < balance k m tr -> is_err (sys tr (unlock_request k m)) = false.

Lemma lock_request_eq k m m' : lock_request k m = lock_request k m' <-> m = m'.
Proof. destruct k; simpl; (split; [by intros [=]|by intros ->]). Qed.

Lemma unlock_request_eq k m m' : unlock_request k m = unlock_request k m' <-> m = m'.
Proof. destruct k; simpl; (split; [by intros [=]|by intros ->]). Qed.

(** The hold of the scope in a state. *)
Definition held_by (lk : scoped) (m : Z) : Z := if decide (lk = Some m) then 1 else 0.

(** Relative to the start, the scope holds what its lock says. *)
Definition scope_inv (k : lock_kind) (tr0 : trace) (lk : scoped) (tr : trace) : Prop :=
  forall m, balance k m tr = balance k m tr0 + held_by lk m.

Lemma balance_lock k m m' tr n out :
  balance k m' (tr ++ [Sys (lock_request k m) (SysOk n out)]) = balance k m' tr + held_by (Some m) m'.
Proof.
  rewrite balance_app. unfold held_by. simpl.
  repeat case_decide; try (by destruct k); rewrite ?lock_request_eq in *; lia || congruence.
Qed.

Lemma balance_unlock k m m' tr n out :
  balance k m' (tr ++ [Sys (unlock_request k m) (SysOk n out)]) = balance k m' tr - held_by (Some m) m'.
Proof.
  rewrite balance_app. unfold held_by. simpl.
  repeat case_decide; try (by destruct k); rewrite ?unlock_request_eq in *; lia || congruence.
Qed.

Lemma balance_failed k m r e tr : balance k m (tr ++ [Sys r (SysErr e)]) = balance k m tr.
Proof. rewrite balance_app. simpl. lia. Qed.

Lemma acquire_ok k m w :
  wp (acquire k m) (fun _ w' => forall m', balance k m' (w_trace w') = balance k m' (w_trace w) + held_by (Some m) m')
     (fun e w' => (forall m', balance k m' (w_trace w') = balance k m' (w_trace w)) /\ exists c, e = PthreadError c) w.
Proof.
  assert (acquire k m = pthread_call_neg (lock_request k m)) as -> by (by destruct k).
  unfold pthread_call_neg. wp_step. apply wp_syscall. intros [n out|e] _.
  - wp_step. intros m'. apply balance_lock.
  - wp_step. split; [|by eexists]. intros m'. apply balance_failed.
Qed.

Lemma release_ok k m w :
  releases_held k -> 0 < balance k m (w_trace w) ->
  wp (release k m) (fun _ w' => forall m', balance k m' (w_trace w') = balance k m' (w_trace w) - held_by (Some m) m')
     no_exn w.
Proof.
  intros Hok Hpos. assert (release k m = pthread_call_neg (unlock_request k m)) as -> by (by destruct k).
  unfold pthread_call_neg. wp_step. apply wp_syscall. intros a Ha. specialize (Hok m _ Hpos).
  destruct a as [n out|e]; [|by rewrite <-Ha in Hok]. wp_step. intros m'. apply balance_unlock.
Qed.

Lemma held_by_self m : held_by (Some m) m = 1.
Proof. unfold held_by. by rewrite decide_True. Qed.

Section Held.
Variables (k : lock_kind) (tr0 : trace).
Hypothesis Hok : releases_held k.
Hypothesis Hpos : forall m, 0 <= balance k m tr0.

Lemma scoped_unlock_ok (st : scoped * world) :
  scope_inv k tr0 (fst st) (w_trace (snd st)) ->
  wp (scoped_unlock k) (fun _ st' => fst st' = None /\ scope_inv k tr0 None (w_trace (snd st'))) no_exn st.
Proof.
  destruct st as [[m|] w]; intros Hinv; unfold scoped_unlock; wp_step; wp_step; simpl.
  - simpl in Hinv. wp_step. apply wp_zoom. simpl. eapply wp_mono; [..|apply (release_ok k m w Hok)]; [|done|].
    + intros [] w' Hb. unfold set_scope. wp_step. split; [done|]. intros m'. simpl. rewrite (Hb m'), (Hinv m').
      unfold held_by at 3. case_decide; [done|lia].
    + rewrite (Hinv m), held_by_self. specialize (Hpos m). lia.
  - by wp_step.
Qed.

Lemma scope_op_ok op (st : scoped * world) :
  scope_inv k tr0 (fst st) (w_trace (snd st)) ->
  wp (run_scope_op k op) (fun _ st' => scope_inv k tr0 (fst st') (w_trace (snd st')))
     (fun e st' => scope_inv k tr0 (fst st') (w_trace (snd st')) /\ exists c, e = PthreadError c) st.
Proof.
  intros Hinv. destruct op as [|m]; cbn [run_scope_op].
  - eapply wp_mono; [..|by apply scoped_unlock_ok]; [|done]. by intros [] st' [-> H].
  - unfold scoped_relock. wp_step. eapply wp_mono; [..|by apply scoped_unlock_ok]; [|done].
    intros [] [lk w] [Hlk H]. simpl in Hlk. subst lk. simpl in H. wp_step. apply wp_zoom. simpl.
    eapply wp_mono; [..|apply (acquire_ok k m w)].
    + intros [] w' Hb. unfold set_scope. wp_step. intros m'. simpl. rewrite (Hb m'), (H m'). unfold held_by. simpl. lia.
    + intros e w' [Hb Hc]. split; [|done]. intros m'. simpl. by rewrite (Hb m'), (H m').
Qed.

Lemma scope_ops_ok ops (st : scoped * world) :
  scope_inv k tr0 (fst st) (w_trace (snd st)) ->
  wp (run_scope_ops k ops) (fun _ st' => scope_inv k tr0 (fst st') (w_trace (snd st')))
     (fun e st' => scope_inv k tr0 (fst st') (w_trace (snd st')) /\ exists c, e = PthreadError c) st.
Proof.
  revert st. induction ops as [|op ops IH]; intros st Hinv; cbn [run_scope_ops]; [by wp_step|].
  wp_step. eapply wp_mono; [..|by apply scope_op_ok]; [|done]. intros [] st' H. by apply IH.
Qed.

Lemma scoped_delete_ok lk w :
  scope_inv k tr0 lk (w_trace w) ->
  wp (scoped_delete k lk) (fun _ w' => forall m, balance k m (w_trace w') = balance k m tr0) no_exn w.
Proof.
  intros Hinv. destruct lk as [m|]; simpl.
  - eapply wp_mono; [..|apply (release_ok k m w Hok)]; [|done|].
    + intros [] w' Hb m'. rewrite (Hb m'), (Hinv m'). lia.
    + rewrite (Hinv m), held_by_self. specialize (Hpos m). lia.
  - wp_step. intros m. rewrite (Hinv m). unfold held_by. simpl. lia.
Qed.
End Held.

(** A scoped lock is released on every way out of its block: whatever the block
    does with it, and whether the block ends or an acquisition throws, every
    object is held as often afterwards as before. *)
Theorem scoped_lock_balanced (k : lock_kind) (m : Z) (body : list scope_op) (w : world)
    (Hok : releases_held k) (Hpos : forall m', 0 <= balance k m' (w_trace w)) :
  exists w', (scope k m body w = Ret tt w' \/ exists c, scope k m body w = Throw (PthreadError c) w') /\
    forall m', balance k m' (w_trace w') = balance k m' (w_trace w).
Proof.
  assert (wp (scope k m body) (fun _ w' => forall m', balance k m' (w_trace w') = balance k m' (w_trace w))
    (fun e w' => (exists c, e = PthreadError c) /\ forall m', balance k m' (w_trace w') = balance k m' (w_trace w)) w)
    as Hwp.
  { unfold scope, scoped_new. wp_step. wp_step. eapply wp_mono; [..|apply (acquire_ok k m w)].
    - intros [] w1 Hb. wp_step. apply wp_within.
      eapply wp_mono; [..|exact (scope_ops_ok k (w_trace w) Hok Hpos body (Some m, w1) Hb)].
      + intros [] [lk w2] H. by eapply wp_mono; [..|exact (scoped_delete_ok k (w_trace w) Hok Hpos lk w2 H)].
      + intros e [lk w2] [H Hc]. by eapply wp_mono; [..|exact (scoped_delete_ok k (w_trace w) Hok Hpos lk w2 H)].
    - intros e w1 [Hb Hc]. done. }
  unfold wp in Hwp. destruct (scope k m body w) as [[] w'|e w'| |]; [| |done|done]; exists w'.
  - split; [by left|done].
  - destruct Hwp as [[c ->] Hb]. split; [right; by eexists|done].
Qed.

(** The errors of the lock functions arrive negated, unlike those of the threads. *)
Lemma lock_error_negated (m t : Z) (e : errno) (w : world) :
  sys (w_trace w) (MutexLock m) = SysErr e -> sys (w_trace w) (PthreadJoin t) = SysErr e ->
  exists w1 w2, mutex_lock m w = Throw (PthreadError (- errno_code e)) w1 /\
    thread_join t w = Throw (PthreadError (errno_code e)) w2.
Proof.
  intros H1 H2. unfold mutex_lock, thread_join, pthread_call_neg, pthread_call. rewrite !syscall_bind, H1, H2.
  by do 2 eexists.
Qed.
End Scope.

(** ** Witness: the second of two objects cannot be locked *)

Section Witness.
#[local] Instance lock_os : Os := {|
  sys := fun _ r => match r with MutexLock 2 => SysErr EDEADLK | _ => SysOk 0 [] end;
  memcpy_may_overlap := true
|}.

Lemma scoped_lock_balanced_witness :
  let w := World [] [] in
  exists w', (scope KMutex 1 [SRelock 2] w = Ret tt w' \/
              exists c, scope KMutex 1 [SRelock 2] w = Throw (PthreadError c) w') /\
    forall m', balance KMutex m' (w_trace w') = balance KMutex m' (w_trace w).
Proof.
  refine (scoped_lock_balanced KMutex 1 [SRelock 2] (World [] []) _ _).
  - intros m tr _. reflexivity.
  - intros m'. reflexivity.
Defined.
End Witness.
