(* ===== verification/ThreadRun.v ===== *)
(** * The function of a thread (src/mp/pthread.h)

    [pthread_thread::run] hands a copy of the function to the new thread, which
    frees it in [trampoline]: the object is owned by [run] until the thread exists
    and by the thread afterwards.  [f_live] are the copies that exist, [f_cerr] the
    reports on the standard error. *)

From Stdlib Require Import ZArith Lia.
From stdpp Require Import base tactics option list numbers gmap sets.
From S2P Require Import Prelude Os Pthread.

(** The two messages of [trampoline]. *)
Inductive report : Type := InstanceOf (e : exn) | UnknownObject.

(** What is derived from std::exception; what a client throws may be anything. *)
Definition std_exception (e : exn) : bool := match e with UserException => false | _ => true end.

Record heap := Heap { f_live : gset Z; f_cerr : list report }.

Section Thread.
Context {OS : Os}.

Abbreviation tst := (heap * world)%type.

Definition on_os {A} (m : M world A) : M tst A := zoom snd (fun w st => (fst st, w)) m.
Definition set_live (s : gset Z) : M tst unit := modify (fun st => (Heap s (f_cerr (fst st)), snd st)).

(** [new function_t(func)] *)
Definition new_function : M tst Z :=
  ok ← on_os (can_alloc sizeof_function);
  if negb ok then throw BadAlloc else
  st ← get;
  let f := fresh (f_live (fst st)) in
  _ ← set_live ({[f]} ∪ f_live (fst st));
  mret f.

(** The destructor of an auto_ptr that owns [f]; freeing twice is undefined. *)
Definition delete_function (f : Z) : M tst unit :=
  st ← get;
  if bool_decide (f ∈ f_live (fst st)) then set_live (f_live (fst st) ∖ {[f]}) else undef.

(** [pthread_thread::run], which gives the thread and its argument. *)
Definition run_function : M tst (Z * Z) :=
  f ← new_function;
  m_thread ← catch (on_os thread_create) (fun e => _ ← delete_function f; throw e);
  mret (m_thread, f).

(** [std::cerr << ...]; what the stream throws is dropped. *)
Definition print (r : report) : M tst unit := modify (fun st => (Heap (f_live (fst st)) (f_cerr (fst st) ++ [r]), snd st)).

Definition demangled (e : exn) : report := if std_exception e then InstanceOf e else UnknownObject.

(** [trampoline]; the object is freed before the handlers run, and the exception
    leaves the thread. *)
Definition trampoline (func : Z -> M tst unit) (user : Z) : M tst unit :=
  catch (_ ← (catch (func user) (fun e => _ ← delete_function user; throw e)); delete_function user)
        (fun e => _ ← print (demangled e); throw e).

(** A function does not touch the object it is called in. *)
Definition leaves_heap (m : M tst unit) : Prop := forall st,
  wp m (fun _ st' => fst st' = fst st) (fun _ st' => fst st' = fst st) st.

Lemma new_function_ok (st : tst) :
  wp new_function (fun f st' => (f ∉ f_live (fst st)) /\ fst st' = Heap ({[f]} ∪ f_live (fst st)) (f_cerr (fst st)) /\
      w_trace (snd st') = w_trace (snd st))
    (fun e st' => e = BadAlloc /\ fst st' = fst st) st.
Proof.
  destruct st as [h w]. unfold new_function, set_live. wp_step. apply wp_zoom. cbn [snd]. apply wp_can_alloc; [by unfold sizeof_function|].
  destruct (default true _); cbn [negb]; [|by wp_step]. repeat wp_step. split_and!; [apply is_fresh|done|done].
Qed.

Lemma delete_function_ok f (st : tst) :
  f ∈ f_live (fst st) ->
  wp (delete_function f) (fun _ st' => st' = (Heap (f_live (fst st) ∖ {[f]}) (f_cerr (fst st)), snd st)) no_exn st.
Proof. intros Hf. unfold delete_function, set_live. wp_step. wp_step. rewrite bool_decide_true by done. by wp_step. Qed.

(** [run] gives the copy to the thread, or throws and leaves nothing behind. *)
Lemma run_function_ok (st : tst) :
  wp run_function
    (fun r st' => (snd r ∉ f_live (fst st)) /\ fst st' = Heap ({[snd r]} ∪ f_live (fst st)) (f_cerr (fst st)))
    (fun e st' => fst st' = fst st /\ (e = BadAlloc \/ exists c, e = PthreadError c)) st.
Proof.
  unfold run_function. wp_step. eapply wp_mono; [..|exact (new_function_ok st)].
  2:{ intros e st' [-> ->]. split; [done|by left]. }
  intros f [h w] (Hf & Hh & _). cbn [fst snd] in *. subst h. wp_step. apply wp_catch, wp_zoom. cbn [fst snd].
  unfold thread_create, pthread_call. wp_step. apply wp_syscall. intros [n out|c] _; wp_step; [by wp_step|].
  wp_step. eapply wp_mono; [..|apply delete_function_ok; cbn [fst f_live]; set_solver]; [|done].
  intros [] st' ->. wp_step. cbn [fst snd f_live f_cerr]. split; [|right; by eexists].
  destruct st as [[live cerr] w0]; cbn [fst f_live f_cerr] in *. f_equal. set_solver.
Qed.

(** The thread frees its copy once on every way out; what its function throws is
    reported once and leaves the thread. *)
Lemma trampoline_ok func f (st : tst) :
  leaves_heap (func f) -> f ∈ f_live (fst st) ->
  wp (trampoline func f)
    (fun _ st' => fst st' = Heap (f_live (fst st) ∖ {[f]}) (f_cerr (fst st)))
    (fun e st' => fst st' = Heap (f_live (fst st) ∖ {[f]}) (f_cerr (fst st) ++ [demangled e]) /\
       exists st1, func f st = Throw e st1) st.
Proof.
  intros Hfunc Hf. unfold trampoline, print. specialize (Hfunc st).
  assert (wp (func f) (fun _ st' => fst st' = fst st) (fun e st' => fst st' = fst st /\ func f st = Throw e st') st) as Hrun.
  { unfold wp in *. destruct (func f st); auto. }
  apply wp_catch. wp_step. apply wp_catch. eapply wp_mono; [..|exact Hrun].
  - intros [] st' Hst'. eapply wp_mono; [..|apply delete_function_ok; by rewrite Hst']; [|done].
    intros [] st2 ->. cbn [fst]. by rewrite Hst'.
  - intros e st' [Hst' Hthrow]. wp_step. eapply wp_mono; [..|apply delete_function_ok; by rewrite Hst']; [|done].
    intros [] st2 ->. wp_step. wp_step. wp_step. wp_step. cbn [fst snd f_live f_cerr]. rewrite Hst'. split; [done|by eexists].
Qed.

(** A thread from [run] to its end: nothing is left behind. *)
Lemma thread_frees_function func (st : tst) :
  (forall f, leaves_heap (func f)) ->
  wp (r ← run_function; trampoline func (snd r))
    (fun _ st' => fst st' = fst st)
    (fun e st' => f_live (fst st') = f_live (fst st)) st.
Proof.
  intros Hfunc. wp_step. eapply wp_mono; [..|exact (run_function_ok st)].
  2:{ by intros e st' [-> _]. }
  intros [t f] [h w] [Hf Hh]. cbn [fst snd] in *. subst h.
  eapply wp_mono; [..|apply trampoline_ok; [by apply Hfunc|cbn [fst f_live]; set_solver]];
    destruct st as [[live cerr] w0]; cbn [fst f_live f_cerr] in *.
  - intros [] st' ->. f_equal. set_solver.
  - intros e st' [-> _]. cbn [f_live]. set_solver.
Qed.

(** The object is the same as far as the trace and the outcome of [run] go. *)
Lemma run_function_runs (st : tst) :
  match run_function st, thread_run (snd st) with
  | Ret (t, _) st', Ret t' w' => t = t' /\ snd st' = w'
  | Throw e st', Throw e' w' => e = e' /\ snd st' = w'
  | _, _ => False
  end.
Proof.
  pose proof (run_function_ok st) as H. destruct st as [h w]. revert H.
  unfold run_function, thread_run, new_function, thread_create, pthread_call, on_os, zoom, set_live, delete_function, catch, wp, mbind, M_bind.
  cbn [fst snd]. destruct (can_alloc sizeof_function w) as [[] w1|e w1| |]; cbn; try done.
  destruct (sys (w_trace w1) PthreadCreate) as [n out|e]; cbn; [done|].
  rewrite bool_decide_true by set_solver. done.
Qed.
End Thread.
