(* ===== verification/Sync.v ===== *)
(** * Objects guarded by a mutex (src/mp/sync.hmpl)

    A [sync<T>] is an object with a mutex; a [ref] locks the mutex, gives access to
    the object, and unlocks it when it is reset or destroyed.  The model knows a
    [sync] by the number of its mutex.  [sync_step] interleaves the operations on
    the refs of any number of threads; the second part runs the threads of
    src/test/sync.cc. *)

From Stdlib Require Import ZArith Lia.
From stdpp Require Import base tactics option list numbers relations.
From S2P Require Import Prelude Os Pthread.

(** [m_ref]: NULL or the object. *)
Abbreviation ref := (option Z).

Section Sync.
Context {OS : Os}.

Definition sync_new (obj : Z) : M world unit := mutex_new obj None.
Definition sync_delete (obj : Z) : M world unit := mutex_delete obj.

Definition ref_empty : ref := None.

Definition ref_new (obj : Z) : M world ref := _ ← mutex_lock obj; mret (Some obj).

Definition ref_reset : M (ref * world) unit :=
  st ← get;
  match fst st with
  | Some obj => _ ← on_scope_world (mutex_unlock obj); set_scope None
  | None => mret tt
  end.

Definition ref_delete (r : ref) : M world unit := zoom (pair r) (fun st _ => snd st) ref_reset.

Definition ref_reset_to (obj : Z) : M (ref * world) unit :=
  _ ← ref_reset; _ ← on_scope_world (mutex_lock obj); set_scope (Some obj).

(** [operator*]: through NULL it is undefined. *)
Definition ref_deref (r : ref) : M world Z := match r with Some obj => mret obj | None => undef end.

Definition ref_bool (r : ref) : bool := match r with Some _ => true | None => false end.

Definition ref_get_mutex (r : ref) : M world Z := ref_deref r.

(** [auto_ref(auto_ref& o)]: the new ref, and what is left of [o]. *)
Definition auto_ref_copy (o : ref) : ref * ref := (o, None).

Definition sync_lock (obj : Z) : M world ref := ref_new obj.
End Sync.

(** ** The refs of all threads *)

(** pthread_mutex_lock(3p): a mutex that is held is not given to anyone; what is
    held can be released. *)
Class MutexSpec (OS : Os) : Prop := {
  mutex_lock_free tr m n out : sys tr (MutexLock m) = SysOk n out -> balance KMutex m tr <= 0;
  mutex_unlock_held : releases_held KMutex
}.

Definition is_ref (obj : Z) (r : ref) : bool := bool_decide (r = Some obj).

Section Steps.
Context {OS : Os}.

(** One operation of one thread.  [reset(obj)] is a reset and a construction. *)
Inductive sync_step : list ref * world -> list ref * world -> Prop :=
| StepNew refs w i obj r w' :
    refs !! i = Some None -> ref_new obj w = Ret r w' -> sync_step (refs, w) (<[i := r]> refs, w')
| StepNewFails refs w i obj e w' :
    refs !! i = Some None -> ref_new obj w = Throw e w' -> sync_step (refs, w) (refs, w')
| StepReset refs w i r r' w' :
    refs !! i = Some r -> ref_reset (r, w) = Ret tt (r', w') -> sync_step (refs, w) (<[i := r']> refs, w')
| StepResetFails refs w i r e r' w' :
    refs !! i = Some r -> ref_reset (r, w) = Throw e (r', w') -> sync_step (refs, w) (<[i := r']> refs, w')
| StepCopy refs w i j o :
    refs !! i = Some None -> refs !! j = Some o -> i <> j ->
    sync_step (refs, w) (<[i := fst (auto_ref_copy o)]> (<[j := snd (auto_ref_copy o)]> refs), w).

(** A reset, computed. *)
Lemma ref_reset_run r w :
  ref_reset (r, w) =
    match r with
    | None => Ret tt (None, w)
    | Some obj =>
        match mutex_unlock obj w with
        | Ret _ w' => Ret tt (None, w')
        | Throw e w' => Throw e (r, w')
        | Undef => Undef
        | Diverge => Diverge
        end
    end.
Proof. destruct r as [obj|]; [|done]. cbv -[mutex_unlock]. by destruct (mutex_unlock obj w). Qed.

Lemma ref_reset_null r w r' w' : ref_reset (r, w) = Ret tt (r', w') -> r' = None.
Proof. rewrite ref_reset_run. destruct r as [obj|]; [|congruence]. destruct (mutex_unlock obj w); congruence. Qed.

Lemma ref_reset_to_steps refs w i r obj r' w' :
  refs !! i = Some r -> ref_reset_to obj (r, w) = Ret tt (r', w') -> rtc sync_step (refs, w) (<[i := r']> refs, w').
Proof.
  intros Hi. unfold ref_reset_to. unfold mbind at 1, M_bind. destruct (ref_reset (r, w)) as [[] [r1 w1]| | |] eqn:H1; try done.
  intros H2. eapply rtc_l; [by eapply StepReset|]. apply rtc_once. apply ref_reset_null in H1 as ->.
  assert (ref_new obj w1 = Ret r' w') as Hnew.
  { revert H2. cbv -[mutex_lock]. destruct (mutex_lock obj w1); congruence. }
  assert (<[i := r']> refs = <[i := r']> (<[i := None]> refs)) as -> by (by rewrite list_insert_insert_eq). eapply StepNew; [|done].
  apply list_lookup_insert_eq. by eapply lookup_lt_Some.
Qed.

(** [sync_inv]: a mutex is held as often as refs point to it, and at most one does. *)
Definition sync_inv (st : list ref * world) : Prop := forall obj,
  balance KMutex obj (w_trace (snd st)) = countb (is_ref obj) (fst st) /\ countb (is_ref obj) (fst st) <= 1.
End Steps.


Section Exclusive.
Context {OS : Os} {Spec : MutexSpec OS}.

Lemma is_ref_spec obj r : is_ref obj r = true <-> r = Some obj.
Proof. apply bool_decide_eq_true. Qed.

Lemma held_by_is_ref obj r : held_by r obj = if is_ref obj r then 1 else 0.
Proof. unfold held_by, is_ref. case_decide; case_bool_decide; congruence. Qed.

Lemma sync_inv_new refs w i obj :
  sync_inv (refs, w) -> refs !! i = Some None ->
  wp (ref_new obj) (fun r w' => r = Some obj /\ sync_inv (<[i := r]> refs, w'))
    (fun e w' => (exists c, e = PthreadError c) /\ sync_inv (refs, w')) w.
Proof.
  intros Hinv Hi. unfold ref_new, mutex_lock, pthread_call_neg. repeat wp_step. apply wp_syscall. intros a Ha. symmetry in Ha.
  destruct a as [n out|e]; repeat wp_step.
  - split; [done|]. intros o. destruct (Hinv o) as [Hb Hc]. simpl in *. change (MutexLock obj) with (lock_request KMutex obj).
    rewrite balance_lock, (countb_insert _ _ i None) by done. rewrite held_by_is_ref. cbn [is_ref].
    assert (is_ref o None = false) as -> by done.
    destruct (is_ref o (Some obj)) eqn:Ho; [|lia]. apply is_ref_spec in Ho as [= <-].
    pose proof (mutex_lock_free _ _ _ _ Ha). pose proof (countb_range (is_ref obj) refs). lia.
  - split; [by eexists|]. intros o. simpl. rewrite balance_failed. apply Hinv.
Qed.

Lemma sync_inv_reset refs w i r :
  sync_inv (refs, w) -> refs !! i = Some r ->
  wp ref_reset (fun _ st => fst st = None /\ sync_inv (<[i := None]> refs, snd st)) no_exn (r, w).
Proof.
  intros Hinv Hi. unfold wp. rewrite ref_reset_run. destruct r as [obj|]; [|by rewrite list_insert_id].
  destruct (Hinv obj) as [Hb Hc]. simpl in Hb, Hc.
  assert (0 < balance KMutex obj (w_trace w)) as Hpos.
  { rewrite Hb. apply (countb_pos _ _ (Some obj)); [by eapply list_elem_of_lookup_2|]. by apply is_ref_spec. }
  pose proof (release_ok KMutex obj w mutex_unlock_held Hpos) as Hrel. unfold wp in Hrel. cbn [release] in Hrel.
  destruct (mutex_unlock obj w) as [[] w'| | |]; [|done..]. split; [done|]. intros o. destruct (Hinv o) as [Hb' Hc']. simpl in *.
  rewrite Hrel, (countb_insert _ _ i (Some obj)), held_by_is_ref by done.
  assert (is_ref o None = false) as -> by done. destruct (is_ref o (Some obj)); lia.
Qed.

Lemma sync_inv_reset_to refs w i r obj :
  sync_inv (refs, w) -> refs !! i = Some r ->
  wp (ref_reset_to obj) (fun _ st => fst st = Some obj /\ sync_inv (<[i := Some obj]> refs, snd st))
    (fun e st => (exists c, e = PthreadError c) /\ fst st = None /\ sync_inv (<[i := None]> refs, snd st)) (r, w).
Proof.
  intros Hinv Hi. unfold ref_reset_to. wp_step. eapply wp_mono; [..|by apply (sync_inv_reset refs w i r)]; [|done].
  intros [] [r' w'] [Hr Hinv']. simpl in Hr, Hinv'. subst r'. wp_step. apply wp_zoom.
  assert (<[i := None]> refs !! i = Some None) as Hi' by (apply list_lookup_insert_eq; by eapply lookup_lt_Some).
  pose proof (sync_inv_new _ w' i obj Hinv' Hi') as H. unfold ref_new, wp, mbind, M_bind in H. unfold wp. cbn [fst snd].
  destruct (mutex_lock obj w') as [[] w2|e w2| |]; [|by destruct H|done..].
  destruct H as [_ H]. cbn [mret M_ret] in H. rewrite list_insert_insert_eq in H. by split.
Qed.

Lemma sync_inv_copy refs w i j o :
  sync_inv (refs, w) -> refs !! i = Some None -> refs !! j = Some o -> i <> j ->
  sync_inv (<[i := o]> (<[j := None]> refs), w).
Proof.
  intros Hinv Hi Hj Hne obj. destruct (Hinv obj) as [Hb Hc]. simpl in *.
  rewrite (countb_insert _ _ i None) by (by rewrite list_lookup_insert_ne).
  rewrite (countb_insert _ _ j o) by done. assert (is_ref obj None = false) as -> by done. lia.
Qed.

Lemma sync_step_inv st st' : sync_step st st' -> sync_inv st -> sync_inv st'.
Proof.
  destruct 1 as [refs w i obj r w' Hi Hr|refs w i obj e w' Hi Hr|refs w i r r' w' Hi Hr|refs w i r e r' w' Hi Hr|refs w i j o Hi Hj Hne];
    intros Hinv.
  - pose proof (sync_inv_new refs w i obj Hinv Hi) as H. unfold wp in H. rewrite Hr in H. apply H.
  - pose proof (sync_inv_new refs w i obj Hinv Hi) as H. unfold wp in H. rewrite Hr in H. apply H.
  - pose proof (sync_inv_reset refs w i r Hinv Hi) as H. unfold wp in H. rewrite Hr in H. destruct H as [H1 H2].
    simpl in *. by subst.
  - pose proof (sync_inv_reset refs w i r Hinv Hi) as H. unfold wp in H. by rewrite Hr in H.
  - by apply sync_inv_copy.
Qed.

Lemma sync_steps_inv st st' : rtc sync_step st st' -> sync_inv st -> sync_inv st'.
Proof. induction 1; [done|]. eauto using sync_step_inv. Qed.

Lemma sync_inv_init n w : (forall obj, balance KMutex obj (w_trace w) = 0) -> sync_inv (replicate n None, w).
Proof.
  intros H0 obj. simpl. rewrite H0. assert (countb (is_ref obj) (replicate n (None : ref)) = 0) as ->; [|lia].
  by apply countb_none, Forall_replicate.
Qed.

Lemma sync_inv_exclusive refs w i j obj :
  sync_inv (refs, w) -> refs !! i = Some (Some obj) -> refs !! j = Some (Some obj) -> i = j.
Proof.
  intros Hinv Hi Hj. destruct (Hinv obj) as [_ Hc]. apply (countb_two (is_ref obj) refs i j (Some obj) (Some obj)); try done;
    by apply is_ref_spec.
Qed.

(** C35. Whatever operations the threads make on their refs, and in whatever order,
    at most one ref refers to an object, its mutex is held once then and not at
    all otherwise, and giving a ref back cannot fail. *)
Theorem sync_exclusive (n : nat) (w : world) (refs : list ref) (w' : world) :
  (forall obj, balance KMutex obj (w_trace w) = 0) ->
  rtc sync_step (replicate n None, w) (refs, w') ->
  (forall i j obj, refs !! i = Some (Some obj) -> refs !! j = Some (Some obj) -> i = j) /\
  (forall obj, balance KMutex obj (w_trace w') = if bool_decide (Some obj ∈ refs) then 1 else 0) /\
  (forall i r, refs !! i = Some r -> wp (ref_delete r) (fun _ _ => True) no_exn w').
Proof.
  intros H0 Hreach. assert (sync_inv (refs, w')) as Hinv by (by eapply sync_steps_inv, sync_inv_init).
  split_and!.
  - intros i j obj. by apply sync_inv_exclusive with w'.
  - intros obj. destruct (Hinv obj) as [Hb Hc]. simpl in *. rewrite Hb. case_bool_decide as Hin.
    + pose proof (countb_pos (is_ref obj) refs (Some obj) Hin (proj2 (is_ref_spec _ _) eq_refl)). lia.
    + apply countb_none, Forall_forall. intros r Hr. destruct (is_ref obj r) eqn:He; [|done].
      apply is_ref_spec in He as ->. done.
  - intros i r Hi. unfold ref_delete. apply wp_zoom. simpl. eapply wp_mono; [..|by apply (sync_inv_reset refs w' i r)]; done.
Qed.
End Exclusive.

(** ** On a concrete environment

    A mutex that is held answers with an error, for which a thread waits. *)
Definition mutex_os : Os := {|
  sys := fun tr r =>
    match r with
    | MutexLock m => if balance KMutex m tr <=? 0 then SysOk 0 [] else SysErr EBUSY
    | _ => SysOk 0 []
    end;
  memcpy_may_overlap := true
|}.

#[export] Instance mutex_os_spec : MutexSpec mutex_os.
Proof. split; [|done]. intros *. cbn. destruct (Z.leb_spec (balance KMutex m tr) 0); done. Qed.

Definition two_world : world := World [Sys (MutexLock 1) (SysOk 0 []); Sys (MutexLock 1) (SysErr EBUSY)] [].

Lemma two_steps : rtc (sync_step (OS := mutex_os)) (replicate 3 None, World [] []) ([None; None; Some 1], two_world).
Proof.
  eapply rtc_l; [by eapply (StepNew (OS := mutex_os) _ _ 0 1)|]. eapply rtc_l; [by eapply (StepNewFails (OS := mutex_os) _ _ 1 1)|].
  eapply rtc_l; [by eapply (StepCopy (OS := mutex_os) _ _ 2 0)|]. done.
Qed.

(** The first takes the lock, the second is refused it, and the third ref is given it. *)
Lemma sync_exclusive_witness :
  (forall i j obj, [None; None; Some 1] !! i = Some (Some obj) -> [None; None; Some 1] !! j = Some (Some obj) -> i = j) /\
  (forall obj, balance KMutex obj (w_trace two_world) = if bool_decide (Some obj ∈ [None; None; Some 1]) then 1 else 0) /\
  (forall i r, [None; None; Some 1] !! i = Some r -> wp (ref_delete (OS := mutex_os) r) (fun _ _ => True) no_exn two_world).
Proof. apply (sync_exclusive (OS := mutex_os) 3 (World [] [])); [done|apply two_steps]. Defined.
