(* ===== verification/SyncTest.v ===== *)
(** * Threads that share an object (src/test/sync.cc)

    Every thread, twenty times, locks the object, adds one to [num1], subtracts one
    from it, and prints the sum of the two numbers.  A read and a write of a volatile member
    are steps of their own, and the steps of the threads interleave. *)

From Stdlib Require Import ZArith Lia.
From stdpp Require Import base tactics option list numbers relations.
From S2P Require Import Prelude Os Pthread Sync.

Record test : Type := Test { num1 : Z; num2 : Z }.

(** Where a thread is in the body of the loop, with the value it has read. *)
Inductive point : Type :=
| PLock | PInc | PIncStore (v : Z) | PDec | PDecStore (v : Z) | PSum | PPrint (v : Z) | PUnlock | PDone.

Record thread : Type := Thread { t_i : Z; t_at : point }.

(** The result of an [int] addition. *)
Definition int_add {S} (x y : Z) : M S Z :=
  if (- 2 ^ 31 <=? x + y) && (x + y <? 2 ^ 31) then mret (x + y) else undef.

Section SyncTest.
Context {OS : Os}.
Variable obj : Z.

(** The next step of a thread with its [ref]: what it is then, its [ref], the
    object, and what it printed. *)
Definition thread_main (th : thread) (r : ref) (x : test) : M world (thread * ref * test * list Z) :=
  let i := t_i th in
  match t_at th with
  | PLock =>
      if i <? 20 then r' ← ref_new obj; mret (Thread i PInc, r', x, [])
      else mret (Thread i PDone, r, x, [])
  | PInc => _ ← ref_deref r; mret (Thread i (PIncStore (num1 x)), r, x, [])
  | PIncStore v => _ ← ref_deref r; v' ← int_add v 1; mret (Thread i PDec, r, Test v' (num2 x), [])
  | PDec => _ ← ref_deref r; mret (Thread i (PDecStore (num1 x)), r, x, [])
  | PDecStore v => _ ← ref_deref r; v' ← int_add v (-1); mret (Thread i PSum, r, Test v' (num2 x), [])
  | PSum => _ ← ref_deref r; mret (Thread i (PPrint (num1 x)), r, x, [])
  | PPrint v => _ ← ref_deref r; s ← int_add v (num2 x); mret (Thread i PUnlock, r, x, [s])
  | PUnlock => _ ← ref_delete r; mret (Thread (i + 1) PLock, None, x, [])
  | PDone => mret (th, r, x, [])
  end.

Record conf : Type := Conf {
  c_threads : list thread;
  c_refs : list ref;
  c_obj : test;
  c_out : list Z;
  c_world : world
}.

Inductive test_step : conf -> conf -> Prop :=
| TestStep ths refs x out w k th r th' r' x' o w' :
    ths !! k = Some th -> refs !! k = Some r -> thread_main th r x w = Ret (th', r', x', o) w' ->
    test_step (Conf ths refs x out w) (Conf (<[k := th']> ths) (<[k := r']> refs) x' (out ++ o) w').

(** [main] starts [n] threads. *)
Definition test_main (n : nat) (x : test) (w : world) : conf :=
  Conf (replicate n (Thread 0 PLock)) (replicate n None) x [] w.

(** ** The invariant *)

Definition inside (p : point) : bool := match p with PLock | PDone => false | _ => true end.

(** [num1] while a thread is at the point, from [a] at first, and the value it read. *)
Definition num1_at (a : Z) (p : point) : Z := match p with PDec | PDecStore _ => a + 1 | _ => a end.

Definition read_ok (a : Z) (p : point) : Prop :=
  match p with PIncStore v | PPrint v => v = a | PDecStore v => v = a + 1 | _ => True end.

Record thread_ok (a : Z) (x : test) (th : thread) (r : ref) : Prop := {
  ok_i : 0 <= t_i th <= 20;
  ok_ref : r = if inside (t_at th) then Some obj else None;
  ok_inside : inside (t_at th) = true -> t_i th < 20 /\ num1 x = num1_at a (t_at th);
  ok_read : read_ok a (t_at th);
  ok_done : t_at th = PDone -> t_i th = 20
}.

(** How often it has printed. *)
Definition printed (th : thread) : Z := t_i th + match t_at th with PUnlock => 1 | _ => 0 end.

Definition total (ths : list thread) : Z := foldr (fun th s => printed th + s) 0 ths.

Lemma total_insert ths k th th' :
  ths !! k = Some th -> total (<[k := th']> ths) = total ths - printed th + printed th'.
Proof.
  revert k. induction ths as [|t ths IH]; intros [|k] Hk; simpl in *; [done..| |].
  - injection Hk as ->. lia.
  - rewrite (IH k Hk). lia.
Qed.

Record test_inv (a b : Z) (c : conf) : Prop := {
  ti_sync : sync_inv (c_refs c, c_world c);
  ti_threads : Forall2 (thread_ok a (c_obj c)) (c_threads c) (c_refs c);
  ti_num2 : num2 (c_obj c) = b;
  ti_num1 : (Some obj ∉ c_refs c) -> num1 (c_obj c) = a;
  ti_out : Forall (eq (a + b)) (c_out c);
  ti_count : zlen (c_out c) = total (c_threads c)
}.

Section Proof.
Context {Spec : MutexSpec OS}.
Variables (a b : Z).
Hypothesis Ha : - 2 ^ 31 <= a < 2 ^ 31 - 1.
Hypothesis Hab : - 2 ^ 31 <= a + b < 2 ^ 31.

Lemma thread_ok_outside x x' th r : thread_ok a x th r -> r <> Some obj -> thread_ok a x' th r.
Proof. intros [? Hr ? ? ?] Hne. destruct (inside (t_at th)) eqn:Hin; [congruence|]. split; rewrite ?Hin; done. Qed.

Lemma sync_inv_same refs w k r : sync_inv (refs, w) -> refs !! k = Some r -> sync_inv (<[k := r]> refs, w).
Proof. intros. by rewrite list_insert_id. Qed.

Lemma test_inv_update ths refs x out w k th r th' r' x' o w' :
  test_inv a b (Conf ths refs x out w) -> ths !! k = Some th -> refs !! k = Some r ->
  sync_inv (<[k := r']> refs, w') -> thread_ok a x' th' r' -> (x' = x \/ r = Some obj) -> num2 x' = b ->
  ((Some obj ∉ <[k := r']> refs) -> num1 x' = a) -> Forall (eq (a + b)) o -> zlen o = printed th' - printed th ->
  test_inv a b (Conf (<[k := th']> ths) (<[k := r']> refs) x' (out ++ o) w').
Proof.
  intros [Hs Hths H2 H1 Hout Hn] Hk Hr Hs' Hok Hx H2' H1' Ho Hlen. simpl in *. split; simpl; [done| |done|done| |].
  - apply Forall2_same_length_lookup in Hths as [Hl Hths]. apply Forall2_same_length_lookup. split; [by rewrite !length_insert|].
    intros j tj rj. destruct (decide (j = k)) as [->|Hne].
    + rewrite !list_lookup_insert_eq by (by eapply lookup_lt_Some). by intros [= <-] [= <-].
    + rewrite !list_lookup_insert_ne by done. intros Htj Hrj. destruct Hx as [-> | ->]; [by eapply Hths|].
      apply thread_ok_outside with x; [by eapply Hths|]. intros ->. by apply Hne, (sync_inv_exclusive refs w j k obj).
  - by apply Forall_app.
  - rewrite length_app, (total_insert _ _ th) by done. lia.
Qed.

Lemma wp_int_add {S} (y z : Z) (Q : Z -> S -> Prop) E s :
  - 2 ^ 31 <= y + z < 2 ^ 31 -> Q (y + z) s -> wp (int_add y z) Q E s.
Proof. intros Hr HQ. unfold int_add. destruct (Z.leb_spec (- 2 ^ 31) (y + z)), (Z.ltb_spec (y + z) (2 ^ 31)); try lia. done. Qed.

Lemma still_held (refs : list ref) k (r : ref) (P : Prop) :
  refs !! k = Some r -> (Some obj ∉ <[k := Some obj]> refs) -> P.
Proof. intros Hk []. eapply list_elem_of_lookup_2, list_lookup_insert_eq. by eapply lookup_lt_Some. Qed.

(** A step of a thread that keeps its ref, or gives it back. *)
Ltac holding :=
  unfold ref_deref; repeat wp_step; eapply test_inv_update; [done|done|done
  |first [done|by apply sync_inv_same]
  |split; cbn in *; try done; try lia; by intros _; split; lia
  |first [by left|by right]
  |cbn in *; lia
  |first [by eapply still_held|by intros _]
  |first [by constructor|constructor; [lia|done]]
  |unfold printed; cbn; lia].

Lemma thread_main_inv ths refs x out w k th r :
  test_inv a b (Conf ths refs x out w) -> ths !! k = Some th -> refs !! k = Some r ->
  wp (thread_main th r x)
    (fun '(th', r', x', o) w' => test_inv a b (Conf (<[k := th']> ths) (<[k := r']> refs) x' (out ++ o) w'))
    (fun e _ => (exists c, e = PthreadError c) /\ t_at th = PLock) w.
Proof.
  intros Hinv Hk Hr. pose proof (ti_sync _ _ _ Hinv) as Hs. pose proof (ti_num2 _ _ _ Hinv) as H2. simpl in Hs, H2.
  destruct (Forall2_lookup_lr _ _ _ _ _ _ (ti_threads _ _ _ Hinv) Hk Hr) as [Hi Href Hin Hread Hdone].
  destruct th as [i p]. unfold thread_main. cbn [t_i t_at c_obj] in *.
  destruct p; cbn [inside] in Href; subst r; cbn [inside num1_at read_ok] in Hin, Hread; try destruct (Hin eq_refl) as [Hi' H1].
  - destruct (Z.ltb_spec i 20) as [Hlt|]; repeat wp_step.
    + eapply wp_mono; [..|by apply (sync_inv_new refs w k obj)]; [|by intros e w' [? _]].
      intros r' w' [-> Hs']. repeat wp_step. eapply test_inv_update; try done; [|by left| |unfold printed; cbn; lia].
      * split; cbn; try done; try lia. intros _. split; [done|]. apply (ti_num1 _ _ _ Hinv). simpl. intros Hel.
        apply list_elem_of_lookup_1 in Hel as [j Hj].
        assert (j = k) as ->; [|congruence].
        apply (sync_inv_exclusive (<[k := Some obj]> refs) w' j k obj); [done| |apply list_lookup_insert_eq; by eapply lookup_lt_Some].
        rewrite list_lookup_insert_ne; [done|congruence].
      * by eapply still_held.
    + eapply test_inv_update; try done; [by apply sync_inv_same| |by left| |by unfold printed; simpl; lia].
      * split; cbn; try done; lia.
      * rewrite list_insert_id by done. apply (ti_num1 _ _ _ Hinv).
  - holding. 
  - subst v. wp_step. unfold ref_deref. wp_step. wp_step. apply wp_int_add; [lia|]. wp_step. holding.
  - holding.
  - subst v. wp_step. unfold ref_deref. wp_step. wp_step. apply wp_int_add; [lia|]. wp_step. holding.
  - holding.
  - subst v. wp_step. unfold ref_deref. wp_step. wp_step. apply wp_int_add; [lia|]. wp_step. holding.
  - wp_step. unfold ref_delete. apply wp_zoom. eapply wp_mono; [..|by apply (sync_inv_reset refs w k (Some obj))]; [|done].
    intros [] [r' w'] [Hnull Hs']. simpl in Hnull, Hs'. subst r'. wp_step. holding.
  - wp_step. rewrite !list_insert_id, app_nil_r by done. done.
Qed.

Lemma test_step_inv c c' : test_step c c' -> test_inv a b c -> test_inv a b c'.
Proof.
  destruct 1 as [ths refs x out w k th r th' r' x' o w' Hk Hr Hrun]. intros Hinv.
  pose proof (thread_main_inv _ _ _ _ _ _ _ _ Hinv Hk Hr) as H. unfold wp in H. by rewrite Hrun in H.
Qed.

Lemma test_steps_inv c c' : rtc test_step c c' -> test_inv a b c -> test_inv a b c'.
Proof. induction 1; [done|]. eauto using test_step_inv. Qed.

Lemma test_main_inv n w : (forall m, balance KMutex m (w_trace w) = 0) -> test_inv a b (test_main n (Test a b) w).
Proof.
  intros H0. split; simpl; [by apply sync_inv_init| |done..|].
  - apply Forall2_replicate. by split.
  - induction n; [done|]. simpl. unfold printed at 1. simpl. lia.
Qed.

Lemma total_done ths : Forall (fun th => t_i th = 20 /\ t_at th = PDone) ths -> total ths = 20 * zlen ths.
Proof.
  induction 1 as [|th ths [Hi Hp] _ IH]; [done|]. cbn [total foldr length] in *. fold (total ths).
  unfold printed. rewrite Hi, Hp, IH. lia.
Qed.
End Proof.

Lemma test_step_length c c' : test_step c c' -> length (c_threads c') = length (c_threads c).
Proof. destruct 1. simpl. apply length_insert. Qed.

Lemma test_steps_length c c' : rtc test_step c c' -> length (c_threads c') = length (c_threads c).
Proof. induction 1 as [|c1 c2 c3 H12 _ IH]; [done|]. rewrite IH. by apply test_step_length. Qed.

(** C36. However the threads interleave, everything they print is the sum of the
    numbers [main] started with; no step is undefined, and only locking can throw;
    and when all threads have ended, the object is as at first and each of them
    printed twenty times. *)
Theorem sync_test_prints {Spec : MutexSpec OS} (a b : Z) (n : nat) (w : world) (c : conf) :
  - 2 ^ 31 <= a < 2 ^ 31 - 1 -> - 2 ^ 31 <= a + b < 2 ^ 31 ->
  (forall m, balance KMutex m (w_trace w) = 0) ->
  rtc test_step (test_main n (Test a b) w) c ->
  Forall (eq (a + b)) (c_out c) /\
  (forall k th r, c_threads c !! k = Some th -> c_refs c !! k = Some r ->
     wp (thread_main th r (c_obj c)) (fun _ _ => True) (fun e _ => (exists e', e = PthreadError e') /\ t_at th = PLock) (c_world c)) /\
  (Forall (fun th => t_at th = PDone) (c_threads c) -> c_obj c = Test a b /\ zlen (c_out c) = 20 * Z.of_nat n).
Proof.
  intros Ha Hab H0 Hreach. pose proof (test_steps_inv a b Ha Hab _ _ Hreach (test_main_inv a b n w H0)) as Hinv.
  pose proof (test_steps_length _ _ Hreach) as Hlen. simpl in Hlen. rewrite length_replicate in Hlen.
  split_and!; [apply Hinv| |].
  - intros k th r Hk Hr. destruct c as [ths refs x out w']. simpl in *.
    eapply wp_mono; [..|by apply (thread_main_inv a b Ha Hab ths refs x out w' k)]; done.
  - intros Hdone. destruct Hinv as [_ Hths H2 H1 _ Hn]. split.
    + destruct (c_obj c) as [x1 x2]. simpl in *. f_equal; [|done]. apply H1. intros [k Hk]%list_elem_of_lookup_1.
      destruct (Forall2_lookup_r _ _ _ _ _ Hths Hk) as (th & Hth & Hok).
      pose proof (proj1 (Forall_lookup _ _) Hdone _ _ Hth) as Hp. simpl in Hp.
      destruct Hok as [_ Href _ _ _]. rewrite Hp in Href. done.
    + rewrite Hn, total_done; [lia|]. apply Forall_lookup. intros k th Hth.
      destruct (Forall2_lookup_l _ _ _ _ _ Hths Hth) as (r & _ & Hok).
      pose proof (proj1 (Forall_lookup _ _) Hdone _ _ Hth) as Hp. split; [by apply (ok_done _ _ _ _ Hok)|done].
Qed.

(** Running a schedule: a thread that cannot lock waits. *)
Definition turn (k : nat) (c : conf) : conf :=
  match c_threads c !! k, c_refs c !! k with
  | Some th, Some r =>
      match thread_main th r (c_obj c) (c_world c) with
      | Ret (th', r', x', o) w' => Conf (<[k := th']> (c_threads c)) (<[k := r']> (c_refs c)) x' (c_out c ++ o) w'
      | _ => c
      end
  | _, _ => c
  end.

Definition schedule (ks : list nat) (c : conf) : conf := foldl (fun c k => turn k c) c ks.

Lemma schedule_reaches ks c : rtc test_step c (schedule ks c).
Proof.
  revert c. induction ks as [|k ks IH]; intros c; [done|]. simpl. etrans; [|apply IH]. unfold turn.
  destruct (c_threads c !! k) as [th|] eqn:Hth; [|done]. destruct (c_refs c !! k) as [r|] eqn:Hr; [|done].
  destruct (thread_main th r (c_obj c) (c_world c)) as [[[[th' r'] x'] o] w'| | |] eqn:Hrun; [|done..].
  apply rtc_once. destruct c. by eapply TestStep.
Qed.
End SyncTest.

(** ** Four threads, in turns *)

Definition test_end : conf :=
  schedule (OS := mutex_os) 1 (concat (replicate 648 [0; 1; 2; 3]%nat)) (test_main 4 (Test 0 0) (World [] [])).

Lemma sync_test_prints_witness :
  (forallb (fun th => match t_at th with PDone => true | _ => false end) (c_threads test_end) = true) /\
  Forall (eq 0) (c_out test_end) /\
  (Forall (fun th => t_at th = PDone) (c_threads test_end) -> c_obj test_end = Test 0 0 /\ zlen (c_out test_end) = 20 * 4).
Proof.
  split; [by vm_compute|].
  destruct (sync_test_prints (OS := mutex_os) 1 0 0 4 (World [] []) test_end) as (H1 & _ & H2);
    [lia|lia|done|apply schedule_reaches|]. by split.
Defined.
