(* ===== verification/Tls.v ===== *)
(** * Data of every thread (src/mp/tls_set.h)

    A [tls_set] keeps one element per thread, found through a thread-specific key,
    and a list of all elements under a mutex.  An element is known by its address,
    which is also the number of its mutex.  [pthread_scoped_lock_multi] is an array
    of scoped locks.  The functions that go through the elements of all threads
    do not compile and are not modelled, apart from [lock_all]. *)

From Stdlib Require Import ZArith Lia.
From stdpp Require Import base tactics option list numbers gmap fin_maps.
From S2P Require Import Prelude Os Pthread Sync.

(** ** class pthread_scoped_lock_multi: [m_vec] *)

Abbreviation multi := (list (option Z)).

Definition sizeof_scoped_lock : Z := 8.

Section Multi.
Context {OS : Os}.

(** [delete[]] goes from the last lock to the first. *)
Fixpoint delete_locks (m_vec : multi) : M world unit :=
  match m_vec with
  | [] => mret tt
  | lk :: m_vec => _ ← delete_locks m_vec; scoped_delete KMutex lk
  end.

Definition multi_new (size : Z) : M world multi :=
  ok ← can_alloc (8 + sizeof_scoped_lock * size);
  if ok : bool then mret (replicate (Z.to_nat size) scoped_empty) else throw BadAlloc.

Definition multi_delete (m_vec : multi) : M world unit := delete_locks m_vec.

Definition set_locks (m_vec : multi) : M (multi * world) unit := modify (fun st => (m_vec, snd st)).
Definition with_locks {A} (m : M world A) : M (multi * world) A := zoom snd (fun w st => (fst st, w)) m.

Definition multi_reset (size : Z) : M (multi * world) unit :=
  st ← get;
  _ ← with_locks (delete_locks (fst st));
  _ ← set_locks [];
  m_vec ← with_locks (multi_new size);
  set_locks m_vec.

(** [relock(mutex)] of the lock at [index]: out of range it is undefined. *)
Definition multi_relock (index : nat) (mutex : Z) : M (multi * world) unit :=
  st ← get;
  match fst st !! index with
  | Some lk =>
      zoom (fun st => (lk, snd st)) (fun s st => (<[index := fst s]> (fst st), snd s)) (scoped_relock KMutex mutex)
  | None => undef
  end.
End Multi.

(** ** class tls_set

    [T] is a number; [e_data] holds the elements that exist. *)
Record tls_set : Type := TlsSet {
  m_key : Z;
  vec_mutex : Z;
  m_all_vec : list Z;
  e_data : gmap Z Z
}.

Definition sizeof_element : Z := 48.

Section Tls.
Context {OS : Os}.

Abbreviation tst := (tls_set * world)%type.

Definition in_tls_world {A} (m : M world A) : M tst A := zoom snd (fun w st => (fst st, w)) m.
Definition upd_tls (f : tls_set -> tls_set) : M tst unit := modify (fun st => (f (fst st), snd st)).

Definition set_vec (v : list Z) (t : tls_set) : tls_set := TlsSet (m_key t) (vec_mutex t) v (e_data t).
Definition set_data (d : gmap Z Z) (t : tls_set) : tls_set := TlsSet (m_key t) (vec_mutex t) (m_all_vec t) d.

(** The members, then the key; [m_all_vec] is destroyed if the key cannot be made. *)
Definition tls_set_new (mutex : Z) : M world tls_set :=
  _ ← sync_new mutex;
  k ← catch (pthread_call KeyCreate) (fun e => _ ← sync_delete mutex; throw e);
  mret (TlsSet k mutex [] ∅).

(** [new element(data)], at an address [a] that is free. *)
Definition element_new (a data : Z) : M tst Z :=
  ok ← in_tls_world (can_alloc sizeof_element);
  if ok : bool then
    st ← get;
    match e_data (fst st) !! a with
    | Some _ => undef
    | None =>
        _ ← upd_tls (set_data (<[a := data]> (e_data (fst st))));
        _ ← in_tls_world (mutex_new a None);
        mret a
    end
  else throw BadAlloc.

Definition element_delete (e : Z) : M tst unit :=
  _ ← in_tls_world (mutex_delete e);
  upd_tls (fun t => set_data (delete e (e_data t)) t).

(** [init_thread(data)]: the reference to the list, the element, both given back
    when a later step throws. *)
Definition init_thread (a data : Z) : M tst unit :=
  st ← get;
  r ← in_tls_world (ref_new (vec_mutex (fst st)));
  _ ← catch
    (e ← element_new a data;
     catch
       (ok ← in_tls_world (can_alloc (8 * (zlen (m_all_vec (fst st)) + 1)));
        if negb ok then throw BadAlloc else
        _ ← upd_tls (fun t => set_vec (m_all_vec t ++ [e]) t);
        catch (_ ← in_tls_world (pthread_call (KeySet (m_key (fst st)) e)); mret tt)
          (fun x => _ ← upd_tls (fun t => set_vec (removelast (m_all_vec t)) t); throw x))
       (fun x => _ ← element_delete e; throw x))
    (fun x => _ ← in_tls_world (ref_delete r); throw x);
  in_tls_world (ref_delete r).

(** The element of the calling thread; without one its address is NULL. *)
Definition self (t : tls_set) : M world Z :=
  r ← syscall (KeyGet (m_key t));
  match r with
  | SysOk e _ => if bool_decide (is_Some (e_data t !! e)) then mret e else undef
  | SysErr _ => undef
  end.

Definition update_self (data : Z) : M tst unit :=
  st ← get;
  e ← in_tls_world (self (fst st));
  lk ← in_tls_world (scoped_new KMutex e);
  _ ← upd_tls (fun t => set_data (<[e := data]> (e_data t)) t);
  in_tls_world (scoped_delete KMutex lk).

(** [get_self(lk)]: [lk] is left holding the element, to which a reference is returned. *)
Definition get_self (t : tls_set) : M (scoped * world) Z :=
  e ← on_scope_world (self t);
  _ ← scoped_relock KMutex e;
  mret e.

(** [get_self(mlk)]: the locks of [lock_all] are held. *)
Definition get_self_locked (t : tls_set) : M world Z := self t.

(** The loop of [lock_all]. *)
Fixpoint relock_from (i : nat) (vec : list Z) : M (multi * world) unit :=
  match vec with
  | [] => mret tt
  | e :: vec => _ ← multi_relock i e; relock_from (S i) vec
  end.

Definition lock_all (t : tls_set) : M (multi * world) unit :=
  r ← with_locks (ref_new (vec_mutex t));
  _ ← catch (_ ← multi_reset (zlen (m_all_vec t)); relock_from 0 (m_all_vec t))
    (fun x => _ ← with_locks (ref_delete r); throw x);
  with_locks (ref_delete r).

(** ** Properties *)

Context {Spec : MutexSpec OS}.

(** All mutexes are free but those that the locks of the list hold. *)
Abbreviation inv locks w := (sync_inv (locks, w)).

Lemma inv_delete_locks m_vec w locks :
  inv (locks ++ m_vec) w -> wp (delete_locks m_vec) (fun _ w' => inv (locks ++ replicate (length m_vec) None) w') no_exn w.
Proof.
  revert locks w. induction m_vec as [|lk m_vec IH]; intros locks w Hinv; cbn [delete_locks]; [by wp_step|].
  wp_step. eapply wp_mono; [..|apply (IH (locks ++ [lk]))]; [|done|by rewrite <-app_assoc].
  intros [] w' Hinv'. rewrite <-app_assoc in Hinv'. simpl in Hinv'.
  assert ((locks ++ lk :: replicate (length m_vec) None) !! length locks = Some lk) as Hl
    by (by rewrite lookup_app_r, Nat.sub_diag by lia).
  pose proof (sync_inv_reset _ w' _ lk Hinv' Hl) as H. unfold wp in H |- *. rewrite ref_reset_run in H.
  destruct lk as [obj|]; simpl in *.
  - unfold release. destruct (mutex_unlock obj w'); [|done..]. destruct H as [_ H]. rewrite insert_app_r_alt in H by lia.
    by rewrite Nat.sub_diag in H.
  - done.
Qed.

Lemma inv_multi_relock locks m_vec w i lk m :
  inv (locks ++ m_vec) w -> m_vec !! i = Some lk ->
  wp (multi_relock i m) (fun _ st => fst st = <[i := Some m]> m_vec /\ inv (locks ++ fst st) (snd st))
    (fun e st => (exists c, e = PthreadError c) /\ inv (locks ++ fst st) (snd st)) (m_vec, w).
Proof.
  intros Hinv Hi. unfold multi_relock, scoped. wp_step. wp_step. simpl. rewrite Hi. apply wp_zoom. simpl.
  assert ((locks ++ m_vec) !! (length locks + i)%nat = Some lk) as Hi' by (rewrite lookup_app_r by lia; by replace (length locks + i - length locks)%nat with i by lia).
  eapply wp_mono; [..|exact (sync_inv_reset_to _ w _ lk m Hinv Hi')].
  - intros [] [r w'] [Hr H]. simpl in *. subst r. by rewrite insert_app_r in H.
  - intros e [r w'] (He & Hr & H). simpl in *. subst r. by rewrite insert_app_r in H.
Qed.

Lemma inv_relock_from locks vec done w :
  inv (locks ++ (Some <$> done) ++ replicate (length vec) None) w ->
  wp (relock_from (length done) vec)
    (fun _ st => fst st = Some <$> (done ++ vec) /\ inv (locks ++ fst st) (snd st))
    (fun e st => (exists c, e = PthreadError c) /\ inv (locks ++ fst st) (snd st))
    ((Some <$> done) ++ replicate (length vec) None, w).
Proof.
  revert done w. induction vec as [|e vec IH]; intros done w Hinv; cbn [relock_from].
  { wp_step. split; [by rewrite !app_nil_r|done]. }
  wp_step. simpl in Hinv. eapply wp_mono; [..|eapply (inv_multi_relock locks); [exact Hinv|]]; [|done|].
  - intros [] [l1 w1] [Hl Hinv1]. simpl in Hl, Hinv1. subst l1.
    rewrite insert_app_r_alt in Hinv1 |- * by (by rewrite length_fmap). rewrite length_fmap, Nat.sub_diag in Hinv1 |- *.
    specialize (IH (done ++ [e]) w1). rewrite length_app, Nat.add_comm, fmap_app, <-!app_assoc in IH. by apply IH.
  - by rewrite lookup_app_r, length_fmap, Nat.sub_diag by (by rewrite length_fmap).
Qed.

(** What the destructor of the array of locks leaves: nothing is held. *)
Definition all_released (st : multi * world) : Prop :=
  wp (multi_delete (fst st)) (fun _ w' => forall m, balance KMutex m (w_trace w') = 0) no_exn (snd st).

Lemma inv_all_released m_vec w : inv m_vec w -> all_released (m_vec, w).
Proof.
  intros Hinv. unfold all_released. eapply wp_mono; [..|by apply (inv_delete_locks m_vec w [])]; [|done].
  intros [] w' H m. destruct (H m) as [Hb _]. simpl in Hb. rewrite Hb. by apply countb_none, Forall_replicate.
Qed.

Lemma inv_drop_none locks w : inv (None :: locks) w -> inv locks w.
Proof.
  intros Hinv m. destruct (Hinv m) as [Hb Hc]. simpl in *.
  rewrite (countb_app _ [None] locks : countb _ (None :: locks) = _) in Hb, Hc.
  assert (countb (is_ref m) [None] = 0) as Hz by (by apply countb_none; constructor). lia.
Qed.

Lemma inv_cons_none r locks w : inv (r :: locks) w -> wp (ref_delete r) (fun _ w' => inv locks w') no_exn w.
Proof.
  intros Hinv. unfold ref_delete. apply wp_zoom.
  eapply wp_mono; [..|by apply (sync_inv_reset (r :: locks) w 0 r)]; [|done].
  intros [] [r' w'] [_ H]. by apply inv_drop_none.
Qed.

(** What was recorded stays. *)
Lemma ref_delete_keeps r ev w :
  ev ∈ w_trace w -> wp (ref_delete r) (fun _ w' => ev ∈ w_trace w') (fun _ _ => True) w.
Proof.
  intros Hev. unfold ref_delete. apply wp_zoom. unfold wp. rewrite ref_reset_run. destruct r as [obj|]; [|done].
  unfold mutex_unlock, pthread_call_neg, mbind, M_bind, syscall.
  destruct (sys (w_trace w) (MutexUnlock obj)); [|done]. apply elem_of_app. by left.
Qed.

(** [lock_all] on a new array holds the mutex of every element, once each, and no
    other; if it throws, some of them; and the destructor of the array gives all
    of them back in either case. *)
Theorem lock_all_holds (t : tls_set) (w : world) :
  (forall m, balance KMutex m (w_trace w) = 0) ->
  wp (lock_all t)
    (fun _ st => fst st = Some <$> m_all_vec t /\ all_released st /\
       forall m, balance KMutex m (w_trace (snd st)) = if bool_decide (m ∈ m_all_vec t) then 1 else 0)
    (fun e st => (e = BadAlloc \/ exists c, e = PthreadError c) /\ all_released st) ([], w).
Proof.
  intros H0. pose proof (sync_inv_init 1 w H0) as Hinv. unfold lock_all. wp_step. apply wp_zoom. simpl.
  eapply wp_mono; [..|by apply (sync_inv_new _ w 0 (vec_mutex t) Hinv)].
  2:{ intros e w1 [He H1]. split; [by right|]. apply inv_all_released. intros m. destruct (H1 m) as [Hb _].
      simpl in *. rewrite Hb. split; [|done]. by apply countb_none; constructor. }
  intros r w1 [-> H1]. simpl in H1. wp_step. wp_step.
  assert (forall st, inv ([Some (vec_mutex t)] ++ fst st) (snd st) ->
    wp (with_locks (ref_delete (Some (vec_mutex t)))) (fun _ st' => fst st' = fst st /\ inv (fst st') (snd st')) no_exn st) as Hdel.
  { intros [l1 w2] Hl. apply wp_zoom. simpl. eapply wp_mono; [..|by apply (inv_cons_none (Some (vec_mutex t)) l1)]; done. }
  eapply wp_mono with (Q := fun _ st => fst st = Some <$> m_all_vec t /\ inv ([Some (vec_mutex t)] ++ fst st) (snd st))
    (E := fun e st => (e = BadAlloc \/ exists c, e = PthreadError c) /\ inv ([Some (vec_mutex t)] ++ fst st) (snd st)).
  - intros _ st [Hl Hst]. eapply wp_mono; [..|by apply Hdel]; [|done]. intros _ [l2 w2] [Heq Hst2]. simpl in *. subst l2.
    split; [done|]. split; [by apply inv_all_released|]. intros m. destruct (Hst2 m) as [Hb Hc]. simpl in *. rewrite Hb.
    rewrite Hl in *. case_bool_decide as Hm.
    + assert (0 < countb (is_ref m) (Some <$> m_all_vec t)); [|lia].
      apply (countb_pos _ _ (Some m)); [by apply list_elem_of_fmap_2|by apply is_ref_spec].
    + apply countb_none, Forall_fmap, Forall_forall. intros x Hx. apply bool_decide_eq_false. intros [= ->]. done.
  - intros e st [He Hst]. wp_step. eapply wp_mono; [..|by apply Hdel]; [|done]. intros _ [l2 w2] [_ Hst2]. wp_step.
    split; [done|]. by apply inv_all_released.
  - unfold multi_reset, multi_new, set_locks. repeat wp_step. simpl. repeat wp_step. apply wp_zoom. simpl. repeat wp_step.
    apply wp_zoom. simpl. wp_step. apply wp_can_alloc_any. intros [] s _; repeat wp_step; simpl; [|split; [by left|]]; [|exact H1].
    rewrite Nat2Z.id. eapply wp_mono; [..|apply (inv_relock_from [Some (vec_mutex t)] (m_all_vec t) [])]; simpl.
    + done.
    + intros e st [He Hst]. split; [by right|done].
    + intros m. destruct (H1 m) as [Hb Hc]. simpl in *.
      rewrite (countb_app _ [Some (vec_mutex t)] (replicate _ _) : countb _ (_ :: _) = _).
      assert (countb (is_ref m) (replicate (length (m_all_vec t)) None) = 0) as -> by (by apply countb_none, Forall_replicate). lia.
Qed.

(** A call that is neither a lock nor an unlock of a mutex. *)
Definition lock_free (ev : event) : bool :=
  match ev with Sys (MutexLock _) _ | Sys (MutexUnlock _) _ => false | _ => true end.

Lemma inv_other refs w ev s :
  lock_free ev = true -> inv refs w -> inv refs (World (w_trace w ++ [ev]) s).
Proof.
  intros Hev Hinv m. destruct (Hinv m) as [Hb Hc]. simpl in *. rewrite balance_app. simpl. split; [|done].
  destruct ev as [[] [n out|e]|fin user]; simpl in *; try done; lia.
Qed.

Definition free_all (w : world) : Prop := forall m, balance KMutex m (w_trace w) = 0.

Lemma inv_free w : inv [] w -> free_all w.
Proof. intros H m. destruct (H m) as [Hb _]. exact Hb. Qed.

(** While the list is locked. *)
Lemma element_registered (t : tls_set) (w : world) (a data : Z) refs :
  inv refs w -> e_data t !! a = None ->
  wp (e ← element_new a data;
      catch
       (ok ← in_tls_world (can_alloc (8 * (zlen (m_all_vec t) + 1)));
        if negb ok then throw BadAlloc else
        _ ← upd_tls (fun t => set_vec (m_all_vec t ++ [e]) t);
        catch (_ ← in_tls_world (pthread_call (KeySet (m_key t) e)); mret tt)
          (fun x => _ ← upd_tls (fun t => set_vec (removelast (m_all_vec t)) t); throw x))
       (fun x => _ ← element_delete e; throw x))
    (fun _ st => fst st = set_vec (m_all_vec t ++ [a]) (set_data (<[a := data]> (e_data t)) t) /\ inv refs (snd st) /\
       exists n out, Sys (KeySet (m_key t) a) (SysOk n out) ∈ w_trace (snd st))
    (fun e st => fst st = t /\ inv refs (snd st)) (t, w).
Proof.
  intros Hinv Ha.
  assert (forall t' w', t' = set_data (<[a := data]> (e_data t)) t -> inv refs w' -> forall x,
    wp (_ ← element_delete a; throw (A := unit) x) (fun _ _ => False) (fun e st => fst st = t /\ inv refs (snd st)) (t', w')) as Hundo.
  { intros t' w' -> Hw' x. unfold element_delete, mutex_delete, in_tls_world, upd_tls. repeat wp_step. apply wp_syscall. intros b _.
    repeat wp_step. simpl. split; [|by apply inv_other]. rewrite delete_insert_id by done. by destruct t. }
  unfold element_new, mutex_new, upd_tls, pthread_call, in_tls_world. repeat wp_step. apply wp_can_alloc_any. intros [] s _; wp_step; simpl; [|by split].
  repeat wp_step. simpl. rewrite Ha. repeat wp_step. apply wp_syscall. intros b _. repeat wp_step.
  apply wp_can_alloc_any. intros [] s' _; repeat wp_step; simpl.
  2:{ wp_step. eapply wp_mono; [..|apply Hundo; [done|by apply inv_other]]; [done|]. by intros. }
  repeat wp_step. apply wp_syscall. intros c _. simpl.
  destruct c as [n out|e]; [repeat wp_step; simpl|do 4 wp_step].
  - split; [done|]. split.
    + apply (inv_other refs (World _ s')); [done|]. by apply inv_other.
    + exists n, out. apply elem_of_app. right. by apply list_elem_of_singleton.
  - eapply wp_mono; [..|apply Hundo]; [done|by intros| |].
    + unfold set_vec, set_data. simpl. by rewrite removelast_last.
    + apply (inv_other refs (World _ s')); [done|]. by apply inv_other.
Qed.

(** [init_thread] adds the element of the thread to the list and makes it known by
    the key, or throws with the list and the elements as before; the list is
    unlocked either way. *)
Theorem init_thread_outcome (t : tls_set) (w : world) (a data : Z) :
  free_all w -> e_data t !! a = None ->
  wp (init_thread a data)
    (fun _ st => fst st = set_vec (m_all_vec t ++ [a]) (set_data (<[a := data]> (e_data t)) t) /\ free_all (snd st) /\
       exists n out, Sys (KeySet (m_key t) a) (SysOk n out) ∈ w_trace (snd st))
    (fun e st => fst st = t /\ free_all (snd st)) (t, w).
Proof.
  intros H0 Ha. pose proof (sync_inv_init 1 w H0) as Hinv. unfold init_thread. wp_step. wp_step. wp_step. apply wp_zoom. simpl.
  eapply wp_mono; [..|by apply (sync_inv_new _ w 0 (vec_mutex t) Hinv)].
  2:{ intros e w1 [_ H1]. split; [done|]. by apply inv_free, inv_drop_none. }
  intros r w1 [-> H1]. simpl in H1. wp_step. wp_step.
  eapply wp_mono; [..|by apply element_registered].
  - intros [] st (Hst & H2 & n & out & Hset). apply wp_zoom.
    eapply wp_mono; [..|apply wp_and; [by apply inv_cons_none|by eapply ref_delete_keeps]]; [|by intros e w2 []]. intros [] w2 [H3 Hset']. simpl.
    split; [done|]. split; [by apply inv_free|]. by exists n, out.
  - intros e st [Hst H2]. wp_step. apply wp_zoom. eapply wp_mono; [..|by apply inv_cons_none]; [|done].
    intros [] w2 H3. wp_step. split; [done|]. by apply inv_free.
Qed.
End Tls.

(** ** Two threads on a concrete environment *)
Definition two_threads : tls_set := TlsSet 0 1 [10; 20] {[10 := 5; 20 := 6]}.

Lemma lock_all_holds_witness :
  match lock_all (OS := mutex_os) two_threads ([], World [] []) with Ret _ (locks, _) => locks | _ => [] end = [Some 10; Some 20] /\
  wp (lock_all (OS := mutex_os) two_threads)
    (fun _ st => fst st = [Some 10; Some 20] /\ all_released (OS := mutex_os) st /\
       forall m, balance KMutex m (w_trace (snd st)) = if bool_decide (m ∈ [10; 20]) then 1 else 0)
    (fun e st => (e = BadAlloc \/ exists c, e = PthreadError c) /\ all_released (OS := mutex_os) st) ([], World [] []).
Proof. split; [by vm_compute|]. by apply (lock_all_holds (OS := mutex_os) two_threads (World [] [])). Defined.

(** The third thread; the growth of the list fails the second time. *)
Lemma init_thread_outcome_witness :
  match init_thread (OS := mutex_os) 30 7 (two_threads, World [] []) with Ret _ (t, _) => m_all_vec t | _ => [] end = [10; 20; 30] /\
  wp (init_thread (OS := mutex_os) 30 7)
    (fun _ st => fst st = set_vec ([10; 20] ++ [30]) (set_data (<[30 := 7]> (e_data two_threads)) two_threads) /\ free_all (snd st) /\
       exists n out, Sys (KeySet 0 30) (SysOk n out) ∈ w_trace (snd st))
    (fun e st => fst st = two_threads /\ free_all (snd st)) (two_threads, World [] [true; false]).
Proof. split; [by vm_compute|]. by apply (init_thread_outcome (OS := mutex_os) two_threads (World [] [true; false]) 30 7). Defined.
