(* ===== verification/Xfer.v ===== *)
(** * xfer: the queue of pending output (src/mpsrc/wavy_out.cc, src/mp/wavy.hmpl)

    An [xfer] is one malloc'd byte buffer in which transfer records lie one
    after the other: a type word followed by an array of [struct iovec], by a
    [xfer_sendfile] or by a [xfer_finalize].  [execute] walks the bytes,
    performs the transfers, and rewrites the buffer in place when the kernel
    takes only a part.

    The file has two layers: the operations on bytes, as the sources write
    them, and the operations on a
    list of records ([exec_items], [clear_items]) which they are shown to
    refine.  Sizes and offsets are those of a 64-bit little-endian machine. *)

From Stdlib Require Import ZArith Lia.
From stdpp Require Import base tactics option list numbers.
From S2P Require Import Prelude Os.

(** ** Layout *)

(** [XF_IOVEC] is 0: any other even type word is a vector of that length. *)
Definition XF_IOVEC : Z := 0.
Definition XF_SENDFILE : Z := 1.
Definition XF_FINALIZE : Z := 3.

Definition sizeof_xfer_type : Z := 4.
Definition sizeof_struct_iovec : Z := 16.      (* iov_base, iov_len *)
Definition sizeof_struct_sendfile : Z := 24.   (* infd, 4 bytes of padding, off, len *)
Definition sizeof_struct_finalize : Z := 16.   (* finalize, user *)

Definition sizeof_mem : Z := sizeof_xfer_type + sizeof_struct_iovec * 1.
Definition sizeof_iovec (veclen : Z) : Z := sizeof_xfer_type + sizeof_struct_iovec * veclen.
Definition sizeof_sendfile : Z := sizeof_xfer_type + sizeof_struct_sendfile.
Definition sizeof_finalize : Z := sizeof_xfer_type + sizeof_struct_finalize.

(** An array of [struct iovec] as bytes. *)
Definition iovec_bytes (vec : list (Z * Z)) : list Z :=
  flat_map (fun v => le_bytes 8 (fst v) ++ le_bytes 8 (snd v)) vec.

(** The bytes each [fill_] function writes from its first argument on; it
    returns the address after them. *)
Definition fill_mem (buf size : Z) : list Z :=
  le_bytes 4 (Z.shiftl 1 1) ++ le_bytes 8 buf ++ le_bytes 8 size.

Definition fill_iovec (vec : list (Z * Z)) : list Z :=
  le_bytes 4 (Z.shiftl (zlen vec) 1) ++ iovec_bytes vec.

(** The padding is not written, and not read. *)
Definition fill_sendfile (infd off len : Z) : list Z :=
  le_bytes 4 XF_SENDFILE ++ le_bytes 4 infd ++ [0; 0; 0; 0] ++ le_bytes 8 off ++ le_bytes 8 len.

Definition fill_finalize (fin user : Z) : list Z :=
  le_bytes 4 XF_FINALIZE ++ le_bytes 8 fin ++ le_bytes 8 user.

(** ** Memory accesses of execute *)

(** Reading an [n]-byte word; reading past the records is undefined. *)
Definition load {S} (n : nat) (off : Z) (mem : list Z) : M S Z :=
  if bool_decide (0 <= off /\ off + Z.of_nat n <= zlen mem)
  then mret (le_val (slice off (Z.of_nat n) mem))
  else undef.

(** The array of [n] [struct iovec] at [off]. *)
Fixpoint load_vec {S} (n : nat) (off : Z) (mem : list Z) : M S (list (Z * Z)) :=
  match n with
  | O => mret []
  | S n' =>
      b ← load 8 off mem;
      l ← load 8 (off + 8) mem;
      rest ← load_vec n' (off + 16) mem;
      mret ((b, l) :: rest)
  end.

(** [MP_WAVY_XFER_CONSUMED]: the records from [p] on move to the head. *)
Definition xfer_consumed (mem : list Z) (p : Z) : list Z :=
  let left := zlen mem - p in
  slice 0 left (splice 0 (slice p left mem) mem).

(** The loop over [vec[i]] after writev returned [wl]: the first entry that was
    not written entirely, and how much of it was. *)
Fixpoint iov_scan (vec : list (Z * Z)) (i : nat) (wl : Z) : option (nat * Z) :=
  match vec with
  | [] => None
  | (_, iov_len) :: vec' =>
      if iov_len <=? wl then iov_scan vec' (S i) (wl - iov_len) else Some (i, wl)
  end.

Section Execute.
Context {OS : Os}.

(** [fill_iovec(head, vec+i, veclen-i)], with [vec] at offset [from], followed
    by the memmove of the records from [p] on: the new records. *)
Definition refill (mem : list Z) (from n p : Z) : M world (list Z) :=
  let left := zlen mem - p in
  if negb memcpy_may_overlap && (from <? sizeof_xfer_type + sizeof_struct_iovec * n)
  then undef
  else
    let mem := splice 0 (le_bytes 4 (Z.shiftl n 1)) mem in
    let mem := splice sizeof_xfer_type (slice from (sizeof_struct_iovec * n) mem) mem in
    let filltail := sizeof_iovec n in
    let mem := splice filltail (slice p left mem) mem in
    mret (slice 0 (filltail + left) mem).

(** The loop of [execute], at [p]; [mem] is what lies in [[head, *tail)].  It
    returns the function's result and what lies in [[head, *tail)] then. *)
Fixpoint execute_from (fuel : nat) (fd : Z) (mem : list Z) (p : Z) : M world (bool * list Z) :=
  match fuel with
  | O => diverge
  | S fuel' =>
      if p <? zlen mem then
        ty ← load 4 p mem;
        if ty =? XF_SENDFILE then
          infd ← load 4 (p + 4) mem;
          off ← load 8 (p + 12) mem;
          len ← load 8 (p + 20) mem;
          wl ← syscall (Sendfile fd (signed 32 infd) (signed 64 off) len);
          match wl with
          | SysErr e => mret (would_retry e, xfer_consumed mem p)
          | SysOk wl _ =>
              if wl <=? 0 then mret (false, xfer_consumed mem p)
              else if wl <? len then
                let mem := splice (p + 12) (le_bytes 8 (off + wl)) mem in
                let mem := splice (p + 20) (le_bytes 8 (len - wl)) mem in
                mret (true, xfer_consumed mem p)
              else execute_from fuel' fd mem (p + sizeof_sendfile)
          end
        else if ty =? XF_FINALIZE then
          fin ← load 8 (p + 4) mem;
          user ← load 8 (p + 12) mem;
          _ ← (if fin =? 0 then mret tt else call_finalize fin user);
          execute_from fuel' fd mem (p + sizeof_finalize)
        else
          let veclen := Z.shiftr ty 1 in
          vec ← load_vec (Z.to_nat veclen) (p + 4) mem;
          wl ← syscall (Writev fd vec);
          match wl with
          | SysErr e => mret (would_retry e, xfer_consumed mem p)
          | SysOk wl _ =>
              if wl <=? 0 then mret (false, xfer_consumed mem p)
              else
                match iov_scan vec 0 wl with
                | Some (i, wl) =>
                    let at_i := p + 4 + 16 * Z.of_nat i in
                    base ← load 8 at_i mem;
                    iov_len ← load 8 (at_i + 8) mem;
                    let mem := splice at_i (le_bytes 8 (base + wl)) mem in
                    let mem := splice (at_i + 8) (le_bytes 8 (iov_len - wl)) mem in
                    if Nat.eqb i 0 then mret (true, xfer_consumed mem p)
                    else
                      mem ← refill mem at_i (veclen - Z.of_nat i) (p + sizeof_iovec veclen);
                      mret (true, mem)
                | None => execute_from fuel' fd mem (p + sizeof_iovec veclen)
                end
          end
      else mret (false, [])
  end.

(** Each turn passes a type word: one turn per byte is more than enough. *)
Definition execute (fd : Z) (mem : list Z) : M world (bool * list Z) :=
  execute_from (S (length mem)) fd mem 0.

(** ** class xfer *)

(** [m_head] is NULL or not; the bytes in [[m_head, m_tail)]; [m_free]. *)
Record xfer := Xfer {
  x_alloc : bool;
  x_buf : list Z;
  x_free : Z
}.

Definition xfer_new : xfer := Xfer false [] 0.

Definition xfer_empty (xf : xfer) : bool := bool_decide (x_buf xf = []).

Definition reserve (xf : xfer) (reqsz : Z) : M world xfer :=
  let used := zlen (x_buf xf) in
  let reqsz := wrap64 (reqsz + used) in
  nsize ← grow (wrap64 (wrap64 (wrap64 (used + x_free xf) * 2) + 72)) reqsz;
  ok ← can_alloc nsize;
  if ok : bool then mret (Xfer true (x_buf xf) (wrap64 (nsize - used)))
  else throw BadAlloc.

(** The common shape of the [push_] functions: make room, then fill. *)
Definition push_record (xf : xfer) (sz : Z) (bytes : list Z) : M world xfer :=
  xf ← (if x_free xf <? sz then reserve xf sz else mret xf);
  mret (Xfer (x_alloc xf) (x_buf xf ++ bytes) (wrap64 (x_free xf - sz))).

Definition push_write (xf : xfer) (buf size : Z) : M world xfer :=
  push_record xf sizeof_mem (fill_mem buf size).

Definition push_writev (xf : xfer) (vec : list (Z * Z)) : M world xfer :=
  push_record xf (sizeof_iovec (zlen vec)) (fill_iovec vec).

Definition push_sendfile (xf : xfer) (infd off len : Z) : M world xfer :=
  push_record xf sizeof_sendfile (fill_sendfile infd off len).

Definition push_finalize (xf : xfer) (fin user : Z) : M world xfer :=
  push_record xf sizeof_finalize (fill_finalize fin user).

Definition push_xfraw (xf : xfer) (buf : list Z) : M world xfer :=
  push_record xf (zlen buf) buf.

(** [this->migrate(to)]: the two objects afterwards. *)
Definition migrate (this to : xfer) : M world (xfer * xfer) :=
  if negb (x_alloc to) then
    mret (Xfer false [] 0, Xfer (x_alloc this) (x_buf this) (x_free this))
  else
    let reqsz := zlen (x_buf this) in
    to ← (if x_free to <? reqsz then reserve to reqsz else mret to);
    mret (Xfer (x_alloc this) [] (wrap64 (x_free this + reqsz)),
          Xfer (x_alloc to) (x_buf to ++ x_buf this) (wrap64 (x_free to - reqsz))).

(** The loop of [clear]: finalizers run, transfers are dropped. *)
Fixpoint clear_from (fuel : nat) (mem : list Z) (p : Z) : M world unit :=
  match fuel with
  | O => diverge
  | S fuel' =>
      if p <? zlen mem then
        ty ← load 4 p mem;
        if ty =? XF_SENDFILE then clear_from fuel' mem (p + sizeof_sendfile)
        else if ty =? XF_FINALIZE then
          fin ← load 8 (p + 4) mem;
          user ← load 8 (p + 12) mem;
          _ ← (if fin =? 0 then mret tt else call_finalize fin user);
          clear_from fuel' mem (p + sizeof_finalize)
        else clear_from fuel' mem (p + sizeof_iovec (Z.shiftr ty 1))
      else mret tt
  end.

Definition clear (xf : xfer) : M world xfer :=
  _ ← clear_from (S (length (x_buf xf))) (x_buf xf) 0;
  mret (Xfer (x_alloc xf) [] (wrap64 (x_free xf + zlen (x_buf xf)))).

Definition xfer_delete (xf : xfer) : M world unit :=
  if x_alloc xf then _ ← clear xf; mret tt else mret tt.

(** [try_write(fd)]: whether to go on watching [fd], and the queue afterwards. *)
Definition try_write (xf : xfer) (fd : Z) : M world (bool * xfer) :=
  let alloc_size := zlen (x_buf xf) + x_free xf in
  '(cont, buf) ← execute fd (x_buf xf);
  let xf := Xfer (x_alloc xf) buf (wrap64 (alloc_size - zlen buf)) in
  if negb cont && negb (xfer_empty xf)
  then _ ← syscall (ShutdownRd fd); mret (cont, xf)
  else mret (cont, xf).
End Execute.

(** ** Records *)

Inductive record : Type :=
| XIov (vec : list (Z * Z))
| XSend (infd off len : Z)
| XFin (fin user : Z).

Definition encode (r : record) : list Z :=
  match r with
  | XIov vec => fill_iovec vec
  | XSend infd off len => fill_sendfile infd off len
  | XFin fin user => fill_finalize fin user
  end.

Definition encode_all (rs : list record) : list Z := flat_map encode rs.

(** A memory range that ends within the address space. *)
Definition range_ok (v : Z * Z) : Prop := 0 <= fst v /\ 0 <= snd v /\ fst v + snd v < 2 ^ 64.

(** The records a caller can mean: the type word has room for the length, file
    descriptors are [int], file offsets fit [off_t].  A vector of three entries
    or more is one [execute] may have to move onto itself. *)
Definition record_ok {OS : Os} (r : record) : Prop :=
  match r with
  | XIov vec => zlen vec < 2 ^ 31 /\ Forall range_ok vec /\
      (memcpy_may_overlap = true \/ zlen vec <= 2)
  | XSend infd off len => - 2 ^ 31 <= infd < 2 ^ 31 /\ 0 <= off /\ 0 <= len /\ off + len < 2 ^ 63
  | XFin fin user => 0 <= fin < 2 ^ 64 /\ 0 <= user < 2 ^ 64
  end.

#[export] Instance range_ok_dec v : Decision (range_ok v).
Proof. unfold range_ok. apply _. Defined.

#[export] Instance record_ok_dec {OS : Os} r : Decision (record_ok r).
Proof. destruct r; simpl; apply _. Defined.

(** What is left of a vector after [wl] bytes of it were written. *)
Fixpoint iov_rest (vec : list (Z * Z)) (wl : Z) : option (list (Z * Z)) :=
  match vec with
  | [] => None
  | (b, l) :: vec' => if l <=? wl then iov_rest vec' (wl - l) else Some ((b + wl, l - wl) :: vec')
  end.

(** [push_write] is a vector of one entry. *)
Lemma fill_mem_encode buf size : fill_mem buf size = encode (XIov [(buf, size)]).
Proof.
  unfold fill_mem, encode, fill_iovec, iovec_bytes. cbn [flat_map fst snd].
  by rewrite app_nil_r.
Qed.

Lemma length_iovec_bytes vec : zlen (iovec_bytes vec) = 16 * zlen vec.
Proof.
  induction vec as [|[b l] vec IH]; [done|].
  cbn [iovec_bytes flat_map]. fold (iovec_bytes vec).
  rewrite !length_app, !length_le_bytes. simpl length. lia.
Qed.

Lemma length_fill_iovec vec : zlen (fill_iovec vec) = sizeof_iovec (zlen vec).
Proof.
  unfold fill_iovec, sizeof_iovec, sizeof_xfer_type, sizeof_struct_iovec.
  rewrite length_app, length_le_bytes, Nat2Z.inj_add, length_iovec_bytes. lia.
Qed.

Lemma length_fill_sendfile infd off len : zlen (fill_sendfile infd off len) = sizeof_sendfile.
Proof. done. Qed.

Lemma length_fill_finalize fin user : zlen (fill_finalize fin user) = sizeof_finalize.
Proof. done. Qed.

(** ** Reading back what was written *)

Lemma load_at {S} n off mem pre z post (s : S) :
  mem = pre ++ le_bytes n z ++ post -> zlen pre = off ->
  load n off mem s = Ret (z mod 2 ^ (8 * Z.of_nat n)) s.
Proof.
  intros -> Hoff. unfold load. rewrite bool_decide_true.
  - rewrite (slice_mid off _ pre (le_bytes n z) post), le_val_bytes;
      [done|done|by rewrite length_le_bytes].
  - rewrite !length_app, length_le_bytes. lia.
Qed.

Lemma load_at_small {S} n off mem pre z post (s : S) :
  mem = pre ++ le_bytes n z ++ post -> zlen pre = off -> 0 <= z < 2 ^ (8 * Z.of_nat n) ->
  load n off mem s = Ret z s.
Proof. intros Hm Ho Hz. by rewrite (load_at n off mem pre z post s Hm Ho), Z.mod_small. Qed.

Lemma load_vec_at {S} vec off mem pre post (s : S) :
  mem = pre ++ iovec_bytes vec ++ post -> zlen pre = off -> Forall range_ok vec ->
  load_vec (length vec) off mem s = Ret vec s.
Proof.
  intros Hm Ho Hv. revert off pre Hm Ho.
  induction Hv as [|[b l] vec [? [? ?]] _ IH]; intros off pre Hm Ho; [done|]. simpl in *.
  cbn [iovec_bytes flat_map fst snd] in Hm. fold (iovec_bytes vec) in Hm.
  erewrite M_bind_ret; [|eapply (load_at_small 8 off mem pre b); [rewrite Hm; app_eq|done|simpl; lia]].
  erewrite M_bind_ret; [|eapply (load_at_small 8 _ mem (pre ++ le_bytes 8 b) l);
    [rewrite Hm; app_eq|rewrite length_app, length_le_bytes; lia|simpl; lia]].
  erewrite M_bind_ret; [|eapply (IH _ (pre ++ le_bytes 8 b ++ le_bytes 8 l));
    [rewrite Hm; app_eq|rewrite !length_app, !length_le_bytes; lia]].
  done.
Qed.

Lemma xfer_consumed_at pre rest : xfer_consumed (pre ++ rest) (zlen pre) = rest.
Proof.
  unfold xfer_consumed. rewrite length_app.
  replace (Z.of_nat (length pre + length rest) - zlen pre) with (zlen rest) by lia.
  rewrite (slice_at (zlen pre) _ _ pre rest []) by (by rewrite ?app_nil_r).
  unfold splice. simpl. by apply (slice_at 0 _ _ [] rest (drop (length rest) (pre ++ rest))).
Qed.

(** The in-place scan and the abstract rest agree. *)
Lemma iov_scan_rest vec k wl :
  match iov_scan vec k wl with
  | Some (i, wl') => exists v1 b l v2, vec = v1 ++ (b, l) :: v2 /\ i = (k + length v1)%nat /\
      wl' < l /\ iov_rest vec wl = Some ((b + wl', l - wl') :: v2)
  | None => iov_rest vec wl = None
  end.
Proof.
  revert k wl. induction vec as [|[b l] vec IH]; intros k wl; simpl; [done|].
  destruct (Z.leb_spec l wl) as [Hle|Hgt].
  - specialize (IH (S k) (wl - l)). destruct (iov_scan vec (S k) (wl - l)) as [[i wl']|]; [|done].
    destruct IH as (v1 & b' & l' & v2 & -> & -> & ? & ?).
    exists ((b, l) :: v1), b', l', v2. split_and!; [done|simpl; lia|done|done].
  - exists [], b, l, vec. split_and!; [done|simpl; lia|lia|done].
Qed.

(** ** The specification: execute on records *)

Section Spec.
Context {OS : Os}.

(** One record after the other, until the kernel takes less than all. *)
Fixpoint exec_items (fd : Z) (rs : list record) : M world (bool * list record) :=
  match rs with
  | [] => mret (false, [])
  | XFin fin user :: rs' =>
      _ ← (if fin =? 0 then mret tt else call_finalize fin user);
      exec_items fd rs'
  | XSend infd off len :: rs' =>
      wl ← syscall (Sendfile fd infd off len);
      match wl with
      | SysErr e => mret (would_retry e, rs)
      | SysOk wl _ =>
          if wl <=? 0 then mret (false, rs)
          else if wl <? len then mret (true, XSend infd (off + wl) (len - wl) :: rs')
          else exec_items fd rs'
      end
  | XIov vec :: rs' =>
      wl ← syscall (Writev fd vec);
      match wl with
      | SysErr e => mret (would_retry e, rs)
      | SysOk wl _ =>
          if wl <=? 0 then mret (false, rs)
          else match iov_rest vec wl with
               | Some vec' => mret (true, XIov vec' :: rs')
               | None => exec_items fd rs'
               end
      end
  end.

Definition clear_item (r : record) : M world unit :=
  match r with
  | XFin fin user => if fin =? 0 then mret tt else call_finalize fin user
  | _ => mret tt
  end.

Fixpoint clear_items (rs : list record) : M world unit :=
  match rs with
  | [] => mret tt
  | r :: rs' => _ ← clear_item r; clear_items rs'
  end.

(** ** Refinement *)

Lemma refill_at pre vec post n from p mem (w : world) :
  (memcpy_may_overlap = true \/ n <= 1) ->
  (exists a, mem = a ++ iovec_bytes vec ++ post /\ zlen a = from) ->
  20 <= from -> n = zlen vec -> p = from + 16 * n -> pre = fill_iovec vec ->
  refill mem from n p w = Ret (pre ++ post) w.
Proof.
  intros Hov (a & -> & Ha) Hfrom -> -> ->. unfold refill.
  assert (negb memcpy_may_overlap && (from <? sizeof_xfer_type + sizeof_struct_iovec * zlen vec)
    = false) as ->.
  { destruct Hov as [->|Hov]; [done|]. apply andb_false_iff. right.
    unfold sizeof_xfer_type, sizeof_struct_iovec. apply Z.ltb_ge. lia. }
  unfold sizeof_iovec, sizeof_xfer_type, sizeof_struct_iovec.
  set (mem := a ++ iovec_bytes vec ++ post).
  pose proof (length_iovec_bytes vec) as Hv.
  assert (zlen mem = from + 16 * zlen vec + zlen post) as Hmem.
  { unfold mem. rewrite !length_app, !Nat2Z.inj_add. lia. }
  rewrite Hmem. replace (from + 16 * zlen vec + zlen post - (from + 16 * zlen vec))
    with (zlen post) by lia.
  set (hdr := le_bytes 4 (Z.shiftl (zlen vec) 1)).
  assert (zlen hdr = 4) as Hhdr by done.
  assert (slice from (16 * zlen vec) (splice 0 hdr mem) = iovec_bytes vec) as Hs1.
  { rewrite slice_splice_after by lia. by apply (slice_at from _ mem a _ post). }
  rewrite Hs1. set (mem1 := splice 0 hdr mem).
  assert (zlen mem1 = zlen mem) as Hm1 by (apply zlen_splice; lia).
  set (mem2 := splice 4 (iovec_bytes vec) mem1).
  assert (zlen mem2 = zlen mem) as Hm2 by (unfold mem2; rewrite zlen_splice; lia).
  assert (slice (from + 16 * zlen vec) (zlen post) mem2 = post) as ->.
  { unfold mem2. rewrite slice_splice_after by lia.
    unfold mem1. rewrite slice_splice_after by lia.
    apply (slice_at _ _ mem (a ++ iovec_bytes vec) post []); [|rewrite length_app; lia|done].
    unfold mem. by rewrite app_nil_r, app_assoc. }
  set (mem3 := splice (4 + 16 * zlen vec) post mem2).
  rewrite (slice_split 0 (4 + 16 * zlen vec) (zlen post) mem3), Z.add_0_l by lia.
  rewrite (slice_split 0 4 (16 * zlen vec) mem3), Z.add_0_l by lia. unfold mem3.
  rewrite (slice_splice_same _ _ post) by lia.
  rewrite !slice_splice_before by lia. unfold mem2.
  rewrite (slice_splice_same 4) by lia. rewrite slice_splice_before by lia. unfold mem1.
  by rewrite (slice_splice_same 0) by lia.
Qed.

(** The type word of each record. *)
Lemma type_word_iov (vec : list (Z * Z)) :
  zlen vec < 2 ^ 31 -> Z.shiftl (zlen vec) 1 mod 2 ^ 32 = 2 * zlen vec.
Proof. intros. rewrite Z.shiftl_mul_pow2 by lia. rewrite Z.mod_small; lia. Qed.

Lemma iov_type (vec : list (Z * Z)) :
  (2 * zlen vec =? XF_SENDFILE) = false /\ (2 * zlen vec =? XF_FINALIZE) = false /\
  Z.shiftr (2 * zlen vec) 1 = zlen vec.
Proof.
  unfold XF_SENDFILE, XF_FINALIZE. split_and!; [apply Z.eqb_neq; lia..|].
  rewrite Z.shiftr_div_pow2 by lia. change (2 ^ 1) with 2. rewrite Z.mul_comm. by apply Z.div_mul.
Qed.

(** What execute returns on bytes, from what exec_items returns on records. *)
Definition encoded (o : outcome world (bool * list record)) : outcome world (bool * list Z) :=
  match o with
  | Ret (b, rs) w => Ret (b, encode_all rs) w
  | Throw e w => Throw e w
  | Undef => Undef
  | Diverge => Diverge
  end.

Lemma encode_all_cons r rs : encode_all (r :: rs) = encode r ++ encode_all rs.
Proof. done. Qed.

Lemma send_partial pre infd off len rs wl :
  xfer_consumed
    (splice (zlen pre + 20) (le_bytes 8 (len - wl))
      (splice (zlen pre + 12) (le_bytes 8 (off + wl))
        (pre ++ encode_all (XSend infd off len :: rs)))) (zlen pre)
  = encode_all (XSend infd (off + wl) (len - wl) :: rs).
Proof.
  rewrite !encode_all_cons. unfold encode, fill_sendfile.
  set (a := le_bytes 4 XF_SENDFILE ++ le_bytes 4 infd ++ [0; 0; 0; 0]).
  assert (zlen a = 12) as Ha by done.
  rewrite (splice_at (zlen pre + 12) _ (pre ++ a) (le_bytes 8 off) _
    (le_bytes 8 len ++ encode_all rs));
    [|unfold a; app_eq|rewrite length_app, Nat2Z.inj_add; lia|by rewrite !length_le_bytes].
  rewrite (splice_at (zlen pre + 20) _ (pre ++ a ++ le_bytes 8 (off + wl)) (le_bytes 8 len) _
    (encode_all rs));
    [|app_eq|rewrite !length_app, length_le_bytes, !Nat2Z.inj_add; lia|by rewrite !length_le_bytes].
  rewrite <-!app_assoc, xfer_consumed_at. unfold a. app_eq.
Qed.

(** The partial-write branch: the entry is rewritten in place, then the rest of
    the vector becomes the first record. *)
Lemma iov_partial pre v1 b l v2 rs wl (w : world) :
  (memcpy_may_overlap = true \/ zlen (v1 ++ (b, l) :: v2) <= 2) ->
  range_ok (b, l) ->
  let vec := v1 ++ (b, l) :: v2 in
  let mem := pre ++ encode_all (XIov vec :: rs) in
  let at_i := zlen pre + 4 + 16 * zlen v1 in
  (base ← load 8 at_i mem;
   iov_len ← load 8 (at_i + 8) mem;
   let mem := splice at_i (le_bytes 8 (base + wl)) mem in
   let mem := splice (at_i + 8) (le_bytes 8 (iov_len - wl)) mem in
   if Nat.eqb (length v1) 0 then mret (true, xfer_consumed mem (zlen pre))
   else
     mem ← refill mem at_i (zlen vec - zlen v1) (zlen pre + sizeof_iovec (zlen vec));
     mret (true, mem)) w
  = Ret (true, encode_all (XIov ((b + wl, l - wl) :: v2) :: rs)) w.
Proof.
  intros Hov (Hb & Hl & Hbl). simpl in Hb, Hl, Hbl. cbv zeta.
  set (vec := v1 ++ (b, l) :: v2).
  set (hdr := le_bytes 4 (Z.shiftl (zlen vec) 1)).
  assert (zlen hdr = 4) as Hh by done.
  pose proof (length_iovec_bytes v1) as Hv1. pose proof (length_iovec_bytes v2) as Hv2.
  assert (pre ++ encode_all (XIov vec :: rs) =
    (pre ++ hdr ++ iovec_bytes v1) ++ le_bytes 8 b ++ le_bytes 8 l ++ iovec_bytes v2 ++
    encode_all rs) as ->.
  { rewrite encode_all_cons. unfold encode, fill_iovec, vec, iovec_bytes. fold hdr.
    rewrite flat_map_app. cbn [flat_map fst snd]. app_eq. }
  set (a := pre ++ hdr ++ iovec_bytes v1).
  assert (zlen a = zlen pre + 4 + 16 * zlen v1) as Ha.
  { unfold a. rewrite !length_app, !Nat2Z.inj_add. lia. }
  rewrite <-Ha.
  erewrite M_bind_ret; [|eapply (load_at_small 8 _ _ a b); [done|done|simpl; lia]].
  erewrite M_bind_ret; [|eapply (load_at_small 8 _ _ (a ++ le_bytes 8 b) l);
    [app_eq|rewrite length_app, length_le_bytes; lia|simpl; lia]].
  rewrite (splice_at (zlen a) _ a (le_bytes 8 b) _ (le_bytes 8 l ++ iovec_bytes v2 ++ encode_all rs));
    [|done|done|by rewrite !length_le_bytes].
  rewrite (splice_at (zlen a + 8) _ (a ++ le_bytes 8 (b + wl)) (le_bytes 8 l) _
    (iovec_bytes v2 ++ encode_all rs));
    [|app_eq|rewrite length_app, length_le_bytes; lia|by rewrite !length_le_bytes].
  destruct v1 as [|v1h v1t] eqn:Hv1e; cbn [length Nat.eqb].
  - unfold mret, M_ret. do 2 f_equal. rewrite <-xfer_consumed_at with (pre := pre). f_equal.
    rewrite encode_all_cons. unfold encode, fill_iovec, a, hdr, vec, iovec_bytes.
    cbn [flat_map fst snd length app]. app_eq.
  - erewrite M_bind_ret; [done|]. rewrite encode_all_cons.
    eapply (refill_at _ ((b + wl, l - wl) :: v2)); [| | | | |done].
    + destruct Hov as [?|Hov]; [by left|right]. unfold vec in *. rewrite length_app in *.
      simpl length in *. lia.
    + exists a. split; [|done]. unfold iovec_bytes. cbn [flat_map fst snd]. app_eq.
    + rewrite Ha. simpl length. lia.
    + unfold vec. rewrite length_app, Nat2Z.inj_add. simpl length. lia.
    + unfold sizeof_iovec, sizeof_xfer_type, sizeof_struct_iovec, vec.
      rewrite Ha, length_app, Nat2Z.inj_add. simpl length. lia.
Qed.

Lemma finalize_bind {A} fin user (k : unit -> M world A) w :
  ((if fin =? 0 then mret tt else call_finalize fin user) ≫= k) w =
    k tt (if fin =? 0 then w
          else World (w_trace w ++ [Finalize fin user]) (w_alloc w)).
Proof. by destruct (fin =? 0). Qed.

(** Every record is longer than nothing. *)
Lemma encode_pos r : 0 < zlen (encode r).
Proof.
  destruct r; cbn [encode];
    [rewrite length_fill_iovec; unfold sizeof_iovec, sizeof_xfer_type, sizeof_struct_iovec; lia
    |done|done].
Qed.

(** The test of the loop, in front of a record and at the end. *)
Lemma more_records pre r rs : (zlen pre <? zlen (pre ++ encode_all (r :: rs))) = true.
Proof.
  apply Z.ltb_lt. rewrite encode_all_cons, !length_app. pose proof (encode_pos r). lia.
Qed.

Lemma no_more_records (pre : list Z) : (zlen pre <? zlen (pre ++ encode_all [])) = false.
Proof. cbn [encode_all flat_map]. rewrite app_nil_r. apply Z.ltb_irrefl. Qed.

(** Passing a record. *)
Lemma next_record pre r rs :
  pre ++ encode_all (r :: rs) = (pre ++ encode r) ++ encode_all rs /\
  zlen (pre ++ encode r) = zlen pre + zlen (encode r).
Proof. rewrite encode_all_cons, app_assoc, length_app. split; [done|lia]. Qed.

(** The words of a sendfile and of a finalize record. *)
Lemma load_send pre infd off len rs (w : world) :
  let mem := pre ++ encode_all (XSend infd off len :: rs) in
  record_ok (XSend infd off len) ->
  load 4 (zlen pre) mem w = Ret XF_SENDFILE w /\
  load 4 (zlen pre + 4) mem w = Ret (infd mod 2 ^ 32) w /\
  load 8 (zlen pre + 12) mem w = Ret off w /\
  load 8 (zlen pre + 20) mem w = Ret len w.
Proof.
  cbv zeta. intros (Hi & Ho & Hl & Hol). rewrite encode_all_cons. unfold encode, fill_sendfile.
  split_and!.
  - eapply (load_at_small 4 _ _ pre XF_SENDFILE); [app_eq|done|done].
  - eapply (load_at 4 _ _ (pre ++ le_bytes 4 XF_SENDFILE) infd); [app_eq|].
    rewrite length_app, length_le_bytes. lia.
  - eapply (load_at_small 8 _ _ (pre ++ le_bytes 4 XF_SENDFILE ++ le_bytes 4 infd ++ [0; 0; 0; 0]) off);
      [app_eq|rewrite !length_app, !length_le_bytes; cbn [length]; lia|simpl; lia].
  - eapply (load_at_small 8 _ _ (pre ++ le_bytes 4 XF_SENDFILE ++ le_bytes 4 infd ++ [0; 0; 0; 0]
      ++ le_bytes 8 off) len);
      [app_eq|rewrite !length_app, !length_le_bytes; cbn [length]; lia|simpl; lia].
Qed.

Lemma load_fin pre fin user rs (w : world) :
  let mem := pre ++ encode_all (XFin fin user :: rs) in
  record_ok (XFin fin user) ->
  load 4 (zlen pre) mem w = Ret XF_FINALIZE w /\
  load 8 (zlen pre + 4) mem w = Ret fin w /\
  load 8 (zlen pre + 12) mem w = Ret user w.
Proof.
  cbv zeta. intros (Hf & Hu). rewrite encode_all_cons. unfold encode, fill_finalize.
  split_and!.
  - eapply (load_at_small 4 _ _ pre XF_FINALIZE); [app_eq|done|done].
  - eapply (load_at_small 8 _ _ (pre ++ le_bytes 4 XF_FINALIZE) fin); [app_eq| |simpl; lia].
    rewrite length_app, length_le_bytes. lia.
  - eapply (load_at_small 8 _ _ (pre ++ le_bytes 4 XF_FINALIZE ++ le_bytes 8 fin) user);
      [app_eq|rewrite !length_app, !length_le_bytes; lia|simpl; lia].
Qed.

Lemma load_iov pre vec rs (w : world) :
  let mem := pre ++ encode_all (XIov vec :: rs) in
  record_ok (XIov vec) ->
  load 4 (zlen pre) mem w = Ret (2 * zlen vec) w /\
  load_vec (length vec) (zlen pre + 4) mem w = Ret vec w.
Proof.
  cbv zeta. intros (Hl & Hv & _). rewrite encode_all_cons. unfold encode, fill_iovec. split.
  - erewrite (load_at 4 _ _ pre (Z.shiftl (zlen vec) 1)); [|app_eq|done].
    change (8 * Z.of_nat 4) with 32. by rewrite type_word_iov.
  - eapply (load_vec_at _ _ _ (pre ++ le_bytes 4 (Z.shiftl (zlen vec) 1))); [app_eq| |done].
    rewrite length_app, length_le_bytes. lia.
Qed.

Lemma execute_from_refines fd rs fuel pre w :
  Forall record_ok rs -> (length rs < fuel)%nat ->
  execute_from fuel fd (pre ++ encode_all rs) (zlen pre) w = encoded (exec_items fd rs w).
Proof.
  intros Hok. revert fuel pre w.
  induction Hok as [|r rs Hr Hok IH]; intros [|fuel] pre w Hf; [lia| |lia|];
    cbn [execute_from length] in *.
  { by rewrite no_more_records. }
  rewrite more_records. destruct (next_record pre r rs) as [Hnext Hlen].
  destruct r as [vec|infd off len|fin user]; cbn [exec_items].
  - destruct (load_iov pre vec rs w Hr) as [Hty Hvec]. rewrite (M_bind_ret _ _ _ _ _ Hty).
    destruct (iov_type vec) as (-> & -> & ->).
    rewrite Nat2Z.id. rewrite (M_bind_ret _ _ _ _ _ Hvec), !syscall_bind. cbv zeta.
    destruct (sys (w_trace w) (Writev fd vec)) as [wl out|e]; [|by rewrite xfer_consumed_at].
    destruct (Z.leb_spec wl 0); [by rewrite xfer_consumed_at|].
    pose proof (iov_scan_rest vec 0 wl) as Hscan.
    destruct (iov_scan vec 0 wl) as [[i wl']|].
    + destruct Hscan as (v1 & b & l & v2 & Hv & Hi & Hlt & Hrest). simpl in Hi. subst i.
      rewrite Hrest. destruct Hr as (_ & Hvok & Hov). rewrite Hv in Hvok, Hov |- *.
      apply iov_partial; [done|]. by apply Forall_app in Hvok as [_ ?%Forall_inv].
    + rewrite Hscan, Hnext. cbn [encode] in Hlen. rewrite length_fill_iovec in Hlen.
      cbn [encode]. rewrite <-Hlen. apply IH. lia.
  - destruct (load_send pre infd off len rs w Hr) as (Hty & Hi & Ho & Hl).
    rewrite (M_bind_ret _ _ _ _ _ Hty). cbn [Z.eqb XF_SENDFILE Pos.eqb].
    rewrite (M_bind_ret _ _ _ _ _ Hi), (M_bind_ret _ _ _ _ _ Ho), (M_bind_ret _ _ _ _ _ Hl).
    destruct Hr as (Hi1 & Ho1 & Hl1 & Hol1).
    assert (signed 32 (infd mod 2 ^ 32) = infd) as ->.
    { rewrite <-(signed_small 32 infd) at 2 by lia. unfold signed, wrap. by rewrite Z.mod_mod. }
    rewrite (signed_small 64 off) by lia. rewrite !syscall_bind. cbv zeta.
    destruct (sys (w_trace w) (Sendfile fd infd off len)) as [wl out|e]; [|by rewrite xfer_consumed_at].
    destruct (Z.leb_spec wl 0); [by rewrite xfer_consumed_at|].
    destruct (Z.ltb_spec wl len); [by rewrite send_partial|].
    rewrite Hnext. cbn [encode] in Hlen. rewrite length_fill_sendfile in Hlen.
    cbn [encode]. rewrite <-Hlen. apply IH. lia.
  - destruct (load_fin pre fin user rs w Hr) as (Hty & Hfin & Huser).
    rewrite (M_bind_ret _ _ _ _ _ Hty). cbn [Z.eqb XF_SENDFILE XF_FINALIZE Pos.eqb].
    rewrite (M_bind_ret _ _ _ _ _ Hfin), (M_bind_ret _ _ _ _ _ Huser), !finalize_bind.
    rewrite Hnext. cbn [encode] in Hlen. rewrite length_fill_finalize in Hlen.
    cbn [encode]. rewrite <-Hlen. apply IH. lia.
Qed.

Lemma length_encode_all rs : (length rs <= length (encode_all rs))%nat.
Proof.
  induction rs as [|r rs IH]; [done|]. rewrite encode_all_cons, length_app.
  pose proof (encode_pos r). simpl. lia.
Qed.

Lemma execute_encoded fd rs w :
  Forall record_ok rs ->
  execute fd (encode_all rs) w = encoded (exec_items fd rs w).
Proof.
  intros Hok. apply (execute_from_refines fd rs _ [] w Hok).
  pose proof (length_encode_all rs). lia.
Qed.
End Spec.

(** ** What a record stands for: a sequence of tokens

    A token is one byte to send, named by where it comes from, or one call of
    a finalizer.  A queue promises its tokens; the trace shows which were
    delivered. *)

Inductive token : Type :=
| TMem (addr : Z)                  (* the byte at an address *)
| TFile (infd off : Z)             (* the byte of a file at an offset *)
| TFin (fin user : Z).             (* a call fin(user) *)

Definition iov_tokens (vec : list (Z * Z)) : list token :=
  flat_map (fun v => TMem <$> seqZ (fst v) (snd v)) vec.

Definition record_tokens (r : record) : list token :=
  match r with
  | XIov vec => iov_tokens vec
  | XSend infd off len => TFile infd <$> seqZ off len
  | XFin fin user => if fin =? 0 then [] else [TFin fin user]
  end.

Definition tokens (rs : list record) : list token := flat_map record_tokens rs.

(** The bytes a successful call transferred, the finalizer an event called. *)
Definition event_tokens (ev : event) : list token :=
  match ev with
  | Sys (Writev _ vec) (SysOk n _) => take (Z.to_nat n) (iov_tokens vec)
  | Sys (Sendfile _ infd off _) (SysOk n _) => TFile infd <$> seqZ off n
  | Sys (Write _ buf _) (SysOk n _) => TMem <$> seqZ buf n
  | Finalize fin user => [TFin fin user]
  | _ => []
  end.

Definition delivered (tr : trace) : list token := flat_map event_tokens tr.

Definition iov_total (vec : list (Z * Z)) : Z := foldr (fun v s => snd v + s) 0 vec.

Lemma delivered_app tr1 tr2 : delivered (tr1 ++ tr2) = delivered tr1 ++ delivered tr2.
Proof. apply flat_map_app. Qed.

Lemma tokens_app rs1 rs2 : tokens (rs1 ++ rs2) = tokens rs1 ++ tokens rs2.
Proof. apply flat_map_app. Qed.

Lemma seqZ_split m n k : 0 <= k <= n -> seqZ m n = seqZ m k ++ seqZ (m + k) (n - k).
Proof. intros. replace n with (k + (n - k)) at 1 by lia. apply seqZ_app; lia. Qed.

Lemma length_iov_tokens vec : Forall range_ok vec -> zlen (iov_tokens vec) = iov_total vec.
Proof.
  induction 1 as [|[b l] vec (? & ? & ?) _ IH]; [done|]. simpl in *.
  rewrite length_app, length_fmap, length_seqZ. lia.
Qed.

(** A partial write splits the tokens of the vector in two. *)
Lemma iov_rest_tokens vec wl :
  Forall range_ok vec -> 0 <= wl <= iov_total vec ->
  match iov_rest vec wl with
  | Some vec' => take (Z.to_nat wl) (iov_tokens vec) ++ iov_tokens vec' = iov_tokens vec /\
      Forall range_ok vec' /\ zlen vec' <= zlen vec /\ vec' <> []
  | None => take (Z.to_nat wl) (iov_tokens vec) = iov_tokens vec
  end.
Proof.
  intros Hok. revert wl. induction Hok as [|[b l] vec (Hb & Hl & Hbl) Hok IH]; intros wl Hwl;
    cbn [iov_rest iov_tokens flat_map iov_total foldr fst snd] in *.
  { by rewrite take_nil. }
  fold (iov_tokens vec) in *. fold (iov_total vec) in *.
  destruct (Z.leb_spec l wl) as [Hle|Hgt].
  - specialize (IH (wl - l) ltac:(lia)).
    rewrite take_app_ge by (rewrite length_fmap, length_seqZ; lia).
    rewrite length_fmap, length_seqZ, <-Z2Nat.inj_sub by lia.
    destruct (iov_rest vec (wl - l)) as [vec'|]; [|by rewrite IH].
    destruct IH as (IH & ? & ? & ?). split_and!; [|done| |done].
    + by rewrite <-IH at 2; rewrite app_assoc.
    + simpl length. lia.
  - cbn [iov_tokens flat_map fst snd]. fold (iov_tokens vec). split_and!.
    + rewrite take_app_le by (rewrite length_fmap, length_seqZ; lia).
      rewrite (seqZ_split b l wl), fmap_app, app_assoc by lia. f_equal. f_equal.
      rewrite take_app_length'; [done|]. rewrite length_fmap, length_seqZ. lia.
    + constructor; [|done]. unfold range_ok. simpl. lia.
    + simpl length. lia.
    + done.
Qed.

Section Conservation.
Context {OS : Os} {Spec : OsSpec OS}.

(** The kernel's last answer was an error, or end of file. *)
Definition failed (tr : trace) : Prop :=
  exists tr0 r a, tr = tr0 ++ [Sys r a] /\
    match a with SysOk n _ => n <= 0 | SysErr e => would_retry e = false end.

(** The kernel's last answer asks to come back: would block, interrupted, or partial. *)
Definition come_back (tr : trace) : Prop :=
  exists tr0 r a, tr = tr0 ++ [Sys r a] /\
    match a with SysOk n _ => 0 < n | SysErr e => would_retry e = true end.

(** Every system call is on [fd]. *)
Definition on_stream (fd : Z) (tr : trace) : Prop :=
  Forall (fun ev => match ev with Sys r _ => stream_of r = Some fd | Finalize _ _ => True end) tr.

(** The result of walking the records: what was delivered, what is left, why it stopped. *)
Definition walked (fd : Z) (rs : list record) (w : world) (b : bool) (rs' : list record) (w' : world) : Prop :=
  exists tr, w_trace w' = w_trace w ++ tr /\ w_alloc w' = w_alloc w /\ on_stream fd tr /\
    delivered tr ++ tokens rs' = tokens rs /\ Forall record_ok rs' /\
    zlen (encode_all rs') <= zlen (encode_all rs) /\
    match b with
    | true => rs' <> [] /\ come_back tr
    | false => rs' = [] \/ failed tr
    end.

Lemma walked_cons fd r rs w ev b rs' w' :
  event_tokens ev = record_tokens r ->
  match ev with Sys r _ => stream_of r = Some fd | Finalize _ _ => True end ->
  walked fd rs (World (w_trace w ++ [ev]) (w_alloc w)) b rs' w' -> walked fd (r :: rs) w b rs' w'.
Proof.
  intros Hev Hfd (tr & Htr & Ha & Hst & Hd & Hok & Hlen & Hb). simpl in *.
  exists (ev :: tr). split_and!; [by rewrite Htr, <-app_assoc|done|by constructor| |done| |].
  - cbn [delivered flat_map tokens]. fold (delivered tr). fold (tokens rs).
    by rewrite <-Hd, Hev, app_assoc.
  - rewrite encode_all_cons, length_app. lia.
  - destruct b; [destruct Hb as [? (tr0 & r0 & a & -> & ?)]|destruct Hb as [?|(tr0 & r0 & a & -> & ?)]].
    + split; [done|]. exists (ev :: tr0), r0, a. done.
    + by left.
    + right. exists (ev :: tr0), r0, a. done.
Qed.

(** Stopping at the first record, of which [ev] delivered a part. *)
Lemma walked_stop fd r rs r' w req a (b : bool) :
  stream_of req = Some fd ->
  event_tokens (Sys req a) ++ record_tokens r' = record_tokens r ->
  record_ok r' -> Forall record_ok rs -> zlen (encode r') <= zlen (encode r) ->
  match b, a with
  | true, SysOk n _ => 0 < n
  | true, SysErr e => would_retry e = true
  | false, SysOk n _ => n <= 0
  | false, SysErr e => would_retry e = false
  end ->
  walked fd (r :: rs) w b (r' :: rs) (World (w_trace w ++ [Sys req a]) (w_alloc w)).
Proof.
  intros Hfd Ht Hr' Hrs Hlen Hb. exists [Sys req a].
  split_and!; [done|done|by constructor| |by constructor| |].
  - cbn [delivered flat_map tokens]. rewrite app_nil_r, app_assoc, Ht. done.
  - rewrite !encode_all_cons, !length_app. lia.
  - destruct b; [split; [done|]; by exists [], req, a|right; by exists [], req, a].
Qed.

(** What [exec_items] does with some records, from any trace. *)
Definition walks fd rs : Prop :=
  forall w, exists b rs' w', exec_items fd rs w = Ret (b, rs') w' /\ walked fd rs w b rs' w'.

Lemma exec_iov_walks fd vec rs :
  record_ok (XIov vec) -> Forall record_ok rs -> walks fd rs -> walks fd (XIov vec :: rs).
Proof.
  intros Hr Hok IH w. cbn [exec_items].
  rewrite syscall_bind. cbv zeta. pose proof Hr as (Hl & Hv & Hov).
  destruct (sys (w_trace w) (Writev fd vec)) as [n out|e] eqn:Hsys.
  - pose proof (writev_bound _ _ _ _ _ Hsys) as Hn. fold (iov_total vec) in Hn.
    destruct (Z.leb_spec n 0).
    + do 3 eexists. split; [done|]. apply walked_stop; [done| |done..].
      assert (n = 0) as -> by lia. done.
    + pose proof (iov_rest_tokens vec n Hv Hn) as Hrest.
      destruct (iov_rest vec n) as [vec'|].
      * destruct Hrest as (Ht & Hv' & Hl' & _). do 3 eexists. split; [done|].
         apply walked_stop; [done|done|split_and!; [lia|done|intuition lia]|done| |done].
         cbn [encode]. rewrite !length_fill_iovec. unfold sizeof_iovec, sizeof_struct_iovec. lia.
      * destruct (IH (World (w_trace w ++ [Sys (Writev fd vec) (SysOk n out)]) (w_alloc w)))
           as (b & rs' & w' & Hrun & Hw).
         exists b, rs', w'. split; [done|]. eapply walked_cons; [| |exact Hw]; [exact Hrest|done].
  - do 3 eexists. split; [done|]. apply walked_stop; [done..|].
    by destruct (would_retry e) eqn:?.
Qed.

Lemma exec_sendfile_walks fd infd off len rs :
  record_ok (XSend infd off len) -> Forall record_ok rs -> walks fd rs -> walks fd (XSend infd off len :: rs).
Proof.
  intros Hr Hok IH w. cbn [exec_items].
  rewrite syscall_bind. cbv zeta. pose proof Hr as (Hi & Ho & Hl & Hol).
  destruct (sys (w_trace w) (Sendfile fd infd off len)) as [n out|e] eqn:Hsys.
  - pose proof (sendfile_bound _ _ _ _ _ _ _ Hsys) as Hn. destruct (Z.leb_spec n 0).
    + do 3 eexists. split; [done|]. apply walked_stop; [done| |done..].
      assert (n = 0) as -> by lia. done.
    + destruct (Z.ltb_spec n len).
      * do 3 eexists. split; [done|].
         apply walked_stop; [done| |simpl; lia|done|done|done]. simpl.
         by rewrite <-fmap_app, <-seqZ_split by lia.
      * assert (n = len) as -> by lia.
         destruct (IH (World (w_trace w ++ [Sys (Sendfile fd infd off len) (SysOk len out)])
           (w_alloc w))) as (b & rs' & w' & Hrun & Hw).
         exists b, rs', w'. split; [done|]. by eapply walked_cons; [| |exact Hw].
  - do 3 eexists. split; [done|]. apply walked_stop; [done..|].
    by destruct (would_retry e) eqn:?.
Qed.

Lemma exec_items_walks fd rs w :
  Forall record_ok rs -> exists b rs' w', exec_items fd rs w = Ret (b, rs') w' /\ walked fd rs w b rs' w'.
Proof.
  intros Hok. revert w. change (walks fd rs).
  induction Hok as [|r rs Hr Hok IH].
  { intros w. exists false, [], w. split; [done|]. exists []. rewrite app_nil_r.
    split_and!; [done|done|constructor|done..|by left]. }
  destruct r as [vec|infd off len|fin user]; [by apply exec_iov_walks|by apply exec_sendfile_walks|].
  intros w. cbn [exec_items].
  rewrite finalize_bind. destruct (Z.eqb_spec fin 0) as [->|Hne].
  - destruct (IH w) as (b & rs' & w' & Hrun & tr & Htr & Ha & Hst & Hd & Hok' & Hlen & Hb).
    exists b, rs', w'. split; [done|]. exists tr. split_and!; [done..| |done].
    rewrite encode_all_cons, length_app. lia.
  - destruct (IH (World (w_trace w ++ [Finalize fin user]) (w_alloc w)))
      as (b & rs' & w' & Hrun & Hw).
    exists b, rs', w'. split; [done|]. eapply walked_cons; [| |exact Hw]; [|done]. simpl.
    by destruct (Z.eqb_spec fin 0).
Qed.
End Conservation.
