(* ===== verification/XferQueue.v ===== *)
(** * What an xfer promises: a queue of records

    The client's view of [class xfer]: pushing appends a record, [try_write]
    and [clear] take records from the front, [migrate] concatenates.  The
    representation predicate [x_rep] ties the bytes of an [xfer] to a list of
    records; the theorems follow an [xfer] through any sequence of operations
    and speak of the system calls made on the way. *)

From Stdlib Require Import ZArith Lia.
From stdpp Require Import base tactics option list numbers.
From S2P Require Import Prelude Os Xfer.

(** ** Representation *)

(** The allocated size, zero when there is no buffer. *)
Definition total (xf : xfer) : Z := zlen (x_buf xf) + x_free xf.

Record x_rep {OS : Os} (xf : xfer) (rs : list record) : Prop := {
  xr_buf : x_buf xf = encode_all rs;
  xr_ok : Forall record_ok rs;
  xr_free : 0 <= x_free xf;
  xr_total : total xf < 2 ^ 63;
  xr_null : x_alloc xf = false -> rs = [] /\ x_free xf = 0
}.

(** The push functions, as requests. *)
Inductive push : Type :=
| PushWrite (buf size : Z)
| PushWritev (vec : list (Z * Z))
| PushSendfile (infd off len : Z)
| PushFinalize (fin user : Z).

Definition run_push {OS : Os} (p : push) (xf : xfer) : M world xfer :=
  match p with
  | PushWrite buf size => push_write xf buf size
  | PushWritev vec => push_writev xf vec
  | PushSendfile infd off len => push_sendfile xf infd off len
  | PushFinalize fin user => push_finalize xf fin user
  end.

Definition pushed (p : push) : record :=
  match p with
  | PushWrite buf size => XIov [(buf, size)]
  | PushWritev vec => XIov vec
  | PushSendfile infd off len => XSend infd off len
  | PushFinalize fin user => XFin fin user
  end.

(** The calls of finalizers among tokens. *)
Definition is_fin (t : token) : bool := match t with TFin _ _ => true | _ => false end.
Definition fins (ts : list token) : list token := filter (fun t => is_fin t = true) ts.

Lemma fins_app ts1 ts2 : fins (ts1 ++ ts2) = fins ts1 ++ fins ts2.
Proof. apply list.filter_app. Qed.

Lemma encode_all_app rs1 rs2 : encode_all (rs1 ++ rs2) = encode_all rs1 ++ encode_all rs2.
Proof. apply flat_map_app. Qed.

Lemma encode_all_nil rs : encode_all rs = [] -> rs = [].
Proof.
  destruct rs as [|r rs]; [done|]. intros H%(f_equal (fun l => zlen l)).
  rewrite encode_all_cons, length_app in H. pose proof (encode_pos r). simpl in H. lia.
Qed.

Section Queue.
Context {OS : Os}.

(** No system call is made. *)
Definition silent (w w' : world) : Prop := w_trace w' = w_trace w.

Lemma wp_reserve xf reqsz (Q : xfer -> world -> Prop) (E : exn -> world -> Prop) w :
  0 <= x_free xf -> total xf <= 2 ^ 61 -> 0 <= reqsz <= 2 ^ 61 ->
  (forall xf' w', silent w w' -> x_alloc xf' = true -> x_buf xf' = x_buf xf ->
     reqsz <= x_free xf' -> total xf' < 2 ^ 63 -> Q xf' w') ->
  (forall w', silent w w' -> E BadAlloc w') ->
  wp (reserve xf reqsz) Q E w.
Proof.
  unfold total. intros Hf Ht Hr HQ HE. unfold reserve. cbv zeta.
  rewrite (wrap64_small (reqsz + _)) by lia. rewrite (wrap64_small (zlen (x_buf xf) + x_free xf)) by lia.
  rewrite (wrap64_small (_ * 2)) by lia. rewrite wrap64_small by lia.
  wp_step. apply wp_grow; [lia..|]. intros n Hn _ _.
  wp_step. apply wp_can_alloc_any. intros [] s Hb; wp_step.
  - apply HQ; simpl; rewrite ?wrap64_small by lia; [done..|lia|].
    unfold total. simpl. specialize (Hb eq_refl). lia.
  - by apply HE.
Qed.

(** Appending whole records. *)
Lemma wp_push_records xf rs rs' (Q : xfer -> world -> Prop) (E : exn -> world -> Prop) w :
  x_rep xf rs -> total xf <= 2 ^ 61 -> zlen (encode_all rs') <= 2 ^ 61 -> Forall record_ok rs' ->
  (forall xf' w', silent w w' -> x_rep xf' (rs ++ rs') -> Q xf' w') ->
  (forall w', silent w w' -> E BadAlloc w') ->
  wp (push_record xf (zlen (encode_all rs')) (encode_all rs')) Q E w.
Proof.
  intros [Hbuf Hok Hfree Htot Hnull] Ht Hsz Hr HQ HE. unfold push_record. wp_step.
  assert (forall xf' w', silent w w' -> x_buf xf' = x_buf xf ->
    zlen (encode_all rs') <= x_free xf' -> total xf' < 2 ^ 63 ->
    (x_alloc xf' = false -> rs ++ rs' = [] /\ x_free xf' = 0) ->
    Q (Xfer (x_alloc xf') (x_buf xf' ++ encode_all rs')
         (wrap64 (x_free xf' - zlen (encode_all rs')))) w') as Hfin.
  { intros xf' w' Hs Hb Hf Htt Hn. unfold total in Htt. apply HQ; [done|].
    rewrite wrap64_small by lia. split; simpl.
    - by rewrite Hb, Hbuf, encode_all_app.
    - by apply Forall_app.
    - lia.
    - unfold total. simpl. rewrite length_app. lia.
    - intros Ha. destruct (Hn Ha) as [Hnil Hz]. split; [done|].
      apply app_eq_nil in Hnil as [_ ->]. simpl. lia. }
  destruct (Z.ltb_spec (x_free xf) (zlen (encode_all rs'))).
  - apply wp_reserve; [lia..| |done]. intros xf' w' ???? ?. wp_step.
    apply Hfin; [done..|congruence].
  - wp_step. wp_step. apply Hfin; [done|done|lia|lia|].
    intros Ha. destruct (Hnull Ha) as [-> Hz]. split; [|done]. cbn [app]. apply encode_all_nil.
    destruct (encode_all rs'); [done|simpl length in *; lia].
Qed.

Lemma wp_push_record xf sz r (Q : xfer -> world -> Prop) (E : exn -> world -> Prop) w rs :
  x_rep xf rs -> total xf <= 2 ^ 61 -> zlen (encode r) = sz -> sz <= 2 ^ 61 -> record_ok r ->
  (forall xf' w', silent w w' -> x_rep xf' (rs ++ [r]) -> Q xf' w') ->
  (forall w', silent w w' -> E BadAlloc w') ->
  wp (push_record xf sz (encode r)) Q E w.
Proof.
  intros Hrep Ht <- Hsz Hr HQ HE.
  assert (encode r = encode_all [r]) as -> by (cbn [encode_all flat_map]; by rewrite app_nil_r).
  apply (wp_push_records _ rs); [done..| |by constructor|done|done].
  cbn [encode_all flat_map]. by rewrite app_nil_r.
Qed.

(** The size of a record a push makes. *)
Definition push_size (p : push) : Z := zlen (encode (pushed p)).

(** The conditions of a push: the record can be written down, no size is near
    the end of [size_t]. *)
Definition push_ok (xf : xfer) (p : push) : Prop :=
  record_ok (pushed p) /\ push_size p <= 2 ^ 61 /\ total xf <= 2 ^ 61.

#[global] Instance push_ok_dec xf p : Decision (push_ok xf p).
Proof. unfold push_ok. apply _. Defined.

Lemma run_push_record p xf :
  run_push p xf = push_record xf (push_size p) (encode (pushed p)).
Proof.
  destruct p; unfold run_push, push_size, pushed; cbn [encode];
    rewrite ?length_fill_iovec; [|done..].
  unfold push_write. by rewrite fill_mem_encode.
Qed.

Lemma wp_run_push p xf rs (Q : xfer -> world -> Prop) (E : exn -> world -> Prop) w :
  x_rep xf rs -> push_ok xf p ->
  (forall xf' w', silent w w' -> x_rep xf' (rs ++ [pushed p]) -> Q xf' w') ->
  (forall w', silent w w' -> E BadAlloc w') ->
  wp (run_push p xf) Q E w.
Proof. intros Hrep (Hr & Hs & Ht) HQ HE. rewrite run_push_record. by eapply wp_push_record. Qed.

(** ** clear *)

Lemma clear_from_refines rs fuel pre w :
  Forall record_ok rs -> (length rs < fuel)%nat ->
  clear_from fuel (pre ++ encode_all rs) (zlen pre) w = clear_items rs w.
Proof.
  intros Hok. revert fuel pre w.
  induction Hok as [|r rs Hr Hok IH]; intros [|fuel] pre w Hf; [simpl in Hf; lia| |simpl in Hf; lia|];
    cbn [clear_from length] in *.
  { by rewrite no_more_records. }
  rewrite more_records. destruct (next_record pre r rs) as [Hnext Hlen].
  destruct r as [vec|infd off len|fin user]; cbn [clear_items clear_item].
  - destruct (load_iov pre vec rs w Hr) as [Hty _]. rewrite (M_bind_ret _ _ _ _ _ Hty).
    destruct (iov_type vec) as (-> & -> & ->).
    rewrite Hnext. cbn [encode] in *. rewrite length_fill_iovec in Hlen.
    rewrite <-Hlen. apply IH. lia.
  - destruct (load_send pre infd off len rs w Hr) as (Hty & _).
    rewrite (M_bind_ret _ _ _ _ _ Hty). cbn [Z.eqb XF_SENDFILE Pos.eqb].
    rewrite Hnext. cbn [encode] in *. rewrite length_fill_sendfile in Hlen.
    rewrite <-Hlen. apply IH. lia.
  - destruct (load_fin pre fin user rs w Hr) as (Hty & Hfin & Huser).
    rewrite (M_bind_ret _ _ _ _ _ Hty). cbn [Z.eqb XF_SENDFILE XF_FINALIZE Pos.eqb].
    rewrite (M_bind_ret _ _ _ _ _ Hfin), (M_bind_ret _ _ _ _ _ Huser), !finalize_bind.
    rewrite Hnext. cbn [encode] in Hlen |- *. rewrite length_fill_finalize in Hlen.
    rewrite <-Hlen. apply IH. lia.
Qed.

(** The event each finalizer token stands for. *)
Definition fin_event (t : token) : list event :=
  match t with TFin fin user => [Finalize fin user] | _ => [] end.

Lemma fins_data ts : Forall (fun t => is_fin t = false) ts -> fins ts = [].
Proof.
  induction 1 as [|t ts Ht _ IH]; [done|]. unfold fins. rewrite filter_cons_False; [exact IH|].
  by rewrite Ht.
Qed.

Lemma fins_fmap {A} (f : A -> token) l : (forall a, is_fin (f a) = false) -> fins (f <$> l) = [].
Proof. intros Hf. apply fins_data, Forall_fmap, Forall_true. done. Qed.

Lemma fins_iov vec : fins (iov_tokens vec) = [].
Proof.
  induction vec as [|v vec IH]; [done|]. cbn [iov_tokens flat_map].
  rewrite fins_app. fold (iov_tokens vec). rewrite IH. by rewrite fins_fmap.
Qed.

Lemma clear_items_run rs w :
  clear_items rs w = Ret tt (World (w_trace w ++ flat_map fin_event (fins (tokens rs))) (w_alloc w)).
Proof.
  revert w. induction rs as [|r rs IH]; intros w; cbn [clear_items tokens flat_map].
  { rewrite app_nil_r. by destruct w. }
  fold (tokens rs). rewrite fins_app, flat_map_app.
  destruct r as [vec|infd off len|fin user]; cbn [clear_item record_tokens].
  - by rewrite fins_iov; apply IH.
  - rewrite fins_fmap by done. apply IH.
  - rewrite finalize_bind, IH. destruct (fin =? 0); [done|]. simpl. by rewrite <-app_assoc.
Qed.

Lemma clear_run xf rs w :
  x_rep xf rs ->
  clear xf w = Ret (Xfer (x_alloc xf) [] (total xf))
                   (World (w_trace w ++ flat_map fin_event (fins (tokens rs))) (w_alloc w)).
Proof.
  intros [Hbuf Hok Hfree Htot _]. unfold clear, mbind, M_bind.
  rewrite Hbuf. rewrite (clear_from_refines rs _ [] w Hok), clear_items_run.
  - unfold mret, M_ret, total in *. rewrite Hbuf in *. rewrite wrap64_small by lia.
    by rewrite Z.add_comm.
  - pose proof (length_encode_all rs). simpl. lia.
Qed.

Lemma xfer_clear_rep xf rs : x_rep xf rs -> x_rep (Xfer (x_alloc xf) [] (total xf)) [].
Proof.
  intros [Hbuf Hok Hfree Htot Hnull]. split; simpl; [done|done| | |].
  - unfold total. lia.
  - done.
  - intros Ha. destruct (Hnull Ha) as [-> Hz]. unfold total. by rewrite Hbuf, Hz.
Qed.

Lemma delivered_fin_events ts : delivered (flat_map fin_event ts) = fins ts.
Proof.
  induction ts as [|[?|?|?] ts IH]; [done|exact IH|exact IH|]. cbn [flat_map fin_event].
  unfold fins. rewrite filter_cons_True by done. cbn [app delivered flat_map]. by f_equal.
Qed.

Lemma fins_fins ts : fins (fins ts) = fins ts.
Proof. unfold fins. rewrite list_filter_filter. apply list_filter_iff. naive_solver. Qed.

(** ** try_write *)

Section Write.
Context {Spec : OsSpec OS}.

Lemma execute_walks fd rs w :
  Forall record_ok rs -> exists b rs' w',
    execute fd (encode_all rs) w = Ret (b, encode_all rs') w' /\ walked fd rs w b rs' w'.
Proof.
  intros Hok. destruct (exec_items_walks fd rs w Hok) as (b & rs' & w' & Hrun & Hw).
  exists b, rs', w'. split; [|done]. by rewrite execute_encoded, Hrun.
Qed.

(** The shutdown that follows an error. *)
Definition hangup (fd : Z) (b : bool) (rs' : list record) (w1 w' : world) : Prop :=
  if negb b && negb (bool_decide (rs' = []))
  then exists a, w' = World (w_trace w1 ++ [Sys (ShutdownRd fd) a]) (w_alloc w1)
  else w' = w1.

Lemma xfer_empty_rep a free rs :
  xfer_empty (Xfer a (encode_all rs) free) = bool_decide (rs = []).
Proof.
  unfold xfer_empty. simpl. apply bool_decide_ext. split; [apply encode_all_nil|by intros ->].
Qed.

Lemma try_write_run xf rs fd w :
  x_rep xf rs -> exists b xf' rs' w1 w',
    try_write xf fd w = Ret (b, xf') w' /\ x_rep xf' rs' /\ total xf' = total xf /\
    x_alloc xf' = x_alloc xf /\ walked fd rs w b rs' w1 /\ hangup fd b rs' w1 w'.
Proof.
  intros [Hbuf Hok Hfree Htot Hnull].
  destruct (execute_walks fd rs w Hok) as (b & rs' & w1 & Hrun & Hw).
  pose proof Hw as (tr & _ & _ & _ & Htok & Hok' & Hlen & _).
  set (xf' := Xfer (x_alloc xf) (encode_all rs') (total xf - zlen (encode_all rs'))).
  assert (x_rep xf' rs' /\ total xf' = total xf) as [Hrep Hteq].
  { unfold xf', total in *. rewrite Hbuf in *. split; [|simpl; lia].
    split; simpl; [done|done|lia|unfold total; simpl; lia|].
    intros Ha. destruct (Hnull Ha) as [-> Hz]. simpl in Hlen.
    assert (encode_all rs' = []) as Hnil.
    { destruct (encode_all rs'); [done|simpl in Hlen; lia]. }
    rewrite Hnil. apply encode_all_nil in Hnil. rewrite Hz. auto. }
  assert (try_write xf fd w =
    (if negb b && negb (xfer_empty xf') then _ ← syscall (ShutdownRd fd); mret (b, xf')
     else mret (b, xf')) w1) as ->.
  { unfold try_write. rewrite Hbuf. rewrite (M_bind_ret _ _ _ _ _ Hrun). cbv zeta. unfold xf'.
    assert (wrap64 (zlen (encode_all rs) + x_free xf - zlen (encode_all rs')) =
      total xf - zlen (encode_all rs')) as ->; [|done].
    unfold total in *. rewrite Hbuf in *. rewrite wrap64_small; lia. }
  unfold xf' at 1. rewrite xfer_empty_rep. unfold hangup.
  destruct (negb b && negb (bool_decide (rs' = []))) eqn:Hb.
  - exists b, xf', rs', w1. eexists. split_and!; [done..|]. rewrite Hb. by eexists.
  - exists b, xf', rs', w1, w1. split_and!; [done..|]. by rewrite Hb.
Qed.
End Write.
End Queue.

(** ** The life of an xfer *)

(** Everything a client can do with an [xfer] and a descriptor; [rs] are the
    records pushed so far.  Without [clears], [clear] is not called. *)
Inductive life {OS : Os} (clears : bool) : xfer -> world -> list record -> Prop :=
| life_new script : life clears xfer_new (World [] script) []
| life_push xf w rs p xf' w' :
    life clears xf w rs -> push_ok xf p -> run_push p xf w = Ret xf' w' ->
    life clears xf' w' (rs ++ [pushed p])
| life_push_throw xf w rs p e w' :
    life clears xf w rs -> push_ok xf p -> run_push p xf w = Throw e w' -> life clears xf w' rs
| life_write xf w rs fd b xf' w' :
    life clears xf w rs -> try_write xf fd w = Ret (b, xf') w' -> life clears xf' w' rs
| life_clear xf w rs xf' w' :
    clears = true -> life clears xf w rs -> clear xf w = Ret xf' w' -> life clears xf' w' rs.

(** What has been delivered, and what is still promised, is what was pushed. *)
Definition accounts (clears : bool) (w : world) (rs' rs : list record) : Prop :=
  fins (delivered (w_trace w)) ++ fins (tokens rs') = fins (tokens rs) /\
  (clears = false -> delivered (w_trace w) ++ tokens rs' = tokens rs).

Lemma delivered_hangup fd b rs' w1 w' :
  forall (OS : Os), hangup fd b rs' w1 w' -> delivered (w_trace w') = delivered (w_trace w1).
Proof.
  intros OS. unfold hangup. destruct (_ && _); [|by intros ->].
  intros [a ->]. simpl. rewrite delivered_app. simpl. by rewrite app_nil_r.
Qed.

Lemma xfer_new_rep {OS : Os} : x_rep xfer_new [].
Proof. by split; unfold total; simpl; try lia. Qed.

Lemma life_accounts {OS : Os} {Spec : OsSpec OS} clears xf w rs :
  life clears xf w rs ->
  exists rs', x_rep xf rs' /\ accounts clears w rs' rs.
Proof.
  induction 1 as [script|xf w rs p xf' w' _ IH Hp Hrun|xf w rs p e w' _ IH Hp Hrun
    |xf w rs fd b xf' w' _ IH Hrun|xf w rs xf' w' Hc _ IH Hrun].
  - exists []. split; [exact xfer_new_rep|by split].
  - destruct IH as (rs' & Hrep & Hf & Hd). exists (rs' ++ [pushed p]).
    assert (silent w w' /\ x_rep xf' (rs' ++ [pushed p])) as [Hs Hrep'].
    { pose proof (wp_run_push p xf rs' (fun xf' w' => silent w w' /\ x_rep xf' (rs' ++ [pushed p]))
        (fun _ _ => True) w Hrep Hp) as Hwp. unfold wp in Hwp. rewrite Hrun in Hwp. by apply Hwp. }
    split; [done|]. unfold accounts. rewrite Hs, !tokens_app, !fins_app, <-Hf, app_assoc.
    split; [done|]. intros Hc. by rewrite <-Hd, app_assoc.
  - destruct IH as (rs' & Hrep & Hacc). exists rs'. split; [done|].
    pose proof (wp_run_push p xf rs' (fun _ _ => True) (fun _ w' => silent w w') w Hrep Hp) as Hwp.
    unfold wp in Hwp. rewrite Hrun in Hwp. unfold accounts. by rewrite Hwp.
  - destruct IH as (rs1 & Hrep & Hf & Hd).
    destruct (try_write_run xf rs1 fd w Hrep)
      as (b' & xf1 & rs' & w1 & w1' & Hrun' & Hrep' & _ & _ & Hw & Hh).
    rewrite Hrun in Hrun'. injection Hrun' as <- <- <-. exists rs'. split; [done|].
    destruct Hw as (tr & Htr & _ & _ & Htok & _). unfold accounts.
    rewrite (delivered_hangup _ _ _ _ _ OS Hh), Htr, delivered_app.
    rewrite <-Htok, !fins_app in Hf. rewrite fins_app, <-!app_assoc. split; [done|].
    intros Hc. by rewrite Htok, <-Hd.
  - destruct IH as (rs1 & Hrep & Hf & _). rewrite (clear_run _ _ _ Hrep) in Hrun.
    injection Hrun as <- <-. exists []. split; [by eapply xfer_clear_rep|]. unfold accounts.
    cbn [w_trace tokens flat_map]. change (fins []) with (@nil token).
    rewrite delivered_app, delivered_fin_events, !fins_app, !fins_fins, app_nil_r.
    split; [exact Hf|]. intros Hc'. congruence.
Qed.

Section Overlap.
Context {OS : Os}.

(** An overlapping copy: the vector's head was written entirely, and what is
    left of it is at least as long. *)
Lemma iov_scan_past v1 b l v2 k wl :
  Forall range_ok v1 -> iov_total v1 <= wl < iov_total v1 + l ->
  iov_scan (v1 ++ (b, l) :: v2) k wl = Some ((k + length v1)%nat, wl - iov_total v1).
Proof.
  intros Hv. revert k wl. induction Hv as [|[b1 l1] v1 (? & ? & ?) Hv IH]; intros k wl Hwl;
    simpl in *.
  - destruct (Z.leb_spec l wl); [lia|]. by rewrite Nat.add_0_r, Z.sub_0_r.
  - assert (0 <= iov_total v1) by (rewrite <-length_iov_tokens by done; lia).
    destruct (Z.leb_spec l1 wl); [|lia]. rewrite IH by lia.
    by rewrite Nat.add_succ_comm, Z.sub_add_distr.
Qed.

Lemma refill_overlaps mem from n p (w : world) :
  memcpy_may_overlap = false -> from < 4 + 16 * n -> refill mem from n p w = Undef.
Proof.
  intros Hov Hlt. unfold refill. rewrite Hov.
  unfold sizeof_xfer_type, sizeof_struct_iovec. by destruct (Z.ltb_spec from (4 + 16 * n)); [|lia].
Qed.
End Overlap.

(** With a buffer on the other side, [migrate] is a push of all records. *)
Lemma migrate_push {OS : Os} this to w :
  x_alloc to = true ->
  migrate this to w =
    (to ← push_record to (zlen (x_buf this)) (x_buf this);
     mret (Xfer (x_alloc this) [] (wrap64 (x_free this + zlen (x_buf this))), to)) w.
Proof.
  intros Ha. unfold migrate, push_record, mbind, M_bind. rewrite Ha. cbn [negb].
  destruct (x_free to <? zlen (x_buf this)); [by destruct (reserve to _ w)|done].
Qed.

Lemma migrate_rep {OS : Os} this to rs1 rs2 w :
  x_rep this rs1 -> x_rep to rs2 -> total to <= 2 ^ 61 -> total this <= 2 ^ 61 ->
  wp (migrate this to)
     (fun '(this', to') w' => silent w w' /\ x_rep this' [] /\ x_rep to' (rs2 ++ rs1))
     (fun e w' => e = BadAlloc /\ silent w w') w.
Proof.
  intros H1 H2 Ht Hs. pose proof H1 as [Hb1 Hok1 Hf1 Ht1 Hn1].
  destruct (x_alloc to) eqn:Ha.
  - unfold wp. rewrite migrate_push by done.
    match goal with |- match ?m w with _ => _ end =>
      change (wp m (fun '(this', to') w' => silent w w' /\ x_rep this' [] /\ x_rep to' (rs2 ++ rs1))
        (fun e w' => e = BadAlloc /\ silent w w') w) end.
    unfold total in *. wp_step. rewrite Hb1 in *.
    apply (wp_push_records _ rs2); [done|done|lia|done| |done]. intros to' w' Hsil Hrep.
    wp_step. split_and!; [done| |done]. rewrite wrap64_small by lia.
    split; simpl; [done|done|lia|unfold total; simpl; lia|].
    intros Hnull. destruct (Hn1 Hnull) as [-> Hz]. by rewrite Hz.
  - destruct (xr_null _ _ H2 Ha) as [-> Hz]. unfold migrate. rewrite Ha. cbn [negb].
    wp_step. split; [done|]. split; [exact xfer_new_rep|]. cbn [app]. by split.
Qed.

(** ** Properties *)

(** C13. An xfer that is not cleared is a lossless queue: over any sequence of pushes, failed
    pushes and [try_write]s (a [clear] drops what is queued), on any descriptor and against any answers of the
    kernel, what was delivered followed by what is still queued is exactly what
    was pushed, byte for byte and finalizer for finalizer, in order. *)
Theorem xfer_is_lossless_fifo {OS : Os} {Spec : OsSpec OS} (xf : xfer) (w : world)
    (rs : list record) (Hl : life false xf w rs) :
  exists rs', x_buf xf = encode_all rs' /\ delivered (w_trace w) ++ tokens rs' = tokens rs.
Proof.
  apply life_accounts in Hl as (rs' & Hrep & _ & Hd). exists rs'.
  split; [apply Hrep|by apply Hd].
Qed.

(** C27. Every finalizer runs exactly once and in order: whatever was written,
    failed, partially written or cleared in the life of an xfer, after its
    destructor the finalizers that were called are those that were pushed. *)
Theorem finalizers_run_once {OS : Os} {Spec : OsSpec OS} (xf : xfer) (w : world)
    (rs : list record) (Hl : life true xf w rs) :
  exists w', xfer_delete xf w = Ret tt w' /\ fins (delivered (w_trace w')) = fins (tokens rs).
Proof.
  apply life_accounts in Hl as (rs' & Hrep & Hf & _). unfold xfer_delete.
  destruct (x_alloc xf) eqn:Ha.
  - eexists. rewrite (M_bind_ret _ _ _ _ _ (clear_run _ _ _ Hrep)). split; [done|].
    cbn [w_trace]. by rewrite delivered_app, delivered_fin_events, fins_app, !fins_fins.
  - destruct (xr_null _ _ Hrep Ha) as [-> _]. exists w. split; [done|].
    by rewrite app_nil_r in Hf.
Qed.

(** [try_write]: it returns whether to go on watching the descriptor.  When
    it does, something is left and the kernel's last answer was a partial
    transfer or EAGAIN/EINTR; when it does not, either the queue is empty or the
    last answer was an error or end of file, and then the descriptor was shut
    down for reading. The allocated size is unchanged. *)
Theorem try_write_outcome {OS : Os} {Spec : OsSpec OS} (xf : xfer) (rs : list record)
    (fd : Z) (w : world) (Hrep : x_rep xf rs) :
  exists b xf' rs' tr w',
    try_write xf fd w = Ret (b, xf') w' /\ x_buf xf' = encode_all rs' /\ total xf' = total xf /\
    delivered tr ++ tokens rs' = tokens rs /\
    match b with
    | true => rs' <> [] /\ w_trace w' = w_trace w ++ tr /\ come_back tr
    | false => rs' = [] /\ w_trace w' = w_trace w ++ tr \/
               failed tr /\ rs' <> [] /\
               exists a, w_trace w' = w_trace w ++ tr ++ [Sys (ShutdownRd fd) a]
    end.
Proof.
  destruct (try_write_run xf rs fd w Hrep)
    as (b & xf' & rs' & w1 & w' & Hrun & Hrep' & Ht & _ & (tr & Htr & _ & _ & Hd & _ & _ & Hb) & Hh).
  exists b, xf', rs', tr, w'. split_and!; [done|apply Hrep'|done|done|].
  unfold hangup in Hh. destruct b; cbn [negb andb] in Hh.
  - destruct Hb as [Hne Hcb]. by rewrite Hh, Htr.
  - destruct (decide (rs' = [])) as [He|Hne].
    + rewrite bool_decide_true in Hh by done. left. by rewrite Hh, Htr.
    + rewrite bool_decide_false in Hh by done. destruct Hh as [a ->].
      right. destruct Hb as [?|Hb]; [done|]. split_and!; [done..|].
      exists a. simpl. by rewrite Htr, app_assoc.
Qed.

(** C15. [execute] on the bytes is the walk over the records: from any encoded
    queue it comes back, makes the calls of the walk, in its order, and leaves
    the encoding of what the walk leaves, in-place rewriting of partial vectors
    included. *)
Theorem execute_refines_walk {OS : Os} (fd : Z) (rs : list record) (w : world)
    (Hok : Forall record_ok rs) :
  execute fd (encode_all rs) w = encoded (exec_items fd rs w).
Proof. by apply execute_encoded. Qed.

(** A push appends exactly the record it describes, or throws [bad_alloc]
    (and then the xfer is not touched); it makes no system call. *)
Theorem push_appends {OS : Os} (xf : xfer) (rs : list record) (p : push) (w : world)
    (Hrep : x_rep xf rs) (Hp : push_ok xf p) :
  exists w', w_trace w' = w_trace w /\
    ((exists xf', run_push p xf w = Ret xf' w' /\ x_alloc xf' = true /\
        x_buf xf' = encode_all (rs ++ [pushed p]) /\ 0 <= x_free xf') \/
     run_push p xf w = Throw BadAlloc w').
Proof.
  pose proof (wp_run_push p xf rs
    (fun xf' w' => silent w w' /\ x_rep xf' (rs ++ [pushed p]))
    (fun e w' => e = BadAlloc /\ silent w w') w Hrep Hp) as Hwp.
  unfold wp in Hwp. destruct (run_push p xf w) as [xf' w'|e w'| |].
  - destruct Hwp as [Hs Hrep']; [done..|]. exists w'. split; [done|]. left. exists xf'.
    split_and!; [done| |apply Hrep'|apply Hrep'].
    destruct (x_alloc xf') eqn:Ha; [done|]. destruct (xr_null _ _ Hrep' Ha) as [Hbad _].
    by destruct rs.
  - destruct Hwp as [-> Hs]; [done..|]. exists w'. split; [done|by right].
  - destruct Hwp; done.
  - destruct Hwp; done.
Qed.

(** [migrate] moves every record of one queue behind those of the other,
    and leaves the first empty; it makes no system call. *)
Theorem migrate_concatenates {OS : Os} (this to : xfer) (rs1 rs2 : list record) (w : world)
    (H1 : x_rep this rs1) (H2 : x_rep to rs2)
    (Hs1 : total this <= 2 ^ 61) (Hs2 : total to <= 2 ^ 61) :
  exists w', w_trace w' = w_trace w /\
    ((exists this' to', migrate this to w = Ret (this', to') w' /\
        x_buf this' = [] /\ x_buf to' = encode_all (rs2 ++ rs1)) \/
     migrate this to w = Throw BadAlloc w').
Proof.
  pose proof (migrate_rep this to rs1 rs2 w H1 H2 Hs2 Hs1) as Hwp.
  unfold wp in Hwp. destruct (migrate this to w) as [[this' to'] w'|e w'| |]; [| |done|done].
  - destruct Hwp as (Hs & Hr1 & Hr2). exists w'. split; [done|]. left. exists this', to'.
    split_and!; [done|apply Hr1|apply Hr2].
  - destruct Hwp as (-> & Hs). exists w'. split; [done|by right].
Qed.

(** A partial writev of a vector of at least three entries, with at least
    as many entries left as were finished, makes [fill_iovec] copy a region
    onto an overlapping one with memcpy: unless memcpy tolerates that, which
    the language does not promise, [execute] has undefined behaviour. *)
Theorem overlap_undefined {OS : Os} (fd : Z) (v1 v2 : list (Z * Z)) (b l wl : Z) (out : list Z)
    (rs : list record) (w : world) (Hov : memcpy_may_overlap = false)
    (Hlen : zlen (v1 ++ (b, l) :: v2) < 2 ^ 31) (Hv : Forall range_ok (v1 ++ (b, l) :: v2))
    (Hne : v1 <> []) (Hlong : (length v1 <= length v2)%nat)
    (Hsys : sys (w_trace w) (Writev fd (v1 ++ (b, l) :: v2)) = SysOk wl out)
    (Hwl : 0 < wl /\ iov_total v1 <= wl < iov_total v1 + l) :
  execute fd (encode_all (XIov (v1 ++ (b, l) :: v2) :: rs)) w = Undef.
Proof.
  set (vec := v1 ++ (b, l) :: v2) in *. unfold execute. cbn [execute_from].
  pose proof (more_records [] (XIov vec) rs) as Hmore. cbn [app length] in Hmore.
  change (Z.of_nat 0) with 0 in Hmore. rewrite Hmore.
  assert (load 4 0 (encode_all (XIov vec :: rs)) w = Ret (2 * zlen vec) w) as Hty.
  { erewrite (load_at 4 0 _ [] (Z.shiftl (zlen vec) 1)); [|rewrite encode_all_cons; unfold encode,
      fill_iovec; app_eq|done]. change (8 * Z.of_nat 4) with 32. by rewrite type_word_iov. }
  rewrite (M_bind_ret _ _ _ _ _ Hty).
  destruct (iov_type vec) as (-> & -> & ->).
  assert (load_vec (length vec) 4 (encode_all (XIov vec :: rs)) w = Ret vec w) as Hvec.
  { eapply (load_vec_at _ _ _ (le_bytes 4 (Z.shiftl (zlen vec) 1))); [|done|done].
    rewrite encode_all_cons. unfold encode, fill_iovec. app_eq. }
  rewrite Nat2Z.id, (M_bind_ret _ _ _ _ _ Hvec), syscall_bind. cbv zeta. rewrite Hsys.
  destruct (Z.leb_spec wl 0); [lia|].
  apply Forall_app in Hv as [Hv1 _].
  assert (iov_scan vec 0 wl = Some (length v1, wl - iov_total v1)) as ->
    by (apply (iov_scan_past v1 b l v2 0); [done|lia]).
  unfold load, mbind, M_bind.
  do 2 (destruct (bool_decide _); [cbn [mret M_ret]|done]). unfold mret, M_ret.
  destruct v1 as [|v v1']; [done|]. cbn [length Nat.eqb].
  rewrite refill_overlaps; [done|done|].
  unfold vec. rewrite length_app. simpl length in *. lia.
Qed.

(** ** Witnesses

    A kernel that first takes five bytes, then says EAGAIN, then fails. *)
Definition ex_os : Os := scripted_os true [SysOk 5 []; SysErr EAGAIN; SysErr (EOTHER 32)].

Definition ex_pushes : list push :=
  [PushWritev [(1000, 3); (2000, 4); (3000, 2)]; PushFinalize 7 8; PushSendfile 4 0 100].

Definition ex_push (p : push) (xfw : xfer * world) : xfer * world :=
  match @run_push ex_os p (fst xfw) (snd xfw) with Ret xf w => (xf, w) | _ => xfw end.

Definition ex_try (xfw : xfer * world) : xfer * world :=
  match @try_write ex_os (fst xfw) 9 (snd xfw) with Ret (_, xf) w => (xf, w) | _ => xfw end.

Definition ex_pushed : xfer * world :=
  ex_push (PushSendfile 4 0 100) (ex_push (PushFinalize 7 8)
    (ex_push (PushWritev [(1000, 3); (2000, 4); (3000, 2)]) (xfer_new, World [] []))).

Definition ex_written : xfer * world := ex_try ex_pushed.

Definition returns {S A} (o : outcome S A) : bool := match o with Ret _ _ => true | _ => false end.

Lemma life_ex_push clears s rs p :
  @life ex_os clears (fst s) (snd s) rs -> @push_ok ex_os (fst s) p ->
  returns (@run_push ex_os p (fst s) (snd s)) = true ->
  @life ex_os clears (fst (ex_push p s)) (snd (ex_push p s)) (rs ++ [pushed p]).
Proof.
  unfold ex_push. intros Hl Hp Hr. destruct (run_push p _ _) eqn:Hrun; [|done..].
  by eapply life_push.
Qed.

Lemma life_ex_try clears s rs :
  @life ex_os clears (fst s) (snd s) rs ->
  returns (@try_write ex_os (fst s) 9 (snd s)) = true ->
  @life ex_os clears (fst (ex_try s)) (snd (ex_try s)) rs.
Proof.
  unfold ex_try. intros Hl Hr. destruct (try_write _ _ _) as [[b xf] w| | |] eqn:Hrun; [|done..].
  by eapply life_write.
Qed.

(** The partial write left the middle of the vector, rewritten in place. *)
Example ex_written_buf :
  x_buf (fst ex_written) =
  encode_all [XIov [(2002, 2); (3000, 2)]; XFin 7 8; XSend 4 0 100].
Proof. vm_compute. reflexivity. Qed.


Lemma ex_life_pushed clears :
  @life ex_os clears (fst ex_pushed) (snd ex_pushed)
    ((([] ++ [pushed (PushWritev [(1000, 3); (2000, 4); (3000, 2)])]) ++ [pushed (PushFinalize 7 8)])
      ++ [pushed (PushSendfile 4 0 100)]).
Proof.
  unfold ex_pushed. apply life_ex_push; [|decided|vm_compute; reflexivity].
  apply life_ex_push; [|decided|vm_compute; reflexivity].
  apply life_ex_push; [|decided|vm_compute; reflexivity]. apply (life_new (OS := ex_os)).
Qed.

Lemma ex_life clears :
  @life ex_os clears (fst ex_written) (snd ex_written) (pushed <$> ex_pushes).
Proof. apply life_ex_try; [apply ex_life_pushed|vm_compute; reflexivity]. Qed.

Lemma xfer_is_lossless_fifo_witness :
  exists rs', x_buf (fst ex_written) = encode_all rs' /\
    delivered (w_trace (snd ex_written)) ++ tokens rs' = tokens (pushed <$> ex_pushes).
Proof. exact (@xfer_is_lossless_fifo ex_os _ _ _ _ (ex_life false)). Defined.

Lemma finalizers_run_once_witness :
  exists w', xfer_delete (fst ex_written) (snd ex_written) = Ret tt w' /\
    fins (delivered (w_trace w')) = [TFin 7 8].
Proof. exact (@finalizers_run_once ex_os _ _ _ _ (ex_life true)). Defined.

Lemma ex_records_ok : Forall (@record_ok ex_os) (pushed <$> ex_pushes).
Proof. decided. Qed.

Lemma ex_rep : @x_rep ex_os (fst ex_pushed) (pushed <$> ex_pushes).
Proof. split; [vm_compute; reflexivity|exact ex_records_ok|decided|decided|done]. Qed.

Lemma try_write_outcome_witness :
  exists b xf' rs' tr w',
    @try_write ex_os (fst ex_pushed) 9 (snd ex_pushed) = Ret (b, xf') w' /\
    x_buf xf' = encode_all rs' /\ total xf' = total (fst ex_pushed) /\
    delivered tr ++ tokens rs' = tokens (pushed <$> ex_pushes) /\
    match b with
    | true => rs' <> [] /\ w_trace w' = w_trace (snd ex_pushed) ++ tr /\ come_back tr
    | false => rs' = [] /\ w_trace w' = w_trace (snd ex_pushed) ++ tr \/
               failed tr /\ rs' <> [] /\
               exists a, w_trace w' = w_trace (snd ex_pushed) ++ tr ++ [Sys (ShutdownRd 9) a]
    end.
Proof. exact (@try_write_outcome ex_os _ _ _ 9 _ ex_rep). Defined.

Lemma execute_refines_walk_witness :
  @execute ex_os 9 (encode_all (pushed <$> ex_pushes)) (World [] []) =
  encoded (@exec_items ex_os 9 (pushed <$> ex_pushes) (World [] [])).
Proof. exact (@execute_refines_walk ex_os 9 _ _ ex_records_ok). Defined.

Lemma push_appends_witness :
  exists w', w_trace w' = [] /\
    ((exists xf', @run_push ex_os (PushWrite 1000 3) xfer_new (World [] [true]) = Ret xf' w' /\
        x_alloc xf' = true /\ x_buf xf' = encode_all [XIov [(1000, 3)]] /\ 0 <= x_free xf') \/
     @run_push ex_os (PushWrite 1000 3) xfer_new (World [] [true]) = Throw BadAlloc w').
Proof.
  refine (@push_appends ex_os xfer_new [] (PushWrite 1000 3) (World [] [true]) xfer_new_rep _).
  decided.
Defined.

Lemma migrate_concatenates_witness :
  exists w', w_trace w' = w_trace (World [] []) /\
    ((exists this' to', migrate (fst ex_pushed) (fst ex_pushed)
        (World [] []) = Ret (this', to') w' /\ x_buf this' = [] /\
        x_buf to' = encode_all ((pushed <$> ex_pushes) ++ (pushed <$> ex_pushes))) \/
     migrate (fst ex_pushed) (fst ex_pushed) (World [] [])
       = Throw BadAlloc w').
Proof.
  refine (@migrate_concatenates ex_os _ _ _ _ (World [] []) ex_rep ex_rep _ _);
    vm_compute; discriminate.
Defined.

Lemma overlap_undefined_witness :
  @execute (scripted_os false [SysOk 5 []]) 9
    (encode_all [XIov [(1000, 3); (2000, 4); (3000, 2)]]) (World [] []) = Undef.
Proof.
  refine (@overlap_undefined (scripted_os false [SysOk 5 []]) 9 [(1000, 3)] [(3000, 2)] 2000 4 5 []
    [] (World [] []) eq_refl _ _ _ _ eq_refl _); decided.
Defined.
