(* ===== verification/XferDecode.v ===== *)
(** * The bytes of an xfer are typed

    The walks of [execute] and [clear] trust that the buffer is a sequence of
    whole records.  [decode] is a reference reader of the format, independent
    of the walks: it inverts what the [fill_] functions write, and every buffer
    an [xfer] ever holds reads back as records the walks can trust. *)

From Stdlib Require Import ZArith Lia.
From stdpp Require Import base tactics option list numbers.
From S2P Require Import Prelude Os Xfer XferQueue.

(** ** Reading records from bytes *)

(** The first [n] bytes as a little-endian word, and the bytes after them. *)
Definition word (n : nat) (bs : list Z) : option (Z * list Z) :=
  if bool_decide (n <= length bs)%nat then Some (le_val (take n bs), drop n bs) else None.

Fixpoint decode_vec (n : nat) (bs : list Z) : option (list (Z * Z) * list Z) :=
  match n with
  | O => Some ([], bs)
  | S n =>
      '(base, bs) ← word 8 bs;
      '(len, bs) ← word 8 bs;
      '(vec, bs) ← decode_vec n bs;
      Some ((base, len) :: vec, bs)
  end.

(** One record and the bytes after it; the type word of a vector is even. *)
Definition decode_record (bs : list Z) : option (record * list Z) :=
  '(ty, bs) ← word 4 bs;
  if ty =? XF_SENDFILE then
    '(infd, bs) ← word 4 bs;
    '(_, bs) ← word 4 bs;
    '(off, bs) ← word 8 bs;
    '(len, bs) ← word 8 bs;
    Some (XSend (signed 32 infd) (signed 64 off) len, bs)
  else if ty =? XF_FINALIZE then
    '(fin, bs) ← word 8 bs;
    '(user, bs) ← word 8 bs;
    Some (XFin fin user, bs)
  else if Z.odd ty then None
  else
    '(vec, bs) ← decode_vec (Z.to_nat (Z.shiftr ty 1)) bs;
    Some (XIov vec, bs).

Fixpoint decode_from (fuel : nat) (bs : list Z) : option (list record) :=
  match fuel, bs with
  | _, [] => Some []
  | O, _ => None
  | S fuel, _ =>
      '(r, bs) ← decode_record bs;
      rs ← decode_from fuel bs;
      Some (r :: rs)
  end.

(** A record takes more than one byte. *)
Definition decode (bs : list Z) : option (list record) := decode_from (length bs) bs.

(** Bytes that are a sequence of records which the walks can trust. *)
Definition typed {OS : Os} (bs : list Z) : Prop :=
  exists rs, decode bs = Some rs /\ Forall record_ok rs.

(** ** Reading what was written *)

Lemma word_at n z rest : word n (le_bytes n z ++ rest) = Some (z mod 2 ^ (8 * Z.of_nat n), rest).
Proof.
  unfold word. rewrite bool_decide_true by (rewrite length_app, length_le_bytes; lia).
  rewrite take_app_length', drop_app_length' by (by rewrite length_le_bytes). by rewrite le_val_bytes.
Qed.

Lemma word_small n z rest :
  0 <= z < 2 ^ (8 * Z.of_nat n) -> word n (le_bytes n z ++ rest) = Some (z, rest).
Proof. intros Hz. by rewrite word_at, Z.mod_small. Qed.

(** Reading a word that was stored from a signed value. *)
Lemma signed_wrap w z : 0 < w -> - 2 ^ (w - 1) <= z < 2 ^ (w - 1) -> signed w (z mod 2 ^ w) = z.
Proof.
  intros Hw Hz. rewrite <-(signed_small w z) at 2 by done. unfold signed, wrap.
  by rewrite Z.mod_mod by (apply Z.pow_nonzero; lia).
Qed.

Lemma decode_vec_at vec rest :
  Forall range_ok vec -> decode_vec (length vec) (iovec_bytes vec ++ rest) = Some (vec, rest).
Proof.
  induction 1 as [|[b l] vec [? [? ?]] _ IH]; [done|]. cbn [fst snd] in *.
  cbn [length decode_vec iovec_bytes flat_map fst snd]. fold (iovec_bytes vec).
  rewrite <-!app_assoc, (word_small 8 b) by (simpl; lia). cbn [mbind option_bind].
  rewrite (word_small 8 l) by (simpl; lia). cbn [mbind option_bind]. by rewrite IH.
Qed.

Lemma decode_record_at {OS : Os} r rest :
  record_ok r -> decode_record (encode r ++ rest) = Some (r, rest).
Proof.
  intros Hok. unfold decode_record. destruct r as [vec|infd off len|fin user]; simpl in Hok; cbn [encode].
  - destruct Hok as (Hlen & Hv & _). unfold fill_iovec. rewrite <-app_assoc, word_at. cbn [mbind option_bind].
    change (8 * Z.of_nat 4) with 32. rewrite type_word_iov by done.
    destruct (iov_type vec) as (-> & -> & ->). rewrite Z.odd_mul. cbn [Z.odd andb].
    by rewrite Nat2Z.id, decode_vec_at.
  - destruct Hok as (Hin & Hoff & Hl & Hend). unfold fill_sendfile. rewrite <-!app_assoc.
    rewrite word_small by done. cbn [mbind option_bind]. rewrite word_at. cbn [mbind option_bind].
    change ([0; 0; 0; 0] ++ ?x) with (le_bytes 4 0 ++ x).
    rewrite word_small by done. cbn [mbind option_bind]. rewrite word_small by (simpl; lia). cbn [mbind option_bind]. rewrite word_small by (simpl; lia). cbn [mbind option_bind].
    change (8 * Z.of_nat 4) with 32. rewrite (signed_wrap 32 infd) by lia. by rewrite (signed_small 64 off) by lia.
  - unfold fill_finalize. rewrite <-!app_assoc. rewrite word_small by done. cbn [mbind option_bind].
    rewrite word_small by (simpl; lia). cbn [mbind option_bind]. by rewrite word_small by (simpl; lia).
Qed.

Lemma decode_from_at {OS : Os} rs fuel :
  Forall record_ok rs -> (length (encode_all rs) <= fuel)%nat -> decode_from fuel (encode_all rs) = Some rs.
Proof.
  intros Hok. revert fuel. induction Hok as [|r rs Hr _ IH]; intros fuel Hf; [by destruct fuel|].
  pose proof (encode_pos r). rewrite encode_all_cons in *. rewrite length_app in Hf.
  destruct fuel as [|fuel]; [lia|].
  assert (decode_from (S fuel) (encode r ++ encode_all rs) =
    '(r, bs) ← decode_record (encode r ++ encode_all rs); rs ← decode_from fuel bs; Some (r :: rs)) as ->.
  { cbn [decode_from]. destruct (encode r ++ encode_all rs) eqn:Hnil; [|done].
    apply (f_equal length) in Hnil. rewrite length_app in Hnil. simpl in Hnil. lia. }
  rewrite decode_record_at by done. cbn [mbind option_bind]. rewrite IH by lia. done.
Qed.

Lemma decode_encode_all {OS : Os} rs : Forall record_ok rs -> decode (encode_all rs) = Some rs.
Proof. intros. by apply decode_from_at. Qed.

Lemma x_rep_decodes {OS : Os} xf rs : x_rep xf rs -> decode (x_buf xf) = Some rs.
Proof. intros H. rewrite (xr_buf _ _ H). apply decode_encode_all, H. Qed.

(** Encoding is injective on records a caller can mean. *)
Lemma encode_all_inj {OS : Os} rs1 rs2 :
  Forall record_ok rs1 -> Forall record_ok rs2 -> encode_all rs1 = encode_all rs2 -> rs1 = rs2.
Proof. intros H1 H2 He. apply decode_encode_all in H1, H2. congruence. Qed.

(** A buffer represents one list of records. *)
Lemma x_rep_unique {OS : Os} xf rs1 rs2 : x_rep xf rs1 -> x_rep xf rs2 -> rs1 = rs2.
Proof. intros H1%x_rep_decodes H2%x_rep_decodes. congruence. Qed.

(** ** Properties *)

(** C16. Round trip: after a push function returns, reading the bytes gives the
    records that were there before and, last, the one that was pushed with all its
    fields. *)
Theorem push_roundtrip {OS : Os} (xf xf' : xfer) (rs : list record) (p : push) (w w' : world)
    (Hrep : x_rep xf rs) (Hp : push_ok xf p) (Hrun : run_push p xf w = Ret xf' w') :
  decode (x_buf xf) = Some rs /\ decode (x_buf xf') = Some (rs ++ [pushed p]).
Proof.
  split; [by apply x_rep_decodes|].
  pose proof (wp_run_push p xf rs (fun xf' _ => x_rep xf' (rs ++ [pushed p])) (fun _ _ => True) w Hrep Hp) as Hwp.
  unfold wp in Hwp. rewrite Hrun in Hwp. apply x_rep_decodes, Hwp; [done|done].
Qed.

(** C17. Every buffer an [xfer] ever holds, whatever was pushed, failed, was written
    or was cleared before, is a sequence of whole records with lengths, descriptors
    and offsets in range; and the records that the reader finds there are the ones
    still owed. *)
Theorem xfer_stays_typed {OS : Os} {Spec : OsSpec OS} (clears : bool) (xf : xfer) (w : world)
    (rs : list record) (Hl : life clears xf w rs) :
  typed (x_buf xf) /\
  forall rs', decode (x_buf xf) = Some rs' ->
    fins (delivered (w_trace w)) ++ fins (tokens rs') = fins (tokens rs) /\
    (clears = false -> delivered (w_trace w) ++ tokens rs' = tokens rs).
Proof.
  apply life_accounts in Hl as (rs' & Hrep & Hacc). pose proof (x_rep_decodes _ _ Hrep) as Hd.
  split; [exists rs'; split; [done|apply Hrep]|]. intros rs2 Hd2. assert (rs2 = rs') as -> by congruence. done.
Qed.

(** ** On the concrete environment of the queue *)

Lemma push_roundtrip_witness :
  exists xf' w', run_push (OS := ex_os) (PushSendfile 4 3 100) (fst ex_pushed) (snd ex_pushed) = Ret xf' w' /\
    decode (x_buf (fst ex_pushed)) = Some (pushed <$> ex_pushes) /\
    decode (x_buf xf') = Some ((pushed <$> ex_pushes) ++ [XSend 4 3 100]).
Proof.
  eexists _, _. split; [vm_compute; reflexivity|].
  eapply (push_roundtrip (OS := ex_os) (fst ex_pushed) _ _ (PushSendfile 4 3 100) (snd ex_pushed) _ ex_rep); [decided|].
  vm_compute; reflexivity.
Defined.

Lemma xfer_stays_typed_witness :
  decode (x_buf (fst ex_written)) = Some [XIov [(2002, 2); (3000, 2)]; XFin 7 8; XSend 4 0 100] /\
  typed (OS := ex_os) (x_buf (fst ex_written)) /\
  forall rs', decode (x_buf (fst ex_written)) = Some rs' ->
    fins (delivered (w_trace (snd ex_written))) ++ fins (tokens rs') = [TFin 7 8] /\
    (true = false -> delivered (w_trace (snd ex_written)) ++ tokens rs' = tokens (pushed <$> ex_pushes)).
Proof. split; [by vm_compute|]. exact (@xfer_stays_typed ex_os _ true _ _ _ (ex_life true)). Defined.

(** Bytes that no push writes are refused: a type word that is odd, and a vector
    that is cut short. *)
Example decode_rejects : decode [5; 0; 0; 0] = None /\ decode [2; 0; 0; 0; 1; 2; 3] = None.
Proof. by vm_compute. Qed.
