(* ===== verification/Kernel.v ===== *)
(** * The kernel interface (src/mpsrc/wavy_kernel.h)

    The event loop and the output queue use the operating system's event
    notification through a class [kernel], of which src/mpsrc/wavy_kernel.h
    gives the signature and each of wavy_kernel_epoll.h and
    wavy_kernel_kqueue.h an implementation.  [Kernel] is that signature;
    [KernelLaws] is what the clients rely on: registrations are one-shot, so
    that an identifier that was reported is not reported again before it is
    reactivated. *)

From Stdlib Require Import ZArith Lia.
From stdpp Require Import base tactics option list numbers gmap sets.
From S2P Require Import Prelude Os.

Definition MP_WAVY_KERNEL_BACKLOG_SIZE : Z := 1024.

Class Kernel (OS : Os) := {
  kernel : Type;
  kevent : Type;
  EVKERNEL_READ : Z;
  EVKERNEL_WRITE : Z;
  event_ident : kevent -> Z;
  kernel_new : M world kernel;
  kernel_delete : kernel -> M world unit;
  kernel_ident : kernel -> Z;
  kernel_max : kernel -> M world Z;
  add_fd : kernel -> Z -> Z -> M world sysret;
  remove_fd : kernel -> Z -> Z -> M world sysret;
  (** [wait]: the events it stored, or errno. *)
  wait : kernel -> Z -> M world (errno + list kevent);
  reactivate : kernel -> kevent -> M world sysret;
  remove : kernel -> kevent -> M world sysret
}.

(** [add_kernel(kern)]: watch another kernel for reading. *)
Definition add_kernel {OS} {K : Kernel OS} (this kern : kernel) : M world sysret :=
  r ← add_fd this (kernel_ident kern) EVKERNEL_READ;
  mret (match r with SysErr e => SysErr e | SysOk _ out => SysOk (kernel_ident kern) out end).

(** What the clients rely on.  A client uses a kernel for one kind of event, its
    mode, EVKERNEL_READ or EVKERNEL_WRITE.  [armed k tr] are the identifiers the
    operating system may report to [k] after the calls of [tr]; the calls that
    do not concern registrations are those for which [registers] is false, and
    [refused] are the calls that failed to register.  [kernel_wf k m tr] holds as
    long as only the operations of the interface made registrations with [k],
    all in mode [m]; [event_ok m] holds of the events [wait] reports then. *)
Definition same_kernel {OS} {K : Kernel OS} (k k' : kernel) : bool :=
  bool_decide (kernel_ident k' = kernel_ident k).

(** The registrations of [k'] after [k] armed [id] with result [r]. *)
Definition arms {OS} {K : Kernel OS} (k k' : kernel) (id : Z) (r : sysret) (before : gset Z) : gset Z :=
  if same_kernel k k' && negb (is_err r) then {[id]} ∪ before else before.

(** Calls of the loop that concern no kernel. *)
Definition unrelated (r : request) : bool :=
  match r with
  | SetNonblock _ | PthreadCreate | PthreadJoin _ | PthreadDetach _ => true
  | _ => false
  end.

Class KernelLaws {OS : Os} (K : Kernel OS) := {
  armed : kernel -> trace -> gset Z;
  registers : event -> bool;
  refused : event -> bool;
  kernel_wf : kernel -> Z -> trace -> Prop;
  event_ok : Z -> kevent -> Prop;
  kernel_wf_new k m : kernel_wf k m [] /\ armed k [] = ∅;
  other_events k m tr ev :
    registers ev = false -> kernel_wf k m tr ->
    kernel_wf k m (tr ++ [ev]) /\ armed k (tr ++ [ev]) = armed k tr;
  stream_not_registers r a fd : stream_of r = Some fd -> registers (Sys r a) = false;
  unrelated_not_registers r a : unrelated r = true -> registers (Sys r a) = false;
  finalize_not_registers fin user : registers (Finalize fin user) = false;
  refused_registers ev : refused ev = true -> registers ev = true;
  add_fd_arms k fd f w : f = EVKERNEL_READ \/ f = EVKERNEL_WRITE ->
    wp (add_fd k fd f) (fun r w' => quiet w w' /\
      (Forall (fun ev => refused ev = false) (w_trace w') -> is_err r = false) /\
      forall k' m, kernel_wf k' m (w_trace w) -> (same_kernel k k' = true -> m = f /\ 0 <= fd) ->
        kernel_wf k' m (w_trace w') /\
        armed k' (w_trace w') = arms k k' fd r (armed k' (w_trace w))) no_exn w;
  remove_fd_disarms k fd f w :
    wp (remove_fd k fd f) (fun r w' => quiet w w' /\
      forall k' m, kernel_wf k' m (w_trace w) -> kernel_wf k' m (w_trace w') /\
        armed k' (w_trace w') ⊆ armed k' (w_trace w) /\
        (same_kernel k k' = false -> armed k' (w_trace w') = armed k' (w_trace w))) no_exn w;
  wait_disarms k m timeout w : kernel_wf k m (w_trace w) ->
    wp (wait k timeout) (fun r w' => quiet w w' /\
      let es := match r with inl _ => [] | inr es => es end in
      let ids := event_ident <$> es in
      Forall (event_ok m) es /\ NoDup ids /\ list_to_set ids ⊆ armed k (w_trace w) /\
      zlen es <= MP_WAVY_KERNEL_BACKLOG_SIZE /\
      forall k' m', kernel_wf k' m' (w_trace w) -> kernel_wf k' m' (w_trace w') /\
        armed k' (w_trace w') =
          if same_kernel k k' then armed k' (w_trace w) ∖ list_to_set ids
          else armed k' (w_trace w)) no_exn w;
  reactivate_arms k m e w : event_ok m e ->
    wp (reactivate k e) (fun r w' => quiet w w' /\
      (Forall (fun ev => refused ev = false) (w_trace w') -> is_err r = false) /\
      forall k' m', kernel_wf k' m' (w_trace w) -> (same_kernel k k' = true -> m' = m) ->
        kernel_wf k' m' (w_trace w') /\
        armed k' (w_trace w') = arms k k' (event_ident e) r (armed k' (w_trace w))) no_exn w;
  remove_disarms k e w :
    wp (remove k e) (fun r w' => quiet w w' /\
      forall k' m, kernel_wf k' m (w_trace w) -> kernel_wf k' m (w_trace w') /\
        armed k' (w_trace w') ⊆ armed k' (w_trace w) /\
        armed k' (w_trace w) ⊆ {[event_ident e]} ∪ armed k' (w_trace w') /\
        (same_kernel k k' = false -> armed k' (w_trace w') = armed k' (w_trace w))) no_exn w
}.
