(* ===== verification/KernelEpoll.v ===== *)
(** * kernel on epoll (src/mpsrc/wavy_kernel_epoll.h)

    Every registration is EPOLLONESHOT and carries, in [data.u64], the
    descriptor in its low half and the event mask in its high half; an event
    is that word, and re-arming passes it back.  [EpollSpec] states the
    documented behaviour of the epoll calls, from which the laws of the kernel
    interface are proved. *)

From Stdlib Require Import ZArith Lia.
From stdpp Require Import base tactics option list numbers gmap sets fin_maps.
From S2P Require Import Prelude Os Kernel.

Definition EPOLLIN : Z := 1.
Definition EPOLLOUT : Z := 4.
Definition EPOLLONESHOT : Z := 2 ^ 30.

(** ** class kernel::event *)

Definition ev_ident (m_data : Z) : Z := signed 32 (Z.land m_data 0xffffffff).
Definition ev_events (m_data : Z) : Z := wrap32 (Z.shiftr m_data 32).

Definition CLOCK_REALTIME : Z := 0.

Section Epoll.
Context {OS : Os}.

(** [m_ep] *)
Definition epoll_new : M world Z :=
  r ← syscall (EpollCreate MP_WAVY_KERNEL_BACKLOG_SIZE);
  match r with
  | SysOk ep _ => mret ep
  | SysErr e => throw (SystemError (errno_code e))
  end.

Definition epoll_delete (m_ep : Z) : M world unit := _ ← syscall (Close m_ep); mret tt.

Definition epoll_max (m_ep : Z) : M world Z :=
  r ← syscall Getrlimit;
  match r with
  | SysOk rlim_cur _ => mret rlim_cur
  | SysErr e => throw (SystemError (errno_code e))
  end.

(** The word stored with a registration. *)
Definition ev_data (fd events : Z) : Z := Z.lor (wrap64 fd) (wrap64 (Z.shiftl events 32)).

Definition epoll_add_fd (m_ep fd event : Z) : M world sysret :=
  let events := wrap32 (Z.lor event EPOLLONESHOT) in
  syscall (EpollAdd m_ep fd events (ev_data fd events)).

Definition epoll_remove_fd (m_ep fd event : Z) : M world sysret := syscall (EpollDel m_ep fd).

Definition epoll_wait (m_ep timeout_msec : Z) : M world (errno + list Z) :=
  r ← syscall (EpollWait m_ep MP_WAVY_KERNEL_BACKLOG_SIZE timeout_msec);
  match r with
  | SysOk n out => mret (inr (take (Z.to_nat n) out))
  | SysErr e => mret (inl e)
  end.

Definition epoll_reactivate (m_ep e : Z) : M world sysret :=
  syscall (EpollMod m_ep (ev_ident e) (ev_events e) e).

Definition epoll_remove (m_ep e : Z) : M world sysret := syscall (EpollDel m_ep (ev_ident e)).

(** ** Timers and signals: descriptors of their own

    [tm->fd] (or [sg->fd]) is -1 until the registration succeeds. *)

(** [::close(fd); return -1;] with the errno of the failed call, unless close fails too. *)
Definition close_and_fail (fd : Z) (e : errno) (tm : Z) : M world (sysret * Z) :=
  a ← syscall (Close fd); mret (SysErr (errno_after e a), tm).

(** [fcntl(fd, F_SETFL, O_NONBLOCK)], then [setup], then [add_fd]. *)
Definition epoll_add_timer (m_ep tm : Z) (value interval : option (Z * Z)) : M world (sysret * Z) :=
  r ← syscall TimerfdCreate;
  match r with
  | SysErr e => mret (SysErr e, tm)
  | SysOk fd _ =>
      r ← syscall (SetNonblock fd);
      match r with
      | SysErr e => close_and_fail fd e tm
      | SysOk _ _ =>
          let it_interval := default (0, 0) interval in
          let it_value := default it_interval value in
          r ← syscall (TimerfdSettime fd it_value it_interval);
          match r with
          | SysErr e => close_and_fail fd e tm
          | SysOk _ _ =>
              r ← epoll_add_fd m_ep fd EPOLLIN;
              match r with
              | SysErr e => close_and_fail fd e tm
              | SysOk _ out => mret (SysOk fd out, fd)
              end
          end
      end
  end.

Definition epoll_timer_delete (tm : Z) : M world unit :=
  if 0 <=? tm then _ ← syscall (Close tm); mret tt else mret tt.

Definition epoll_remove_timer (m_ep ident : Z) : M world sysret := epoll_remove_fd m_ep ident EPOLLIN.

Definition epoll_read_timer (e : Z) : M world bool :=
  r ← syscall (Read (ev_ident e) 8);
  mret (match r with SysOk n _ => 0 <? n | SysErr _ => false end).

Definition epoll_add_signal (m_ep sg signo : Z) : M world (sysret * Z) :=
  r ← syscall (Signalfd signo);
  match r with
  | SysErr e => mret (SysErr e, sg)
  | SysOk fd _ =>
      r ← syscall (SetNonblock fd);
      match r with
      | SysErr e => close_and_fail fd e sg
      | SysOk _ _ =>
          r ← epoll_add_fd m_ep fd EPOLLIN;
          match r with
          | SysErr e => close_and_fail fd e sg
          | SysOk _ out => mret (SysOk fd out, fd)
          end
      end
  end.

Definition epoll_signal_delete (sg : Z) : M world unit :=
  if 0 <=? sg then _ ← syscall (Close sg); mret tt else mret tt.

Definition epoll_remove_signal (m_ep ident : Z) : M world sysret :=
  epoll_remove_fd m_ep ident EPOLLIN.

Definition sizeof_signalfd_siginfo : Z := 128.

Definition epoll_read_signal (e : Z) : M world bool :=
  r ← syscall (Read (ev_ident e) sizeof_signalfd_siginfo);
  mret (match r with SysOk n _ => 0 <? n | SysErr _ => false end).
End Epoll.

#[export] Instance epoll_kernel (OS : Os) : Kernel OS := {|
  kernel := Z;
  kevent := Z;
  EVKERNEL_READ := EPOLLIN;
  EVKERNEL_WRITE := EPOLLOUT;
  event_ident := ev_ident;
  kernel_new := epoll_new;
  kernel_delete := epoll_delete;
  kernel_ident := fun m_ep => m_ep;
  kernel_max := epoll_max;
  add_fd := epoll_add_fd;
  remove_fd := epoll_remove_fd;
  wait := epoll_wait;
  reactivate := epoll_reactivate;
  remove := epoll_remove
|}.

(** ** The event word *)

Lemma land_low32 z : Z.land z 0xffffffff = z mod 2 ^ 32.
Proof. change 0xffffffff with (Z.ones 32). by apply Z.land_ones. Qed.

Lemma ev_data_sum fd events :
  0 <= fd < 2 ^ 31 -> 0 <= events < 2 ^ 32 -> ev_data fd events = fd + events * 2 ^ 32.
Proof.
  intros Hf He. unfold ev_data. rewrite Z.shiftl_mul_pow2 by lia. rewrite !wrap64_small by lia.
  rewrite <-Z.lxor_lor; [symmetry; apply Z.add_nocarry_lxor|]; apply Z.bits_inj'; intros n Hn;
    rewrite Z.land_spec, Z.bits_0; destruct (Z.lt_ge_cases n 32).
  1, 3: by rewrite Z.mul_pow2_bits_low, andb_false_r by lia.
  all: rewrite Z.bits_above_log2, andb_false_l; [done|lia|].
  all: destruct (decide (fd = 0)) as [->|]; [simpl; lia|].
  all: apply Z.log2_lt_pow2; [lia|]; pose proof (Z.pow_le_mono_r 2 32 n); lia.
Qed.

Lemma ev_ident_data fd events :
  0 <= fd < 2 ^ 31 -> 0 <= events < 2 ^ 32 -> ev_ident (ev_data fd events) = fd.
Proof.
  intros. unfold ev_ident. rewrite ev_data_sum, land_low32, Z_mod_plus_full, Z.mod_small by lia.
  apply signed_small; lia.
Qed.

Lemma ev_events_data fd events :
  0 <= fd < 2 ^ 31 -> 0 <= events < 2 ^ 32 -> ev_events (ev_data fd events) = events.
Proof.
  intros. unfold ev_events. rewrite ev_data_sum, Z.shiftr_div_pow2 by lia.
  rewrite Z.div_add, Z.div_small, Z.add_0_l by lia. apply wrap32_small. lia.
Qed.

(** ** What epoll remembers

    The registrations that can be reported, by descriptor: the event mask and
    the word.  A one-shot registration is gone once it is reported. *)
Abbreviation regs := (gmap Z (Z * Z)).

Definition one_shot (events : Z) : bool := Z.testbit events 30.

Definition reg_step (ep : Z) (m : regs) (ev : event) : regs :=
  match ev with
  | Sys (EpollAdd ep' fd events data) (SysOk _ _)
  | Sys (EpollMod ep' fd events data) (SysOk _ _) =>
      if bool_decide (ep' = ep) then <[fd := (events, data)]> m else m
  | Sys (EpollDel ep' fd) (SysOk _ _) => if bool_decide (ep' = ep) then delete fd m else m
  | Sys (EpollWait ep' _ _) (SysOk n out) =>
      if bool_decide (ep' = ep)
      then filter (fun p => one_shot (fst (snd p)) = false \/ snd (snd p) ∉ take (Z.to_nat n) out) m
      else m
  | _ => m
  end.

Definition regs_of (ep : Z) (tr : trace) : regs := fold_left (reg_step ep) tr ∅.

(** epoll_ctl(2) accepts valid descriptors; epoll_wait(2) reports at most
    [maxevents] registrations, each at most once. *)
Class EpollSpec (OS : Os) : Prop := {
  epoll_add_fd_valid tr ep fd events data n out :
    sys tr (EpollAdd ep fd events data) = SysOk n out -> 0 <= fd < 2 ^ 31;
  epoll_wait_reports tr ep maxevents timeout n out :
    sys tr (EpollWait ep maxevents timeout) = SysOk n out ->
    0 <= n <= maxevents /\ exists fds, NoDup fds /\
      Forall2 (fun fd d => exists events, regs_of ep tr !! fd = Some (events, d)) fds
        (take (Z.to_nat n) out)
}.

(** The words [kernel] registers. *)
Definition reg_ok (fd events data : Z) : Prop :=
  0 <= fd < 2 ^ 31 /\ 0 <= events < 2 ^ 32 /\ one_shot events = true /\ data = ev_data fd events.

#[export] Instance reg_ok_dec fd events data : Decision (reg_ok fd events data).
Proof. unfold reg_ok. apply _. Defined.

Definition epoll_event_ok (e : Z) : Prop := exists fd events, reg_ok fd events e.

Definition epoll_wf (ep : Z) (tr : trace) : Prop :=
  map_Forall (fun fd p => reg_ok fd (fst p) (snd p)) (regs_of ep tr).

#[export] Instance epoll_wf_dec ep tr : Decision (epoll_wf ep tr).
Proof. unfold epoll_wf. apply _. Defined.

Definition epoll_armed (ep : Z) (tr : trace) : gset Z := dom (regs_of ep tr).

Definition epoll_registers (ev : event) : bool :=
  match ev with
  | Sys (EpollAdd _ _ _ _) _ | Sys (EpollMod _ _ _ _) _ | Sys (EpollDel _ _) _
  | Sys (EpollWait _ _ _) _ => true
  | _ => false
  end.

Definition epoll_refused (ev : event) : bool :=
  match ev with
  | Sys (EpollAdd _ _ _ _) a | Sys (EpollMod _ _ _ _) a => is_err a
  | _ => false
  end.

Lemma regs_of_snoc ep tr ev : regs_of ep (tr ++ [ev]) = reg_step ep (regs_of ep tr) ev.
Proof. unfold regs_of. by rewrite fold_left_app. Qed.

Lemma one_shot_set event : one_shot (wrap32 (Z.lor event EPOLLONESHOT)) = true.
Proof.
  unfold one_shot, wrap, EPOLLONESHOT. rewrite Z.mod_pow2_bits_low by lia.
  rewrite Z.lor_spec. change (Z.testbit (2 ^ 30) 30) with true. apply orb_true_r.
Qed.

Lemma reg_ok_ident fd events data : reg_ok fd events data -> ev_ident data = fd.
Proof. intros (? & ? & _ & ->). by apply ev_ident_data. Qed.

Lemma reg_ok_events fd events data : reg_ok fd events data -> ev_events data = events.
Proof. intros (? & ? & _ & ->). by apply ev_events_data. Qed.

Section Laws.
Context {OS : Os} {Spec : EpollSpec OS}.

(** Arming: EPOLL_CTL_ADD and EPOLL_CTL_MOD. *)
Lemma armed_insert ep ep' tr r fd events data a :
  r = EpollAdd ep fd events data \/ r = EpollMod ep fd events data ->
  (is_err a = false -> reg_ok fd events data) -> epoll_wf ep' tr ->
  epoll_wf ep' (tr ++ [Sys r a]) /\
  epoll_armed ep' (tr ++ [Sys r a]) =
    if bool_decide (ep' = ep) && negb (is_err a) then {[fd]} ∪ epoll_armed ep' tr
    else epoll_armed ep' tr.
Proof.
  intros Hr Hok Hwf. unfold epoll_wf, epoll_armed. rewrite regs_of_snoc.
  assert (reg_step ep' (regs_of ep' tr) (Sys r a) =
    if bool_decide (ep' = ep) && negb (is_err a) then <[fd := (events, data)]> (regs_of ep' tr)
    else regs_of ep' tr) as ->.
  { destruct Hr as [-> | ->]; destruct a; simpl; rewrite ?andb_false_r, ?andb_true_r; [|done| |done];
      repeat case_bool_decide; by subst. }
  destruct (bool_decide (ep' = ep) && negb (is_err a)) eqn:Hb; [|done].
  apply andb_true_iff in Hb as [_ Hb]. split; [|by rewrite dom_insert_L].
  apply map_Forall_insert_2; [|done]. apply Hok. by destruct (is_err a).
Qed.

Lemma armed_delete ep ep' tr fd a :
  epoll_wf ep' tr ->
  epoll_wf ep' (tr ++ [Sys (EpollDel ep fd) a]) /\
  epoll_armed ep' (tr ++ [Sys (EpollDel ep fd) a]) ⊆ epoll_armed ep' tr /\
  epoll_armed ep' tr ⊆ {[fd]} ∪ epoll_armed ep' (tr ++ [Sys (EpollDel ep fd) a]) /\
  (bool_decide (ep' = ep) = false ->
   epoll_armed ep' (tr ++ [Sys (EpollDel ep fd) a]) = epoll_armed ep' tr).
Proof.
  intros Hwf. unfold epoll_wf, epoll_armed. rewrite regs_of_snoc.
  destruct a; simpl; [|split_and!; [done..|set_solver|done]].
  case_bool_decide as Heq; [|rewrite bool_decide_false by congruence; split_and!; [done..|set_solver|done]].
  rewrite (bool_decide_true (ep' = ep)) by done.
  split; [by apply map_Forall_delete|]. rewrite dom_delete_L. split_and!; [set_solver| |done].
  intros x Hx. destruct (decide (x = fd)); set_solver.
Qed.

(** What wait reports: the registrations of distinct descriptors. *)
Lemma reported ep tr out :
  epoll_wf ep tr ->
  (exists fds, NoDup fds /\
    Forall2 (fun fd d => exists events, regs_of ep tr !! fd = Some (events, d)) fds out) ->
  NoDup (ev_ident <$> out) /\ Forall epoll_event_ok out /\
  list_to_set (ev_ident <$> out) ⊆ epoll_armed ep tr /\
  (forall fd events data, regs_of ep tr !! fd = Some (events, data) ->
     data ∈ out <-> fd ∈ ev_ident <$> out).
Proof.
  intros Hwf (fds & Hnd & Hall).
  assert (ev_ident <$> out = fds) as Hids.
  { clear Hnd. induction Hall as [|fd d fds out (events & Hl) _ IH]; [done|]. rewrite fmap_cons, IH.
    f_equal. apply (reg_ok_ident _ events). exact (Hwf fd (events, d) Hl). }
  rewrite Hids. split_and!; [done| | |].
  - clear Hnd Hids. induction Hall as [|fd d fds out (events & Hl) _ IH]; constructor; [|done].
    exists fd, events. exact (Hwf fd (events, d) Hl).
  - unfold epoll_armed. intros fd. rewrite elem_of_list_to_set, elem_of_dom. intros Hfd.
    destruct (list_elem_of_lookup_1 _ _ Hfd) as [i Hi].
    destruct (Forall2_lookup_l _ _ _ _ _ Hall Hi) as (d & _ & events & Hl). by rewrite Hl.
  - intros fd events data Hl. rewrite <-Hids. rewrite list_elem_of_fmap. split.
    + intros Hd. exists data. split; [|done]. symmetry.
      apply (reg_ok_ident _ events). exact (Hwf fd (events, data) Hl).
    + intros (d & Hd & Hin).
      destruct (list_elem_of_lookup_1 _ _ Hin) as [i Hi].
      destruct (Forall2_lookup_r _ _ _ _ _ Hall Hi) as (fd' & Hfd' & events' & Hl').
      assert (ev_ident d = fd') by (apply (reg_ok_ident _ events'); exact (Hwf fd' (events', d) Hl')).
      congruence.
Qed.

Lemma syscall_quiet r (a : sysret) (w : world) :
  stream_of r = None -> quiet w (World (w_trace w ++ [Sys r a]) (w_alloc w)).
Proof. intros Hr. split; [done|]. right. by exists r, a. Qed.

Lemma wait_armed ep ep' tr max timeout n out :
  epoll_wf ep tr -> epoll_wf ep' tr ->
  sys tr (EpollWait ep max timeout) = SysOk n out ->
  let ids := ev_ident <$> take (Z.to_nat n) out in
  let tr' := tr ++ [Sys (EpollWait ep max timeout) (SysOk n out)] in
  epoll_wf ep' tr' /\
  epoll_armed ep' tr' =
    if bool_decide (ep' = ep) then epoll_armed ep' tr ∖ list_to_set ids else epoll_armed ep' tr.
Proof.
  intros Hwf Hwf' Hsys. destruct (epoll_wait_reports _ _ _ _ _ _ Hsys) as [_ Hrep].
  destruct (reported _ _ _ Hwf Hrep) as (_ & _ & _ & Hids). cbv zeta.
  unfold epoll_wf, epoll_armed. rewrite regs_of_snoc. cbn [reg_step].
  destruct (decide (ep' = ep)) as [->|Hne];
    [rewrite !bool_decide_true by done|rewrite !bool_decide_false by congruence; split; [exact Hwf'|reflexivity]].
  split.
  { intros fd p [Hp _]%map_lookup_filter_Some. exact (Hwf fd p Hp). }
  apply set_eq. intros fd. rewrite elem_of_difference, !elem_of_dom, elem_of_list_to_set. split.
  - intros [[events data] [Hl Hc]%map_lookup_filter_Some]. simpl in Hc. rewrite Hl. split; [done|].
    rewrite <-(Hids _ _ _ Hl). destruct Hc as [Hc|Hc]; [|done].
    destruct (Hwf _ _ Hl) as (_ & _ & Hos & _). simpl in Hos. congruence.
  - intros [[[events data] Hl] Hni]. exists (events, data). apply map_lookup_filter_Some. split; [done|].
    right. simpl. by rewrite (Hids _ _ _ Hl).
Qed.
End Laws.

#[export] Instance epoll_laws {OS : Os} {Spec : EpollSpec OS} : KernelLaws (epoll_kernel OS).
Proof.
  refine {| armed := epoll_armed; registers := epoll_registers; refused := epoll_refused;
            kernel_wf := fun k _ => epoll_wf k;
            event_ok := fun _ => epoll_event_ok |}.
  - done.
  - intros k m tr ev Hev. unfold epoll_wf, epoll_armed. rewrite regs_of_snoc.
    assert (reg_step k (regs_of k tr) ev = regs_of k tr) as ->; [|done].
    by destruct ev as [[] []|].
  - by intros [].
  - by intros [].
  - done.
  - by intros [[]|].
  - intros k fd f w Hf. apply wp_syscall. intros a Ha.
    split_and!; [by apply syscall_quiet|by intros [_ ?%Forall_inv]%Forall_app|].
    intros k' m Hwf _. eapply armed_insert; [by left| |done]. intros Hok.
    destruct a as [n out|]; [|done]. symmetry in Ha. apply epoll_add_fd_valid in Ha.
    split_and!; [lia..|apply wrap_range; lia|apply wrap_range; lia|apply one_shot_set|done].
  - intros k fd f w. apply wp_syscall. intros a _. split; [by apply syscall_quiet|].
    intros k' m Hwf. destruct (armed_delete k k' (w_trace w) fd a Hwf) as (? & ? & _ & ?). done.
  - intros k m timeout w Hk. unfold wait, epoll_kernel, epoll_wait. wp_step. apply wp_syscall.
    intros [n out|e] Ha; symmetry in Ha; wp_step; (split; [by apply syscall_quiet|]); cbv zeta.
    + destruct (epoll_wait_reports _ _ _ _ _ _ Ha) as [Hn Hrep].
      destruct (reported _ _ _ Hk Hrep) as (Hnd & Hok & Hsub & _).
      split_and!; [done..| |].
      * rewrite length_take. lia.
      * intros k' m' Hwf. by apply (wait_armed k k' (w_trace w) _ _ n out Hk Hwf Ha).
    + split_and!; [constructor|constructor|set_solver|done|]. intros k' m' Hwf.
      assert (regs_of k' (w_trace w ++ [Sys (EpollWait k MP_WAVY_KERNEL_BACKLOG_SIZE timeout)
        (SysErr e)]) = regs_of k' (w_trace w)) as Hr by by rewrite regs_of_snoc.
      cbn [w_trace]. unfold epoll_wf, epoll_armed. rewrite Hr. split; [done|].
      destruct (same_kernel _ _); set_solver.
  - intros k m e w (fd & events & Hok). apply wp_syscall. intros a _.
    split_and!; [by apply syscall_quiet|by intros [_ ?%Forall_inv]%Forall_app|].
    intros k' m' Hwf _. cbn [w_trace].
    pose proof (reg_ok_ident _ _ _ Hok) as Hid. pose proof (reg_ok_events _ _ _ Hok) as Hev.
    cbn [event_ident epoll_kernel]. rewrite Hid, Hev.
    eapply armed_insert; [by right|done|done].
  - intros k e w. apply wp_syscall. intros a _. split; [by apply syscall_quiet|].
    intros k' m Hwf. by apply armed_delete.
Defined.

(** ** A concrete environment

    Every armed descriptor is always ready; stream calls are answered from a
    list, and then completely; new descriptors are numbered by the calls so far. *)
Definition is_stream_call (ev : event) : bool :=
  match ev with Sys r _ => bool_decide (is_Some (stream_of r)) | _ => false end.

Definition stream_calls (tr : trace) : nat := length (filter (fun ev => is_stream_call ev = true) tr).

Definition ready_os (answers : list sysret) : Os := {|
  sys := fun tr r =>
    match r with
    | EpollAdd _ fd _ _ => if (0 <=? fd) && (fd <? 2 ^ 31) then SysOk 0 [] else SysErr (EOTHER 9)
    | EpollWait ep maxevents _ =>
        let ds := take (Z.to_nat maxevents) ((fun p => snd (snd p)) <$> map_to_list (regs_of ep tr)) in
        if maxevents <? 0 then SysErr (EOTHER 22) else SysOk (zlen ds) ds
    | TimerfdCreate | Signalfd _ | EpollCreate _ => SysOk (3 + zlen tr) []
    | Getrlimit => SysOk 16 []
    | _ =>
        match stream_of r with
        | Some _ => clamp_answer r (default (full_answer r) (answers !! stream_calls tr))
        | None => SysOk 0 []
        end
    end;
  memcpy_may_overlap := true
|}.

#[export] Instance ready_os_spec answers : OsSpec (ready_os answers).
Proof.
  split; intros *; cbn [sys ready_os stream_of]; intros H; by eapply clamp_bound in H; [|done].
Qed.

#[export] Instance ready_epoll_spec answers : EpollSpec (ready_os answers).
Proof.
  split; intros *; cbn [sys ready_os].
  - destruct (Z.leb_spec 0 fd), (Z.ltb_spec fd (2 ^ 31)); intros [=]; lia.
  - destruct (Z.ltb_spec maxevents 0); [done|]. intros [= <- <-]. split; [rewrite length_take; lia|].
    rewrite Nat2Z.id, firstn_all. set (n := Z.to_nat maxevents).
    exists (take n (map_to_list (regs_of ep tr)).*1). split.
    + pose proof (NoDup_fst_map_to_list (regs_of ep tr)) as Hnd.
      rewrite <-(take_drop n) in Hnd. by apply NoDup_app in Hnd as [? _].
    + apply Forall2_take. rewrite Forall2_fmap. apply Forall_Forall2_diag, Forall_forall.
      intros [fd [events d]] Hin. apply elem_of_map_to_list in Hin. by exists events.
Qed.

(** ** Properties *)

Section Properties.
Context {OS : Os}.

(** The event word is a faithful code: registering a descriptor stores a
    word from which [kernel::event] reads back the descriptor and the interest,
    and handing that event to [reactivate] repeats the registration (same
    descriptor, same interest, one-shot, same word), while [remove] deletes it. *)
Theorem event_word_roundtrip (m_ep fd event : Z) (w : world)
    (Hfd : 0 <= fd < 2 ^ 31) (Hev : 0 <= event < 2 ^ 15) :
  exists events data a, epoll_add_fd m_ep fd event w =
      Ret a (World (w_trace w ++ [Sys (EpollAdd m_ep fd events data) a]) (w_alloc w)) /\
    ev_ident data = fd /\ ev_events data = events /\
    one_shot events = true /\ (forall i, 0 <= i < 15 -> Z.testbit events i = Z.testbit event i) /\
    (forall w, exists a, epoll_reactivate m_ep data w =
       Ret a (World (w_trace w ++ [Sys (EpollMod m_ep fd events data) a]) (w_alloc w))) /\
    (forall w, exists a, epoll_remove m_ep data w =
       Ret a (World (w_trace w ++ [Sys (EpollDel m_ep fd) a]) (w_alloc w))).
Proof.
  set (events := wrap32 (Z.lor event EPOLLONESHOT)).
  pose proof (wrap_range 32 (Z.lor event EPOLLONESHOT) ltac:(lia)) as Hr. fold events in Hr.
  exists events, (ev_data fd events). eexists. split; [reflexivity|].
  pose proof (ev_ident_data fd events Hfd Hr) as Hi. pose proof (ev_events_data fd events Hfd Hr) as He.
  split_and!; [done|done|apply one_shot_set| | |].
  - intros i Hi'. unfold events, wrap. rewrite Z.mod_pow2_bits_low by lia.
    rewrite Z.lor_spec. unfold EPOLLONESHOT. rewrite Z.pow2_bits_false by lia. apply orb_false_r.
  - intros w'. eexists. unfold epoll_reactivate. rewrite Hi, He. reflexivity.
  - intros w'. eexists. unfold epoll_remove. rewrite Hi. reflexivity.
Qed.

(** No call of [tr] arms a descriptor of [fds] with [ep]. *)
Definition not_armed_in (ep : Z) (fds : list Z) (tr : trace) : Prop :=
  Forall (fun ev => match ev with
    | Sys (EpollAdd ep' fd _ _) _ | Sys (EpollMod ep' fd _ _) _ => ep' = ep -> fd ∉ fds
    | _ => True end) tr.

Lemma regs_of_quiet ep fds tr tr' fd :
  not_armed_in ep fds tr' -> fd ∈ fds -> regs_of ep tr !! fd = None ->
  regs_of ep (tr ++ tr') !! fd = None.
Proof.
  intros Hq Hfd. revert tr. induction Hq as [|ev tr' Hev _ IH]; intros tr Hn; [by rewrite app_nil_r|].
  rewrite cons_middle, app_assoc. apply IH. rewrite regs_of_snoc.
  destruct ev as [[] []|]; cbn [reg_step]; try done; case_bool_decide; try done; subst.
  - rewrite lookup_insert_ne; [done|]. intros ->. by apply Hev.
  - rewrite lookup_insert_ne; [done|]. intros ->. by apply Hev.
  - by apply lookup_delete_None; right.
  - apply map_lookup_filter_None. by left.
Qed.

(** One-shot delivery: a descriptor that [wait] reported is not reported by
    a later [wait] of the same kernel unless it was registered or reactivated
    in between, whatever other calls were made. *)
Theorem reported_once {Spec : EpollSpec OS} (m_ep t1 t2 : Z) (w1 w2 w1' w2' : world) (es1 es2 : list Z)
    (tr : trace) (Hwf : epoll_wf m_ep (w_trace w1)) (Hwf2 : epoll_wf m_ep (w_trace w2))
    (H1 : epoll_wait m_ep t1 w1 = Ret (inr es1) w1') (H2 : epoll_wait m_ep t2 w2 = Ret (inr es2) w2')
    (Htr : w_trace w2 = w_trace w1' ++ tr) (Hq : not_armed_in m_ep (ev_ident <$> es1) tr) :
  forall e, e ∈ es2 -> ev_ident e ∉ ev_ident <$> es1.
Proof.
  pose proof (wait_disarms m_ep EPOLLIN t1 w1 Hwf) as Hw1. unfold wp in Hw1.
  cbn [wait epoll_kernel] in Hw1. rewrite H1 in Hw1. destruct Hw1 as (_ & _ & _ & _ & _ & Harm).
  destruct (Harm m_ep EPOLLIN Hwf) as [_ Ha1]. unfold same_kernel in Ha1. rewrite bool_decide_true in Ha1 by done.
  pose proof (wait_disarms m_ep EPOLLIN t2 w2 Hwf2) as Hw2. unfold wp in Hw2.
  cbn [wait epoll_kernel] in Hw2. rewrite H2 in Hw2. destruct Hw2 as (_ & _ & _ & Hsub & _).
  intros e He Hin.
  assert (ev_ident e ∈ epoll_armed m_ep (w_trace w2)) as Harmed.
  { apply Hsub. apply elem_of_list_to_set, list_elem_of_fmap. by exists e. }
  unfold epoll_armed in Harmed. apply elem_of_dom in Harmed as [p Hp]. rewrite Htr in Hp.
  erewrite regs_of_quiet in Hp; [done|exact Hq|exact Hin|].
  apply not_elem_of_dom. change (ev_ident e ∉ epoll_armed m_ep (w_trace w1')).
  cbn [armed epoll_laws] in Ha1. rewrite Ha1. intros [_ Hn]%elem_of_difference.
  apply Hn. by apply elem_of_list_to_set.
Qed.

(** A timer does not leak its descriptor: [add_timer] either succeeds, hands
    the new descriptor to the [timer], and has made it non-blocking, set its
    times and registered it for reading, or fails, having closed the descriptor
    it created and left the [timer] as it was. *)
Theorem add_timer_no_leak (m_ep tm : Z) (value interval : option (Z * Z)) (w : world) :
  exists r tm' tr,
    epoll_add_timer m_ep tm value interval w = Ret (r, tm') (World (w_trace w ++ tr) (w_alloc w)) /\
    match r with
    | SysOk fd _ => tm' = fd /\ exists out1 out2 out3 out4 n2 n3 n4 events,
        tr = [Sys TimerfdCreate (SysOk fd out1); Sys (SetNonblock fd) (SysOk n2 out2);
              Sys (TimerfdSettime fd (default (default (0, 0) interval) value) (default (0, 0) interval))
                (SysOk n3 out3);
              Sys (EpollAdd m_ep fd events (ev_data fd events)) (SysOk n4 out4)]
    | SysErr e => tm' = tm /\
        (tr = [Sys TimerfdCreate (SysErr e)] \/
         exists fd out mid a, tr = Sys TimerfdCreate (SysOk fd out) :: mid ++ [Sys (Close fd) a] /\
           forall fd' a', Sys (Close fd') a' ∉ mid)
    end.
Proof.
  unfold epoll_add_timer. rewrite syscall_bind. cbv zeta.
  destruct (sys (w_trace w) TimerfdCreate) as [fd out1|e];
    [|do 3 eexists; split; [reflexivity|]; split; [done|by left]].
  rewrite syscall_bind. cbv zeta. cbn [w_trace w_alloc].
  destruct (sys _ (SetNonblock fd)) as [n2 out2|e].
  2: { do 3 eexists. unfold close_and_fail, mbind, M_bind, syscall, mret, M_ret. cbn [w_trace w_alloc].
    rewrite <-!app_assoc. split; [reflexivity|]. split; [done|]. right.
    exists fd, out1, [Sys (SetNonblock fd) (SysErr e)]. eexists. split; [reflexivity|].
    intros ??. by rewrite list_elem_of_singleton. }
  rewrite syscall_bind. cbv zeta. cbn [w_trace w_alloc].
  destruct (sys _ (TimerfdSettime fd _ _)) as [n3 out3|e].
  2: { do 3 eexists. unfold close_and_fail, mbind, M_bind, syscall, mret, M_ret. cbn [w_trace w_alloc].
    rewrite <-!app_assoc. split; [reflexivity|]. split; [done|]. right.
    exists fd, out1. eexists [_; _], _. split; [reflexivity|].
    intros ??. rewrite !elem_of_cons, elem_of_nil. naive_solver. }
  unfold epoll_add_fd at 1. rewrite syscall_bind. cbv zeta. cbn [w_trace w_alloc].
  set (events := wrap32 (Z.lor EPOLLIN EPOLLONESHOT)).
  destruct (sys _ (EpollAdd m_ep fd events _)) as [n4 out4|e].
  - do 3 eexists. rewrite <-!app_assoc. split; [reflexivity|]. split; [done|].
    do 8 eexists. reflexivity.
  - do 3 eexists. unfold close_and_fail, mbind, M_bind, syscall, mret, M_ret. cbn [w_trace w_alloc].
    rewrite <-!app_assoc. split; [reflexivity|]. split; [done|]. right.
    exists fd, out1. eexists [_; _; _], _. split; [reflexivity|].
    intros ??. rewrite !elem_of_cons, elem_of_nil. naive_solver.
Qed.
End Properties.

(** ** Witnesses *)

Lemma event_word_roundtrip_witness :
  exists events data a, @epoll_add_fd (ready_os []) 3 7 EPOLLOUT (World [] []) =
      Ret a (World ([] ++ [Sys (EpollAdd 3 7 events data) a]) []) /\
    ev_ident data = 7 /\ ev_events data = events /\
    one_shot events = true /\
    (forall i, 0 <= i < 15 -> Z.testbit events i = Z.testbit EPOLLOUT i) /\
    (forall w, exists a, @epoll_reactivate (ready_os []) 3 data w =
       Ret a (World (w_trace w ++ [Sys (EpollMod 3 7 events data) a]) (w_alloc w))) /\
    (forall w, exists a, @epoll_remove (ready_os []) 3 data w =
       Ret a (World (w_trace w ++ [Sys (EpollDel 3 7) a]) (w_alloc w))).
Proof.
  exact (@event_word_roundtrip (ready_os []) 3 7 EPOLLOUT (World [] [])
    ltac:(lia) ltac:(unfold EPOLLOUT; lia)).
Defined.

(** Descriptor 7 is registered and reported; after that 8 is, and only 8 comes back. *)
Definition ex_world (k : M world unit) (w : world) : world := match k w with Ret _ w' => w' | _ => w end.

Definition ex_armed : world :=
  ex_world (_ ← @epoll_add_fd (ready_os []) 3 7 EPOLLIN; mret tt) (World [] []).
Definition ex_waited : world := ex_world (_ ← @epoll_wait (ready_os []) 3 0; mret tt) ex_armed.
Definition ex_armed2 : world :=
  ex_world (_ ← @epoll_add_fd (ready_os []) 3 8 EPOLLIN; mret tt) ex_waited.

Lemma ex_wf : epoll_wf 3 (w_trace ex_armed) /\ epoll_wf 3 (w_trace ex_armed2).
Proof. split; apply (bool_decide_unpack _); vm_compute; exact I. Qed.

Lemma reported_once_witness :
  ev_ident (ev_data 8 (2 ^ 30 + 1)) ∉ ev_ident <$> [ev_data 7 (2 ^ 30 + 1)].
Proof.
  refine (@reported_once (ready_os []) _ 3 0 0 ex_armed ex_armed2 ex_waited
    (ex_world (_ ← @epoll_wait (ready_os []) 3 0; mret tt) ex_armed2) _ _
    [Sys (EpollAdd 3 8 (2 ^ 30 + 1) (ev_data 8 (2 ^ 30 + 1))) (SysOk 0 [])]
    (proj1 ex_wf) (proj2 ex_wf) _ _ _ _ (ev_data 8 (2 ^ 30 + 1)) _).
  - vm_compute. reflexivity.
  - vm_compute. reflexivity.
  - vm_compute. reflexivity.
  - constructor; [|constructor]. intros _.
    apply (bool_decide_unpack _). vm_compute. exact I.
  - apply list_elem_of_singleton. reflexivity.
Defined.
