(* ===== verification/KernelEpollPipe.v ===== *)
(** * Timers of the epoll kernel on systems without timerfd

    The branch of src/mpsrc/wavy_kernel_epoll.h under DISABLE_TIMERFD.  A timer is
    a POSIX timer whose expiration runs a thread that writes into a pipe, and the
    kernel watches the read end.  [tm->fd] is the read end; the write end is known
    only to the notification. *)

From Stdlib Require Import ZArith Lia.
From stdpp Require Import base tactics option list numbers.
From S2P Require Import Prelude Os Kernel KernelEpoll.

Definition sizeof_sigval : Z := 8.

(** [class timer]; [timer_id] has no value before [add_timer] succeeds. *)
Record timer : Type := Timer { t_fd : Z; t_timer_id : option Z }.

Section Pipe.
Context {OS : Os}.

Definition timer_new : timer := Timer (-1) None.

Definition timer_delete (tm : timer) : M world unit :=
  if 0 <=? t_fd tm then
    match t_timer_id tm with
    | None => undef
    | Some id => _ ← syscall (TimerDelete id); _ ← syscall (Close (t_fd tm)); mret tt
    end
  else mret tt.

(** The loop of [timer_thread_handler] at [p]. *)
Fixpoint notify_from (fuel : nat) (pipefd p endp : Z) : M world unit :=
  if p <? endp then
    match fuel with
    | O => diverge
    | S fuel =>
        wl ← syscall (Write pipefd p (endp - p));
        match wl with
        | SysErr e => if would_retry e then notify_from fuel pipefd p endp else _ ← syscall (Close pipefd); mret tt
        | SysOk wl _ => notify_from fuel pipefd (p + wl) endp
        end
    end
  else mret tt.

(** [timer_thread_handler(val)], with [val] at address [val_addr]. *)
Definition timer_thread_handler (fuel : nat) (val_addr sival_int : Z) : M world unit :=
  notify_from fuel sival_int val_addr (val_addr + sizeof_sigval).

(** [::close(pipefd[1]); ::close(pipefd[0]); return -1;] *)
Definition close_both_and_fail (rd wr : Z) (e : errno) (tm : timer) : M world (sysret * timer) :=
  a ← syscall (Close wr);
  b ← syscall (Close rd);
  mret (SysErr (errno_after (errno_after e a) b), tm).

Definition pipe_add_timer (m_ep : Z) (tm : timer) (value interval : option (Z * Z)) : M world (sysret * timer) :=
  r ← syscall Pipe;
  match r with
  | SysErr e => mret (SysErr e, tm)
  | SysOk _ [rd; wr] =>
      r ← syscall (SetNonblock rd);
      match r with
      | SysErr e => close_both_and_fail rd wr e tm
      | SysOk _ _ =>
          let it_interval := default (0, 0) interval in
          let it_value := default it_interval value in
          r ← syscall (TimerCreate wr);
          match r with
          | SysErr e => close_both_and_fail rd wr e tm
          | SysOk _ [timer_id] =>
              r ← syscall (TimerSettime timer_id it_value it_interval);
              match r with
              | SysErr e => close_both_and_fail rd wr e tm
              | SysOk _ _ =>
                  r ← epoll_add_fd m_ep rd EPOLLIN;
                  match r with
                  | SysErr e => close_both_and_fail rd wr e tm
                  | SysOk _ out => mret (SysOk rd out, Timer rd (Some timer_id))
                  end
              end
          | SysOk _ _ => undef
          end
      end
  | SysOk _ _ => undef
  end.

Definition pipe_remove_timer (m_ep ident : Z) : M world sysret := epoll_remove_fd m_ep ident EPOLLIN.

Definition pipe_read_timer (e : Z) : M world bool :=
  r ← syscall (Read (ev_ident e) sizeof_sigval);
  mret (match r with SysOk n _ => 0 <? n | SysErr _ => false end).
End Pipe.

(** pipe(2) stores two descriptors, timer_create(2) a timer. *)
Class PipeSpec (OS : Os) : Prop := {
  pipe_ends tr n out : sys tr Pipe = SysOk n out ->
    exists rd wr, out = [rd; wr] /\ 0 <= rd /\ 0 <= wr /\ rd <> wr;
  timer_create_id tr wr n out : sys tr (TimerCreate wr) = SysOk n out -> exists id, out = [id]
}.

(** ** What becomes of the pipe and of the timer *)

Section Outcome.
Context {OS : Os} {Spec : PipeSpec OS}.

(** The calls of an [add_timer] that succeeds: nothing was closed. *)
Definition pipe_timer_made (m_ep rd wr id : Z) (value interval : option (Z * Z)) (tr : trace) : Prop :=
  exists n m b1 b2 b3, is_err b1 = false /\ is_err b2 = false /\ is_err b3 = false /\
    let events := wrap32 (Z.lor EPOLLIN EPOLLONESHOT) in
    tr = [Sys Pipe (SysOk n [rd; wr]); Sys (SetNonblock rd) b1; Sys (TimerCreate wr) (SysOk m [id]);
          Sys (TimerSettime id (default (default (0, 0) interval) value) (default (0, 0) interval)) b2;
          Sys (EpollAdd m_ep rd events (ev_data rd events)) b3].

(** Both ends were closed once; a timer that was created was not deleted. *)
Definition pipe_timer_undone (tr : trace) : Prop :=
  (exists e, tr = [Sys Pipe (SysErr e)]) \/
  exists n rd wr tr', tr = Sys Pipe (SysOk n [rd; wr]) :: tr' /\
    calls (Close rd) tr' = 1 /\ calls (Close wr) tr' = 1 /\ forall id, calls (TimerDelete id) tr' = 0.

Lemma close_both_undone n rd wr e tm mid tr0 w (Q : sysret * timer -> world -> Prop) :
  rd <> wr -> w_trace w = tr0 ++ Sys Pipe (SysOk n [rd; wr]) :: mid ->
  calls (Close rd) mid = 0 -> calls (Close wr) mid = 0 -> (forall id, calls (TimerDelete id) mid = 0) ->
  (forall e' tr w', w_trace w' = tr0 ++ tr -> pipe_timer_undone tr -> Q (SysErr e', tm) w') ->
  wp (close_both_and_fail rd wr e tm) Q no_exn w.
Proof.
  intros Hne Htr Hr Hw Hd HQ. unfold close_both_and_fail. repeat wp_step. apply wp_syscall. intros a _.
  repeat wp_step. apply wp_syscall. intros b _. repeat wp_step. cbn [w_trace w_alloc].
  apply HQ with (Sys Pipe (SysOk n [rd; wr]) :: mid ++ [Sys (Close wr) a; Sys (Close rd) b]).
  { cbn [w_trace]. by rewrite Htr, <-!app_assoc. }
  right. exists n, rd, wr. eexists.
  split; [reflexivity|]. assert (Close wr <> Close rd) by congruence. assert (Close rd <> Close wr) by congruence.
  split_and!; [| |intros id]; count_calls; rewrite ?Hr, ?Hw, ?Hd; lia.
Qed.

(** A call failed after the pipe was made. *)
Ltac refused H :=
  eapply H; [cbn [w_trace]; rewrite <-!app_assoc; reflexivity|..]; intros; cbn [app]; count_calls.

Lemma pipe_add_timer_outcome m_ep tm value interval w :
  wp (pipe_add_timer m_ep tm value interval)
    (fun p w' => exists tr, w_trace w' = w_trace w ++ tr /\
       match fst p with
       | SysOk fd _ => exists wr id, 0 <= fd /\ 0 <= wr /\ fd <> wr /\ snd p = Timer fd (Some id) /\
           pipe_timer_made m_ep fd wr id value interval tr
       | SysErr _ => snd p = tm /\ pipe_timer_undone tr
       end) no_exn w.
Proof.
  unfold pipe_add_timer. repeat wp_step. apply wp_syscall. intros a Ha. symmetry in Ha. destruct a as [n out|e].
  2:{ repeat wp_step. eexists. split; [reflexivity|]. split; [done|]. left. by eexists. }
  destruct (pipe_ends _ _ _ Ha) as (rd & wr & -> & Hrd & Hwr & Hne).
  assert (forall e mid w', w_trace w' = w_trace w ++ Sys Pipe (SysOk n [rd; wr]) :: mid ->
    calls (Close rd) mid = 0 -> calls (Close wr) mid = 0 -> (forall id, calls (TimerDelete id) mid = 0) ->
    wp (close_both_and_fail rd wr e tm) (fun p w' => exists tr, w_trace w' = w_trace w ++ tr /\
       match fst p with
       | SysOk fd _ => exists wr id, 0 <= fd /\ 0 <= wr /\ fd <> wr /\ snd p = Timer fd (Some id) /\
           pipe_timer_made m_ep fd wr id value interval tr
       | SysErr _ => snd p = tm /\ pipe_timer_undone tr
       end) no_exn w') as Hundo.
  { intros e mid w' Htr H1 H2 H3. eapply close_both_undone; try done. intros e' tr w'' Htr' Hu. exists tr. by split. }
  repeat wp_step. apply wp_syscall. intros b1 _. destruct b1 as [k1 o1|e]; [|by refused Hundo].
  repeat wp_step. apply wp_syscall. intros c Hc. symmetry in Hc. destruct c as [k2 o2|e]; [|by refused Hundo].
  destruct (timer_create_id _ _ _ _ Hc) as [id ->].
  repeat wp_step. apply wp_syscall. intros b2 _. destruct b2 as [k3 o3|e]; [|by refused Hundo].
  unfold epoll_add_fd. repeat wp_step. apply wp_syscall. intros b3 _. destruct b3 as [k4 o4|e]; [|by refused Hundo].
  repeat wp_step. eexists. cbn [w_trace]. rewrite <-!app_assoc. split; [reflexivity|]. exists wr, id.
  split_and!; [done..|]. by eexists n, k2, (SysOk k1 o1), (SysOk k3 o3), (SysOk k4 o4).
Qed.

(** C40. From [add_timer] to the end of the [timer]: if it succeeds, the timer is
    deleted and the read end closed, once each, and the write end stays open for
    ever; if it fails, both ends are closed once, and a timer that was created
    stays, with the number of a closed descriptor to write to. *)
Theorem pipe_timer_life (m_ep : Z) (value interval : option (Z * Z)) (w : world) :
  wp ('(r, tm) ← pipe_add_timer m_ep timer_new value interval; _ ← timer_delete tm; mret r)
    (fun r w' => exists tr, w_trace w' = w_trace w ++ tr /\
       match r with
       | SysOk fd _ => exists wr id made a b, tr = made ++ [Sys (TimerDelete id) a; Sys (Close fd) b] /\
           pipe_timer_made m_ep fd wr id value interval made /\ calls (Close wr) tr = 0
       | SysErr _ => pipe_timer_undone tr
       end) no_exn w.
Proof.
  wp_step. eapply wp_mono; [..|apply pipe_add_timer_outcome]; [|done].
  intros [[fd out|e] tm] w' (tr & Htr & H); cbn [fst snd] in H.
  - destruct H as (wr & id & Hfd & Hwr & Hne & -> & Hm). unfold timer_delete. cbn [t_fd t_timer_id].
    destruct (Z.leb_spec 0 fd); [|lia]. repeat wp_step. apply wp_syscall. intros a _.
    repeat wp_step. apply wp_syscall. intros b _. repeat wp_step. cbn [w_trace]. rewrite Htr. eexists.
    rewrite <-!app_assoc. split; [reflexivity|]. exists wr, id, tr, a, b. split_and!; [done..|].
    destruct Hm as (n & m & b1 & b2 & b3 & _ & _ & _ & ->). assert (Close fd <> Close wr) by congruence.
    cbn [app]. by count_calls.
  - destruct H as [-> Hu]. unfold timer_delete. cbn. repeat wp_step. by exists tr.
Qed.
End Outcome.

(** ** The notification

    [stalls fd tr]: how many of the last calls were writes to [fd] that are to be
    repeated. *)
Definition stall_step (fd : Z) (c : nat) (ev : event) : nat :=
  match ev with
  | Sys (Write fd' _ _) (SysErr e) => if bool_decide (fd' = fd) && would_retry e then S c else 0%nat
  | _ => 0%nat
  end.

Definition stalls (fd : Z) (tr : trace) : nat := fold_left (stall_step fd) tr 0%nat.

Lemma stalls_snoc fd tr ev : stalls fd (tr ++ [ev]) = stall_step fd (stalls fd tr) ev.
Proof. unfold stalls. by rewrite fold_left_app. Qed.

(** The addresses of the bytes that went into [fd], in order. *)
Definition sent_by (fd : Z) (ev : event) : list Z :=
  match ev with
  | Sys (Write fd' p _) (SysOk wl _) => if bool_decide (fd' = fd) then seqZ p wl else []
  | _ => []
  end.

Definition sent (fd : Z) (tr : trace) : list Z := tr ≫= sent_by fd.

Lemma sent_bytes_app fd tr1 tr2 : sent fd (tr1 ++ tr2) = sent fd tr1 ++ sent fd tr2.
Proof. apply bind_app. Qed.

(** After [k] interruptions in a row a write of some bytes takes one at least, or
    fails for good. *)
Definition persists {OS : Os} (k : nat) : Prop := forall tr fd p n, 0 < n -> (k <= stalls fd tr)%nat ->
  match sys tr (Write fd p n) with SysOk wl _ => 0 < wl | SysErr e => would_retry e = false end.

(** Whatever the interruptions, a write that is not one takes a byte or fails. *)
Definition no_empty_write {OS : Os} : Prop := forall tr fd p n wl out,
  0 < n -> sys tr (Write fd p n) = SysOk wl out -> 0 < wl.

Section Notify.
Context {OS : Os} {OSpec : OsSpec OS}.
Variables (k : nat) (pipefd : Z).
Hypothesis Hk : persists k.
Hypothesis Hw : no_empty_write.

Lemma sent_more w w1 ev p wl endp :
  0 <= wl <= endp - p -> w_trace w1 = w_trace w ++ [ev] -> sent_by pipefd ev = seqZ p wl -> calls (Close pipefd) [ev] = 0 ->
  forall w',
  (exists tr, w_trace w' = w_trace w1 ++ tr /\
     ((sent pipefd tr = seqZ (p + wl) (endp - (p + wl)) /\ calls (Close pipefd) tr = 0) \/
      (exists n, 0 <= n < endp - (p + wl) /\ sent pipefd tr = seqZ (p + wl) n /\ calls (Close pipefd) tr = 1))) ->
  exists tr, w_trace w' = w_trace w ++ tr /\
     ((sent pipefd tr = seqZ p (endp - p) /\ calls (Close pipefd) tr = 0) \/
      (exists n, 0 <= n < endp - p /\ sent pipefd tr = seqZ p n /\ calls (Close pipefd) tr = 1)).
Proof.
  intros Hwl Htr Hev Hc w' (tr & Htr' & H). exists ([ev] ++ tr). split; [by rewrite Htr', Htr, <-app_assoc|].
  rewrite sent_bytes_app, calls_app, Hc. replace (sent pipefd [ev]) with (seqZ p wl) by (unfold sent; simpl; by rewrite app_nil_r).
  destruct H as [[-> ->]|(n & Hn & -> & ->)]; [left|right; exists (wl + n)].
  - split; [|done]. rewrite <-seqZ_app by lia. f_equal. lia.
  - rewrite seqZ_app by lia. split_and!; [lia..|done|done].
Qed.

Lemma notify_from_writes fuel p endp w :
  p <= endp -> (endp - p) * (Z.of_nat k + 1) - Z.of_nat (stalls pipefd (w_trace w) `min` k) <= Z.of_nat fuel ->
  wp (notify_from fuel pipefd p endp) (fun _ w' => exists tr, w_trace w' = w_trace w ++ tr /\
     ((sent pipefd tr = seqZ p (endp - p) /\ calls (Close pipefd) tr = 0) \/
      (exists n, 0 <= n < endp - p /\ sent pipefd tr = seqZ p n /\ calls (Close pipefd) tr = 1))) no_exn w.
Proof.
  revert p w. induction fuel as [|fuel IH]; intros p w Hp Hf; cbn [notify_from]; destruct (Z.ltb_spec p endp).
  2, 4: repeat wp_step; exists []; rewrite app_nil_r; split; [done|left]; by replace (endp - p) with 0 by lia.
  { exfalso. nia. }
  wp_step. apply wp_syscall. intros a Ha. symmetry in Ha.
  pose proof (Hk (w_trace w) pipefd p (endp - p) ltac:(lia)) as Hpers. rewrite Ha in Hpers. destruct a as [wl out|e].
  - assert (Hn : 0 < endp - p) by lia. pose proof (Hw _ _ _ _ _ _ Hn Ha). pose proof (write_bound _ _ _ _ _ _ Ha).
    eapply wp_mono; [|done|apply IH].
    + intros u w'. apply (sent_more w _ (Sys (Write pipefd p (endp - p)) (SysOk wl out))); [lia|done| |by rewrite calls_other].
      simpl. by rewrite bool_decide_true.
    + lia.
    + cbn [w_trace]. rewrite stalls_snoc. simpl stall_step. rewrite Nat.min_0_l.
      assert (1 * (Z.of_nat k + 1) <= wl * (Z.of_nat k + 1)) by (apply Z.mul_le_mono_nonneg_r; lia). lia.
  - destruct (would_retry e) eqn:He.
    + set (w1 := World _ _). eapply wp_mono; [|done|apply (IH p w1); [done|]].
      * intros u w' H'. apply (sent_more w w1 (Sys (Write pipefd p (endp - p)) (SysErr e)) p 0 endp);
          [lia|reflexivity|done|by rewrite calls_other|rewrite Z.add_0_r; exact H'].
      * subst w1. cbn [w_trace]. rewrite stalls_snoc. cbn [stall_step]. rewrite bool_decide_true, He by done. cbn [andb].
        destruct (decide (k <= stalls pipefd (w_trace w))%nat) as [Hle|]; [by specialize (Hpers Hle)|lia].
    + repeat wp_step. apply wp_syscall. intros b _. repeat wp_step. cbn [w_trace]. eexists. rewrite <-app_assoc.
      split; [reflexivity|]. right. exists 0. split_and!; [lia|lia|done|]. by count_calls.
Qed.
End Notify.

(** The thread that a timer runs at its expiration ends, and has put the bytes of
    its argument into the pipe once each and in order, or a part from the
    beginning of them before it closed the write end; the second is
    the end of the timer's notifications, for the number is not the pipe's any
    more. *)
Theorem notification_written {OS : Os} {OSpec : OsSpec OS} (k fuel : nat) (val_addr pipefd : Z) (w : world) :
  persists k -> no_empty_write -> (8 * (k + 1) <= fuel)%nat ->
  wp (timer_thread_handler fuel val_addr pipefd) (fun _ w' => exists tr, w_trace w' = w_trace w ++ tr /\
     ((sent pipefd tr = seqZ val_addr 8 /\ calls (Close pipefd) tr = 0) \/
      (exists n, 0 <= n < 8 /\ sent pipefd tr = seqZ val_addr n /\ calls (Close pipefd) tr = 1))) no_exn w.
Proof.
  intros Hk Hw Hf. unfold timer_thread_handler.
  pose proof (notify_from_writes k pipefd Hk Hw fuel val_addr (val_addr + sizeof_sigval) w) as H. unfold sizeof_sigval in *.
  replace (val_addr + 8 - val_addr) with 8 in H by lia. apply H; lia.
Qed.

(** ** On a concrete environment

    Descriptors 5 and 6, timer 9; a write is interrupted once and then takes three bytes. *)
Definition pipe_os (settime_ok : bool) : Os := {|
  sys := fun tr r =>
    match r with
    | Pipe => SysOk 0 [5; 6]
    | TimerCreate _ => SysOk 0 [9]
    | TimerSettime _ _ _ => if settime_ok then SysOk 0 [] else SysErr (EOTHER 22)
    | Write fd _ n => if Nat.eqb (stalls fd tr) 0 then SysErr EINTR else if n <? 0 then SysErr (EOTHER 22) else SysOk (Z.min 3 n) []
    | Writev _ _ | Sendfile _ _ _ _ => SysErr EAGAIN
    | _ => SysOk 0 []
    end;
  memcpy_may_overlap := true
|}.

#[export] Instance pipe_os_spec b : OsSpec (pipe_os b).
Proof. split; [done..|]. intros *. cbn. destruct (Nat.eqb _ _); [done|]. destruct (Z.ltb_spec size 0); [done|]. intros [= <- _]. lia. Qed.

#[export] Instance pipe_os_pipe b : PipeSpec (pipe_os b).
Proof. split; intros *; cbn; intros [= <- <-]; [by exists 5, 6|by exists 9]. Qed.

Lemma pipe_os_persists b : persists (OS := pipe_os b) 1 /\ no_empty_write (OS := pipe_os b).
Proof.
  split; intros tr fd p n *; cbn; intros Hn; destruct (Nat.eqb_spec (stalls fd tr) 0); try lia; try done;
    destruct (Z.ltb_spec n 0); try lia. intros [= <- _]. lia.
Qed.

Lemma notification_written_witness :
  wp (timer_thread_handler (OS := pipe_os true) 16 4096 6) (fun _ w' => exists tr, w_trace w' = [] ++ tr /\
     ((sent 6 tr = seqZ 4096 8 /\ calls (Close 6) tr = 0) \/
      (exists n, 0 <= n < 8 /\ sent 6 tr = seqZ 4096 n /\ calls (Close 6) tr = 1))) no_exn (World [] []).
Proof.
  apply (notification_written (OS := pipe_os true) 1 16 4096 6 (World [] [])); [apply pipe_os_persists..|lia].
Defined.

(** The first timer lives and dies; the second stays behind when its times are refused. *)
Definition pipe_run (ok : bool) : trace :=
  match ('(r, tm) ← pipe_add_timer (OS := pipe_os ok) 3 timer_new (Some (1, 0)) None; _ ← timer_delete (OS := pipe_os ok) tm; mret r)
    (World [] []) with
  | Ret _ w => w_trace w
  | _ => []
  end.

Lemma pipe_runs :
  drop 5 (pipe_run true) = [Sys (TimerDelete 9) (SysOk 0 []); Sys (Close 5) (SysOk 0 [])] /\
  drop 2 (pipe_run false) = [Sys (TimerCreate 6) (SysOk 0 [9]); Sys (TimerSettime 9 (1, 0) (0, 0)) (SysErr (EOTHER 22));
    Sys (Close 6) (SysOk 0 []); Sys (Close 5) (SysOk 0 [])].
Proof. by vm_compute. Qed.

Lemma pipe_timer_life_witness :
  wp ('(r, tm) ← pipe_add_timer (OS := pipe_os false) 3 timer_new (Some (1, 0)) None; _ ← timer_delete (OS := pipe_os false) tm; mret r)
    (fun r w' => exists tr, w_trace w' = [] ++ tr /\
       match r with
       | SysOk fd _ => exists wr id made a b, tr = made ++ [Sys (TimerDelete id) a; Sys (Close fd) b] /\
           pipe_timer_made 3 fd wr id (Some (1, 0)) None made /\ calls (Close wr) tr = 0
       | SysErr _ => pipe_timer_undone tr
       end) no_exn (World [] []).
Proof. exact (pipe_timer_life (OS := pipe_os false) 3 (Some (1, 0)) None (World [] [])). Defined.
