(* ===== verification/KernelKqueue.v ===== *)
(** * kernel on kqueue (src/mpsrc/wavy_kernel_kqueue.h)

    Registrations are EV_ONESHOT changes of a kqueue.  Timers and signals have
    no descriptor; their identifiers are allocated above the descriptors, from a
    table of 256 flags that is searched round robin.  The atomic operations on
    the table are single steps of a sequential model. *)

From Stdlib Require Import ZArith Lia.
From stdpp Require Import base tactics option list numbers gmap sets fin_sets fin_maps.
From S2P Require Import Prelude Os Kernel.

Definition MP_WAVY_KERNEL_KQUEUE_XIDENT_MAX : Z := 256.

Definition EVFILT_READ : Z := -1.
Definition EVFILT_WRITE : Z := -2.
Definition EVFILT_SIGNAL : Z := -6.
Definition EVFILT_TIMER : Z := -7.

Definition EV_ADD : Z := 1.
Definition EV_DELETE : Z := 2.
Definition EV_ONESHOT : Z := 16.

(** struct kevent, the fields that the sources read. *)
Record kev := Kev { kev_ident : Z; kev_filter : Z; kev_udata : Z }.

(** [event::ident()] *)
Definition kq_event_ident (e : kev) : Z :=
  if kev_filter e =? EVFILT_SIGNAL then signed 32 (kev_udata e) else signed 32 (kev_ident e).

(** class kernel: the members that do not change, and the table. *)
Record kqueue := Kq {
  m_kq : Z;
  m_fdmax : Z
}.

Record xidents := Xidents {
  m_xident : list bool;
  m_xident_index : Z
}.

Section Kqueue.
Context {OS : Os}.

(** kqueue() is only checked after getrlimit. *)
Definition kqueue_new : M world (kqueue * xidents) :=
  q ← syscall Kqueue;
  let m_kq := match q with SysOk kq _ => kq | SysErr _ => -1 end in
  r ← syscall Getrlimit;
  match r with
  | SysErr e => a ← syscall (Close m_kq); throw (SystemError (errno_code (errno_after e a)))
  | SysOk rlim_cur _ =>
      match q with
      | SysErr e => throw (SystemError (errno_code e))
      | SysOk _ _ =>
          mret (Kq m_kq rlim_cur, Xidents (replicate (Z.to_nat MP_WAVY_KERNEL_KQUEUE_XIDENT_MAX) false) 0)
      end
  end.

Definition kqueue_delete (k : kqueue) : M world unit := _ ← syscall (Close (m_kq k)); mret tt.

Definition kqueue_max (k : kqueue) : M world Z :=
  mret (wrap64 (m_fdmax k + MP_WAVY_KERNEL_KQUEUE_XIDENT_MAX)).

(** ** Identifiers of timers and signals *)

(** The search of [alloc_xident], for [i] more turns. *)
Fixpoint xident_search (i : nat) (x : xidents) : option Z * xidents :=
  match i with
  | O => (None, x)
  | S i =>
      let slot := Z.rem (m_xident_index x) MP_WAVY_KERNEL_KQUEUE_XIDENT_MAX in
      let index := wrap32 (m_xident_index x + 1) in
      match m_xident x !! Z.to_nat slot with
      | Some false => (Some slot, Xidents (<[Z.to_nat slot := true]> (m_xident x)) index)
      | _ => xident_search i (Xidents (m_xident x) index)
      end
  end.

(** The identifier, or -1 (with errno EMFILE). *)
Definition alloc_xident (k : kqueue) (x : xidents) : Z * xidents :=
  let '(r, x) := xident_search (Z.to_nat (MP_WAVY_KERNEL_KQUEUE_XIDENT_MAX * 2)) x in
  (match r with Some slot => signed 32 (m_fdmax k + slot) | None => -1 end, x).

Abbreviation kst := (xidents * world)%type.

Definition kq_call {A} (m : M world A) : M kst A := zoom snd (fun w st => (fst st, w)) m.

Definition alloc (k : kqueue) : M kst Z := fun st =>
  let '(r, x) := alloc_xident k (fst st) in Ret r (x, snd st).

(** Outside the table, undefined. *)
Definition free_xident (k : kqueue) (xident : Z) : M kst bool :=
  st ← get;
  let x := fst st in
  let i := xident - m_fdmax k in
  if (0 <=? i) && (i <? zlen (m_xident x)) then
    match m_xident x !! Z.to_nat i with
    | Some true =>
        _ ← put (Xidents (<[Z.to_nat i := false]> (m_xident x)) (m_xident_index x), snd st); mret true
    | _ => mret false
    end
  else undef.

(** ** Registrations *)

(** The conversion of an [int] to [uintptr_t]. *)
Definition uintptr (i : Z) : Z := if i <? 0 then wrap64 i else i.

Definition set_event (k : kqueue) (ident filter flags fflags data udata : Z) : M world sysret :=
  syscall (KeventChange (m_kq k) (uintptr ident) filter flags fflags data udata).

Definition kq_add_fd (k : kqueue) (fd event : Z) : M world sysret :=
  set_event k fd event (Z.lor EV_ADD EV_ONESHOT) 0 0 0.

Definition kq_remove_fd (k : kqueue) (fd event : Z) : M world sysret := set_event k fd event EV_DELETE 0 0 0.

(** [tm->xident]: -1 until the timer is registered. *)
Definition msec_of (t : Z * Z) : Z := wrap64 (fst t * 1000 + Z.quot (Z.quot (snd t) 1000) 1000).

Definition kq_add_timer (k : kqueue) (tm : Z) (value interval : option (Z * Z)) : M kst (sysret * Z) :=
  xident ← alloc k;
  if xident <? 0 then mret (SysErr EMFILE, tm) else
  let udata := match interval with Some t => msec_of t | None => 0 end in
  let data := match value with Some t => msec_of t | None => udata end in
  r ← kq_call (set_event k xident EVFILT_TIMER (Z.lor EV_ADD EV_ONESHOT) 0 data udata);
  match r with
  | SysErr e => _ ← free_xident k xident; mret (SysErr e, tm)
  | SysOk _ out => mret (SysOk xident out, xident)
  end.

Definition kq_remove_timer (k : kqueue) (ident : Z) : M world sysret :=
  set_event k ident EVFILT_TIMER EV_DELETE 0 0 0.

Definition kq_timer_delete (k : kqueue) (tm : Z) : M kst unit :=
  if 0 <=? tm then _ ← kq_call (kq_remove_timer k tm); _ ← free_xident k tm; mret tt else mret tt.

Definition kq_add_signal (k : kqueue) (sg signo : Z) : M kst (sysret * Z) :=
  xident ← alloc k;
  if xident <? 0 then mret (SysErr EMFILE, sg) else
  r ← kq_call (set_event k signo EVFILT_SIGNAL (Z.lor EV_ADD EV_ONESHOT) 0 0 xident);
  match r with
  | SysErr e => _ ← free_xident k xident; mret (SysErr e, sg)
  | SysOk _ out => mret (SysOk xident out, xident)
  end.

Definition kq_remove_signal (k : kqueue) (ident : Z) : M world sysret :=
  set_event k ident EVFILT_SIGNAL EV_DELETE 0 0 0.

Definition kq_signal_delete (k : kqueue) (sg : Z) : M kst unit :=
  if 0 <=? sg then _ ← kq_call (kq_remove_signal k sg); _ ← free_xident k sg; mret tt else mret tt.

(** [read_timer], [read_signal]: nothing is to be read. *)
Definition kq_read (e : kev) : Z := 0.

(** ** Waiting *)

(** The events that a call of kevent stored, three numbers each. *)
Fixpoint kevs (n : nat) (out : list Z) : list kev :=
  match n, out with
  | S n, ident :: filter :: udata :: out => Kev ident filter udata :: kevs n out
  | _, _ => []
  end.

Definition kq_wait (k : kqueue) (timeout_msec : Z) : M world (errno + list kev) :=
  let ts := (Z.quot timeout_msec 1000, Z.rem timeout_msec 1000 * 1000000) in
  r ← syscall (KeventWait (m_kq k) MP_WAVY_KERNEL_BACKLOG_SIZE (Some ts));
  mret (match r with SysOk n out => inr (kevs (Z.to_nat n) out) | SysErr e => inl e end).

(** [return -1] without a call: errno is what it was, which the model leaves as 0. *)
Definition kq_reactivate (k : kqueue) (e : kev) : M world sysret :=
  let filter := kev_filter e in
  if filter =? EVFILT_READ then kq_add_fd k (kq_event_ident e) EVFILT_READ
  else if filter =? EVFILT_WRITE then kq_add_fd k (kq_event_ident e) EVFILT_WRITE
  else if filter =? EVFILT_TIMER then
    let data := kev_udata e in
    set_event k (kq_event_ident e) EVFILT_TIMER (Z.lor EV_ADD EV_ONESHOT) 0 data data
  else if filter =? EVFILT_SIGNAL then
    set_event k (signed 32 (kev_ident e)) EVFILT_SIGNAL (Z.lor EV_ADD EV_ONESHOT) 0 0 (kev_udata e)
  else mret (SysErr (EOTHER 0)).

Definition kq_remove (k : kqueue) (e : kev) : M world sysret :=
  let filter := kev_filter e in
  if (filter =? EVFILT_READ) || (filter =? EVFILT_WRITE) || (filter =? EVFILT_TIMER) || (filter =? EVFILT_SIGNAL)
  then mret (SysOk 0 []) else mret (SysErr (EOTHER 0)).
End Kqueue.

(** The loop and the output queue use it through the interface; the table is not
    part of the operations of the interface. *)
#[export] Instance kqueue_kernel (OS : Os) : Kernel OS := {|
  kernel := kqueue;
  kevent := kev;
  EVKERNEL_READ := EVFILT_READ;
  EVKERNEL_WRITE := EVFILT_WRITE;
  event_ident := kq_event_ident;
  kernel_new := '(k, _) ← kqueue_new; mret k;
  kernel_delete := kqueue_delete;
  kernel_ident := m_kq;
  kernel_max := kqueue_max;
  add_fd := kq_add_fd;
  remove_fd := kq_remove_fd;
  wait := kq_wait;
  reactivate := kq_reactivate;
  remove := kq_remove
|}.

(** ** The identifiers in use *)

Definition xidents_wf (x : xidents) : Prop :=
  length (m_xident x) = 256%nat /\ 0 <= m_xident_index x < 2 ^ 32.

(** The descriptors and the identifiers fit an int. *)
Definition fdmax_ok (k : kqueue) : Prop := 0 <= m_fdmax k < 2 ^ 31 - 256.

Definition used (k : kqueue) (x : xidents) (id : Z) : Prop :=
  m_fdmax k <= id /\ m_xident x !! Z.to_nat (id - m_fdmax k) = Some true.

Definition xident_range (k : kqueue) (id : Z) : Prop := m_fdmax k <= id < m_fdmax k + 256.

Lemma slot_range x : xidents_wf x -> exists b,
  m_xident x !! Z.to_nat (Z.rem (m_xident_index x) MP_WAVY_KERNEL_KQUEUE_XIDENT_MAX) = Some b.
Proof.
  intros [Hl Hi]. apply lookup_lt_is_Some_2. rewrite Hl. unfold MP_WAVY_KERNEL_KQUEUE_XIDENT_MAX.
  pose proof (Z.rem_bound_pos (m_xident_index x) 256). lia.
Qed.

Lemma search_wf x : xidents_wf x -> xidents_wf (Xidents (m_xident x) (wrap32 (m_xident_index x + 1))).
Proof. intros [Hl Hi]. split; [done|]. apply wrap_range. lia. Qed.

(** A slot that was found was free, and is the only one that changes. *)
Lemma xident_search_found n x slot x' :
  xidents_wf x -> xident_search n x = (Some slot, x') ->
  xidents_wf x' /\ 0 <= slot < 256 /\ m_xident x !! Z.to_nat slot = Some false /\
  m_xident x' = <[Z.to_nat slot := true]> (m_xident x).
Proof.
  revert x. induction n as [|n IH]; intros x Hwf; cbn [xident_search]; [done|].
  destruct (slot_range x Hwf) as [b Hb]. rewrite Hb. destruct b.
  { intros Hs. by apply IH in Hs; [|apply search_wf]. }
  intros [= <- <-]. destruct Hwf as [Hl Hi]. split; [|split_and!; [..|done|done]].
  - split; [cbn [m_xident]; by rewrite length_insert|]. apply wrap_range. lia.
  - pose proof (Z.rem_bound_pos (m_xident_index x) MP_WAVY_KERNEL_KQUEUE_XIDENT_MAX). unfold MP_WAVY_KERNEL_KQUEUE_XIDENT_MAX in *. lia.
  - pose proof (Z.rem_bound_pos (m_xident_index x) MP_WAVY_KERNEL_KQUEUE_XIDENT_MAX). unfold MP_WAVY_KERNEL_KQUEUE_XIDENT_MAX in *. lia.
Qed.

(** A search that finds nothing has seen every slot on its way in use. *)
Lemma xident_search_none n x x' :
  xidents_wf x -> xident_search n x = (None, x') ->
  xidents_wf x' /\ m_xident x' = m_xident x /\
  forall j, 0 <= j < Z.of_nat n -> m_xident x !! Z.to_nat ((m_xident_index x + j) mod 256) = Some true.
Proof.
  revert x. induction n as [|n IH]; intros x Hwf; cbn [xident_search].
  { intros [= <-]. split_and!; [apply Hwf..|done|lia]. }
  destruct (slot_range x Hwf) as [b Hb]. rewrite Hb. destruct b; [|done]. intros Hs.
  apply IH in Hs as (Hwf' & Heq & Hj); [|by apply search_wf]. split_and!; [done..|].
  intros j Hjn. destruct Hwf as [Hl Hi]. unfold MP_WAVY_KERNEL_KQUEUE_XIDENT_MAX in Hb.
  rewrite Z.rem_mod_nonneg in Hb by lia. destruct (decide (j = 0)) as [->|Hne]; [by rewrite Z.add_0_r|].
  specialize (Hj (j - 1) ltac:(lia)). cbn [m_xident m_xident_index] in Hj.
  replace ((m_xident_index x + j) mod 256) with ((wrap32 (m_xident_index x + 1) + (j - 1)) mod 256); [done|].
  unfold wrap. change (2 ^ 32) with (256 * 2 ^ 24). rewrite <-Zplus_mod_idemp_l, Z.mod_mod_divide by (exists (2 ^ 24); lia).
  rewrite Zplus_mod_idemp_l. f_equal. lia.
Qed.

Lemma alloc_fresh (k : kqueue) (x : xidents) :
  fdmax_ok k -> xidents_wf x ->
  let '(id, x') := alloc_xident k x in
  xidents_wf x' /\
  ((id = -1 /\ (forall i, xident_range k i -> used k x i) /\ m_xident x' = m_xident x) \/
   (xident_range k id /\ ~ used k x id /\ forall i, used k x' i <-> i = id \/ used k x i)).
Proof.
  intros Hk Hwf. unfold alloc_xident. destruct (xident_search _ x) as [[slot|] x'] eqn:Hs.
  - apply xident_search_found in Hs as (Hwf' & Hr & Hf & Hx'); [|done]. split; [done|]. right.
    unfold fdmax_ok in Hk. rewrite signed_small by lia. unfold xident_range, used. split; [lia|].
    replace (m_fdmax k + slot - m_fdmax k) with slot by lia. rewrite Hf, Hx'. split; [naive_solver|].
    intros i. destruct (decide (i = m_fdmax k + slot)) as [->|Hne].
    + replace (m_fdmax k + slot - m_fdmax k) with slot by lia. rewrite list_lookup_insert_eq.
      { split; [by left|]. intros _. split; [lia|done]. }
      destruct Hwf as [Hl _]. rewrite Hl. lia.
    + split.
      * intros [Hi Hu]. right. split; [done|]. rewrite list_lookup_insert_ne in Hu by lia. done.
      * intros [?|[Hi Hu]]; [done|]. split; [done|]. by rewrite list_lookup_insert_ne by lia.
  - apply xident_search_none in Hs as (Hwf' & Hx' & Hj); [|done]. split; [done|]. left. split; [done|]. split; [|done].
    intros i [Hi1 Hi2]. split; [done|]. destruct Hwf as [_ Hi].
    specialize (Hj ((i - m_fdmax k - m_xident_index x) mod 256)).
    rewrite Zplus_mod_idemp_r in Hj. replace (m_xident_index x + (i - m_fdmax k - m_xident_index x)) with (i - m_fdmax k) in Hj by lia.
    rewrite (Z.mod_small (i - m_fdmax k)) in Hj by lia. apply Hj.
    pose proof (Z.mod_pos_bound (i - m_fdmax k - m_xident_index x) 256). unfold MP_WAVY_KERNEL_KQUEUE_XIDENT_MAX. lia.
Qed.

(** ** The registrations of a kqueue, from its calls

    By identifier and filter: the user data.  A reported registration is gone,
    since every change the sources make is EV_ONESHOT. *)
Abbreviation kregs := (gmap (Z * Z) Z).

Definition kq_step (kq : Z) (m : kregs) (ev : event) : kregs :=
  match ev with
  | Sys (KeventChange kq' ident filter flags _ _ udata) (SysOk _ _) =>
      if bool_decide (kq' = kq) then
        if Z.testbit flags 0 then <[(ident, filter) := udata]> m
        else if Z.testbit flags 1 then delete (ident, filter) m
        else m
      else m
  | Sys (KeventWait kq' _ _) (SysOk n out) =>
      if bool_decide (kq' = kq)
      then fold_left (fun m e => delete (kev_ident e, kev_filter e) m) (kevs (Z.to_nat n) out) m
      else m
  | _ => m
  end.

Definition kq_regs (kq : Z) (tr : trace) : kregs := fold_left (kq_step kq) tr ∅.

Lemma uintptr_pos i : 0 <= i -> uintptr i = i.
Proof. intros. unfold uintptr. by destruct (Z.ltb_spec i 0); [lia|]. Qed.

Lemma kq_regs_snoc kq tr ev : kq_regs kq (tr ++ [ev]) = kq_step kq (kq_regs kq tr) ev.
Proof. unfold kq_regs. by rewrite fold_left_app. Qed.

Section Properties.
Context {OS : Os}.

Abbreviation kst := (xidents * world)%type.

Lemma wp_set_event k ident filter flags fflags data udata (Q : sysret -> world -> Prop) E w :
  (forall a w', w_alloc w' = w_alloc w ->
    kq_regs (m_kq k) (w_trace w') =
      (if is_err a then kq_regs (m_kq k) (w_trace w)
       else if Z.testbit flags 0 then <[(uintptr ident, filter) := udata]> (kq_regs (m_kq k) (w_trace w))
       else if Z.testbit flags 1 then delete (uintptr ident, filter) (kq_regs (m_kq k) (w_trace w))
       else kq_regs (m_kq k) (w_trace w)) -> Q a w') ->
  wp (set_event k ident filter flags fflags data udata) Q E w.
Proof.
  intros HQ. unfold set_event. apply wp_syscall. intros a _. apply HQ; [done|]. cbn [w_trace].
  rewrite kq_regs_snoc. destruct a; [|done]. cbn. by rewrite bool_decide_true.
Qed.

Lemma wp_free k id x w (Q : bool -> kst -> Prop) E :
  xidents_wf x -> xident_range k id ->
  (forall b x', xidents_wf x' -> (b = true <-> used k x id) ->
    (forall i, used k x' i <-> i <> id /\ used k x i) -> Q b (x', w)) ->
  wp (free_xident k id) Q E (x, w).
Proof.
  intros [Hl Hi] Hr HQ. unfold xident_range in Hr. unfold free_xident. wp_step. wp_step. cbn [fst snd]. rewrite Hl.
  destruct (Z.leb_spec 0 (id - m_fdmax k)), (Z.ltb_spec (id - m_fdmax k) (Z.of_nat 256)); cbn [andb]; try lia.
  destruct (m_xident x !! Z.to_nat (id - m_fdmax k)) as [[]|] eqn:Hx; repeat wp_step; apply HQ; unfold used; cbn [m_xident].
  - split; [cbn [m_xident]; by rewrite length_insert|done].
  - split; [|done]. intros _. split; [lia|done].
  - intros i. destruct (decide (i = id)) as [->|Hne].
    + rewrite list_lookup_insert_eq by lia. naive_solver.
    + assert (i < m_fdmax k \/ Z.to_nat (id - m_fdmax k) <> Z.to_nat (i - m_fdmax k)) as [?|?] by lia; [naive_solver lia|].
      rewrite list_lookup_insert_ne by done. naive_solver.
  - done.
  - rewrite Hx. naive_solver.
  - intros i. split; [|tauto]. intros [? Hu]. split; [|done]. intros ->. by rewrite Hx in Hu.
  - done.
  - rewrite Hx. naive_solver.
  - intros i. split; [|tauto]. intros [? Hu]. split; [|done]. intros ->. by rewrite Hx in Hu.
Qed.

Lemma wp_alloc k x w (Q : Z -> kst -> Prop) E :
  fdmax_ok k -> xidents_wf x ->
  (forall x', xidents_wf x' -> (forall i, xident_range k i -> used k x i) -> (forall i, used k x' i <-> used k x i) -> Q (-1) (x', w)) ->
  (forall id x', xidents_wf x' -> xident_range k id -> ~ used k x id ->
    (forall i, used k x' i <-> i = id \/ used k x i) -> Q id (x', w)) ->
  wp (alloc k) Q E (x, w).
Proof.
  intros Hk Hwf Hn Hs. pose proof (alloc_fresh k x Hk Hwf) as H. unfold wp, alloc. cbn [fst snd].
  destruct (alloc_xident k x) as [id x']. destruct H as [Hwf' [(-> & Hall & Heq)|(Hr & Hu & Hi)]]; [|by apply Hs].
  apply Hn; [done..|]. intros i. unfold used. by rewrite Heq.
Qed.

(** Registering with a new identifier: it is given back when the call fails. *)
Definition kq_made (k : kqueue) (x : xidents) (r : sysret) (id : Z) (x' : xidents) : Prop :=
  xidents_wf x' /\
  if is_err r then id = -1 /\ forall i, used k x' i <-> used k x i
  else xident_range k id /\ ~ used k x id /\ forall i, used k x' i <-> i = id \/ used k x i.

Lemma kq_undone k x id x' e w :
  xidents_wf x' -> xident_range k id -> ~ used k x id -> (forall i, used k x' i <-> i = id \/ used k x i) ->
  wp (_ ← free_xident k id; mret (SysErr e, -1)) (fun p st' => p = (SysErr e, -1) /\ kq_made k x (SysErr e) (-1) (fst st') /\ snd st' = w)
    no_exn (x', w).
Proof.
  intros Hwf Hr Hn Hu. wp_step. apply wp_free; [done..|]. intros b x'' Hwf'' _ Hu''. wp_step. split; [done|]. split; [|done].
  split; [done|]. cbn. split; [done|]. intros i. rewrite Hu'', Hu. naive_solver.
Qed.

(** C33. [alloc_xident] gives an identifier above the descriptors that is not in use,
    and marks it; it fails only when all 256 are in use. *)
Theorem alloc_xident_fresh (k : kqueue) (x : xidents) :
  fdmax_ok k -> xidents_wf x ->
  let '(id, x') := alloc_xident k x in
  xidents_wf x' /\
  ((id = -1 /\ (forall i, xident_range k i -> used k x i) /\ m_xident x' = m_xident x) \/
   (xident_range k id /\ ~ used k x id /\ forall i, used k x' i <-> i = id \/ used k x i)).
Proof. apply alloc_fresh. Qed.

(** [add_timer]: a timer that is registered has an identifier of its own, and the
    kqueue will report it with the interval to continue with; otherwise no
    identifier is taken, and nothing is registered. *)
Theorem kq_add_timer_outcome (k : kqueue) (x : xidents) (w : world) (value interval : option (Z * Z)) :
  fdmax_ok k -> xidents_wf x ->
  wp (kq_add_timer k (-1) value interval) (fun p st' => kq_made k x (fst p) (snd p) (fst st') /\
    kq_regs (m_kq k) (w_trace (snd st')) =
      if is_err (fst p) then kq_regs (m_kq k) (w_trace w)
      else <[(snd p, EVFILT_TIMER) := default 0 (msec_of <$> interval)]> (kq_regs (m_kq k) (w_trace w))) no_exn (x, w).
Proof.
  intros Hk Hwf. unfold kq_add_timer. wp_step. apply wp_alloc; [done..| |].
  { intros x' Hwf' _ Hu. change (-1 <? 0) with true. cbv iota. wp_step. split; [|done]. split; [done|]. by cbn. }
  intros id x' Hwf' Hr Hn Hu. destruct (Z.ltb_spec id 0); [unfold xident_range, fdmax_ok in *; lia|].
  wp_step. unfold kq_call. wp_step. apply wp_set_event. intros a w' _ Hreg.
  rewrite uintptr_pos in Hreg by (unfold xident_range, fdmax_ok in *; lia). destruct a as [n out|e].
  - wp_step. cbn [fst snd is_err]. split; [split; [done|]; split_and!; done|]. rewrite Hreg. cbn. by destruct interval.
  - eapply wp_mono; [..|by apply (kq_undone _ x)]; [|done]. intros p [x'' w''] (-> & Hm & Hw). cbn [fst snd] in *.
    subst w''. split; [done|]. by rewrite Hreg.
Qed.

(** [add_signal]: the same, but the registration is that of the signal number,
    with the identifier as its user data. *)
Theorem kq_add_signal_outcome (k : kqueue) (x : xidents) (w : world) (signo : Z) :
  fdmax_ok k -> xidents_wf x -> 0 <= signo < 2 ^ 31 ->
  wp (kq_add_signal k (-1) signo) (fun p st' => kq_made k x (fst p) (snd p) (fst st') /\
    kq_regs (m_kq k) (w_trace (snd st')) =
      if is_err (fst p) then kq_regs (m_kq k) (w_trace w)
      else <[(signo, EVFILT_SIGNAL) := snd p]> (kq_regs (m_kq k) (w_trace w))) no_exn (x, w).
Proof.
  intros Hk Hwf Hsig. unfold kq_add_signal. wp_step. apply wp_alloc; [done..| |].
  { intros x' Hwf' _ Hu. change (-1 <? 0) with true. cbv iota. wp_step. split; [|done]. split; [done|]. by cbn. }
  intros id x' Hwf' Hr Hn Hu. destruct (Z.ltb_spec id 0); [unfold xident_range, fdmax_ok in *; lia|].
  wp_step. unfold kq_call. wp_step. apply wp_set_event. intros a w' _ Hreg.
  rewrite uintptr_pos in Hreg by lia. destruct a as [n out|e].
  - wp_step. cbn [fst snd is_err]. split; [split; [done|]; split_and!; done|]. by rewrite Hreg.
  - eapply wp_mono; [..|by apply (kq_undone _ x)]; [|done]. intros p [x'' w''] (-> & Hm & Hw). cbn [fst snd] in *.
    subst w''. split; [done|]. by rewrite Hreg.
Qed.

(** Destroying a timer gives its identifier back, and its registration is gone if
    the kernel accepts the change. *)
Theorem kq_timer_delete_outcome (k : kqueue) (x : xidents) (w : world) (tm : Z) :
  fdmax_ok k -> xidents_wf x -> xident_range k tm ->
  wp (kq_timer_delete k tm) (fun _ st' => xidents_wf (fst st') /\
    (forall i, used k (fst st') i <-> i <> tm /\ used k x i) /\
    let before := kq_regs (m_kq k) (w_trace w) in
    let after := kq_regs (m_kq k) (w_trace (snd st')) in
    after = before \/ after = delete (tm, EVFILT_TIMER) before) no_exn (x, w).
Proof.
  intros Hk Hwf Hr. unfold kq_timer_delete. destruct (Z.leb_spec 0 tm); [|unfold xident_range, fdmax_ok in *; lia].
  unfold kq_call, kq_remove_timer. wp_step. wp_step. apply wp_set_event. intros a w' _ Hreg.
  rewrite uintptr_pos in Hreg by (unfold xident_range, fdmax_ok in *; lia).
  wp_step. apply wp_free; [done..|]. intros b x' Hwf' _ Hu. wp_step. split_and!; [done..|]. cbn [snd].
  rewrite Hreg. destruct a; [by right|by left].
Qed.

(** Destroying a signal gives its identifier back, but asks the kernel to remove
    the identifier instead of the signal number: the registration of the signal
    stays, and will be reported with an identifier that is no longer in use. *)
Theorem kq_signal_delete_leaves_it (k : kqueue) (x : xidents) (w : world) (signo sg : Z) :
  fdmax_ok k -> xidents_wf x -> xident_range k sg -> 0 <= signo < m_fdmax k ->
  kq_regs (m_kq k) (w_trace w) !! (signo, EVFILT_SIGNAL) = Some sg ->
  wp (kq_signal_delete k sg) (fun _ st' => ~ used k (fst st') sg /\
    kq_regs (m_kq k) (w_trace (snd st')) !! (signo, EVFILT_SIGNAL) = Some sg) no_exn (x, w).
Proof.
  intros Hk Hwf Hr Hs Hreg0. unfold kq_signal_delete. destruct (Z.leb_spec 0 sg); [|unfold xident_range, fdmax_ok in *; lia].
  unfold kq_call, kq_remove_signal. wp_step. wp_step. apply wp_set_event. intros a w' _ Hreg.
  rewrite uintptr_pos in Hreg by (unfold xident_range, fdmax_ok in *; lia).
  wp_step. apply wp_free; [done..|]. intros b x' Hwf' _ Hu. wp_step. cbn [fst snd]. split; [rewrite Hu; tauto|].
  rewrite Hreg. destruct a; cbn [is_err]; [|done]. cbn. rewrite lookup_delete_ne; [done|].
  unfold xident_range in Hr. intros [=]. lia.
Qed.

(** The events of registrations that the kernel's operations made. *)
Definition kq_event_ok (e : kev) : Prop :=
  0 <= kev_ident e < 2 ^ 31 /\
  ((kev_filter e = EVFILT_READ \/ kev_filter e = EVFILT_WRITE) /\ kev_udata e = 0 \/
   kev_filter e = EVFILT_TIMER \/ kev_filter e = EVFILT_SIGNAL).

(** [reactivate] registers again exactly what was reported. *)
Theorem kq_reactivate_rearms (k : kqueue) (e : kev) (w : world) :
  kq_event_ok e ->
  wp (kq_reactivate k e) (fun r w' =>
    kq_regs (m_kq k) (w_trace w') =
      if is_err r then kq_regs (m_kq k) (w_trace w)
      else <[(kev_ident e, kev_filter e) := kev_udata e]> (kq_regs (m_kq k) (w_trace w))) no_exn w.
Proof.
  intros [Hid Hf]. destruct e as [ident filter udata]. cbn [kev_ident kev_filter kev_udata] in *.
  unfold kq_reactivate, kq_event_ident, kq_add_fd. cbn [kev_ident kev_filter kev_udata].
  rewrite !(signed_small 32 ident) by lia.
  destruct Hf as [[[-> | ->] ->]|[-> | ->]];
    repeat match goal with
      | |- context [?a =? ?b] => let v := eval vm_compute in (a =? b) in change (a =? b) with v
      end; cbv iota zeta; apply wp_set_event; intros a w' _ ->;
    rewrite uintptr_pos by lia; by destruct a.
Qed.

(** The timeout of [wait] in seconds and nanoseconds. *)
Theorem kq_wait_timespec (k : kqueue) (timeout_msec : Z) (w : world) :
  0 <= timeout_msec ->
  wp (kq_wait k timeout_msec) (fun r w' => exists s n a,
    w_trace w' = w_trace w ++ [Sys (KeventWait (m_kq k) MP_WAVY_KERNEL_BACKLOG_SIZE (Some (s, n))) a] /\
    0 <= n < 10 ^ 9 /\ s * 1000 + n / 10 ^ 6 = timeout_msec /\ n mod 10 ^ 6 = 0) no_exn w.
Proof.
  intros H0. unfold kq_wait. wp_step. apply wp_syscall. intros a _. wp_step. eexists _, _, a. split; [done|].
  rewrite Z.quot_div_nonneg, Z.rem_mod_nonneg by lia. pose proof (Z.mod_pos_bound timeout_msec 1000).
  pose proof (Z.div_mod timeout_msec 1000). change 1000000 with (10 ^ 6). rewrite Z.div_mul, Z.mod_mul by done. lia.
Qed.
End Properties.

(** ** On a concrete environment *)

Definition kq_os : Os := scripted_os true [].
Definition kq_sample : kqueue := Kq 3 1024.
Definition no_xidents : xidents := Xidents (replicate 256 false) 0.
Definition all_xidents : xidents := Xidents (replicate 256 true) 4294967290.

Lemma kq_sample_ok : fdmax_ok kq_sample.
Proof. by unfold fdmax_ok. Qed.

Lemma xidents_wf_samples : xidents_wf no_xidents /\ xidents_wf all_xidents.
Proof. split; split; done. Qed.

Lemma alloc_xident_fresh_witness :
  fst (alloc_xident kq_sample all_xidents) = -1 /\ fst (alloc_xident kq_sample no_xidents) = 1024 /\
  let '(id, x') := alloc_xident kq_sample no_xidents in
  xidents_wf x' /\
  ((id = -1 /\ (forall i, xident_range kq_sample i -> used kq_sample no_xidents i) /\ m_xident x' = m_xident no_xidents) \/
   (xident_range kq_sample id /\ ~ used kq_sample no_xidents id /\
    forall i, used kq_sample x' i <-> i = id \/ used kq_sample no_xidents i)).
Proof.
  split; [by vm_compute|]. split; [by vm_compute|].
  exact (alloc_xident_fresh kq_sample no_xidents kq_sample_ok (proj1 xidents_wf_samples)).
Defined.

Lemma kq_add_timer_outcome_witness :
  wp (kq_add_timer (OS := kq_os) kq_sample (-1) None (Some (1, 500000000)))
    (fun p st' => kq_made kq_sample no_xidents (fst p) (snd p) (fst st') /\
      kq_regs 3 (w_trace (snd st')) = if is_err (fst p) then ∅ else <[(snd p, EVFILT_TIMER) := 1500]> ∅)
    no_exn (no_xidents, World [] []).
Proof.
  exact (kq_add_timer_outcome (OS := kq_os) kq_sample no_xidents (World [] []) None (Some (1, 500000000))
    kq_sample_ok (proj1 xidents_wf_samples)).
Defined.

Lemma kq_add_signal_outcome_witness :
  wp (kq_add_signal (OS := kq_os) kq_sample (-1) 10)
    (fun p st' => kq_made kq_sample no_xidents (fst p) (snd p) (fst st') /\
      kq_regs 3 (w_trace (snd st')) = if is_err (fst p) then ∅ else <[(10, EVFILT_SIGNAL) := snd p]> ∅)
    no_exn (no_xidents, World [] []).
Proof.
  apply (kq_add_signal_outcome (OS := kq_os) kq_sample no_xidents (World [] []) 10
    kq_sample_ok (proj1 xidents_wf_samples)). lia.
Defined.

Lemma kq_timer_delete_outcome_witness :
  xident_range kq_sample 1030 /\
  wp (kq_timer_delete (OS := kq_os) kq_sample 1030) (fun _ st' => xidents_wf (fst st') /\
    (forall i, used kq_sample (fst st') i <-> i <> 1030 /\ used kq_sample all_xidents i) /\
    (kq_regs 3 (w_trace (snd st')) = ∅ \/ kq_regs 3 (w_trace (snd st')) = delete (1030, EVFILT_TIMER) ∅))
    no_exn (all_xidents, World [] []).
Proof.
  assert (xident_range kq_sample 1030) as Hr by (unfold xident_range; cbn; lia). split; [exact Hr|].
  exact (kq_timer_delete_outcome (OS := kq_os) kq_sample all_xidents (World [] []) 1030
    kq_sample_ok (proj2 xidents_wf_samples) Hr).
Defined.

(** A signal was added and reported nothing yet. *)
Definition signal_added : xidents * world :=
  (Xidents (true :: replicate 255 false) 1,
   World [Sys (KeventChange 3 10 EVFILT_SIGNAL (Z.lor EV_ADD EV_ONESHOT) 0 0 1024) (SysOk 0 [])] []).

Lemma kq_signal_delete_leaves_it_witness :
  wp (kq_signal_delete (OS := kq_os) kq_sample 1024) (fun _ st' => ~ used kq_sample (fst st') 1024 /\
    kq_regs 3 (w_trace (snd st')) !! (10, EVFILT_SIGNAL) = Some 1024) no_exn signal_added.
Proof.
  apply (kq_signal_delete_leaves_it (OS := kq_os) kq_sample (fst signal_added) (snd signal_added) 10 1024 kq_sample_ok);
    [split; [done|simpl; lia]|unfold xident_range; cbn; lia|cbn; lia|by vm_compute].
Defined.

Lemma kq_reactivate_rearms_witness :
  wp (kq_reactivate (OS := kq_os) kq_sample (Kev 1024 EVFILT_TIMER 1500)) (fun r w' =>
    kq_regs 3 (w_trace w') = if is_err r then ∅ else <[(1024, EVFILT_TIMER) := 1500]> ∅) no_exn (World [] []).
Proof.
  apply (kq_reactivate_rearms (OS := kq_os) kq_sample (Kev 1024 EVFILT_TIMER 1500) (World [] [])).
  split; [simpl; lia|]. right. by left.
Defined.

Lemma kq_wait_timespec_witness :
  wp (kq_wait (OS := kq_os) kq_sample 1500) (fun r w' => exists s n a,
    w_trace w' = [] ++ [Sys (KeventWait 3 MP_WAVY_KERNEL_BACKLOG_SIZE (Some (s, n))) a] /\
    0 <= n < 10 ^ 9 /\ s * 1000 + n / 10 ^ 6 = 1500 /\ n mod 10 ^ 6 = 0) no_exn (World [] []).
Proof. apply (kq_wait_timespec (OS := kq_os) kq_sample 1500 (World [] [])). lia. Defined.
