(* ===== verification/KqueueThreads.v ===== *)
(** * Identifiers of a kqueue, taken by several threads

    [alloc_xident] takes no lock: it draws a slot with an atomic increment and
    claims it with a compare-and-swap; [free_xident] tests the slot and stores.
    A thread is the next access it makes to the table, and the threads are
    interleaved between these accesses.  Each frees only what it was given. *)

From Stdlib Require Import ZArith Lia.
From stdpp Require Import base tactics option list numbers.
From S2P Require Import Prelude Os Kernel KernelKqueue.

(** ** Threads *)

Inductive xpc : Type :=
| XIdle
| XSearch (i : Z)                (* at the head of the loop, after [i] turns *)
| XClaim (i slot : Z)            (* at the compare-and-swap of [m_xident[slot]] *)
| XHolds (xident : Z)            (* has an identifier *)
| XFull                          (* -1, EMFILE *)
| XTest (xident : Z)             (* at [if( *xv)] of free_xident *)
| XClear (xident : Z)            (* at the store *)
| XFreed (b : bool).             (* free_xident returned [b] *)

#[export] Instance xpc_eq_dec : EqDecision xpc.
Proof. solve_decision. Defined.

Section Threads.
Variable k : kqueue.

Abbreviation slot_of id := (Z.to_nat (id - m_fdmax k)).

(** One access of [alloc_xident] or [free_xident]. *)
Definition x_code (p : xpc) (x : xidents) : option (xpc * xidents) :=
  match p with
  | XSearch i =>
      if i <? MP_WAVY_KERNEL_KQUEUE_XIDENT_MAX * 2 then
        Some (XClaim i (Z.rem (m_xident_index x) MP_WAVY_KERNEL_KQUEUE_XIDENT_MAX),
              Xidents (m_xident x) (wrap32 (m_xident_index x + 1)))
      else Some (XFull, x)
  | XClaim i slot =>
      match m_xident x !! Z.to_nat slot with
      | Some false =>
          Some (XHolds (signed 32 (m_fdmax k + slot)), Xidents (<[Z.to_nat slot := true]> (m_xident x)) (m_xident_index x))
      | Some true => Some (XSearch (i + 1), x)
      | None => None
      end
  | XTest id =>
      match m_xident x !! slot_of id with
      | Some true => Some (XClear id, x)
      | Some false => Some (XFreed false, x)
      | None => None
      end
  | XClear id => Some (XFreed true, Xidents (<[slot_of id := false]> (m_xident x)) (m_xident_index x))
  | _ => None
  end.

(** What a thread does with the functions: it asks for an identifier, and frees the
    one it has. *)
Inductive x_client : xpc -> xpc -> Prop :=
| xc_alloc : x_client XIdle (XSearch 0)
| xc_free id : x_client (XHolds id) (XTest id)
| xc_full : x_client XFull XIdle
| xc_freed b : x_client (XFreed b) XIdle.

Abbreviation xconf := (list xpc * xidents)%type.

Inductive x_step : xconf -> xconf -> Prop :=
| x_access i ts x p p' x' : ts !! i = Some p -> x_code p x = Some (p', x') -> x_step (ts, x) (<[i := p']> ts, x')
| x_does i ts x p p' : ts !! i = Some p -> x_client p p' -> x_step (ts, x) (<[i := p']> ts, x)
| x_thread ts x : x_step (ts, x) (ts ++ [XIdle], x).

Inductive x_reach : xconf -> Prop :=
| x_start idx : 0 <= idx < 2 ^ 32 -> x_reach ([], Xidents (replicate 256 false) idx)
| x_next c c' : x_reach c -> x_step c c' -> x_reach c'.

(** ** What a thread has *)

Definition holds (p : xpc) : option Z :=
  match p with XHolds id | XTest id | XClear id => Some id | _ => None end.

Record x_inv (c : xconf) : Prop := {
  xi_wf : xidents_wf (snd c);
  xi_claim t i slot : fst c !! t = Some (XClaim i slot) -> 0 <= slot < 256;
  xi_held t p id : fst c !! t = Some p -> holds p = Some id -> xident_range k id /\ used k (snd c) id;
  xi_one t1 t2 p1 p2 id : fst c !! t1 = Some p1 -> fst c !! t2 = Some p2 -> holds p1 = Some id -> holds p2 = Some id -> t1 = t2;
  xi_all id : xident_range k id -> used k (snd c) id -> exists t p, fst c !! t = Some p /\ holds p = Some id;
  xi_freed t b : fst c !! t = Some (XFreed b) -> b = true
}.

(** A thread goes on, and neither takes nor gives back an identifier. *)
Lemma x_inv_same ts x x' t p p' :
  x_inv (ts, x) -> ts !! t = Some p -> holds p' = holds p -> xidents_wf x' -> m_xident x' = m_xident x ->
  (forall i slot, p' = XClaim i slot -> 0 <= slot < 256) -> (forall b, p' = XFreed b -> b = true) ->
  x_inv (<[t := p']> ts, x').
Proof.
  intros [Hwf Hcl Hh Ho Ha Hf] Hp Heq Hwf' Hx Hcl' Hf'. cbn [fst snd] in *.
  assert (forall t0 p0, <[t := p']> ts !! t0 = Some p0 -> exists q, ts !! t0 = Some q /\ holds q = holds p0) as Hback.
  { intros t0 p0 [(-> & -> & _)|[_ H]]%list_lookup_insert_Some; [by exists p|by exists p0]. }
  assert (forall id, used k x' id <-> used k x id) as Hu by (intros id; unfold used; by rewrite Hx).
  split; cbn [fst snd].
  - done.
  - intros t0 i slot [(_ & Heq' & _)|[_ H]]%list_lookup_insert_Some; [by apply (Hcl' i)|by apply (Hcl t0 i)].
  - intros t0 p0 id (q & Hq & Hhq)%Hback Hid. rewrite Hu. apply (Hh t0 q); [done|congruence].
  - intros t1 t2 p1 p2 id (q1 & Hq1 & Hh1)%Hback (q2 & Hq2 & Hh2)%Hback H1 H2. apply (Ho t1 t2 q1 q2 id); congruence.
  - intros id Hr Hid%Hu. destruct (Ha id Hr Hid) as (t0 & p0 & Hp0 & Hhid). destruct (decide (t0 = t)) as [->|Hne].
    + exists t, p'. split; [apply list_lookup_insert_eq; by eapply lookup_lt_Some|]. congruence.
    + exists t0, p0. by rewrite list_lookup_insert_ne.
  - intros t0 b [(_ & Heq' & _)|[_ H]]%list_lookup_insert_Some; [by apply Hf'|by apply (Hf t0)].
Qed.

Hypothesis Hk : fdmax_ok k.

Lemma x_inv_claim ts x t i slot :
  x_inv (ts, x) -> ts !! t = Some (XClaim i slot) -> m_xident x !! Z.to_nat slot = Some false ->
  x_inv (<[t := XHolds (signed 32 (m_fdmax k + slot))]> ts, Xidents (<[Z.to_nat slot := true]> (m_xident x)) (m_xident_index x)).
Proof.
  intros [Hwf Hcl Hh Ho Ha Hf] Ht Hslot. cbn [fst snd] in *. pose proof (Hcl _ _ _ Ht) as Hs.
  unfold fdmax_ok in Hk. rewrite signed_small by lia. set (new := m_fdmax k + slot). set (x' := Xidents _ _).
  assert (xident_range k new) as Hnr by (unfold xident_range, new; lia).
  assert (forall id, xident_range k id -> used k x' id <-> id = new \/ used k x id) as Hu.
  { intros id Hr. unfold used, x', xident_range, new in *. cbn [m_xident]. destruct (decide (id = m_fdmax k + slot)) as [->|Hne].
    - replace (m_fdmax k + slot - m_fdmax k) with slot by lia. rewrite list_lookup_insert_eq by (by eapply lookup_lt_Some).
      split; [by left|]. intros _. split; [lia|done].
    - rewrite list_lookup_insert_ne by lia. tauto. }
  assert (~ used k x new) as Hnu.
  { intros [_ Hu']. unfold new in Hu'. replace (m_fdmax k + slot - m_fdmax k) with slot in Hu' by lia. congruence. }
  split; cbn [fst snd].
  - destruct Hwf as [Hl Hi]. split; [by cbn [m_xident x']; rewrite length_insert|done].
  - intros t0 i0 s0 [(_ & ? & _)|[_ H]]%list_lookup_insert_Some; [done|by apply (Hcl t0 i0)].
  - intros t0 p id [(-> & <- & _)|[_ H]]%list_lookup_insert_Some Hid.
    + injection Hid as <-. split; [done|]. apply Hu; [done|by left].
    + destruct (Hh _ _ _ H Hid) as [Hr Hus]. split; [done|]. apply Hu; [done|by right].
  - intros t1 t2 p1 p2 id [(<- & <- & _)|[Hn1 H1]]%list_lookup_insert_Some [(<- & <- & _)|[Hn2 H2]]%list_lookup_insert_Some Hp1 Hp2;
      [done|..|by apply (Ho t1 t2 p1 p2 id)].
    + injection Hp1 as <-. by destruct (Hh _ _ _ H2 Hp2).
    + injection Hp2 as <-. by destruct (Hh _ _ _ H1 Hp1).
  - intros id Hr Hid. apply (Hu id Hr) in Hid as [->|Hid].
    + exists t, (XHolds new). split; [apply list_lookup_insert_eq; by eapply lookup_lt_Some|done].
    + destruct (Ha id Hr Hid) as (t0 & p0 & Hp0 & Hhid). exists t0, p0. rewrite list_lookup_insert_ne; [done|]. intros <-.
      rewrite Ht in Hp0. by injection Hp0 as <-.
  - intros t0 b [(_ & ? & _)|[_ H]]%list_lookup_insert_Some; [done|by apply (Hf t0)].
Qed.

Lemma x_inv_clear ts x t id :
  x_inv (ts, x) -> ts !! t = Some (XClear id) ->
  x_inv (<[t := XFreed true]> ts, Xidents (<[slot_of id := false]> (m_xident x)) (m_xident_index x)).
Proof.
  intros [Hwf Hcl Hh Ho Ha Hf] Ht. cbn [fst snd] in *. destruct (Hh _ _ id Ht eq_refl) as [Hr0 Hu0]. set (x' := Xidents _ _).
  assert (forall j, xident_range k j -> used k x' j <-> j <> id /\ used k x j) as Hu.
  { intros j Hr. unfold used, x', xident_range in *. cbn [m_xident]. destruct (decide (j = id)) as [->|Hne].
    - destruct Hu0 as [_ Hl%lookup_lt_Some]. rewrite list_lookup_insert_eq by done. naive_solver.
    - rewrite list_lookup_insert_ne by lia. tauto. }
  split; cbn [fst snd].
  - destruct Hwf as [Hl Hi]. split; [by cbn [m_xident x']; rewrite length_insert|done].
  - intros t0 i0 s0 [(_ & ? & _)|[_ H]]%list_lookup_insert_Some; [done|by apply (Hcl t0 i0)].
  - intros t0 p j [(_ & <- & _)|[Hne H]]%list_lookup_insert_Some Hj; [done|]. destruct (Hh _ _ _ H Hj) as [Hr Hus]. split; [done|].
    apply Hu; [done|]. split; [|done]. intros ->. apply Hne. by apply (Ho t t0 (XClear id) p id).
  - intros t1 t2 p1 p2 j [(_ & <- & _)|[_ H1]]%list_lookup_insert_Some [(_ & <- & _)|[_ H2]]%list_lookup_insert_Some Hp1 Hp2; try done.
    by apply (Ho t1 t2 p1 p2 j).
  - intros j Hr Hus. apply (Hu j Hr) in Hus as [Hne Hus]. destruct (Ha j Hr Hus) as (t0 & p0 & Hp0 & Hj). exists t0, p0.
    rewrite list_lookup_insert_ne; [done|]. intros <-. rewrite Ht in Hp0. injection Hp0 as <-. by injection Hj.
  - intros t0 b [(_ & [= <-] & _)|[_ H]]%list_lookup_insert_Some; [done|by apply (Hf t0)].
Qed.

Lemma x_step_inv c c' : x_inv c -> x_step c c' -> x_inv c'.
Proof.
  intros Hinv Hs. destruct Hs as [t ts x p p' x' Ht Hc|t ts x p p' Ht Hc|ts x].
  - destruct p; cbn [x_code] in Hc; try done.
    + pose proof (xi_wf _ Hinv) as Hwf. cbn [snd] in Hwf. destruct (_ <? _); injection Hc as <- <-; eapply x_inv_same; try done; [by apply search_wf|].
      intros i0 slot [= <- <-]. destruct Hwf as [_ Hi]. unfold MP_WAVY_KERNEL_KQUEUE_XIDENT_MAX. apply Z.rem_bound_pos; lia.
    + destruct (_ !! Z.to_nat slot) as [[]|] eqn:Hslot; [|by injection Hc as <- <-; eapply x_inv_claim|done].
      injection Hc as <- <-. eapply x_inv_same; try done. apply (xi_wf _ Hinv).
    + destruct (xi_held _ Hinv t _ xident Ht eq_refl) as [_ [_ Hu]]. cbn [snd] in Hu. rewrite Hu in Hc. injection Hc as <- <-.
      eapply x_inv_same; try done. apply (xi_wf _ Hinv).
    + injection Hc as <- <-. by eapply x_inv_clear.
  - destruct Hc; (eapply x_inv_same; [exact Hinv|exact Ht|done|apply (xi_wf _ Hinv)|done..]).
  - destruct Hinv as [Hwf Hcl Hh Ho Ha Hf]. cbn [fst snd] in *.
    assert (forall t p, (ts ++ [XIdle]) !! t = Some p -> ts !! t = Some p \/ p = XIdle) as Hback.
    { intros t p [H|[_ H]]%lookup_app_Some; [by left|]. right. by apply list_lookup_singleton_Some in H as [_ <-]. }
    split; cbn [fst snd].
    + done.
    + intros t i s [H|?]%Hback; [by eapply Hcl|done].
    + intros t p id [H| ->]%Hback Hid; [by eapply Hh|done].
    + intros t1 t2 p1 p2 id [H1| ->]%Hback [H2| ->]%Hback Hp1 Hp2; try done. by apply (Ho t1 t2 p1 p2 id).
    + intros id Hr Hu. destruct (Ha id Hr Hu) as (t & p & Hp & Hid). exists t, p. split; [by apply lookup_app_l_Some|done].
    + intros t b [H|?]%Hback; [by eapply Hf|done].
Qed.

Lemma x_reach_inv c : x_reach c -> x_inv c.
Proof.
  induction 1 as [idx Hidx|c c' _ IH Hs]; [|by eapply x_step_inv].
  split; cbn [fst snd]; try done.
  intros id _ [_ [Hu _]%lookup_replicate]. done.
Qed.

(** C34. The lock-free allocation of the kqueue's identifiers, for any number of threads
    that take identifiers and give back their own, in any interleaving: no two threads
    have the same identifier, every identifier a thread has is marked and every marked
    one is had by a thread, so that none is lost, and giving one back never fails. *)
Theorem xidents_exclusive (ts : list xpc) (x : xidents) :
  x_reach (ts, x) ->
  (forall t1 t2 p1 p2 id, ts !! t1 = Some p1 -> ts !! t2 = Some p2 -> holds p1 = Some id -> holds p2 = Some id -> t1 = t2) /\
  (forall id, xident_range k id -> used k x id <-> exists t p, ts !! t = Some p /\ holds p = Some id) /\
  (forall t, ts !! t <> Some (XFreed false)).
Proof.
  intros [_ _ Hh Ho Ha Hf]%x_reach_inv. cbn [fst snd] in *. split; [done|]. split.
  - intros id Hr. split; [by apply Ha|]. intros (t & p & Hp & Hid). by apply (Hh t p).
  - intros t Ht. by apply Hf in Ht.
Qed.

(** ** One thread *)

(** Alone, the accesses of [alloc_xident] are the function. *)
Fixpoint x_alone (n : nat) (p : xpc) (x : xidents) : option (xpc * xidents) :=
  match n with
  | O => Some (p, x)
  | S n => match x_code p x with Some (p', x') => x_alone n p' x' | None => Some (p, x) end
  end.

Lemma x_alone_search n i x :
  xidents_wf x -> 0 <= i -> i + Z.of_nat n = 512 ->
  x_alone (S (2 * n)) (XSearch i) x =
    let '(r, x') := xident_search n x in
    Some (match r with Some slot => XHolds (signed 32 (m_fdmax k + slot)) | None => XFull end, x').
Proof.
  revert i x. induction n as [|n IH]; intros i x Hwf Hi Hn.
  { cbn [x_alone x_code xident_search Nat.mul]. unfold MP_WAVY_KERNEL_KQUEUE_XIDENT_MAX. destruct (Z.ltb_spec i (256 * 2)); [lia|done]. }
  replace (S (2 * S n)) with (S (S (S (2 * n)))) by lia. cbn [x_alone x_code xident_search].
  destruct (Z.ltb_spec i (MP_WAVY_KERNEL_KQUEUE_XIDENT_MAX * 2)); [|unfold MP_WAVY_KERNEL_KQUEUE_XIDENT_MAX in *; lia].
  cbn [x_code m_xident m_xident_index]. destruct (slot_range x Hwf) as [b Hb]. rewrite Hb. destruct b.
  - apply (IH (i + 1)); [by apply search_wf|lia|lia].
  - by destruct (2 * n)%nat.
Qed.

(** The accesses of a thread that runs alone compute [alloc_xident]. *)
Lemma x_alone_alloc x :
  xidents_wf x ->
  exists p x', x_alone 1025 (XSearch 0) x = Some (p, x') /\ alloc_xident k x = (default (-1) (holds p), x').
Proof.
  intros Hwf. unfold alloc_xident. change 1025%nat with (S (2 * 512)). rewrite x_alone_search by (done || lia).
  change (Z.to_nat (MP_WAVY_KERNEL_KQUEUE_XIDENT_MAX * 2)) with 512%nat.
  destruct (xident_search 512 x) as [[slot|] x']; by eexists _, _.
Qed.
End Threads.

(** ** Runs *)

Inductive x_move : Type := MvThread | MvAccess (t : nat) | MvDoes (t : nat).

Definition client_next (p : xpc) : option xpc :=
  match p with XIdle => Some (XSearch 0) | XHolds id => Some (XTest id) | XFull | XFreed _ => Some XIdle | _ => None end.

Definition x_run_move (k : kqueue) (m : x_move) (c : list xpc * xidents) : option (list xpc * xidents) :=
  match m with
  | MvThread => Some (fst c ++ [XIdle], snd c)
  | MvAccess t => p ← fst c !! t; '(p', x') ← x_code k p (snd c); Some (<[t := p']> (fst c), x')
  | MvDoes t => p ← fst c !! t; p' ← client_next p; Some (<[t := p']> (fst c), snd c)
  end.

Fixpoint x_run (k : kqueue) (ms : list x_move) (c : list xpc * xidents) : option (list xpc * xidents) :=
  match ms with [] => Some c | m :: ms => x_run_move k m c ≫= x_run k ms end.

Lemma x_run_reach k ms c c' : x_reach k c -> x_run k ms c = Some c' -> x_reach k c'.
Proof.
  revert c. induction ms as [|m ms IH]; intros c Hr; cbn [x_run]; [by intros [= <-]|].
  destruct (x_run_move k m c) as [c1|] eqn:Hm; [|done]. cbn [mbind option_bind]. apply IH. eapply x_next; [exact Hr|].
  destruct c as [ts x]. destruct m as [|t|t]; unfold x_run_move in Hm; cbn [fst snd] in Hm; [injection Hm as <-; constructor|..];
    destruct (ts !! t) as [p|] eqn:Hp; cbn [mbind option_bind] in Hm; try done.
  - destruct (x_code k p x) as [[p' x']|] eqn:Hc; [|done]. injection Hm as <-. by eapply x_access.
  - destruct (client_next p) as [p'|] eqn:Hc; [|done]. injection Hm as <-. eapply x_does; [done|].
    destruct p; try done; injection Hc as <-; constructor.
Qed.

(** Two threads draw their slots before either claims one, and the first gives its
    identifier back. *)
Definition two_threads : list x_move :=
  [MvThread; MvThread; MvDoes 0; MvDoes 1; MvAccess 1; MvAccess 0; MvAccess 0; MvAccess 1; MvDoes 0; MvAccess 0].

Definition two_end : list xpc * xidents := default ([], no_xidents) (x_run kq_sample two_threads ([], no_xidents)).

Lemma xidents_exclusive_witness :
  fst two_end = [XClear 1025; XHolds 1024] /\
  (forall t1 t2 p1 p2 id, fst two_end !! t1 = Some p1 -> fst two_end !! t2 = Some p2 -> holds p1 = Some id -> holds p2 = Some id -> t1 = t2) /\
  (forall id, xident_range kq_sample id -> used kq_sample (snd two_end) id <-> exists t p, fst two_end !! t = Some p /\ holds p = Some id) /\
  (forall t, fst two_end !! t <> Some (XFreed false)).
Proof.
  split; [by vm_compute|]. apply (xidents_exclusive kq_sample kq_sample_ok).
  apply (x_run_reach kq_sample two_threads ([], no_xidents)); [by apply x_start|by vm_compute].
Defined.

(** Two threads that give back the same identifier, which the clients above do not:
    both are told that they freed it, since the test and the store are apart. *)
Lemma double_free_unnoticed :
  x_run kq_sample [MvAccess 0; MvAccess 1; MvAccess 0; MvAccess 1] ([XTest 1024; XTest 1024], Xidents [true] 0) =
    Some ([XFreed true; XFreed true], Xidents [false] 0).
Proof. by vm_compute. Qed.
