(* ===== verification/KqueueLaws.v ===== *)
(** * The laws of the kernel interface, for kqueue

    From what the manual page promises about kevent(2), the kqueue kernel obeys
    the laws of Kernel, so the theorems about the output queue and the event
    loop hold on it as well.  A registration is that of a descriptor and a
    filter; used in one mode, a kernel has one registration for a descriptor. *)

From Stdlib Require Import ZArith Lia.
From stdpp Require Import base tactics option list numbers gmap sets fin_sets fin_maps.
From S2P Require Import Prelude Os Kernel KernelKqueue.

Definition kev_key (e : kev) : Z * Z := (kev_ident e, kev_filter e).

(** kevent(2): EV_ADD of EVFILT_READ or EVFILT_WRITE accepts valid descriptors;
    a wait reports at most [maxevents] registrations, each at most once. *)
Class KqueueSpec (OS : Os) : Prop := {
  kevent_add_valid tr kq ident filter flags fflags data udata n out :
    sys tr (KeventChange kq ident filter flags fflags data udata) = SysOk n out ->
    filter = EVFILT_READ \/ filter = EVFILT_WRITE -> Z.testbit flags 0 = true -> 0 <= ident < 2 ^ 31;
  kevent_wait_reports tr kq maxevents timeout n out :
    sys tr (KeventWait kq maxevents timeout) = SysOk n out ->
    0 <= n <= maxevents /\ NoDup (kev_key <$> kevs (Z.to_nat n) out) /\
    Forall (fun e => kq_regs kq tr !! kev_key e = Some (kev_udata e)) (kevs (Z.to_nat n) out)
}.

(** What the operations of the interface register in mode [m]. *)
Definition kreg_ok (m : Z) (key : Z * Z) (udata : Z) : Prop :=
  snd key = m /\ (m = EVFILT_READ \/ m = EVFILT_WRITE) /\ 0 <= fst key < 2 ^ 31 /\ udata = 0.

Definition kq_wf (k : kqueue) (m : Z) (tr : trace) : Prop := map_Forall (kreg_ok m) (kq_regs (m_kq k) tr).

Definition kq_armed (k : kqueue) (tr : trace) : gset Z := set_map fst (dom (kq_regs (m_kq k) tr)).

Definition kq_event (m : Z) (e : kev) : Prop := kreg_ok m (kev_key e) (kev_udata e).

Definition kq_registers (ev : event) : bool :=
  match ev with
  | Sys (KeventChange _ _ _ _ _ _ _) _ | Sys (KeventWait _ _ _) _ => true
  | _ => false
  end.

Definition kq_refused (ev : event) : bool :=
  match ev with
  | Sys (KeventChange _ _ _ flags _ _ _) a => Z.testbit flags 0 && is_err a
  | _ => false
  end.

Lemma kq_armed_elem k tr id : id ∈ kq_armed k tr <-> exists f udata, kq_regs (m_kq k) tr !! (id, f) = Some udata.
Proof.
  unfold kq_armed. rewrite elem_of_map. split.
  - intros ([id' f] & -> & [udata Hl]%elem_of_dom). by exists f, udata.
  - intros (f & udata & Hl). exists (id, f). split; [done|]. apply elem_of_dom. by exists udata.
Qed.

Lemma kq_regs_other kq tr r a :
  kq_registers (Sys r a) = false -> kq_regs kq (tr ++ [Sys r a]) = kq_regs kq tr.
Proof. intros Hr. rewrite kq_regs_snoc. by destruct r. Qed.

Lemma kevs_length n out : (length (kevs n out) <= n)%nat.
Proof.
  revert out. induction n as [|n IH]; intros out; [done|].
  destruct out as [|? [|? [|? out]]]; simpl; try lia. specialize (IH out). lia.
Qed.

(** The registrations after some were reported. *)
Lemma report_lookup (es : list kev) (m : gmap (Z * Z) Z) key :
  fold_left (fun m e => delete (kev_ident e, kev_filter e) m) es m !! key =
    if bool_decide (key ∈ kev_key <$> es) then None else m !! key.
Proof.
  revert m. induction es as [|e es IH]; intros m; [done|]. cbn [fold_left]. rewrite IH. clear IH.
  destruct (decide (key ∈ kev_key <$> es)) as [Hin|Hn].
  - rewrite !bool_decide_true; [done|by apply elem_of_cons; right|done].
  - rewrite (bool_decide_false (key ∈ kev_key <$> es)) by done. destruct (decide (key = kev_key e)) as [->|Hne].
    + rewrite bool_decide_true by (by apply elem_of_cons; left). apply lookup_delete_eq.
    + rewrite bool_decide_false by (by intros [?|?]%elem_of_cons). by apply lookup_delete_ne.
Qed.

Section Laws.
Context {OS : Os} {Spec : KqueueSpec OS}.

(** A change that adds a descriptor in mode [m]. *)
Lemma kq_armed_add k k' m fd f data udata tr a :
  f = EVFILT_READ \/ f = EVFILT_WRITE -> udata = 0 ->
  a = sys tr (KeventChange (m_kq k) (uintptr fd) f (Z.lor EV_ADD EV_ONESHOT) 0 data udata) ->
  kq_wf k' m tr -> (bool_decide (m_kq k' = m_kq k) = true -> m = f /\ 0 <= fd) ->
  let tr' := tr ++ [Sys (KeventChange (m_kq k) (uintptr fd) f (Z.lor EV_ADD EV_ONESHOT) 0 data udata) a] in
  kq_wf k' m tr' /\
  kq_armed k' tr' = if bool_decide (m_kq k' = m_kq k) && negb (is_err a) then {[fd]} ∪ kq_armed k' tr else kq_armed k' tr.
Proof.
  intros Hf Hu Ha Hwf Hm. cbv zeta. unfold kq_wf. destruct a as [n out|e].
  2:{ rewrite kq_regs_snoc. cbn [kq_step is_err negb]. rewrite andb_false_r. split; [done|].
      unfold kq_armed. by rewrite kq_regs_snoc. }
  symmetry in Ha. apply kevent_add_valid in Ha; [|done..]. cbn [is_err negb]. rewrite andb_true_r.
  rewrite kq_regs_snoc. cbn [kq_step]. change (Z.testbit (Z.lor EV_ADD EV_ONESHOT) 0) with true. cbv iota.
  case_bool_decide as Heq; rewrite ?(bool_decide_true (m_kq k = m_kq k')), ?(bool_decide_false (m_kq k = m_kq k')) by congruence.
  - destruct (Hm eq_refl) as [-> H0]. rewrite uintptr_pos in * by done. split.
    + by apply map_Forall_insert_2.
    + apply set_eq. intros id. rewrite elem_of_union, elem_of_singleton, !kq_armed_elem, kq_regs_snoc. cbn [kq_step].
      rewrite bool_decide_true by done. change (Z.testbit (Z.lor EV_ADD EV_ONESHOT) 0) with true. cbv iota. split.
      * intros (f' & u' & [[[= <- <-] _]|[_ Hl]]%lookup_insert_Some); [by left|right; eauto].
      * intros [->|(f' & u' & Hl)]; [exists f, udata; by rewrite lookup_insert_eq|].
        destruct (decide ((fd, f) = (id, f'))) as [[= <- <-]|Hne]; [exists f, udata; by rewrite lookup_insert_eq|].
        exists f', u'. by rewrite lookup_insert_ne.
  - split; [done|]. unfold kq_armed. rewrite kq_regs_snoc. cbn [kq_step]. by rewrite bool_decide_false by congruence.
Qed.

Lemma kq_armed_delete k k' m id f tr a :
  kq_wf k' m tr ->
  let tr' := tr ++ [Sys (KeventChange (m_kq k) id f EV_DELETE 0 0 0) a] in
  kq_wf k' m tr' /\ kq_armed k' tr' ⊆ kq_armed k' tr /\
  (bool_decide (m_kq k' = m_kq k) = false -> kq_armed k' tr' = kq_armed k' tr).
Proof.
  intros Hwf. cbv zeta. unfold kq_wf, kq_armed. rewrite kq_regs_snoc. destruct a as [n out|e]; [|done].
  cbn [kq_step]. change (Z.testbit EV_DELETE 0) with false. change (Z.testbit EV_DELETE 1) with true. cbv iota.
  case_bool_decide as Heq.
  - split; [by apply map_Forall_delete|]. split; [|by rewrite bool_decide_true by done].
    apply set_map_mono; [done|]. rewrite dom_delete_L. set_solver.
  - done.
Qed.

(** The events that a wait reports in mode [m]. *)
Lemma kq_reported k m tr n out max ts :
  kq_wf k m tr -> sys tr (KeventWait (m_kq k) max ts) = SysOk n out ->
  let es := kevs (Z.to_nat n) out in
  Forall (kq_event m) es /\ NoDup (kq_event_ident <$> es) /\ list_to_set (kq_event_ident <$> es) ⊆ kq_armed k tr /\
  zlen es <= max /\ kq_event_ident <$> es = kev_ident <$> es.
Proof.
  intros Hwf Hs. destruct (kevent_wait_reports _ _ _ _ _ _ Hs) as (Hn & Hnd & Hall). cbv zeta.
  set (es := kevs (Z.to_nat n) out) in *.
  assert (Forall (kq_event m) es) as Hok.
  { eapply Forall_impl; [exact Hall|]. intros e He. exact (Hwf _ _ He). }
  assert (kq_event_ident <$> es = kev_ident <$> es) as Hids.
  { apply list_fmap_ext. intros i e He. rewrite Forall_lookup in Hok. destruct (Hok _ _ He) as (Hf & Hm & Hi & _).
    cbn in Hf, Hi. unfold kq_event_ident. rewrite (signed_small 32 (kev_ident e)) by lia.
    destruct (Z.eqb_spec (kev_filter e) EVFILT_SIGNAL) as [Heq|]; [|done].
    unfold EVFILT_READ, EVFILT_WRITE, EVFILT_SIGNAL in *. lia. }
  split_and!; [done| | | |done].
  - rewrite Hids. assert (kev_key <$> es = (fun i => (i, m)) <$> (kev_ident <$> es)) as Hk.
    { rewrite <-list_fmap_compose. apply list_fmap_ext. intros i e He. rewrite Forall_lookup in Hok.
      destruct (Hok _ _ He) as (Hf & _). cbn in Hf. unfold kev_key. cbn. by rewrite Hf. }
    rewrite Hk in Hnd. by eapply NoDup_fmap_1.
  - rewrite Hids. intros id [e [-> He]]%elem_of_list_to_set%list_elem_of_fmap. apply kq_armed_elem.
    rewrite Forall_forall in Hall. exists (kev_filter e), (kev_udata e). by apply Hall.
  - pose proof (kevs_length (Z.to_nat n) out). unfold es. lia.
Qed.

Lemma kq_armed_wait k k' m m' tr n out max ts :
  kq_wf k m tr -> kq_wf k' m' tr -> sys tr (KeventWait (m_kq k) max ts) = SysOk n out ->
  let es := kevs (Z.to_nat n) out in
  let tr' := tr ++ [Sys (KeventWait (m_kq k) max ts) (SysOk n out)] in
  kq_wf k' m' tr' /\
  kq_armed k' tr' = if bool_decide (m_kq k' = m_kq k) then kq_armed k' tr ∖ list_to_set (kq_event_ident <$> es) else kq_armed k' tr.
Proof.
  intros Hwf Hwf' Hs. destruct (kq_reported _ _ _ _ _ _ _ Hwf Hs) as (Hok & _ & _ & _ & Hids). cbv zeta in *.
  set (es := kevs (Z.to_nat n) out) in *. unfold kq_wf. rewrite kq_regs_snoc. cbn [kq_step].
  assert (forall id f u, kq_regs (m_kq k) tr !! (id, f) = Some u -> (id, f) ∈ kev_key <$> es <-> id ∈ kq_event_ident <$> es) as Hkeys.
  { intros id f u Hl. rewrite Hids. split.
    - intros (e & [= -> ->] & He)%list_elem_of_fmap. apply list_elem_of_fmap. by exists e.
    - intros (e & -> & He)%list_elem_of_fmap. apply list_elem_of_fmap. exists e. split; [|done].
      rewrite Forall_forall in Hok. destruct (Hok _ He) as (Hf & _). destruct (Hwf _ _ Hl) as (Hf' & _).
      cbn in Hf, Hf'. unfold kev_key. congruence. }
  rewrite (bool_decide_ext (m_kq k = m_kq k') (m_kq k' = m_kq k)) by (split; congruence).
  case_bool_decide as Heq.
  - split.
    + intros key u. rewrite report_lookup. case_bool_decide; [done|]. apply Hwf'.
    + apply set_eq. intros id. rewrite elem_of_difference, elem_of_list_to_set, !kq_armed_elem, kq_regs_snoc. cbn [kq_step].
      rewrite bool_decide_true by done. fold es. setoid_rewrite report_lookup. rewrite Heq. split.
      * intros (f & u & Hl). case_bool_decide as Hin; [done|]. split; [by exists f, u|]. by rewrite <-Hkeys.
      * intros [(f & u & Hl) Hn]. exists f, u. rewrite bool_decide_false; [done|]. by rewrite Hkeys.
  - split; [done|]. unfold kq_armed. rewrite kq_regs_snoc. cbn [kq_step]. by rewrite bool_decide_false by congruence.
Qed.
End Laws.

#[export] Instance kqueue_laws {OS : Os} {Spec : KqueueSpec OS} : KernelLaws (kqueue_kernel OS).
Proof.
  refine {| armed := kq_armed; registers := kq_registers; refused := kq_refused;
            kernel_wf := kq_wf; event_ok := kq_event |}.
  - intros k m. split; [done|]. unfold kq_armed. change (kq_regs (m_kq k) []) with (∅ : kregs). by rewrite dom_empty_L, set_map_empty.
  - intros k m tr ev Hev Hwf. assert (kq_regs (m_kq k) (tr ++ [ev]) = kq_regs (m_kq k) tr) as Hr.
    { rewrite kq_regs_snoc. by destruct ev as [[] []|]. }
    unfold kq_wf, kq_armed. by rewrite Hr.
  - by intros [].
  - by intros [].
  - done.
  - by intros [[]|].
  - intros k fd f w Hf. apply wp_syscall. intros a Ha. split_and!; [by split; [|right; eauto]| |].
    + intros Hall. apply Forall_app in Hall as [_ Hr%Forall_inv]. cbn in Hr. by destruct a.
    + intros k' m Hwf Hm. by apply (kq_armed_add k k' m fd f 0 0 (w_trace w) a).
  - intros k fd f w. apply wp_syscall. intros a Ha. split; [by split; [|right; eauto]|].
    intros k' m Hwf. by apply kq_armed_delete.
  - intros k m timeout w Hwf. unfold wait, kqueue_kernel, kq_wait. wp_step. apply wp_syscall. intros a Ha. symmetry in Ha. wp_step.
    split; [by split; [|right; eauto]|]. cbv zeta. destruct a as [n out|e].
    + destruct (kq_reported _ _ _ _ _ _ _ Hwf Ha) as (Hok & Hnd & Hsub & Hlen & _). split_and!; [done..|].
      intros k' m' Hwf'. by apply (kq_armed_wait k k' m m').
    + split_and!; [constructor|constructor|set_solver|done|]. intros k' m' Hwf'.
      cbn [w_trace]. unfold kq_wf, kq_armed. rewrite kq_regs_snoc. split; [done|]. destruct (same_kernel _ _); set_solver.
  - intros k m e w (Hf & Hm & Hi & Hu). destruct e as [ident filter udata]. cbn [kev_key kev_ident kev_filter kev_udata fst snd] in Hf, Hi, Hu. subst filter udata.
    assert (kq_event_ident (Kev ident m 0) = ident) as Hid.
    { unfold kq_event_ident. cbn [kev_filter kev_ident]. rewrite (signed_small 32 ident) by lia. by destruct Hm as [-> | ->]. }
    assert (kq_reactivate k (Kev ident m 0) = kq_add_fd k ident m) as Hre.
    { unfold kq_reactivate. rewrite Hid. by destruct Hm as [-> | ->]. }
    cbn [reactivate kqueue_kernel event_ident]. rewrite Hre, Hid. apply wp_syscall. intros a Ha.
    split_and!; [by split; [|right; eauto]| |].
    + intros Hall. apply Forall_app in Hall as [_ Hr%Forall_inv]. cbn in Hr. by destruct a.
    + intros k' m' Hwf Hm'. apply (kq_armed_add k k' m' ident m 0 0 (w_trace w) a); [done..|].
      intros Hs. split; [by apply Hm'|lia].
  - intros k e w. unfold remove, kqueue_kernel, kq_remove.
    destruct (_ || _); wp_step; (split; [by split; [|left]|]); intros k' m Hwf; split_and!; try done; set_solver.
Defined.

(** ** One-shot delivery *)

(** The identifiers [fds] are not registered with [kq] in [tr]. *)
Definition kq_not_added (kq : Z) (fds : list Z) (tr : trace) : Prop :=
  Forall (fun ev => match ev with
    | Sys (KeventChange kq' ident _ flags _ _ _) (SysOk _ _) => kq' = kq -> Z.testbit flags 0 = true -> ident ∉ fds
    | _ => True end) tr.

Lemma kq_armed_quiet k fds tr tr' fd :
  kq_not_added (m_kq k) fds tr' -> fd ∈ fds -> fd ∉ kq_armed k tr -> fd ∉ kq_armed k (tr ++ tr').
Proof.
  intros Hq Hfd. revert tr. induction Hq as [|ev tr' Hev _ IH]; intros tr Hn; [by rewrite app_nil_r|].
  rewrite cons_middle, app_assoc. apply IH. intros (f & u & Hl)%kq_armed_elem. apply Hn, kq_armed_elem.
  rewrite kq_regs_snoc in Hl. destruct ev as [r [n out|]|]; [|by destruct r; eauto|by eauto].
  destruct r; cbn [kq_step] in Hl; try by eauto.
  - case_bool_decide as Hk; [|by eauto]. destruct (Z.testbit flags 0) eqn:H0.
    + apply lookup_insert_Some in Hl as [[[= -> ->] ->]|[_ Hl]]; [|by eauto]. by destruct (Hev Hk eq_refl).
    + destruct (Z.testbit flags 1); [|by eauto]. apply lookup_delete_Some in Hl as [_ Hl]. by eauto.
  - case_bool_decide; [|by eauto]. rewrite report_lookup in Hl. case_bool_decide; [done|]. by eauto.
Qed.

(** A descriptor that [wait] reported is not reported by a later [wait] of the
    same kqueue unless it was registered in between, whatever else was called. *)
Theorem kq_reported_once {OS : Os} {Spec : KqueueSpec OS} (k : kqueue) (m t1 t2 : Z) (w1 w2 w1' w2' : world)
    (es1 es2 : list kev) (tr : trace)
    (Hwf : kq_wf k m (w_trace w1)) (Hwf2 : kq_wf k m (w_trace w2))
    (H1 : kq_wait k t1 w1 = Ret (inr es1) w1') (H2 : kq_wait k t2 w2 = Ret (inr es2) w2')
    (Htr : w_trace w2 = w_trace w1' ++ tr) (Hq : kq_not_added (m_kq k) (kq_event_ident <$> es1) tr) :
  forall e, e ∈ es2 -> kq_event_ident e ∉ kq_event_ident <$> es1.
Proof.
  pose proof (wait_disarms (K := kqueue_kernel OS) k m t1 w1 Hwf) as Hw1. unfold wp in Hw1. cbn [wait kqueue_kernel] in Hw1.
  rewrite H1 in Hw1. destruct Hw1 as (_ & _ & _ & _ & _ & Harm). destruct (Harm k m Hwf) as [_ Ha1].
  unfold same_kernel in Ha1. rewrite bool_decide_true in Ha1 by done. cbn [armed kqueue_laws] in Ha1.
  pose proof (wait_disarms (K := kqueue_kernel OS) k m t2 w2 Hwf2) as Hw2. unfold wp in Hw2. cbn [wait kqueue_kernel] in Hw2.
  rewrite H2 in Hw2. destruct Hw2 as (_ & _ & _ & Hsub & _).
  intros e He Hin. assert (kq_event_ident e ∈ kq_armed k (w_trace w2)) as Hr.
  { apply Hsub, elem_of_list_to_set, list_elem_of_fmap. by exists e. }
  rewrite Htr in Hr. revert Hr. eapply kq_armed_quiet; [exact Hq|exact Hin|]. rewrite Ha1.
  intros [_ Hn]%elem_of_difference. apply Hn. by apply elem_of_list_to_set.
Qed.

(** ** A concrete environment

    Every registration is always ready. *)
Definition kev_words (p : (Z * Z) * Z) : list Z := [fst (fst p); snd (fst p); snd p].

Definition kq_ready_os : Os := {|
  sys := fun tr r =>
    match r with
    | KeventChange _ ident _ _ _ _ _ => if (0 <=? ident) && (ident <? 2 ^ 31) then SysOk 0 [] else SysErr (EOTHER 9)
    | KeventWait kq maxevents _ =>
        let ps := take (Z.to_nat maxevents) (map_to_list (kq_regs kq tr)) in
        if maxevents <? 0 then SysErr (EOTHER 22) else SysOk (zlen ps) (ps ≫= kev_words)
    | _ => SysOk 0 []
    end;
  memcpy_may_overlap := true
|}.

Lemma kevs_words ps :
  kevs (length ps) (ps ≫= kev_words) = (fun p => Kev (fst (fst p)) (snd (fst p)) (snd p)) <$> ps.
Proof. induction ps as [|p ps IH]; [done|]. cbn. by rewrite IH. Qed.

#[export] Instance kq_ready_spec : KqueueSpec kq_ready_os.
Proof.
  split.
  - intros *. cbn. destruct (Z.leb_spec 0 ident), (Z.ltb_spec ident (2 ^ 31)); intros [=]; lia.
  - intros *. cbn [sys kq_ready_os]. destruct (Z.ltb_spec maxevents 0); [done|]. intros [= <- <-].
    set (ps := take (Z.to_nat maxevents) (map_to_list (kq_regs kq tr))).
    assert (forall p, p ∈ ps -> kq_regs kq tr !! fst p = Some (snd p)) as Hps.
    { intros [key u] Hin. apply elem_of_map_to_list. unfold ps in Hin.
      apply elem_of_take in Hin as (i & Hl & _). by eapply list_elem_of_lookup_2. }
    rewrite Nat2Z.id, kevs_words, <-list_fmap_compose. split; [unfold ps; rewrite length_take; lia|]. split.
    + assert (kev_key ∘ (fun p : Z * Z * Z => Kev (fst (fst p)) (snd (fst p)) (snd p)) <$> ps = fst <$> ps) as ->.
      { apply list_fmap_ext. by intros ? [[] ] ?. }
      pose proof (NoDup_fst_map_to_list (kq_regs kq tr)) as Hnd. rewrite <-(take_drop (Z.to_nat maxevents)) in Hnd.
      unfold ps. rewrite fmap_take. by apply NoDup_app in Hnd as [? _].
    + apply Forall_fmap, Forall_forall. intros [[i f] u] Hin. by apply (Hps _ Hin).
Qed.

Definition kq_one : kqueue := Kq 3 1024.

(** Descriptor 5 is registered and polled; descriptor 6 is registered then. *)
Definition kq_w1 : world :=
  World [Sys (KeventChange 3 5 EVFILT_READ (Z.lor EV_ADD EV_ONESHOT) 0 0 0) (SysOk 0 [])] [].

Definition kq_after {A} (m : M world A) (w : world) : world := match m w with Ret _ w => w | _ => w end.
Definition kq_polled1 : world := kq_after (kq_wait (OS := kq_ready_os) kq_one 1000) kq_w1.
Definition kq_w2 : world := kq_after (kq_add_fd (OS := kq_ready_os) kq_one 6 EVFILT_READ) kq_polled1.
Definition kq_polled2 : world := kq_after (kq_wait (OS := kq_ready_os) kq_one 1000) kq_w2.

Definition kq_wf_b (k : kqueue) (m : Z) (tr : trace) : bool :=
  bool_decide ((m = EVFILT_READ \/ m = EVFILT_WRITE) /\
    Forall (fun p => snd (fst p) = m /\ 0 <= fst (fst p) < 2 ^ 31 /\ snd p = 0) (map_to_list (kq_regs (m_kq k) tr))).

Lemma kq_wf_b_ok k m tr : kq_wf_b k m tr = true -> kq_wf k m tr.
Proof.
  intros [Hm Hall]%bool_decide_eq_true key u Hl. rewrite Forall_forall in Hall.
  apply elem_of_map_to_list, Hall in Hl as (? & ? & ?). done.
Qed.

Lemma kq_reported_once_witness :
  kq_wait (OS := kq_ready_os) kq_one 1000 kq_w1 = Ret (inr [Kev 5 EVFILT_READ 0]) kq_polled1 /\
  kq_wait (OS := kq_ready_os) kq_one 1000 kq_w2 = Ret (inr [Kev 6 EVFILT_READ 0]) kq_polled2 /\
  forall e, e ∈ [Kev 6 EVFILT_READ 0] -> kq_event_ident e ∉ kq_event_ident <$> [Kev 5 EVFILT_READ 0].
Proof.
  assert (kq_wait (OS := kq_ready_os) kq_one 1000 kq_w1 = Ret (inr [Kev 5 EVFILT_READ 0]) kq_polled1) as H1 by (by vm_compute).
  assert (kq_wait (OS := kq_ready_os) kq_one 1000 kq_w2 = Ret (inr [Kev 6 EVFILT_READ 0]) kq_polled2) as H2 by (by vm_compute).
  split; [exact H1|]. split; [exact H2|].
  apply (kq_reported_once (OS := kq_ready_os) kq_one EVFILT_READ 1000 1000 kq_w1 kq_w2 kq_polled1 kq_polled2 _ _
    [Sys (KeventChange 3 6 EVFILT_READ (Z.lor EV_ADD EV_ONESHOT) 0 0 0) (SysOk 0 [])]).
  - apply kq_wf_b_ok. by vm_compute.
  - apply kq_wf_b_ok. by vm_compute.
  - exact H1.
  - exact H2.
  - by vm_compute.
  - constructor; [|constructor]. intros _ _. apply (bool_decide_unpack (6 ∉ _)). exact I.
Defined.
