(* ===== verification/Out.v ===== *)
(** * out: pending output of every descriptor (src/mpsrc/wavy_out.cc, wavy_out.h)

    [out] keeps one [xfer] per descriptor.  A write first goes to the descriptor
    directly; what the kernel does not take is queued and the descriptor is
    registered for writing; the event loop polls the registrations
    ([poll_event]) and its threads resume the transfers ([write_event]).  Each
    operation on a descriptor runs under the mutex of its [xfer], so the
    operations are atomic steps here; [m_watching] is only changed atomically. *)

From Stdlib Require Import ZArith Lia.
From stdpp Require Import base tactics option list numbers gmap sets.
From S2P Require Import Prelude Os Xfer XferQueue Kernel.

Section Out.
Context {OS : Os} {K : Kernel OS}.

(** class out; [m_backlog] lives only within [poll_event]. *)
Record out := MkOut {
  m_kernel : kernel;
  m_fdctx : list xfer;
  m_queue : list kevent;
  m_watching : Z
}.

Abbreviation ost := (out * world)%type.

Definition on_world {A} (m : M world A) : M ost A := zoom snd (fun w st => (fst st, w)) m.
Definition get_out : M ost out := st ← get; mret (fst st).
Definition put_out (o : out) : M ost unit := modify (fun st => (o, snd st)).

(** [ANON_fdctx[fd]]: past the array, the behaviour is undefined. *)
Definition ctx_at (fd : Z) : M ost xfer :=
  o ← get_out;
  if fd <? 0 then undef
  else match m_fdctx o !! Z.to_nat fd with Some ctx => mret ctx | None => undef end.

Definition set_ctx (fd : Z) (ctx : xfer) : M ost unit :=
  o ← get_out;
  put_out (MkOut (m_kernel o) (<[Z.to_nat fd := ctx]> (m_fdctx o)) (m_queue o) (m_watching o)).

Definition sizeof_xfer_impl : Z := 64.
Definition sizeof_backlog : Z := 12 * MP_WAVY_KERNEL_BACKLOG_SIZE.

(** The members, then the table: what was built is destroyed when a later part throws. *)
Definition out_new : M world out :=
  k ← kernel_new;
  catch
    (ok ← can_alloc sizeof_backlog;
     if negb ok then throw BadAlloc else
     r ← syscall Getrlimit;
     match r with
     | SysErr e => throw (SystemError (errno_code e))
     | SysOk rlim_cur _ =>
         ok ← can_alloc (sizeof_xfer_impl * rlim_cur);
         if negb ok then throw BadAlloc
         else mret (MkOut k (replicate (Z.to_nat rlim_cur) xfer_new) [] 0)
     end)
    (fun e => _ ← kernel_delete k; throw e).

(** [delete[]] destroys the elements from the last to the first. *)
Fixpoint delete_ctxs (ctxs : list xfer) : M world unit :=
  match ctxs with
  | [] => mret tt
  | ctx :: ctxs => _ ← delete_ctxs ctxs; xfer_delete ctx
  end.

Definition out_delete (o : out) : M world unit :=
  _ ← delete_ctxs (m_fdctx o); kernel_delete (m_kernel o).

Definition poll_event : M ost unit :=
  o ← get_out;
  r ← on_world (wait (m_kernel o) 0);
  match r with
  | inl e => if would_retry e then mret tt else throw (SystemError (errno_code e))
  | inr es =>
      put_out (MkOut (m_kernel o) (m_fdctx o) (m_queue o ++ es) (m_watching o))
  end.

(** [__sync_add_and_fetch(&m_watching, d)] on an [int]. *)
Definition add_watching (d : Z) : M ost Z :=
  o ← get_out;
  let n := signed 32 (m_watching o + d) in
  _ ← put_out (MkOut (m_kernel o) (m_fdctx o) (m_queue o) n);
  mret n.

Definition write_event (e : kevent) : M ost bool :=
  let ident := event_ident e in
  ctx ← ctx_at ident;
  '(cont, ctx) ← catch (on_world (try_write ctx ident)) (fun _ => mret (false, ctx));
  _ ← set_ctx ident ctx;
  o ← get_out;
  if negb cont then
    _ ← on_world (remove (m_kernel o) e);
    ctx ← on_world (clear ctx);
    _ ← set_ctx ident ctx;
    n ← add_watching (-1);
    mret (n =? 0)
  else
    _ ← on_world (reactivate (m_kernel o) e);
    mret false.

Definition watch (fd : Z) : M ost unit :=
  o ← get_out;
  _ ← on_world (add_fd (m_kernel o) fd EVKERNEL_WRITE);
  _ ← add_watching 1;
  mret tt.

Definition commit_raw (fd : Z) (xfbuf : list Z) : M ost unit :=
  ctx ← ctx_at fd;
  if negb (xfer_empty ctx) then
    ctx ← on_world (push_xfraw ctx xfbuf);
    set_ctx fd ctx
  else
    '(cont, xfbuf) ← on_world (execute fd xfbuf);
    if cont : bool then
      ctx ← on_world (push_xfraw ctx xfbuf);
      _ ← set_ctx fd ctx;
      watch fd
    else mret tt.

(** [commit(fd, xf)]: the caller's [xf] is part of the state. *)
Definition on_out {A} (m : M ost A) : M (ost * xfer) A := zoom fst (fun s t => (s, snd t)) m.
Definition get_xf : M (ost * xfer) xfer := t ← get; mret (snd t).
Definition put_xf (xf : xfer) : M (ost * xfer) unit := modify (fun t => (fst t, xf)).

Definition commit (fd : Z) : M (ost * xfer) unit :=
  ctx ← on_out (ctx_at fd);
  xf ← get_xf;
  if negb (xfer_empty ctx) then
    '(xf, ctx) ← on_out (on_world (migrate xf ctx));
    _ ← on_out (set_ctx fd ctx);
    put_xf xf
  else
    '(cont, xf) ← on_out (on_world (try_write xf fd));
    _ ← put_xf xf;
    if cont : bool then
      '(xf, ctx) ← on_out (on_world (migrate xf ctx));
      _ ← on_out (set_ctx fd ctx);
      _ ← put_xf xf;
      on_out (watch fd)
    else mret tt.

Definition write (fd buf size : Z) : M ost unit :=
  ctx ← ctx_at fd;
  let enqueue buf size :=
    ctx ← on_world (push_write ctx buf size);
    _ ← set_ctx fd ctx;
    watch fd in
  let hang_up := _ ← on_world (syscall (ShutdownRd fd)); mret tt in
  if xfer_empty ctx then
    wl ← on_world (syscall (Write fd buf size));
    match wl with
    | SysErr e => if negb (would_retry e) then hang_up else enqueue buf size
    | SysOk wl _ =>
        if wl <=? 0 then hang_up
        else if size <=? wl then mret tt
        else enqueue (buf + wl) (size - wl)
    end
  else
    ctx ← on_world (push_write ctx buf size);
    set_ctx fd ctx.

Definition has_queue : M ost bool := o ← get_out; mret (negb (bool_decide (m_queue o = []))).

(** [next()]: [front] and [pop] of an empty queue are undefined. *)
Definition next : M ost kevent :=
  o ← get_out;
  match m_queue o with
  | [] => undef
  | e :: q => _ ← put_out (MkOut (m_kernel o) (m_fdctx o) q (m_watching o)); mret e
  end.

Definition empty : M ost bool := o ← get_out; mret (m_watching o =? 0).

(** ** class loop: the functions that write *)

Definition loop_commit (fd : Z) : M (ost * xfer) unit := commit fd.
Definition loop_write (fd buf size : Z) : M ost unit := write fd buf size.

Definition loop_write_fin (fd buf size fin user : Z) : M ost unit :=
  commit_raw fd (fill_mem buf size ++ fill_finalize fin user).

Definition loop_writev (fd : Z) (vec : list (Z * Z)) (fin user : Z) : M ost unit :=
  commit_raw fd (fill_iovec vec ++ fill_finalize fin user).

Definition loop_sendfile (fd infd off size fin user : Z) : M ost unit :=
  commit_raw fd (fill_sendfile infd off size ++ fill_finalize fin user).

Definition loop_hsendfile (fd header header_size infd off size fin user : Z) : M ost unit :=
  commit_raw fd (fill_mem header header_size ++ fill_sendfile infd off size ++ fill_finalize fin user).

Definition loop_hvsendfile (fd : Z) (header_vec : list (Z * Z)) (infd off size fin user : Z) : M ost unit :=
  commit_raw fd (fill_iovec header_vec ++ fill_sendfile infd off size ++ fill_finalize fin user).

(** ** The specification: streams

    Data tokens of a descriptor: those its calls delivered. *)

Definition is_data (t : token) : bool := negb (is_fin t).
Definition data_of (ts : list token) : list token := filter (fun t => is_data t = true) ts.

Definition on_fd (fd : Z) (ev : event) : bool :=
  match ev with Sys r _ => bool_decide (stream_of r = Some fd) | Finalize _ _ => false end.

Definition sent (fd : Z) (tr : trace) : list token :=
  data_of (delivered (filter (fun ev => on_fd fd ev = true) tr)).

(** A call on [fd] failed: an error other than EAGAIN and EINTR, or nothing taken. *)
Definition fails_on (fd : Z) (ev : event) : bool :=
  on_fd fd ev &&
  match ev with
  | Sys _ (SysOk n _) => n <=? 0
  | Sys _ (SysErr e) => negb (would_retry e)
  | Finalize _ _ => false
  end.

Definition healthy (fd : Z) (tr : trace) : Prop := Forall (fun ev => fails_on fd ev = false) tr.
End Out.
