(* ===== verification/OutProps.v ===== *)
(** * What out promises: streams and registrations

    Any number of threads use [out]: the state of a run is the object, the
    world, and the events that threads have taken with [next] and not yet
    handed to [write_event] (the hands).  [reach] interleaves the operations
    freely.  The invariant has two independent halves: [streams], what was sent
    and queued on each descriptor is what was requested; [tokens_ok], the
    one-shot registrations correspond to the non-empty queues. *)

From Stdlib Require Import ZArith Lia.
From stdpp Require Import base tactics option list numbers gmap sets functions.
From S2P Require Import Prelude Os Xfer XferQueue Kernel KernelEpoll Out.

(** ** Traces of one descriptor *)

Section Traces.
Context {OS : Os} {K : Kernel OS}.

Lemma data_of_app ts1 ts2 : data_of (ts1 ++ ts2) = data_of ts1 ++ data_of ts2.
Proof. apply list.filter_app. Qed.

Lemma data_of_data ts : Forall (fun t => is_data t = true) ts -> data_of ts = ts.
Proof.
  induction 1 as [|t ts Ht _ IH]; [done|]. unfold data_of in *.
  rewrite list.filter_cons_True by done. by f_equal.
Qed.

Lemma sent_app fd tr1 tr2 : sent fd (tr1 ++ tr2) = sent fd tr1 ++ sent fd tr2.
Proof. unfold sent. by rewrite list.filter_app, delivered_app, data_of_app. Qed.

Lemma healthy_app fd tr1 tr2 : healthy fd (tr1 ++ tr2) <-> healthy fd tr1 /\ healthy fd tr2.
Proof. apply Forall_app. Qed.

Lemma on_stream_app fd tr1 tr2 : on_stream fd (tr1 ++ tr2) <-> on_stream fd tr1 /\ on_stream fd tr2.
Proof. apply Forall_app. Qed.

Lemma sent_cons fd ev tr :
  sent fd (ev :: tr) = (if on_fd fd ev then data_of (event_tokens ev) else []) ++ sent fd tr.
Proof.
  unfold sent. rewrite filter_cons. destruct (on_fd fd ev); [|done].
  rewrite decide_True by done. apply data_of_app.
Qed.

Lemma sent_stream fd tr : on_stream fd tr -> sent fd tr = data_of (delivered tr).
Proof.
  induction 1 as [|ev tr Hev _ IH]; [done|]. rewrite sent_cons, IH.
  change (delivered (ev :: tr)) with (event_tokens ev ++ delivered tr). rewrite data_of_app.
  destruct ev as [r a|fin user]; [|done]. cbn [on_fd]. by rewrite bool_decide_true.
Qed.

Lemma sent_other fd fd' tr : on_stream fd tr -> fd' <> fd -> sent fd' tr = [] /\ healthy fd' tr.
Proof.
  intros Hs Hne. induction Hs as [|ev tr Hev _ [IH IHh]]; [by split; [|constructor]|].
  rewrite sent_cons, IH. destruct ev as [r a|fin user]; simpl in *.
  - rewrite bool_decide_false by congruence. split; [done|]. constructor; [|done].
    unfold fails_on. simpl. by rewrite bool_decide_false by congruence.
  - split; [done|]. by constructor.
Qed.

(** A failed walk is an unhealthy stream. *)
Lemma failed_unhealthy fd tr : on_stream fd tr -> failed tr -> ~ healthy fd tr.
Proof.
  intros Hs (tr0 & r & a & -> & Ha) Hh. apply on_stream_app in Hs as [_ Hs%Forall_inv].
  apply healthy_app in Hh as [_ Hh%Forall_inv]. unfold fails_on in Hh. simpl in *.
  rewrite bool_decide_true in Hh by done. simpl in Hh. destruct a as [n out|e].
  - apply Z.leb_gt in Hh. lia.
  - by rewrite Ha in Hh.
Qed.

Lemma sent_quiet fd w w' : quiet w w' ->
  sent fd (w_trace w') = sent fd (w_trace w) /\ (healthy fd (w_trace w') <-> healthy fd (w_trace w)).
Proof.
  intros [_ [->|(r & a & -> & Hr)]]; [done|]. split.
  - rewrite sent_app, sent_cons. simpl. rewrite Hr. apply app_nil_r.
  - rewrite healthy_app. split; [by intros []|]. intros H. split; [done|].
    constructor; [|constructor]. unfold fails_on. simpl. by rewrite Hr.
Qed.

(** Calls on streams do not concern the kernel's registrations. *)
Lemma stream_kernel {L : KernelLaws K} k m fd tr tr' :
  on_stream fd tr' -> kernel_wf k m tr ->
  kernel_wf k m (tr ++ tr') /\ armed k (tr ++ tr') = armed k tr.
Proof.
  intros Hs. revert tr. induction Hs as [|ev tr' Hev _ IH]; intros tr Hwf; [by rewrite app_nil_r|].
  rewrite cons_middle, app_assoc.
  assert (registers ev = false) as Hr.
  { destruct ev; [by eapply stream_not_registers|apply finalize_not_registers]. }
  destruct (other_events k m tr ev Hr Hwf) as [Hwf' Harm].
  destruct (IH (tr ++ [ev]) Hwf') as [? ->]. done.
Qed.
End Traces.

(** ** The invariant *)

Section Invariant.
Context {OS : Os} {K : Kernel OS} {L : KernelLaws K}.

(** The descriptors with something queued. *)
Definition pending (qs : list (list record)) (fd : Z) : Prop :=
  0 <= fd /\ exists rs, qs !! Z.to_nat fd = Some rs /\ rs <> [].

Definition npending (qs : list (list record)) : Z := zlen (filter (fun rs => rs <> []) qs).

Definition streams (tr : trace) (qs : list (list record)) (acc : Z -> list token) : Prop :=
  forall fd rs, 0 <= fd -> qs !! Z.to_nat fd = Some rs -> healthy fd tr ->
    sent fd tr ++ data_of (tokens rs) = acc fd.

(** Every registration so far was accepted by the kernel. *)
Definition all_accepted (tr : trace) : Prop := Forall (fun ev => refused ev = false) tr.

(** Each registration, each polled event and each event in a thread's hands
    belongs to a descriptor of its own, which has something queued; conversely
    every such descriptor has one, as long as the kernel accepted the
    registrations, apart from those of [X], which threads are working on. *)
Record tokens_ok (X : list Z) (o : out) (hands : list kevent) (tr : trace) (qs : list (list record)) : Prop := {
  tk_wf : kernel_wf (m_kernel o) EVKERNEL_WRITE tr;
  tk_events : Forall (event_ok EVKERNEL_WRITE) (m_queue o ++ hands);
  tk_nodup : NoDup (event_ident <$> m_queue o ++ hands);
  tk_disjoint : list_to_set (event_ident <$> m_queue o ++ hands) ## armed (m_kernel o) tr;
  tk_pending fd : fd ∈ (event_ident <$> m_queue o ++ hands) \/ fd ∈ armed (m_kernel o) tr -> pending qs fd;
  tk_live : all_accepted tr -> forall fd, pending qs fd ->
    fd ∈ X \/ (fd ∈ event_ident <$> (m_queue o ++ hands)) \/ fd ∈ armed (m_kernel o) tr
}.

Record out_inv (X : list Z) (st : out * world) (hands : list kevent) (acc : Z -> list token)
    (qs : list (list record)) : Prop := {
  oi_rep : Forall2 x_rep (m_fdctx (fst st)) qs;
  oi_small : zlen qs < 2 ^ 31;
  oi_watching : m_watching (fst st) = npending qs;
  oi_streams : streams (w_trace (snd st)) qs acc;
  oi_tokens : tokens_ok X (fst st) hands (w_trace (snd st)) qs
}.

(** *** Streams *)

Lemma streams_extend tr tr' fd qs acc rs rs' req :
  streams tr qs acc -> on_stream fd tr' -> 0 <= fd -> qs !! Z.to_nat fd = Some rs ->
  (healthy fd tr' -> data_of (delivered tr') ++ data_of (tokens rs') = data_of (tokens rs) ++ req) ->
  streams (tr ++ tr') (<[Z.to_nat fd := rs']> qs) (<[fd := acc fd ++ req]> acc).
Proof.
  intros Hs Hon Hfd Hq Hd fd' rs1 Hfd' Hq' [Hh Hh']%healthy_app. rewrite sent_app.
  destruct (decide (fd' = fd)) as [->|Hne].
  - rewrite list_lookup_insert_eq in Hq' by (by eapply lookup_lt_Some). injection Hq' as <-.
    rewrite fn_lookup_insert, (sent_stream fd tr') by done.
    by rewrite <-app_assoc, (Hd Hh'), app_assoc, (Hs _ _ Hfd Hq Hh).
  - rewrite list_lookup_insert_ne in Hq' by (intros ?; apply Hne; lia).
    rewrite fn_lookup_insert_ne by done. destruct (sent_other fd fd' tr' Hon Hne) as [-> _].
    rewrite app_nil_r. by apply Hs.
Qed.

Lemma streams_quiet w w' qs acc :
  quiet w w' -> streams (w_trace w) qs acc -> streams (w_trace w') qs acc.
Proof.
  intros Hq Hs fd rs Hfd Hl Hh. destruct (sent_quiet fd w w' Hq) as [-> Hh'].
  apply Hs; [done..|]. by apply Hh'.
Qed.

(** *** Counting *)

Lemma npending_insert qs i rs rs' :
  qs !! i = Some rs ->
  npending (<[i := rs']> qs) =
    npending qs - (if bool_decide (rs = []) then 0 else 1) + (if bool_decide (rs' = []) then 0 else 1).
Proof.
  intros Hi. unfold npending. rewrite insert_take_drop by (by eapply lookup_lt_Some).
  rewrite <-(take_drop_middle qs i rs Hi) at 3.
  rewrite !list.filter_app, !length_app, !filter_cons.
  repeat case_bool_decide; repeat case_decide; try done; simpl length; lia.
Qed.

Lemma npending_range qs : 0 <= npending qs <= zlen qs.
Proof. unfold npending. pose proof (length_filter (fun rs : list record => rs <> []) qs). lia. Qed.

Lemma pending_insert qs i rs rs' fd :
  qs !! i = Some rs -> (rs = [] <-> rs' = []) -> pending qs fd -> pending (<[i := rs']> qs) fd.
Proof.
  intros Hi Hsame (Hfd & rs1 & Hl & Hne). split; [done|].
  destruct (decide (i = Z.to_nat fd)) as [->|Hne'].
  - exists rs'. rewrite list_lookup_insert_eq by (by eapply lookup_lt_Some). split; [done|].
    assert (rs1 = rs) as -> by congruence. naive_solver.
  - exists rs1. by rewrite list_lookup_insert_ne.
Qed.

Lemma pending_insert_iff qs i rs rs' fd :
  qs !! i = Some rs -> (rs = [] <-> rs' = []) -> pending qs fd <-> pending (<[i := rs']> qs) fd.
Proof.
  intros Hi Hsame. split; [by eapply pending_insert|]. intros Hp.
  apply (pending_insert _ i rs' rs) in Hp; [|by apply list_lookup_insert_eq; eapply lookup_lt_Some|naive_solver].
  by rewrite list_insert_insert_eq, list_insert_id in Hp.
Qed.

Lemma pending_elsewhere qs i rs' fd :
  i <> Z.to_nat fd -> pending qs fd <-> pending (<[i := rs']> qs) fd.
Proof. intros Hne. unfold pending. by rewrite list_lookup_insert_ne. Qed.

Lemma pending_insert_other qs i rs' fd :
  pending qs fd -> i <> Z.to_nat fd -> pending (<[i := rs']> qs) fd.
Proof.
  intros (Hfd & rs1 & Hl & Hne) Hi. split; [done|]. exists rs1. by rewrite list_lookup_insert_ne.
Qed.

Lemma pending_insert_new qs fd rs rs' :
  0 <= fd -> qs !! Z.to_nat fd = Some rs -> rs' <> [] -> pending (<[Z.to_nat fd := rs']> qs) fd.
Proof.
  intros Hfd Hl Hne. split; [done|]. exists rs'. split; [|done].
  by rewrite list_lookup_insert_eq by (by eapply lookup_lt_Some).
Qed.

(** *** Registrations *)

Lemma accepted_app tr1 tr2 : all_accepted (tr1 ++ tr2) -> all_accepted tr1.
Proof. by intros [? _]%Forall_app. Qed.

Lemma accepted_quiet w w' : quiet w w' -> all_accepted (w_trace w') -> all_accepted (w_trace w).
Proof. intros [_ [->|(r & a & -> & _)]]; [done|apply accepted_app]. Qed.

(** A step on a descriptor's stream that leaves its pending status. *)
Lemma tokens_stream X o o' hands tr tr' fd qs qs' :
  tokens_ok X o hands tr qs -> on_stream fd tr' ->
  m_kernel o' = m_kernel o -> m_queue o' = m_queue o ->
  (forall fd', pending qs fd' <-> pending qs' fd') ->
  tokens_ok X o' hands (tr ++ tr') qs'.
Proof.
  intros [Hwf He Hn Hd Hp Hl] Hs Hk Hq Hpp.
  destruct (stream_kernel (m_kernel o) EVKERNEL_WRITE fd tr tr' Hs Hwf) as [Hwf' Harm].
  split; rewrite ?Hk, ?Hq, ?Harm; try done.
  - intros fd' Hx. by apply Hpp, Hp.
  - intros Hacc%accepted_app fd' Hx. by apply Hl, Hpp.
Qed.

(** Registering a descriptor that has no event. *)
Lemma tokens_arm X X' o o' hands w w' qs qs' fd r :
  tokens_ok X o hands (w_trace w) qs -> quiet w w' ->
  (all_accepted (w_trace w') -> is_err r = false) ->
  (forall k' m, kernel_wf k' m (w_trace w) -> (same_kernel (m_kernel o) k' = true -> m = EVKERNEL_WRITE) ->
    kernel_wf k' m (w_trace w') /\ armed k' (w_trace w') = arms (m_kernel o) k' fd r (armed k' (w_trace w))) ->
  m_kernel o' = m_kernel o -> m_queue o' = m_queue o ->
  (fd ∉ event_ident <$> (m_queue o ++ hands)) -> pending qs' fd ->
  (forall fd', fd' <> fd -> pending qs fd' <-> pending qs' fd') ->
  (forall fd', fd' ∈ X -> fd' <> fd -> fd' ∈ X') ->
  (fd ∈ armed (m_kernel o) (w_trace w) -> False) ->
  tokens_ok X' o' hands (w_trace w') qs'.
Proof.
  intros [Hwf He Hn Hd Hp Hl] Hquiet Hacc Hk' Hk Hq Hnot Hpf Hpp HX Hna.
  destruct (Hk' _ _ Hwf (fun _ => eq_refl)) as [Hwf' Harm].
  assert (armed (m_kernel o) (w_trace w') ⊆ {[fd]} ∪ armed (m_kernel o) (w_trace w)) as Hsub.
  { rewrite Harm. unfold arms. destruct (_ && _); set_solver. }
  assert (forall fd', (fd' ∈ event_ident <$> (m_queue o ++ hands)) \/
    fd' ∈ armed (m_kernel o) (w_trace w) -> fd' <> fd) as Hne.
  { by intros fd' [Hx|Hx] ->. }
  split; rewrite ?Hk, ?Hq; [done..| | |].
  - assert (fd ∉ (list_to_set (event_ident <$> (m_queue o ++ hands)) : gset Z))
      by (by rewrite elem_of_list_to_set). set_solver.
  - intros fd' Hx. destruct (decide (fd' = fd)) as [->|Hnf]; [done|]. apply Hpp; [done|]. apply Hp.
    destruct Hx as [Hx|Hx]; [by left|]. apply Hsub in Hx. right. set_solver.
  - intros Hac fd' Hx. destruct (decide (fd' = fd)) as [->|Hnf].
    + right; right. rewrite Harm. unfold arms, same_kernel.
      rewrite (Hacc Hac), bool_decide_true by done. set_solver.
    + apply Hpp in Hx; [|done].
      destruct (Hl (accepted_quiet _ _ Hquiet Hac) fd' Hx) as [?|[?|?]]; [left; by apply HX|by right; left|].
      right; right. rewrite Harm. unfold arms. destruct (_ && _); set_solver.
Qed.

(** A thread is done with the event in its hands. *)
Lemma tokens_drop o hands tr qs i e :
  tokens_ok [] o hands tr qs -> hands !! i = Some e ->
  tokens_ok [event_ident e] o (delete i hands) tr qs /\
  (event_ident e ∉ event_ident <$> (m_queue o ++ delete i hands)) /\
  (event_ident e ∉ armed (m_kernel o) tr) /\ pending qs (event_ident e) /\ event_ok EVKERNEL_WRITE e.
Proof.
  intros [Hwf He Hn Hd Hp Hl] Hi.
  assert (m_queue o ++ hands ≡ₚ e :: (m_queue o ++ delete i hands)) as Hperm.
  { rewrite (delete_Permutation hands i e Hi) at 1. by rewrite Permutation_middle. }
  rewrite Hperm, fmap_cons in Hn. pose proof (NoDup_cons_1_1 _ _ Hn) as Hnin. apply NoDup_cons_1_2 in Hn.
  rewrite Hperm in He. apply list.Forall_cons in He as [Hev He].
  assert (forall x, x ∈ (event_ident <$> m_queue o ++ delete i hands) ->
    x ∈ (event_ident <$> m_queue o ++ hands)) as Hsub.
  { intros x Hx. rewrite Hperm, fmap_cons. by apply elem_of_cons; right. }
  assert (event_ident e ∈ (event_ident <$> m_queue o ++ hands)) as Hin.
  { rewrite Hperm, fmap_cons. by apply elem_of_cons; left. }
  split_and!; [split; [done..| | |]|done| |apply Hp; by left|done].
  - intros x Hx%elem_of_list_to_set. apply Hd. by apply elem_of_list_to_set, Hsub.
  - intros fd [Hx|Hx]; apply Hp; [left; by apply Hsub|by right].
  - intros Hacc fd Hx. rewrite list_elem_of_singleton.
    destruct (Hl Hacc fd Hx) as [Hbad|[Hin'|?]]; [by apply not_elem_of_nil in Hbad| |by right; right].
    rewrite Hperm, fmap_cons in Hin'. apply elem_of_cons in Hin' as [?|?]; [by left|by right; left].
  - intros Hx. apply (Hd (event_ident e)); [by apply elem_of_list_to_set|done].
Qed.
End Invariant.

(** ** Operations *)

Section Operations.
Context {OS : Os} {Spec : OsSpec OS} {K : Kernel OS} {L : KernelLaws K}.

Abbreviation ost := (out * world)%type.

Definition in_range (o : out) (fd : Z) : Prop := 0 <= fd < zlen (m_fdctx o).

(** The total size of the context of [fd] (0 past the table). *)
Definition ctx_total (o : out) (fd : Z) : Z := default 0 (total <$> m_fdctx o !! Z.to_nat fd).

Definition upd_ctx (o : out) (fd : Z) (ctx : xfer) : out :=
  MkOut (m_kernel o) (<[Z.to_nat fd := ctx]> (m_fdctx o)) (m_queue o) (m_watching o).

Lemma ctx_at_run (st : ost) qs fd :
  Forall2 x_rep (m_fdctx (fst st)) qs -> in_range (fst st) fd ->
  exists ctx rs, ctx_at fd st = Ret ctx st /\ m_fdctx (fst st) !! Z.to_nat fd = Some ctx /\
    qs !! Z.to_nat fd = Some rs /\ x_rep ctx rs /\ xfer_empty ctx = bool_decide (rs = []) /\
    ctx_total (fst st) fd = total ctx.
Proof.
  intros Hrep [H0 Hlt].
  destruct (lookup_lt_is_Some_2 (m_fdctx (fst st)) (Z.to_nat fd)) as [ctx Hctx]; [lia|].
  destruct (Forall2_lookup_l _ _ _ _ _ Hrep Hctx) as (rs & Hrs & Hx).
  exists ctx, rs. split_and!; [|done..| |unfold ctx_total; by rewrite Hctx].
  - unfold ctx_at, get_out, mbind, M_bind, get, mret, M_ret. cbn.
    destruct (Z.ltb_spec fd 0); [lia|]. by rewrite Hctx.
  - destruct ctx as [a buf free]. destruct Hx as [Hb _ _ _ _]. simpl in Hb. rewrite Hb.
    apply xfer_empty_rep.
Qed.

Lemma wp_ctx_at (st : ost) qs fd (Q : xfer -> ost -> Prop) E :
  Forall2 x_rep (m_fdctx (fst st)) qs -> in_range (fst st) fd ->
  (forall ctx rs, m_fdctx (fst st) !! Z.to_nat fd = Some ctx -> qs !! Z.to_nat fd = Some rs ->
     x_rep ctx rs -> xfer_empty ctx = bool_decide (rs = []) -> ctx_total (fst st) fd = total ctx ->
     Q ctx st) ->
  wp (ctx_at fd) Q E st.
Proof.
  intros Hrep Hr HQ. destruct (ctx_at_run st qs fd Hrep Hr) as (ctx & rs & Hrun & ? & ? & ? & ? & ?).
  unfold wp. rewrite Hrun. by eapply HQ.
Qed.

Lemma wp_set_ctx fd ctx (st : ost) (Q : unit -> ost -> Prop) E :
  Q tt (upd_ctx (fst st) fd ctx, snd st) -> wp (set_ctx fd ctx) Q E st.
Proof. done. Qed.

Lemma wp_on_world {A} (m : M world A) (st : ost) (Q : A -> ost -> Prop) E :
  wp m (fun a w' => Q a (fst st, w')) (fun e w' => E e (fst st, w')) (snd st) ->
  wp (on_world m) Q E st.
Proof. intros H. apply wp_zoom. exact H. Qed.

Lemma wp_get_out (st : ost) (Q : out -> ost -> Prop) E : Q (fst st) st -> wp get_out Q E st.
Proof. done. Qed.

Lemma wp_put_out o (st : ost) (Q : unit -> ost -> Prop) E : Q tt (o, snd st) -> wp (put_out o) Q E st.
Proof. done. Qed.

Lemma wp_add_watching d (st : ost) (Q : Z -> ost -> Prop) E :
  - 2 ^ 31 <= m_watching (fst st) + d < 2 ^ 31 ->
  Q (m_watching (fst st) + d)
    (MkOut (m_kernel (fst st)) (m_fdctx (fst st)) (m_queue (fst st)) (m_watching (fst st) + d), snd st) ->
  wp (add_watching d) Q E st.
Proof.
  intros Hd HQ. unfold add_watching. wp_step. apply wp_get_out. cbv zeta.
  rewrite signed_small by (simpl; lia). wp_step. apply wp_put_out. by wp_step.
Qed.

(** *** Steps of the invariant *)

(** Something happened on the stream of [fd], whose queue is now [rs']; whether
    the queue is empty did not change. *)
Lemma inv_stream X o w w' hands acc qs fd ctx' rs rs' tr req :
  out_inv X (o, w) hands acc qs -> in_range o fd -> qs !! Z.to_nat fd = Some rs ->
  w_trace w' = w_trace w ++ tr -> on_stream fd tr -> x_rep ctx' rs' -> (rs = [] <-> rs' = []) ->
  (healthy fd tr -> data_of (delivered tr) ++ data_of (tokens rs') = data_of (tokens rs) ++ req) ->
  out_inv X (upd_ctx o fd ctx', w') hands (<[fd := acc fd ++ req]> acc) (<[Z.to_nat fd := rs']> qs).
Proof.
  intros [Hrep Hsm Hwat Hstr Htok] [H0 Hlt] Hq Htr Hon Hx Hsame Hd. simpl in *.
  split; simpl.
  - by apply Forall2_insert.
  - by rewrite length_insert.
  - rewrite (npending_insert _ _ _ _ Hq), Hwat.
    rewrite (bool_decide_ext (rs = []) (rs' = [])) by done. case_bool_decide; lia.
  - rewrite Htr. by eapply streams_extend.
  - rewrite Htr. eapply tokens_stream; [done|done|done|done|].
    intros fd'. by eapply pending_insert_iff.
Qed.

(** Nothing was queued and nothing is. *)
Lemma inv_passed X o w w' hands acc qs fd tr req :
  out_inv X (o, w) hands acc qs -> in_range o fd -> qs !! Z.to_nat fd = Some [] ->
  w_trace w' = w_trace w ++ tr -> on_stream fd tr ->
  (healthy fd tr -> data_of (delivered tr) = req) ->
  out_inv X (o, w') hands (<[fd := acc fd ++ req]> acc) qs.
Proof.
  intros Hinv Hr Hq Htr Hon Hd.
  destruct (ctx_at_run (o, w) qs fd (oi_rep _ _ _ _ _ Hinv) Hr) as (ctx & rs & _ & Hc & Hq' & Hx & _).
  simpl in Hc. assert (rs = []) as -> by congruence.
  pose proof (inv_stream X o w w' hands acc qs fd ctx [] [] tr req Hinv Hr Hq Htr Hon Hx) as Hs.
  rewrite (list_insert_id qs) in Hs by done. unfold upd_ctx in Hs. rewrite list_insert_id in Hs by done.
  destruct o. apply Hs; [done|]. simpl. intros Hh. rewrite app_nil_r. by apply Hd.
Qed.

(** The requests matter descriptor by descriptor. *)
Lemma inv_acc X st hands acc acc' qs :
  (forall fd, acc' fd = acc fd) -> out_inv X st hands acc qs -> out_inv X st hands acc' qs.
Proof.
  intros He [Hrep Hsm Hwat Hstr Htok]. split; [done..| |done].
  intros fd rs ???. rewrite He. by apply Hstr.
Qed.

(** A call of another kind. *)
Lemma inv_silent X o w w' hands acc qs :
  silent w w' -> out_inv X (o, w) hands acc qs -> out_inv X (o, w') hands acc qs.
Proof. intros Hs [Hrep Hsm Hwat Hstr Htok]. split; simpl in *; try done; by rewrite Hs. Qed.

Lemma pending_not_null (qs : list (list record)) fd :
  qs !! Z.to_nat fd = Some [] -> pending qs fd -> False.
Proof. intros Hq (_ & rs & Hl & Hne). congruence. Qed.

(** Queueing on an idle descriptor, and watching it. *)
Lemma wp_watch_fresh X o w w' hands acc qs fd ctx' rs' tr req (Q : unit -> ost -> Prop) E :
  out_inv X (o, w) hands acc qs -> in_range o fd -> qs !! Z.to_nat fd = Some [] ->
  w_trace w' = w_trace w ++ tr -> on_stream fd tr -> x_rep ctx' rs' -> rs' <> [] ->
  (healthy fd tr -> data_of (delivered tr) ++ data_of (tokens rs') = req) ->
  (forall o' w', out_inv X (o', w') hands (<[fd := acc fd ++ req]> acc) (<[Z.to_nat fd := rs']> qs) ->
     m_kernel o' = m_kernel o -> Q tt (o', w')) ->
  wp (watch fd) Q E (upd_ctx o fd ctx', w').
Proof.
  intros [Hrep Hsm Hwat Hstr Htok] [H0 Hlt] Hq Htr Hon Hx Hne Hd HQ. simpl in *.
  pose proof (npending_insert qs _ [] rs' Hq) as Hnp. rewrite (bool_decide_false (rs' = [])) in Hnp by done.
  simpl in Hnp. pose proof (npending_range (<[Z.to_nat fd := rs']> qs)) as Hrange.
  rewrite length_insert in Hrange.
  unfold watch. wp_step. apply wp_get_out. wp_step. apply wp_on_world.
  destruct (stream_kernel (m_kernel o) EVKERNEL_WRITE fd (w_trace w) tr Hon (tk_wf _ _ _ _ _ Htok)) as [Hwf Harm].
  rewrite <-Htr in Hwf, Harm.
  pose proof (add_fd_arms (m_kernel o) fd EVKERNEL_WRITE w' (or_intror eq_refl)) as Hadd.
  eapply wp_mono; [..|exact Hadd]; [|done].
  intros r w1 (Hquiet & Hacc & Harms). wp_step. apply wp_add_watching; simpl; [lia|]. wp_step.
  apply HQ; [|done]. split; simpl.
  - by apply Forall2_insert.
  - by rewrite length_insert.
  - lia.
  - eapply streams_quiet; [done|]. rewrite Htr. eapply streams_extend; [done..|].
    simpl. intros Hh. by apply Hd.
  - eapply (tokens_arm X X o _ hands w' w1 qs _ fd r); [|done|done| |done|done| | | |done|].
    + rewrite Htr. eapply tokens_stream; [done..|]. auto.
    + intros k' m Hwf' Hs. apply Harms; [done|]. intros Hsame. by rewrite (Hs Hsame).
    + intros Hin. eapply pending_not_null; [done|]. apply (tk_pending _ _ _ _ _ Htok). by left.
    + by eapply pending_insert_new.
    + intros fd' Hnf. destruct (Z_le_dec 0 fd').
      * apply pending_elsewhere. intros Heq. apply Hnf. lia.
      * by split; intros [? _].
    + intros Hin. eapply pending_not_null; [done|]. apply (tk_pending _ _ _ _ _ Htok). right.
      by rewrite <-Harm.
Qed.

(** *** The writing functions *)

Definition good (st : ost) (hands : list kevent) (acc : Z -> list token) : Prop :=
  exists qs, out_inv [] st hands acc qs.

(** The kernel and the size of the table never change. *)
Definition same_out (o o' : out) : Prop :=
  m_kernel o' = m_kernel o /\ length (m_fdctx o') = length (m_fdctx o).

(** A request on [fd] was taken entirely ... *)
Definition took (st st' : ost) (hands : list kevent) (acc : Z -> list token) (fd : Z)
    (req : list token) : Prop :=
  good st' hands (<[fd := acc fd ++ req]> acc) /\ same_out (fst st) (fst st').

(** ... or it was cut short by [bad_alloc], after [toks] were sent. *)
Definition cut_short (e : exn) (st st' : ost) (hands : list kevent) (acc : Z -> list token) (fd : Z) : Prop :=
  e = BadAlloc /\ exists toks, sent fd (w_trace (snd st')) = sent fd (w_trace (snd st)) ++ toks /\
    good st' hands (<[fd := acc fd ++ toks]> acc) /\ same_out (fst st) (fst st').

Lemma same_out_refl o : same_out o o.
Proof. done. Qed.

Lemma inv_same st st' hands acc qs qs' acc' :
  out_inv [] st hands acc qs -> out_inv [] st' hands acc' qs' -> length qs' = length qs ->
  m_kernel (fst st') = m_kernel (fst st) -> same_out (fst st) (fst st').
Proof.
  intros H H' Hl Hk. split; [done|].
  by rewrite (Forall2_length (oi_rep _ _ _ _ _ H)), (Forall2_length (oi_rep _ _ _ _ _ H')).
Qed.

Lemma unhealthy_shutdown fd tr r a a' :
  stream_of r = Some fd -> match a with SysOk n _ => n <= 0 | SysErr e => would_retry e = false end ->
  healthy fd (tr ++ [Sys r a; Sys (ShutdownRd fd) a']) -> False.
Proof.
  intros Hr Ha. rewrite cons_middle, app_assoc. intros [Hh _]%healthy_app.
  eapply (failed_unhealthy fd [Sys r a]); [by repeat constructor| |by apply healthy_app in Hh as [_ ?]].
  by exists [], r, a.
Qed.

(** What a successful step of the invariant gives. *)
Lemma took_intro o o' w w' hands acc fd req qs qs' :
  out_inv [] (o, w) hands acc qs -> out_inv [] (o', w') hands (<[fd := acc fd ++ req]> acc) qs' ->
  length qs' = length qs -> m_kernel o' = m_kernel o -> took (o, w) (o', w') hands acc fd req.
Proof. intros H H' Hl Hk. split; [by exists qs'|]. by eapply (inv_same (o, w) (o', w')). Qed.

(** Nothing was queued, [tr] happened on the stream, and then the push failed. *)
Lemma cut_intro o w w' hands acc qs fd tr :
  out_inv [] (o, w) hands acc qs -> in_range o fd -> qs !! Z.to_nat fd = Some [] ->
  w_trace w' = w_trace w ++ tr -> on_stream fd tr ->
  cut_short BadAlloc (o, w) (o, w') hands acc fd.
Proof.
  intros Hinv Hr Hq Htr Hon. split; [done|]. exists (data_of (delivered tr)). simpl.
  rewrite Htr, sent_app, (sent_stream fd tr) by done. split; [done|]. split; [|by apply same_out_refl].
  exists qs. by eapply inv_passed.
Qed.

Lemma cut_nothing o w w' hands acc qs fd :
  out_inv [] (o, w) hands acc qs -> silent w w' -> cut_short BadAlloc (o, w) (o, w') hands acc fd.
Proof.
  intros Hinv Hs. split; [done|]. exists []. simpl. rewrite Hs. split; [by rewrite app_nil_r|].
  split; [|by apply same_out_refl]. exists qs. eapply inv_silent; [done|].
  eapply inv_acc; [|done]. intros fd'. destruct (decide (fd' = fd)) as [->|].
  - by rewrite fn_lookup_insert, app_nil_r.
  - by rewrite fn_lookup_insert_ne.
Qed.

(** Pushing behind what is queued already. *)
Lemma queued_more o w w' hands acc qs fd ctx' rs rs' :
  out_inv [] (o, w) hands acc qs -> in_range o fd -> qs !! Z.to_nat fd = Some rs -> rs <> [] ->
  silent w w' -> x_rep ctx' (rs ++ rs') ->
  took (o, w) (upd_ctx o fd ctx', w') hands acc fd (data_of (tokens rs')).
Proof.
  intros Hinv Hr Hq Hne Hs Hx.
  eapply took_intro; [done| |by rewrite length_insert|done].
  eapply (inv_stream _ _ _ _ _ _ _ _ _ rs (rs ++ rs') []); [done..|by rewrite app_nil_r|constructor|done| |].
  - split; [done|]. by intros [? _]%app_eq_nil.
  - intros _. simpl. by rewrite tokens_app, data_of_app.
Qed.

(** What an idle descriptor did not take is queued, and watched. *)
Lemma wp_enqueue o w w1 hands acc qs fd m rs' tr req :
  out_inv [] (o, w) hands acc qs -> in_range o fd -> qs !! Z.to_nat fd = Some [] ->
  w_trace w1 = w_trace w ++ tr -> on_stream fd tr ->
  wp m (fun ctx' w' => silent w1 w' /\ x_rep ctx' rs') (fun e w' => e = BadAlloc /\ silent w1 w') w1 ->
  rs' <> [] -> (healthy fd tr -> data_of (delivered tr) ++ data_of (tokens rs') = req) ->
  wp (ctx ← on_world m; _ ← set_ctx fd ctx; watch fd)
     (fun _ st' => took (o, w) st' hands acc fd req)
     (fun e st' => cut_short e (o, w) st' hands acc fd) (o, w1).
Proof.
  intros Hinv Hr Hq Htr Hon Hm Hne Hd. wp_step. apply wp_on_world. cbn [fst snd].
  eapply wp_mono; [..|exact Hm]; cbn [fst snd].
  - intros ctx' w2 [Hs Hx]. wp_step. apply wp_set_ctx. cbn [fst snd].
    eapply (wp_watch_fresh _ _ w w2); [done|done|done|by rewrite Hs|done|exact Hx|done|exact Hd|].
    intros o' w' Hinv' Hk. eapply took_intro; [done|done|by rewrite length_insert|done].
  - intros e w2 [-> Hs]. eapply cut_intro; [done..|by rewrite Hs|done].
Qed.

(** [enqueue] of [write], after some of the request was sent. *)
Lemma write_enqueue o w w1 hands acc qs fd ctx b s tr req :
  out_inv [] (o, w) hands acc qs -> in_range o fd -> m_fdctx o !! Z.to_nat fd = Some ctx ->
  qs !! Z.to_nat fd = Some [] -> x_rep ctx [] -> push_ok ctx (PushWrite b s) ->
  w_trace w1 = w_trace w ++ tr -> on_stream fd tr ->
  (healthy fd tr -> data_of (delivered tr) ++ (TMem <$> seqZ b s) = req) ->
  wp (ctx ← on_world (push_write ctx b s); _ ← set_ctx fd ctx; watch fd)
     (fun _ st' => took (o, w) st' hands acc fd req) (fun e st' => cut_short e (o, w) st' hands acc fd) (o, w1).
Proof.
  intros Hinv Hr Hc Hq Hx Hp Htr Hon Hd.
  apply (wp_enqueue _ w w1 hands acc qs fd (push_write ctx b s) [XIov [(b, s)]] tr); [done..| | |].
  - by apply (wp_run_push (PushWrite b s) ctx []).
  - done.
  - intros Hh. rewrite <-(Hd Hh). f_equal. cbn [tokens flat_map record_tokens iov_tokens fst snd].
    rewrite !app_nil_r. apply data_of_data. by apply Forall_fmap, Forall_true.
Qed.

(** [hang_up] of [write]. *)
Lemma write_hangs_up o w hands acc qs fd buf size a a' req :
  out_inv [] (o, w) hands acc qs -> in_range o fd -> qs !! Z.to_nat fd = Some [] ->
  match a with SysOk n _ => n <= 0 | SysErr e => would_retry e = false end ->
  took (o, w) (o, World ((w_trace w ++ [Sys (Write fd buf size) a]) ++ [Sys (ShutdownRd fd) a']) (w_alloc w)) hands acc fd req.
Proof.
  intros Hinv Hr Hq Hbad. eapply took_intro; [done| |done|done].
  eapply inv_passed; [done..|cbn [w_trace]; by rewrite <-app_assoc|by repeat constructor|].
  intros Hh. exfalso. exact (unhealthy_shutdown fd [] (Write fd buf size) a a' eq_refl Hbad Hh).
Qed.

(** What is left of a request after a part was sent. *)
Lemma push_ok_rest ctx buf size wl :
  push_ok ctx (PushWrite buf size) -> 0 <= wl < size -> push_ok ctx (PushWrite (buf + wl) (size - wl)).
Proof.
  intros ((_ & Hv%Forall_inv & _) & Hsz & Ht) Hwl. destruct Hv as (? & ? & ?). simpl in *.
  split_and!; [|done|done]. split_and!; [done| |by right]. constructor; [|constructor]. unfold range_ok. simpl. lia.
Qed.

Lemma write_ok o w hands acc fd buf size :
  good (o, w) hands acc -> in_range o fd -> push_ok (default xfer_new (m_fdctx o !! Z.to_nat fd))
    (PushWrite buf size) ->
  wp (write fd buf size)
     (fun _ st' => took (o, w) st' hands acc fd (TMem <$> seqZ buf size))
     (fun e st' => cut_short e (o, w) st' hands acc fd) (o, w).
Proof.
  intros [qs Hinv] Hr Hpush. pose proof (oi_rep _ _ _ _ _ Hinv) as Hrep. simpl in Hrep.
  unfold write. wp_step. eapply wp_ctx_at; [done..|]. simpl. intros ctx rs Hc Hq Hx Hemp _.
  rewrite Hc in Hpush. simpl in Hpush. rewrite Hemp. case_bool_decide as Hnil.
  - subst rs. wp_step. apply wp_on_world. apply wp_syscall. intros a Ha. cbn [fst snd].
    destruct a as [wl out|e].
    + symmetry in Ha. apply write_bound in Ha. destruct (Z.leb_spec wl 0).
      { wp_step. apply wp_on_world, wp_syscall. intros a' _. wp_step. by apply (write_hangs_up o w hands acc qs fd buf size (SysOk wl out)). }
      destruct (Z.leb_spec size wl).
      * wp_step. assert (wl = size) as -> by lia. eapply took_intro; [done| |done|done].
        eapply inv_passed; [done..|cbn [w_trace]; done|by repeat constructor|]. intros _.
        cbn [delivered flat_map event_tokens]. rewrite app_nil_r.
        apply data_of_data. by apply Forall_fmap, Forall_true.
      * eapply (write_enqueue o w _ hands acc qs fd ctx _ _ [Sys (Write fd buf size) (SysOk wl out)]);
          [done..|apply push_ok_rest; [done|lia]|done|by repeat constructor|]. intros _.
        cbn [delivered flat_map event_tokens]. rewrite app_nil_r.
        rewrite data_of_data by (by apply Forall_fmap, Forall_true).
        by rewrite (seqZ_split buf size wl), fmap_app by lia.
    + destruct (would_retry e) eqn:He; cbn [negb].
      * by eapply (write_enqueue o w _ hands acc qs fd ctx _ _ [Sys (Write fd buf size) (SysErr e)]); [done..|repeat constructor|].
      * wp_step. apply wp_on_world, wp_syscall. intros a' _. wp_step. by apply (write_hangs_up o w hands acc qs fd buf size (SysErr e)).
  - wp_step. apply wp_on_world. cbn [fst snd].
    apply (wp_run_push (PushWrite buf size) ctx rs); [done|done| |].
    + intros ctx' w2 Hs Hx'. cbn [fst snd]. apply wp_set_ctx. cbn [fst snd].
      pose proof (queued_more _ _ _ _ _ _ _ _ _ _ Hinv Hr Hq Hnil Hs Hx') as Htook.
      cbn [tokens flat_map pushed record_tokens iov_tokens fst snd] in Htook.
      rewrite !app_nil_r, data_of_data in Htook by (by apply Forall_fmap, Forall_true). done.
    + intros w2 Hs. by eapply cut_nothing.
Qed.

Lemma on_stream_nil fd : on_stream fd [].
Proof. constructor. Qed.

Lemma commit_raw_ok o w hands acc fd rs :
  good (o, w) hands acc -> in_range o fd -> Forall record_ok rs ->
  zlen (encode_all rs) <= 2 ^ 61 -> ctx_total o fd <= 2 ^ 61 ->
  wp (commit_raw fd (encode_all rs))
     (fun _ st' => took (o, w) st' hands acc fd (data_of (tokens rs)))
     (fun e st' => cut_short e (o, w) st' hands acc fd) (o, w).
Proof.
  intros [qs Hinv] Hr Hok Hsz Htot. pose proof (oi_rep _ _ _ _ _ Hinv) as Hrep. simpl in Hrep.
  unfold commit_raw. wp_step. eapply wp_ctx_at; [done..|]. simpl.
  intros ctx rs0 Hc Hq Hx Hemp Hct. rewrite Hct in Htot. rewrite Hemp.
  case_bool_decide as Hnil; cbn [negb].
  - subst rs0. wp_step. apply wp_on_world. cbn [fst snd].
    destruct (execute_walks fd rs w Hok) as (b & rs' & w1 & Hrun & tr & Htr & _ & Hon & Htok & Hok' & Hlen & Hb).
    unfold wp at 1. rewrite Hrun.
    destruct b.
    + destruct Hb as [Hne _].
      apply (wp_enqueue _ w w1 hands acc qs fd (push_xfraw ctx (encode_all rs')) rs' tr); [done..| |done|].
      * apply (wp_push_records ctx []); [done|done|lia|done..].
      * intros _. by rewrite <-data_of_app, Htok.
    + wp_step. eapply took_intro; [done| |done|done]. eapply inv_passed; [done..|].
      intros Hh. destruct Hb as [->|Hb]; [|by destruct (failed_unhealthy fd tr)].
      by rewrite <-Htok, app_nil_r.
  - wp_step. apply wp_on_world. cbn [fst snd].
    apply (wp_push_records ctx rs0); [done..| |].
    + intros ctx' w2 Hs Hx'. cbn [fst snd]. apply wp_set_ctx. cbn [fst snd]. by eapply queued_more.
    + intros w2 Hs. by eapply cut_nothing.
Qed.

(** The end of [try_write] without anything to resume: the stream has taken
    everything, or it failed and was shut down. *)
Lemma hangup_stream fd rs rs' w w1 w' tr :
  hangup fd false rs' w1 w' -> w_trace w1 = w_trace w ++ tr -> on_stream fd tr ->
  delivered tr ++ tokens rs' = tokens rs -> rs' = [] \/ failed tr ->
  exists tr', w_trace w' = w_trace w ++ tr' /\ on_stream fd tr' /\
    (healthy fd tr' -> data_of (delivered tr') = data_of (tokens rs)).
Proof.
  intros Hh Htr Hon Htok Hb. unfold hangup in Hh. cbn [negb andb] in Hh.
  destruct (decide (rs' = [])) as [->|Hne].
  - rewrite bool_decide_true in Hh by done. simpl in Hh. subst w'. exists tr.
    split_and!; [done..|]. intros _. by rewrite <-Htok, app_nil_r.
  - rewrite bool_decide_false in Hh by done. destruct Hh as [a ->]. simpl.
    exists (tr ++ [Sys (ShutdownRd fd) a]). rewrite Htr, app_assoc. split_and!; [done| |].
    + apply on_stream_app. split; [done|]. by repeat constructor.
    + intros [Hh _]%healthy_app. destruct Hb as [?|Hb]; [done|].
      by destruct (failed_unhealthy fd tr).
Qed.

(** [commit]: the records of the caller's [xf]; it is left empty when all was
    queued, and with what could not be sent when the stream failed. *)
Lemma commit_ok o w hands acc fd xf rs :
  good (o, w) hands acc -> in_range o fd -> x_rep xf rs ->
  total xf <= 2 ^ 61 -> ctx_total o fd <= 2 ^ 61 ->
  wp (commit fd)
     (fun _ t => took (o, w) (fst t) hands acc fd (data_of (tokens rs)) /\ exists rs', x_rep (snd t) rs')
     (fun e t => cut_short e (o, w) (fst t) hands acc fd /\ exists rs', x_rep (snd t) rs') ((o, w), xf).
Proof.
  intros [qs Hinv] Hr Hxf Hsz Htot. pose proof (oi_rep _ _ _ _ _ Hinv) as Hrep. simpl in Hrep.
  unfold commit. wp_step. apply wp_zoom. simpl. eapply wp_ctx_at; [done..|]. simpl.
  intros ctx rs0 Hc Hq Hx Hemp Hct. rewrite Hct in Htot. wp_step. unfold get_xf. wp_step. wp_step. wp_step.
  simpl. rewrite Hemp. case_bool_decide as Hnil; cbn [negb].
  - subst rs0. wp_step. apply wp_zoom. simpl. apply wp_on_world. cbn [fst snd].
    destruct (try_write_run xf rs fd w Hxf)
      as (b & xf1 & rs' & w1 & w' & Hrun & Hx1 & Ht1 & _ & (tr & Htr & _ & Hon & Htok & _ & _ & Hb) & Hh).
    unfold wp at 1. rewrite Hrun. cbn [fst snd]. wp_step. unfold put_xf. wp_step. cbn [fst snd].
    destruct b.
    + destruct Hb as [Hne _]. unfold hangup in Hh. cbn [negb andb] in Hh. subst w'.
      wp_step. apply wp_zoom. simpl. apply wp_on_world. cbn [fst snd].
      eapply wp_mono; [..|apply (migrate_rep xf1 ctx rs' []); [done..|lia]].
      * intros [xf2 ctx'] w2 (Hs & Hx2 & Hx'). cbn [fst snd app] in *. wp_step. apply wp_zoom. simpl.
        apply wp_set_ctx. simpl. wp_step. wp_step. apply wp_zoom. simpl.
        eapply (wp_watch_fresh _ _ w w2); [done|done|done|by rewrite Hs|done|exact Hx'|done| |].
        -- intros _. by rewrite <-data_of_app, Htok.
        -- intros o' w3 Hinv' Hk. split; [|by exists []].
           eapply took_intro; [done|done|by rewrite length_insert|done].
      * intros e w2 [-> Hs]. cbn [fst snd]. split; [|by exists rs'].
        eapply cut_intro; [done..|by rewrite Hs|done].
    + wp_step. split; [|by exists rs']. eapply took_intro; [done| |done|done].
      destruct (hangup_stream fd rs rs' w w1 w' tr) as (tr' & Htr' & Hon' & Hd'); [done..|].
      by eapply inv_passed.
  - wp_step. apply wp_zoom. simpl. apply wp_on_world. cbn [fst snd].
    eapply wp_mono; [..|apply (migrate_rep xf ctx rs rs0); done].
    + intros [xf2 ctx'] w2 (Hs & Hx2 & Hx'). cbn [fst snd] in *. wp_step. apply wp_zoom. simpl.
      apply wp_set_ctx. simpl. unfold put_xf. wp_step. simpl. split; [|by exists []].
      by eapply queued_more.
    + intros e w2 [-> Hs]. cbn [fst snd]. split; [|by exists rs]. by eapply cut_nothing.
Qed.

(** *** The event side *)

Lemma tokens_quiet X o o' hands hands' w w' qs :
  tokens_ok X o hands (w_trace w) qs -> m_kernel o' = m_kernel o ->
  m_queue o ++ hands ≡ₚ m_queue o' ++ hands' ->
  w_trace w' = w_trace w -> tokens_ok X o' hands' (w_trace w') qs.
Proof.
  intros [Hwf He Hn Hd Hp Hl] Hk Hperm ->. split; rewrite ?Hk.
  - done.
  - by rewrite <-Hperm.
  - by rewrite <-Hperm.
  - intros x Hx%elem_of_list_to_set. apply Hd, elem_of_list_to_set. by rewrite Hperm.
  - intros fd Hx. apply Hp. by rewrite Hperm.
  - intros Hacc fd Hx. rewrite <-Hperm. by apply Hl.
Qed.

Lemma next_ok o w hands acc :
  good (o, w) hands acc -> m_queue o <> [] ->
  wp next (fun e st' => good st' (hands ++ [e]) acc /\ same_out o (fst st') /\ snd st' = w) no_exn (o, w).
Proof.
  intros [qs [Hrep Hsm Hwat Hstr Htok]] Hne. unfold next. wp_step. apply wp_get_out. simpl in *.
  destruct o as [k ctxs [|e q] n]; [done|]. simpl in *. wp_step. apply wp_put_out. simpl. wp_step. simpl.
  split; [|done]. exists qs. split; try done. simpl.
  eapply tokens_quiet; [done|done| |done]. simpl. by rewrite Permutation_cons_append, <-app_assoc.
Qed.

Lemma poll_event_ok o w hands acc :
  good (o, w) hands acc ->
  wp poll_event (fun _ st' => good st' hands acc /\ same_out o (fst st'))
     (fun e st' => good st' hands acc /\ exists code, e = SystemError code) (o, w).
Proof.
  intros [qs [Hrep Hsm Hwat Hstr [Hwf He Hn Hd Hp Hl]]]. simpl in *.
  unfold poll_event. wp_step. apply wp_get_out. wp_step. apply wp_on_world. cbn [fst snd].
  eapply wp_mono; [..|exact (wait_disarms (m_kernel o) EVKERNEL_WRITE 0 w Hwf)]; [|done].
  intros r w1 (Hquiet & Hes & Hnd & Hsub & _ & Hk). destruct (Hk _ _ Hwf) as [Hwf1 Harm].
  unfold same_kernel in Harm. rewrite bool_decide_true in Harm by done.
  pose proof (streams_quiet _ _ _ _ Hquiet Hstr) as Hstr1. simpl.
  assert (out_inv [] (MkOut (m_kernel o) (m_fdctx o)
    (m_queue o ++ match r with inl _ => [] | inr es => es end) (m_watching o), w1) hands acc qs) as Hinv.
  { split; try done. simpl. set (es := match r with inl _ => [] | inr es => es end) in *.
    assert ((m_queue o ++ es) ++ hands ≡ₚ es ++ m_queue o ++ hands) as Hperm.
    { by rewrite (Permutation_app_comm (m_queue o)), <-app_assoc. }
    assert (forall x, x ∈ event_ident <$> es -> x ∈ armed (m_kernel o) (w_trace w)) as Hin.
    { intros x Hx. apply Hsub. by apply elem_of_list_to_set. }
    split; simpl; rewrite ?Harm.
    - done.
    - rewrite Hperm. by apply Forall_app.
    - rewrite Hperm, fmap_app. apply list.NoDup_app. split_and!; [done| |done].
      intros x Hx Hx'. apply (Hd x); [by apply elem_of_list_to_set|by apply Hin].
    - intros x. rewrite elem_of_list_to_set, Hperm, fmap_app, elem_of_app, elem_of_difference.
      intros [Hx|Hx] [Hx' Hn']; [by apply Hn', elem_of_list_to_set|].
      apply (Hd x); [by apply elem_of_list_to_set|done].
    - intros fd. rewrite Hperm, fmap_app, elem_of_app, elem_of_difference.
      intros [[Hx|Hx]|[Hx _]]; apply Hp; [right; by apply Hin|by left|by right].
    - intros Hacc fd Hx. rewrite Hperm, fmap_app, elem_of_app, elem_of_difference, elem_of_list_to_set.
      destruct (Hl (accepted_quiet _ _ Hquiet Hacc) fd Hx) as [?|[?|?]]; [by left|by right; left; right|].
      destruct (decide (fd ∈ event_ident <$> es)); [by right; left; left|by right; right]. }
  destruct r as [e|es].
  - rewrite app_nil_r in Hinv. assert (good (o, w1) hands acc) as Hg by (destruct o; by exists qs).
    destruct (would_retry e); wp_step; [done|]. by split; [|eexists].
  - apply wp_put_out. split; [by exists qs|done].
Qed.

(** The transfers of [fd] end ([tr1]), its registration is removed, its queue is
    cleared ([tr2]). *)
Lemma inv_unwatch o w w1 w2 w3 hands acc qs fd ctx' rs tr1 tr2 :
  out_inv [fd] (o, w) hands acc qs -> in_range o fd -> qs !! Z.to_nat fd = Some rs -> rs <> [] ->
  fd ∉ (event_ident <$> m_queue o ++ hands) -> fd ∉ armed (m_kernel o) (w_trace w) ->
  w_trace w1 = w_trace w ++ tr1 -> on_stream fd tr1 ->
  (healthy fd tr1 -> data_of (delivered tr1) = data_of (tokens rs)) ->
  quiet w1 w2 ->
  (forall k' m, kernel_wf k' m (w_trace w1) -> kernel_wf k' m (w_trace w2) /\
     armed k' (w_trace w2) ⊆ armed k' (w_trace w1) /\
     armed k' (w_trace w1) ⊆ {[fd]} ∪ armed k' (w_trace w2) /\
     (same_kernel (m_kernel o) k' = false -> armed k' (w_trace w2) = armed k' (w_trace w1))) ->
  w_trace w3 = w_trace w2 ++ tr2 -> on_stream fd tr2 -> data_of (delivered tr2) = [] ->
  x_rep ctx' [] ->
  out_inv [] (MkOut (m_kernel o) (<[Z.to_nat fd := ctx']> (m_fdctx o)) (m_queue o) (m_watching o - 1), w3)
    hands acc (<[Z.to_nat fd := []]> qs).
Proof.
  intros [Hrep Hsm Hwat Hstr Htok] [H0 Hlt] Hq Hne Hnin Hna Htr1 Hon1 Hd1 Hquiet Hk Htr2 Hon2 Hd2 Hx.
  simpl in *. pose proof (npending_insert qs _ rs [] Hq) as Hnp.
  rewrite (bool_decide_false (rs = [])) in Hnp by done. simpl in Hnp.
  destruct (stream_kernel _ _ fd _ tr1 Hon1 (tk_wf _ _ _ _ _ Htok)) as [Hwf1 Harm1].
  rewrite <-Htr1 in Hwf1, Harm1. destruct (Hk _ _ Hwf1) as (Hwf2 & Hsub & Hsup & _).
  rewrite Harm1 in Hsub, Hsup.
  destruct (stream_kernel _ _ fd _ tr2 Hon2 Hwf2) as [Hwf3 Harm3]. rewrite <-Htr2 in Hwf3, Harm3.
  split; simpl; [by apply Forall2_insert|by rewrite length_insert|lia| |].
  - intros fd' rs' Hfd' Hq' Hh. rewrite Htr2 in Hh |- *. apply healthy_app in Hh as [Hh _].
    destruct (sent_quiet fd' w1 w2 Hquiet) as [Hs2 Hh2]. apply Hh2 in Hh. rewrite Htr1 in Hh, Hs2.
    apply healthy_app in Hh as [Hh Hh1]. rewrite sent_app, Hs2, sent_app.
    destruct (decide (fd' = fd)) as [->|Hnf].
    + rewrite list_lookup_insert_eq in Hq' by (by eapply lookup_lt_Some). injection Hq' as <-.
      rewrite (sent_stream fd tr1), (sent_stream fd tr2), Hd2, (Hd1 Hh1), app_nil_r by done.
      cbn [tokens flat_map]. change (data_of []) with (@nil token). rewrite app_nil_r.
      by apply Hstr.
    + rewrite list_lookup_insert_ne in Hq' by (intros ?; apply Hnf; lia).
      destruct (sent_other fd fd' tr1 Hon1 Hnf) as [-> _].
      destruct (sent_other fd fd' tr2 Hon2 Hnf) as [-> _]. rewrite !app_nil_r. by apply Hstr.
  - destruct Htok as [Hwf He Hn Hd Hp Hl]. split; simpl; rewrite ?Harm3; [done..|set_solver| |].
    + intros fd' Hx'. assert (pending qs fd') as Hpend.
      { apply Hp. destruct Hx' as [?|?]; [by left|right; by apply Hsub]. }
      apply pending_insert_other; [done|]. intros Heq.
      assert (fd' = fd) as -> by (destruct Hpend; lia).
      destruct Hx' as [?|Hx']; [done|]. by apply Hna, Hsub.
    + intros Hacc fd' Hx'. assert (fd' <> fd) as Hnf.
      { intros ->. eapply pending_not_null; [|exact Hx'].
        apply list_lookup_insert_eq. by eapply lookup_lt_Some. }
      assert (all_accepted (w_trace w)) as Hacc0.
      { rewrite Htr2 in Hacc. apply accepted_app, (accepted_quiet _ _ Hquiet) in Hacc.
        rewrite Htr1 in Hacc. by apply accepted_app in Hacc. }
      assert (pending qs fd') as Hx'' by
        (destruct Hx' as [H0' Hx']; apply (pending_elsewhere _ (Z.to_nat fd) []); [lia|by split]).
      destruct (Hl Hacc0 fd' Hx'') as [?%list_elem_of_singleton|[?|Ha]]; [done|by right; left|].
      right; right. apply Hsup in Ha. set_solver.
Qed.

Lemma Z_eqb_decide x y : (x =? y) = bool_decide (x = y).
Proof. by destruct (Z.eqb_spec x y); case_bool_decide. Qed.

Lemma data_fins ts : data_of (fins ts) = [].
Proof.
  unfold data_of, fins. rewrite list_filter_filter. induction ts as [|t ts IH]; [done|].
  rewrite list.filter_cons_False; [done|]. unfold is_data. by destruct (is_fin t); intros [].
Qed.

Lemma on_stream_fins fd ts : on_stream fd (flat_map fin_event ts).
Proof. induction ts as [|[?|?|?] ts IH]; simpl; [by constructor|done|done|by constructor]. Qed.

(** What resuming the transfers of the event [e] comes to. *)
Definition resumed (o : out) (hands : list kevent) (acc : Z -> list token) (b : bool) (st' : ost) : Prop :=
  good st' hands acc /\ same_out o (fst st') /\ b = bool_decide (m_watching (fst st') = 0).

Section Resume.
Variables (o : out) (w : world) (hands : list kevent) (acc : Z -> list token) (qs : list (list record)) (e : kevent)
  (rs : list record).
Let fd := event_ident e.
Hypothesis Hinv : out_inv [fd] (o, w) hands acc qs.
Hypothesis Hr : in_range o fd.
Hypothesis Hq : qs !! Z.to_nat fd = Some rs.
Hypothesis Hne : rs <> [].
Hypothesis Hnin : fd ∉ (event_ident <$> m_queue o ++ hands).
Hypothesis Hna : fd ∉ armed (m_kernel o) (w_trace w).

Lemma inv_stream_more w1 xf1 rs' tr :
  x_rep xf1 rs' -> rs' <> [] -> w_trace w1 = w_trace w ++ tr -> on_stream fd tr -> delivered tr ++ tokens rs' = tokens rs ->
  out_inv [fd] (upd_ctx o fd xf1, w1) hands acc (<[Z.to_nat fd := rs']> qs).
Proof.
  intros Hx1 Hne' Htr Hon Htok1.
  apply (inv_acc _ _ _ (<[fd := acc fd ++ []]> acc)).
  - intros fd'. destruct (decide (fd' = fd)) as [->|]; [by rewrite fn_lookup_insert, app_nil_r|by rewrite fn_lookup_insert_ne].
  - eapply inv_stream; [done..|naive_solver|]. intros _. by rewrite <-data_of_app, Htok1, app_nil_r.
Qed.

(** Something is left: the descriptor is armed again. *)
Lemma event_rearmed w1 xf1 rs' tr :
  event_ok EVKERNEL_WRITE e -> x_rep xf1 rs' -> rs' <> [] ->
  w_trace w1 = w_trace w ++ tr -> on_stream fd tr -> delivered tr ++ tokens rs' = tokens rs ->
  wp (_ ← on_world (reactivate (m_kernel o) e); mret false) (resumed o hands acc) no_exn (upd_ctx o fd xf1, w1).
Proof.
  intros Heok Hx1 Hne' Htr Hon Htok1. pose proof (inv_stream_more w1 xf1 rs' tr Hx1 Hne' Htr Hon Htok1) as [A1 A2 A3 A4 A5].
  pose proof Hinv as [_ _ Hwat _ Htok]. cbn [fst snd] in Hwat, Htok.
  wp_step. apply wp_on_world. cbn [fst snd].
  eapply wp_mono; [..|exact (reactivate_arms (m_kernel o) EVKERNEL_WRITE e w1 Heok)]; [|done].
  intros r w2 (Hquiet & Hac & Harms). wp_step. cbn [fst snd]. split_and!; [|split; [done|]|].
  - exists (<[Z.to_nat fd := rs']> qs). split; try done.
    + by eapply streams_quiet.
    + eapply (tokens_arm [fd] [] (upd_ctx o fd xf1) _ _ w1 w2 (<[Z.to_nat fd := rs']> qs) _ fd r); [done..| |done| |].
      * destruct Hr as [? _]. by eapply pending_insert_new.
      * by intros fd' ->%list_elem_of_singleton.
      * cbn [m_kernel upd_ctx]. rewrite Htr.
        by rewrite (proj2 (stream_kernel _ _ fd _ tr Hon (tk_wf _ _ _ _ _ Htok))).
  - cbn [fst upd_ctx m_fdctx]. by rewrite length_insert.
  - symmetry. apply bool_decide_false. cbn [fst m_watching upd_ctx]. rewrite Hwat.
    pose proof (npending_insert qs _ rs [] Hq) as Hnp. rewrite bool_decide_false in Hnp by done.
    simpl in Hnp. pose proof (npending_range (<[Z.to_nat fd := []]> qs)). lia.
Qed.

(** Nothing is left, or the descriptor failed: it is removed, and one less is busy. *)
Lemma event_finished w1 xf1 rs' tr :
  x_rep xf1 rs' -> w_trace w1 = w_trace w ++ tr -> on_stream fd tr ->
  (healthy fd tr -> data_of (delivered tr) = data_of (tokens rs)) ->
  wp (_ ← on_world (remove (m_kernel o) e); ctx ← on_world (clear xf1); _ ← set_ctx fd ctx;
      n ← add_watching (-1); mret (n =? 0)) (resumed o hands acc) no_exn (upd_ctx o fd xf1, w1).
Proof.
  intros Hx1 Htr Hon Hd. pose proof Hinv as [_ Hsm Hwat _ _]. cbn [fst snd] in Hwat, Hsm.
  wp_step. apply wp_on_world. cbn [fst snd].
  eapply wp_mono; [..|exact (remove_disarms (m_kernel o) e w1)]; [|done].
  intros r w2 [Hquiet Hk]. wp_step. apply wp_on_world. cbn [fst snd].
  pose proof (clear_run xf1 rs' w2 Hx1) as Hclear. unfold wp at 1. rewrite Hclear.
  wp_step. apply wp_set_ctx. cbn [fst snd]. wp_step.
  set (xf2 := Xfer (x_alloc xf1) [] (total xf1)). pose proof (npending_range qs) as Hrange.
  apply wp_add_watching; cbn [fst snd m_watching upd_ctx]; [lia|]. wp_step.
  split_and!; [exists (<[Z.to_nat fd := []]> qs)|split; [done|]|].
  - cbn [m_kernel m_fdctx m_queue upd_ctx]. rewrite list_insert_insert_eq.
    by eapply (inv_unwatch o w w1 w2 _ _ acc qs fd xf2 rs tr (flat_map fin_event (fins (tokens rs'))));
      [..|apply on_stream_fins|rewrite delivered_fin_events, fins_fins; apply data_fins
       |by eapply xfer_clear_rep].
  - cbn [fst upd_ctx m_fdctx]. by rewrite !length_insert.
  - cbn [fst m_watching]. apply Z_eqb_decide.
Qed.
End Resume.

(** A thread resumes the transfers of the descriptor whose event it holds; it
    is told when nothing is pending any more. *)
Lemma write_event_ok o w hands acc i e :
  good (o, w) hands acc -> hands !! i = Some e ->
  wp (write_event e)
     (fun b st' => good st' (delete i hands) acc /\ same_out o (fst st') /\
        b = bool_decide (m_watching (fst st') = 0)) no_exn (o, w).
Proof.
  intros [qs Hinv] Hi. pose proof Hinv as [Hrep Hsm Hwat Hstr Htok]. simpl in *.
  destruct (tokens_drop _ _ _ _ _ _ Htok Hi) as (Htok' & Hnin & Hna & (H0 & rs & Hq & Hne) & Heok).
  assert (out_inv [event_ident e] (o, w) (delete i hands) acc qs) as Hinv' by (by split).
  assert (in_range o (event_ident e)) as Hr.
  { split; [done|]. apply lookup_lt_Some in Hq. rewrite (Forall2_length Hrep). lia. }
  unfold write_event. wp_step. eapply wp_ctx_at; [done..|]. simpl.
  intros ctx rs0 Hc Hq0 Hx _ _. assert (rs0 = rs) as -> by congruence. wp_step. wp_step. apply wp_on_world.
  destruct (try_write_run ctx rs (event_ident e) w Hx) as (b & xf1 & rs' & w1 & w' & Hrun & Hx1 & _ & _ &
    (tr & Htr & _ & Hon & Htok1 & _ & _ & Hb) & Hh).
  unfold wp at 1. cbn [fst snd]. rewrite Hrun. wp_step. apply wp_set_ctx. cbn [fst snd].
  wp_step. apply wp_get_out. cbn [fst snd m_kernel upd_ctx]. destruct b; cbn [negb].
  - destruct Hb as [Hne' _]. unfold hangup in Hh. cbn [negb andb] in Hh. subst w'.
    by apply (event_rearmed o w (delete i hands) acc qs e rs Hinv' Hr Hq Hne Hnin Hna w1 xf1 rs' tr).
  - destruct (hangup_stream (event_ident e) rs rs' w w1 w' tr) as (tr1 & Htr1 & Hon1 & Hd1); [done..|].
    by apply (event_finished o w (delete i hands) acc qs e rs Hinv' Hr Hq Hne Hnin Hna w' xf1 rs' tr1).
Qed.
End Operations.

(** ** Runs: any interleaving of the operations *)

Inductive out_op : Type :=
| OpWrite (fd buf size : Z)
| OpRaw (fd : Z) (rs : list record)               (* commit_raw, as the loop's functions call it *)
| OpCommit (fd : Z) (xf : xfer) (rs : list record)  (* commit of an xfer that holds [rs] *)
| OpPoll
| OpNext
| OpEvent (i : nat).                              (* write_event of the [i]-th event in hand *)

Section Runs.
Context {OS : Os} {K : Kernel OS}.

Abbreviation client := ((out * world) * list kevent)%type.

Definition on_st {A} (m : M (out * world) A) : M client A := zoom fst (fun st c => (st, snd c)) m.

Definition run_op (op : out_op) : M client unit :=
  match op with
  | OpWrite fd buf size => on_st (write fd buf size)
  | OpRaw fd rs => on_st (commit_raw fd (encode_all rs))
  | OpCommit fd xf _ => zoom (fun c => (fst c, xf)) (fun t c => (fst t, snd c)) (commit fd)
  | OpPoll => on_st poll_event
  | OpNext => e ← on_st next; modify (fun c => (fst c, snd c ++ [e]))
  | OpEvent i =>
      c ← get;
      match snd c !! i with
      | Some e => _ ← on_st (write_event e); modify (fun c => (fst c, delete i (snd c)))
      | None => undef
      end
  end.

(** What the callers see to. *)
Definition contract (c : client) (op : out_op) : Prop :=
  let o := fst (fst c) in
  match op with
  | OpWrite fd buf size =>
      in_range o fd /\ push_ok (default xfer_new (m_fdctx o !! Z.to_nat fd)) (PushWrite buf size)
  | OpRaw fd rs =>
      in_range o fd /\ Forall record_ok rs /\ zlen (encode_all rs) <= 2 ^ 61 /\ ctx_total o fd <= 2 ^ 61
  | OpCommit fd xf rs =>
      in_range o fd /\ x_rep xf rs /\ total xf <= 2 ^ 61 /\ ctx_total o fd <= 2 ^ 61
  | OpPoll => True
  | OpNext => m_queue o <> []
  | OpEvent i => is_Some (snd c !! i)
  end.

(** The descriptor and the data an operation asks to send. *)
Definition request_of (op : out_op) : option (Z * list token) :=
  match op with
  | OpWrite fd buf size => Some (fd, TMem <$> seqZ buf size)
  | OpRaw fd rs | OpCommit fd _ rs => Some (fd, data_of (tokens rs))
  | _ => None
  end.

Definition accept (acc : Z -> list token) (req : option (Z * list token)) : Z -> list token :=
  match req with Some (fd, ts) => <[fd := acc fd ++ ts]> acc | None => acc end.

(** [acc fd] is what was asked for [fd] so far; of a request cut short by
    [bad_alloc], what was sent. *)
Inductive reach {L : KernelLaws K} : client -> (Z -> list token) -> Prop :=
| reach_new k n w :
    zlen (replicate n xfer_new) < 2 ^ 31 -> kernel_wf k EVKERNEL_WRITE (w_trace w) -> armed k (w_trace w) = ∅ ->
    (forall fd, sent fd (w_trace w) = []) ->
    reach ((MkOut k (replicate n xfer_new) [] 0, w), []) (fun _ => [])
| reach_ret c acc op c' :
    reach c acc -> contract c op -> run_op op c = Ret tt c' -> reach c' (accept acc (request_of op))
| reach_throw c acc op e c' ts :
    reach c acc -> contract c op -> run_op op c = Throw e c' ->
    (forall fd req, request_of op = Some (fd, req) ->
       sent fd (w_trace (snd (fst c'))) = sent fd (w_trace (snd (fst c))) ++ ts) ->
    reach c' (accept acc (option_map (fun r => (fst r, ts)) (request_of op))).

Context {Spec : OsSpec OS} {L : KernelLaws K}.

Definition op_post (c : client) (acc : Z -> list token) (op : out_op) (c' : client) : Prop :=
  good (fst c') (snd c') (accept acc (request_of op)).

Definition op_epost (c : client) (acc : Z -> list token) (op : out_op) (e : exn) (c' : client) : Prop :=
  forall ts, (forall fd req, request_of op = Some (fd, req) ->
    sent fd (w_trace (snd (fst c'))) = sent fd (w_trace (snd (fst c))) ++ ts) ->
  good (fst c') (snd c') (accept acc (option_map (fun r => (fst r, ts)) (request_of op))).

Lemma cut_epost o w hands acc op fd req e st' :
  request_of op = Some (fd, req) -> cut_short e (o, w) st' hands acc fd ->
  op_epost ((o, w), hands) acc op e (st', hands).
Proof.
  intros Hreq (_ & toks & Hs & Hg & _) ts Hts. specialize (Hts fd req Hreq). simpl in *.
  rewrite Hs in Hts. apply app_inv_head in Hts as ->. by rewrite Hreq.
Qed.

(** Only polling throws anything but [bad_alloc]. *)
Definition thrown (op : out_op) (e : exn) : Prop :=
  match op with OpPoll => exists code, e = SystemError code | _ => e = BadAlloc end.

Lemma out_op_ok c acc op :
  good (fst c) (snd c) acc -> contract c op ->
  wp (run_op op) (fun _ c' => op_post c acc op c')
     (fun e c' => op_epost c acc op e c' /\ thrown op e) c.
Proof.
  destruct c as [[o w] hands]. intros Hg Hc. simpl in Hg. destruct op; cbn [run_op].
  - destruct Hc as [Hr Hp]. apply wp_zoom. simpl. eapply wp_mono; [..|by apply (write_ok o w hands acc)].
    + intros _ st' [Hg' _]. done.
    + intros e st' Hcut. split; [by eapply (cut_epost o w hands)|by destruct Hcut].
  - destruct Hc as (Hr & Hok & Hsz & Ht). apply wp_zoom. simpl.
    eapply wp_mono; [..|by apply (commit_raw_ok o w hands acc)].
    + intros _ st' [Hg' _]. done.
    + intros e st' Hcut. split; [by eapply (cut_epost o w hands)|by destruct Hcut].
  - destruct Hc as (Hr & Hx & Hsz & Ht). apply wp_zoom. simpl.
    eapply wp_mono; [..|by apply (commit_ok o w hands acc fd xf rs)].
    + intros _ t [[Hg' _] _]. done.
    + intros e t [Hcut _]. split; [by eapply (cut_epost o w hands)|by destruct Hcut].
  - apply wp_zoom. simpl. eapply wp_mono; [..|by apply (poll_event_ok o w hands acc)].
    + intros _ st' [Hg' _]. done.
    + intros e st' [Hg' He]. split; [by intros ts _|done].
  - apply wp_bind, wp_zoom. simpl. eapply wp_mono; [..|by apply (next_ok o w hands acc)]; [|done].
    intros e st' (Hg' & _ & _). by wp_step.
  - destruct Hc as [e He]. wp_step. wp_step. simpl in *. rewrite He. wp_step. apply wp_zoom. simpl.
    eapply wp_mono; [..|by apply (write_event_ok o w hands acc i e)]; [|done].
    intros b st' (Hg' & _ & _). by wp_step.
Qed.

Lemma fresh_good k n w :
  zlen (replicate n xfer_new) < 2 ^ 31 -> kernel_wf k EVKERNEL_WRITE (w_trace w) -> armed k (w_trace w) = ∅ ->
  (forall fd, sent fd (w_trace w) = []) ->
  good (MkOut k (replicate n xfer_new) [] 0, w) [] (fun _ => []).
Proof.
  intros Hn Hwf Harm Hs. exists (replicate n []). rewrite length_replicate in Hn. split; simpl.
  - apply Forall2_replicate, xfer_new_rep.
  - by rewrite length_replicate.
  - unfold npending. clear. induction n as [|n IH]; [done|]. simpl. rewrite filter_cons_False; naive_solver.
  - intros fd rs _ [-> _]%lookup_replicate _. by rewrite Hs.
  - split; simpl; [done|constructor|constructor|set_solver| |].
    + intros fd [Hx|Hx]; [by apply not_elem_of_nil in Hx|]. rewrite Harm in Hx. set_solver.
    + intros _ fd (_ & rs & [-> _]%lookup_replicate & Hne). done.
Qed.

Lemma reach_good c acc : reach c acc -> good (fst c) (snd c) acc.
Proof.
  induction 1 as [k n w Hn Hwf Harm Hs|c acc op c' _ IH Hc Hrun|c acc op e c' ts _ IH Hc Hrun Hts].
  - by apply fresh_good.
  - pose proof (out_op_ok c acc op IH Hc) as Hwp. unfold wp in Hwp. by rewrite Hrun in Hwp.
  - pose proof (out_op_ok c acc op IH Hc) as Hwp. unfold wp in Hwp. rewrite Hrun in Hwp.
    destruct Hwp as [Hwp _]. by apply Hwp.
Qed.
End Runs.

(** ** Properties *)

Section Properties.
Context {OS : Os} {Spec : OsSpec OS} {K : Kernel OS} {L : KernelLaws K}.

Lemma no_pending ctxs :
  zlen (filter (fun ctx => xfer_empty ctx = false) ctxs) = 0 <-> Forall (fun ctx => x_buf ctx = []) ctxs.
Proof.
  induction ctxs as [|ctx ctxs IH]; [by split; [constructor|]|].
  rewrite filter_cons, list.Forall_cons, <-IH. destruct (xfer_empty ctx) eqn:Hemp.
  - apply bool_decide_eq_true in Hemp. rewrite decide_False by done. tauto.
  - apply bool_decide_eq_false in Hemp. rewrite decide_True by done. simpl length. split; [lia|tauto].
Qed.

(** C3. Per-descriptor streams: however the threads' operations interleave, on a
    descriptor where no call failed what was sent, followed by what is queued,
    is what was asked for: nothing is lost, duplicated or reordered. *)
Theorem out_streams_fifo (c : (out * world) * list kevent) (acc : Z -> list token) (fd : Z) (ctx : xfer)
    (Hr : reach c acc) (Hfd : 0 <= fd) (Hctx : m_fdctx (fst (fst c)) !! Z.to_nat fd = Some ctx)
    (Hh : healthy fd (w_trace (snd (fst c)))) :
  exists rs, x_buf ctx = encode_all rs /\
    sent fd (w_trace (snd (fst c))) ++ data_of (tokens rs) = acc fd.
Proof.
  destruct (reach_good _ _ Hr) as [qs [Hrep _ _ Hstr _]].
  destruct (Forall2_lookup_l _ _ _ _ _ Hrep Hctx) as (rs & Hrs & Hx).
  exists rs. split; [apply Hx|]. by apply Hstr.
Qed.

(** C19. [m_watching] counts the descriptors with something queued, so that
    [empty()], which [flush] waits for, is true exactly when nothing is pending
    anywhere. *)
Theorem out_watching_counts (c : (out * world) * list kevent) (acc : Z -> list token) (Hr : reach c acc) :
  m_watching (fst (fst c)) =
    zlen (filter (fun ctx => xfer_empty ctx = false) (m_fdctx (fst (fst c)))) /\
  empty (fst c) = Ret (bool_decide (Forall (fun ctx => x_buf ctx = []) (m_fdctx (fst (fst c))))) (fst c).
Proof.
  destruct (reach_good _ _ Hr) as [qs [Hrep _ Hwat _ _]].
  assert (m_watching (fst (fst c)) =
    zlen (filter (fun ctx => xfer_empty ctx = false) (m_fdctx (fst (fst c))))) as Hcount.
  { rewrite Hwat. unfold npending. f_equal. clear Hwat.
    induction Hrep as [|ctx rs ctxs qs Hx _ IH]; [done|]. rewrite !filter_cons.
    destruct ctx as [a buf free]. destruct Hx as [Hb _ _ _ _]. simpl in Hb. subst buf.
    rewrite xfer_empty_rep. repeat case_decide; case_bool_decide; naive_solver. }
  split; [done|]. unfold empty, get_out, mbind, M_bind, get, mret, M_ret. f_equal.
  rewrite Z_eqb_decide. apply bool_decide_ext. rewrite Hcount. apply no_pending.
Qed.

(** One event per descriptor: among the registrations the kernel may still
    report, the events polled, and the events in threads' hands, no descriptor
    occurs twice, and each of them has something queued; so no two threads
    resume the same descriptor at once. *)
Theorem out_events_exclusive (c : (out * world) * list kevent) (acc : Z -> list token) (Hr : reach c acc) :
  let o := fst (fst c) in
  let ids := event_ident <$> m_queue o ++ snd c in
  NoDup ids /\ list_to_set ids ## armed (m_kernel o) (w_trace (snd (fst c))) /\
  forall fd, fd ∈ ids \/ fd ∈ armed (m_kernel o) (w_trace (snd (fst c))) ->
    exists ctx, m_fdctx o !! Z.to_nat fd = Some ctx /\ x_buf ctx <> [].
Proof.
  destruct (reach_good _ _ Hr) as [qs [Hrep _ _ _ [Hwf He Hn Hd Hp _]]].
  split_and!; [done..|]. intros fd Hfd. destruct (Hp fd Hfd) as (_ & rs & Hrs & Hne).
  destruct (Forall2_lookup_r _ _ _ _ _ Hrep Hrs) as (ctx & Hctx & Hx). exists ctx. split; [done|].
  rewrite (xr_buf _ _ Hx). by intros ?%encode_all_nil.
Qed.

(** C18. No stall: as long as the kernel accepted every registration, a descriptor
    with something queued is registered, or its event is polled, or in the hands
    of a thread. *)
Theorem out_no_stall (c : (out * world) * list kevent) (acc : Z -> list token) (fd : Z) (ctx : xfer)
    (Hr : reach c acc) (Hacc : all_accepted (w_trace (snd (fst c))))
    (Hfd : 0 <= fd) (Hctx : m_fdctx (fst (fst c)) !! Z.to_nat fd = Some ctx) (Hq : x_buf ctx <> []) :
  fd ∈ armed (m_kernel (fst (fst c))) (w_trace (snd (fst c))) \/
  exists e, event_ident e = fd /\ (e ∈ m_queue (fst (fst c)) \/ e ∈ snd c).
Proof.
  destruct (reach_good _ _ Hr) as [qs [Hrep _ _ _ Htok]].
  destruct (Forall2_lookup_l _ _ _ _ _ Hrep Hctx) as (rs & Hrs & Hx).
  assert (pending qs fd) as Hp.
  { split; [done|]. exists rs. split; [done|]. intros ->. by rewrite (xr_buf _ _ Hx) in Hq. }
  destruct (tk_live _ _ _ _ _ Htok Hacc fd Hp) as [Hbad|[Hin|?]];
    [by apply not_elem_of_nil in Hbad| |by left].
  right. apply list_elem_of_fmap in Hin as (e & -> & Hin). exists e. by rewrite <-elem_of_app.
Qed.

(** Every operation within its contract comes back: it returns, or throws
    [bad_alloc] (or, for [poll_event] only, the error of the kernel's wait). *)
Theorem out_ops_return (c : (out * world) * list kevent) (acc : Z -> list token) (op : out_op)
    (Hr : reach c acc) (Hc : contract c op) :
  exists c', run_op op c = Ret tt c' \/ exists e, run_op op c = Throw e c' /\ thrown op e.
Proof.
  pose proof (out_op_ok _ _ _ (reach_good _ _ Hr) Hc) as Hwp. unfold wp in Hwp.
  destruct (run_op op c) as [[] c'|e c'| |]; [..|done|done]; exists c'; [by left|right].
  exists e. split; [done|]. apply Hwp.
Qed.

(** On an idle descriptor that reports an error at once, [commit_raw] drops
    the request silently: the transfers are gone, the finalizers behind the
    failed transfer are never called, the descriptor is not shut down, and the
    call returns normally. *)
Theorem commit_raw_drops_request (o : out) (w : world) (fd : Z) (vec : list (Z * Z)) (fin user : Z)
    (ctx : xfer) (e : errno) (Hfd : 0 <= fd) (Hctx : m_fdctx o !! Z.to_nat fd = Some ctx)
    (Hidle : x_buf ctx = []) (Hok : record_ok (XIov vec)) (Hfin : record_ok (XFin fin user))
    (Hsys : sys (w_trace w) (Writev fd vec) = SysErr e) (He : would_retry e = false) :
  loop_writev fd vec fin user (o, w) =
    Ret tt (o, World (w_trace w ++ [Sys (Writev fd vec) (SysErr e)]) (w_alloc w)).
Proof.
  unfold loop_writev, commit_raw, ctx_at, get_out, mbind, M_bind, get, mret, M_ret. cbn [fst snd].
  destruct (Z.ltb_spec fd 0); [lia|]. rewrite Hctx. unfold xfer_empty.
  rewrite bool_decide_true by done. cbn [negb]. unfold on_world, zoom. cbn [fst snd].
  assert (fill_iovec vec ++ fill_finalize fin user = encode_all [XIov vec; XFin fin user]) as ->.
  { cbn [encode_all flat_map encode]. by rewrite app_nil_r. }
  rewrite execute_encoded by (constructor; [done|constructor; [done|constructor]]). cbn [exec_items].
  rewrite syscall_bind. cbv zeta. by rewrite Hsys, He.
Qed.
End Properties.

(** ** Witnesses: a run on epoll

    Sixteen descriptors; descriptor 5 takes three bytes of ten, then answers
    EAGAIN; the event is polled and a thread takes it. *)
Section Witnesses.

#[local] Instance os : Os := ready_os [SysOk 3 []; SysErr EAGAIN].

Abbreviation client := ((@out os (epoll_kernel os) * world) * list Z)%type.

Definition w_client (k : Z) : client :=
  ((@MkOut os (epoll_kernel os) k (replicate 16 xfer_new) [] 0, World [] []), []).

Definition w_run (ops : list out_op) (c : client) : client :=
  fold_left (fun c op => match run_op op c with Ret _ c' => c' | _ => c end) ops c.

Definition w_pending : client := w_run [OpWrite 5 1000 10; OpPoll] (w_client 3).
Definition w_inhand : client := w_run [OpWrite 5 1000 10; OpPoll; OpNext] (w_client 3).

Definition w_ops (ops : list out_op) : Z -> list token :=
  fold_left (fun acc op => accept acc (request_of op)) ops (fun _ => []).

Lemma w_new : reach (w_client 3) (w_ops []).
Proof. by apply (@reach_new os (epoll_kernel os) _ 3 16 (World [] [])). Qed.

Lemma reach_run (c : client) acc op :
  reach c acc -> contract c op -> returns (run_op op c) = true ->
  reach (w_run [op] c) (accept acc (request_of op)).
Proof.
  intros Hr Hc Hret. unfold w_run. simpl. destruct (run_op op c) as [[] c'| | |] eqn:Hrun; [|done..].
  by eapply reach_ret.
Qed.

Lemma w_pending_reach : reach w_pending (w_ops [OpWrite 5 1000 10; OpPoll]).
Proof.
  unfold w_pending. change (w_run [OpWrite 5 1000 10; OpPoll] (w_client 3)) with
    (w_run [OpPoll] (w_run [OpWrite 5 1000 10] (w_client 3))).
  apply (reach_run _ (w_ops [OpWrite 5 1000 10]) OpPoll); [|done|vm_compute; reflexivity].
  apply (reach_run _ (w_ops []) (OpWrite 5 1000 10)); [apply w_new| |vm_compute; reflexivity].
  split; [by vm_compute|]. decided.
Qed.

Lemma w_inhand_reach : reach w_inhand (w_ops [OpWrite 5 1000 10; OpPoll; OpNext]).
Proof.
  change w_inhand with (w_run [OpNext] w_pending).
  apply (reach_run _ (w_ops [OpWrite 5 1000 10; OpPoll]) OpNext);
    [apply w_pending_reach|by vm_compute|vm_compute; reflexivity].
Qed.

Definition w_ctx : xfer := default xfer_new (m_fdctx (fst (fst w_inhand)) !! 5%nat).

Lemma out_streams_fifo_witness :
  exists rs, x_buf w_ctx = encode_all rs /\
    sent 5 (w_trace (snd (fst w_inhand))) ++ data_of (tokens rs) = TMem <$> seqZ 1000 10.
Proof.
  refine (out_streams_fifo w_inhand _ 5 w_ctx w_inhand_reach _ _ _).
  - lia.
  - vm_compute. reflexivity.
  - apply (bool_decide_unpack _). vm_compute. exact I.
Defined.

Lemma out_watching_counts_witness :
  m_watching (fst (fst w_inhand)) =
    zlen (filter (fun ctx => xfer_empty ctx = false) (m_fdctx (fst (fst w_inhand)))) /\
  empty (fst w_inhand) =
    Ret (bool_decide (Forall (fun ctx => x_buf ctx = []) (m_fdctx (fst (fst w_inhand))))) (fst w_inhand).
Proof. exact (out_watching_counts w_inhand _ w_inhand_reach). Defined.

Lemma out_events_exclusive_witness :
  let o := fst (fst w_inhand) in
  let ids := event_ident <$> m_queue o ++ snd w_inhand in
  NoDup ids /\ list_to_set ids ## armed (m_kernel o) (w_trace (snd (fst w_inhand))) /\
  forall fd, fd ∈ ids \/ fd ∈ armed (m_kernel o) (w_trace (snd (fst w_inhand))) ->
    exists ctx, m_fdctx o !! Z.to_nat fd = Some ctx /\ x_buf ctx <> [].
Proof. exact (out_events_exclusive w_inhand _ w_inhand_reach). Defined.

Lemma out_no_stall_witness :
  5 ∈ armed (m_kernel (fst (fst w_inhand))) (w_trace (snd (fst w_inhand))) \/
  exists e, event_ident e = 5 /\ (e ∈ m_queue (fst (fst w_inhand)) \/ e ∈ snd w_inhand).
Proof.
  refine (out_no_stall w_inhand _ 5 w_ctx w_inhand_reach _ _ _ _).
  - apply (bool_decide_unpack _). vm_compute. exact I.
  - lia.
  - vm_compute. reflexivity.
  - vm_compute. discriminate.
Defined.

Lemma out_ops_return_witness :
  exists c', run_op (OpEvent 0) w_inhand = Ret tt c' \/
    exists e, run_op (OpEvent 0) w_inhand = Throw e c' /\ thrown (OpEvent 0) e.
Proof.
  refine (out_ops_return w_inhand _ (OpEvent 0) w_inhand_reach _).
  vm_compute. eexists. reflexivity.
Defined.

Definition os_err : Os := ready_os [SysErr (EOTHER 32)].

Lemma commit_raw_drops_request_witness :
  let o := @MkOut os_err (epoll_kernel os_err) 3 (replicate 16 xfer_new) [] 0 in
  loop_writev 5 [(1000, 10)] 7 8 (o, World [] []) =
    Ret tt (o, World [Sys (Writev 5 [(1000, 10)]) (SysErr (EOTHER 32))] []).
Proof.
  refine (commit_raw_drops_request (@MkOut os_err (epoll_kernel os_err) 3 (replicate 16 xfer_new) [] 0)
    (World [] []) 5 [(1000, 10)] 7 8 xfer_new (EOTHER 32) _ _ eq_refl _ _ _ eq_refl).
  - lia.
  - reflexivity.
  - decided.
  - decided.
  - reflexivity.
Defined.
End Witnesses.
