(* ===== verification/OutFrame.v ===== *)
(** * What out leaves alone

    The event loop owns one kernel and [out] another.  The operations of [out]
    make calls on streams and on [out]'s kernel only, so they preserve what
    another kernel has registered; conversely the loop's calls on its kernel
    preserve [out]'s invariant. *)

From Stdlib Require Import ZArith Lia.
From stdpp Require Import base tactics option list numbers gmap sets.
From S2P Require Import Prelude Os Xfer XferQueue Kernel Out OutProps.

Section Frame.
Context {OS : Os} {K : Kernel OS} {L : KernelLaws K}.

(** ** Calls that register nothing *)

Definition unregistering (w w' : world) : Prop :=
  exists tr, w_trace w' = w_trace w ++ tr /\ Forall (fun ev => registers ev = false) tr.

#[export] Instance unregistering_preorder : PreOrder unregistering.
Proof.
  split.
  - intros w. exists []. by rewrite app_nil_r.
  - intros w1 w2 w3 (tr1 & H1 & Hr1) (tr2 & H2 & Hr2). exists (tr1 ++ tr2).
    rewrite H2, H1, app_assoc. split; [done|]. by apply Forall_app.
Qed.

Lemma unregistering_one w w' ev :
  w_trace w' = w_trace w ++ [ev] -> registers ev = false -> unregistering w w'.
Proof. intros Hw Hr. exists [ev]. split; [done|by repeat constructor]. Qed.

(** *** What every call on streams respects

    A relation that streams' calls, finalizers and allocations respect, as
    [unregistering] is, is respected by the operations of an [xfer] as well. *)
Class StreamFrame (R : world -> world -> Prop) : Prop := {
  sf_preorder :: PreOrder R;
  sf_stream r : (exists fd, stream_of r = Some fd) -> respects R (syscall r);
  sf_finalize fin user : respects R (call_finalize fin user);
  sf_can_alloc n : respects R (can_alloc n)
}.

#[export] Instance unregistering_frame : StreamFrame unregistering.
Proof.
  split; [apply _|..].
  - intros r [fd Hfd] w. cbn. eapply unregistering_one; [done|]. by eapply stream_not_registers.
  - intros fin user w. cbn. eapply unregistering_one; [done|]. apply finalize_not_registers.
  - intros n w. unfold can_alloc. destruct w as [tr [|b s]]; exists []; by rewrite app_nil_r.
Qed.

Section Xfers.
Context (R : world -> world -> Prop) {SF : StreamFrame R}.

Lemma respects_syscall r : (exists fd, stream_of r = Some fd) -> respects R (syscall r).
Proof. apply sf_stream. Qed.

Lemma respects_load n off mem : respects R (load n off mem).
Proof. unfold load. repeat respects_step. Qed.

Lemma respects_load_vec n off mem : respects R (load_vec n off mem).
Proof.
  revert off. induction n as [|n IH]; intros off; cbn [load_vec]; repeat respects_step;
    auto using respects_load.
Qed.

Lemma respects_grow {S} (R' : S -> S -> Prop) {HR : PreOrder R'} size need : respects R' (grow size need).
Proof. unfold grow. repeat respects_step. Qed.

Lemma respects_execute fd mem : respects R (execute fd mem).
Proof.
  unfold execute. generalize (S (length mem)), 0. intros fuel. revert mem.
  induction fuel as [|fuel IH]; intros mem p; cbn [execute_from]; [respects_step|].
  repeat first
    [ apply IH | apply respects_load | apply respects_load_vec | apply sf_finalize
    | apply respects_syscall; eexists; reflexivity
    | unfold refill; respects_step | respects_step ].
Qed.

Lemma respects_reserve xf n : respects R (reserve xf n).
Proof.
  unfold reserve. repeat first
    [ apply sf_can_alloc | apply respects_grow; apply _ | respects_step ].
Qed.

Lemma respects_push_record xf sz bytes : respects R (push_record xf sz bytes).
Proof. unfold push_record. repeat first [apply respects_reserve | respects_step]. Qed.

Lemma respects_migrate xf to : respects R (migrate xf to).
Proof. unfold migrate. repeat first [apply respects_reserve | respects_step]. Qed.

Lemma respects_clear_from fuel mem p : respects R (clear_from fuel mem p).
Proof.
  revert mem p. induction fuel as [|fuel IH]; intros mem p; cbn [clear_from]; [respects_step|].
  repeat first [ apply IH | apply respects_load | apply sf_finalize | respects_step ].
Qed.

Lemma respects_clear xf : respects R (clear xf).
Proof. unfold clear. repeat first [apply respects_clear_from | respects_step]. Qed.

Lemma respects_try_write xf fd : respects R (try_write xf fd).
Proof.
  unfold try_write. repeat first
    [ apply respects_execute | apply respects_syscall; eexists; reflexivity | respects_step ].
Qed.
End Xfers.

(** ** Another kernel's registrations *)

Definition spares (k : kernel) (w w' : world) : Prop := forall m,
  kernel_wf k m (w_trace w) ->
  kernel_wf k m (w_trace w') /\ armed k (w_trace w') = armed k (w_trace w).

#[export] Instance spares_preorder k : PreOrder (spares k).
Proof.
  split; [by intros w m Hwf|]. intros w1 w2 w3 H12 H23 m Hwf. destruct (H12 m Hwf) as [Hwf2 Ha2].
  destruct (H23 m Hwf2) as [Hwf3 Ha3]. split; [done|congruence].
Qed.

Lemma unregistering_spares k w w' : unregistering w w' -> spares k w w'.
Proof.
  intros (tr & Htr & Hr) m. rewrite Htr. clear Htr. generalize (w_trace w).
  induction Hr as [|ev tr Hev _ IH]; intros tr0 Hwf; [by rewrite app_nil_r|].
  destruct (other_events k m tr0 ev Hev Hwf) as [Hwf' Harm].
  rewrite cons_middle, app_assoc. destruct (IH (tr0 ++ [ev]) Hwf') as [? ->]. done.
Qed.

Lemma respects_weaken {S A} (R R' : S -> S -> Prop) (m : M S A) :
  (forall s s', R s s' -> R' s s') -> respects R m -> respects R' m.
Proof. intros HR Hm s. specialize (Hm s). destruct (m s); auto. Qed.

Lemma wp_respects {S A} (R : S -> S -> Prop) (m : M S A) :
  (forall s, wp m (fun _ s' => R s s') no_exn s) -> respects R m.
Proof. intros Hm s. specialize (Hm s). unfold wp in Hm. by destruct (m s). Qed.

(** The runs of [out] on kernel [kk], seen from [k]. *)
Section Other.
Variables (k kk : kernel) (q : list kevent).
Hypothesis Hne : kernel_ident k <> kernel_ident kk.

Lemma other_kernel : same_kernel kk k = false.
Proof. by apply bool_decide_false. Qed.

Lemma spares_add_fd fd f :
  f = EVKERNEL_READ \/ f = EVKERNEL_WRITE -> respects (spares k) (add_fd kk fd f).
Proof.
  intros Hf. apply wp_respects. intros w. eapply wp_mono; [..|exact (add_fd_arms kk fd f w Hf)]; [|done].
  intros r w' (_ & _ & Hk) m Hwf. destruct (Hk k m Hwf) as [Hwf' ->]; [by rewrite other_kernel|].
  unfold arms. by rewrite other_kernel.
Qed.

Lemma spares_remove_fd fd f : respects (spares k) (remove_fd kk fd f).
Proof.
  apply wp_respects. intros w. eapply wp_mono; [..|exact (remove_fd_disarms kk fd f w)]; [|done].
  intros r w' (_ & Hk) m Hwf. destruct (Hk k m Hwf) as (? & _ & Heq). by rewrite (Heq other_kernel).
Qed.

Lemma spares_reactivate m e : event_ok m e -> respects (spares k) (reactivate kk e).
Proof.
  intros He. apply wp_respects. intros w. eapply wp_mono; [..|exact (reactivate_arms kk m e w He)]; [|done].
  intros r w' (_ & _ & Hk) m' Hwf. destruct (Hk k m' Hwf) as [Hwf' ->]; [by rewrite other_kernel|].
  unfold arms. by rewrite other_kernel.
Qed.

Lemma spares_remove e : respects (spares k) (remove kk e).
Proof.
  apply wp_respects. intros w. eapply wp_mono; [..|exact (remove_disarms kk e w)]; [|done].
  intros r w' (_ & Hk) m Hwf. destruct (Hk k m Hwf) as (? & _ & _ & Heq). by rewrite (Heq other_kernel).
Qed.

(** The object works on [kk] and has polled the events [q]. *)
Definition works (o : @out OS K) : Prop := m_kernel o = kk /\ m_queue o = q.

(** [pr] is where the object and the world are in the state. *)
Definition resp {T A} (pr : T -> @out OS K * world) (m : M T A) : Prop := forall t,
  works (fst (pr t)) ->
  match m t with
  | Ret _ t' | Throw _ t' => works (fst (pr t')) /\ spares k (snd (pr t)) (snd (pr t'))
  | Undef | Diverge => True
  end.

Section Combinators.
Context {T : Type} (pr : T -> @out OS K * world).

Lemma resp_bind {A B} (m : M T A) (f : A -> M T B) :
  resp pr m -> (forall a, resp pr (f a)) -> resp pr (m ≫= f).
Proof.
  intros Hm Hf st Hk. unfold mbind, M_bind. specialize (Hm st Hk).
  destruct (m st) as [a st1|e st1| |]; [|done..]. destruct Hm as [Hk1 Hs1]. specialize (Hf a st1 Hk1).
  destruct (f a st1) as [b st2|e st2| |]; [..|done|done]; destruct Hf as [? ?]; (split; [done|by etrans]).
Qed.

Lemma resp_ret {A} (a : A) : resp pr (mret a).
Proof. intros st Hk. split; [done|by cbn]. Qed.

Lemma resp_throw {A} e : resp pr (throw (A := A) e).
Proof. intros st Hk. split; [done|by cbn]. Qed.

Lemma resp_undef {A} : resp pr (undef (A := A)).
Proof. done. Qed.

Lemma resp_catch {A} (m : M T A) h : resp pr m -> (forall e, resp pr (h e)) -> resp pr (catch m h).
Proof.
  intros Hm Hh st Hk. unfold catch. specialize (Hm st Hk).
  destruct (m st) as [a st1|e st1| |]; [done| |done..]. destruct Hm as [Hk1 Hs1]. specialize (Hh e st1 Hk1).
  destruct (h e st1) as [b st2|e' st2| |]; [..|done|done]; destruct Hh as [? ?]; (split; [done|by etrans]).
Qed.
End Combinators.

Lemma resp_get {B} (f : @out OS K -> M (@out OS K * world) B) :
  (forall o, works o -> resp id (f o)) -> resp id (get_out ≫= f).
Proof. intros Hf st Hk. exact (Hf (fst st) Hk st Hk). Qed.

Lemma resp_put o : works o -> resp id (put_out o).
Proof. intros Ho st _. split; [done|by cbn]. Qed.

Lemma resp_world {A} (m : M world A) : respects (spares k) m -> resp id (on_world m).
Proof.
  intros Hm st Hk. unfold on_world, zoom. specialize (Hm (snd st)).
  destruct (m (snd st)); by (split; [done|]) || done.
Qed.

Lemma resp_stream {A} (m : M world A) : respects unregistering m -> resp id (on_world m).
Proof. intros Hm. apply resp_world. eapply respects_weaken; [|done]. apply unregistering_spares. Qed.

Lemma resp_on_out {A} (m : M (@out OS K * world) A) : resp id m -> resp fst (on_out m).
Proof.
  intros Hm t Hk. specialize (Hm (fst t) Hk). unfold on_out, zoom. by destruct (m (fst t)).
Qed.

Lemma resp_put_xf xf : resp fst (put_xf xf).
Proof. intros t Hk. split; [done|by cbn]. Qed.

Lemma resp_get_xf : resp fst get_xf.
Proof. intros t Hk. split; [done|by cbn]. Qed.

Ltac resp_step :=
  lazymatch goal with
  | |- forall _, _ => intros ?
  | |- resp id (mbind _ get_out) => apply resp_get
  | |- resp _ (mbind _ _) => apply resp_bind
  | |- resp _ (catch _ _) => apply resp_catch
  | |- resp _ (mret _) => apply resp_ret
  | |- resp _ (throw _) => apply resp_throw
  | |- resp _ undef => apply resp_undef
  | |- resp _ (put_out _) => apply resp_put; match goal with H : works _ |- _ => exact H end
  | |- resp _ (on_out _) => apply resp_on_out
  | |- resp _ (put_xf _) => apply resp_put_xf
  | |- resp _ get_xf => apply resp_get_xf
  | |- resp _ (if ?b then _ else _) => destruct b
  | |- resp _ (match ?x with _ => _ end) => destruct x
  | |- resp _ (let _ := _ in _) => cbv zeta
  | |- resp _ (on_world (syscall _)) => apply resp_stream, (respects_syscall unregistering); eexists; reflexivity
  | |- resp _ (on_world (execute _ _)) => apply resp_stream, (respects_execute unregistering)
  | |- resp _ (on_world (try_write _ _)) => apply resp_stream, (respects_try_write unregistering)
  | |- resp _ (on_world (migrate _ _)) => apply resp_stream, (respects_migrate unregistering)
  | |- resp _ (on_world (clear _)) => apply resp_stream, (respects_clear unregistering)
  | |- resp _ (on_world (push_write _ _ _)) => apply resp_stream, (respects_push_record unregistering)
  | |- resp _ (on_world (push_xfraw _ _)) => apply resp_stream, (respects_push_record unregistering)
  end.

Ltac own_kernel := match goal with H : works _ |- _ => rewrite (proj1 H) end.

Lemma resp_ctx_at fd : resp id (ctx_at fd).
Proof. unfold ctx_at. repeat resp_step. Qed.

Lemma resp_set_ctx fd ctx : resp id (set_ctx fd ctx).
Proof. unfold set_ctx. repeat resp_step. Qed.

Lemma resp_add_watching d : resp id (add_watching d).
Proof. unfold add_watching. repeat resp_step. Qed.

Lemma resp_watch fd : resp id (watch fd).
Proof.
  unfold watch. repeat first [apply resp_add_watching | resp_step].
  own_kernel. apply resp_world, spares_add_fd. by right.
Qed.

Lemma resp_write fd buf size : resp id (write fd buf size).
Proof.
  unfold write. repeat first [apply resp_ctx_at | apply resp_set_ctx | apply resp_watch | resp_step].
Qed.

Lemma resp_commit_raw fd bytes : resp id (commit_raw fd bytes).
Proof.
  unfold commit_raw. repeat first [apply resp_ctx_at | apply resp_set_ctx | apply resp_watch | resp_step].
Qed.

Lemma resp_write_event m e : event_ok m e -> resp id (write_event e).
Proof.
  intros He. unfold write_event.
  repeat first [apply resp_ctx_at | apply resp_set_ctx | apply resp_add_watching | resp_step]; own_kernel.
  - apply resp_world, spares_remove.
  - by eapply resp_world, spares_reactivate.
Qed.
Lemma resp_commit fd : resp fst (commit fd).
Proof.
  unfold commit. repeat first [apply resp_ctx_at | apply resp_set_ctx | apply resp_watch | resp_step].
Qed.

Lemma spares_wait m timeout w :
  kernel_wf kk m (w_trace w) -> wp (wait kk timeout) (fun _ w' => spares k w w') no_exn w.
Proof.
  intros Hwf. eapply wp_mono; [..|exact (wait_disarms kk m timeout w Hwf)]; [|done].
  intros r w' (_ & _ & _ & _ & _ & Hk) m' Hwf'. destruct (Hk k m' Hwf') as [? Harm].
  by rewrite other_kernel in Harm.
Qed.

Lemma poll_event_spares m o w :
  m_kernel o = kk -> kernel_wf kk m (w_trace w) ->
  let Q st := m_kernel (fst st) = kk /\ spares k w (snd st) in
  wp poll_event (fun _ => Q) (fun _ => Q) (o, w).
Proof.
  cbv zeta. intros Hk Hwf. unfold poll_event. wp_step. apply wp_get_out. wp_step. apply wp_on_world.
  cbn [fst snd]. rewrite Hk. eapply wp_mono; [..|exact (spares_wait m 0 w Hwf)]; [|done].
  intros [e|es] w' Hs; [destruct (would_retry e); by wp_step|]. by apply wp_put_out.
Qed.
End Other.

Lemma wp_resp {T A} k kk q (pr : T -> @out OS K * world) (m : M T A) Q E t :
  resp k kk q pr m -> works kk q (fst (pr t)) -> wp m Q E t ->
  let sp t' := works kk q (fst (pr t')) /\ spares k (snd (pr t)) (snd (pr t')) in
  wp m (fun a t' => Q a t' /\ sp t') (fun e t' => E e t' /\ sp t') t.
Proof. intros Hm Hw. specialize (Hm t Hw). unfold wp. by destruct (m t). Qed.

(** ** The other way around *)

(** What the loop's kernel does keeps [out]'s invariant. *)
Lemma out_inv_spares X o w w' hands acc qs :
  out_inv X (o, w) hands acc qs -> quiet w w' -> spares (m_kernel o) w w' ->
  out_inv X (o, w') hands acc qs.
Proof.
  intros [Hrep Hsm Hwat Hstr [Hwf He Hn Hd Hp Hl]] Hq Hs. simpl in *. destruct (Hs _ Hwf) as [Hwf' Harm].
  split; simpl; [done..|by eapply streams_quiet|]. split; rewrite ?Harm; [done..|].
  intros Hacc. apply Hl. by eapply accepted_quiet.
Qed.

Lemma good_spares o w w' hands acc :
  good (o, w) hands acc -> quiet w w' -> spares (m_kernel o) w w' -> good (o, w') hands acc.
Proof. intros [qs H] Hq Hs. exists qs. by eapply out_inv_spares. Qed.

Lemma good_perm o w hands hands' acc :
  hands ≡ₚ hands' -> good (o, w) hands acc -> good (o, w) hands' acc.
Proof.
  intros Hp [qs [Hrep Hsm Hwat Hstr Htok]]. exists qs. split; try done.
  eapply (tokens_quiet [] o o hands hands' w w); [done|done|by rewrite Hp|done].
Qed.
End Frame.
