(* ===== verification/OutOwner.v ===== *)
(** * Output that owns an object (src/mp/wavy.hmpl)

    [loop::write] and [loop::writev] with a smart pointer hand the object over to
    the finalizer of the request: [object_delete] of the object.  The pointer of
    the caller lets go of the object when the call returns, and keeps it when the
    call throws. *)

From Stdlib Require Import ZArith Lia.
From stdpp Require Import base tactics option list numbers gmap sets.
From S2P Require Import Prelude Os Xfer XferQueue Kernel KernelEpoll Out OutProps.

Section Owner.
Context {OS : Os} {K : Kernel OS}.

Abbreviation ost := (@out OS K * world)%type.

(** [&mp::object_delete<T>] *)
Variable object_delete : Z.

(** The [auto_ptr] of the caller: an object, or NULL. *)
Definition auto_ptr : Type := option Z.

Definition get_ptr (p : auto_ptr) : Z := default 0 p.

Definition on_ost {A} (m : M ost A) : M (ost * auto_ptr) A := zoom fst (fun s st => (s, snd st)) m.
Definition release : M (ost * auto_ptr) unit := modify (fun st => (fst st, None)).

Definition auto_write (fd buf size : Z) : M (ost * auto_ptr) unit :=
  st ← get;
  _ ← on_ost (loop_write_fin fd buf size object_delete (get_ptr (snd st)));
  release.

Definition auto_writev (fd : Z) (vec : list (Z * Z)) : M (ost * auto_ptr) unit :=
  st ← get;
  _ ← on_ost (loop_writev fd vec object_delete (get_ptr (snd st)));
  release.

Definition sizeof_shared_ptr : Z := 16.

(** The overloads for [shared_ptr] own a copy of it, at the address [copy]; the
    copy is deleted when the call throws. *)
Definition with_copy (copy : Z) (m : M (ost * auto_ptr) unit) : M ost unit := fun st =>
  match (ok ← on_world (can_alloc sizeof_shared_ptr); if ok : bool then mret tt else throw BadAlloc) st with
  | Ret _ st1 =>
      match m (st1, Some copy) with
      | Ret a (st2, _) => Ret a st2
      | Throw e (st2, Some p) => (_ ← on_world (call_finalize object_delete p); throw e) st2
      | Throw e (st2, None) => Throw e st2
      | Undef => Undef
      | Diverge => Diverge
      end
  | Throw e st1 => Throw e st1
  | Undef => Undef
  | Diverge => Diverge
  end.

Definition shared_write (fd buf size copy : Z) : M ost unit := with_copy copy (auto_write fd buf size).
Definition shared_writev (fd : Z) (vec : list (Z * Z)) (copy : Z) : M ost unit := with_copy copy (auto_writev fd vec).

(** [xfer::push_finalize] of the two: the pointer is passed by value, and deletes
    the object when the call throws. *)
Definition auto_push_finalize (xf : xfer) (p : auto_ptr) : M world xfer :=
  catch (push_finalize xf object_delete (get_ptr p))
    (fun e => _ ← (match p with Some obj => call_finalize object_delete obj | None => mret tt end); throw e).

Definition shared_push_finalize (xf : xfer) (copy : Z) : M world xfer :=
  ok ← can_alloc sizeof_shared_ptr;
  if ok : bool then auto_push_finalize xf (Some copy) else throw BadAlloc.

(** ** What becomes of the object *)

(** What is left of records that end with a finalizer: nothing, or an end of them. *)
Lemma exec_items_last fd rs f u w b rs' w' :
  exec_items fd (rs ++ [XFin f u]) w = Ret (b, rs') w' -> rs' = [] \/ exists rs1, rs' = rs1 ++ [XFin f u].
Proof.
  revert w. induction rs as [|r rs IH]; intros w.
  - cbn [app exec_items]. unfold mbind, M_bind, call_finalize, modify. destruct (f =? 0); intros [= _ <- _]; by left.
  - assert (forall r', exists rs1, r' :: rs ++ [XFin f u] = rs1 ++ [XFin f u]) as Hr by (intros r'; by exists (r' :: rs)).
    destruct r as [vec|infd off len|fin user]; cbn [app exec_items].
    + rewrite syscall_bind. cbv zeta. destruct (sys _ _) as [n out|e]; [|intros [= _ <- _]; by right].
      destruct (n <=? 0); [intros [= _ <- _]; by right|]. destruct (iov_rest vec n); [intros [= _ <- _]; by right|apply IH].
    + rewrite syscall_bind. cbv zeta. destruct (sys _ _) as [n out|e]; [|intros [= _ <- _]; by right].
      destruct (n <=? 0); [intros [= _ <- _]; by right|]. destruct (n <? len); [intros [= _ <- _]; by right|apply IH].
    + unfold mbind, M_bind, call_finalize, modify. destruct (fin =? 0); apply IH.
Qed.

Section Handover.
Context {Spec : OsSpec OS} {Laws : KernelLaws K}.
Hypothesis Hdel : object_delete <> 0.

(** Handed over: the object was deleted, or its deletion is queued, after the
    finalizers that were queued before; or, when the descriptor failed at once, the
    request was dropped with its finalizer, and nothing is going to delete it. *)
Definition handed (fd obj : Z) (rs0 : list record) (st st' : ost) : Prop :=
  exists tr ctx' rs', w_trace (snd st') = w_trace (snd st) ++ tr /\
    m_fdctx (fst st') !! Z.to_nat fd = Some ctx' /\ x_rep ctx' rs' /\
    (fins (delivered tr) ++ fins (tokens rs') = fins (tokens rs0) ++ [TFin object_delete obj] \/
     rs0 = [] /\ rs' = [] /\ fins (delivered tr) = [] /\ failed tr).

(** Kept: no finalizer was called, and the queues are as before. *)
Definition kept (st st' : ost) : Prop :=
  exists tr, w_trace (snd st') = w_trace (snd st) ++ tr /\ fins (delivered tr) = [] /\ m_fdctx (fst st') = m_fdctx (fst st).

Lemma fins_owned obj rs1 :
  fins (tokens (rs1 ++ [XFin object_delete obj])) = fins (tokens rs1) ++ [TFin object_delete obj].
Proof.
  rewrite tokens_app, fins_app. f_equal. cbn [tokens flat_map record_tokens]. by destruct (Z.eqb_spec object_delete 0).
Qed.

(** What a request with a finalizer at its end leaves. *)
Lemma owned_rest fd vec obj w b rs' w' :
  Forall record_ok [XIov vec; XFin object_delete obj] ->
  exec_items fd [XIov vec; XFin object_delete obj] w = Ret (b, rs') w' -> walked fd [XIov vec; XFin object_delete obj] w b rs' w' ->
  exists tr, w_trace w' = w_trace w ++ tr /\ Forall record_ok rs' /\
    zlen (encode_all rs') <= zlen (encode_all [XIov vec; XFin object_delete obj]) /\
    fins (delivered tr) ++ fins (tokens rs') = [TFin object_delete obj] /\
    (rs' <> [] -> fins (delivered tr) = [] /\ (b = false -> failed tr)).
Proof.
  intros Hok Hrun (tr & Htr & _ & _ & Htok & Hok' & Hlen & Hb). exists tr. split; [done|]. split; [done|]. split; [done|].
  assert (fins (delivered tr) ++ fins (tokens rs') = [TFin object_delete obj]) as Heq.
  { rewrite <-fins_app, Htok. change [XIov vec; XFin object_delete obj] with ([XIov vec] ++ [XFin object_delete obj]).
    rewrite fins_owned. cbn [tokens flat_map record_tokens]. by rewrite app_nil_r, fins_iov. }
  split; [done|]. intros Hne. split.
  - destruct (exec_items_last fd [XIov vec] _ _ _ _ _ _ Hrun) as [->|[rs1 ->]]; [done|].
    rewrite fins_owned, app_assoc in Heq. apply (app_inj_tail _ []) in Heq as [Heq _]. by apply app_eq_nil in Heq as [-> _].
  - intros ->. by destruct Hb.
Qed.

Lemma wp_watch_frame fd (o : out) w :
  wp (watch fd) (fun _ st' => m_fdctx (fst st') = m_fdctx o /\ exists tr, w_trace (snd st') = w_trace w ++ tr /\ delivered tr = [])
    no_exn (o, w).
Proof.
  unfold watch, add_watching. wp_step. apply wp_get_out. wp_step. apply wp_on_world. cbn [fst snd].
  eapply wp_mono; [..|apply add_fd_arms; by right]; [|done].
  intros r w' [Hq _]. wp_step. wp_step. apply wp_get_out. wp_step. apply wp_put_out. cbn [fst snd]. repeat wp_step. split; [done|]. simpl.
  destruct Hq as [_ [->|(r' & a & -> & Hs)]]; [exists []; by rewrite app_nil_r|].
  eexists. split; [reflexivity|]. destruct r'; try done; by destruct a.
Qed.

Lemma push_kept (o : out) ctx rs0 rs1 w w1 tr :
  w_trace w1 = w_trace w ++ tr -> fins (delivered tr) = [] -> x_rep ctx rs0 -> total ctx <= 2 ^ 61 ->
  Forall record_ok rs1 -> zlen (encode_all rs1) <= 2 ^ 61 ->
  wp (push_xfraw ctx (encode_all rs1)) (fun ctx' w' => w_trace w' = w_trace w ++ tr /\ x_rep ctx' (rs0 ++ rs1))
    (fun e w' => e = BadAlloc /\ kept (o, w) (o, w')) w1.
Proof.
  intros Htr Hd Hx Ht Hok1 Hsz1. apply (wp_push_records ctx rs0); [done..| |].
  - intros ctx' w' Hs Hx'. split; [|done]. by rewrite Hs.
  - intros w' Hs. split; [done|]. exists tr. split_and!; [simpl; by rewrite Hs|done|done].
Qed.

Lemma commit_raw_owner fd vec obj (o : out) ctx rs0 w :
  in_range o fd -> m_fdctx o !! Z.to_nat fd = Some ctx -> x_rep ctx rs0 -> total ctx <= 2 ^ 61 ->
  let rs := [XIov vec; XFin object_delete obj] in
  Forall record_ok rs -> zlen (encode_all rs) <= 2 ^ 61 ->
  wp (commit_raw fd (encode_all rs)) (fun _ st' => handed fd obj rs0 (o, w) st')
    (fun e st' => e = BadAlloc /\ kept (o, w) st') (o, w).
Proof.
  intros Hr Hc Hx Ht rs Hok Hsz. unfold commit_raw, ctx_at. wp_step. wp_step. apply wp_get_out. cbn [fst].
  destruct (Z.ltb_spec fd 0); [unfold in_range in Hr; lia|]. rewrite Hc. wp_step.
  assert (xfer_empty ctx = bool_decide (rs0 = [])) as ->.
  { destruct ctx as [a buf free]. destruct Hx as [Hbuf _ _ _ _]. simpl in Hbuf. subst buf. apply xfer_empty_rep. }
  assert (fins (tokens rs) = [TFin object_delete obj]) as Hfr.
  { change rs with ([XIov vec] ++ [XFin object_delete obj]). rewrite fins_owned. cbn [tokens flat_map record_tokens]. by rewrite app_nil_r, fins_iov. }
  case_bool_decide as Hnil; cbn [negb].
  - subst rs0. wp_step. apply wp_on_world. cbn [fst snd].
    destruct (exec_items_walks fd rs w Hok) as (b & rs' & w1 & Hrun & Hwalk).
    destruct (owned_rest fd vec obj w b rs' w1 Hok Hrun Hwalk) as (tr & Htr & Hok' & Hlen & Hfins & Hrest).
    unfold wp at 1. rewrite execute_encoded, Hrun by done. cbn [encoded].
    destruct b.
    + destruct Hwalk as (tr0 & _ & _ & _ & _ & _ & _ & Hne & _). destruct (Hrest Hne) as [Hd _].
      wp_step. apply wp_on_world. cbn [fst snd].
      eapply wp_mono; [..|apply (push_kept o ctx [] rs' w w1 tr); [done..|unfold rs in *; lia]]; [|done].
      intros ctx' w2 [Htr2 Hx']. wp_step. apply wp_set_ctx. cbn [fst snd].
        eapply wp_mono; [..|apply wp_watch_frame]; [|done].
        intros [] [o3 w3] [Hf (tr3 & Htr3 & Hd3)]. simpl in *. exists (tr ++ tr3), ctx', rs'. simpl.
        split; [by rewrite Htr3, Htr2, <-app_assoc|]. split; [|split; [done|left]].
        -- rewrite Hf. unfold upd_ctx. simpl. apply list_lookup_insert_eq. by eapply lookup_lt_Some.
        -- by rewrite delivered_app, fins_app, Hd3, app_nil_r.
    + wp_step. exists tr, ctx, []. split_and!; [done..|].
      destruct (decide (rs' = [])) as [->|Hne]; [left; exact Hfins|]. destruct (Hrest Hne) as [Hd Hf].
      right. split_and!; [done..|by apply Hf].
  - wp_step. apply wp_on_world. cbn [fst snd].
    eapply wp_mono; [..|apply (push_kept o ctx rs0 rs w w []); [by rewrite app_nil_r|done..]]; [|done].
    intros ctx' w2 [Htr2 Hx']. apply wp_set_ctx. cbn [fst snd]. exists [], ctx', (rs0 ++ rs). simpl.
    split; [done|]. split; [apply list_lookup_insert_eq; by eapply lookup_lt_Some|]. split; [done|left].
    by rewrite tokens_app, fins_app, Hfr.
Qed.

(** The requests of [write] and [writev]. *)
Lemma write_request buf size obj :
  fill_mem buf size ++ fill_finalize object_delete obj = encode_all [XIov [(buf, size)]; XFin object_delete obj].
Proof. rewrite fill_mem_encode. unfold encode_all. cbn [flat_map encode]. by rewrite app_nil_r. Qed.

Lemma request_size vec obj :
  zlen vec < 2 ^ 31 -> zlen (encode_all [XIov vec; XFin object_delete obj]) <= 2 ^ 61.
Proof.
  intros Hl. unfold encode_all. cbn [flat_map encode]. rewrite !length_app, !Nat2Z.inj_add, length_fill_iovec, length_fill_finalize.
  unfold sizeof_iovec, sizeof_finalize, sizeof_xfer_type, sizeof_struct_iovec, sizeof_struct_finalize. simpl length. lia.
Qed.

Lemma writev_request vec obj :
  fill_iovec vec ++ fill_finalize object_delete obj = encode_all [XIov vec; XFin object_delete obj].
Proof. unfold encode_all. cbn [flat_map encode]. by rewrite app_nil_r. Qed.

(** What the theorems ask of the queue of [fd]: [rs0] is queued. *)
Definition queues (fd : Z) (rs0 : list record) (o : out) : Prop :=
  in_range o fd /\ exists ctx, m_fdctx o !! Z.to_nat fd = Some ctx /\ x_rep ctx rs0 /\ total ctx <= 2 ^ 61.

Lemma auto_writes_owner fd vec obj rs0 (o : out) w m :
  (exists buf size, vec = [(buf, size)] /\ m = auto_write fd buf size) \/ m = auto_writev fd vec ->
  queues fd rs0 o -> Forall record_ok [XIov vec; XFin object_delete obj] ->
  wp m (fun _ st' => snd st' = None /\ handed fd obj rs0 (o, w) (fst st'))
    (fun e st' => e = BadAlloc /\ snd st' = Some obj /\ kept (o, w) (fst st')) ((o, w), Some obj).
Proof.
  intros Hm (Hr & ctx & Hc & Hx & Ht) Hok.
  assert (zlen vec < 2 ^ 31) as Hl by (apply Forall_inv in Hok; apply Hok).
  pose proof (commit_raw_owner fd vec obj o ctx rs0 w Hr Hc Hx Ht Hok (request_size vec obj Hl)) as H.
  destruct Hm as [(buf & size & -> & ->)| ->]; [unfold auto_write, loop_write_fin|unfold auto_writev, loop_writev];
    unfold on_ost; repeat wp_step; cbn [fst snd]; change (get_ptr (Some obj)) with obj; [rewrite write_request|rewrite writev_request];
    (eapply wp_mono; [..|exact H]; [intros [] st' Hh; unfold release; wp_step; by split|by intros e st' []]).
Qed.

(** C39. [write] and [writev] with an [auto_ptr]: when they return, the pointer has let go
    of the object, and its deletion was done or is queued, once, behind what was
    queued before, unless the descriptor failed at once, when the object leaks; when
    they throw, the pointer still has the object, no finalizer was called, and
    the queue is as before. *)
Theorem auto_write_hands_over (fd buf size obj : Z) (vec : list (Z * Z)) (rs0 : list record) (o : out) (w : world) :
  queues fd rs0 o -> Forall record_ok [XIov [(buf, size)]; XIov vec; XFin object_delete obj] ->
  Forall (fun m => wp m (fun _ st' => snd st' = None /\ handed fd obj rs0 (o, w) (fst st'))
      (fun e st' => e = BadAlloc /\ snd st' = Some obj /\ kept (o, w) (fst st')) ((o, w), Some obj))
    [auto_write fd buf size; auto_writev fd vec].
Proof.
  intros Hq Hok. rewrite !Forall_cons in Hok. destruct Hok as (Hb & Hv & Hd & _). constructor; [|constructor; [|done]].
  - apply (auto_writes_owner fd [(buf, size)]); [by eauto|done|]. constructor; [exact Hb|constructor; [exact Hd|constructor]].
  - apply (auto_writes_owner fd vec); [by right|done|]. constructor; [exact Hv|constructor; [exact Hd|constructor]].
Qed.

(** [write] with a [shared_ptr]: if it throws after it made its copy, it has deleted
    the copy once. *)
Theorem shared_write_hands_over (fd buf size copy : Z) (rs0 : list record) (o : out) (w : world) :
  queues fd rs0 o -> Forall record_ok [XIov [(buf, size)]; XFin object_delete copy] ->
  wp (shared_write fd buf size copy) (fun _ st' => handed fd copy rs0 (o, w) st')
    (fun e st' => e = BadAlloc /\ m_fdctx (fst st') = m_fdctx o /\ exists tr, w_trace (snd st') = w_trace w ++ tr /\
       (tr = [] \/ fins (delivered tr) = [TFin object_delete copy])) (o, w).
Proof.
  intros Hq Hok. unfold wp, shared_write, with_copy.
  assert (wp (ok ← on_world (can_alloc sizeof_shared_ptr); if ok : bool then mret tt else throw BadAlloc)
    (fun _ st => exists s, st = (o, World (w_trace w) s)) (fun e st => e = BadAlloc /\ exists s, st = (o, World (w_trace w) s)) (o, w)) as Ha.
  { wp_step. apply wp_on_world. apply wp_can_alloc_any. intros [] s _; cbn [fst snd]; wp_step; by eauto. }
  unfold wp in Ha. destruct ((ok ← on_world (can_alloc sizeof_shared_ptr); if ok : bool then mret tt else throw BadAlloc) (o, w)) as [[] st1|e st1| |]; [|..|done|done].
  2:{ destruct Ha as [-> [s ->]]. split_and!; [done..|]. exists []. simpl. rewrite app_nil_r. by eauto. }
  destruct Ha as [s ->]. pose proof (auto_writes_owner fd [(buf, size)] copy rs0 o (World (w_trace w) s) (auto_write fd buf size)
    (or_introl (ex_intro _ buf (ex_intro _ size (conj eq_refl eq_refl)))) Hq Hok) as H.
  unfold wp in H. destruct (auto_write fd buf size ((o, World (w_trace w) s), Some copy)) as [[] [st2 p]|e [st2 p]| |]; [|..|done|done].
  - destruct H as [_ Hh]. exact Hh.
  - destruct H as (-> & Hp & tr & Htr & Hd & Hf). simpl in Hp, Htr, Hf. subst p. destruct st2 as [o2 w2]. simpl in Htr, Hf.
    split; [done|]. split; [done|]. exists (tr ++ [Finalize object_delete copy]). cbn [snd]. simpl. rewrite Htr, <-app_assoc. split; [done|].
    right. by rewrite delivered_app, fins_app, Hd.
Qed.
End Handover.
End Owner.

(** ** On a concrete environment

    The first call on the stream has the given answer. *)
Definition own_out (a : sysret) : @out (ready_os [a]) (epoll_kernel _) := @MkOut (ready_os [a]) (epoll_kernel _) 4 (replicate 6 xfer_new) [] 0.

Lemma own_queues a : queues (OS := ready_os [a]) 5 [] (own_out a).
Proof. split; [unfold in_range; simpl; lia|]. exists xfer_new. split; [done|]. split; [apply xfer_new_rep|done]. Qed.

(** Ten bytes with the object 77, whose deletion is the function 9: what was
    finalized, and how many bytes are queued. *)
Definition own_run (a : sysret) : option (list token * Z) :=
  match auto_write (OS := ready_os [a]) 9 5 1000 10 ((own_out a, World [] []), Some 77) with
  | Ret _ ((o, w), None) => Some (fins (delivered (w_trace w)), zlen (x_buf (default xfer_new (m_fdctx o !! 5%nat))))
  | _ => None
  end.

Lemma auto_write_hands_over_witness :
  own_run (SysOk 10 []) = Some ([TFin 9 77], 0) /\ own_run (SysErr EAGAIN) = Some ([], 40) /\ own_run (SysErr EBUSY) = Some ([], 0) /\
  Forall (fun m => wp m (fun _ st' => snd st' = None /\ handed (OS := ready_os [SysErr EAGAIN]) 9 5 77 [] (own_out _, World [] []) (fst st'))
      (fun e st' => e = BadAlloc /\ snd st' = Some 77 /\ kept (own_out _, World [] []) (fst st')) ((own_out _, World [] []), Some 77))
    [auto_write 9 5 1000 10; auto_writev 9 5 [(1000, 4); (2000, 6)]].
Proof.
  split; [by vm_compute|]. split; [by vm_compute|]. split; [by vm_compute|].
  apply (auto_write_hands_over (OS := ready_os [SysErr EAGAIN]) 9 ltac:(done) 5 1000 10 77 [(1000, 4); (2000, 6)] []
    (own_out (SysErr EAGAIN)) (World [] [])); [apply own_queues|].
  apply (bool_decide_unpack _). by vm_compute.
Defined.

Lemma shared_write_hands_over_witness :
  wp (shared_write 9 5 1000 10 77) (fun _ st' => handed (OS := ready_os [SysErr EAGAIN]) 9 5 77 [] (own_out _, World [] [true; false]) st')
    (fun e st' => e = BadAlloc /\ m_fdctx (fst st') = m_fdctx (own_out (SysErr EAGAIN)) /\ exists tr, w_trace (snd st') = [] ++ tr /\
       (tr = [] \/ fins (delivered tr) = [TFin 9 77])) (own_out (SysErr EAGAIN), World [] [true; false]).
Proof.
  apply (shared_write_hands_over (OS := ready_os [SysErr EAGAIN]) 9 ltac:(done) 5 1000 10 77 [] (own_out (SysErr EAGAIN)) (World [] [true; false]));
    [apply own_queues|]. apply (bool_decide_unpack _). by vm_compute.
Defined.
