(* ===== verification/Loop.v ===== *)
(** * The event loop (src/mpsrc/wavy_loop.cc, wavy_loop.h)

    [loop] is class loop_impl, with the ownership of the caller's
    [pthread_scoped_lock] as one more field.  The operations are state
    transformers on the loop and the world; the code that clients register
    (tasks and handlers) is a parameter.  [schedule] and the functions after it
    are the pieces of [thread_main] between two points where the mutex is
    acquired or released; LoopThreads composes them into the interleavings of
    any number of worker threads. *)

From Stdlib Require Import ZArith Lia.
From stdpp Require Import base tactics option list numbers gmap sets.
From S2P Require Import Prelude Os Pthread Xfer XferQueue Kernel Out.

Definition MP_WAVY_TASK_QUEUE_LIMIT : Z := 16.

(** class event_impl *)
Definition FLAG_REACTIVATED : Z := 1.
Definition FLAG_REMOVED : Z := 2.

Section Loop.
Context {OS : Os} {K : Kernel OS}.

Record loop := MkLoop {
  m_off : Z;
  m_num : Z;
  m_pollable : bool;
  m_backlog : list kevent;
  m_state : list (option Z);        (* shared_handler, by ident *)
  m_lkernel : kernel;
  m_task_queue : list Z;
  m_more_queue : list kevent;
  m_out : @out OS K;
  m_end_flag : bool;
  m_workers : Z;                    (* m_workers.size() *)
  lk_owns : bool                    (* the scoped lock of the running thread *)
}.

Record event_impl := EventImpl {
  m_flags : Z;
  m_pe : kevent
}.

Definition is_reactivated (e : event_impl) : bool := negb (Z.land (m_flags e) FLAG_REACTIVATED =? 0).
Definition is_removed (e : event_impl) : bool := negb (Z.land (m_flags e) FLAG_REMOVED =? 0).

Abbreviation lst := (loop * world)%type.

Definition get_loop : M lst loop := st ← get; mret (fst st).
Definition upd_loop (f : loop -> loop) : M lst unit := modify (fun st => (f (fst st), snd st)).
Definition in_world {A} (m : M world A) : M lst A := zoom snd (fun w st => (fst st, w)) m.

(** Field updates. *)
Definition set_pos off num (l : loop) : loop :=
  MkLoop off num (m_pollable l) (m_backlog l) (m_state l) (m_lkernel l) (m_task_queue l)
    (m_more_queue l) (m_out l) (m_end_flag l) (m_workers l) (lk_owns l).
Definition set_pollable b (l : loop) : loop :=
  MkLoop (m_off l) (m_num l) b (m_backlog l) (m_state l) (m_lkernel l) (m_task_queue l)
    (m_more_queue l) (m_out l) (m_end_flag l) (m_workers l) (lk_owns l).
Definition set_backlog es (l : loop) : loop :=
  MkLoop (m_off l) (m_num l) (m_pollable l) es (m_state l) (m_lkernel l) (m_task_queue l)
    (m_more_queue l) (m_out l) (m_end_flag l) (m_workers l) (lk_owns l).
Definition set_state s (l : loop) : loop :=
  MkLoop (m_off l) (m_num l) (m_pollable l) (m_backlog l) s (m_lkernel l) (m_task_queue l)
    (m_more_queue l) (m_out l) (m_end_flag l) (m_workers l) (lk_owns l).
Definition set_tasks q (l : loop) : loop :=
  MkLoop (m_off l) (m_num l) (m_pollable l) (m_backlog l) (m_state l) (m_lkernel l) q
    (m_more_queue l) (m_out l) (m_end_flag l) (m_workers l) (lk_owns l).
Definition set_more q (l : loop) : loop :=
  MkLoop (m_off l) (m_num l) (m_pollable l) (m_backlog l) (m_state l) (m_lkernel l) (m_task_queue l)
    q (m_out l) (m_end_flag l) (m_workers l) (lk_owns l).
Definition set_out o (l : loop) : loop :=
  MkLoop (m_off l) (m_num l) (m_pollable l) (m_backlog l) (m_state l) (m_lkernel l) (m_task_queue l)
    (m_more_queue l) o (m_end_flag l) (m_workers l) (lk_owns l).
Definition set_end b (l : loop) : loop :=
  MkLoop (m_off l) (m_num l) (m_pollable l) (m_backlog l) (m_state l) (m_lkernel l) (m_task_queue l)
    (m_more_queue l) (m_out l) b (m_workers l) (lk_owns l).
Definition set_workers n (l : loop) : loop :=
  MkLoop (m_off l) (m_num l) (m_pollable l) (m_backlog l) (m_state l) (m_lkernel l) (m_task_queue l)
    (m_more_queue l) (m_out l) (m_end_flag l) n (lk_owns l).
Definition set_lk b (l : loop) : loop :=
  MkLoop (m_off l) (m_num l) (m_pollable l) (m_backlog l) (m_state l) (m_lkernel l) (m_task_queue l)
    (m_more_queue l) (m_out l) (m_end_flag l) (m_workers l) b.

Definition on_m_out {A} (m : M (@out OS K * world) A) : M lst A :=
  zoom (fun st => (m_out (fst st), snd st)) (fun s st => (set_out (fst s) (fst st), snd s)) m.

(** ** Construction *)

Definition sizeof_shared_handler : Z := 16.

(** [m_state[ident] = sh]; past the array, undefined. *)
Definition set_handler (ident h : Z) : M lst unit :=
  l ← get_loop;
  if (0 <=? ident) && (ident <? zlen (m_state l))
  then upd_loop (set_state (<[Z.to_nat ident := Some h]> (m_state l)))
  else undef.

Definition reset_handler (ident : Z) : M lst unit :=
  l ← get_loop;
  if (0 <=? ident) && (ident <? zlen (m_state l))
  then upd_loop (set_state (<[Z.to_nat ident := None]> (m_state l)))
  else undef.

Definition out_ident (l : loop) : Z := kernel_ident (m_kernel (m_out l)).

(** The handler number of the [out] object itself. *)
Definition out_handler : Z := -1.

(** Running an operation on a loop that is being built. *)
Definition with_loop (m : M lst unit) (l : loop) : M world loop := fun w =>
  match m (l, w) with
  | Ret _ (l, w) => Ret l w
  | Throw e (_, w) => Throw e w
  | Undef => Undef
  | Diverge => Diverge
  end.

(** Members ([m_backlog] first), the handler table, the [out] object, which is
    registered in the table and in the kernel (whose answer is ignored). *)
Definition loop_new : M world loop :=
  ok ← can_alloc sizeof_backlog;
  if negb ok then throw BadAlloc else
  k ← kernel_new;
  catch
    (max ← kernel_max k;
     ok ← can_alloc (sizeof_shared_handler * max);
     if negb ok then throw BadAlloc else
     o ← out_new;
     let l := MkLoop 0 0 true [] (replicate (Z.to_nat max) None) k [] [] o false 0 false in
     l ← with_loop (set_handler (kernel_ident (m_kernel o)) out_handler) l;
     _ ← add_kernel k (m_kernel o);
     mret l)
    (fun e => _ ← kernel_delete k; throw e).

(** ** The mutex of the running thread *)

Definition lock : M lst unit := upd_loop (set_lk true).
Definition unlock : M lst unit := upd_loop (set_lk false).
Definition owns : M lst bool := l ← get_loop; mret (lk_owns l).

(** Touching the queues without the mutex is a data race, which C++ leaves undefined. *)
Definition guarded : M lst unit := b ← owns; if b : bool then mret tt else undef.

(** ** end, threads *)

Definition end_loop : M lst unit := upd_loop (set_end true).
Definition is_end : M lst bool := l ← get_loop; mret (m_end_flag l).
Definition is_running : M lst bool := l ← get_loop; mret (negb (m_workers l =? 0)).

(** The entry that was pushed is popped again when the thread cannot be started. *)
Fixpoint add_thread (num : nat) : M lst unit :=
  match num with
  | O => mret tt
  | S num =>
      l ← get_loop;
      _ ← upd_loop (set_workers (m_workers l + 1));
      _ ← catch (in_world thread_run) (fun e => _ ← upd_loop (set_workers (m_workers l)); throw e);
      add_thread num
  end.

Definition start (num : nat) : M lst unit :=
  _ ← lock;
  running ← is_running;
  _ ← (if running : bool then _ ← unlock; throw RuntimeError else catch (add_thread num)
         (fun e => _ ← unlock; throw e));
  unlock.

(** Threads are numbered in the order of [m_workers]. *)
Fixpoint join_all (workers : list Z) : M lst unit :=
  match workers with
  | [] => mret tt
  | t :: workers =>
      _ ← catch (_ ← in_world (thread_join t); mret tt)
            (fun e => if decide (e = PthreadError (errno_code EDEADLK))
                      then in_world (thread_detach t) else throw e);
      join_all workers
  end.

Definition workers_of (l : loop) : list Z := seqZ 0 (m_workers l).

Definition join : M lst unit :=
  l ← get_loop; _ ← join_all (workers_of l); upd_loop (set_workers 0).

Fixpoint detach_all (workers : list Z) : M lst unit :=
  match workers with
  | [] => mret tt
  | t :: workers => _ ← in_world (thread_detach t); detach_all workers
  end.

Definition detach : M lst unit := l ← get_loop; detach_all (workers_of l).

(** [loop::run(num)] *)
Definition run (num : nat) : M lst unit := _ ← start num; join.

(** [~loop_impl()]: [delete[]] goes from the last handler to the first; then the
    members.  [destroy] is what the destruction of a handler does; [out] is a member
    as well, and outlives the table. *)
Fixpoint destroy_handlers (destroy : Z -> M world unit) (state : list (option Z)) : M world unit :=
  match state with
  | [] => mret tt
  | h :: state =>
      _ ← destroy_handlers destroy state;
      match h with
      | Some h => if h =? out_handler then mret tt else destroy h
      | None => mret tt
      end
  end.

Definition loop_delete (destroy : Z -> M world unit) : M lst unit :=
  _ ← end_loop;
  _ ← join;
  l ← get_loop;
  _ ← in_world (destroy_handlers destroy (m_state l));
  _ ← in_world (out_delete (m_out l));
  in_world (kernel_delete (m_lkernel l)).

(** ** Tasks, handlers *)

Definition submit_impl (f : Z) : M lst unit :=
  l ← get_loop; upd_loop (set_tasks (m_task_queue l ++ [f])).

Definition add_handler_impl (fd h : Z) : M lst unit :=
  r ← in_world (syscall (SetNonblock fd));
  match r with
  | SysErr e => throw (SystemError (errno_code e))
  | SysOk _ _ =>
      _ ← set_handler fd h;
      l ← get_loop;
      _ ← in_world (add_fd (m_lkernel l) fd EVKERNEL_READ);
      mret tt
  end.

Definition remove_handler (fd : Z) : M lst unit :=
  _ ← reset_handler fd;
  l ← get_loop;
  _ ← in_world (remove_fd (m_lkernel l) fd EVKERNEL_READ);
  mret tt.

Definition event_more (ke : kevent) : M lst unit :=
  l ← get_loop; upd_loop (set_more (m_more_queue l ++ [ke])).

Definition event_next (ke : kevent) : M lst unit :=
  l ← get_loop; _ ← in_world (reactivate (m_lkernel l) ke); mret tt.

Definition event_remove (ke : kevent) : M lst unit :=
  l ← get_loop;
  _ ← in_world (remove (m_lkernel l) ke);
  reset_handler (event_ident ke).

(** class event: what a handler may do with the event it is given. *)
Definition more (self : event_impl) : M lst event_impl :=
  if negb (is_reactivated self)
  then _ ← event_more (m_pe self); mret (EventImpl (Z.lor (m_flags self) 1) (m_pe self))
  else mret self.

Definition next_event (self : event_impl) : M lst event_impl :=
  if negb (is_reactivated self)
  then _ ← event_next (m_pe self);
       mret (EventImpl (Z.lor (m_flags self) FLAG_REACTIVATED) (m_pe self))
  else mret self.

Definition remove_event (self : event_impl) : M lst event_impl :=
  if negb (is_removed self)
  then _ ← event_remove (m_pe self);
       mret (EventImpl (Z.lor (m_flags self) FLAG_REMOVED) (m_pe self))
  else mret self.

(** ** The pieces of thread_main *)

(** The first half of [do_task]: the front of the queue, and whether it was the
    last; the caller signals when it was not. *)
Definition pop_task : M lst (Z * bool) :=
  l ← get_loop;
  match m_task_queue l with
  | [] => undef
  | t :: q => _ ← upd_loop (set_tasks q); mret (t, bool_decide (q = []))
  end.

(** What a thread does next, after it released the mutex. *)
Inductive pc : Type :=
| PcLock                                  (* about to acquire the mutex *)
| PcWait                                  (* in m_cond.wait *)
| PcTask (t : Z) (last : bool)            (* in the task *)
| PcFlush                                 (* about to relock and broadcast m_flush_cond *)
| PcOut (ke : kevent)                     (* in m_out->write_event(ke) *)
| PcPoll                                  (* in m_kernel.wait *)
| PcPolled (num : Z)                      (* m_backlog holds [num] events; about to relock *)
| PcOutReady (ke : kevent)                (* about to reactivate m_out's own event *)
| PcFetch (ke : kevent)                   (* about to read m_state[ident] *)
| PcHandler (h : Z) (e : event_impl)      (* in the handler *)
| PcFinish (e : event_impl) (cont : bool) (* the handler returned, or threw *)
| PcReset (ident : Z)                     (* after m_kernel.remove(ke) *)
| PcExit                                  (* left the loop *)
| PcDead.                                 (* terminated by an exception *)

(** [process_handler], under the mutex: [out] polls its kernel. *)
Definition process_handler (ke : kevent) : M lst pc :=
  l ← get_loop;
  if event_ident ke =? out_ident l
  then catch (_ ← on_m_out poll_event; mret (PcOutReady ke)) (fun _ => mret PcDead)
  else mret (PcFetch ke).

(** [ke = m_backlog[m_off++]]; the backlog has room for 1024 events. *)
Definition next_backlog : M lst kevent :=
  l ← get_loop;
  match m_backlog l !! Z.to_nat (m_off l) with
  | Some ke => _ ← upd_loop (set_pos (m_off l + 1) (m_num l)); mret ke
  | None => undef
  end.

(** From [retry_task] to the next release of the mutex: where the thread goes,
    and whether [m_cond] was signalled. *)
Definition schedule : M lst (pc * bool) :=
  l ← get_loop;
  if m_end_flag l then mret (PcExit, false)
  else
    match m_more_queue l with
    | ke :: q => _ ← upd_loop (set_more q); p ← process_handler ke; mret (p, false)
    | [] =>
        if negb (m_pollable l) then
          if negb (bool_decide (m_queue (m_out l) = []))
          then ke ← on_m_out next; mret (PcOut ke, false)
          else if negb (bool_decide (m_task_queue l = []))
          then '(t, last) ← pop_task; mret (PcTask t last, negb last)
          else mret (PcWait, false)
        else if MP_WAVY_TASK_QUEUE_LIMIT <? zlen (m_task_queue l)
        then '(t, last) ← pop_task; mret (PcTask t last, negb last)
        else if m_num l =? m_off l
        then _ ← upd_loop (set_pollable false); mret (PcPoll, false)
        else ke ← next_backlog; p ← process_handler ke; mret (p, false)
    end.

(** The second half of [do_task]: only the thread that emptied the queue relocks. *)
Definition task_done (last : bool) : pc := if last then PcFlush else PcLock.

(** [do_out] after the mutex is released. *)
Definition out_event (ke : kevent) : M lst pc :=
  done ← on_m_out (write_event ke);
  mret (if done : bool then PcFlush else PcLock).

(** [retry_poll]: one turn of [m_kernel.wait(&m_backlog, 1000)]. *)
Definition poll_once : M lst pc :=
  l ← get_loop;
  r ← in_world (wait (m_lkernel l) 1000);
  match r with
  | inr [] =>
      l ← get_loop;
      if m_end_flag l then _ ← upd_loop (set_pollable true); mret PcExit else mret PcPoll
  | inl e =>
      if would_retry e then
        l ← get_loop;
        if m_end_flag l then _ ← upd_loop (set_pollable true); mret PcExit else mret PcPoll
      else mret PcDead
  | inr es => _ ← upd_loop (set_backlog es); mret (PcPolled (zlen es))
  end.

(** [lk.relock] after the poll: the events are published, a waiter is signalled,
    and this thread takes the first event without releasing the mutex. *)
Definition polled (num : Z) : M lst pc :=
  _ ← upd_loop (set_pos 0 num);
  _ ← upd_loop (set_pollable true);
  ke ← next_backlog;
  process_handler ke.

(** [m_kernel.reactivate(ke)] of [out]'s own event. *)
Definition out_ready (ke : kevent) : M lst pc :=
  l ← get_loop; _ ← in_world (reactivate (m_lkernel l) ke); mret PcLock.

(** [h = m_state[ident]]: without a handler, the event is not continued. *)
Definition fetch (ke : kevent) : M lst pc :=
  l ← get_loop;
  let ident := event_ident ke in
  if (0 <=? ident) && (ident <? zlen (m_state l)) then
    match m_state l !! Z.to_nat ident with
    | Some (Some h) => mret (PcHandler h (EventImpl 0 ke))
    | _ => mret (PcFinish (EventImpl 0 ke) false)
    end
  else undef.

(** After the handler. *)
Definition finish (e : event_impl) (cont : bool) : M lst pc :=
  if is_reactivated e then mret PcLock
  else if is_removed e then mret PcLock
  else
    l ← get_loop;
    if negb cont then
      _ ← in_world (remove (m_lkernel l) (m_pe e)); mret (PcReset (event_ident (m_pe e)))
    else
      _ ← in_world (reactivate (m_lkernel l) (m_pe e)); mret PcLock.

Definition reset (ident : Z) : M lst pc := _ ← reset_handler ident; mret PcLock.

(** ** run_once, flush: the loop run by its client's own thread

    [call_task] and [call_handler] are the client's functions; a handler has the
    event, whose flags are kept whether it returns or throws. *)
Section Once.
Variable call_task : Z -> M lst unit.
Variable call_handler : Z -> M (lst * event_impl) bool.

(** The event is a local variable of the caller. *)
Definition with_event {A} (e : event_impl) (m : M (lst * event_impl) A) : M lst (A * event_impl) := fun st =>
  match m (st, e) with
  | Ret a (st', e') => Ret (a, e') st'
  | Throw x (st', _) => Throw x st'
  | Undef => Undef
  | Diverge => Diverge
  end.

Definition do_task : M lst unit :=
  _ ← guarded;
  '(t, last) ← pop_task;
  _ ← unlock;
  _ ← catch (call_task t) (fun _ => mret tt);
  if last : bool then lock else mret tt.

Definition do_out : M lst unit :=
  _ ← guarded;
  ke ← on_m_out next;
  _ ← unlock;
  done ← on_m_out (write_event ke);
  if done : bool then lock else mret tt.

(** [do_queue]; the wait on [m_cond] comes back with the mutex. *)
Definition do_queue (block : bool) : M lst unit :=
  _ ← guarded;
  l ← get_loop;
  if negb (bool_decide (m_queue (m_out l) = [])) then do_out
  else if negb (bool_decide (m_task_queue l = [])) then do_task
  else mret tt.

(** The handler part of run_once. *)
Definition run_handler (ke : kevent) : M lst unit :=
  p ← fetch ke;
  '(e, cont) ←
    (match p with
     | PcHandler h e =>
         '(cont, e) ← with_event e (catch (call_handler h) (fun _ => mret false)); mret (e, cont)
     | PcFinish e cont => mret (e, cont)
     | _ => undef
     end);
  p ← finish e cont;
  match p with PcReset ident => reset_handler ident | _ => mret tt end.

Definition once_handler (ke : kevent) : M lst unit :=
  l ← get_loop;
  if event_ident ke =? out_ident l then
    _ ← on_m_out poll_event;
    _ ← unlock;
    _ ← in_world (reactivate (m_lkernel l) ke);
    mret tt
  else
    _ ← unlock;
    run_handler ke.

Definition run_once (block : bool) : M lst unit :=
  l ← get_loop;
  if m_end_flag l then mret tt
  else
    match m_more_queue l with
    | ke :: q => _ ← guarded; _ ← upd_loop (set_more q); once_handler ke
    | [] =>
        if negb (m_pollable l) then do_queue block
        else if negb (bool_decide (m_task_queue l = [])) then do_task
        else if negb (bool_decide (m_queue (m_out l) = [])) then do_out
        else if m_num l =? m_off l then
          _ ← upd_loop (set_pollable false);
          _ ← unlock;
          r ← in_world (wait (m_lkernel l) (if block then 1000 else 0));
          match r with
          | inl e =>
              if would_retry e then
                _ ← upd_loop (set_pollable true);
                if block then mret tt else do_queue block
              else throw (SystemError (errno_code e))
          | inr [] =>
              _ ← upd_loop (set_pollable true);
              if block then mret tt else do_queue block
          | inr es =>
              _ ← upd_loop (set_backlog es);
              _ ← lock;
              _ ← upd_loop (set_pos 0 (zlen es));
              _ ← upd_loop (set_pollable true);
              ke ← next_backlog;
              once_handler ke
          end
        else ke ← next_backlog; once_handler ke
    end.

(** [loop::run_once()], [loop::run_nonblock()]: the scoped lock is released on return. *)
Definition run_once_locked (block : bool) : M lst unit :=
  _ ← lock; _ ← catch (run_once block) (fun e => _ ← unlock; throw e); unlock.

(** The loop of [flush()] when there are no worker threads; with workers it waits on
    [m_flush_cond] for the same condition (FlushWait). *)
Fixpoint flush_loop (fuel : nat) : M lst unit :=
  match fuel with
  | O => diverge
  | S fuel =>
      l ← get_loop;
      if (m_watching (m_out l) =? 0) && bool_decide (m_task_queue l = []) then mret tt
      else
        _ ← run_once true;
        b ← owns;
        _ ← (if negb b then lock else mret tt);
        flush_loop fuel
  end.

(** [flush()]: the scoped lock is released on return and by an exception. *)
Definition flush (fuel : nat) : M lst unit :=
  _ ← lock;
  _ ← catch (flush_loop fuel) (fun e => _ ← unlock; throw e);
  unlock.
End Once.
End Loop.

(** ** Reasoning about the operations *)

Section Rules.
Context {OS : Os} {K : Kernel OS}.

Abbreviation lst := (loop * world)%type.

Lemma wp_get_loop (st : lst) (Q : loop -> lst -> Prop) E : Q (fst st) st -> wp get_loop Q E st.
Proof. done. Qed.

Lemma wp_upd_loop f (st : lst) (Q : unit -> lst -> Prop) E :
  Q tt (f (fst st), snd st) -> wp (upd_loop f) Q E st.
Proof. done. Qed.

Lemma wp_in_world {A} (m : M world A) (st : lst) (Q : A -> lst -> Prop) E :
  wp m (fun a w => Q a (fst st, w)) (fun e w => E e (fst st, w)) (snd st) -> wp (in_world m) Q E st.
Proof. intros H. by apply wp_zoom. Qed.

Lemma wp_on_m_out {A} (m : M (out * world) A) (st : lst) (Q : A -> lst -> Prop) E :
  wp m (fun a s => Q a (set_out (fst s) (fst st), snd s)) (fun e s => E e (set_out (fst s) (fst st), snd s))
    (m_out (fst st), snd st) -> wp (on_m_out m) Q E st.
Proof. intros H. by apply wp_zoom. Qed.

(** The handler table has an entry for [ident]. *)
Definition table_range (l : loop) (fd : Z) : Prop := 0 <= fd < zlen (m_state l).

Lemma set_handler_run ident h l w :
  table_range l ident ->
  set_handler ident h (l, w) = Ret tt (set_state (<[Z.to_nat ident := Some h]> (m_state l)) l, w).
Proof.
  intros Hr. unfold table_range in Hr. unfold set_handler, get_loop, mbind, M_bind, get, mret, M_ret. simpl.
  destruct (Z.leb_spec 0 ident), (Z.ltb_spec ident (zlen (m_state l))); [done|lia..].
Qed.

Lemma reset_handler_run ident l w :
  table_range l ident ->
  reset_handler ident (l, w) = Ret tt (set_state (<[Z.to_nat ident := None]> (m_state l)) l, w).
Proof.
  intros Hr. unfold table_range in Hr. unfold reset_handler, get_loop, mbind, M_bind, get, mret, M_ret. simpl.
  destruct (Z.leb_spec 0 ident), (Z.ltb_spec ident (zlen (m_state l))); [done|lia..].
Qed.
End Rules.

(** One step through an operation of the loop. *)
Ltac loop_step :=
  lazymatch goal with
  | |- wp get_loop _ _ _ => apply wp_get_loop
  | |- wp (upd_loop _) _ _ _ => apply wp_upd_loop
  | |- wp (in_world _) _ _ _ => apply wp_in_world
  | |- wp (on_m_out _) _ _ _ => apply wp_on_m_out
  | |- _ => wp_step
  end; simpl.

(** A loop with room for eight handlers, for runs on concrete environments. *)
Definition empty_loop {OS : Os} {K : Kernel OS} (k k_out : kernel) : loop :=
  MkLoop 0 0 true [] (replicate 8 None) k [] [] (MkOut k_out [] [] 0) false 0 false.
