(* ===== verification/LoopThreads.v ===== *)
(** * The worker threads of the loop

    A configuration is the loop, the world and the control point of every
    worker.  A step is one piece of [thread_main] by one worker, one action of
    a handler on its event, or something done by a task, a handler or another
    thread: submit, add or remove a handler, write, end the loop, start another
    worker.  [reach] interleaves them in any order. *)

From Stdlib Require Import ZArith Lia.
From stdpp Require Import base tactics option list numbers gmap sets list_tactics.
From S2P Require Import Prelude Os Xfer XferQueue Kernel KernelEpoll Out OutProps OutFrame Loop.

Section Threads.
Context {OS : Os} {K : Kernel OS}.

Abbreviation lst := (loop * world)%type.

(** ** Steps *)

(** The code of a thread at a control point, up to the next one, and whether it
    signals [m_cond].  A task runs by the other steps; a wait may end at any
    time (POSIX allows spurious wakeups). *)
Definition thread_code (p : pc) : M lst (pc * bool) :=
  match p with
  | PcLock => schedule
  | PcWait => mret (PcLock, false)
  | PcTask t last => mret (task_done last, false)
  | PcFlush => mret (PcLock, false)
  | PcOut ke => p ← out_event ke; mret (p, false)
  | PcPoll => p ← poll_once; mret (p, false)
  | PcPolled num => p ← polled num; mret (p, true)
  | PcOutReady ke => p ← out_ready ke; mret (p, false)
  | PcFetch ke => p ← fetch ke; mret (p, false)
  | PcHandler h e => mret (PcHandler h e, false)
  | PcFinish e cont => p ← finish e cont; mret (p, false)
  | PcReset ident => p ← reset ident; mret (p, false)
  | PcExit => mret (PcExit, false)
  | PcDead => mret (PcDead, false)
  end.

(** What a handler does with its event; [more] signals when it queues it. *)
Inductive action : Type := ActMore | ActNext | ActRemove.

Definition run_action (a : action) (e : event_impl) : M lst (event_impl * bool) :=
  match a with
  | ActMore => e' ← more e; mret (e', negb (is_reactivated e))
  | ActNext => e' ← next_event e; mret (e', false)
  | ActRemove => e' ← remove_event e; mret (e', false)
  end.

Definition is_wait (p : pc) : bool := match p with PcWait => true | _ => false end.

(** [m_cond.signal()] wakes one of the waiters, if there is one. *)
Inductive signal (ts : list pc) : list pc -> Prop :=
| signal_one j : ts !! j = Some PcWait -> signal ts (<[j := PcLock]> ts)
| signal_none : Forall (fun p => is_wait p = false) ts -> signal ts ts.

Definition signalled (b : bool) (ts ts' : list pc) : Prop := if b then signal ts ts' else ts' = ts.

Definition broadcast (ts : list pc) : list pc := (fun p => if is_wait p then PcLock else p) <$> ts.

Definition task_of (p : pc) : list Z := match p with PcTask t _ => [t] | _ => [] end.

(** The task a thread takes when it goes from [p] to [p']. *)
Definition taken (p p' : pc) : list Z := match p with PcLock => task_of p' | _ => [] end.

(** Events that threads took from [out]'s queue. *)
Definition hand_of (p : pc) : option kevent := match p with PcOut ke => Some ke | _ => None end.
Definition hands (ts : list pc) : list kevent := omap hand_of ts.

(** The event a thread has taken and not handed on. *)
Definition held (p : pc) : list kevent :=
  match p with
  | PcOutReady ke | PcFetch ke => [ke]
  | PcHandler _ e | PcFinish e _ => if is_reactivated e || is_removed e then [] else [m_pe e]
  | _ => []
  end.

Definition polling (p : pc) : bool := match p with PcPoll | PcPolled _ => true | _ => false end.

Definition is_polled (p : pc) : bool := match p with PcPolled _ => true | _ => false end.

(** Neither waiting nor polling nor gone. *)
Definition active (p : pc) : bool :=
  match p with PcWait | PcPoll | PcPolled _ | PcExit | PcDead => false | _ => true end.

(** The events of the last poll that nobody took yet. *)
Definition unread (l : loop) (ts : list pc) : list kevent :=
  if m_pollable l then drop (Z.to_nat (m_off l)) (m_backlog l)
  else if 0 <? countb is_polled ts then m_backlog l else [].

(** Every event that has been reported and neither been handed back to the
    kernel nor been removed. *)
Definition events (l : loop) (ts : list pc) : list kevent :=
  unread l ts ++ m_more_queue l ++ concat (held <$> ts).

Record conf := Conf {
  c_st : lst;
  c_ts : list pc;
  c_submitted : list Z;
  c_started : list Z
}.

Definition alive (ts : list pc) : Prop := forall p, p ∈ ts -> p <> PcDead.

Definition is_handler (p : pc) : bool := match p with PcHandler _ _ => true | _ => false end.

(** An operation on the output of a descriptor, as anyone may call it. *)
Definition writes (op : out_op) : bool :=
  match op with OpWrite _ _ _ | OpRaw _ _ | OpCommit _ _ _ => true | _ => false end.

Definition run_output (op : out_op) : M lst unit :=
  match op with
  | OpWrite fd buf size => on_m_out (write fd buf size)
  | OpRaw fd rs => on_m_out (commit_raw fd (encode_all rs))
  | OpCommit fd xf _ =>
      zoom (fun st => ((m_out (fst st), snd st), xf))
           (fun t st => (Loop.set_out (fst (fst t)) (fst st), snd (fst t))) (commit fd)
  | _ => mret tt
  end.

Section Steps.
Context {L : KernelLaws K}.

(** A descriptor for which there is neither a registration nor an event. *)
Definition fresh_fd (c : conf) (fd : Z) : Prop :=
  let l := fst (c_st c) in
  (fd ∉ event_ident <$> events l (c_ts c)) /\ (fd ∉ armed (m_lkernel l) (w_trace (snd (c_st c)))).

(** What the clients see to: a handler does not hand on an event it removed,
    handlers are added for new descriptors, descriptors are within the table. *)
Inductive step : conf -> conf -> Prop :=
| step_thread st ts sub sta i p p' b st' ts' :
    alive ts -> ts !! i = Some p -> is_handler p = false ->
    thread_code p st = Ret (p', b) st' -> signalled b (<[i := p']> ts) ts' ->
    step (Conf st ts sub sta) (Conf st' ts' sub (sta ++ taken p p'))
| step_action st ts sub sta i h e a e' b st' ts' :
    alive ts -> ts !! i = Some (PcHandler h e) ->
    (is_removed e = true -> a = ActRemove) ->
    run_action a e st = Ret (e', b) st' -> signalled b (<[i := PcHandler h e']> ts) ts' ->
    step (Conf st ts sub sta) (Conf st' ts' sub sta)
| step_return st ts sub sta i h e cont :
    alive ts -> ts !! i = Some (PcHandler h e) ->
    step (Conf st ts sub sta) (Conf st (<[i := PcFinish e cont]> ts) sub sta)
| step_submit st ts sub sta f st' ts' :
    alive ts -> submit_impl f st = Ret tt st' -> signal ts ts' ->
    step (Conf st ts sub sta) (Conf st' ts' (sub ++ [f]) sta)
| step_add_handler st ts sub sta fd h st' :
    alive ts -> fresh_fd (Conf st ts sub sta) fd -> table_range (fst st) fd ->
    add_handler_impl fd h st = Ret tt st' \/ (exists e, add_handler_impl fd h st = Throw e st') ->
    step (Conf st ts sub sta) (Conf st' ts sub sta)
| step_remove_handler st ts sub sta fd st' :
    alive ts -> table_range (fst st) fd -> remove_handler fd st = Ret tt st' ->
    step (Conf st ts sub sta) (Conf st' ts sub sta)
| step_end st ts sub sta st' :
    alive ts -> end_loop st = Ret tt st' ->
    step (Conf st ts sub sta) (Conf st' (broadcast ts) sub sta)
| step_add_thread st ts sub sta st' :
    alive ts -> add_thread 1 st = Ret tt st' ->
    step (Conf st ts sub sta) (Conf st' (ts ++ [PcLock]) sub sta)
| step_add_thread_fails st ts sub sta st' e :
    alive ts -> add_thread 1 st = Throw e st' ->
    step (Conf st ts sub sta) (Conf st' ts sub sta)
| step_output st ts sub sta op st' :
    alive ts -> writes op = true ->
    contract ((m_out (fst st), snd st), hands ts) op ->
    run_output op st = Ret tt st' \/ (exists e, run_output op st = Throw e st') ->
    step (Conf st ts sub sta) (Conf st' ts sub sta).

(** The loop as its constructor leaves it, without workers. *)
Definition initial (c : conf) : Prop :=
  let l := fst (c_st c) in let w := snd (c_st c) in
  c_ts c = [] /\ c_submitted c = [] /\ c_started c = [] /\
  m_off l = 0 /\ m_num l = 0 /\ m_backlog l = [] /\ m_pollable l = true /\
  m_task_queue l = [] /\ m_more_queue l = [] /\ m_end_flag l = false /\
  kernel_ident (m_lkernel l) <> kernel_ident (m_kernel (m_out l)) /\
  kernel_wf (m_lkernel l) EVKERNEL_READ (w_trace w) /\
  armed (m_lkernel l) (w_trace w) ⊆ {[out_ident l]} /\ table_range l (out_ident l) /\
  good (m_out l, w) [] (fun _ => []).

Inductive reach : conf -> Prop :=
| reach_init c : initial c -> reach c
| reach_step c c' : reach c -> step c c' -> reach c'.
End Steps.

(** ** The invariant: events *)

Section Tokens.
Context {L : KernelLaws K}.

(** The events [T] and the registrations of [k] are for different idents, all in
    the handler table. *)
Record tok_ok (k : kernel) (tr : trace) (n : Z) (T : list kevent) : Prop := {
  to_wf : kernel_wf k EVKERNEL_READ tr;
  to_events : Forall (event_ok EVKERNEL_READ) T;
  to_nodup : NoDup (event_ident <$> T);
  to_disjoint : list_to_set (event_ident <$> T) ## armed k tr;
  to_range id : id ∈ event_ident <$> T \/ id ∈ armed k tr -> 0 <= id < n
}.

Lemma tok_perm k tr n T T' : T ≡ₚ T' -> tok_ok k tr n T -> tok_ok k tr n T'.
Proof.
  intros Hp [Hwf He Hn Hd Hr]. split; [done|by rewrite <-Hp|by rewrite <-Hp| |].
  - intros id Hid%elem_of_list_to_set. apply Hd, elem_of_list_to_set. by rewrite Hp.
  - intros id. rewrite <-Hp. apply Hr.
Qed.

(** Registrations shrink. *)
Lemma tok_shrink k tr tr' n T :
  tok_ok k tr n T -> kernel_wf k EVKERNEL_READ tr' -> armed k tr' ⊆ armed k tr -> tok_ok k tr' n T.
Proof.
  intros [Hwf He Hn Hd Hr] Hwf' Hsub. split; [done..|set_solver|].
  intros id [?|Hid]; apply Hr; [by left|right; by apply Hsub].
Qed.

(** An event is dropped. *)
Lemma tok_drop k tr n e T : tok_ok k tr n (e :: T) -> tok_ok k tr n T.
Proof.
  intros [Hwf He Hn Hd Hr]. rewrite fmap_cons in *. split; [done|by apply Forall_inv_tail in He|
    by apply NoDup_cons_1_2 in Hn|set_solver|].
  intros id [?|?]; apply Hr; [left; by apply elem_of_cons; right|by right].
Qed.

Lemma tok_drops k tr n es T : tok_ok k tr n (es ++ T) -> tok_ok k tr n T.
Proof. induction es as [|e es IH]; [done|]. intros H. by apply IH, (tok_drop _ _ _ e). Qed.

(** An ident without an event is registered. *)
Lemma tok_arm k tr tr' n fd T :
  tok_ok k tr n T -> kernel_wf k EVKERNEL_READ tr' -> armed k tr' ⊆ {[fd]} ∪ armed k tr ->
  (fd ∉ event_ident <$> T) -> 0 <= fd < n -> tok_ok k tr' n T.
Proof.
  intros [Hwf He Hn Hd Hr] Hwf' Hsub Hfd Hrange. split; [done..| |].
  - assert (fd ∉ (list_to_set (event_ident <$> T) : gset Z)) by (by rewrite elem_of_list_to_set).
    set_solver.
  - intros id [?|Hid]; [apply Hr; by left|].
    apply Hsub, elem_of_union in Hid as [->%elem_of_singleton|?]; [done|]. apply Hr. by right.
Qed.

(** An event is handed back to the kernel. *)
Lemma tok_rearm k tr tr' n e T :
  tok_ok k tr n (e :: T) -> kernel_wf k EVKERNEL_READ tr' -> armed k tr' ⊆ {[event_ident e]} ∪ armed k tr ->
  tok_ok k tr' n T.
Proof.
  intros H Hwf' Hsub. eapply (tok_arm _ tr); [by eapply tok_drop|done|done| |].
  - pose proof (to_nodup _ _ _ _ H) as Hn. rewrite fmap_cons in Hn. by apply NoDup_cons_1_1 in Hn.
  - apply (to_range _ _ _ _ H). left. rewrite fmap_cons. by apply elem_of_cons; left.
Qed.

(** The kernel reports events. *)
Lemma tok_report k tr tr' n es T :
  tok_ok k tr n T -> kernel_wf k EVKERNEL_READ tr' -> Forall (event_ok EVKERNEL_READ) es -> NoDup (event_ident <$> es) ->
  list_to_set (event_ident <$> es) ⊆ armed k tr ->
  armed k tr' = armed k tr ∖ list_to_set (event_ident <$> es) -> tok_ok k tr' n (es ++ T).
Proof.
  intros [Hwf He Hn Hd Hr] Hwf' Hes Hnd Hsub Harm.
  assert (forall x, x ∈ event_ident <$> es -> x ∈ armed k tr) as Hin.
  { intros x Hx. by apply Hsub, elem_of_list_to_set. }
  split; rewrite ?fmap_app, ?Harm; [done|by apply Forall_app| | |].
  - apply list.NoDup_app. split_and!; [done| |done].
    intros x Hx Hx'. apply (Hd x); [by apply elem_of_list_to_set|by apply Hin].
  - intros x. rewrite elem_of_list_to_set, elem_of_app, elem_of_difference.
    intros [Hx|Hx] [Hx' Hn']; [by apply Hn', elem_of_list_to_set|].
    apply (Hd x); [by apply elem_of_list_to_set|done].
  - intros id. rewrite elem_of_app, elem_of_difference. intros [[?|?]|[? _]]; apply Hr; [|by left|by right].
    right. by apply Hin.
Qed.
End Tokens.

(** ** One thread moves *)

Lemma held_split ts i p :
  ts !! i = Some p -> exists R, concat (held <$> ts) ≡ₚ held p ++ R /\
    forall p', concat (held <$> <[i := p']> ts) ≡ₚ held p' ++ R.
Proof.
  intros Hi. exists (concat (delete i (held <$> ts))).
  assert ((held <$> ts) !! i = Some (held p)) as Hi' by (by rewrite list_lookup_fmap, Hi).
  split; [by apply concat_lookup|]. intros p'. rewrite list_fmap_insert.
  apply concat_insert. by eapply lookup_lt_Some.
Qed.

Lemma hands_split ts i p :
  ts !! i = Some p -> exists R, hands ts ≡ₚ option_list (hand_of p) ++ R /\
    forall p', hands (<[i := p']> ts) ≡ₚ option_list (hand_of p') ++ R.
Proof.
  intros Hi. exists (omap hand_of (delete i ts)). split; [by apply omap_lookup_perm|].
  intros p'. apply omap_insert_perm. by eapply lookup_lt_Some.
Qed.

Lemma countb_same {A} (f : A -> bool) l i x y :
  l !! i = Some x -> f x = f y -> countb f (<[i := y]> l) = countb f l.
Proof. intros Hi Hf. rewrite (countb_insert f l i x y Hi), Hf. destruct (f y); lia. Qed.

(** What a signal leaves as it is, and what it improves. *)
Lemma signal_view ts ts' :
  signal ts ts' ->
  held <$> ts' = held <$> ts /\ hands ts' ≡ₚ hands ts /\ countb polling ts' = countb polling ts /\
  countb is_polled ts' = countb is_polled ts /\ length ts' = length ts /\
  (forall p, p ∈ ts' -> p = PcLock \/ p ∈ ts) /\
  countb active ts <= countb active ts' /\
  (countb is_wait ts = 0 \/ countb active ts + 1 <= countb active ts').
Proof.
  intros [j Hj|Hn].
  - split_and!.
    + rewrite list_fmap_insert, list_insert_id; [done|]. by rewrite list_lookup_fmap, Hj.
    + destruct (hands_split ts j PcWait Hj) as (R & HR & HR'). by rewrite (HR' PcLock), HR.
    + by eapply countb_same.
    + by eapply countb_same.
    + by rewrite length_insert.
    + intros p Hp. apply list_elem_of_lookup_1 in Hp as [j' Hj'].
      destruct (decide (j' = j)) as [->|Hne].
      * rewrite list_lookup_insert_eq in Hj' by (by eapply lookup_lt_Some). left. congruence.
      * rewrite list_lookup_insert_ne in Hj' by done. right. by eapply list_elem_of_lookup_2.
    + rewrite (countb_insert active ts j PcWait PcLock Hj). simpl. lia.
    + right. rewrite (countb_insert active ts j PcWait PcLock Hj). simpl. lia.
  - split_and!; try done; [by intros p ?; right|left].
    unfold countb. induction Hn as [|p ts Hp _ IH]; [done|]. rewrite filter_cons_False; [done|by rewrite Hp].
Qed.

Lemma elem_insert {A} (l : list A) i x y : y ∈ <[i := x]> l -> y = x \/ y ∈ l.
Proof.
  intros Hy. apply list_elem_of_lookup_1 in Hy as [j Hj].
  apply list_lookup_insert_Some in Hj as [(-> & <- & _)|[_ Hj]]; [by left|right].
  by eapply list_elem_of_lookup_2.
Qed.

(** *** The core of the invariant *)

Section Core.
Context {L : KernelLaws K}.

(** The event of a handler, and the ident to reset, are within the table. *)
Definition pc_ok (l : loop) (p : pc) : Prop :=
  match p with
  | PcHandler _ e | PcFinish e _ => table_range l (event_ident (m_pe e)) /\ event_ok EVKERNEL_READ (m_pe e)
  | PcReset ident => table_range l ident
  | PcPolled num => num = zlen (m_backlog l) /\ 0 < num
  | _ => True
  end.

(** [X] are events that the thread holding the mutex has just taken. *)
Record core (X : list kevent) (l : loop) (w : world) (ts : list pc) : Prop := {
  co_kernels : kernel_ident (m_lkernel l) <> kernel_ident (m_kernel (m_out l));
  co_out : exists acc, good (m_out l, w) (hands ts) acc;
  co_poll : countb polling ts = if m_pollable l then 0 else 1;
  co_pos : countb is_polled ts = 0 -> 0 <= m_off l <= m_num l /\ m_num l = zlen (m_backlog l);
  co_done : m_pollable l = false -> m_off l = m_num l;
  co_tokens : tok_ok (m_lkernel l) (w_trace w) (zlen (m_state l)) (X ++ events l ts);
  co_pcs p : p ∈ ts -> pc_ok l p
}.

(** What most steps leave alone. *)
Definition same_shape (l l' : loop) : Prop :=
  m_lkernel l' = m_lkernel l /\ m_kernel (m_out l') = m_kernel (m_out l) /\
  m_pollable l' = m_pollable l /\ m_off l' = m_off l /\ m_num l' = m_num l /\
  m_backlog l' = m_backlog l /\ length (m_state l') = length (m_state l).

Lemma pc_ok_shape l l' p : same_shape l l' -> pc_ok l p -> pc_ok l' p.
Proof.
  intros (_ & _ & _ & _ & _ & Hb & Hs). unfold pc_ok, table_range. rewrite Hb, Hs. by destruct p.
Qed.

Lemma is_polled_polling p : polling p = false -> is_polled p = false.
Proof. by destruct p. Qed.

Lemma core_step X X' l l' w w' ts i p p' :
  core X l w ts -> ts !! i = Some p -> polling p = false -> polling p' = false ->
  same_shape l l' ->
  (exists acc, good (m_out l', w') (hands (<[i := p']> ts)) acc) ->
  (forall R, tok_ok (m_lkernel l) (w_trace w) (zlen (m_state l)) (X ++ m_more_queue l ++ held p ++ R) ->
     tok_ok (m_lkernel l) (w_trace w') (zlen (m_state l)) (X' ++ m_more_queue l' ++ held p' ++ R)) ->
  pc_ok l' p' -> core X' l' w' (<[i := p']> ts).
Proof.
  intros [Hk Ho Hp Hpos Hdone Ht Hpcs] Hi Hpp Hpp' Hsh Ho' Htok Hok.
  pose proof Hsh as (E1 & E2 & E3 & E4 & E5 & E6 & E7).
  assert (countb is_polled (<[i := p']> ts) = countb is_polled ts) as Hcp.
  { apply (countb_same is_polled ts i p p' Hi). by rewrite !is_polled_polling. }
  split.
  - by rewrite E1, E2.
  - done.
  - rewrite E3, <-Hp. eapply countb_same; [done|congruence].
  - by rewrite Hcp, E4, E5, E6.
  - by rewrite E3, E4, E5.
  - destruct (held_split ts i p Hi) as (R & HR & HR'). rewrite E1, E7.
    assert (unread l' (<[i := p']> ts) = unread l ts) as Hun.
    { unfold unread. by rewrite E3, E4, E6, Hcp. }
    eapply tok_perm; [|apply (Htok (unread l ts ++ R)); eapply tok_perm; [|exact Ht]];
      unfold events; rewrite ?Hun, ?HR, ?(HR' p'); solve_Permutation.
  - intros q Hq. apply elem_insert in Hq as [->|Hq]; [done|]. eapply pc_ok_shape; [done|by apply Hpcs].
Qed.
End Core.
End Threads.
