(* ===== verification/LoopCore.v ===== *)
(** * One worker's step

    Every piece of [thread_main] keeps the invariant [core] of LoopThreads, has
    no undefined behaviour, and moves the worker as the scheduler described by
    [sched_step] may: an abstract machine that knows only whether the kernel is
    being polled, the task queue and whether the loop was ended. *)

From Stdlib Require Import ZArith Lia.
From stdpp Require Import base tactics option list numbers gmap sets list_tactics.
From S2P Require Import Prelude Os Xfer XferQueue Kernel KernelEpoll Out OutProps OutFrame Loop LoopThreads.

(** ** The scheduler *)

Section Scheduler.
Context {OS : Os} {K : Kernel OS}.

Record kept (l l' : loop) : Prop := {
  kp_end : m_end_flag l' = m_end_flag l;
  kp_pollable : m_pollable l' = m_pollable l;
  kp_tasks : m_task_queue l' = m_task_queue l
}.

Definition no_work (l : loop) : Prop :=
  m_task_queue l = [] /\ m_more_queue l = [] /\ m_queue (m_out l) = [].

(** Where one piece of code takes a worker, and whether it signals [m_cond]. *)
Inductive sched_step : pc -> loop -> pc -> loop -> bool -> Prop :=
| ss_work p l p' l' b :               (* from work to work *)
    active p = true -> active p' = true -> task_of p' = [] -> hand_of p' = None ->
    kept l l' -> sched_step p l p' l' b
| ss_task l t last l' :               (* take a task, and wake another worker for the next *)
    m_pollable l = false \/ MP_WAVY_TASK_QUEUE_LIMIT < zlen (m_task_queue l) ->
    m_task_queue l = t :: m_task_queue l' -> last = bool_decide (m_task_queue l' = []) ->
    m_end_flag l' = m_end_flag l -> m_pollable l' = m_pollable l ->
    sched_step PcLock l (PcTask t last) l' (negb last)
| ss_out l ke l' :                    (* take a polled output event *)
    m_pollable l = false -> kept l l' -> sched_step PcLock l (PcOut ke) l' false
| ss_wait l :                         (* nothing to do while another worker polls *)
    m_pollable l = false -> no_work l -> sched_step PcLock l PcWait l false
| ss_poll l l' :                      (* start to poll *)
    m_pollable l = true -> m_pollable l' = false ->
    m_end_flag l' = m_end_flag l -> m_task_queue l' = m_task_queue l ->
    sched_step PcLock l PcPoll l' false
| ss_exit l : m_end_flag l = true -> sched_step PcLock l PcExit l false
| ss_wake l : sched_step PcWait l PcLock l false
| ss_reported l n l' : kept l l' -> (no_work l -> no_work l') -> sched_step PcPoll l (PcPolled n) l' false
| ss_retry l : sched_step PcPoll l PcPoll l false
| ss_poll_exit l l' :                 (* the loop was ended during the poll *)
    m_end_flag l = true -> m_end_flag l' = true -> m_task_queue l' = m_task_queue l ->
    sched_step PcPoll l PcExit l' false
| ss_polled l n p' l' :               (* publish the events, wake another worker *)
    active p' = true -> task_of p' = [] -> hand_of p' = None ->
    m_pollable l' = true -> m_end_flag l' = m_end_flag l -> m_task_queue l' = m_task_queue l ->
    sched_step (PcPolled n) l p' l' true
| ss_die p l l' b : m_task_queue l' = m_task_queue l -> sched_step p l PcDead l' b
| ss_gone p l : p = PcExit \/ p = PcDead -> sched_step p l p l false.

(** Tasks leave the queue only for the worker that takes them. *)
Lemma sched_tasks p l p' l' b :
  sched_step p l p' l' b -> m_task_queue l = taken p p' ++ m_task_queue l'.
Proof.
  intros Hs. unfold taken.
  destruct Hs as [p l p' l' b _ _ Ht _ [_ _ Hk]|l t last l' _ Hq|l ke l' _ [_ _ Hk]| | | | |l n l' [_ _ Hk]| | | |p l l' b Hq|p l [->| ->]];
    simpl; try congruence; destruct p; try congruence; by rewrite ?Ht, ?Hk, ?Hq.
Qed.

Lemma kept_refl l : kept l l.
Proof. done. Qed.
End Scheduler.

#[export] Hint Resolve kept_refl : mpio.

(** ** Preservation *)

Section Steps.
Context {OS : Os} {Spec : OsSpec OS} {K : Kernel OS} {L : KernelLaws K}.

Abbreviation lst := (loop * world)%type.

(** *** The parts of the invariant under a step *)

Lemma hands_same ts i p p' :
  ts !! i = Some p -> hand_of p = hand_of p' -> hands ts ≡ₚ hands (<[i := p']> ts).
Proof.
  intros Hi Hh. destruct (hands_split ts i p Hi) as (R & HR & HR'). by rewrite (HR' p'), HR, Hh.
Qed.

Lemma good_moves o w ts i p p' acc :
  good (o, w) (hands ts) acc -> ts !! i = Some p -> hand_of p = hand_of p' ->
  good (o, w) (hands (<[i := p']> ts)) acc.
Proof. intros Hg Hi Hh. eapply good_perm; [by eapply hands_same|done]. Qed.

Lemma tok_spares k w w' n T :
  tok_ok k (w_trace w) n T -> spares k w w' -> tok_ok k (w_trace w') n T.
Proof.
  intros Ht Hs. destruct (Hs _ (to_wf _ _ _ _ Ht)) as [Hwf Ha].
  eapply tok_shrink; [done..|]. by rewrite Ha.
Qed.

Lemma tok_in k tr n e T :
  tok_ok k tr n (e :: T) -> event_ok EVKERNEL_READ e /\ 0 <= event_ident e < n.
Proof.
  intros [_ He _ _ Hr]. split; [by apply Forall_inv in He|]. apply Hr. left.
  rewrite fmap_cons. by apply elem_of_cons; left.
Qed.

(** What the loop does on its own kernel. *)
Lemma good_own (k : kernel) (o : out) w w' hands acc :
  kernel_ident k <> kernel_ident (m_kernel o) -> good (o, w) hands acc -> quiet w w' ->
  (forall k' m, kernel_wf k' m (w_trace w) -> same_kernel k k' = false ->
     kernel_wf k' m (w_trace w') /\ armed k' (w_trace w') = armed k' (w_trace w)) ->
  good (o, w') hands acc.
Proof.
  intros Hne Hg Hq Hk. eapply good_spares; [done..|]. intros m Hwf. apply Hk; [done|].
  apply bool_decide_false. congruence.
Qed.

Lemma arms_other (k k' : kernel) id r before :
  same_kernel k k' = false -> arms k k' id r before = before.
Proof. intros H. unfold arms. by rewrite H. Qed.

Lemma arms_sub (k : kernel) id r before : arms k k id r before ⊆ {[id]} ∪ before.
Proof. unfold arms. destruct (_ && _); set_solver. Qed.

Lemma core_self X l w ts i p : core X l w ts -> ts !! i = Some p -> core X l w (<[i := p]> ts).
Proof. intros H Hi. by rewrite list_insert_id. Qed.

Lemma pc_range l ts p X w : core X l w ts -> p ∈ ts -> pc_ok l p.
Proof. intros H. apply (co_pcs _ _ _ _ H). Qed.

Lemma same_shape_refl l : same_shape l l.
Proof. by unfold same_shape. Qed.

(** *** Pieces *)

(** The event of the front of the more queue is taken. *)
Lemma take_more ke q l w ts :
  core [] l w ts -> m_more_queue l = ke :: q -> core [ke] (set_more q l) w ts.
Proof.
  intros [Hk Ho Hp Hpos Hd Ht Hpcs] Hm. split; try done.
  eapply tok_perm; [|exact Ht]. unfold events. rewrite Hm. cbn [set_more m_more_queue].
  unfold unread. cbn [set_more m_pollable m_off m_backlog]. solve_Permutation.
Qed.

(** The next event of the backlog is taken. *)
Lemma next_backlog_ok l w ts :
  core [] l w ts -> m_pollable l = true -> m_num l <> m_off l ->
  wp next_backlog (fun ke st' => core [ke] (fst st') (snd st') ts /\ kept l (fst st')) no_exn (l, w).
Proof.
  intros [Hk Ho Hp Hpos Hd Ht Hpcs] Hpoll Hne. rewrite Hpoll in Hp.
  assert (countb is_polled ts = 0) as Hcp.
  { apply countb_none. apply countb_none in Hp. eapply Forall_impl; [done|]. apply is_polled_polling. }
  destruct (Hpos Hcp) as [Hr Hn]. unfold next_backlog. loop_step. loop_step.
  destruct (lookup_lt_is_Some_2 (m_backlog l) (Z.to_nat (m_off l))) as [ke Hke]; [lia|]. rewrite Hke.
  repeat loop_step. split; [|done]. split; simpl; try done.
  - by rewrite Hpoll, Hp.
  - intros _. lia.
  - by rewrite Hpoll.
  - eapply tok_perm; [|exact Ht]. unfold events, unread. simpl. rewrite Hpoll.
    replace (Z.to_nat (m_off l + 1)) with (S (Z.to_nat (m_off l))) by lia.
    rewrite (drop_S _ _ _ Hke). solve_Permutation.
Qed.

Lemma process_handler_ok ke l w ts i :
  core [ke] l w ts -> ts !! i = Some PcLock ->
  wp (process_handler ke)
     (fun p' st' => core [] (fst st') (snd st') (<[i := p']> ts) /\ kept l (fst st') /\
        (p' = PcOutReady ke \/ p' = PcFetch ke \/ p' = PcDead)) no_exn (l, w).
Proof.
  intros Hc Hi. unfold process_handler. loop_step. loop_step.
  destruct (Z.eqb_spec (event_ident ke) (out_ident l)) as [_|_].
  - loop_step. loop_step. loop_step. destruct (co_out _ _ _ _ Hc) as [acc Hg].
    assert (kernel_wf (m_kernel (m_out l)) EVKERNEL_WRITE (w_trace w)) as Hwf.
    { destruct Hg as [qs Hg]. exact (tk_wf _ _ _ _ _ (oi_tokens _ _ _ _ _ Hg)). }
    pose proof (poll_event_spares (m_lkernel l) (m_kernel (m_out l)) (co_kernels _ _ _ _ Hc) _ (m_out l) w
      eq_refl Hwf) as Hs. cbv zeta in Hs.
    assert (forall p' st', p' = PcOutReady ke \/ p' = PcDead ->
      good st' (hands ts) acc -> m_kernel (fst st') = m_kernel (m_out l) ->
      spares (m_lkernel l) w (snd st') ->
      core [] (set_out (fst st') l) (snd st') (<[i := p']> ts)) as Hcore.
    { intros p' [o' w'] Hp' Hg' Hk' Hs'. simpl in *.
      eapply (core_step [ke]); [done|done|done|by destruct Hp' as [->| ->]| | | |].
      - unfold same_shape. simpl. by rewrite Hk'.
      - exists acc. eapply good_moves; [done..|]. by destruct Hp' as [->| ->].
      - intros R Ht. eapply tok_spares; [|done]. simpl in *.
        destruct Hp' as [->| ->]; simpl; [|by apply tok_drop in Ht].
        eapply tok_perm; [|exact Ht]. solve_Permutation.
      - by destruct Hp' as [->| ->]. }
    eapply wp_mono; [..|exact (wp_and _ _ _ _ _ _ (poll_event_ok (m_out l) w (hands ts) acc Hg) Hs)].
    + intros [] st' [[Hg' Hsame] [Hk' Hs']]. wp_step. simpl. split_and!; [apply Hcore; auto|done|auto].
    + intros e st' [[Hg' _] [Hk' Hs']]. wp_step. simpl. split_and!; [apply Hcore; auto|done|auto].
  - loop_step. split_and!; [|done|auto].
    eapply (core_step [ke]); [done|done|done|done|apply same_shape_refl| | |done].
    + destruct (co_out _ _ _ _ Hc) as [acc Hg]. exists acc. by eapply good_moves.
    + intros R Ht. eapply tok_perm; [|exact Ht]. simpl. solve_Permutation.
Qed.

(** An operation of [out], which leaves the loop's kernel alone. *)
Lemma own_out {A} l w (m : M (out * world) A) Q E :
  resp (m_lkernel l) (m_kernel (m_out l)) (m_queue (m_out l)) id m -> wp m Q E (m_out l, w) ->
  let sp st' := works (m_kernel (m_out l)) (m_queue (m_out l)) (fst st') /\
                spares (m_lkernel l) w (snd st') in
  wp m (fun a st' => Q a st' /\ sp st') (fun e st' => E e st' /\ sp st') (m_out l, w).
Proof. intros Hm Hwp. by apply (wp_resp _ _ _ id m Q E (m_out l, w) Hm). Qed.

(** The result of a piece of code of worker [i]. *)
Definition stepped (ts : list pc) (i : nat) (p : pc) (l : loop) (r : pc * bool) (st' : lst) : Prop :=
  (fst r <> PcDead -> core [] (fst st') (snd st') (<[i := fst r]> ts)) /\ sched_step p l (fst r) (fst st') (snd r).

Lemma core_work l w ts i p p' l' :
  core [] l w ts -> ts !! i = Some p -> polling p = false -> polling p' = false ->
  same_shape l l' -> m_more_queue l' = m_more_queue l -> m_out l' = m_out l ->
  hand_of p = hand_of p' -> held p = held p' -> pc_ok l' p' ->
  core [] l' w (<[i := p']> ts).
Proof.
  intros Hc Hi Hp Hp' Hsh Hm Ho Hh Hheld Hok.
  eapply (core_step []); [done..| | |done].
  - rewrite Ho. destruct (co_out _ _ _ _ Hc) as [acc Hg]. exists acc. by eapply good_moves.
  - intros R. by rewrite Hm, Hheld.
Qed.

Lemma pop_task_ok l w ts i :
  core [] l w ts -> ts !! i = Some PcLock -> m_task_queue l <> [] ->
  m_pollable l = false \/ MP_WAVY_TASK_QUEUE_LIMIT < zlen (m_task_queue l) ->
  wp ('(t, last) ← pop_task; mret (PcTask t last, negb last)) (stepped ts i PcLock l) no_exn (l, w).
Proof.
  intros Hc Hi Hq Hp. unfold pop_task. repeat loop_step.
  destruct (m_task_queue l) as [|t q] eqn:Ht; [done|]. repeat loop_step. split; simpl.
  - intros _. by eapply (core_work l).
  - eapply ss_task; simpl; rewrite ?Ht; done.
Qed.

Lemma next_hands l w ts i :
  core [] l w ts -> ts !! i = Some PcLock -> m_queue (m_out l) <> [] -> m_pollable l = false ->
  wp (ke ← on_m_out next; mret (PcOut ke, false)) (stepped ts i PcLock l) no_exn (l, w).
Proof.
  intros Hc Hi Hq Hp. destruct (co_out _ _ _ _ Hc) as [acc Hg]. loop_step. loop_step.
  eapply wp_mono; [..|exact (next_ok (m_out l) w (hands ts) acc Hg Hq)]; [|done].
  intros ke [o' w'] (Hg' & [Hk' _] & Hw). simpl in *. subst w'. loop_step. split; simpl; [intros _|by apply ss_out].
  eapply (core_step []); [done|done|done|done|unfold same_shape; simpl; by rewrite Hk'| |done|done].
  exists acc. eapply good_perm; [|exact Hg']. destruct (hands_split ts i PcLock Hi) as (R & HR & HR').
  rewrite (HR' (PcOut ke)), HR. simpl. by rewrite <-Permutation_cons_append.
Qed.

Lemma hands_event l w ts i ke acc :
  good (m_out l, w) (hands ts) acc -> ts !! i = Some (PcOut ke) ->
  event_ok EVKERNEL_WRITE ke /\ exists R, hands ts ≡ₚ ke :: R /\ forall p', hand_of p' = None -> hands (<[i := p']> ts) ≡ₚ R.
Proof.
  intros [qs Hg] Hi. destruct (hands_split ts i _ Hi) as (R & HR & HR'). simpl in HR. split.
  - pose proof (tk_events _ _ _ _ _ (oi_tokens _ _ _ _ _ Hg)) as He. simpl in He.
    rewrite HR in He. by apply Forall_app in He as [_ He%Forall_inv].
  - exists R. split; [done|]. intros p' Hp'. rewrite (HR' p'), Hp'. done.
Qed.

Lemma out_event_ok ke l w ts i :
  core [] l w ts -> ts !! i = Some (PcOut ke) ->
  wp (p ← out_event ke; mret (p, false)) (stepped ts i (PcOut ke) l) no_exn (l, w).
Proof.
  intros Hc Hi. destruct (co_out _ _ _ _ Hc) as [acc Hg].
  destruct (hands_event l w ts i ke acc Hg Hi) as (Hev & R & HR & HR').
  eapply (good_perm _ _ _ (ke :: R)) in Hg; [|done].
  unfold out_event. loop_step. loop_step. loop_step.
  eapply wp_mono; [..|exact (own_out l w _ _ _ (resp_write_event _ _ _ (co_kernels _ _ _ _ Hc) _ ke Hev)
    (write_event_ok (m_out l) w (ke :: R) acc 0 ke Hg eq_refl))]; [|by intros e st' [[] _]].
  intros b [o' w'] [(Hg' & _ & _) [[Hk' _] Hs]]. simpl in *. repeat loop_step. split; simpl.
  - intros _. assert (forall p', p' = PcFlush \/ p' = PcLock -> core [] (set_out o' l) w' (<[i := p']> ts)) as Hcore.
    { intros p' Hp'. assert (hand_of p' = None /\ held p' = [] /\ polling p' = false) as (H1 & H2 & H3)
        by (by destruct Hp' as [->| ->]).
      eapply (core_step []); [done|done|done|done|unfold same_shape; simpl; by rewrite Hk'| | |].
      - exists acc. eapply good_perm; [symmetry; by apply HR'|done].
      - intros R'. rewrite H2. simpl. intros Ht. by eapply tok_spares.
      - by destruct Hp' as [->| ->]. }
    apply Hcore. destruct b; auto.
  - apply ss_work; by destruct b.
Qed.

Lemma start_poll_ok l w ts i :
  core [] l w ts -> ts !! i = Some PcLock -> m_pollable l = true -> m_num l = m_off l ->
  core [] (set_pollable false l) w (<[i := PcPoll]> ts).
Proof.
  intros [Hk Ho Hp Hpos Hd Ht Hpcs] Hi Hpoll Hn. rewrite Hpoll in Hp.
  assert (countb is_polled ts = 0) as Hcp.
  { apply countb_none. apply countb_none in Hp. eapply Forall_impl; [done|]. apply is_polled_polling. }
  assert (countb is_polled (<[i := PcPoll]> ts) = 0) as Hcp' by (by rewrite (countb_same _ _ _ _ _ Hi)).
  destruct (Hpos Hcp) as [Hr Hlen]. split; simpl; try done.
  - destruct Ho as [acc Hg]. exists acc. by eapply good_moves.
  - by rewrite (countb_insert _ _ _ _ _ Hi), Hp.
  - eapply tok_perm; [|exact Ht]. unfold events, unread. simpl. rewrite Hpoll, Hcp'. simpl.
    rewrite drop_ge by lia. destruct (held_split ts i PcLock Hi) as (R & HR & HR').
    by rewrite (HR' PcPoll), HR.
  - intros q Hq. apply elem_insert in Hq as [->|Hq]; [done|]. by apply Hpcs.
Qed.

Lemma schedule_ok l w ts i :
  core [] l w ts -> ts !! i = Some PcLock ->
  wp schedule (stepped ts i PcLock l) no_exn (l, w).
Proof.
  intros Hc Hi. unfold schedule. loop_step. loop_step.
  assert (forall ke l' w', core [ke] l' w' ts -> kept l l' ->
    wp (p ← process_handler ke; mret (p, false)) (stepped ts i PcLock l) no_exn (l', w')) as Hproc.
  { intros ke l' w' Hc' Hl'. loop_step. eapply wp_mono; [..|by eapply process_handler_ok]; [|done].
    intros p' st' (Hc'' & [E1 E2 E3] & Hp'). loop_step. split; [done|]. simpl.
    destruct Hl' as [F1 F2 F3].
    destruct Hp' as [->|[->| ->]]; [apply ss_work; try done|apply ss_work; try done|apply ss_die; congruence];
      split; congruence. }
  assert (forall p', p' = PcExit \/ p' = PcWait -> core [] l w (<[i := p']> ts)) as Hidle.
  { intros p' Hp'. eapply (core_work l); try done; by destruct Hp' as [->| ->]. }
  destruct (m_end_flag l) eqn:Hend.
  { loop_step. split; simpl; [intros _; apply Hidle; auto|by apply ss_exit]. }
  destruct (m_more_queue l) as [|ke q] eqn:Hmore.
  2:{ loop_step. loop_step. apply Hproc; [by eapply take_more|done]. }
  destruct (m_pollable l) eqn:Hpoll; cbn [negb].
  - destruct (Z.ltb_spec MP_WAVY_TASK_QUEUE_LIMIT (zlen (m_task_queue l))) as [Hlim|Hlim].
    { apply pop_task_ok; [done|done| |by right]. intros Hn. by rewrite Hn in Hlim. }
    destruct (Z.eqb_spec (m_num l) (m_off l)) as [Hn|Hn].
    + repeat loop_step. split; simpl; [intros _; by apply start_poll_ok|by apply ss_poll].
    + loop_step. eapply wp_mono; [..|by apply next_backlog_ok]; [|done].
      intros ke [l' w'] [Hc' Hl']. by apply Hproc.
  - case_bool_decide as Hq; cbn [negb]; [|by apply next_hands].
    case_bool_decide as Ht; cbn [negb]; [|apply pop_task_ok; auto].
    loop_step. split; simpl; [intros _; apply Hidle; auto|by apply ss_wait].
Qed.
(** *** Polling *)

(** While worker [i] polls, nobody else does. *)
Lemma poller_alone X l w ts i p p' :
  core X l w ts -> ts !! i = Some p -> polling p = true -> polling p' = false ->
  m_pollable l = false /\ countb polling (<[i := p']> ts) = 0 /\ countb is_polled (<[i := p']> ts) = 0.
Proof.
  intros Hc Hi Hp Hp'. pose proof (co_poll _ _ _ _ Hc) as Hn.
  assert (countb polling (<[i := p']> ts) = countb polling ts - 1) as Hcount.
  { rewrite (countb_insert _ _ _ _ _ Hi), Hp, Hp'. lia. }
  pose proof (countb_range polling (<[i := p']> ts)). destruct (m_pollable l); [lia|].
  assert (countb polling (<[i := p']> ts) = 0) as H0 by lia. split_and!; [done..|].
  apply countb_none. apply countb_none in H0. eapply Forall_impl; [done|]. apply is_polled_polling.
Qed.

Lemma poller_turns ts i p p' :
  ts !! i = Some p -> countb is_polled (<[i := PcLock]> ts) = 0 ->
  countb is_polled (<[i := p']> ts) = if is_polled p' then 1 else 0.
Proof.
  intros Hi H0. rewrite (countb_insert is_polled _ _ _ _ Hi) in H0.
  rewrite (countb_insert is_polled _ _ _ _ Hi). cbn [is_polled] in H0.
  destruct (is_polled p'); lia.
Qed.

(** The kernel reports [es]. *)
Lemma waited l w ts :
  core [] l w ts ->
  wp (wait (m_lkernel l) 1000)
     (fun r w' => core (match r with inl _ => [] | inr es => es end) l w' ts) no_exn w.
Proof.
  intros Hc. pose proof Hc as [Hk [acc Hg] Hp Hpos Hd Ht Hpcs].
  eapply wp_mono; [..|exact (wait_disarms (m_lkernel l) EVKERNEL_READ 1000 w (to_wf _ _ _ _ Ht))]; [|done].
  intros r w' (Hq & Hev & Hnd & Hsub & _ & Hk').
  destruct (Hk' _ _ (to_wf _ _ _ _ Ht)) as [Hwf' Harm].
  unfold same_kernel in Harm. rewrite bool_decide_true in Harm by done.
  split; try done.
  - exists acc. eapply good_own; [done..|]. intros k' m Hwf Hs. destruct (Hk' k' m Hwf) as [? Ha].
    by rewrite Hs in Ha.
  - by eapply tok_report.
Qed.

Lemma poll_exit_ok l w ts i :
  core [] l w ts -> ts !! i = Some PcPoll -> core [] (set_pollable true l) w (<[i := PcExit]> ts).
Proof.
  intros Hc Hi. pose proof Hc as [Hk [acc Hg] Hp Hpos Hd Ht Hpcs].
  destruct (poller_alone _ _ _ _ _ _ PcExit Hc Hi eq_refl eq_refl) as (Hpoll & H0 & H1).
  assert (countb is_polled ts = 0) as Hcp.
  { pose proof H1 as H2. rewrite (countb_insert _ _ _ _ _ Hi) in H2. simpl in H2. lia. }
  destruct (Hpos Hcp) as [Hr Hn]. specialize (Hd Hpoll). split; simpl; try done.
  - exists acc. by eapply good_moves.
  - eapply tok_perm; [|exact Ht]. unfold events, unread. simpl. rewrite Hpoll, Hcp. simpl.
    rewrite drop_ge by lia. destruct (held_split ts i PcPoll Hi) as (R & HR & HR').
    by rewrite (HR' PcExit), HR.
  - intros q Hq. apply elem_insert in Hq as [->|Hq]; [done|]. by apply Hpcs.
Qed.

Lemma not_polled_pc_ok ts i l l' p :
  countb polling (<[i := PcLock]> ts) = 0 -> p ∈ <[i := PcLock]> ts -> pc_ok l p ->
  length (m_state l') = length (m_state l) -> pc_ok l' p.
Proof.
  intros H0 Hp. apply countb_none in H0. rewrite Forall_forall in H0. specialize (H0 p Hp).
  unfold pc_ok, table_range. by destruct p; try done; intros ? ->.
Qed.

(** Replacing twice at one place. *)
Lemma insert_via {A} (l : list A) i x y z : z ∈ <[i := x]> l -> z = x \/ z ∈ <[i := y]> l.
Proof.
  intros Hz. rewrite <-(list_insert_insert_eq l i x y) in Hz. by apply elem_insert in Hz.
Qed.

Lemma reported_ok es l w ts i :
  core es l w ts -> ts !! i = Some PcPoll -> es <> [] ->
  core [] (set_backlog es l) w (<[i := PcPolled (zlen es)]> ts).
Proof.
  intros Hc Hi Hes. pose proof Hc as [Hk [acc Hg] Hp Hpos Hd Ht Hpcs].
  destruct (poller_alone _ _ _ _ _ _ PcLock Hc Hi eq_refl eq_refl) as (Hpoll & H0 & H1).
  assert (countb is_polled (<[i := PcPolled (zlen es)]> ts) = 1) as Hcp'
    by (by rewrite (poller_turns _ _ _ _ Hi)).
  assert (countb is_polled ts = 0) as Hcp.
  { pose proof H1 as H2. rewrite (countb_insert _ _ _ _ _ Hi) in H2. simpl in H2. lia. }
  split; simpl; try done.
  - exists acc. by eapply good_moves.
  - rewrite (countb_same _ _ _ _ _ Hi); done.
  - rewrite Hcp'. done.
  - eapply tok_perm; [|exact Ht]. unfold events, unread. simpl. rewrite Hpoll, Hcp, Hcp'. simpl.
    destruct (held_split ts i PcPoll Hi) as (R & HR & HR'). rewrite (HR' (PcPolled (zlen es))), HR.
    simpl. solve_Permutation.
  - intros q Hq. apply (insert_via _ _ _ PcLock) in Hq as [->|Hq].
    + simpl. split; [done|]. destruct es; [done|simpl; lia].
    + eapply (not_polled_pc_ok ts i l); [done..| |done].
      apply elem_insert in Hq as [->|Hq]; [done|]. by apply Hpcs.
Qed.

Lemma poll_once_ok l w ts i :
  core [] l w ts -> ts !! i = Some PcPoll ->
  wp (p ← poll_once; mret (p, false)) (stepped ts i PcPoll l) no_exn (l, w).
Proof.
  intros Hc Hi. unfold poll_once. repeat loop_step.
  eapply wp_mono; [..|exact (waited l w ts Hc)]; [|done]. intros r w' Hc'. simpl.
  assert (core [] l w' ts ->
    wp (l ← get_loop; if m_end_flag l then _ ← upd_loop (set_pollable true); mret PcExit else mret PcPoll)
      (fun p => wp (mret (p, false)) (stepped ts i PcPoll l) no_exn) no_exn (l, w')) as Hidle.
  { intros Hc''. loop_step. loop_step. destruct (m_end_flag l) eqn:He; repeat loop_step; split; simpl.
    - intros _. by apply poll_exit_ok.
    - by apply ss_poll_exit.
    - intros _. by eapply core_self.
    - apply ss_retry. }
  destruct r as [e|es].
  - destruct (would_retry e); [by apply Hidle|]. repeat loop_step. split; [done|]. by apply ss_die.
  - destruct es as [|e es]; [by apply Hidle|]. repeat loop_step. split; simpl.
    + intros _. by apply (reported_ok (e :: es)).
    + by apply ss_reported.
Qed.

(** The poller publishes its events. *)
Lemma publish_ok l w ts i n :
  core [] l w ts -> ts !! i = Some (PcPolled n) ->
  core [] (set_pollable true (set_pos 0 n l)) w (<[i := PcLock]> ts) /\ 0 < n.
Proof.
  intros Hc Hi. pose proof Hc as [Hk [acc Hg] Hp Hpos Hd Ht Hpcs].
  destruct (poller_alone _ _ _ _ _ _ PcLock Hc Hi eq_refl eq_refl) as (Hpoll & H0 & H1).
  destruct (Hpcs (PcPolled n)) as [Hn Hn0]; [by eapply list_elem_of_lookup_2|]. split; [|done].
  split; simpl; try done.
  - exists acc. by eapply good_moves.
  - intros _. lia.
  - eapply tok_perm; [|exact Ht]. unfold events, unread. simpl. rewrite Hpoll.
    destruct (Z.ltb_spec 0 (countb is_polled ts)) as [Hlt|Hge].
    + destruct (held_split ts i (PcPolled n) Hi) as (R & HR & HR'). by rewrite drop_0, (HR' PcLock), HR.
    + rewrite (countb_insert _ _ _ _ _ Hi) in H1. simpl in H1. lia.
  - intros q Hq. apply elem_insert in Hq as [->|Hq]; [done|]. by apply Hpcs.
Qed.

Lemma polled_ok l w ts i n :
  core [] l w ts -> ts !! i = Some (PcPolled n) ->
  wp (p ← polled n; mret (p, true)) (stepped ts i (PcPolled n) l) no_exn (l, w).
Proof.
  intros Hc Hi. destruct (publish_ok l w ts i n Hc Hi) as [Hc' Hn]. unfold polled. repeat loop_step.
  eapply wp_mono; [..|eapply next_backlog_ok; [exact Hc'|done|simpl; lia]]; [|done].
  intros ke [l' w'] [Hc'' Hk]. simpl in *.
  eapply wp_mono; [..|eapply process_handler_ok; [exact Hc''|]]; [|done|].
  - intros p' st' (Hc3 & Hk' & Hp'). loop_step. rewrite list_insert_insert_eq in Hc3.
    split; simpl; [done|]. destruct Hk as [E1 E2 E3], Hk' as [F1 F2 F3]. simpl in *.
    destruct Hp' as [->|[->| ->]]; [apply ss_polled; try done; congruence..|apply ss_die; congruence].
  - apply list_lookup_insert_eq. by eapply lookup_lt_Some.
Qed.
(** *** After the event *)

(** The loop's kernel was used by a worker that goes from [p] to [p']. *)
Lemma core_kernel l w w' ts i p p' :
  core [] l w ts -> ts !! i = Some p -> polling p = false -> polling p' = false ->
  hand_of p = hand_of p' -> pc_ok l p' -> quiet w w' ->
  (forall k' m, kernel_wf k' m (w_trace w) -> same_kernel (m_lkernel l) k' = false ->
     kernel_wf k' m (w_trace w') /\ armed k' (w_trace w') = armed k' (w_trace w)) ->
  (forall T, tok_ok (m_lkernel l) (w_trace w) (zlen (m_state l)) (held p ++ T) ->
     tok_ok (m_lkernel l) (w_trace w') (zlen (m_state l)) (held p' ++ T)) ->
  core [] l w' (<[i := p']> ts).
Proof.
  intros Hc Hi Hp Hp' Hh Hok Hq Hk Ht. eapply (core_step []); [done..|apply same_shape_refl| | |done].
  - destruct (co_out _ _ _ _ Hc) as [acc Hg]. exists acc. eapply good_moves; [|done..].
    eapply good_own; [apply (co_kernels _ _ _ _ Hc)|done..].
  - intros R HR. simpl in *. eapply tok_perm; [|apply (Ht (m_more_queue l ++ R))].
    + solve_Permutation.
    + eapply tok_perm; [|exact HR]. solve_Permutation.
Qed.

Lemma held_ok X l w ts i p e :
  core X l w ts -> ts !! i = Some p -> held p = [e] -> event_ok EVKERNEL_READ e /\ table_range l (event_ident e).
Proof.
  intros Hc Hi Hh. destruct (held_split ts i p Hi) as (R & HR & _).
  eapply tok_in, tok_perm; [|exact (co_tokens _ _ _ _ Hc)]. unfold events. rewrite HR, Hh.
  simpl. rewrite <-(Permutation_middle (m_more_queue l) R e), <-(Permutation_middle (unread l ts) _ e).
  by rewrite <-Permutation_middle.
Qed.

(** A worker hands its event back to the kernel. *)
Lemma reactivate_ok l w ts i p p' e :
  core [] l w ts -> ts !! i = Some p -> polling p = false -> polling p' = false ->
  hand_of p = hand_of p' -> pc_ok l p' -> held p = [e] -> held p' = [] ->
  wp (reactivate (m_lkernel l) e) (fun _ w' => core [] l w' (<[i := p']> ts)) no_exn w.
Proof.
  intros Hc Hi Hp Hp' Hh Hok He He'. destruct (held_ok _ _ _ _ _ _ _ Hc Hi He) as [Hev _].
  eapply wp_mono; [..|exact (reactivate_arms (m_lkernel l) EVKERNEL_READ e w Hev)]; [|done].
  intros r w' (Hq & _ & Hk). eapply core_kernel; [done..| |].
  - intros k' m Hwf Hs. destruct (Hk k' m Hwf) as [? ->]; [by rewrite Hs|]. split; [done|]. by apply arms_other.
  - intros T Ht. rewrite He in Ht. rewrite He'. destruct (Hk _ _ (to_wf _ _ _ _ Ht) (fun _ => eq_refl)) as [Hwf' Ha].
    eapply tok_rearm; [exact Ht|done|]. rewrite Ha. apply arms_sub.
Qed.

(** A worker removes the registration of its event, which it may have handed on. *)
Lemma remove_ok l w ts i p p' e :
  core [] l w ts -> ts !! i = Some p -> polling p = false -> polling p' = false ->
  hand_of p = hand_of p' -> pc_ok l p' -> held p' = [] ->
  wp (remove (m_lkernel l) e) (fun _ w' => core [] l w' (<[i := p']> ts)) no_exn w.
Proof.
  intros Hc Hi Hp Hp' Hh Hok He'.
  eapply wp_mono; [..|exact (remove_disarms (m_lkernel l) e w)]; [|done].
  intros r w' (Hq & Hk). eapply core_kernel; [done..| |].
  - intros k' m Hwf Hs. destruct (Hk k' m Hwf) as (? & _ & _ & Ha). by rewrite Ha.
  - intros T Ht. rewrite He'. destruct (Hk _ _ (to_wf _ _ _ _ Ht)) as (Hwf' & Hs & _).
    apply tok_drops in Ht. by eapply tok_shrink.
Qed.

(** The handler table is written, within its bounds. *)
Lemma core_table l w ts ident v :
  core [] l w ts -> core [] (set_state (<[Z.to_nat ident := v]> (m_state l)) l) w ts.
Proof.
  intros [Hk Ho Hp Hpos Hd Ht Hpcs]. split; simpl; try done.
  - by rewrite length_insert.
  - intros p Hin. eapply (pc_ok_shape l); [|by apply Hpcs]. unfold same_shape. simpl. by rewrite length_insert.
Qed.

Lemma out_ready_ok ke l w ts i :
  core [] l w ts -> ts !! i = Some (PcOutReady ke) ->
  wp (p ← out_ready ke; mret (p, false)) (stepped ts i (PcOutReady ke) l) no_exn (l, w).
Proof.
  intros Hc Hi. unfold out_ready. repeat loop_step.
  eapply wp_mono; [..|by eapply (reactivate_ok l w ts i _ PcLock)]; [|done].
  intros r w' Hc'. repeat loop_step. split; [done|]. by apply ss_work.
Qed.

Lemma fetch_ok ke l w ts i :
  core [] l w ts -> ts !! i = Some (PcFetch ke) ->
  wp (p ← fetch ke; mret (p, false)) (stepped ts i (PcFetch ke) l) no_exn (l, w).
Proof.
  intros Hc Hi. destruct (held_ok _ _ _ _ _ _ _ Hc Hi eq_refl) as [Hev Hr].
  unfold fetch. repeat loop_step.
  assert (forall p', held p' = [ke] -> hand_of p' = None -> active p' = true -> pc_ok l p' -> task_of p' = [] ->
    stepped ts i (PcFetch ke) l (p', false) (l, w)) as Hdone.
  { intros p' Hh Ho Ha Hok Ht. split; simpl; [intros _|by apply ss_work].
    eapply (core_work l); try done. by destruct p'. }
  pose proof Hr as [H0 H1]. destruct (Z.leb_spec 0 (event_ident ke)), (Z.ltb_spec (event_ident ke) (zlen (m_state l)));
    [|lia..]. simpl.
  destruct (m_state l !! Z.to_nat (event_ident ke)) as [[h|]|]; repeat loop_step; by apply Hdone.
Qed.

Lemma finish_ok e cont l w ts i :
  core [] l w ts -> ts !! i = Some (PcFinish e cont) ->
  wp (p ← finish e cont; mret (p, false)) (stepped ts i (PcFinish e cont) l) no_exn (l, w).
Proof.
  intros Hc Hi. unfold finish. loop_step.
  assert (is_reactivated e || is_removed e = true ->
    stepped ts i (PcFinish e cont) l (PcLock, false) (l, w)) as Hgone.
  { intros Hr. split; simpl; [intros _|by apply ss_work].
    eapply (core_work l); [done..|apply same_shape_refl|done|done|done| |done]. simpl. by rewrite Hr. }
  destruct (is_reactivated e) eqn:Hre; [loop_step; loop_step; by apply Hgone|].
  destruct (is_removed e) eqn:Hrm; [loop_step; loop_step; by apply Hgone|].
  assert (held (PcFinish e cont) = [m_pe e]) as Hh by (simpl; by rewrite Hre, Hrm).
  loop_step. loop_step. destruct (held_ok _ _ _ _ _ _ _ Hc Hi Hh) as [_ Hr].
  destruct cont; simpl; loop_step; loop_step.
  - eapply wp_mono; [..|by eapply (reactivate_ok l w ts i _ PcLock)]; [|done].
    intros r w' Hc'. repeat loop_step. split; [done|]. by apply ss_work.
  - eapply wp_mono; [..|by eapply (remove_ok l w ts i _ (PcReset (event_ident (m_pe e))))]; [|done].
    intros r w' Hc'. repeat loop_step. split; [done|]. by apply ss_work.
Qed.

Lemma reset_ok ident l w ts i :
  core [] l w ts -> ts !! i = Some (PcReset ident) ->
  wp (p ← reset ident; mret (p, false)) (stepped ts i (PcReset ident) l) no_exn (l, w).
Proof.
  intros Hc Hi. assert (table_range l ident) as Hr.
  { apply (co_pcs _ _ _ _ Hc (PcReset ident)). by eapply list_elem_of_lookup_2. }
  unfold reset. loop_step. loop_step. unfold wp at 1. rewrite reset_handler_run by done. repeat loop_step.
  split; simpl; [intros _|by apply ss_work].
  eapply core_work; [by apply core_table|done|done|done|apply same_shape_refl|done..].
Qed.

Lemma idle_ok p p' l w ts i :
  core [] l w ts -> ts !! i = Some p -> polling p = false -> polling p' = false ->
  hand_of p = hand_of p' -> held p = held p' -> pc_ok l p' ->
  sched_step p l p' l false -> stepped ts i p l (p', false) (l, w).
Proof.
  intros Hc Hi Hp Hp' Hh He Hok Hs. split; simpl; [intros _|done].
  by eapply (core_work l).
Qed.

(** Every piece of [thread_main] returns. *)
Lemma thread_ok p l w ts i :
  core [] l w ts -> ts !! i = Some p ->
  wp (thread_code p) (stepped ts i p l) no_exn (l, w).
Proof.
  intros Hc Hi. pose proof (co_pcs _ _ _ _ Hc p (list_elem_of_lookup_2 _ _ _ Hi)) as Hok.
  destruct p as [| |t b| |ke| |n|ke|ke|h e|e cont|ident| |]; cbn [thread_code].
  - by apply schedule_ok.
  - wp_step. apply idle_ok; try done. apply ss_wake.
  - wp_step. apply idle_ok; try done; destruct b; try done; by apply ss_work.
  - wp_step. apply idle_ok; try done. by apply ss_work.
  - by apply out_event_ok.
  - by apply poll_once_ok.
  - by apply polled_ok.
  - by apply out_ready_ok.
  - by apply fetch_ok.
  - wp_step. apply idle_ok; try done. by apply ss_work.
  - by apply finish_ok.
  - by apply reset_ok.
  - wp_step. apply idle_ok; try done. apply ss_gone. by left.
  - wp_step. apply idle_ok; try done. apply ss_gone. by right.
Qed.
End Steps.
