(* ===== verification/LoopProps.v ===== *)
(** * What the worker threads promise

    The invariant [inv] of every configuration that [reach] allows: the events
    belong to one worker each, the tasks are started in the order they were
    submitted, and queued work is never left to sleeping workers, provided that
    there are at least two. *)

From Stdlib Require Import ZArith Lia.
From stdpp Require Import base tactics option list numbers gmap sets list_tactics.
From S2P Require Import Prelude Os Pthread Xfer XferQueue Kernel KernelEpoll Out OutProps OutFrame Loop LoopThreads LoopCore.

(** ** Handlers and other threads *)

Section Environment.
Context {OS : Os} {Spec : OsSpec OS} {K : Kernel OS} {L : KernelLaws K}.

Abbreviation lst := (loop * world)%type.

Lemma lor_flag f : negb (Z.land (Z.lor f 1) 1 =? 0) = true.
Proof. rewrite Z.land_lor_distr_l. destruct (Z.eqb_spec (Z.lor (Z.land f 1) (Z.land 1 1)) 0) as [H|]; [|done].
  apply Z.lor_eq_0_iff in H as [_ H]. done. Qed.

Lemma lor_flag2 f : negb (Z.land (Z.lor f 2) 2 =? 0) = true.
Proof. rewrite Z.land_lor_distr_l. destruct (Z.eqb_spec (Z.lor (Z.land f 2) (Z.land 2 2)) 0) as [H|]; [|done].
  apply Z.lor_eq_0_iff in H as [_ H]. done. Qed.

Lemma held_reactivated h f e : held (PcHandler h (EventImpl (Z.lor f 1) e)) = [].
Proof. simpl. unfold is_reactivated. simpl. unfold FLAG_REACTIVATED. by rewrite lor_flag. Qed.

Lemma held_removed h f e : held (PcHandler h (EventImpl (Z.lor f 2) e)) = [].
Proof. simpl. unfold is_removed. simpl. unfold FLAG_REMOVED. by rewrite lor_flag2, orb_true_r. Qed.

(** What a handler does with its event. *)
Lemma action_ok a h e l w ts i :
  core [] l w ts -> ts !! i = Some (PcHandler h e) -> (is_removed e = true -> a = ActRemove) ->
  wp (run_action a e)
     (fun r st' => core [] (fst st') (snd st') (<[i := PcHandler h (fst r)]> ts) /\ kept l (fst st'))
     no_exn (l, w).
Proof.
  intros Hc Hi Hrm. destruct e as [f pe].
  pose proof (co_pcs _ _ _ _ Hc _ (list_elem_of_lookup_2 _ _ _ Hi)) as Hok. simpl in Hok.
  assert (forall r, core [] l w (<[i := PcHandler h (fst (EventImpl f pe, r : bool))]> ts) /\ kept l l) as Hsame.
  { intros r. split; [by eapply core_self|done]. }
  assert (a <> ActRemove -> is_removed (EventImpl f pe) = false) as Hnot.
  { intros Ha. destruct (is_removed (EventImpl f pe)); [|done]. by specialize (Hrm eq_refl). }
  destruct a; cbn [run_action].
  - unfold more. destruct (is_reactivated (EventImpl f pe)) eqn:Hre; simpl; repeat loop_step; [exact (Hsame true)|].
    split; [|done]. unfold event_more.
    assert (is_removed (EventImpl f pe) = false) as Hrm' by (by apply Hnot).
    eapply (core_step []); [done|done|done|done|done| | |done].
    + destruct (co_out _ _ _ _ Hc) as [acc Hg]. exists acc. by eapply good_moves.
    + intros R. cbn [fst m_flags m_pe]. rewrite held_reactivated. simpl. rewrite Hre, Hrm'. simpl. apply tok_perm. solve_Permutation.
  - unfold next_event. destruct (is_reactivated (EventImpl f pe)) eqn:Hre; simpl; repeat loop_step; [exact (Hsame true)|].
    assert (is_removed (EventImpl f pe) = false) as Hrm' by (by apply Hnot).
    unfold event_next. repeat loop_step.
    eapply wp_mono; [..|eapply (reactivate_ok l w ts i _ (PcHandler h (EventImpl (Z.lor f 1) pe)));
      [done..| |apply held_reactivated]]; [|done|].
    + intros r w' Hc'. by repeat loop_step.
    + simpl. by rewrite Hre, Hrm'.
  - unfold remove_event. destruct (is_removed (EventImpl f pe)) eqn:Hre; simpl; repeat loop_step; [exact (Hsame true)|].
    unfold event_remove. repeat loop_step.
    eapply wp_mono; [..|eapply (remove_ok l w ts i _ (PcHandler h (EventImpl (Z.lor f 2) pe)));
      [done..|apply held_removed]]; [|done].
    intros r w' Hc'. repeat loop_step. unfold wp at 1. rewrite reset_handler_run by apply Hok.
    repeat loop_step. split; [by apply core_table|done].
Qed.

(** *** The workers as a whole *)

Lemma core_workers X l w ts ts' :
  concat (held <$> ts') ≡ₚ concat (held <$> ts) -> hands ts' ≡ₚ hands ts ->
  countb polling ts' = countb polling ts -> countb is_polled ts' = countb is_polled ts ->
  (forall p, p ∈ ts' -> pc_ok l p) -> core X l w ts -> core X l w ts'.
Proof.
  intros Hh Hhd Hp Hpd Hin [Hk [acc Hg] Hpoll Hpos Hd Ht _]. split; try done.
  - exists acc. by eapply good_perm.
  - by rewrite Hp.
  - by rewrite Hpd.
  - eapply tok_perm; [|exact Ht]. unfold events, unread. by rewrite Hpd, Hh.
Qed.

Lemma core_ts X l w ts ts' :
  concat (held <$> ts') ≡ₚ concat (held <$> ts) -> hands ts' ≡ₚ hands ts ->
  countb polling ts' = countb polling ts -> countb is_polled ts' = countb is_polled ts ->
  (forall p, p ∈ ts' -> p = PcLock \/ p ∈ ts) -> core X l w ts -> core X l w ts'.
Proof.
  intros Hh Hhd Hp Hpd Hin Hc. apply (core_workers X l w ts); [done..| |done].
  intros p [->|?]%Hin; [done|by apply (co_pcs _ _ _ _ Hc)].
Qed.

Lemma core_signal X l w ts ts' : signal ts ts' -> core X l w ts -> core X l w ts'.
Proof.
  intros Hs. destruct (signal_view ts ts' Hs) as (H1 & H2 & H3 & H4 & _ & H6 & _).
  apply core_ts; [by rewrite H1|done..].
Qed.

Lemma countb_fmap {A} (f : A -> bool) g (ts : list A) :
  (forall x, f (g x) = f x) -> countb f (g <$> ts) = countb f ts.
Proof.
  intros Hg. unfold countb. induction ts as [|p ts IH]; [done|]. rewrite fmap_cons, !filter_cons, Hg.
  case_decide; simpl length; lia.
Qed.

Lemma core_broadcast X l w ts : core X l w ts -> core X l w (broadcast ts).
Proof.
  apply core_ts; unfold broadcast.
  - assert (held <$> ((fun p => if is_wait p then PcLock else p) <$> ts) = held <$> ts) as ->; [|done].
    rewrite <-list_fmap_compose. apply list_fmap_ext. intros _ p _. by destruct p.
  - unfold hands. induction ts as [|p ts IH]; [done|]. destruct p; simpl; by rewrite ?IH.
  - apply countb_fmap. by intros [].
  - apply countb_fmap. by intros [].
  - intros p (q & -> & Hq)%list_elem_of_fmap. destruct (is_wait q); auto.
Qed.

Lemma core_add_worker X l w ts : core X l w ts -> core X l w (ts ++ [PcLock]).
Proof.
  apply core_ts.
  - rewrite fmap_app, concat_app. simpl. by rewrite app_nil_r.
  - unfold hands. rewrite omap_app. simpl. by rewrite app_nil_r.
  - rewrite countb_app. unfold countb at 2. simpl. lia.
  - rewrite countb_app. unfold countb at 2. simpl. lia.
  - intros p [?|?%list_elem_of_singleton]%elem_of_app; auto.
Qed.

(** Something else uses the loop. *)
Lemma core_env l l' w w' ts :
  core [] l w ts -> same_shape l l' -> m_more_queue l' = m_more_queue l ->
  (forall acc, good (m_out l, w) (hands ts) acc -> exists acc', good (m_out l', w') (hands ts) acc') ->
  (forall T, T ≡ₚ events l ts -> tok_ok (m_lkernel l) (w_trace w) (zlen (m_state l)) T ->
     tok_ok (m_lkernel l) (w_trace w') (zlen (m_state l)) T) ->
  core [] l' w' ts.
Proof.
  intros [Hk [acc Hg] Hp Hpos Hd Ht Hpcs] Hsh Hm Ho Htok.
  pose proof Hsh as (E1 & E2 & E3 & E4 & E5 & E6 & E7). split.
  - by rewrite E1, E2.
  - by eapply Ho.
  - by rewrite E3.
  - by rewrite E4, E5, E6.
  - by rewrite E3, E4, E5.
  - rewrite E1, E7. unfold events, unread. rewrite E3, E4, E6, Hm. by apply Htok.
  - intros p Hin. eapply pc_ok_shape; [done|by apply Hpcs].
Qed.

Lemma submit_ok f l w ts : core [] l w ts ->
  wp (submit_impl f) (fun _ st' => core [] (fst st') (snd st') ts /\
    m_task_queue (fst st') = m_task_queue l ++ [f] /\ m_end_flag (fst st') = m_end_flag l /\
    m_pollable (fst st') = m_pollable l) no_exn (l, w).
Proof.
  intros Hc. unfold submit_impl. repeat loop_step. split_and!; [|done..].
  eapply core_env; [done|done|done| |done]. simpl. eauto.
Qed.

(** A call that concerns no kernel. *)
Lemma core_call l w ts r a :
  registers (Sys r a) = false -> stream_of r = None -> core [] l w ts ->
  core [] l (World (w_trace w ++ [Sys r a]) (w_alloc w)) ts.
Proof.
  intros Hu Hst Hc. assert (forall k' m, kernel_wf k' m (w_trace w) ->
    kernel_wf k' m (w_trace w ++ [Sys r a]) /\ armed k' (w_trace w ++ [Sys r a]) = armed k' (w_trace w)) as Hk.
  { intros k' m. by apply other_events. }
  eapply core_env; [done|apply same_shape_refl|done| |].
  - intros acc Hg. exists acc. eapply (good_spares _ w); [done| |intros m Hwf; by apply Hk].
    split; [done|]. right. by exists r, a.
  - intros T _ Ht. eapply tok_spares; [exact Ht|intros m Hwf; by apply Hk].
Qed.

Lemma core_unrelated l w ts r a :
  unrelated r = true -> core [] l w ts ->
  core [] l (World (w_trace w ++ [Sys r a]) (w_alloc w)) ts.
Proof.
  intros Hu. apply core_call; [by apply unrelated_not_registers|by destruct r].
Qed.

(** The registration of a descriptor without an event. *)
Lemma core_add_fd fd l w ts : core [] l w ts -> table_range l fd ->
  (fd ∉ event_ident <$> events l ts) ->
  wp (add_fd (m_lkernel l) fd EVKERNEL_READ) (fun _ w' => core [] l w' ts) no_exn w.
Proof.
  intros Hc Hr Hfd.
  eapply wp_mono; [..|exact (add_fd_arms (m_lkernel l) fd EVKERNEL_READ w (or_introl eq_refl))]; [|done].
  intros r w' (Hq & _ & Hk). eapply (core_env l); [exact Hc|apply same_shape_refl|done| |].
  - intros acc Hg. exists acc. eapply good_own; [apply (co_kernels _ _ _ _ Hc)|done..|].
    intros k' m Hwf Hs. destruct (Hk k' m Hwf) as [? ->]; [by rewrite Hs|]. split; [done|]. by apply arms_other.
  - intros T HT Ht. destruct (Hk _ _ (to_wf _ _ _ _ Ht) (fun _ => conj eq_refl (proj1 Hr))) as [Hwf Ha].
    eapply tok_arm; [exact Ht|done|rewrite Ha; apply arms_sub|by rewrite HT|done].
Qed.

Lemma add_handler_ok fd h l w ts : core [] l w ts -> table_range l fd ->
  (fd ∉ event_ident <$> events l ts) ->
  wp (add_handler_impl fd h) (fun _ st' => core [] (fst st') (snd st') ts /\ kept l (fst st') /\
      (no_work l -> no_work (fst st')))
    (fun _ st' => core [] (fst st') (snd st') ts /\ fst st' = l) (l, w).
Proof.
  intros Hc Hr Hfd. unfold add_handler_impl. loop_step. loop_step. apply wp_syscall. intros a _. simpl.
  pose proof (core_unrelated l w ts (SetNonblock fd) a eq_refl Hc) as Hc1.
  destruct a as [n out|e]; [|by loop_step]. loop_step. unfold wp at 1. rewrite set_handler_run by done.
  loop_step. loop_step. loop_step. loop_step.
  eapply wp_mono; [..|exact (core_add_fd fd l _ ts Hc1 Hr Hfd)]; [|done].
  intros r w' Hc'. loop_step. split_and!; [|done|done].
  change (core [] (set_state (<[Z.to_nat fd := Some h]> (m_state l)) l) w' ts).
  by apply core_table.
Qed.

Lemma remove_handler_ok fd l w ts : core [] l w ts -> table_range l fd ->
  wp (remove_handler fd) (fun _ st' => core [] (fst st') (snd st') ts /\ kept l (fst st') /\
    (no_work l -> no_work (fst st'))) no_exn (l, w).
Proof.
  intros Hc Hr. unfold remove_handler. loop_step. unfold wp at 1. rewrite reset_handler_run by done.
  loop_step. loop_step. loop_step. loop_step.
  eapply wp_mono; [..|exact (remove_fd_disarms (m_lkernel l) fd EVKERNEL_READ w)]; [|done].
  intros r w' (Hq & Hk). loop_step. split_and!; [|done|done].
  change (core [] (set_state (<[Z.to_nat fd := None]> (m_state l)) l) w' ts).
  apply core_table. eapply (core_env l); [exact Hc|apply same_shape_refl|done| |].
  - intros acc Hg. exists acc. eapply good_own; [apply (co_kernels _ _ _ _ Hc)|done..|].
    intros k' m Hwf Hs. destruct (Hk k' m Hwf) as (? & _ & Ha). by rewrite Ha.
  - intros T HT Ht. destruct (Hk _ _ (to_wf _ _ _ _ Ht)) as (Hwf & Hs & _). by eapply tok_shrink.
Qed.
(** An operation on [out] that took (part of) a request. *)
Lemma core_output l w ts st' acc' :
  core [] l w ts -> good st' (hands ts) acc' ->
  works (m_kernel (m_out l)) (m_queue (m_out l)) (fst st') -> spares (m_lkernel l) w (snd st') ->
  core [] (Loop.set_out (fst st') l) (snd st') ts /\ kept l (Loop.set_out (fst st') l) /\
  (no_work l -> no_work (Loop.set_out (fst st') l)).
Proof.
  destruct st' as [o' w']. simpl. intros Hc Hg [Hk Hq] Hs. split_and!; [|done|].
  - eapply core_env; [exact Hc|unfold same_shape; simpl; by rewrite Hk|done| |].
    + intros acc _. by exists acc'.
    + intros T _ Ht. by eapply tok_spares.
  - unfold no_work. simpl. by rewrite Hq.
Qed.

Definition unaffected (l : loop) (ts : list pc) (st' : lst) : Prop :=
  core [] (fst st') (snd st') ts /\ kept l (fst st') /\ (no_work l -> no_work (fst st')).

Lemma output_ok op l w ts :
  core [] l w ts -> writes op = true -> contract ((m_out l, w), hands ts) op ->
  wp (run_output op) (fun _ => unaffected l ts) (fun _ => unaffected l ts) (l, w).
Proof.
  intros Hc Hw Hct. destruct (co_out _ _ _ _ Hc) as [acc Hg].
  pose proof (co_kernels _ _ _ _ Hc) as Hne.
  assert (forall st' acc', good st' (hands ts) acc' ->
    works (m_kernel (m_out l)) (m_queue (m_out l)) (fst st') /\ spares (m_lkernel l) w (snd st') ->
    unaffected l ts (Loop.set_out (fst st') l, snd st')) as Hdone.
  { intros st' acc' Hg' [Hk Hs]. by eapply core_output. }
  destruct op as [fd buf size|fd rs|fd xf rs| | |]; try done; cbn [run_output].
  - destruct Hct as [Hr Hp]. loop_step.
    eapply wp_mono; [..|exact (own_out l w _ _ _ (resp_write _ _ _ Hne fd buf size)
      (write_ok _ _ _ _ fd buf size Hg Hr Hp))].
    + intros _ st' [[Hg' _] Hs]. by eapply Hdone.
    + intros e st' [(_ & toks & _ & Hg' & _) Hs]. by eapply Hdone.
  - destruct Hct as (Hr & Hok & Hsz & Ht). loop_step.
    eapply wp_mono; [..|exact (own_out l w _ _ _ (resp_commit_raw _ _ _ Hne fd (encode_all rs))
      (commit_raw_ok _ _ _ _ fd rs Hg Hr Hok Hsz Ht))].
    + intros _ st' [[Hg' _] Hs]. by eapply Hdone.
    + intros e st' [(_ & toks & _ & Hg' & _) Hs]. by eapply Hdone.
  - destruct Hct as (Hr & Hx & Hsz & Ht). apply wp_zoom. simpl.
    eapply wp_mono; [..|exact (wp_resp (m_lkernel l) (m_kernel (m_out l)) (m_queue (m_out l)) fst _ _ _ ((m_out l, w), xf)
      (resp_commit _ _ _ Hne fd) (conj eq_refl eq_refl) (commit_ok _ _ _ _ fd xf rs Hg Hr Hx Hsz Ht))].
    + intros _ t [[[Hg' _] _] Hs]. by eapply Hdone.
    + intros e t [[(_ & toks & _ & Hg' & _) _] Hs]. by eapply Hdone.
Qed.

(** An allocation. *)
Lemma core_alloc l w w' ts : core [] l w ts -> w_trace w' = w_trace w -> core [] l w' ts.
Proof.
  intros Hc Hw. eapply core_env; [exact Hc|apply same_shape_refl|done| |by rewrite Hw].
  intros acc [qs [Hrep Hsm Hwat Hstr Htok]]. exists acc, qs. simpl in *.
  split; simpl; rewrite ?Hw; done.
Qed.

Lemma unaffected_workers l w ts n : core [] l w ts -> unaffected l ts (set_workers n l, w).
Proof. intros Hc. split; [|done]. eapply (core_env l); [exact Hc|done|done| |done]. eauto. Qed.

Lemma add_thread_ok l w ts : core [] l w ts ->
  wp (add_thread 1) (fun _ => unaffected l ts) (fun _ => unaffected l ts) (l, w).
Proof.
  intros Hc. cbn [add_thread]. repeat loop_step. unfold thread_run. loop_step. apply wp_can_alloc_any.
  intros ok s _. set (w1 := World (w_trace w) s).
  pose proof (core_alloc l w w1 ts Hc eq_refl) as Hc1.
  destruct ok; simpl; [|repeat loop_step; exact (unaffected_workers l w1 ts (m_workers l) Hc1)].
  unfold thread_create, pthread_call. loop_step. apply wp_syscall. intros a _.
  pose proof (core_unrelated l w1 ts PthreadCreate a eq_refl Hc1) as Hc2.
  destruct a; repeat loop_step.
  - exact (unaffected_workers l _ ts (m_workers l + 1) Hc2).
  - exact (unaffected_workers l _ ts (m_workers l) Hc2).
Qed.
End Environment.

(** ** The invariant of all workers *)

Section Invariant.
Context {OS : Os} {Spec : OsSpec OS} {K : Kernel OS} {L : KernelLaws K}.

Abbreviation lst := (loop * world)%type.

(** Before [end] is called, no worker has left, a loop that may be polled has
    two workers that are up (or all), and a loop that is being polled has either
    nothing queued or another worker that is up. *)
Definition busy (l : loop) (ts : list pc) : Prop :=
  m_end_flag l = false ->
  (PcExit ∉ ts) /\ (m_pollable l = true -> Z.min 2 (zlen ts) <= countb active ts) /\
  (m_pollable l = false -> 2 <= zlen ts -> no_work l \/ 1 <= countb active ts).

(** A single worker takes tasks only from more than sixteen, and no output. *)
Definition alone (l : loop) (ts : list pc) (sta : list Z) : Prop :=
  (length ts <= 1)%nat ->
  (sta = [] \/ MP_WAVY_TASK_QUEUE_LIMIT <= zlen (m_task_queue l)) /\
  forall p, p ∈ ts -> p <> PcWait /\ hand_of p = None.

Record inv (c : conf) : Prop := {
  iv_core : core [] (fst (c_st c)) (snd (c_st c)) (c_ts c);
  iv_tasks : c_submitted c = c_started c ++ m_task_queue (fst (c_st c));
  iv_busy : busy (fst (c_st c)) (c_ts c);
  iv_alone : alone (fst (c_st c)) (c_ts c) (c_started c)
}.

Lemma all_up ts :
  alive ts -> (PcExit ∉ ts) -> countb is_wait ts = 0 -> countb active ts + countb polling ts = zlen ts.
Proof.
  intros Ha He Hw. apply countb_none in Hw. induction Hw as [|p ts Hp _ IH]; [done|].
  assert (countb active ts + countb polling ts = zlen ts) as IH'.
  { apply IH; [intros q Hq; apply Ha; by apply elem_of_cons; right|]. intros Hin. apply He.
    by apply elem_of_cons; right. }
  assert (p <> PcExit) by (intros ->; apply He; by apply elem_of_cons; left).
  assert (p <> PcDead) by (apply Ha; by apply elem_of_cons; left).
  unfold countb in *. rewrite !filter_cons. destruct p; simpl; repeat case_decide; simpl in *; try done; lia.
Qed.

(** [m_cond.signal()] either found nobody waiting or woke somebody. *)
Lemma signal_busy l w ts ts' :
  core [] l w ts -> alive ts -> (PcExit ∉ ts) -> 2 <= zlen ts -> signal ts ts' ->
  1 <= countb active ts' /\ (m_pollable l = true -> 2 <= countb active ts' \/ countb active ts + 1 <= countb active ts').
Proof.
  intros Hc Ha He Hn Hs. destruct (signal_view ts ts' Hs) as (_ & _ & _ & _ & Hl & _ & Hle & Hw).
  pose proof (co_poll _ _ _ _ Hc) as Hp. pose proof (countb_range active ts).
  destruct Hw as [Hw|Hw].
  - pose proof (all_up ts Ha He Hw). destruct (m_pollable l); lia.
  - split; [lia|]. intros _. right. lia.
Qed.
Lemma signalled_view b ts ts' :
  signalled b ts ts' ->
  length ts' = length ts /\ (forall p, p ∈ ts' -> p = PcLock \/ p ∈ ts) /\
  countb active ts <= countb active ts' /\ (alive ts' -> alive ts).
Proof.
  destruct b; simpl; intros Hs; [|subst; split_and!; auto; lia].
  destruct (signal_view ts ts' Hs) as (_ & _ & _ & _ & Hl & Hin & Hle & _). split_and!; try done.
  intros Ha p Hp ->. apply list_elem_of_lookup_1 in Hp as [k Hk].
  destruct Hs as [j Hj|_]; [|by eapply Ha; [eapply list_elem_of_lookup_2|]].
  eapply Ha; [|done]. apply (list_elem_of_lookup_2 _ k). rewrite list_lookup_insert_ne; [done|]. congruence.
Qed.

Lemma core_signalled b X l w ts ts' : signalled b ts ts' -> core X l w ts -> core X l w ts'.
Proof. destruct b; simpl; [apply core_signal|by intros ->]. Qed.

Lemma busy_signalled b l ts ts' : signalled b ts ts' -> busy l ts -> busy l ts'.
Proof.
  intros Hs Hb He. destruct (signalled_view b ts ts' Hs) as (Hl & Hin & Hle & _).
  destruct (Hb He) as (Hx & Hp & Hn). rewrite Hl. split_and!.
  - intros [?|?]%Hin; done.
  - intros H. specialize (Hp H). lia.
  - intros H Hlen. destruct (Hn H Hlen); [by left|right; lia].
Qed.

(** A worker that is up afterwards. *)
Lemma busy_active l l' ts i p p' :
  busy l ts -> ts !! i = Some p -> active p' = true ->
  m_end_flag l' = m_end_flag l -> m_pollable l' = m_pollable l -> busy l' (<[i := p']> ts).
Proof.
  intros Hb Hi Hp' He Hpo. unfold busy. rewrite He, Hpo, length_insert. intros H.
  destruct (Hb H) as (Hx & Hp & Hn).
  rewrite (countb_insert active _ _ _ _ Hi), Hp'. split_and!.
  - intros [Heq|?]%elem_insert; [by rewrite <-Heq in *|done].
  - intros H'. specialize (Hp H'). destruct (active p); lia.
  - intros _ _. right. rewrite <-(countb_insert active ts i p p' Hi) || idtac.
    assert (0 < countb active (<[i := p']> ts)) as Hpos.
    { eapply countb_pos; [|exact Hp']. apply (list_elem_of_lookup_2 _ i), list_lookup_insert_eq.
      by eapply lookup_lt_Some. }
    rewrite (countb_insert active _ _ _ _ Hi), Hp' in Hpos. lia.
Qed.

(** A worker that was not up. *)
Lemma busy_idle l l' ts i p p' :
  busy l ts -> ts !! i = Some p -> active p = active p' -> p' <> PcExit ->
  m_end_flag l' = m_end_flag l -> m_pollable l' = m_pollable l -> (no_work l -> no_work l') ->
  busy l' (<[i := p']> ts).
Proof.
  intros Hb Hi Hp' Hne He Hpo Hw. unfold busy. rewrite He, Hpo, length_insert. intros H.
  destruct (Hb H) as (Hx & Hp & Hn). rewrite (countb_same active _ _ _ _ Hi Hp'). split_and!; [|done|].
  - intros [Heq|?]%elem_insert; [by rewrite <-Heq in *|done].
  - intros H1 H2. destruct (Hn H1 H2); auto.
Qed.

Lemma busy_sched l l' w w' ts ts' i p p' b :
  core [] l w ts -> core [] l' w' (<[i := p']> ts) -> busy l ts -> ts !! i = Some p ->
  sched_step p l p' l' b -> signalled b (<[i := p']> ts) ts' -> alive (<[i := p']> ts) -> busy l' ts'.
Proof.
  intros Hc Hc' Hb Hi Hs Hsig Ha.
  assert (p' ∈ <[i := p']> ts) as Hin.
  { apply (list_elem_of_lookup_2 _ i), list_lookup_insert_eq. by eapply lookup_lt_Some. }
  destruct Hs as [p l p' l' b _ Hact _ _ [? ? _]|l t last l' _ _ _ ? ?|l ke l' _ [? ? _]|l Hp Hw
    |l l' Hp Hp' ? _|l He|l|l n l' [? ? _] Hw|l|l l' He He' _|l n p' l' Hact _ _ Hp' ? _|p l l' b _|p l Hp].
  - eapply busy_signalled; [done|]. by eapply busy_active.
  - eapply busy_signalled; [done|]. by eapply busy_active.
  - eapply busy_signalled; [done|]. by eapply busy_active.
  - simpl in Hsig. subst ts'. intros He. destruct (Hb He) as (Hx & _ & _). split_and!; [|congruence|by left].
    intros [?|?]%elem_insert; done.
  - simpl in Hsig. subst ts'. unfold busy. rewrite length_insert. intros He.
    destruct (Hb ltac:(congruence)) as (Hx & Hp2 & _). specialize (Hp2 Hp).
    split_and!; [by intros [?|?]%elem_insert|congruence|]. intros _ Hn. right.
    rewrite (countb_insert active _ _ _ _ Hi). simpl. lia.
  - intros He'. congruence.
  - eapply busy_signalled; [done|]. by eapply busy_active.
  - simpl in Hsig. subst ts'. by eapply busy_idle.
  - simpl in Hsig. subst ts'. by eapply busy_idle.
  - intros ?. congruence.
  - simpl in Hsig. intros He. destruct (Hb ltac:(congruence)) as (Hx & _ & _).
    assert (PcExit ∉ <[i := p']> ts) as Hx' by (intros [Heq|?]%elem_insert; [by rewrite <-Heq in Hact|done]).
    destruct (signalled_view true _ _ Hsig) as (Hlen & Hsub & Hle & _). rewrite Hlen.
    assert (0 < countb active (<[i := p']> ts)) as Hpos by (by eapply countb_pos).
    assert (1 <= zlen ts) by (apply lookup_lt_Some in Hi; lia).
    rewrite length_insert. split_and!; [by intros [?|?]%Hsub|intros _|congruence].
    destruct (Z.le_gt_cases 2 (zlen ts)) as [H2|H2]; [|lia].
    destruct (signal_busy l' w' _ _ Hc' Ha Hx' ltac:(by rewrite length_insert) Hsig) as [_ H3].
    specialize (H3 Hp'). lia.
  - by destruct (Ha PcDead Hin).
  - simpl in Hsig. subst ts'. rewrite list_insert_id by done. done.
Qed.

Lemma alone_sched l l' w ts ts' sta i p p' b :
  core [] l w ts -> alone l ts sta -> ts !! i = Some p -> sched_step p l p' l' b ->
  signalled b (<[i := p']> ts) ts' -> alive (<[i := p']> ts) -> alone l' ts' (sta ++ taken p p').
Proof.
  intros Hc Hal Hi Hs Hsig Ha. destruct (signalled_view b _ _ Hsig) as (Hlen & Hsub & _).
  unfold alone. rewrite Hlen, length_insert. intros H1. destruct (Hal H1) as [Hst Hps].
  destruct ts as [|q [|? ?]]; [done| |simpl in H1; lia]. destruct i as [|i]; [|done]. injection Hi as ->.
  assert (p = PcLock -> m_pollable l = true) as Hpoll.
  { intros ->. pose proof (co_poll _ _ _ _ Hc) as Hp. by destruct (m_pollable l). }
  pose proof (sched_tasks _ _ _ _ _ Hs) as Hq.
  assert (task_of p' = [] \/ p <> PcLock ->
    sta ++ taken p p' = [] \/ MP_WAVY_TASK_QUEUE_LIMIT <= zlen (m_task_queue l')) as Hkeep.
  { intros Ht. assert (taken p p' = []) as Hn by (unfold taken; destruct p; naive_solver).
    rewrite Hn in *. rewrite app_nil_r. simpl in Hq. by rewrite <-Hq. }
  assert (p' <> PcWait /\ hand_of p' = None /\
    (sta ++ taken p p' = [] \/ MP_WAVY_TASK_QUEUE_LIMIT <= zlen (m_task_queue l'))) as (H2 & H3 & H4).
  { destruct (Hps p) as [Hpw Hph]; [by apply list_elem_of_singleton|].
    destruct Hs as [p l p' l' b _ Hact Ht Hh _|l t last l' Hl Hq' _ _ _|l ke l' Hp _|l Hp _
      |l l' _ _ _ _|l _|l|l n l' _ _|l|l l' _ _ _|l n p' l' Hact Ht Hh _ _ _|p l l' b _|p l Hp];
      try (split_and!; [done|done|apply Hkeep; auto; by right]).
    - split_and!; [by destruct p'|done|apply Hkeep; auto].
    - split_and!; [done|done|]. right. destruct Hl as [Hl|Hl]; [by rewrite Hpoll in Hl|].
      rewrite Hq' in Hl. simpl in Hl. lia.
    - by rewrite Hpoll in Hp.
    - by rewrite Hpoll in Hp.
    - split_and!; [by destruct p'|done|apply Hkeep; auto].
    - split_and!; [done|done|apply Hkeep; destruct Hp as [->| ->]; auto]. }
  split; [done|]. intros r [->|Hr]%Hsub; [done|]. simpl in Hr. by apply list_elem_of_singleton in Hr as ->.
Qed.
Lemma wp_at {S A} (m : M S A) Q E s a s' : wp m Q E s -> m s = Ret a s' -> Q a s'.
Proof. unfold wp. by intros H Hr; rewrite Hr in H. Qed.

Lemma wp_thrown {S A} (m : M S A) Q E s e s' : wp m Q E s -> m s = Throw e s' -> E e s'.
Proof. unfold wp. by intros H Hr; rewrite Hr in H. Qed.

Lemma alive_insert ts i p' : alive (<[i := p']> ts) -> (i < length ts)%nat -> p' <> PcDead.
Proof. intros Ha Hi. apply Ha, (list_elem_of_lookup_2 _ i). by apply list_lookup_insert_eq. Qed.

(** The queues and flags were left as they are. *)
Lemma busy_kept l l' ts : kept l l' -> (no_work l -> no_work l') -> busy l ts -> busy l' ts.
Proof.
  intros [He Hp _] Hw Hb. unfold busy. rewrite He, Hp. intros H. destruct (Hb H) as (Hx & Hpo & Hn).
  split_and!; [done..|]. intros H1 H2. destruct (Hn H1 H2); auto.
Qed.

Lemma alone_kept l l' ts sta : m_task_queue l' = m_task_queue l -> alone l ts sta -> alone l' ts sta.
Proof. unfold alone. by intros ->. Qed.

Lemma alone_signalled b l ts ts' sta : signalled b ts ts' -> alone l ts sta -> alone l ts' sta.
Proof.
  intros Hs Hal. destruct (signalled_view b ts ts' Hs) as (Hlen & Hsub & _). unfold alone. rewrite Hlen.
  intros H1. destruct (Hal H1) as [? Hps]. split; [done|]. intros p [->|?]%Hsub; [done|by apply Hps].
Qed.

(** A handler's thread stays a handler's thread. *)
Lemma alone_insert l ts sta i p p' :
  alone l ts sta -> ts !! i = Some p -> p' <> PcWait -> hand_of p' = None -> alone l (<[i := p']> ts) sta.
Proof.
  intros Hal Hi H1 H2. unfold alone. rewrite length_insert. intros Hlen. destruct (Hal Hlen) as [? Hps].
  split; [done|]. intros q [->|?]%elem_insert; [done|by apply Hps].
Qed.

Lemma inv_unaffected st st' ts sub sta :
  inv (Conf st ts sub sta) -> unaffected (fst st) ts st' -> inv (Conf st' ts sub sta).
Proof.
  intros [_ Ht Hb Hal] (Hc' & Hk & Hw). split; simpl in *; [done| |by eapply busy_kept|].
  - destruct Hk as [_ _ ->]. done.
  - eapply alone_kept; [|done]. by destruct Hk.
Qed.

Lemma thread_inv st ts sub sta i p p' b st' ts' :
  inv (Conf st ts sub sta) -> ts !! i = Some p ->
  thread_code p st = Ret (p', b) st' -> signalled b (<[i := p']> ts) ts' -> alive ts' ->
  inv (Conf st' ts' sub (sta ++ taken p p')).
Proof.
  intros [Hc Ht Hb Hal] Hi Hrun Hsig Ha'. destruct st as [l w]. simpl in *.
  destruct (signalled_view b _ _ Hsig) as (_ & _ & _ & Ha). specialize (Ha Ha').
  destruct (wp_at _ _ _ _ _ _ (thread_ok p l w ts i Hc Hi) Hrun) as [Hc' Hs]. simpl in *.
  pose proof (alive_insert _ _ _ Ha (lookup_lt_Some _ _ _ Hi)) as Hd. specialize (Hc' Hd).
  split; simpl.
  - by eapply core_signalled.
  - by rewrite Ht, (sched_tasks _ _ _ _ _ Hs), app_assoc.
  - by eapply (busy_sched l).
  - by eapply (alone_sched l _ w ts).
Qed.

Lemma submit_inv st ts sub sta f st' ts' :
  inv (Conf st ts sub sta) -> alive ts -> submit_impl f st = Ret tt st' -> signal ts ts' ->
  inv (Conf st' ts' (sub ++ [f]) sta).
Proof.
  intros [Hc Ht Hb Hal] Ha Hrun Hsig. destruct st as [l w]. simpl in *.
  destruct (wp_at _ _ _ _ _ _ (submit_ok f l w ts Hc) Hrun) as (Hc' & Hq & He & Hp).
  destruct (signalled_view true _ _ Hsig) as (Hlen & Hsub & Hle & _). split; simpl.
  - by eapply core_signal.
  - by rewrite Ht, Hq, app_assoc.
  - unfold busy. rewrite He, Hp, Hlen. intros H. destruct (Hb H) as (Hx & H1 & _). split_and!.
    + by intros [?|?]%Hsub.
    + intros H'. specialize (H1 H'). lia.
    + intros _ Hn. right. by destruct (signal_busy l w ts ts' Hc Ha Hx Hn Hsig).
  - eapply (alone_signalled true); [done|]. intros H. destruct (Hal H) as [Hst ?]. split; [|done].
    rewrite Hq, length_app. destruct Hst; [by left|right; simpl; lia].
Qed.

Lemma end_inv st ts sub sta st' :
  inv (Conf st ts sub sta) -> end_loop st = Ret tt st' -> inv (Conf st' (broadcast ts) sub sta).
Proof.
  intros [Hc Ht Hb Hal] [= <-]. destruct st as [l w]. split; simpl in *; [|done|done|].
  - apply core_broadcast. eapply core_env; [exact Hc|done|done| |done]. eauto.
  - unfold alone, broadcast. rewrite length_fmap. intros H. destruct (Hal H) as [? Hps]. split; [done|].
    intros p (q & -> & Hq)%list_elem_of_fmap. destruct (Hps q Hq). by destruct (is_wait q).
Qed.

Lemma add_thread_inv st ts sub sta st' :
  inv (Conf st ts sub sta) -> add_thread 1 st = Ret tt st' -> inv (Conf st' (ts ++ [PcLock]) sub sta).
Proof.
  intros Hinv Hrun. destruct st as [l w].
  destruct (inv_unaffected _ _ _ _ _ Hinv (wp_at _ _ _ _ _ _ (add_thread_ok l w ts (iv_core _ Hinv)) Hrun))
    as [Hc Ht Hb Hal]. simpl in *.
  split; simpl; [by apply core_add_worker|done| |].
  - intros He. destruct (Hb He) as (Hx & H1 & _). rewrite countb_app, length_app. split_and!.
    + intros [?|?%list_elem_of_singleton]%elem_of_app; done.
    + intros H. specialize (H1 H). unfold countb at 2. simpl. lia.
    + intros _ _. right. pose proof (countb_range active ts). unfold countb at 2. simpl. lia.
  - unfold alone. rewrite length_app. simpl. intros H. destruct ts; [|simpl in H; lia].
    destruct Hal as [? _]; [simpl; lia|]. split; [done|]. by intros p ->%list_elem_of_singleton.
Qed.

Lemma action_inv st ts sub sta i h e a e' b st' ts' :
  inv (Conf st ts sub sta) -> ts !! i = Some (PcHandler h e) -> (is_removed e = true -> a = ActRemove) ->
  run_action a e st = Ret (e', b) st' -> signalled b (<[i := PcHandler h e']> ts) ts' ->
  inv (Conf st' ts' sub sta).
Proof.
  intros [Hc Ht Hb Hal] Hi Hrm Hrun Hsig. destruct st as [l w]. simpl in *.
  destruct (wp_at _ _ _ _ _ _ (action_ok a h e l w ts i Hc Hi Hrm) Hrun) as (Hc' & Hk). simpl in *.
  pose proof Hk as [He Hp Hq]. split; simpl.
  - by eapply core_signalled.
  - by rewrite Hq.
  - eapply busy_signalled; [done|]. by eapply (busy_active l).
  - eapply alone_signalled; [done|]. eapply alone_insert; [by eapply alone_kept|done..].
Qed.

Lemma return_inv st ts sub sta i h e cont :
  inv (Conf st ts sub sta) -> ts !! i = Some (PcHandler h e) ->
  inv (Conf st (<[i := PcFinish e cont]> ts) sub sta).
Proof.
  intros [Hc Ht Hb Hal] Hi. destruct st as [l w]. simpl in *.
  pose proof (co_pcs _ _ _ _ Hc _ (list_elem_of_lookup_2 _ _ _ Hi)) as Hok. split; simpl; [|done| |].
  - by eapply (core_work l).
  - by eapply (busy_active l).
  - by eapply alone_insert.
Qed.
Lemma step_inv c c' : inv c -> step c c' -> alive (c_ts c') -> inv c'.
Proof.
  intros Hinv Hs Ha'.
  destruct Hs as [st ts sub sta i p p' b st' ts' Ha Hi Hh Hrun Hsig|st ts sub sta i h e a e' b st' ts' Ha Hi Hrm Hrun Hsig
    |st ts sub sta i h e cont Ha Hi|st ts sub sta f st' ts' Ha Hrun Hsig|st ts sub sta fd h st' Ha [Hf _] Hr Hrun
    |st ts sub sta fd st' Ha Hr Hrun|st ts sub sta st' Ha Hrun|st ts sub sta st' Ha Hrun|st ts sub sta st' e Ha Hrun
    |st ts sub sta op st' Ha Hw Hct Hrun]; simpl in *.
  - by eapply thread_inv.
  - by eapply action_inv.
  - by eapply return_inv.
  - by eapply submit_inv.
  - destruct st as [l w]. pose proof (iv_core _ Hinv) as Hc. simpl in *.
    pose proof (add_handler_ok fd h l w ts Hc Hr Hf) as Hwp. eapply inv_unaffected; [done|].
    destruct Hrun as [Hrun|[e Hrun]]; [exact (wp_at _ _ _ _ _ _ Hwp Hrun)|].
    destruct (wp_thrown _ _ _ _ _ _ Hwp Hrun) as [Hc' Hl]. split; [done|]. by rewrite Hl.
  - destruct st as [l w]. pose proof (iv_core _ Hinv) as Hc. simpl in *. eapply inv_unaffected; [done|].
    exact (wp_at _ _ _ _ _ _ (remove_handler_ok fd l w ts Hc Hr) Hrun).
  - by eapply end_inv.
  - by eapply add_thread_inv.
  - destruct st as [l w]. eapply inv_unaffected; [done|].
    exact (wp_thrown _ _ _ _ _ _ (add_thread_ok l w ts (iv_core _ Hinv)) Hrun).
  - destruct st as [l w]. pose proof (output_ok op l w ts (iv_core _ Hinv) Hw Hct) as Hwp.
    eapply inv_unaffected; [done|].
    destruct Hrun as [Hrun|[e Hrun]]; [exact (wp_at _ _ _ _ _ _ Hwp Hrun)|exact (wp_thrown _ _ _ _ _ _ Hwp Hrun)].
Qed.

Lemma step_alive c c' : step c c' -> alive (c_ts c).
Proof. by destruct 1. Qed.

Lemma initial_inv c : initial c -> inv c.
Proof.
  destruct c as [[l w] ts sub sta]. unfold initial. simpl.
  intros (-> & -> & -> & Ho & Hn & Hb & Hp & Hq & Hm & He & Hk & Hwf & Harm & Hr & Hg). split; simpl.
  - split; try done.
    + by eexists.
    + by rewrite Hp.
    + intros _. rewrite Ho, Hn, Hb. simpl. lia.
    + by rewrite Hp.
    + unfold events, unread. rewrite Hp, Hb, Hm, drop_nil. simpl. split; [done|done|constructor|set_solver|].
      intros id [Hid|Hid]; [by apply not_elem_of_nil in Hid|]. apply Harm, elem_of_singleton in Hid as ->. done.
    + intros p Hin. by apply not_elem_of_nil in Hin.
  - by rewrite Hq.
  - intros _. split_and!; [by intros ?%not_elem_of_nil|done|done].
  - intros _. split; [by left|]. intros p Hin. by apply not_elem_of_nil in Hin.
Qed.

Lemma conf_inv c : reach c -> alive (c_ts c) -> inv c.
Proof.
  induction 1 as [c Hc|c c' Hr IH Hs]; intros Ha; [by apply initial_inv|].
  eapply step_inv; [|done..]. apply IH. by eapply step_alive.
Qed.

(** ** Properties *)

(** Events of two workers, and those nobody took yet. *)
Lemma held_exclusive (l : loop) (w : world) (ts : list pc) (i j : nat) (p q : pc) (e e' : kevent) :
  core [] l w ts -> i <> j -> ts !! i = Some p -> ts !! j = Some q -> e ∈ held p -> e' ∈ held q ->
  event_ident e <> event_ident e' /\
  (event_ident e ∉ armed (m_lkernel l) (w_trace w)) /\
  (event_ident e ∉ event_ident <$> m_more_queue l) /\
  (event_ident e ∉ event_ident <$> unread l ts).
Proof.
  intros Hc Hij Hp Hq He He'. pose proof (co_tokens _ _ _ _ Hc) as Ht. simpl in Ht.
  assert (concat (held <$> ts) ≡ₚ held p ++ concat (held <$> delete i ts)) as HR.
  { rewrite list_fmap_delete. apply concat_lookup. by rewrite list_lookup_fmap, Hp. }
  assert (e' ∈ concat (held <$> delete i ts)) as Hin'.
  { assert (q ∈ delete i ts) as Hqd.
    { destruct (decide (j < i)%nat).
      - apply (list_elem_of_lookup_2 _ j). by rewrite list_lookup_delete_lt.
      - apply (list_elem_of_lookup_2 _ (pred j)). rewrite list_lookup_delete_ge by lia.
        by replace (S (pred j)) with j by lia. }
    apply list_elem_of_lookup_1 in Hqd as [k Hk]. apply list_elem_of_In, in_concat.
    exists (held q). split; apply list_elem_of_In; [|done]. apply list_elem_of_fmap. exists q. split; [done|].
    by eapply list_elem_of_lookup_2. }
  unfold events in Ht. eapply tok_perm in Ht; [|by rewrite HR].
  destruct Ht as [_ _ Hnd Hd _]. rewrite !fmap_app in Hnd.
  assert (forall x (es : list kevent), x ∈ es -> event_ident x ∈ event_ident <$> es) as Hmap.
  { intros x es Hx. by apply list_elem_of_fmap_2. }
  rewrite list.NoDup_app in Hnd. destruct Hnd as (_ & Hu & Hnd).
  rewrite list.NoDup_app in Hnd. destruct Hnd as (_ & Hm & Hnd).
  rewrite list.NoDup_app in Hnd. destruct Hnd as (_ & Hh & _).
  split_and!.
  - intros Heq. apply (Hh (event_ident e)); [by apply Hmap|]. rewrite Heq. by apply Hmap.
  - intros Hx. apply (Hd (event_ident e)); [|done]. apply elem_of_list_to_set, Hmap.
    rewrite !elem_of_app. auto.
  - intros Hx. apply (Hm _ Hx). rewrite elem_of_app. left. by apply Hmap.
  - intros Hx. apply (Hu _ Hx). rewrite !elem_of_app. right. left. by apply Hmap.
Qed.


(** Before [end], two workers or more do not sleep while there is work. *)
Lemma inv_awake (c : conf) :
  inv c -> m_end_flag (fst (c_st c)) = false -> 2 <= zlen (c_ts c) ->
  (~ no_work (fst (c_st c)) -> exists i p, c_ts c !! i = Some p /\ active p = true) /\
  (m_pollable (fst (c_st c)) = true -> 2 <= countb active (c_ts c)).
Proof.
  intros [_ _ Hb _] He Hn. destruct (Hb He) as (_ & Hp & Hw).
  assert (m_pollable (fst (c_st c)) = true -> 2 <= countb active (c_ts c)) as Hp2.
  { intros H. specialize (Hp H). lia. }
  split; [|done]. intros Hwork. apply countb_elem.
  destruct (m_pollable (fst (c_st c))); [specialize (Hp2 eq_refl); lia|].
  destruct (Hw eq_refl Hn); [done|lia].
Qed.

(** C2. Queued work is never left to sleeping workers: before [end], with two
    or more workers, whenever a task, a continued event or a polled output
    event is queued, some worker is neither waiting nor polling; while nobody
    polls, two are. *)
Theorem no_starvation (c : conf) (Hr : reach c) (Ha : alive (c_ts c))
    (He : m_end_flag (fst (c_st c)) = false) (Hn : 2 <= zlen (c_ts c)) :
  (~ no_work (fst (c_st c)) -> exists i p, c_ts c !! i = Some p /\ active p = true) /\
  (m_pollable (fst (c_st c)) = true -> 2 <= countb active (c_ts c)).
Proof. apply inv_awake; [by apply conf_inv|done..]. Qed.

(** C11. One worker alone never starts a task while at most sixteen were
    submitted, and never resumes a transfer that [out] has queued. *)
Theorem single_worker_starves (c : conf) (Hr : reach c) (Ha : alive (c_ts c)) (Hn : (length (c_ts c) <= 1)%nat) :
  (zlen (c_submitted c) <= MP_WAVY_TASK_QUEUE_LIMIT -> c_started c = []) /\ hands (c_ts c) = [].
Proof.
  destruct (conf_inv c Hr Ha) as [_ Ht _ Hal]. destruct (Hal Hn) as [Hst Hps]. split.
  - rewrite Ht, length_app. intros Hlim. destruct Hst as [|Hq]; [done|].
    apply nil_length_inv. lia.
  - destruct (c_ts c) as [|p [|? ?]]; [done| |simpl in Hn; lia].
    destruct (Hps p) as [_ Hh]; [by apply list_elem_of_singleton|]. unfold hands. simpl. by rewrite Hh.
Qed.

(** C21. Tasks are started in the order in which they were submitted, each
    once; those not yet started are the queue. *)
Theorem tasks_fifo (c : conf) (Hr : reach c) (Ha : alive (c_ts c)) :
  c_submitted c = c_started c ++ m_task_queue (fst (c_st c)).
Proof. exact (iv_tasks _ (conf_inv c Hr Ha)). Qed.

(** C20. At most one worker polls the kernel, exactly when the loop is not
    pollable; the others never touch the backlog meanwhile. *)
Theorem poll_exclusive (c : conf) (Hr : reach c) (Ha : alive (c_ts c)) :
  countb polling (c_ts c) = (if m_pollable (fst (c_st c)) then 0 else 1) /\
  (m_pollable (fst (c_st c)) = true ->
     0 <= m_off (fst (c_st c)) <= m_num (fst (c_st c)) /\
     m_num (fst (c_st c)) = zlen (m_backlog (fst (c_st c)))).
Proof.
  destruct (conf_inv c Hr Ha) as [Hc _ _ _]. pose proof (co_poll _ _ _ _ Hc) as Hp. split; [done|].
  intros Hpo. rewrite Hpo in Hp. apply (co_pos _ _ _ _ Hc). apply countb_none. apply countb_none in Hp.
  eapply Forall_impl; [done|]. apply is_polled_polling.
Qed.

End Invariant.

(** ** Ending the loop *)

Section Ending.
Context {OS : Os} {K : Kernel OS}.

Abbreviation lst := (loop * world)%type.

(** How many pieces of code a worker has left once the loop was ended. *)
Definition rank (p : pc) : nat :=
  match p with
  | PcExit | PcDead => 0
  | PcLock => 1
  | PcWait | PcFlush | PcReset _ | PcOutReady _ => 2
  | PcTask _ _ | PcOut _ | PcFinish _ _ => 3
  | PcHandler _ _ => 4
  | PcFetch _ => 5
  | PcPolled _ => 6
  | PcPoll => 7
  end.

Lemma bind_inv {S A B} (m : M S A) (k : A -> M S B) s b s'' :
  (m ≫= k) s = Ret b s'' -> exists a s', m s = Ret a s' /\ k a s' = Ret b s''.
Proof. unfold mbind, M_bind. destruct (m s); [eauto|done..]. Qed.

(** Code that keeps the end flag. *)
Definition keeps_end {A} (m : M lst A) : Prop :=
  respects (fun st st' => m_end_flag (fst st') = m_end_flag (fst st)) m.

#[local] Instance end_preorder : PreOrder (fun st st' : lst => m_end_flag (fst st') = m_end_flag (fst st)).
Proof. split; [done|]. intros a b c. congruence. Qed.

Lemma keeps_get : keeps_end get_loop.
Proof. by intros st. Qed.

Lemma keeps_upd f : (forall l, m_end_flag (f l) = m_end_flag l) -> keeps_end (upd_loop f).
Proof. intros Hf st. apply Hf. Qed.

Lemma keeps_world {A} (m : M world A) : keeps_end (in_world m).
Proof. intros [l w]. unfold in_world, zoom. simpl. by destruct (m w). Qed.

Lemma keeps_m_out {A} (m : M (out * world) A) : keeps_end (on_m_out m).
Proof. intros [l w]. unfold on_m_out, zoom. simpl. by destruct (m (m_out l, w)). Qed.

Ltac keeps_step :=
  first [ apply keeps_get | apply keeps_upd; by intros [] | apply keeps_world | apply keeps_m_out
        | respects_step ].

Lemma thread_code_keeps p : keeps_end (thread_code p).
Proof.
  unfold keeps_end.
  destruct p; cbn [thread_code]; unfold schedule, out_event, poll_once, polled, out_ready, fetch, finish,
    reset, reset_handler, process_handler, next_backlog, pop_task; repeat keeps_step.
Qed.
(** Results of code that runs after the end. *)
Definition ends {A} (Q : A -> Prop) (m : M lst A) : Prop := forall st a st',
  m_end_flag (fst st) = true -> m st = Ret a st' -> Q a.

Lemma ends_ret {A} (Q : A -> Prop) a : Q a -> ends Q (mret a).
Proof. by intros HQ st a' st' _ [= <- _]. Qed.

Lemma ends_undef {A} (Q : A -> Prop) : ends Q undef.
Proof. done. Qed.

Lemma ends_then {A B} (P : A -> Prop) (Q : B -> Prop) (m : M lst A) k :
  keeps_end m -> ends P m -> (forall a, P a -> ends Q (k a)) -> ends Q (m ≫= k).
Proof.
  intros Hm Hp Hk st b st' He (a & st1 & H1 & H2)%bind_inv. eapply (Hk a); [by eapply Hp| |done].
  specialize (Hm st). rewrite H1 in Hm. congruence.
Qed.

Lemma ends_bind {A B} (Q : B -> Prop) (m : M lst A) k :
  keeps_end m -> (forall a, ends Q (k a)) -> ends Q (m ≫= k).
Proof. intros Hm Hk. apply (ends_then (fun _ => True)); [done..|]. auto. Qed.

Lemma ends_get {B} (Q : B -> Prop) (k : loop -> M lst B) :
  (forall l, m_end_flag l = true -> ends Q (k l)) -> ends Q (get_loop ≫= k).
Proof. intros Hk st b st' He Hrun. by apply (Hk (fst st) He st b st'). Qed.

Lemma ends_catch {A} (Q : A -> Prop) (m : M lst A) h :
  keeps_end m -> ends Q m -> (forall e, ends Q (h e)) -> ends Q (catch m h).
Proof.
  intros Hk Hm Hh st a st' He. unfold catch. specialize (Hk st). destruct (m st) as [b s1|e s1| |] eqn:Hr; try done.
  - intros [= <- _]. by eapply Hm.
  - apply Hh. congruence.
Qed.

Ltac ends_step :=
  lazymatch goal with
  | |- forall _, _ => intros ?
  | |- ends _ (mbind _ get_loop) => let Hf := fresh in apply ends_get; intros ? Hf; rewrite ?Hf; clear Hf
  | |- ends _ (mbind _ _) => apply ends_bind; [unfold keeps_end; repeat keeps_step|]
  | |- ends _ (mret (if ?b then _ else _)) => destruct b
  | |- ends _ (mret _) => apply ends_ret; simpl; lia
  | |- ends _ undef => apply ends_undef
  | |- ends _ (catch _ _) => apply ends_catch; [unfold keeps_end; repeat keeps_step| |]
  | |- ends _ (if ?b then _ else _) => destruct b
  | |- ends _ (match ?x with _ => _ end) => destruct x
  | |- ends _ (let _ := _ in _) => cbv zeta
  end.

Lemma ends_process_handler ke : ends (fun p => (rank p < 6)%nat) (process_handler ke).
Proof. unfold process_handler. repeat ends_step. Qed.

(** C12. After [end], every worker leaves: each piece of code of a worker that
    is not inside a handler brings it closer to the exit, so that seven pieces
    and the return of its handler are enough, and the flag stays set. *)
Theorem ended_worker_leaves (p : pc) (st : lst) (p' : pc) (b : bool) (st' : lst)
    (He : m_end_flag (fst st) = true) (Hp : is_handler p = false) (Hx : p <> PcExit) (Hd : p <> PcDead)
    (Hrun : thread_code p st = Ret (p', b) st') :
  (rank p' < rank p)%nat /\ m_end_flag (fst st') = true.
Proof.
  split.
  - pose (Q := fun r : pc * bool => (rank (fst r) < rank p)%nat).
    assert (ends Q (thread_code p)) as Hends; [|exact (Hends st (p', b) st' He Hrun)]. subst Q.
    destruct p as [| |t l| |ke| |n|ke|ke|h e|e cont|ident| |]; try done; cbn [thread_code];
      unfold schedule, out_event, poll_once, polled, out_ready, fetch, finish, reset, reset_handler.
    all: try (eapply ends_then; [unfold keeps_end, process_handler, next_backlog; repeat keeps_step
      | |intros a Ha; apply ends_ret; exact Ha]); try destruct l; repeat ends_step.
    + unfold next_backlog. repeat keeps_step.
    + apply ends_process_handler.
  - pose proof (thread_code_keeps p st) as Hk. rewrite Hrun in Hk. congruence.
Qed.
End Ending.

(** ** Runs on a concrete environment *)

Section Runs.
Context {OS : Os} {K : Kernel OS} {L : KernelLaws K}.

(** The first waiting worker is woken. *)
Definition wake (ts : list pc) : list pc :=
  match list_find (fun p => is_wait p = true) ts with Some (j, _) => <[j := PcLock]> ts | None => ts end.

Lemma wake_signal ts : signal ts (wake ts).
Proof.
  unfold wake. destruct (list_find _ ts) as [[j p]|] eqn:Hf.
  - apply list_find_Some in Hf as (Hj & Hp & _). destruct p; try done. by constructor.
  - apply list_find_None in Hf. constructor. eapply Forall_impl; [exact Hf|]. intros p Hp. by apply not_true_is_false.
Qed.

Definition woken (b : bool) (ts : list pc) : list pc := if b then wake ts else ts.

Lemma woken_signalled b ts : signalled b ts (woken b ts).
Proof. destruct b; simpl; [apply wake_signal|done]. Qed.

(** Moves, by which worker and of which kind. *)
Inductive move : Type :=
| MThread (i : nat)
| MWorker
| MSubmit (f : Z)
| MHandler (fd h : Z).

Definition run_move (m : move) (c : conf) : option conf :=
  match m with
  | MThread i =>
      match c_ts c !! i with
      | Some p =>
          if is_handler p then None else
          match thread_code p (c_st c) with
          | Ret (p', b) st' =>
              Some (Conf st' (woken b (<[i := p']> (c_ts c))) (c_submitted c) (c_started c ++ taken p p'))
          | _ => None
          end
      | None => None
      end
  | MWorker =>
      match add_thread 1 (c_st c) with
      | Ret tt st' => Some (Conf st' (c_ts c ++ [PcLock]) (c_submitted c) (c_started c))
      | _ => None
      end
  | MSubmit f =>
      match submit_impl f (c_st c) with
      | Ret tt st' => Some (Conf st' (wake (c_ts c)) (c_submitted c ++ [f]) (c_started c))
      | _ => None
      end
  | MHandler fd h =>
      if decide ((fd ∉ event_ident <$> events (fst (c_st c)) (c_ts c)) /\
                 (fd ∉ armed (m_lkernel (fst (c_st c))) (w_trace (snd (c_st c))))) then
        if (0 <=? fd) && (fd <? zlen (m_state (fst (c_st c)))) then
          match add_handler_impl fd h (c_st c) with
          | Ret tt st' => Some (Conf st' (c_ts c) (c_submitted c) (c_started c))
          | _ => None
          end
        else None
      else None
  end.

Definition is_alive (ts : list pc) : bool := forallb (fun p => match p with PcDead => false | _ => true end) ts.

Lemma is_alive_spec ts : is_alive ts = true -> alive ts.
Proof. intros H p Hp ->. unfold is_alive in H. rewrite forallb_forall in H. by specialize (H _ (proj1 (list_elem_of_In _ _) Hp)). Qed.

Fixpoint run_moves (ms : list move) (c : conf) : option conf :=
  match ms with
  | [] => Some c
  | m :: ms => if is_alive (c_ts c) then run_move m c ≫= run_moves ms else None
  end.

Lemma run_move_step m c c' : alive (c_ts c) -> run_move m c = Some c' -> step c c'.
Proof.
  destruct c as [st ts sub sta]. intros Ha. destruct m as [i| |f|fd h]; cbn [run_move c_ts c_st c_submitted c_started].
  - destruct (ts !! i) as [p|] eqn:Hi; [|done]. destruct (is_handler p) eqn:Hh; [done|].
    destruct (thread_code p st) as [[p' b] st'|e st'| |] eqn:Hrun; [|done..]. intros [= <-].
    eapply step_thread; [done..|apply woken_signalled].
  - destruct (add_thread 1 st) as [[] st'|e st'| |] eqn:Hrun; [|done..]. intros [= <-]. by apply step_add_thread.
  - destruct (submit_impl f st) as [[] st'|e st'| |] eqn:Hrun; [|done..]. intros [= <-].
    eapply step_submit; [done..|apply wake_signal].
  - case_decide as Hf; [|done].
    destruct (Z.leb_spec 0 fd), (Z.ltb_spec fd (zlen (m_state (fst st)))); simpl; try done.
    destruct (add_handler_impl fd h st) as [[] st'|e st'| |] eqn:Hrun; [|done..]. intros [= <-].
    eapply step_add_handler; [done|exact Hf|done|by left].
Qed.

Lemma run_moves_reach ms c c' : reach c -> run_moves ms c = Some c' -> reach c'.
Proof.
  revert c. induction ms as [|m ms IH]; intros c Hr; simpl; [by intros [= <-]|].
  destruct (is_alive (c_ts c)) eqn:Ha; [|done]. destruct (run_move m c) as [c1|] eqn:Hm; [|done]. simpl.
  apply IH. eapply reach_step; [exact Hr|]. by eapply run_move_step; [apply is_alive_spec|].
Qed.
End Runs.

(** An equation between computed values. *)
Ltac evaluated := match goal with |- _ = ?y => vm_cast_no_check (@eq_refl _ y) end.

Section Witnesses.

#[local] Instance os : Os := ready_os [].

(** A loop as its constructor leaves it, with 16 descriptors. *)
Definition w_l : @loop os (epoll_kernel os) :=
  @MkLoop os (epoll_kernel os) 0 0 true [] (<[5%nat := Some out_handler]> (replicate 16 None)) 3 [] []
    (@MkOut os (epoll_kernel os) 5 (replicate 16 xfer_new) [] 0) false 0 false.

Definition w_w : world := World
  [Sys (EpollCreate 1024) (SysOk 3 []); Sys Getrlimit (SysOk 16 []); Sys (EpollCreate 1024) (SysOk 5 []);
   Sys Getrlimit (SysOk 16 []); Sys (EpollAdd 3 5 1073741825 4611686022722355205) (SysOk 0 [])] [].

(** The part of a loop that a comparison can look at. *)
Definition plain_loop (l : @loop os (epoll_kernel os)) (w : world)
    : list Z * list (option Z) * list xfer * trace :=
  ([m_off l; m_num l; Z.b2z (m_pollable l); Z.b2z (m_end_flag l); m_lkernel l; m_kernel (m_out l);
    m_watching (m_out l); m_workers l] ++ m_backlog l ++ m_task_queue l ++ m_more_queue l ++ m_queue (m_out l),
   m_state l, m_fdctx (m_out l), w_trace w).

Lemma w_loop_new :
  match loop_new (World [] []) with Ret l w => Some (plain_loop l w) | _ => None end = Some (plain_loop w_l w_w).
Proof. evaluated. Qed.

Definition w_loop : @conf os (epoll_kernel os) := Conf (w_l, w_w) [] [] [].

Lemma w_initial : initial w_loop.
Proof.
  unfold initial. cbn [w_loop c_st c_ts c_submitted c_started fst snd].
  do 9 (split; [reflexivity|]). split; [reflexivity|].
  split; [change (3 <> 5); lia|]. split; [decided|]. split; [decided|]. split; [change (0 <= 5 < 16); lia|].
  apply fresh_good; [decided|decided|decided|]. intros fd. unfold sent. cbn [w_w w_trace snd].
  by repeat (rewrite filter_cons_False; [|by destruct (decide (fd = 0))]).
Qed.

Definition w_after (ms : list move) : @conf os (epoll_kernel os) := default w_loop (run_moves ms w_loop).

Lemma w_reach ms : match run_moves ms w_loop with Some _ => true | None => false end = true -> reach (w_after ms).
Proof.
  destruct (run_moves ms w_loop) as [c|] eqn:Hc; [intros _|done]. unfold w_after. rewrite Hc. eapply run_moves_reach; [|exact Hc]. constructor. apply w_initial.
Qed.

(** Two workers and two handlers: both descriptors are ready, and each worker
    takes one of the events. *)
Definition w_two : list move :=
  [MWorker; MWorker; MHandler 9 100; MHandler 10 101; MThread 0; MThread 0; MThread 0; MThread 1;
   MThread 1; MThread 0; MThread 1].

(** What a worker is doing. *)
Definition w_at (ms : list move) (i : nat) : @pc os (epoll_kernel os) := default PcExit (c_ts (w_after ms) !! i).

Lemma w_at_some ms i :
  match c_ts (w_after ms) !! i with Some _ => true | None => false end = true ->
  c_ts (w_after ms) !! i = Some (w_at ms i).
Proof. unfold w_at. by destruct (c_ts (w_after ms) !! i). Qed.

(** A task is submitted while one of two workers polls. *)
Definition w_busy : list move := [MWorker; MWorker; MThread 1; MThread 0; MSubmit 7].

Lemma no_starvation_witness :
  zlen (m_task_queue (fst (c_st (w_after w_busy)))) = 1 /\
  exists i p, c_ts (w_after w_busy) !! i = Some p /\ active p = true.
Proof.
  split; [evaluated|]. refine (proj1 (no_starvation (w_after w_busy) _ _ _ _) _).
  - apply w_reach. evaluated.
  - apply is_alive_spec. evaluated.
  - evaluated.
  - apply Z.leb_le. evaluated.
  - intros [Hq _]. assert (length (m_task_queue (fst (c_st (w_after w_busy)))) = 1%nat) as H1 by evaluated.
    by rewrite Hq in H1.
Defined.

(** One worker, three tasks: it polls and handles, and no task is started. *)
Definition w_single : list move :=
  [MWorker; MSubmit 7; MSubmit 8; MSubmit 9; MThread 0; MThread 0; MThread 0; MThread 0; MThread 0].

Lemma single_worker_starves_witness :
  c_submitted (w_after w_single) = [7; 8; 9] /\ c_started (w_after w_single) = [].
Proof.
  split; [evaluated|]. refine (proj1 (single_worker_starves (w_after w_single) _ _ _) _).
  - apply w_reach. evaluated.
  - apply is_alive_spec. evaluated.
  - apply Nat.leb_le. evaluated.
  - apply Z.leb_le. evaluated.
Defined.

(** Two workers: while one polls, the other starts the first of two tasks. *)
Definition w_tasks : list move := [MWorker; MWorker; MSubmit 7; MSubmit 8; MThread 0; MThread 1].

Lemma tasks_fifo_witness :
  c_started (w_after w_tasks) = [7] /\
  c_submitted (w_after w_tasks) = c_started (w_after w_tasks) ++ m_task_queue (fst (c_st (w_after w_tasks))).
Proof.
  split; [evaluated|]. apply (tasks_fifo (w_after w_tasks)).
  - apply w_reach. evaluated.
  - apply is_alive_spec. evaluated.
Defined.

Lemma poll_exclusive_witness :
  m_pollable (fst (c_st (w_after w_tasks))) = false /\
  countb polling (c_ts (w_after w_tasks)) = if m_pollable (fst (c_st (w_after w_tasks))) then 0 else 1.
Proof.
  split; [evaluated|]. refine (proj1 (poll_exclusive (w_after w_tasks) _ _)).
  - apply w_reach. evaluated.
  - apply is_alive_spec. evaluated.
Defined.


Definition w_ended : @loop os (epoll_kernel os) * world := (Loop.set_end true w_l, w_w).

Lemma ended_worker_leaves_witness :
  thread_code PcLock w_ended = Ret (PcExit, false) w_ended /\
  (rank (@PcExit os (epoll_kernel os)) < rank (@PcLock os (epoll_kernel os)))%nat.
Proof.
  assert (thread_code PcLock w_ended = Ret (PcExit, false) w_ended) as Hrun by reflexivity.
  split; [exact Hrun|].
  refine (proj1 (ended_worker_leaves PcLock w_ended PcExit false w_ended _ _ _ _ Hrun)); [reflexivity..|done|done].
Defined.
End Witnesses.
