(* ===== verification/LoopLife.v ===== *)
(** * The life of a loop: construction, joining the workers

    The constructor of [loop_impl], on the epoll kernel, gives the state from
    which LoopThreads starts, or undoes what it did; [run] waits for every worker
    once; the destructor joins, and destroys the handlers that no client has a pointer
    to, each by the destructor of its class (a parameter; [Dispatch.object_delete] is
    that of the classes of the library), or throws if the loop was detached. *)

From Stdlib Require Import ZArith Lia.
From stdpp Require Import base tactics option list numbers gmap sets fin_sets.
From S2P Require Import Prelude Os Pthread Xfer XferQueue Kernel KernelEpoll Out OutProps Loop LoopThreads.

(** The epoll descriptors that are open. *)
Definition open_step (s : gset Z) (ev : event) : gset Z :=
  match ev with
  | Sys (EpollCreate _) (SysOk n _) => {[n]} ∪ s
  | Sys (Close n) _ => s ∖ {[n]}
  | _ => s
  end.

Definition open_epolls (tr : trace) : gset Z := fold_left open_step tr ∅.

Lemma open_epolls_snoc tr ev : open_epolls (tr ++ [ev]) = open_step (open_epolls tr) ev.
Proof. unfold open_epolls. by rewrite fold_left_app. Qed.

(** epoll_create(2), getrlimit(2): a new descriptor is none of the open ones, and
    below the limit, which fits an int. *)
Class DescriptorSpec (OS : Os) (limit : Z) : Prop := {
  limit_fits : limit < 2 ^ 31;
  getrlimit_value tr n out : sys tr Getrlimit = SysOk n out -> n = limit;
  epoll_create_new tr size n out :
    sys tr (EpollCreate size) = SysOk n out -> (n ∉ open_epolls tr) /\ 0 <= n < limit
}.

Section Construction.
Context {OS : Os} {OSpec : OsSpec OS} {Spec : EpollSpec OS} {limit : Z} {DSpec : DescriptorSpec OS limit}.

Abbreviation eloop := (@loop OS (epoll_kernel OS)).

(** A step of a constructor that makes a system call. *)
Ltac call a Ha := repeat wp_step; apply wp_syscall; intros a Ha.

Lemma close_undone tr tr' ep size out a :
  (ep ∉ open_epolls tr) -> open_epolls tr' = open_epolls (tr ++ [Sys (EpollCreate size) (SysOk ep out)]) ->
  open_epolls (tr' ++ [Sys (Close ep) a]) = open_epolls tr.
Proof. intros Hn Heq. rewrite open_epolls_snoc, Heq, open_epolls_snoc. cbn. set_solver. Qed.

(** Why a construction fails: memory ran out, or a call of the constructors failed. *)
Definition unbuilt (e : exn) (tr : trace) : Prop :=
  e = BadAlloc \/ exists r er, (r = EpollCreate MP_WAVY_KERNEL_BACKLOG_SIZE \/ r = Getrlimit) /\
    Sys r (SysErr er) ∈ tr /\ e = SystemError (errno_code er).

Lemma unbuilt_app e tr tr' : unbuilt e tr -> unbuilt e (tr ++ tr').
Proof. intros [->|(r & er & Hr & Hin & ->)]; [by left|]. right. exists r, er. split_and!; [done| |done]. apply elem_of_app. by left. Qed.

Lemma unbuilt_last er tr r :
  (r = EpollCreate MP_WAVY_KERNEL_BACKLOG_SIZE \/ r = Getrlimit) -> unbuilt (SystemError (errno_code er)) (tr ++ [Sys r (SysErr er)]).
Proof. intros Hr. right. exists r, er. split_and!; [done| |done]. apply elem_of_app. right. by left. Qed.

(** The [out] object, with an epoll descriptor of its own, or nothing. *)
Lemma out_new_outcome w :
  wp (@out_new OS (epoll_kernel OS))
    (fun o w' => exists a b ep, sys (w_trace w) (EpollCreate MP_WAVY_KERNEL_BACKLOG_SIZE) = SysOk ep a /\
       o = @MkOut OS (epoll_kernel OS) ep (replicate (Z.to_nat limit) xfer_new) [] 0 /\
       w_trace w' = w_trace w ++ [Sys (EpollCreate MP_WAVY_KERNEL_BACKLOG_SIZE) (SysOk ep a); Sys Getrlimit b])
    (fun e w' => open_epolls (w_trace w') = open_epolls (w_trace w) /\ unbuilt e (w_trace w')) w.
Proof.
  unfold out_new. cbn [kernel_new kernel_delete epoll_kernel]. unfold epoll_new, epoll_delete. call a Ha. symmetry in Ha.
  destruct a as [ep out|e]; [|wp_step; cbn [w_trace]; split; [by rewrite open_epolls_snoc|apply unbuilt_last; by left]].
  destruct (epoll_create_new _ _ _ _ Ha) as [Hnew Hr].
  repeat wp_step. apply wp_can_alloc; [done|]. destruct (default true _); cbn [negb].
  2:{ repeat wp_step. call c Hc. repeat wp_step. cbn [w_trace]. split; [by eapply close_undone|by left]. }
  repeat wp_step. apply wp_syscall. intros b Hb. symmetry in Hb. destruct b as [rl o|e].
  2:{ repeat wp_step. call c Hc. repeat wp_step. cbn [w_trace]. split; [eapply close_undone; [done|]; by rewrite open_epolls_snoc|].
      apply unbuilt_app, unbuilt_last. by right. }
  apply getrlimit_value in Hb as ->. pose proof limit_fits as Hl.
  repeat wp_step. apply wp_can_alloc; [unfold sizeof_xfer_impl; lia|]. destruct (default true _); cbn [negb].
  - repeat wp_step. eexists _, _, ep. split; [done|]. split; [done|]. cbn [w_trace]. by rewrite <-app_assoc.
  - repeat wp_step. call c Hc. repeat wp_step. cbn [w_trace]. split; [eapply close_undone; [done|]; by rewrite open_epolls_snoc|by left].
Qed.

(** The trace of a construction that succeeds, before [out] is registered. *)
Definition constructed (ep ep2 : Z) (a : list Z) (b : sysret) (c : list Z) (d : sysret) : trace :=
  [Sys (EpollCreate MP_WAVY_KERNEL_BACKLOG_SIZE) (SysOk ep a); Sys Getrlimit b;
   Sys (EpollCreate MP_WAVY_KERNEL_BACKLOG_SIZE) (SysOk ep2 c); Sys Getrlimit d].

(** The loop it leaves. *)
Definition new_loop (ep ep2 : Z) : eloop :=
  set_state (<[Z.to_nat ep2 := Some out_handler]> (replicate (Z.to_nat limit) None))
    (@MkLoop OS (epoll_kernel OS) 0 0 true [] (replicate (Z.to_nat limit) None) ep [] []
       (@MkOut OS (epoll_kernel OS) ep2 (replicate (Z.to_nat limit) xfer_new) [] 0) false 0 false).

(** The registration of [out] in the loop's kernel. *)
Definition add_out (ep ep2 : Z) : request :=
  EpollAdd ep ep2 (wrap32 (Z.lor EPOLLIN EPOLLONESHOT)) (ev_data ep2 (wrap32 (Z.lor EPOLLIN EPOLLONESHOT))).

(** What is registered then. *)
Lemma constructed_regs ep ep2 a b c d r :
  ep2 <> ep ->
  let events := wrap32 (Z.lor EPOLLIN EPOLLONESHOT) in let tr := constructed ep ep2 a b c d ++ [Sys (add_out ep ep2) r] in
  regs_of ep tr = (if is_err r then ∅ else {[ep2 := (events, ev_data ep2 events)]}) /\ regs_of ep2 tr = ∅.
Proof.
  intros Hne. cbv zeta. unfold add_out. set (events := wrap32 _).
  split; destruct b, d, r; cbn; by rewrite ?bool_decide_true, ?bool_decide_false by congruence.
Qed.

Lemma constructed_initial ep ep2 a b c d r s :
  ep2 <> ep -> 0 <= ep2 < limit ->
  initial (Conf (new_loop ep ep2, World (constructed ep ep2 a b c d ++ [Sys (add_out ep ep2) r]) s) [] [] []).
Proof.
  intros Hne Hr. unfold add_out. pose proof limit_fits as Hl. unfold initial. cbn [c_st c_ts c_submitted c_started fst snd].
  do 10 (split; [reflexivity|]). split; [cbn; congruence|]. cbn [m_lkernel new_loop set_state m_out m_kernel w_trace].
  destruct (constructed_regs ep ep2 a b c d r Hne) as [Hreg Hreg2]. unfold add_out in *.
  set (events := wrap32 (Z.lor EPOLLIN EPOLLONESHOT)) in *.
  split; [|split; [|split]].
  - cbn [kernel_wf epoll_laws]. unfold epoll_wf. rewrite Hreg. destruct r; cbn [is_err]; [|apply map_Forall_empty].
    apply map_Forall_singleton. cbn [fst snd]. split_and!; [lia|lia|apply wrap_range; lia|apply wrap_range; lia|apply one_shot_set|done].
  - cbn [armed epoll_laws]. unfold epoll_armed. rewrite Hreg. destruct r; cbn [is_err]; [by rewrite dom_singleton_L|set_solver].
  - unfold table_range. cbn. rewrite length_insert, length_replicate. lia.
  - apply fresh_good; [rewrite length_replicate; lia| |cbn [armed epoll_laws]; unfold epoll_armed; cbn [w_trace]; by rewrite Hreg2|].
    + cbn [kernel_wf epoll_laws]. unfold epoll_wf. cbn [w_trace]. rewrite Hreg2. apply map_Forall_empty.
    + intros fd. unfold sent, constructed. cbn [w_trace]. destruct (decide (fd = 0)); reflexivity.
Qed.

(** The constructor of [loop_impl] returns, with two epoll descriptors of its own and
    [out] registered if the kernel accepted it, or throws with both closed. *)
Lemma loop_new_shape (s : list bool) :
  wp (@loop_new OS (epoll_kernel OS))
    (fun l w' => exists ep ep2 a b c d, ep2 <> ep /\ 0 <= ep2 < limit /\ l = new_loop ep ep2 /\
       sys [Sys (EpollCreate MP_WAVY_KERNEL_BACKLOG_SIZE) (SysOk ep a); Sys Getrlimit b] (EpollCreate MP_WAVY_KERNEL_BACKLOG_SIZE) = SysOk ep2 c /\
       w_trace w' = constructed ep ep2 a b c d ++ [Sys (add_out ep ep2) (sys (constructed ep ep2 a b c d) (add_out ep ep2))])
    (fun e w' => open_epolls (w_trace w') = ∅ /\ unbuilt e (w_trace w')) (World [] s).
Proof.
  unfold loop_new. wp_step. apply wp_can_alloc; [done|]. destruct (default true _); cbn [negb]; [|by wp_step; split; [|left]].
  cbn [kernel_new kernel_max kernel_delete kernel_ident epoll_kernel]. unfold epoll_new, epoll_max, epoll_delete.
  call a Ha. symmetry in Ha. destruct a as [ep out|e]; [|by wp_step; split; [|apply (unbuilt_last _ []); by left]].
  destruct (epoll_create_new _ _ _ _ Ha) as [_ Hr]. pose proof limit_fits as Hl.
  call b Hb. symmetry in Hb. destruct b as [rl o|e].
  2:{ repeat wp_step. call c Hc. repeat wp_step. split; [cbn; set_solver|]. apply unbuilt_app, unbuilt_last. by right. }
  apply getrlimit_value in Hb as ->.
  repeat wp_step. apply wp_can_alloc; [unfold sizeof_shared_handler; lia|]. destruct (default true _); cbn [negb].
  2:{ repeat wp_step. call c Hc. repeat wp_step. split; [cbn; set_solver|by left]. }
  repeat wp_step. eapply wp_mono; [..|apply out_new_outcome].
  2:{ intros e w' [Ho Hun]. repeat wp_step. call c Hc. repeat wp_step. cbn [w_trace].
      split; [rewrite open_epolls_snoc, Ho; cbn; set_solver|by apply unbuilt_app]. }
  intros ob w' (a2 & b2 & ep2 & Hs & -> & Htr). destruct (epoll_create_new _ _ _ _ Hs) as [Hn2 Hr2].
  assert (ep2 <> ep) as Hne by (cbn in Hn2; set_solver).
  wp_step. unfold wp at 1, with_loop. rewrite set_handler_run.
  2:{ unfold table_range. cbn [m_state kernel_ident epoll_kernel m_kernel]. rewrite length_replicate. lia. }
  unfold add_kernel. call r Hr'. repeat wp_step. destruct w' as [tr' s']. cbn [w_trace w_alloc] in *. subst tr'.
  exists ep, ep2, out, (SysOk limit o), a2, b2. split; [exact Hne|]. split; [exact Hr2|]. split; [reflexivity|]. split; [exact Hs|]. by rewrite Hr'.
Qed.

(** The loop is in the state from which the worker threads start. *)
Theorem loop_new_outcome (s : list bool) :
  wp (@loop_new OS (epoll_kernel OS))
    (fun l w' => initial (Conf (l, w') [] [] []) /\ open_epolls (w_trace w') = {[m_lkernel l; m_kernel (m_out l)]})
    (fun e w' => open_epolls (w_trace w') = ∅) (World [] s).
Proof.
  eapply wp_mono; [..|apply loop_new_shape]; [|by intros e w' [? _]].
  intros l [tr s'] (ep & ep2 & a & b & c & d & Hne & Hr & -> & _ & Htr). cbn [w_trace] in Htr. subst tr. split.
  - by apply constructed_initial.
  - destruct b, d; cbn; set_solver.
Qed.
End Construction.

(** ** Starting and joining the workers *)

Section Workers.
Context {OS : Os} {K : Kernel OS}.

(** Every thread of the list is joined once, in order; one that would wait for
    itself is detached instead. *)
Inductive joined : list Z -> trace -> Prop :=
| joined_nil : joined [] []
| joined_join t ts n out tr :
    joined ts tr -> joined (t :: ts) (Sys (PthreadJoin t) (SysOk n out) :: tr)
| joined_detach t ts e n out tr :
    errno_code e = errno_code EDEADLK -> joined ts tr ->
    joined (t :: ts) (Sys (PthreadJoin t) (SysErr e) :: Sys (PthreadDetach t) (SysOk n out) :: tr).

Definition pthread_exn (e : exn) : Prop := exists code, e = PthreadError code.

Definition joining (ev : event) : bool :=
  match ev with Sys (PthreadJoin _) _ | Sys (PthreadDetach _) _ => true | _ => false end.

(** Nothing but attempts to join. *)
Definition only_joins (w w' : world) : Prop :=
  exists tr, w_trace w' = w_trace w ++ tr /\ Forall (fun ev => joining ev = true) tr.

Lemma only_joins_more w w' tr : Forall (fun ev => joining ev = true) tr ->
  only_joins (World (w_trace w ++ tr) (w_alloc w)) w' -> only_joins w w'.
Proof. intros Ht (tr' & Htr & H). exists (tr ++ tr'). split; [by rewrite Htr; cbn [w_trace]; rewrite <-app_assoc|]. by apply Forall_app. Qed.

Lemma join_all_joined ts l w :
  wp (join_all ts) (fun _ st' => fst st' = l /\ exists tr, w_trace (snd st') = w_trace w ++ tr /\ joined ts tr)
    (fun e st' => fst st' = l /\ pthread_exn e /\ only_joins w (snd st')) (l, w).
Proof.
  revert w. induction ts as [|t ts IH]; intros w; cbn [join_all].
  { loop_step. split; [done|]. exists []. rewrite app_nil_r. split; [done|constructor]. }
  unfold thread_join, thread_detach, pthread_call. repeat loop_step. apply wp_syscall. intros a _.
  destruct a as [n out|e]; repeat loop_step.
  - eapply wp_mono; [..|apply IH].
    + intros _ st' (Hl & tr & Htr & Hj). split; [done|].
      simpl in Htr. eexists. rewrite Htr, <-app_assoc. split; [reflexivity|]. by constructor.
    + intros e st' (Hl & He & Hj). split_and!; [done..|]. eapply only_joins_more; [|exact Hj]. by repeat constructor.
  - case_decide as He; [injection He as He|repeat loop_step; split_and!; [done|by eexists|]; eexists; split; [reflexivity|by repeat constructor]].
    repeat loop_step. apply wp_syscall. intros b _. destruct b as [n out|e']; repeat loop_step.
    2:{ split_and!; [done|by eexists|]. eexists. cbn [w_trace]. rewrite <-app_assoc. split; [reflexivity|by repeat constructor]. }
    eapply wp_mono; [..|apply IH].
    + intros _ st' (Hl & tr & Htr & Hj). split; [done|].
      simpl in Htr. eexists. rewrite Htr, <-!app_assoc. split; [reflexivity|]. by constructor.
    + intros ex st' (Hl & Hex & Hj). split_and!; [done..|].
      apply (only_joins_more w _ [Sys (PthreadJoin t) (SysErr e); Sys (PthreadDetach t) (SysOk n out)]); [by repeat constructor|].
      cbn [w_trace w_alloc] in Hj. by rewrite <-app_assoc in Hj.
Qed.

(** The threads that were started. *)
Definition created (num : nat) (tr : trace) : Prop :=
  length tr = num /\ Forall (fun ev => exists n out, ev = Sys PthreadCreate (SysOk n out)) tr.

Lemma add_thread_creates num l w :
  wp (add_thread num)
    (fun _ st' => fst st' = set_workers (m_workers l + Z.of_nat num) l /\
       exists tr, w_trace (snd st') = w_trace w ++ tr /\ created num tr)
    (fun e st' => (e = BadAlloc \/ pthread_exn e) /\
       exists k, (k < num)%nat /\ fst st' = set_workers (m_workers l + Z.of_nat k) l) (l, w).
Proof.
  revert l w. induction num as [|num IH]; intros l w; cbn [add_thread].
  { loop_step. split; [destruct l; unfold set_workers; simpl; by rewrite Z.add_0_r|].
    exists []. rewrite app_nil_r. by split; [|split; [|constructor]]. }
  assert (exists k, (k < S num)%nat /\ set_workers (m_workers l) (set_workers (m_workers l + 1) l) =
    set_workers (m_workers l + Z.of_nat k) l) as H0.
  { exists 0%nat. split; [lia|]. destruct l. unfold set_workers. simpl. by rewrite Z.add_0_r. }
  repeat loop_step. unfold thread_run. repeat loop_step. apply wp_can_alloc; [done|].
  destruct (default true _); [|repeat loop_step; split; [by left|apply H0]].
  unfold thread_create, pthread_call. repeat loop_step. apply wp_syscall. intros a _.
  destruct a as [n out|e]; repeat loop_step; [|split; [by right; eexists|apply H0]].
  eapply wp_mono; [..|apply IH]; simpl.
  - intros _ st' (Hl & tr & Htr & Hn & Hc). split; [rewrite Hl; unfold set_workers; simpl; f_equal; lia|].
    eexists. rewrite Htr. simpl. rewrite <-app_assoc. split; [reflexivity|]. split; [simpl; by rewrite Hn|].
    constructor; [by eexists _, _|done].
  - intros e st' (He & k & Hk & Hl). split; [done|]. exists (S k). split; [lia|]. rewrite Hl. unfold set_workers. simpl. f_equal. lia.
Qed.

End Workers.

(** ** Destruction *)

Section Destruction.
Context {OS : Os}.

(** The handlers of the table, without [out]'s own. *)
Definition handlers_of (state : list (option Z)) : list Z := filter (fun h => h <> out_handler) (omap id state).

(** [kept h]: a client has a shared pointer to the handler.  [destructor h] is what its
    class does on destruction, calls as in [destroyed h]; that of [handler] closes the
    descriptor ([handler_delete]). *)
Variable kept : Z -> bool.
Variable destructor : Z -> M world unit.
Variable destroyed : Z -> trace -> Prop.
Hypothesis destructor_destroys : forall h w,
  wp (destructor h) (fun _ w' => exists tr, w_trace w' = w_trace w ++ tr /\ destroyed h tr) no_exn w.

(** The destructor of an entry of the table: the handler goes with its last pointer. *)
Definition entry_delete (h : Z) : M world unit := if kept h then mret tt else destructor h.

(** The handlers that the table alone has, in the order of their destruction. *)
Definition last_owned (state : list (option Z)) : list Z := reverse (filter (fun h => kept h = false) (handlers_of state)).

(** Each is destroyed once, in this order. *)
Definition destroys (hs : list Z) (tr : trace) : Prop := exists trs, tr = mjoin trs /\ Forall2 destroyed hs trs.

Lemma destroy_handlers_destroys state w :
  wp (destroy_handlers entry_delete state)
    (fun _ w' => exists tr, w_trace w' = w_trace w ++ tr /\ destroys (last_owned state) tr) no_exn w.
Proof.
  revert w. induction state as [|h state IH]; intros w; cbn [destroy_handlers].
  { wp_step. exists []. rewrite app_nil_r. split; [done|]. by exists []. }
  wp_step. eapply wp_mono; [..|apply IH]; [|done]. intros [] w' (tr & Htr & trs & -> & Hc).
  assert (exists tr, w_trace w' = w_trace w ++ tr /\ destroys (last_owned state) tr) as Hsame by (eexists; split; [exact Htr|by exists trs]).
  unfold last_owned, handlers_of in *. destruct h as [h|]; [|by wp_step]. cbn [omap list_omap id].
  destruct (Z.eqb_spec h out_handler) as [->|Hne]; [wp_step; by rewrite filter_cons_False by tauto|].
  rewrite filter_cons_True by done. unfold entry_delete. destruct (kept h) eqn:Hk; [wp_step; by rewrite filter_cons_False by congruence|].
  rewrite filter_cons_True by done. eapply wp_mono; [..|apply destructor_destroys]; [|done]. intros [] w2 (tr2 & Htr2 & Hd).
  exists (mjoin (trs ++ [tr2])). split; [by rewrite Htr2, Htr, <-app_assoc, join_app; simpl; rewrite app_nil_r|].
  exists (trs ++ [tr2]). split; [done|]. rewrite reverse_cons. by apply Forall2_app; [|constructor].
Qed.

(** The finalizers of the requests that were queued. *)
Definition finalized (qs : list (list record)) : trace := reverse qs ≫= (fun rs => flat_map fin_event (fins (tokens rs))).

Lemma delete_ctxs_finalizes ctxs qs w :
  Forall2 x_rep ctxs qs ->
  delete_ctxs ctxs w = Ret tt (World (w_trace w ++ finalized qs) (w_alloc w)).
Proof.
  intros Hrep. revert w. induction Hrep as [|xf rs ctxs qs Hxf _ IH]; intros w; cbn [delete_ctxs].
  { unfold finalized. simpl. rewrite app_nil_r. by destruct w. }
  unfold mbind, M_bind. rewrite IH. cbn [xfer_delete]. unfold finalized. rewrite reverse_cons, bind_app. simpl. rewrite app_nil_r.
  unfold xfer_delete. destruct (x_alloc xf) eqn:Ha.
  - rewrite (M_bind_ret _ _ _ _ _ (clear_run _ _ _ Hxf)). cbn [w_trace w_alloc]. by rewrite <-app_assoc.
  - destruct Hxf as [_ _ _ _ Hnull]. destruct (Hnull Ha) as [-> _]. simpl. by rewrite app_nil_r.
Qed.

(** What the destructor does once there is nobody to wait for: no step of it throws. *)
Lemma delete_rest (l : @loop OS (epoll_kernel OS)) (w : world) (qs : list (list record)) :
  Forall2 x_rep (m_fdctx (m_out l)) qs ->
  wp (l ← get_loop; _ ← in_world (destroy_handlers entry_delete (m_state l)); _ ← in_world (out_delete (m_out l)); in_world (kernel_delete (m_lkernel l)))
    (fun _ st' => fst st' = l /\ exists dtors a b,
       w_trace (snd st') = w_trace w ++ dtors ++ finalized qs ++ [Sys (Close (m_kernel (m_out l))) a; Sys (Close (m_lkernel l)) b] /\
       destroys (last_owned (m_state l)) dtors) no_exn (l, w).
Proof.
  intros Hrep. repeat loop_step. eapply wp_mono; [..|apply destroy_handlers_destroys]; [|done].
  intros [] w2 (dtors & Htr2 & Hc). repeat loop_step. unfold out_delete. repeat loop_step.
  unfold wp at 1. rewrite (delete_ctxs_finalizes _ _ _ Hrep). cbn [kernel_delete epoll_kernel]. unfold epoll_delete.
  repeat wp_step. apply wp_syscall. intros a _. repeat loop_step. apply wp_syscall. intros b _. repeat loop_step.
  split; [done|]. exists dtors, a, b. split; [|done]. by rewrite Htr2, <-!app_assoc.
Qed.

(** A loop without workers joins none. *)
Lemma loop_delete_idle (l : @loop OS (epoll_kernel OS)) (w : world) (qs : list (list record)) :
  m_workers l = 0 -> Forall2 x_rep (m_fdctx (m_out l)) qs ->
  wp (loop_delete entry_delete)
    (fun _ st' => exists dtors a b,
       w_trace (snd st') = w_trace w ++ dtors ++ finalized qs ++ [Sys (Close (m_kernel (m_out l))) a; Sys (Close (m_lkernel l)) b] /\
       destroys (last_owned (m_state l)) dtors) no_exn (l, w).
Proof.
  intros H0 Hrep. unfold loop_delete. wp_step. unfold end_loop. loop_step. wp_step. unfold join. wp_step. loop_step.
  unfold workers_of. cbn [m_workers set_end]. rewrite H0. cbn [join_all seqZ]. do 3 loop_step.
  eapply wp_mono; [..|exact (delete_rest (set_workers 0 (set_end true l)) w qs Hrep)]; [|done]. by intros [] st' [_ H].
Qed.

End Destruction.

(** ** On a concrete environment

    The lowest of [num] descriptors that is not an open epoll descriptor is given. *)
Definition free_descriptor (num : Z) (tr : trace) : option Z :=
  head (filter (fun n => bool_decide (n ∈ open_epolls tr) = false) (seqZ 3 num)).

Lemma free_descriptor_new num tr m : free_descriptor num tr = Some m -> (m ∉ open_epolls tr) /\ 3 <= m < 3 + num.
Proof.
  intros Hf. unfold free_descriptor in Hf.
  assert (m ∈ filter (fun n => bool_decide (n ∈ open_epolls tr) = false) (seqZ 3 num)) as Hm.
  { destruct (filter _ _); [done|]. injection Hf as ->. by left. }
  by apply list_elem_of_filter in Hm as [Hb%bool_decide_eq_false Hm%elem_of_seqZ].
Qed.

Definition life_os (deadlock : bool) : Os := {|
  sys := fun tr r =>
    match r with
    | EpollCreate _ => match free_descriptor 13 tr with Some n => SysOk n [] | None => SysErr EMFILE end
    | EpollAdd _ fd _ _ => if bool_decide (0 <= fd < 2 ^ 31) then SysOk 0 [] else SysErr (EOTHER 9)
    | EpollWait _ _ _ => SysErr EINTR
    | Getrlimit => SysOk 16 []
    | PthreadJoin 1 => if deadlock then SysErr EDEADLK else SysOk 0 []
    | Writev _ _ | Sendfile _ _ _ _ | Write _ _ _ => SysErr EAGAIN
    | _ => SysOk 0 []
    end;
  memcpy_may_overlap := true
|}.

#[export] Instance life_os_spec d : OsSpec (life_os d).
Proof. by split. Qed.

#[export] Instance life_os_epoll d : EpollSpec (life_os d).
Proof. split; [|done]. intros *. cbn. by case_bool_decide. Qed.

#[export] Instance life_os_descriptors d : DescriptorSpec (life_os d) 16.
Proof.
  split; [lia|by intros * [= <- _]|]. intros tr size n out. cbn. destruct (free_descriptor 13 tr) as [m|] eqn:Hf; [|done].
  intros [= <- _]. apply free_descriptor_new in Hf as [Hn Hr]. split; [done|lia].
Qed.

(** The second allocation of the table fails in the second run. *)
Lemma loop_new_runs :
  match @loop_new (life_os false) (epoll_kernel _) (World [] []) with
  | Ret l w => bool_decide (open_epolls (w_trace w) = {[3; 4]})
  | _ => false
  end = true /\
  match @loop_new (life_os false) (epoll_kernel _) (World [] [true; true; true; false]) with
  | Throw BadAlloc w => bool_decide (open_epolls (w_trace w) = ∅)
  | _ => false
  end = true.
Proof. by vm_compute. Qed.

Lemma loop_new_outcome_witness :
  wp (@loop_new (life_os false) (epoll_kernel _))
    (fun l w' => initial (Conf (l, w') [] [] []) /\ open_epolls (w_trace w') = {[m_lkernel l; m_kernel (m_out l)]})
    (fun e w' => open_epolls (w_trace w') = ∅) (World [] [true; true; true; false]).
Proof. exact (loop_new_outcome (OS := life_os false) (limit := 16) [true; true; true; false]). Defined.

Definition life_loop : loop := empty_loop (OS := life_os true) (K := epoll_kernel _) 3 4.


(** [handler::~handler()] closes the descriptor. *)
Definition handler_delete {OS : Os} (fd : Z) : M world unit := _ ← syscall (Close fd); mret tt.

(** A loop with two workers, handlers for the descriptors 5 and 6, the second also kept
    by a client, and a request on descriptor 1 whose finalizer is still to run. *)
Definition busy_xfer : xfer := Xfer true (encode_all [XFin 8 9]) 100.

Definition busy_loop : @loop (life_os true) (epoll_kernel _) :=
  set_workers 2 (set_state [None; None; None; None; Some out_handler; Some 5; Some 6; None]
    (set_out (@MkOut (life_os true) (epoll_kernel _) 4 [xfer_new; busy_xfer] [] 1) life_loop)).

Definition has_six (h : Z) : bool := h =? 6.

Definition closes_own (h : Z) (tr : trace) : Prop := exists a, tr = [Sys (Close h) a].

Lemma handler_delete_closes {OS : Os} h w :
  wp (handler_delete h) (fun _ w' => exists tr, w_trace w' = w_trace w ++ tr /\ closes_own h tr) no_exn w.
Proof. unfold handler_delete. wp_step. apply wp_syscall. intros a _. wp_step. eexists. split; [reflexivity|by eexists]. Qed.

Lemma busy_xfer_rep : @x_rep (life_os true) busy_xfer [XFin 8 9].
Proof.
  split; [done| |done|vm_compute; congruence|done].
  apply (bool_decide_unpack (Forall (record_ok (OS := life_os true)) [XFin 8 9])). by vm_compute.
Qed.


(** ** After [detach]

    [detach()] leaves the threads in [m_workers], so that the destructor joins
    them.  Here [pthread_join] of a detached thread answers EINVAL, which is not
    the error that [join()] expects: the destructor throws after it has set
    [m_end_flag], with every handler, request and descriptor still there. *)
Definition detached (tr : trace) (t : Z) : bool :=
  existsb (fun ev => match ev with Sys (PthreadDetach t') (SysOk _ _) => t' =? t | _ => false end) tr.

Definition detach_os : Os := {|
  sys := fun tr r =>
    match r with
    | PthreadJoin t => if detached tr t then SysErr (EOTHER 22) else SysOk 0 []
    | Writev _ _ | Sendfile _ _ _ _ | Write _ _ _ => SysErr EAGAIN
    | _ => SysOk 0 []
    end;
  memcpy_may_overlap := true
|}.

#[export] Instance detach_os_spec : OsSpec detach_os.
Proof. by split. Qed.

Lemma detached_loop_delete_throws :
  let l := set_workers 2 (set_state [None; None; None; None; Some out_handler; Some 5]
             (empty_loop (OS := detach_os) (K := epoll_kernel _) 3 4)) in
  match (_ ← detach; loop_delete (OS := detach_os) (entry_delete (fun _ => false) (handler_delete (OS := detach_os)))) (l, World [] []) with
  | Throw e (l', w') =>
      e = PthreadError 22 /\ m_end_flag l' = true /\ m_workers l' = 2 /\ handlers_of (m_state l') = [5] /\
      w_trace w' = [Sys (PthreadDetach 0) (SysOk 0 []); Sys (PthreadDetach 1) (SysOk 0 []);
                    Sys (PthreadJoin 0) (SysErr (EOTHER 22))]
  | _ => False
  end.
Proof. by vm_compute. Qed.
