(* ===== verification/LoopOthers.v ===== *)
(** * One handler among everything else that happens in a loop

    The view of the client that owns one handler [h] on one descriptor [fd].
    [others] is what may happen around it: tasks, other handlers, output, more
    workers, the end of the loop.  A registration that is gone for good is
    modelled by a worker that never existed: if the invariant of the loop
    also holds with one more worker, which has the descriptor's event and does
    nothing, then the event cannot be reported or taken again; every step of the
    loop is a step of that larger loop as well. *)

From Stdlib Require Import ZArith Lia.
From stdpp Require Import base tactics option list numbers gmap sets list_tactics.
From S2P Require Import Prelude Os Xfer XferQueue Kernel KernelEpoll Out OutProps OutFrame Loop LoopThreads LoopCore LoopProps.

(** ** What the others do *)

Section Others.
Context {OS : Os} {K : Kernel OS} {L : KernelLaws K}.

Abbreviation lst := (loop * world)%type.

Variable fd h : Z.

(** Every step of LoopThreads but those of workers between two pieces of code,
    of workers in [h], and of clients that register [h] or [fd] once more. *)
Inductive others : conf -> conf -> Prop :=
| others_action st ts sub sta i g e a e' b st' ts' :
    g <> h -> alive ts -> ts !! i = Some (PcHandler g e) -> (is_removed e = true -> a = ActRemove) ->
    run_action a e st = Ret (e', b) st' -> signalled b (<[i := PcHandler g e']> ts) ts' ->
    others (Conf st ts sub sta) (Conf st' ts' sub sta)
| others_return st ts sub sta i g e cont :
    g <> h -> alive ts -> ts !! i = Some (PcHandler g e) ->
    others (Conf st ts sub sta) (Conf st (<[i := PcFinish e cont]> ts) sub sta)
| others_submit st ts sub sta f st' ts' :
    alive ts -> submit_impl f st = Ret tt st' -> signal ts ts' ->
    others (Conf st ts sub sta) (Conf st' ts' (sub ++ [f]) sta)
| others_add_handler st ts sub sta fd' g st' :
    g <> h -> fd' <> fd ->
    alive ts -> fresh_fd (Conf st ts sub sta) fd' -> table_range (fst st) fd' ->
    add_handler_impl fd' g st = Ret tt st' \/ (exists e, add_handler_impl fd' g st = Throw e st') ->
    others (Conf st ts sub sta) (Conf st' ts sub sta)
| others_remove_handler st ts sub sta fd' st' :
    alive ts -> table_range (fst st) fd' -> remove_handler fd' st = Ret tt st' ->
    others (Conf st ts sub sta) (Conf st' ts sub sta)
| others_end st ts sub sta st' :
    alive ts -> end_loop st = Ret tt st' -> others (Conf st ts sub sta) (Conf st' (broadcast ts) sub sta)
| others_add_thread st ts sub sta st' :
    alive ts -> add_thread 1 st = Ret tt st' -> others (Conf st ts sub sta) (Conf st' (ts ++ [PcLock]) sub sta)
| others_add_thread_fails st ts sub sta st' e :
    alive ts -> add_thread 1 st = Throw e st' -> others (Conf st ts sub sta) (Conf st' ts sub sta)
| others_output st ts sub sta op st' :
    alive ts -> writes op = true -> contract ((m_out (fst st), snd st), hands ts) op ->
    run_output op st = Ret tt st' \/ (exists e, run_output op st = Throw e st') ->
    others (Conf st ts sub sta) (Conf st' ts sub sta).

Lemma others_step c c' : others c c' -> step c c'.
Proof.
  destruct 1; [by eapply step_action|by eapply step_return|by eapply step_submit|by eapply step_add_handler
    |by eapply step_remove_handler|by apply step_end|by apply step_add_thread|by eapply step_add_thread_fails|by eapply step_output].
Qed.

(** ** A worker that never existed *)

(** It has the event [e] of the descriptor, in the handler, and stays there. *)
Variable e : kevent.
Hypothesis Hfd : event_ident e = fd.

Definition ghost : pc := PcHandler h (EventImpl 0 e).

Definition ghosted (c : conf) : conf := Conf (c_st c) (ghost :: c_ts c) (c_submitted c) (c_started c).

Lemma signal_cons p ts ts' : is_wait p = false -> signal ts ts' -> signal (p :: ts) (p :: ts').
Proof.
  intros Hp [j Hj|Hn]; [exact (signal_one (p :: ts) (S j) Hj)|]. apply signal_none. by constructor.
Qed.

Lemma signalled_cons b p ts ts' : is_wait p = false -> signalled b ts ts' -> signalled b (p :: ts) (p :: ts').
Proof. intros Hp. destruct b; simpl; [by apply signal_cons|by intros ->]. Qed.

Lemma alive_cons ts : alive ts -> alive (ghost :: ts).
Proof. intros Ha p [->|Hp]%elem_of_cons; [done|by apply Ha]. Qed.

Lemma ghosted_thread st ts sub sta i p p' b st' ts' :
  alive ts -> ts !! i = Some p -> is_handler p = false ->
  thread_code p st = Ret (p', b) st' -> signalled b (<[i := p']> ts) ts' ->
  step (ghosted (Conf st ts sub sta)) (ghosted (Conf st' ts' sub (sta ++ taken p p'))).
Proof.
  intros Ha Hi Hh Hrun Hs. eapply (step_thread _ (ghost :: ts) _ _ (S i)); [by apply alive_cons|done..|].
  by apply (signalled_cons b ghost).
Qed.

Lemma ghosted_events l ts : events l (ghost :: ts) ≡ₚ e :: events l ts.
Proof. unfold events, unread, countb. simpl. solve_Permutation. Qed.

Lemma ghosted_others c c' : others c c' -> step (ghosted c) (ghosted c').
Proof.
  destruct 1 as [st ts sub sta i g ev a e' b st' ts' _ Ha Hi Hrm Hrun Hsig|st ts sub sta i g ev cont _ Ha Hi
    |st ts sub sta f st' ts' Ha Hrun Hsig|st ts sub sta fd' g st' _ Hne Ha [Hf Harm] Hr Hrun
    |st ts sub sta fd' st' Ha Hr Hrun|st ts sub sta st' Ha Hrun|st ts sub sta st' Ha Hrun|st ts sub sta st' ex Ha Hrun
    |st ts sub sta op st' Ha Hw Hct Hrun]; unfold ghosted; cbn [c_st c_ts c_submitted c_started] in *;
    pose proof (alive_cons _ Ha) as Ha'.
  - eapply (step_action _ (ghost :: ts) _ _ (S i)); [done..|]. by apply (signalled_cons b ghost).
  - by apply (step_return _ (ghost :: ts) _ _ (S i) g ev cont).
  - eapply step_submit; [done..|]. by apply signal_cons.
  - eapply step_add_handler; [done| |done|done]. split; cbn [c_st c_ts] in *; [|done].
    rewrite ghosted_events, fmap_cons, Hfd. by apply not_elem_of_cons.
  - by eapply step_remove_handler.
  - by apply (step_end st (ghost :: ts)).
  - by apply (step_add_thread st (ghost :: ts)).
  - by eapply step_add_thread_fails.
  - by eapply step_output.
Qed.
End Others.

(** ** Workers that others leave where they are *)

Section At.
Context {OS : Os} {K : Kernel OS}.

(** Not waiting, and not about to lock: waking others does not show. *)
Definition settled (p : pc) : bool := match p with PcLock | PcWait => false | _ => true end.

Lemma signal_at ts ts' j p : signal ts ts' -> settled p = true -> ts' !! j = Some p <-> ts !! j = Some p.
Proof.
  intros [k Hk|_] Hp; [|done]. destruct (decide (j = k)) as [->|Hne].
  - rewrite list_lookup_insert_eq by (by eapply lookup_lt_Some). rewrite Hk. split; intros [= <-]; done.
  - by rewrite list_lookup_insert_ne.
Qed.

Lemma signalled_at b ts ts' j p : signalled b ts ts' -> settled p = true -> ts' !! j = Some p <-> ts !! j = Some p.
Proof. destruct b; simpl; [apply signal_at|by intros ->]. Qed.

Lemma broadcast_at ts j p : settled p = true -> broadcast ts !! j = Some p <-> ts !! j = Some p.
Proof.
  intros Hp. unfold broadcast. rewrite list_lookup_fmap. destruct (ts !! j) as [q|]; simpl; [|done].
  destruct (is_wait q) eqn:Hq; split; intros [= <-]; try done; destruct q; done.
Qed.

Lemma app_at (ts : list pc) j p : settled p = true -> (ts ++ [PcLock]) !! j = Some p <-> ts !! j = Some p.
Proof.
  intros Hp. destruct (decide (j < length ts)%nat) as [Hl|Hl]; [by rewrite lookup_app_l|].
  rewrite lookup_app_r, (lookup_ge_None_2 ts) by lia. split; [|done]. intros Hj.
  apply list_lookup_singleton_Some in Hj as [_ <-]. done.
Qed.

(** One worker moves, and another may be woken. *)
Lemma moved_at b ts ts' i j q q' p :
  signalled b (<[i := q']> ts) ts' -> ts !! i = Some q -> settled p = true ->
  ts' !! j = Some p <-> if decide (j = i) then q' = p else ts !! j = Some p.
Proof.
  intros Hs Hi Hp. rewrite (signalled_at b _ ts' j p Hs Hp). case_decide as Hji.
  - subst. rewrite list_lookup_insert_eq by (by eapply lookup_lt_Some). split; [by intros [= ->]|by intros ->].
  - by rewrite list_lookup_insert_ne.
Qed.
End At.

(** ** What no step does *)

Section Steady.
Context {OS : Os} {K : Kernel OS} {L : KernelLaws K}.

Abbreviation lst := (loop * world)%type.

Variable h : Z.

(** A loop that was ended stays ended, and [h] gets no new entry in the table. *)
Definition steady (st st' : lst) : Prop :=
  (m_end_flag (fst st) = true -> m_end_flag (fst st') = true) /\
  forall k, m_state (fst st') !! k = Some (Some h) -> m_state (fst st) !! k = Some (Some h).

#[export] Instance steady_preorder : PreOrder steady.
Proof. split; [done|]. intros a b c [H1 H2] [H3 H4]. split; auto. Qed.

Lemma steady_get : respects steady get_loop.
Proof. done. Qed.

Lemma steady_upd f :
  (forall l, m_end_flag (f l) = m_end_flag l /\ m_state (f l) = m_state l) -> respects steady (upd_loop f).
Proof. intros Hf st. destruct (Hf (fst st)) as [He Hs]. split; simpl; by rewrite ?He, ?Hs. Qed.

Lemma steady_world {A} (m : M world A) : respects steady (in_world m).
Proof. intros [l w]. unfold in_world, zoom. simpl. by destruct (m w). Qed.

Lemma steady_m_out {A} (m : M (out * world) A) : respects steady (on_m_out m).
Proof. intros [l w]. unfold on_m_out, zoom. simpl. by destruct (m (m_out l, w)). Qed.

Lemma steady_end : respects steady end_loop.
Proof. by intros [l w]. Qed.

Lemma steady_table ident v st : v <> Some h -> steady st (set_state (<[Z.to_nat ident := v]> (m_state (fst st))) (fst st), snd st).
Proof.
  intros Hv. split; [done|]. intros k. simpl. intros Hk. apply list_lookup_insert_Some in Hk as [(_ & Hk & _)|[_ Hk]]; [by subst v|done].
Qed.

Lemma steady_reset ident : respects steady (reset_handler ident).
Proof.
  intros st. unfold reset_handler, get_loop, mbind, M_bind, get, mret, M_ret. destruct (_ && _); [|done].
  by apply steady_table.
Qed.

Lemma steady_set ident g : g <> h -> respects steady (set_handler ident g).
Proof.
  intros Hg st. unfold set_handler, get_loop, mbind, M_bind, get, mret, M_ret. destruct (_ && _); [|done].
  apply steady_table. congruence.
Qed.

Lemma steady_commit fd xf st : respects steady (run_output (OpCommit fd xf st)).
Proof. intros [l w]. cbn [run_output]. unfold zoom. simpl. by destruct (commit _ _). Qed.
End Steady.

Ltac steady_step :=
  first [ apply steady_get | apply steady_upd; by intros [] | apply steady_world | apply steady_m_out
        | apply steady_end | apply steady_reset | by apply steady_set | respects_step ].

Section Steps.
Context {OS : Os} {K : Kernel OS} {L : KernelLaws K}.

Abbreviation lst := (loop * world)%type.

Lemma thread_code_steady h p : respects (steady h) (thread_code p).
Proof.
  destruct p; cbn [thread_code]; unfold schedule, out_event, poll_once, polled, out_ready, fetch, finish,
    reset, process_handler, next_backlog, pop_task; repeat steady_step.
Qed.

Lemma respects_thrown {S A} (R : S -> S -> Prop) (m : M S A) s ex s' : respects R m -> m s = Throw ex s' -> R s s'.
Proof. intros Hm Hrun. specialize (Hm s). by rewrite Hrun in Hm. Qed.

Lemma others_steady fd h c c' : others fd h c c' -> steady h (c_st c) (c_st c').
Proof.
  destruct 1 as [st ts sub sta i g ev a e' b st' ts' _ Ha Hi Hrm Hrun Hsig| |st ts sub sta f st' ts' Ha Hrun Hsig
    |st ts sub sta fd' g st' Hg Hne Ha _ Hr Hrun
    |st ts sub sta fd' st' Ha Hr Hrun|st ts sub sta st' Ha Hrun|st ts sub sta st' Ha Hrun|st ts sub sta st' ex Ha Hrun
    |st ts sub sta op st' Ha Hw Hct Hrun]; cbn [c_st]; [|done|..].
  - eapply respects_run; [|exact Hrun]. destruct a; cbn [run_action]; unfold more, next_event, remove_event,
      event_more, event_next, event_remove; repeat steady_step.
  - eapply respects_run; [|exact Hrun]. unfold submit_impl. repeat steady_step.
  - assert (respects (steady h) (add_handler_impl fd' g)) as Hresp by (unfold add_handler_impl; repeat steady_step).
    destruct Hrun as [Hrun|[ex Hrun]]; [by eapply respects_run|by eapply respects_thrown].
  - eapply respects_run; [|exact Hrun]. unfold remove_handler. repeat steady_step.
  - eapply respects_run; [|exact Hrun]. apply steady_end.
  - eapply respects_run; [|exact Hrun]. cbn [add_thread]. repeat steady_step.
  - eapply respects_thrown; [|exact Hrun]. cbn [add_thread]. repeat steady_step.
  - assert (respects (steady h) (run_output op)) as Hresp.
    { destruct op; [..|apply steady_commit| | |]; cbn [run_output]; repeat steady_step. }
    destruct Hrun as [Hrun|[ex Hrun]]; [by eapply respects_run|by eapply respects_thrown].
Qed.
End Steps.

(** ** Where a handler is entered *)

Section Enter.
Context {OS : Os} {K : Kernel OS} {L : KernelLaws K}.

Abbreviation lst := (loop * world)%type.

(** What a run can return. *)
Definition yields {A} (Q : A -> Prop) (m : M lst A) : Prop := forall st a st', m st = Ret a st' -> Q a.

Lemma yields_ret {A} (Q : A -> Prop) a : Q a -> yields Q (mret a).
Proof. by intros HQ st a' st' [= <- _]. Qed.

Lemma yields_bind {A B} (P : A -> Prop) (Q : B -> Prop) (m : M lst A) k :
  yields P m -> (forall a, P a -> yields Q (k a)) -> yields Q (m ≫= k).
Proof. intros Hm Hk st b st' (a & st1 & H1 & H2)%bind_inv. eapply Hk; [by eapply Hm|done]. Qed.

Lemma yields_any {A} (m : M lst A) : yields (fun _ => True) m.
Proof. done. Qed.

Lemma yields_catch {A} (Q : A -> Prop) (m : M lst A) g :
  yields Q m -> (forall ex, yields Q (g ex)) -> yields Q (catch m g).
Proof.
  intros Hm Hg st a st'. unfold catch. destruct (m st) as [b s1|ex s1| |] eqn:Hr; try done; [|apply Hg].
  intros [= <- _]. by eapply Hm.
Qed.

Definition not_handler (p : pc) : Prop := is_handler p = false.

Ltac yields_basic :=
  lazymatch goal with
  | |- forall _, _ => intros ?
  | |- yields _ (mbind _ _) => eapply yields_bind; [apply yields_any|]
  | |- yields _ (mret (if ?b then _ else _)) => destruct b
  | |- yields _ (mret _) => apply yields_ret; done
  | |- yields _ undef => done
  | |- yields _ (catch _ _) => apply yields_catch
  | |- yields _ (if ?b then _ else _) => destruct b
  | |- yields _ (match ?x with _ => _ end) => destruct x
  end.

Lemma yields_process_handler ke : yields not_handler (process_handler ke).
Proof. unfold process_handler. repeat yields_basic. Qed.

Ltac yields_step :=
  lazymatch goal with
  | |- yields _ (mbind _ (process_handler _)) => eapply yields_bind; [apply yields_process_handler|]
  | |- yields _ (process_handler _) => apply yields_process_handler
  | |- _ => yields_basic
  end.

(** No other piece of code ends in a handler. *)
Lemma thread_not_enters p :
  is_handler p = false -> (forall ke, p <> PcFetch ke) ->
  yields (fun r : pc * bool => is_handler (fst r) = false) (thread_code p).
Proof.
  intros Hp Hf. destruct p as [| |t l| |ke| |n|ke|ke|g' e'|e' cont|ident| |]; try done; try (by destruct (Hf ke));
    cbn [thread_code]; try (apply yields_ret; by try destruct l);
    try (eapply (yields_bind not_handler); [|by intros; apply yields_ret]);
    unfold schedule, out_event, poll_once, polled, out_ready, finish, reset; repeat yields_step.
Qed.

(** A worker enters a handler from [PcFetch], without having handed its event on:
    the handler is the table's, and nothing changed. *)
Lemma thread_enters p st g ev b st' :
  is_handler p = false -> thread_code p st = Ret (PcHandler g ev, b) st' ->
  exists ke, p = PcFetch ke /\ ev = EventImpl 0 ke /\ b = false /\ st' = st /\
    table_range (fst st) (event_ident ke) /\ m_state (fst st) !! Z.to_nat (event_ident ke) = Some (Some g).
Proof.
  intros Hp Hrun. assert ((exists ke, p = PcFetch ke) \/ forall ke, p <> PcFetch ke) as [[ke ->]|Hf]
    by (destruct p; eauto).
  2: { by apply (thread_not_enters p Hp Hf) in Hrun. }
  cbn [thread_code] in Hrun. unfold fetch, get_loop, mbind, M_bind, get, mret, M_ret in Hrun. simpl in Hrun.
  destruct (Z.leb_spec 0 (event_ident ke)), (Z.ltb_spec (event_ident ke) (zlen (m_state (fst st)))); try done.
  simpl in Hrun. destruct (m_state (fst st) !! Z.to_nat (event_ident ke)) as [[g'|]|] eqn:Hg; try done.
  injection Hrun as <- <- <- <-. by exists ke.
Qed.
End Enter.

(** ** A registration that is gone *)

Section Gone.
Context {OS : Os} {Spec : OsSpec OS} {K : Kernel OS} {L : KernelLaws K}.

Abbreviation lst := (loop * world)%type.

Variable h : Z.

(** The larger loop has the whole invariant if it has the core of it. *)
Lemma ghosted_inv e c :
  inv c -> core [] (fst (c_st c)) (snd (c_st c)) (ghost h e :: c_ts c) -> inv (ghosted h e c).
Proof.
  intros [_ Ht Hb Hal] Hc. split; [done|done| |].
  - intros He. destruct (Hb He) as (Hx & Hp & _). unfold ghosted. cbn [c_ts c_st].
    assert (countb active (ghost h e :: c_ts c) = 1 + countb active (c_ts c)) as Ha
      by (unfold countb; rewrite filter_cons_True by done; simpl length; lia).
    pose proof (countb_range active (c_ts c)). split_and!.
    + by intros [?|?]%elem_of_cons.
    + intros H'. specialize (Hp H'). rewrite Ha. simpl length. lia.
    + intros _ _. right. lia.
  - unfold alone, ghosted. cbn [c_ts c_st c_started]. simpl length. intros Hl.
    destruct (c_ts c); [|simpl in Hl; lia]. destruct Hal as [? _]; [simpl; lia|]. split; [done|].
    by intros p ->%list_elem_of_singleton.
Qed.

(** A worker whose handler did not want to continue removes the registration; from
    then on the descriptor's event could as well be with a worker that never
    does anything. *)
Lemma finish_gone l w ts i e p' b st' :
  core [] l w ts -> ts !! i = Some (PcFinish e false) -> is_reactivated e = false -> is_removed e = false ->
  thread_code (PcFinish e false) (l, w) = Ret (p', b) st' ->
  p' = PcReset (event_ident (m_pe e)) /\ b = false /\ fst st' = l /\
  core [] (fst st') (snd st') (ghost h (m_pe e) :: <[i := p']> ts).
Proof.
  intros Hc Hi Hre Hrm Hrun. set (pr := PcReset (event_ident (m_pe e))).
  assert (held (PcFinish e false) = [m_pe e]) as Hh by (simpl; by rewrite Hre, Hrm).
  destruct (held_ok _ _ _ _ _ _ _ Hc Hi Hh) as [Hev Hr].
  assert (core [] l w (ghost h (m_pe e) :: <[i := pr]> ts)) as Hg.
  { destruct (held_split ts i _ Hi) as (R & HR & HR'). destruct (hands_split ts i _ Hi) as (R2 & HH & HH').
    eapply core_workers; [..|exact Hc].
    - rewrite fmap_cons. cbn [concat]. by rewrite (HR' pr), HR, Hh.
    - change (hands (ghost h (m_pe e) :: <[i := pr]> ts)) with (hands (<[i := pr]> ts)). by rewrite (HH' pr), HH.
    - change (countb polling (ghost h (m_pe e) :: <[i := pr]> ts)) with (countb polling (<[i := pr]> ts)).
      by eapply countb_same.
    - change (countb is_polled (ghost h (m_pe e) :: <[i := pr]> ts)) with (countb is_polled (<[i := pr]> ts)).
      by eapply countb_same.
    - intros q [->|[->|Hq]%elem_insert]%elem_of_cons; [done|done|by apply (co_pcs _ _ _ _ Hc)]. }
  pose proof (remove_ok l w _ (S i) pr pr (m_pe e) Hg) as Hwp.
  assert ((ghost h (m_pe e) :: <[i := pr]> ts) !! S i = Some pr) as Hi'
    by (apply list_lookup_insert_eq; by eapply lookup_lt_Some).
  specialize (Hwp Hi' eq_refl eq_refl eq_refl Hr eq_refl).
  cbn [thread_code] in Hrun. unfold finish in Hrun. rewrite Hre, Hrm in Hrun. cbn [negb] in Hrun.
  unfold get_loop, in_world, zoom, mbind, M_bind, get, mret, M_ret in Hrun. simpl in Hrun.
  unfold wp in Hwp. destruct (remove (m_lkernel l) (m_pe e) w) as [r w'|ex w'| |]; try done.
  injection Hrun as <- <- <-. split; [done|]. split; [done|]. split; [done|].
  change (<[S i := pr]> (ghost h (m_pe e) :: <[i := pr]> ts)) with (ghost h (m_pe e) :: <[i := pr]> (<[i := pr]> ts)) in Hwp.
  by rewrite list_insert_insert_eq in Hwp.
Qed.
End Gone.
