(* ===== verification/HandlerLife.v ===== *)
(** * The lifetime of handlers (src/mpsrc/wavy_loop.cc, wavy_loop.h)

    A handler is owned by shared pointers: the entry [m_state[ident]] of the
    loop's table, the copy a worker takes before it runs the handler, and what
    clients keep.  The last one to go runs the destructor, which closes the
    descriptor.  The table is read and written without the mutex, so the threads
    are interleaved between single accesses: a copy of a shared pointer reads the
    pointer first and increments the counter afterwards.

    The file shows that the exclusive events of the loop ([LoopProps.handler_exclusive])
    are what makes this safe, as long as entries are emptied by those who have the
    event of the descriptor only.  Two ways of emptying an entry are not bound to an
    event, and not safe while workers run: [remove_handler], and [event::remove] in a
    handler that called [next] or [more] before. *)

From Stdlib Require Import ZArith Lia.
From stdpp Require Import base tactics option list numbers fin_maps gmap.
From S2P Require Import Prelude RcHeap CountThreads.

(** ** State *)

(** An object is a block with its use count; its cell is [m_ident].  [l_events] are the
    descriptors whose event a worker may take next: registered, polled or queued.
    [l_made] and [l_closed] record constructors and destructors. *)
Record table := Table {
  l_heap : heap;
  l_state : list (option loc);      (* m_state *)
  l_events : list Z;
  l_made : list Z;
  l_closed : list Z
}.

(** The next access of a thread; [k] is what it does after a release. *)
Inductive hpc : Type :=
| HIdle
| HFetch (id : Z)                             (* at the read of m_state[ident] *)
| HIncr (id : Z) (l : loc)                    (* copying it, at the increment *)
| HRun (id : Z) (l : loc) (re rm : bool)      (* in ( *h)(e); e is reactivated, is removed *)
| HFinish (id : Z) (h : option loc) (re rm cont : bool)  (* the handler returned, or there was none *)
| HReset (id : Z) (k : hpc)                   (* at m_state[ident].reset() *)
| HSub (l : loc) (k : hpc)                    (* releasing a pointer, at the decrement *)
| HDestroy (l : loc) (k : hpc)                (* it was the last one *)
| HSet (id : Z) (l : loc)                     (* add_handler_impl: copying the argument *)
| HStore (id : Z) (l : loc)                   (* at the exchange with m_state[ident] *)
| HAddFd (id : Z) (l : loc)                   (* at m_kernel.add_fd *)
| HAdded (l : loc)                            (* add_handler_impl returned *)
| HRemoveFd (id : Z).                         (* remove_handler, at m_kernel.remove_fd *)

Definition on_table {A} (m : M heap A) : M table A :=
  zoom l_heap (fun h s => Table h (l_state s) (l_events s) (l_made s) (l_closed s)) m.

Definition upd_table (f : table -> table) : M table unit := modify f.

Definition set_slot (id : Z) (o : option loc) (s : table) : table :=
  Table (l_heap s) (<[Z.to_nat id := o]> (l_state s)) (l_events s) (l_made s) (l_closed s).

Definition set_events (es : list Z) (s : table) : table := Table (l_heap s) (l_state s) es (l_made s) (l_closed s).

(** [m_state[ident]]; past the array, undefined. *)
Definition slot (id : Z) : M table (option loc) :=
  s ← get;
  if 0 <=? id then match l_state s !! Z.to_nat id with Some o => mret o | None => undef end else undef.

Definition release (o : option loc) (k : hpc) : hpc := match o with Some l => HSub l k | None => k end.

(** [~handler() { ::close(fd()); }] *)
Definition destroy (l : loc) : M table unit :=
  b ← on_table (get_block l);
  match blk_data b with
  | Some fd :: _ =>
      _ ← upd_table (fun s => Table (l_heap s) (l_state s) (l_events s) (l_made s) (l_closed s ++ [fd]));
      on_table (free l)
  | _ => undef
  end.

(** One access. *)
Definition h_code (p : hpc) : option (M table hpc) :=
  match p with
  | HFetch id => Some (
      o ← slot id;
      mret (match o with Some l => HIncr id l | None => HFinish id None false false false end))
  | HIncr id l => Some (_ ← on_table (incr_count l); mret (HRun id l false false))
  | HFinish id o re rm cont => Some (
      if (re : bool) || rm then mret (release o HIdle)
      else if cont : bool then _ ← upd_table (fun s => set_events (id :: l_events s) s); mret (release o HIdle)
      else mret (HReset id (release o HIdle)))
  | HReset id k => Some (o ← slot id; _ ← upd_table (set_slot id None); mret (release o k))
  | HSub l k => Some (c ← on_table (sub_and_fetch l); mret (if c =? 0 then HDestroy l k else k))
  | HDestroy l k => Some (_ ← destroy l; mret k)
  | HSet id l => Some (_ ← on_table (incr_count l); mret (HStore id l))
  | HStore id l => Some (o ← slot id; _ ← upd_table (set_slot id (Some l)); mret (release o (HAddFd id l)))
  | HAddFd id l => Some (_ ← upd_table (fun s => set_events (id :: l_events s) s); mret (HAdded l))
  | HRemoveFd id => Some (_ ← upd_table (fun s => set_events (filter (fun e => e <> id) (l_events s)) s); mret HIdle)
  | HIdle | HRun _ _ _ _ | HAdded _ => None
  end.

(** ** Steps *)

Record lconf := LConf {
  lc_table : table;
  lc_refs : list loc;               (* shared pointers that clients keep *)
  lc_thr : list hpc
}.

(** The shared pointers of a thread; the pointer [HIncr] has read is not one. *)
Fixpoint own (p : hpc) : list loc :=
  match p with
  | HRun _ l _ _ | HSet _ l | HAddFd _ l | HAdded l => [l]
  | HStore _ l => [l; l]
  | HFinish _ o _ _ _ => option_list o
  | HReset _ k | HDestroy _ k => own k
  | HSub l k => l :: own k
  | HIdle | HFetch _ | HIncr _ _ | HRemoveFd _ => []
  end.

Fixpoint dead (p : hpc) : list loc :=
  match p with
  | HDestroy l k => l :: dead k
  | HSub _ k | HReset _ k => dead k
  | _ => []
  end.

(** The descriptor whose event, or whose entry, a thread has. *)
Fixpoint claim (p : hpc) : list Z :=
  match p with
  | HFetch id | HIncr id _ | HSet id _ | HStore id _ | HAddFd id _ => [id]
  | HRun id _ re rm | HFinish id _ re rm _ => if re || rm then [] else [id]
  | HReset id k => id :: claim k
  | HSub _ k | HDestroy _ k => claim k
  | _ => []
  end.

Definition owners (c : lconf) : list loc :=
  omap id (l_state (lc_table c)) ++ lc_refs c ++ concat (own <$> lc_thr c).
Definition deads (c : lconf) : list loc := concat (dead <$> lc_thr c).
Definition claims (c : lconf) : list Z := l_events (lc_table c) ++ concat (claim <$> lc_thr c).

(** The counter, of 32 bits, has room for one more. *)
Definition has_room (c : lconf) (p : hpc) : Prop :=
  match p with HIncr _ l | HSet _ l => 1 + occ l (owners c) < 2 ^ 32 | _ => True end.

(** What a handler makes of its event, by the flags of the event, and what it returns,
    with the events of [l_events] before and after.  [more] and [next] hand the event
    on; [remove] makes the kernel forget the descriptor, if it still has it, and
    empties the entry. *)
Inductive acts : hpc -> list Z -> hpc -> list Z -> Prop :=
| act_return id l re rm cont es : acts (HRun id l re rm) es (HFinish id (Some l) re rm cont) es
| act_hand_on id l rm es : acts (HRun id l false rm) es (HRun id l true rm) (id :: es)
| act_remove id l re es : acts (HRun id l re false) es (HReset id (HRun id l re true)) es
| act_remove_armed id l es :
    acts (HRun id l true false) es (HReset id (HRun id l true true)) (filter (fun e => e <> id) es).

(** The handler still has its event, or returns. *)
Definition in_order (p p' : hpc) : bool :=
  match p, p' with
  | HRun _ _ _ _, HFinish _ _ _ _ _ => true
  | HRun _ _ re rm, _ => negb (re || rm)
  | _, _ => true
  end.

Section Steps.
(** In an orderly run a handler calls [more], [next] and [remove] on an event that it
    still has, and nobody calls [remove_handler]. *)
Variable orderly : bool.

(** A new handler is for a descriptor of the table that has no registration and no event. *)
Inductive h_step (c : lconf) : lconf -> Prop :=
| h_access t p m p' s' :
    lc_thr c !! t = Some p -> h_code p = Some m -> has_room c p -> m (lc_table c) = Ret p' s' ->
    h_step c (LConf s' (lc_refs c) (<[t := p']> (lc_thr c)))
| h_take t id es :
    lc_thr c !! t = Some HIdle -> l_events (lc_table c) ≡ₚ id :: es ->
    h_step c (LConf (set_events es (lc_table c)) (lc_refs c) (<[t := HFetch id]> (lc_thr c)))
| h_act t p p' es :
    lc_thr c !! t = Some p -> acts p (l_events (lc_table c)) p' es -> (orderly = true -> in_order p p' = true) ->
    h_step c (LConf (set_events es (lc_table c)) (lc_refs c) (<[t := p']> (lc_thr c)))
| h_remove_handler t id :
    lc_thr c !! t = Some HIdle -> orderly = false ->
    h_step c (LConf (lc_table c) (lc_refs c) (<[t := HReset id (HRemoveFd id)]> (lc_thr c)))
| h_new t id l :
    lc_thr c !! t = Some HIdle -> (id ∉ claims c) -> 0 <= id < zlen (l_state (lc_table c)) ->
    hp_blocks (l_heap (lc_table c)) !! l = None ->
    h_step c (LConf
      (Table (Heap (<[l := Block (Some 1) [Some id]]> (hp_blocks (l_heap (lc_table c)))) (hp_script (l_heap (lc_table c))))
         (l_state (lc_table c)) (l_events (lc_table c)) (l_made (lc_table c) ++ [id]) (l_closed (lc_table c)))
      (lc_refs c) (<[t := HSet id l]> (lc_thr c)))
| h_keep t l :
    lc_thr c !! t = Some (HAdded l) -> h_step c (LConf (lc_table c) (l :: lc_refs c) (<[t := HIdle]> (lc_thr c)))
| h_drop t l refs :
    lc_thr c !! t = Some HIdle -> lc_refs c ≡ₚ l :: refs ->
    h_step c (LConf (lc_table c) refs (<[t := HSub l HIdle]> (lc_thr c)))
| h_thread : h_step c (LConf (lc_table c) (lc_refs c) (lc_thr c ++ [HIdle])).

Inductive h_reach : lconf -> Prop :=
| h_start n script : h_reach (LConf (Table (Heap ∅ script) (replicate n None) [] [] []) [] [])
| h_next c c' : h_reach c -> h_step c c' -> h_reach c'.
End Steps.

(** ** The invariant *)

Definition cell_ident (d : list (option Z)) : option Z := match d with [Some fd] => Some fd | _ => None end.

(** The descriptors of the handlers that exist. *)
Definition living (h : heap) : list Z := omap cell_ident ((map_to_list (blk_data <$> hp_blocks h)).*2).

Fixpoint know (s : table) (p : hpc) : Prop :=
  match p with
  | HIncr id l => l_state s !! Z.to_nat id = Some (Some l)
  | HRun id l _ _ | HSet id l | HStore id l | HAddFd id l => data_of (l_heap s) l = Some [Some id]
  | HReset _ k | HSub _ k | HDestroy _ k => dead k = [] /\ know s k
  | HRemoveFd _ => False
  | _ => True
  end.

Record h_inv (c : lconf) : Prop := HInv {
  hi_few l : occ l (owners c) < 2 ^ 32;
  hi_rc : cnt_inv (hp_blocks (l_heap (lc_table c))) (owners c) (deads c);
  hi_claims : NoDup (claims c);
  hi_range id : id ∈ claims c -> 0 <= id < zlen (l_state (lc_table c));
  hi_shape l d : data_of (l_heap (lc_table c)) l = Some d -> exists fd, d = [Some fd];
  hi_slot i l : l_state (lc_table c) !! i = Some (Some l) -> data_of (l_heap (lc_table c)) l = Some [Some (Z.of_nat i)];
  hi_know t p : lc_thr c !! t = Some p -> know (lc_table c) p;
  hi_made : l_made (lc_table c) ≡ₚ l_closed (lc_table c) ++ living (l_heap (lc_table c))
}.

Lemma living_data h h' : (forall l, data_of h' l = data_of h l) -> living h' = living h.
Proof.
  intros H. unfold living. replace (blk_data <$> hp_blocks h') with (blk_data <$> hp_blocks h); [done|].
  apply map_eq. intros l. rewrite !lookup_fmap. symmetry. apply H.
Qed.

(** What a thread knows is not changed by others that leave its blocks and entries. *)
Lemma know_other s s' q :
  same_data (own q) (l_heap s) (l_heap s') -> (forall id, id ∈ claim q -> l_state s' !! Z.to_nat id = l_state s !! Z.to_nat id) ->
  know s q -> know s' q.
Proof.
  intros Hd Hs. induction q; simpl in *; try done.
  - rewrite Hs; [done|set_solver].
  - intros H. rewrite Hd; [done|set_solver].
  - intros [? H]. split; [done|]. revert H. apply IHq; [done|]. intros i Hi. apply Hs. set_solver.
  - intros [? H]. split; [done|]. revert H. apply IHq; [|done]. eapply same_data_incl; [|exact Hd]. set_solver.
  - intros [? H]. split; [done|]. by apply IHq.
  - intros H. rewrite Hd; [done|set_solver].
  - intros H. rewrite Hd; [done|set_solver].
  - intros H. rewrite Hd; [done|set_solver].
Qed.

(** What a thread has; [Ro], [Rd] and [Rc] are what the others have. *)
Record split (c : lconf) (t : nat) (p : hpc) (Ro Rd : list loc) (Rc : list Z) : Prop := Split {
  sp_own p' : concat (own <$> <[t := p']> (lc_thr c)) ≡ₚ own p' ++ Ro;
  sp_dead p' : concat (dead <$> <[t := p']> (lc_thr c)) ≡ₚ dead p' ++ Rd;
  sp_claim p' : concat (claim <$> <[t := p']> (lc_thr c)) ≡ₚ claim p' ++ Rc;
  sp_owners : owners c ≡ₚ omap id (l_state (lc_table c)) ++ lc_refs c ++ own p ++ Ro;
  sp_deads : deads c ≡ₚ dead p ++ Rd;
  sp_claims : claims c ≡ₚ l_events (lc_table c) ++ claim p ++ Rc;
  sp_others j q : j <> t -> lc_thr c !! j = Some q -> own q ⊆ Ro /\ claim q ⊆ Rc
}.

Lemma h_split c t p : lc_thr c !! t = Some p -> exists Ro Rd Rc, split c t p Ro Rd Rc.
Proof.
  intros Ht. destruct (thr_insert own _ _ _ Ht) as (Ro & Ho & Ho' & Ho''). destruct (thr_insert dead _ _ _ Ht) as (Rd & Hd & Hd' & _).
  destruct (thr_insert claim _ _ _ Ht) as (Rc & Hc & Hc' & Hc''). exists Ro, Rd, Rc.
  split; [exact Ho'|exact Hd'|exact Hc'|unfold owners; by rewrite Ho|exact Hd|unfold claims; by rewrite Hc|].
  intros j q Hj Hq. split; [by eapply Ho''|by eapply Hc''].
Qed.

(** One thread moves; an entry of the table changes only where the thread has the claim. *)
Lemma h_frame c t p Ro Rd Rc p' s' refs' :
  h_inv c -> lc_thr c !! t = Some p -> split c t p Ro Rd Rc ->
  let s := lc_table c in
  length (l_state s') = length (l_state s) ->
  (forall l, occ l (omap id (l_state s') ++ refs' ++ own p' ++ Ro) < 2 ^ 32) ->
  cnt_inv (hp_blocks (l_heap s')) (omap id (l_state s') ++ refs' ++ own p' ++ Ro) (dead p' ++ Rd) ->
  NoDup (l_events s' ++ claim p' ++ Rc) ->
  (forall i, i ∈ l_events s' ++ claim p' -> i ∈ l_events s ++ claim p \/ 0 <= i < zlen (l_state s)) ->
  same_data (owners c) (l_heap s) (l_heap s') ->
  (forall l d, data_of (l_heap s') l = Some d -> exists fd, d = [Some fd]) ->
  (forall i, l_state s' !! i <> l_state s !! i -> Z.of_nat i ∈ claim p /\
     forall l, l_state s' !! i = Some (Some l) -> data_of (l_heap s') l = Some [Some (Z.of_nat i)]) ->
  know s' p' -> l_made s' ≡ₚ l_closed s' ++ living (l_heap s') ->
  h_inv (LConf s' refs' (<[t := p']> (lc_thr c))).
Proof.
  intros Hinv Ht Hsp s Hlen Hf Hrc Hcl Hrg Hd Hsh Hsl Hk Hm.
  assert (forall j q, j <> t -> lc_thr c !! j = Some q -> forall i, i ∈ claim q -> i ∈ claim p -> False) as Hdis.
  { intros j q Hj Hq i Hi Hi'. pose proof (hi_claims _ Hinv) as Hc. rewrite (sp_claims _ _ _ _ _ _ Hsp) in Hc.
    apply list.NoDup_app in Hc as (_ & _ & Hc). apply list.NoDup_app in Hc as (_ & Hc & _).
    apply (Hc i); [done|]. by apply (sp_others _ _ _ _ _ _ Hsp j q Hj Hq). }
  assert (forall i, i ∈ l_events s ++ claim p \/ i ∈ Rc -> 0 <= i < zlen (l_state s)) as Hr.
  { intros i Hi. apply (hi_range _ Hinv). rewrite (sp_claims _ _ _ _ _ _ Hsp), app_assoc, elem_of_app. done. }
  split; unfold owners, deads, claims; simpl.
  - intros l. rewrite (sp_own _ _ _ _ _ _ Hsp). apply Hf.
  - by rewrite (sp_own _ _ _ _ _ _ Hsp), (sp_dead _ _ _ _ _ _ Hsp).
  - by rewrite (sp_claim _ _ _ _ _ _ Hsp).
  - intros i. rewrite (sp_claim _ _ _ _ _ _ Hsp), app_assoc, elem_of_app, Hlen. intros [Hi|Hi]; [|apply Hr; by right].
    destruct (Hrg i Hi); [apply Hr; by left|done].
  - done.
  - intros i l Hi. destruct (decide (l_state s' !! i = l_state s !! i)) as [Heq|Hne]; [|by apply Hsl].
    rewrite Heq in Hi. rewrite Hd; [by apply (hi_slot _ Hinv)|]. apply elem_of_app. left. apply list_elem_of_omap. exists (Some l).
    split; [by eapply list_elem_of_lookup_2|done].
  - intros j q [(-> & <- & _)|[Hj Hq]]%list_lookup_insert_Some; [done|]. apply not_eq_sym in Hj.
    destruct (sp_others _ _ _ _ _ _ Hsp j q Hj Hq) as [Ho' Hc']. eapply know_other; [| |by eapply (hi_know _ Hinv)].
    + eapply same_data_incl; [|exact Hd]. rewrite (sp_owners _ _ _ _ _ _ Hsp). set_solver.
    + intros i Hi. destruct (decide (l_state s' !! Z.to_nat i = l_state s !! Z.to_nat i)) as [|Hne]; [done|].
      destruct (Hsl _ Hne) as [Hin _]. specialize (Hr i (or_intror (Hc' i Hi))). rewrite Z2Nat.id in Hin by lia.
      destruct (Hdis j q Hj Hq i Hi Hin).
  - done.
Qed.

(** The invariant in terms of the moving thread. *)
Lemma h_view c t p Ro Rd Rc :
  h_inv c -> split c t p Ro Rd Rc ->
  (forall l, occ l (omap id (l_state (lc_table c)) ++ lc_refs c ++ own p ++ Ro) < 2 ^ 32) /\
  cnt_inv (hp_blocks (l_heap (lc_table c))) (omap id (l_state (lc_table c)) ++ lc_refs c ++ own p ++ Ro) (dead p ++ Rd) /\
  NoDup (l_events (lc_table c) ++ claim p ++ Rc).
Proof.
  intros [Hf Hrc Hc _ _ _ _ _] Hsp. rewrite (sp_owners _ _ _ _ _ _ Hsp), (sp_deads _ _ _ _ _ _ Hsp) in Hrc.
  rewrite (sp_claims _ _ _ _ _ _ Hsp) in Hc. split_and!; [|done|done]. intros l. specialize (Hf l). by rewrite (sp_owners _ _ _ _ _ _ Hsp) in Hf.
Qed.

(** A move that leaves the blocks and the entries, hands over what it has, and keeps
    or gives up its claim. *)
Lemma h_local c t p es p' refs' :
  h_inv c -> lc_thr c !! t = Some p ->
  refs' ++ own p' ≡ₚ lc_refs c ++ own p -> dead p' = dead p ->
  (forall Rc, NoDup (l_events (lc_table c) ++ claim p ++ Rc) -> NoDup (es ++ claim p' ++ Rc)) ->
  es ++ claim p' ⊆ l_events (lc_table c) ++ claim p -> know (lc_table c) p' ->
  h_inv (LConf (set_events es (lc_table c)) refs' (<[t := p']> (lc_thr c))).
Proof.
  intros Hinv Ht Ho Hde Hcl Hsub Hk. destruct (h_split c t p Ht) as (Ro & Rd & Rc & Hsp).
  destruct (h_view _ _ _ _ _ _ Hinv Hsp) as (Hf & Hrc & Hnd).
  assert (omap id (l_state (lc_table c)) ++ refs' ++ own p' ++ Ro ≡ₚ omap id (l_state (lc_table c)) ++ lc_refs c ++ own p ++ Ro) as Hp.
  { rewrite !(app_assoc refs'), !(app_assoc (lc_refs c)). by rewrite Ho. }
  eapply h_frame; [done|exact Ht|exact Hsp|..]; simpl; try done.
  - intros l. by rewrite Hp.
  - by rewrite Hp, Hde.
  - by apply Hcl.
  - intros i Hi. left. by apply Hsub.
  - apply (hi_shape _ Hinv).
  - by eapply know_other; [| |exact Hk].
  - apply (hi_made _ Hinv).
Qed.

(** ** The accesses *)

Lemma same_everywhere os h h' : (forall l, data_of h' l = data_of h l) -> same_data os h h'.
Proof. by intros H l _. Qed.

Lemma made_same s s' :
  l_made s' = l_made s -> l_closed s' = l_closed s -> (forall l, data_of (l_heap s') l = data_of (l_heap s) l) ->
  l_made s ≡ₚ l_closed s ++ living (l_heap s) -> l_made s' ≡ₚ l_closed s' ++ living (l_heap s').
Proof. intros -> -> Hd. by rewrite (living_data _ _ Hd). Qed.

Definition set_heap (h : heap) (s : table) : table := Table h (l_state s) (l_events s) (l_made s) (l_closed s).

(** A move that changes counts and nothing else. *)
Lemma h_counts c t p Ro Rd Rc p' h' :
  h_inv c -> lc_thr c !! t = Some p -> split c t p Ro Rd Rc ->
  (forall l, data_of h' l = data_of (l_heap (lc_table c)) l) ->
  (forall l, occ l (omap id (l_state (lc_table c)) ++ lc_refs c ++ own p' ++ Ro) < 2 ^ 32) ->
  cnt_inv (hp_blocks h') (omap id (l_state (lc_table c)) ++ lc_refs c ++ own p' ++ Ro) (dead p' ++ Rd) ->
  claim p' = claim p -> know (set_heap h' (lc_table c)) p' ->
  h_inv (LConf (set_heap h' (lc_table c)) (lc_refs c) (<[t := p']> (lc_thr c))).
Proof.
  intros Hinv Ht Hsp Hd Hf Hrc Hcl Hk. destruct (h_view _ _ _ _ _ _ Hinv Hsp) as (_ & _ & Hnd).
  eapply h_frame; [done|exact Ht|exact Hsp|..]; simpl; try done.
  - by rewrite Hcl.
  - rewrite Hcl. intros i Hi. by left.
  - by apply same_everywhere.
  - intros l d. rewrite Hd. apply (hi_shape _ Hinv).
  - exact (made_same (lc_table c) (set_heap h' (lc_table c)) eq_refl eq_refl Hd (hi_made _ Hinv)).
Qed.

(** The entry that a worker has read stays while it has the event. *)
Lemma h_incr_inv c t p l p' :
  h_inv c -> lc_thr c !! t = Some p -> l ∈ omap id (l_state (lc_table c)) ++ lc_refs c ++ own p ->
  1 + occ l (owners c) < 2 ^ 32 -> dead p' = dead p -> claim p' = claim p -> own p' = l :: own p ->
  (forall s, data_of (l_heap s) l = data_of (l_heap (lc_table c)) l -> know s p') ->
  wp (_ ← on_table (incr_count l); mret p') (fun q s' => h_inv (LConf s' (lc_refs c) (<[t := q]> (lc_thr c)))) no_exn (lc_table c).
Proof.
  intros Hinv Ht Hl Hroom Hde Hcl How Hk. destruct (h_split c t p Ht) as (Ro & Rd & Rc & Hsp).
  destruct (h_view _ _ _ _ _ _ Hinv Hsp) as (Hf & Hrc & _). rewrite (sp_owners _ _ _ _ _ _ Hsp) in Hroom.
  wp_step. apply wp_zoom. eapply cnt_incr; [exact Hrc| |exact Hroom|]; [set_solver|]. intros h' Hrc' Hd. wp_steps.
  assert (omap id (l_state (lc_table c)) ++ lc_refs c ++ own p' ++ Ro ≡ₚ l :: omap id (l_state (lc_table c)) ++ lc_refs c ++ own p ++ Ro) as Hp.
  { rewrite How. solve_Permutation. }
  eapply h_counts; [done|exact Ht|exact Hsp|exact Hd| | |done|].
  - intros l'. rewrite Hp, occ_cons. specialize (Hf l'). destruct (decide (l = l')) as [<-|]; lia.
  - rewrite Hp, Hde. exact Hrc'.
  - apply Hk. apply Hd.
Qed.

Lemma h_sub_inv c t l k :
  h_inv c -> lc_thr c !! t = Some (HSub l k) ->
  wp (n ← on_table (sub_and_fetch l); mret (if n =? 0 then HDestroy l k else k))
     (fun q s' => h_inv (LConf s' (lc_refs c) (<[t := q]> (lc_thr c)))) no_exn (lc_table c).
Proof.
  intros Hinv Ht. pose proof (hi_know _ Hinv t _ Ht) as [Hk0 Hk]. destruct (h_split c t _ Ht) as (Ro & Rd & Rc & Hsp). destruct (h_view _ _ _ _ _ _ Hinv Hsp) as (Hf & Hrc & _). simpl in *.
  set (os := omap id (l_state (lc_table c)) ++ lc_refs c ++ own k ++ Ro).
  assert (omap id (l_state (lc_table c)) ++ lc_refs c ++ l :: own k ++ Ro ≡ₚ l :: os) as Hp by (unfold os; solve_Permutation).
  rewrite Hp in Hrc. wp_step. apply wp_zoom. eapply cnt_sub; [exact Hrc|rewrite <-Hp; apply Hf|]. intros h' Hrc' Hd. wp_steps.
  assert (forall l0, occ l0 os < 2 ^ 32) as Hf' by (apply (few_less os l); intros l0; rewrite <-Hp; apply Hf).
  assert (know (set_heap h' (lc_table c)) k) as Hk' by (eapply know_other; [by apply same_everywhere|done|done]).
  rewrite Hk0 in Hrc'. destruct (_ =? 0); (eapply h_counts; [done|exact Ht|exact Hsp|exact Hd|exact Hf'| |done|done]); simpl; by rewrite Hk0.
Qed.

Lemma omap_set {A} (ls : list (option A)) i o o' :
  ls !! i = Some o -> exists rest, omap id ls ≡ₚ option_list o ++ rest /\ omap id (<[i := o']> ls) ≡ₚ option_list o' ++ rest.
Proof.
  intros Hi. exists (omap id (delete i ls)). split; [by apply (omap_lookup_perm id ls i o)|].
  apply (omap_insert_perm id). by eapply lookup_lt_Some.
Qed.

Lemma wp_slot fd o Q E s : 0 <= fd -> l_state s !! Z.to_nat fd = Some o -> Q o s -> wp (slot fd) Q E s.
Proof.
  intros Hfd Ho HQ. unfold slot. wp_step. unfold wp, get. destruct (Z.leb_spec 0 fd); [|lia]. by rewrite Ho.
Qed.

Lemma release_like o p : dead (release o p) = dead p /\ claim (release o p) = claim p /\ own (release o p) = option_list o ++ own p.
Proof. by destruct o. Qed.

Lemma release_know s o p : dead p = [] -> know s p -> know s (release o p).
Proof. by destruct o. Qed.

(** The thread that has the claim exchanges the entry for another pointer. *)
Lemma h_exchange_inv c t p fd o' p' :
  h_inv c -> lc_thr c !! t = Some p -> fd ∈ claim p -> dead p = [] -> sublist (claim p') (claim p) ->
  own p' ++ option_list o' ≡ₚ own p -> dead p' = [] ->
  (forall l, o' = Some l -> data_of (l_heap (lc_table c)) l = Some [Some fd]) ->
  (forall s, l_heap s = l_heap (lc_table c) ->
     (forall i, Z.to_nat i <> Z.to_nat fd -> l_state s !! Z.to_nat i = l_state (lc_table c) !! Z.to_nat i) -> know s p') ->
  wp (o ← slot fd; _ ← upd_table (set_slot fd o'); mret (release o p'))
     (fun q s' => h_inv (LConf s' (lc_refs c) (<[t := q]> (lc_thr c)))) no_exn (lc_table c).
Proof.
  intros Hinv Ht Hin Hdp Hcl How Hdp' Hdata Hk. destruct (h_split c t _ Ht) as (Ro & Rd & Rc & Hsp).
  destruct (h_view _ _ _ _ _ _ Hinv Hsp) as (Hf & Hrc & Hnd).
  assert (0 <= fd < zlen (l_state (lc_table c))) as Hr.
  { apply (hi_range _ Hinv). rewrite (sp_claims _ _ _ _ _ _ Hsp). set_solver. }
  destruct (lookup_lt_is_Some_2 (l_state (lc_table c)) (Z.to_nat fd)) as [o Ho]; [lia|].
  wp_step. eapply wp_slot; [lia|exact Ho|]. unfold upd_table. wp_steps.
  destruct (release_like o p') as (E1 & E2 & E3). destruct (omap_set _ _ _ o' Ho) as (rest & Hr1 & Hr2).
  assert (omap id (<[Z.to_nat fd := o']> (l_state (lc_table c))) ++ lc_refs c ++ own (release o p') ++ Ro ≡ₚ
          omap id (l_state (lc_table c)) ++ lc_refs c ++ own p ++ Ro) as Hp.
  { rewrite Hr1, Hr2, E3, <-How. solve_Permutation. }
  eapply h_frame; [done|exact Ht|exact Hsp|..]; simpl.
  - by rewrite length_insert.
  - intros l. by rewrite Hp.
  - rewrite Hp, E1, Hdp'. by rewrite Hdp in Hrc.
  - rewrite E2. eapply sublist_NoDup; [exact Hnd|]. apply sublist_app; [done|]. by apply sublist_app.
  - rewrite E2. intros i Hi. left. apply elem_of_app in Hi. apply elem_of_app. destruct Hi as [Hi|Hi]; [by left|right]. by eapply elem_of_sublist.
  - done.
  - apply (hi_shape _ Hinv).
  - intros i Hne. destruct (decide (i = Z.to_nat fd)) as [->|Hi]; [|by rewrite list_lookup_insert_ne in Hne].
    rewrite Z2Nat.id by lia. split; [done|]. intros l Hl. rewrite list_lookup_insert_eq in Hl by lia. apply Hdata. congruence.
  - apply release_know; [done|]. apply Hk; [done|]. intros i Hi. simpl. by rewrite list_lookup_insert_ne.
  - apply (hi_made _ Hinv).
Qed.

Lemma living_delete h h' l b fd :
  hp_blocks h !! l = Some b -> blk_data b = [Some fd] -> hp_blocks h' = delete l (hp_blocks h) -> living h ≡ₚ fd :: living h'.
Proof.
  intros Hb Hd Hh. unfold living. rewrite Hh, fmap_delete.
  assert ((blk_data <$> hp_blocks h) !! l = Some [Some fd]) as Hl by (by rewrite lookup_fmap, Hb; simpl; rewrite Hd).
  rewrite <-(insert_delete_id _ _ _ Hl) at 1. rewrite map_to_list_insert by apply lookup_delete_eq. done.
Qed.

Lemma h_destroy_inv c t l k :
  h_inv c -> lc_thr c !! t = Some (HDestroy l k) ->
  wp (_ ← destroy l; mret k) (fun q s' => h_inv (LConf s' (lc_refs c) (<[t := q]> (lc_thr c)))) no_exn (lc_table c).
Proof.
  intros Hinv Ht. pose proof (hi_know _ Hinv t _ Ht) as [Hk0 Hk]. destruct (h_split c t _ Ht) as (Ro & Rd & Rc & Hsp).
  destruct (h_view _ _ _ _ _ _ Hinv Hsp) as (Hf & Hrc & Hnd). simpl in *. rewrite Hk0 in Hrc.
  destruct (cnt_dead _ _ _ l Hrc) as [Hlo [b Hb]]; [set_solver|].
  destruct (hi_shape _ Hinv l (blk_data b)) as [fd Hfd]; [by unfold data_of; rewrite Hb|].
  unfold destroy. wp_step. wp_step. apply wp_zoom. eapply wp_get_block; [exact Hb|]. rewrite Hfd. unfold upd_table. wp_step. wp_step.
  simpl. apply wp_zoom. eapply cnt_free; [exact Hrc|]. intros h' Hrc' Hd Hh'. wp_steps.
  eapply h_frame; [done|exact Ht|exact Hsp|..]; simpl; try done.
  - by rewrite Hk0.
  - intros i Hi. by left.
  - eapply same_data_incl; [|exact Hd]. by rewrite (sp_owners _ _ _ _ _ _ Hsp).
  - intros l' d Hl'. apply (hi_shape _ Hinv l'). unfold data_of in *. rewrite Hh' in Hl'.
    destruct (decide (l = l')) as [<-|]; [by rewrite lookup_delete_eq in Hl'|by rewrite lookup_delete_ne in Hl'].
  - eapply know_other; [| |exact Hk]; [|done]. eapply same_data_incl; [|exact Hd]. set_solver.
  - pose proof (hi_made _ Hinv) as Hm. rewrite (living_delete _ h' l b fd Hb Hfd Hh') in Hm. rewrite Hm. solve_Permutation.
Qed.

(** Each access of a thread keeps the invariant. *)
Lemma h_code_inv c t p m :
  h_inv c -> lc_thr c !! t = Some p -> h_code p = Some m -> has_room c p ->
  wp m (fun q s' => h_inv (LConf s' (lc_refs c) (<[t := q]> (lc_thr c)))) no_exn (lc_table c).
Proof.
  intros Hinv Ht Hm Hroom. pose proof (hi_know _ Hinv t p Ht) as Hk.
  assert (forall fd, fd ∈ claim p -> 0 <= fd < zlen (l_state (lc_table c))) as Hr.
  { intros fd Hfd. apply (hi_range _ Hinv). destruct (h_split c t p Ht) as (Ro & Rd & Rc & Hsp). rewrite (sp_claims _ _ _ _ _ _ Hsp). set_solver. }
  assert (set_events (l_events (lc_table c)) (lc_table c) = lc_table c) as Hid by (by destruct (lc_table c)).
  destruct p; simpl in Hm; try done; injection Hm as <-; simpl in *.
  - specialize (Hr id ltac:(set_solver)). destruct (lookup_lt_is_Some_2 (l_state (lc_table c)) (Z.to_nat id)) as [o Ho]; [lia|].
    wp_step. eapply wp_slot; [lia|exact Ho|]. apply wp_ret. rewrite <-Hid at 1.
    eapply h_local; [done|exact Ht|..]; destruct o; simpl; by auto.
  - eapply h_incr_inv; [done|exact Ht| |exact Hroom|done|done|done|].
    + apply elem_of_app. left. apply list_elem_of_omap. exists (Some l). split; [by eapply list_elem_of_lookup_2|done].
    + intros s Hs. simpl. rewrite Hs. pose proof (hi_slot _ Hinv _ _ Hk) as Hd. specialize (Hr id ltac:(set_solver)).
      by rewrite Z2Nat.id in Hd by lia.
  - destruct (release_like h HIdle) as (E1 & E2 & E3). destruct (re || rm) eqn:Hflags; [|destruct cont].
    + apply wp_ret. rewrite <-Hid at 1. eapply h_local; [done|exact Ht|..]; simpl; rewrite ?Hflags, ?E1, ?E2, ?E3; simpl; rewrite ?app_nil_r; try done.
      by destruct h.
    + unfold upd_table. wp_steps. eapply h_local; [done|exact Ht|..]; simpl; rewrite ?Hflags, ?E1, ?E2, ?E3; simpl; rewrite ?app_nil_r; try done.
      * intros Rc. rewrite Permutation_middle. done.
      * set_solver.
      * by destruct h.
    + apply wp_ret. rewrite <-Hid at 1. eapply h_local; [done|exact Ht|..]; simpl; rewrite ?Hflags, ?E1, ?E2, ?E3; simpl; rewrite ?app_nil_r; try done.
      by destruct h.
  - destruct Hk as [Hk0 Hk]. eapply h_exchange_inv; [done|exact Ht|set_solver|done| |by rewrite app_nil_r|done|done|].
    + by apply sublist_cons.
    + intros s Hs Hsl. eapply know_other; [by apply same_everywhere; rewrite Hs| |exact Hk]. intros i Hi. apply Hsl.
      destruct (h_split c t _ Ht) as (Ro & Rd & Rc & Hsp). destruct (h_view _ _ _ _ _ _ Hinv Hsp) as (_ & _ & Hnd). simpl in Hnd.
      pose proof (Hr i ltac:(set_solver)). pose proof (Hr id ltac:(set_solver)).
      apply list.NoDup_app in Hnd as (_ & _ & Hnd). apply NoDup_cons in Hnd as [Hnd _].
      intros Heq. apply Hnd. apply elem_of_app. left. by replace id with i by lia.
  - by apply h_sub_inv.
  - by apply h_destroy_inv.
  - eapply h_incr_inv; [done|exact Ht| |exact Hroom|done|done|done|].
    + set_solver.
    + intros s Hs. simpl. by rewrite Hs.
  - eapply (h_exchange_inv c t (HStore id l) id (Some l) (HAddFd id l)); [done|exact Ht|set_solver|done|done|done|done| |].
    + by intros l0 [= <-].
    + intros s Hs _. simpl. by rewrite Hs.
  - unfold upd_table. wp_steps. eapply h_local; [done|exact Ht|..]; simpl; try done.
    + intros Rc. by rewrite Permutation_middle.
    + set_solver.
Qed.

Lemma living_insert h s l id :
  hp_blocks h !! l = None -> living (Heap (<[l := Block (Some 1) [Some id]]> (hp_blocks h)) s) ≡ₚ id :: living h.
Proof.
  intros Hl. unfold living. cbn [hp_blocks]. rewrite fmap_insert, map_to_list_insert; [done|]. by rewrite lookup_fmap, Hl.
Qed.

Lemma h_new_inv c t fd l :
  h_inv c -> lc_thr c !! t = Some HIdle -> (fd ∉ claims c) -> 0 <= fd < zlen (l_state (lc_table c)) ->
  hp_blocks (l_heap (lc_table c)) !! l = None ->
  h_inv (LConf
      (Table (Heap (<[l := Block (Some 1) [Some fd]]> (hp_blocks (l_heap (lc_table c)))) (hp_script (l_heap (lc_table c))))
         (l_state (lc_table c)) (l_events (lc_table c)) (l_made (lc_table c) ++ [fd]) (l_closed (lc_table c)))
      (lc_refs c) (<[t := HSet fd l]> (lc_thr c))).
Proof.
  intros Hinv Ht Hfd Hrange Hl. destruct (h_split c t _ Ht) as (Ro & Rd & Rc & Hsp). destruct (h_view _ _ _ _ _ _ Hinv Hsp) as (Hf & Hrc & Hnd).
  destruct (cnt_absent _ _ _ _ Hrc Hl) as [Hlo Hld]. simpl in *. set (os := omap id (l_state (lc_table c)) ++ lc_refs c ++ Ro) in *.
  assert (omap id (l_state (lc_table c)) ++ lc_refs c ++ l :: Ro ≡ₚ l :: os) as Hp by (unfold os; solve_Permutation).
  assert (forall l', l' <> l -> data_of (Heap (<[l := Block (Some 1) [Some fd]]> (hp_blocks (l_heap (lc_table c)))) (hp_script (l_heap (lc_table c)))) l' = data_of (l_heap (lc_table c)) l') as Hd.
  { intros l' Hne. unfold data_of. cbn [hp_blocks]. by rewrite lookup_insert_ne. }
  eapply h_frame; [done|exact Ht|exact Hsp|..]; cbn [l_heap l_state l_events l_made l_closed own dead claim]; try done.
  - intros l'. change ([l] ++ Ro) with (l :: Ro). rewrite Hp. by apply few_fresh.
  - change ([l] ++ Ro) with (l :: Ro). rewrite Hp. destruct Hrc as [Hn Hrc]. split; [done|]. intros l'. specialize (Hrc l').
    autorewrite with mpio_rw. cbn [hp_blocks]. destruct (decide (l = l')) as [<-|].
    + rewrite lookup_insert_eq. rewrite Hl in Hrc. simpl. destruct Hrc as [-> _]. split; [done|]. split; [done|lia].
    + rewrite lookup_insert_ne by done. by rewrite Z.add_0_l.
  - rewrite (sp_claims _ _ _ _ _ _ Hsp) in Hfd. simpl in Hfd. change ([fd] ++ Rc) with (fd :: Rc). rewrite <-Permutation_middle. by apply NoDup_cons.
  - intros i Hi. apply elem_of_app in Hi as [Hi|Hi]; [left; by apply elem_of_app; left|right]. by apply list_elem_of_singleton in Hi as ->.
  - intros l' Hl'. apply Hd. intros ->. rewrite (sp_owners _ _ _ _ _ _ Hsp) in Hl'. done.
  - intros l' d Hl'. destruct (decide (l' = l)) as [->|Hne]; [|rewrite Hd in Hl' by done; by apply (hi_shape _ Hinv l')].
    unfold data_of in Hl'. cbn [hp_blocks] in Hl'. rewrite lookup_insert_eq in Hl'. injection Hl' as <-. by exists fd.
  - cbn [know l_heap]. unfold data_of. cbn [hp_blocks]. by rewrite lookup_insert_eq.
  - rewrite (living_insert _ _ _ _ Hl), (hi_made _ Hinv). solve_Permutation.
Qed.

Lemma h_act_inv c t p p' es :
  h_inv c -> lc_thr c !! t = Some p -> acts p (l_events (lc_table c)) p' es -> in_order p p' = true ->
  h_inv (LConf (set_events es (lc_table c)) (lc_refs c) (<[t := p']> (lc_thr c))).
Proof.
  intros Hinv Ht Hact Hord. pose proof (hi_know _ Hinv t p Ht) as Hk.
  remember (l_events (lc_table c)) as es0 eqn:He.
  destruct Hact as [id l re rm cont es0|id l [] es0|id l [] es0|id l es0]; try done;
    (eapply h_local; [done|exact Ht|..]); simpl; rewrite <-?He; try done.
  - intros Rc. by rewrite Permutation_middle.
  - set_solver.
Qed.

Lemma h_step_inv c c' : h_inv c -> h_step true c c' -> h_inv c'.
Proof.
  intros Hinv Hs. assert (set_events (l_events (lc_table c)) (lc_table c) = lc_table c) as Hid by (by destruct (lc_table c)).
  destruct Hs as [t p m p' s' Ht Hm Hroom Hrun|t id es Ht Hes|t p p' es Ht Hact Hord|t id Ht Hfalse|t fd l Ht Hfd Hr Hl|t l Ht|t l refs Ht Hrefs|].
  - pose proof (h_code_inv c t p m Hinv Ht Hm Hroom) as Hwp. unfold wp in Hwp. by rewrite Hrun in Hwp.
  - eapply h_local; [done|exact Ht|..]; simpl; try done.
    + intros Rc. rewrite Hes. simpl. by rewrite <-Permutation_middle.
    + intros i Hi. rewrite Hes. set_solver.
  - eapply h_act_inv; [done..|by apply Hord].
  - done.
  - by apply h_new_inv.
  - rewrite <-Hid at 1. eapply h_local; [done|exact Ht|..]; simpl; try done. by rewrite app_nil_r, Permutation_cons_append.
  - rewrite <-Hid at 1. eapply h_local; [done|exact Ht|..]; simpl; try done. by rewrite Hrefs, app_nil_r, <-Permutation_cons_append.
  - destruct Hinv as [Hf Hrc Hc Hr Hsh Hsl Hk Hm].
    assert (forall A (f : hpc -> list A), f HIdle = [] -> concat (f <$> lc_thr c ++ [HIdle]) = concat (f <$> lc_thr c)) as Happ.
    { intros A f Hn. rewrite fmap_app, concat_app. simpl. rewrite Hn. by rewrite !app_nil_r. }
    split; unfold owners, deads, claims in *; simpl; rewrite ?Happ by done; try done.
    intros t p [H|[_ H]]%lookup_app_Some; [by eapply Hk|]. by apply list_lookup_singleton_Some in H as [_ <-].
Qed.

Lemma h_reach_inv c : h_reach true c -> h_inv c.
Proof.
  induction 1 as [n script|c c' _ IH Hs]; [|by eapply h_step_inv].
  assert (omap id (replicate n (@None loc)) = []) as Hnil by (induction n; done).
  split; unfold owners, deads, claims; simpl; rewrite ?Hnil; try done.
  - by apply cnt_inv_rc.
  - constructor.
  - intros i Hi. set_solver.
  - intros i l Hi. apply lookup_replicate in Hi as [? _]. done.
Qed.

(** The handler a thread is running. *)
Definition running (p : hpc) : option loc := match p with HRun _ l _ _ => Some l | _ => None end.



(** ** Runs *)

Inductive h_move : Type :=
| HvAccess (t : nat) | HvTake (t : nat) (id : Z) | HvReturn (t : nat) (cont : bool) | HvHandOn (t : nat) | HvRemove (t : nat)
| HvRemoveHandler (t : nat) (id : Z)
| HvNew (t : nat) (id : Z) | HvKeep (t : nat) | HvDrop (t : nat) | HvThread.

Definition has_room_b (c : lconf) (p : hpc) : bool :=
  match p with HIncr _ l | HSet _ l => 1 + occ l (owners c) <? 2 ^ 32 | _ => true end.

Definition go (c : lconf) (t : nat) (s : table) (refs : list loc) (p : hpc) : option lconf :=
  Some (LConf s refs (<[t := p]> (lc_thr c))).

Section Moves.
Variable orderly : bool.

Definition h_run_move (mv : h_move) (c : lconf) : option lconf :=
  let s := lc_table c in
  match mv with
  | HvAccess t =>
      p ← lc_thr c !! t;
      m ← h_code p;
      if has_room_b c p then match m s with Ret p' s' => go c t s' (lc_refs c) p' | _ => None end else None
  | HvTake t id =>
      match lc_thr c !! t, l_events s with
      | Some HIdle, e :: es => if e =? id then go c t (set_events es s) (lc_refs c) (HFetch id) else None
      | _, _ => None
      end
  | HvReturn t cont =>
      match lc_thr c !! t with
      | Some (HRun id l re rm) => go c t (set_events (l_events s) s) (lc_refs c) (HFinish id (Some l) re rm cont)
      | _ => None
      end
  | HvHandOn t =>
      match lc_thr c !! t with
      | Some (HRun id l false rm) =>
          if orderly && rm then None else go c t (set_events (id :: l_events s) s) (lc_refs c) (HRun id l true rm)
      | _ => None
      end
  | HvRemove t =>
      match lc_thr c !! t with
      | Some (HRun id l re false) =>
          if orderly && re then None else go c t (set_events (l_events s) s) (lc_refs c) (HReset id (HRun id l re true))
      | _ => None
      end
  | HvRemoveHandler t id =>
      match lc_thr c !! t with
      | Some HIdle => if orderly then None else go c t s (lc_refs c) (HReset id (HRemoveFd id))
      | _ => None
      end
  | HvNew t id =>
      let l := fresh (dom (hp_blocks (l_heap s))) in
      match lc_thr c !! t with
      | Some HIdle =>
          if bool_decide (id ∉ claims c) && bool_decide (0 <= id < zlen (l_state s)) then
            go c t (Table (Heap (<[l := Block (Some 1) [Some id]]> (hp_blocks (l_heap s))) (hp_script (l_heap s)))
                      (l_state s) (l_events s) (l_made s ++ [id]) (l_closed s)) (lc_refs c) (HSet id l)
          else None
      | _ => None
      end
  | HvKeep t => match lc_thr c !! t with Some (HAdded l) => go c t s (l :: lc_refs c) HIdle | _ => None end
  | HvDrop t =>
      match lc_thr c !! t, lc_refs c with
      | Some HIdle, l :: refs => go c t s refs (HSub l HIdle)
      | _, _ => None
      end
  | HvThread => Some (LConf s (lc_refs c) (lc_thr c ++ [HIdle]))
  end.

Fixpoint h_run (ms : list h_move) (c : lconf) : option lconf :=
  match ms with [] => Some c | m :: ms => h_run_move m c ≫= h_run ms end.

Lemma h_run_move_step mv c c' : h_run_move mv c = Some c' -> h_step orderly c c'.
Proof.
  unfold go. intros H. destruct mv; unfold h_run_move in H.
  - destruct (lc_thr c !! t) as [p|] eqn:Ht; [|done]. cbn [mbind option_bind] in H. destruct (h_code p) as [m|] eqn:Hm; [|done].
    cbn [mbind option_bind] in H. destruct (has_room_b c p) eqn:Hroom; [|done]. destruct (m (lc_table c)) as [p' s'| | |] eqn:Hrun; try done.
    injection H as <-. eapply h_access; [done..| |done]. destruct p; try done; by apply Z.ltb_lt in Hroom.
  - destruct (lc_thr c !! t) as [[]|] eqn:Ht; try done. destruct (l_events (lc_table c)) as [|e es] eqn:He; [done|].
    destruct (Z.eqb_spec e id) as [->|]; [|done]. injection H as <-. eapply h_take; [done|by rewrite He].
  - destruct (lc_thr c !! t) as [[]|] eqn:Ht; try done; injection H as <-; (eapply h_act; [exact Ht|constructor|done]).
  - destruct (lc_thr c !! t) as [[| | |id l [] rm| | | | | | | | |]|] eqn:Ht; try done. destruct (orderly && rm) eqn:Ho; [done|].
    injection H as <-. eapply h_act; [exact Ht|constructor|]. intros ->. by destruct rm.
  - destruct (lc_thr c !! t) as [[| | |id l re []| | | | | | | | |]|] eqn:Ht; try done. destruct (orderly && re) eqn:Ho; [done|].
    injection H as <-. eapply h_act; [exact Ht|constructor|]. intros ->. by destruct re.
  - destruct (lc_thr c !! t) as [[]|] eqn:Ht; try done. destruct orderly eqn:Ho; [done|]. injection H as <-. by eapply h_remove_handler.
  - destruct (lc_thr c !! t) as [[]|] eqn:Ht; try done. destruct (bool_decide (id ∉ claims c)) eqn:H1; [|done].
    destruct (bool_decide (0 <= id < zlen (l_state (lc_table c)))) eqn:H2; [|done]. injection H as <-.
    apply bool_decide_eq_true in H1, H2. eapply h_new; [done..|]. apply not_elem_of_dom, is_fresh.
  - destruct (lc_thr c !! t) as [[]|] eqn:Ht; try done. injection H as <-. by eapply h_keep.
  - destruct (lc_thr c !! t) as [[]|] eqn:Ht; try done. destruct (lc_refs c) as [|l refs] eqn:Hr; [done|]. injection H as <-.
    eapply h_drop; [done|by rewrite Hr].
  - injection H as <-. apply h_thread.
Qed.

Lemma h_run_reach ms c c' : h_reach orderly c -> h_run ms c = Some c' -> h_reach orderly c'.
Proof.
  revert c. induction ms as [|m ms IH]; intros c Hr; cbn [h_run]; [by intros [= <-]|].
  destruct (h_run_move m c) as [c1|] eqn:Hm; [|done]. cbn [mbind option_bind]. apply IH. eapply h_next; [exact Hr|by eapply h_run_move_step].
Qed.
End Moves.

Definition empty_table : lconf := LConf (Table (Heap ∅ []) (replicate 8 None) [] [] []) [] [].

(** A client adds a handler for descriptor 5 and forgets it.  The handler, run by thread 1,
    hands its event on and goes on; thread 2 takes the event, and this second run of the
    handler ends it: the entry is empty, and the object lives on in thread 1 alone. *)
Definition shared_run : list h_move :=
  [HvThread; HvThread; HvThread; HvNew 0 5; HvAccess 0; HvAccess 0; HvAccess 0; HvKeep 0; HvDrop 0; HvAccess 0;
   HvTake 1 5; HvAccess 1; HvAccess 1; HvHandOn 1; HvTake 2 5; HvAccess 2; HvAccess 2; HvReturn 2 false;
   HvAccess 2; HvAccess 2; HvAccess 2; HvAccess 2].

Definition shared_mid : lconf := default empty_table (h_run true shared_run empty_table).


Definition shared_end : lconf := default empty_table (h_run true [HvReturn 1 true; HvAccess 1; HvAccess 1; HvAccess 1] shared_mid).


(** [remove_handler] of another thread is bound to no event: here thread 1 has read the
    entry and not yet counted its copy when thread 0 empties the entry, and with it the
    handler goes.  What thread 1 counts up next is freed memory. *)
Definition added_run : list h_move :=
  [HvThread; HvThread; HvThread; HvNew 0 5; HvAccess 0; HvAccess 0; HvAccess 0; HvKeep 0; HvDrop 0; HvAccess 0].

Definition removal_run : list h_move :=
  added_run ++ [HvTake 1 5; HvAccess 1; HvRemoveHandler 0 5; HvAccess 0; HvAccess 0; HvAccess 0].

(** The next access of thread [t] is to a handler that was destroyed. *)
Definition touches_destroyed (t : nat) (fd : Z) (c : lconf) : Prop :=
  fd ∈ l_closed (lc_table c) /\
  exists p m, lc_thr c !! t = Some p /\ h_code p = Some m /\ m (lc_table c) = Undef.

Lemma remove_handler_races : exists c, h_reach false c /\ touches_destroyed 1 5 c.
Proof.
  assert (exists c, h_run false removal_run empty_table = Some c /\ touches_destroyed 1 5 c) as (c & Hrun & Ht).
  { eexists. split; [by vm_compute|]. split; [by left|]. eexists (HIncr 5 0%nat), _. split_and!; [done|done|by vm_compute]. }
  exists c. split; [|exact Ht]. by apply (h_run_reach false removal_run empty_table); [apply h_start|].
Qed.

(** Neither is [remove] in a handler that called [next] before: thread 2 has taken the
    event and read the entry when thread 1 removes it, and with its own copy the
    handler goes. *)
Definition late_run : list h_move :=
  added_run ++ [HvTake 1 5; HvAccess 1; HvAccess 1; HvHandOn 1; HvTake 2 5; HvAccess 2; HvRemove 1; HvAccess 1; HvAccess 1;
                HvReturn 1 true; HvAccess 1; HvAccess 1; HvAccess 1].

Lemma late_remove_races : exists c, h_reach false c /\ touches_destroyed 2 5 c.
Proof.
  assert (exists c, h_run false late_run empty_table = Some c /\ touches_destroyed 2 5 c) as (c & Hrun & Ht).
  { eexists. split; [by vm_compute|]. split; [by left|]. eexists (HIncr 5 0%nat), _. split_and!; [done|done|by vm_compute]. }
  exists c. split; [|exact Ht]. by apply (h_run_reach false late_run empty_table); [apply h_start|].
Qed.
