(* ===== verification/FlushWait.v ===== *)
(** * flush() while workers run

    With workers [loop::flush()] waits on [m_flush_cond] until nothing is pending.
    The threads in [flush] are added to the configurations of LoopThreads: they
    check under the mutex and wait; a worker that emptied the queue of tasks or
    finished the last output broadcasts, some steps after it did so. *)

From Stdlib Require Import ZArith Lia.
From stdpp Require Import base tactics option list numbers gmap sets list_tactics.
From S2P Require Import Prelude Os Pthread Xfer XferQueue Kernel KernelEpoll Out OutProps OutFrame Loop LoopThreads LoopCore LoopProps LoopOthers.

(** ** What a run does to a part of the state *)

Section Parts.
Context {S : Type}.

(** It leaves it alone ... *)
Definition same_by {X} (f : S -> X) (s s' : S) : Prop := f s' = f s.

(** ... or adds one to a counter, at the most. *)
Definition up_by (f : S -> Z) (s s' : S) : Prop := f s' = f s \/ f s' = signed 32 (f s + 1).

#[export] Instance same_by_preorder {X} (f : S -> X) : PreOrder (same_by f).
Proof. split; [done|]. intros a b c H1 H2. unfold same_by in *. congruence. Qed.

Lemma respects_up {A} f (m : M S A) : respects (same_by f) m -> respects (up_by f) m.
Proof. apply respects_weaken. by left. Qed.

Lemma respects_then {A B} f (m : M S A) (k : A -> M S B) :
  respects (same_by f) m -> (forall a, respects (up_by f) (k a)) -> respects (up_by f) (m ≫= k).
Proof.
  intros Hm Hk s. specialize (Hm s). unfold mbind, M_bind. destruct (m s) as [a s1|e s1| |]; try done; [|by left].
  specialize (Hk a s1). destruct (k a s1); try done; unfold same_by, up_by in *; by rewrite <-Hm.
Qed.

End Parts.

(** ** The count of busy descriptors *)

Section Watching.
Context {OS : Os} {K : Kernel OS} {L : KernelLaws K}.

Abbreviation ost := (out * world)%type.
Abbreviation lst := (loop * world)%type.

Definition watching (st : ost) : Z := m_watching (fst st).
Definition watching_xf (t : ost * xfer) : Z := watching (fst t).

Lemma same_world {A} (m : M world A) : respects (same_by watching) (on_world m).
Proof. intros [o w]. unfold on_world, zoom. simpl. by destruct (m w). Qed.

Lemma same_get_out : respects (same_by watching) get_out.
Proof. done. Qed.

Lemma same_ctx_at fd : respects (same_by watching) (ctx_at fd).
Proof. unfold ctx_at. repeat first [apply same_get_out | respects_step]. Qed.

Lemma same_set_ctx fd ctx : respects (same_by watching) (set_ctx fd ctx).
Proof. by intros [o w]. Qed.

Lemma same_poll_event : respects (same_by watching) poll_event.
Proof.
  intros [o w]. unfold poll_event, get_out, mbind, M_bind, get, mret, M_ret, on_world, zoom. cbn [fst snd].
  destruct (wait (m_kernel o) 0 w) as [[e|es] w'|e w'| |]; try done. by destruct (would_retry e).
Qed.

Lemma same_next : respects (same_by watching) next.
Proof. intros [o w]. unfold next, get_out, mbind, M_bind, get, mret, M_ret. cbn [fst]. by destruct (m_queue o). Qed.

Lemma up_watch fd : respects (up_by watching) (watch fd).
Proof.
  unfold watch. apply respects_then; [apply same_get_out|]. intros o. apply respects_then; [apply same_world|]. intros r.
  intros st. by right.
Qed.

Ltac same_step :=
  first [ apply same_world | apply same_get_out | apply same_ctx_at | apply same_set_ctx | respects_step ].

Ltac up_step :=
  lazymatch goal with
  | |- forall _, _ => intros ?
  | |- respects (up_by _) (watch _) => apply up_watch
  | |- respects (up_by _) (mbind _ _) => apply respects_then; [solve [repeat same_step]|]
  | |- respects (up_by _) (if ?b then _ else _) => destruct b
  | |- respects (up_by _) (match ?x with _ => _ end) => destruct x
  | |- respects (up_by _) (let _ := _ in _) => cbv zeta
  | |- respects (up_by _) _ => apply respects_up; repeat same_step
  end.

Lemma up_write fd buf size : respects (up_by watching) (write fd buf size).
Proof. unfold write. repeat up_step. Qed.

Lemma up_commit_raw fd bytes : respects (up_by watching) (commit_raw fd bytes).
Proof. unfold commit_raw. repeat up_step. Qed.

Lemma same_on_out {A} (m : M ost A) : respects (same_by watching) m -> respects (same_by watching_xf) (on_out m).
Proof. intros Hm [st xf]. specialize (Hm st). unfold on_out, zoom. simpl. by destruct (m st). Qed.

Lemma same_xf : respects (same_by watching_xf) get_xf.
Proof. done. Qed.

Lemma same_put_xf xf : respects (same_by watching_xf) (put_xf xf).
Proof. by intros [st xf0]. Qed.

Ltac commit_step :=
  first [ apply same_on_out; solve [repeat same_step] | apply same_xf | apply same_put_xf | respects_step ].

Lemma up_commit fd : respects (up_by watching_xf) (commit fd).
Proof.
  unfold commit. apply respects_then; [repeat commit_step|]. intros ctx. apply respects_then; [apply same_xf|]. intros xf.
  destruct (negb _); [apply respects_up; repeat commit_step|].
  apply respects_then; [repeat commit_step|]. intros [cont xf']. apply respects_then; [repeat commit_step|]. intros _.
  destruct cont; [|apply respects_up; repeat commit_step].
  apply respects_then; [repeat commit_step|]. intros [xf2 ctx2]. apply respects_then; [repeat commit_step|]. intros _.
  apply respects_then; [repeat commit_step|]. intros _. intros [st xf3]. pose proof (up_watch fd st) as Hw.
  unfold on_out, zoom. simpl. by destruct (watch fd st).
Qed.

(** Resuming the output of a descriptor: the count stays, or the result tells
    whether it is zero now. *)
Lemma write_event_tells ke (st : ost) b st' :
  write_event ke st = Ret b st' -> watching st' = watching st \/ b = (watching st' =? 0).
Proof.
  unfold write_event. intros Hrun.
  assert (forall A B (m : M ost A) (k : A -> M ost B) s0 b0 s2, (m ≫= k) s0 = Ret b0 s2 -> respects (same_by watching) m ->
    exists a s1, k a s1 = Ret b0 s2 /\ watching s1 = watching s0) as Hbind.
  { intros A B m k s0 b0 s2 Hmk Hm. specialize (Hm s0). unfold mbind, M_bind in Hmk. destruct (m s0) as [a s1|e s1| |]; try done.
    by exists a, s1. }
  apply Hbind in Hrun as (ctx & s1 & Hrun & H1); [|repeat same_step].
  apply Hbind in Hrun as ([cont ctx'] & s2 & Hrun & H2); [|repeat same_step].
  apply Hbind in Hrun as (u & s3 & Hrun & H3); [|repeat same_step].
  apply Hbind in Hrun as (o & s4 & Hrun & H4); [|repeat same_step].
  destruct (negb cont).
  - apply Hbind in Hrun as (r & s5 & Hrun & _); [|repeat same_step].
    apply Hbind in Hrun as (ctx2 & s6 & Hrun & _); [|repeat same_step].
    apply Hbind in Hrun as (u2 & s7 & Hrun & _); [|repeat same_step].
    right. unfold add_watching, get_out, mbind, M_bind, get, mret, M_ret, put_out, modify in Hrun. by injection Hrun as <- <-.
  - apply Hbind in Hrun as (r & s5 & Hrun & H5); [|repeat same_step]. injection Hrun as <- <-. left. congruence.
Qed.

(** ** What flush waits for *)

(** The count of busy descriptors and the queue of tasks. *)
Definition todo (st : lst) : Z * list Z := (m_watching (m_out (fst st)), m_task_queue (fst st)).

Lemma todo_get : respects (same_by todo) get_loop.
Proof. done. Qed.

Lemma todo_upd f :
  (forall l, m_out (f l) = m_out l /\ m_task_queue (f l) = m_task_queue l) -> respects (same_by todo) (upd_loop f).
Proof. intros Hf [l w]. destruct (Hf l) as [Ho Ht]. unfold same_by, todo. simpl. by rewrite Ho, Ht. Qed.

Lemma todo_world {A} (m : M world A) : respects (same_by todo) (in_world m).
Proof. intros [l w]. unfold in_world, zoom. simpl. by destruct (m w). Qed.

Lemma todo_m_out {A} (m : M ost A) : respects (same_by watching) m -> respects (same_by todo) (on_m_out m).
Proof.
  intros Hm [l w]. specialize (Hm (m_out l, w)). unfold on_m_out, zoom, same_by, todo, watching in *. simpl in *.
  destruct (m (m_out l, w)); try done; simpl; by rewrite Hm.
Qed.

Lemma todo_reset ident : respects (same_by todo) (reset_handler ident).
Proof. intros [l w]. unfold reset_handler, get_loop, mbind, M_bind, get, mret, M_ret. simpl. by destruct (_ && _). Qed.

Lemma todo_set ident g : respects (same_by todo) (set_handler ident g).
Proof. intros [l w]. unfold set_handler, get_loop, mbind, M_bind, get, mret, M_ret. simpl. by destruct (_ && _). Qed.

End Watching.

Ltac todo_step :=
  first [ apply todo_get | apply todo_upd; by intros [] | apply todo_world
        | apply todo_m_out; first [apply same_poll_event | apply same_next]
        | apply todo_reset | apply todo_set | respects_step ].

(** ** Workers *)

Section Workers.
Context {OS : Os} {K : Kernel OS} {L : KernelLaws K}.

Abbreviation lst := (loop * world)%type.

(** Something is queued for a descriptor, or a task is. *)
Definition unfinished (st : lst) : Prop := todo st <> (0, []).

#[export] Instance unfinished_dec st : Decision (unfinished st).
Proof. unfold unfinished. apply _. Defined.

(** On the way to the broadcast. *)
Definition will_broadcast (p : pc) : bool := match p with PcTask _ true | PcFlush => true | _ => false end.

Definition noticed (c : conf) : Prop :=
  unfinished (c_st c) \/ exists i p, c_ts c !! i = Some p /\ will_broadcast p = true.

Lemma broadcasting_settled p : will_broadcast p = true -> settled p = true.
Proof. by destruct p. Qed.

Lemma process_same ke : respects (same_by todo) (process_handler ke).
Proof. unfold process_handler. repeat todo_step. Qed.

(** Most of what a worker does changes neither. *)
Lemma piece_same p :
  p <> PcLock -> (forall ke, p <> PcOut ke) -> respects (same_by todo) (thread_code p).
Proof.
  intros H1 H2. destruct p; try done; try (by destruct (H2 ke)); cbn [thread_code];
    unfold poll_once, polled, out_ready, fetch, finish, reset, next_backlog; repeat first [apply process_same | todo_step].
Qed.

Lemma respects_or_lock p :
  respects (same_by todo) (thread_code p) \/ p = PcLock \/ exists ke, p = PcOut ke.
Proof. destruct p; try (left; by apply piece_same); right; [by left|right; by eexists]. Qed.

(** Under the mutex a worker takes a task, or leaves both as they are. *)
Lemma schedule_takes (st : lst) p b st' :
  schedule st = Ret (p, b) st' ->
  same_by todo st st' \/
  exists t q, m_task_queue (fst st) = t :: q /\ todo st' = (fst (todo st), q) /\ p = PcTask t (bool_decide (q = [])).
Proof.
  assert (forall (m : M lst (pc * bool)), respects (same_by todo) m -> m st = Ret (p, b) st' -> same_by todo st st') as Hsame.
  { intros m Hm Hrun. by apply (respects_run _ _ _ _ _ Hm Hrun). }
  unfold schedule, mbind at 1, M_bind at 1, get_loop, mbind at 1, M_bind at 1, get, mret at 1, M_ret at 1.
  destruct st as [l w]. cbn [fst snd] in *.
  assert (('(t, last) ← pop_task; mret (PcTask t last, negb last)) (l, w) = Ret (p, b) st' ->
    exists t q, m_task_queue l = t :: q /\ todo st' = (fst (todo (l, w)), q) /\ p = PcTask t (bool_decide (q = []))) as Hpop.
  { unfold pop_task, get_loop, upd_loop, mbind, M_bind, get, mret, M_ret, modify. cbn [fst snd].
    destruct (m_task_queue l) as [|t q]; [done|]. intros [= <- _ <-]. by exists t, q. }
  destruct (m_end_flag l); [intros [= _ _ <-]; by left|]. destruct (m_more_queue l) as [|ke q].
  - destruct (negb (m_pollable l)).
    + destruct (negb (bool_decide (m_queue _ = []))).
      { intros Hrun. left. revert Hrun. apply (Hsame (ke ← on_m_out next; mret (PcOut ke, false))). repeat todo_step. }
      destruct (negb (bool_decide (m_task_queue l = []))); [intros H%Hpop; by right|]. intros [= _ _ <-]. by left.
    + destruct (_ <? _); [intros H%Hpop; by right|]. destruct (_ =? _).
      * intros Hrun. left. revert Hrun. apply (Hsame (_ ← upd_loop (set_pollable false); mret (PcPoll, false))). repeat todo_step.
      * intros Hrun. left. revert Hrun. apply (Hsame (ke ← next_backlog; p ← process_handler ke; mret (p, false))).
        unfold next_backlog. repeat first [apply process_same | todo_step].
  - intros Hrun. left. revert Hrun. apply (Hsame (_ ← upd_loop (set_more q); p ← process_handler ke; mret (p, false))).
    repeat first [apply process_same | todo_step].
Qed.

(** What it leaves when it finished the output of a descriptor. *)
Lemma out_event_tells ke (st : lst) p st' :
  out_event ke st = Ret p st' ->
  same_by todo st st' \/
  (snd (todo st') = snd (todo st) /\ (fst (todo st') <> 0 \/ p = PcFlush)).
Proof.
  destruct st as [l w]. unfold out_event, mbind, M_bind, on_m_out, zoom. cbn [fst snd].
  destruct (write_event ke (m_out l, w)) as [b [o' w']|e st2| |] eqn:Hrun; [|done..]. unfold mret, M_ret. intros [= <- <-].
  apply write_event_tells in Hrun as [Hw|Hw]; unfold watching, same_by, todo in *; cbn [fst snd] in *.
  - left. simpl. by rewrite Hw.
  - right. split; [done|]. simpl. destruct (Z.eqb_spec (m_watching o') 0); subst b; [by right|by left].
Qed.

(** ** Nothing is forgotten *)

Lemma output_up op : writes op = true -> respects (fun st st' : lst =>
  up_by (fun st => fst (todo st)) st st' /\ snd (todo st') = snd (todo st)) (run_output op).
Proof.
  intros Hop [l w]. destruct op as [fd buf size|fd rs|fd xf rs| | |]; try done; cbn [run_output].
  - pose proof (up_write fd buf size (m_out l, w)) as H. unfold on_m_out, zoom. cbn [fst snd].
    by destruct (write _ _ _ _).
  - pose proof (up_commit_raw fd (encode_all rs) (m_out l, w)) as H. unfold on_m_out, zoom. cbn [fst snd].
    by destruct (commit_raw _ _ _).
  - pose proof (up_commit fd ((m_out l, w), xf)) as H. unfold zoom. cbn [fst snd].
    by destruct (commit _ _).
Qed.

Lemma unfinished_same st st' : same_by todo st st' -> unfinished st -> unfinished st'.
Proof. unfold same_by, unfinished. by intros ->. Qed.

(** The count does not wrap to zero. *)
Lemma unfinished_up (l : loop) w st' hands acc :
  good (m_out l, w) hands acc -> up_by (fun st => fst (todo st)) (l, w) st' -> snd (todo st') = snd (todo (l, w)) ->
  unfinished (l, w) -> unfinished st'.
Proof.
  intros [qs [_ Hsmall Hwat _ _]] Hup Hsnd Hu Heq. apply Hu. clear Hu. pose proof (npending_range qs) as Hr.
  unfold up_by in Hup. cbv beta in Hup. rewrite Heq in Hup, Hsnd. unfold todo in *. cbn [fst snd] in *. rewrite <-Hsnd. f_equal.
  rewrite Hwat in *. destruct Hup as [Hup|Hup]; [done|]. exfalso. unfold signed, wrap in Hup. revert Hup.
  rewrite Z.mod_small by (change (2 ^ 32) with (2 * 2 ^ 31); lia). destruct (_ <? _); change (2 ^ 32) with (2 * 2 ^ 31); lia.
Qed.

(** The worker that will broadcast goes on to do so, whoever moves. *)
Lemma others_broadcast b ts ts' i j q q' p :
  signalled b (<[i := q']> ts) ts' -> ts !! i = Some q -> i <> j -> ts !! j = Some p -> will_broadcast p = true ->
  ts' !! j = Some p.
Proof.
  intros Hsig Hi Hij Hj Hp. apply (moved_at b ts ts' i j q q' p Hsig Hi (broadcasting_settled p Hp)). by rewrite decide_False.
Qed.

Lemma noticed_at (st : lst) ts sub sta j p : ts !! j = Some p -> will_broadcast p = true -> noticed (Conf st ts sub sta).
Proof. intros Hj Hp. right. by exists j, p. Qed.

Lemma thread_noticed st ts sub sta i p p' b st' ts' :
  noticed (Conf st ts sub sta) -> ts !! i = Some p -> p <> PcFlush ->
  thread_code p st = Ret (p', b) st' -> signalled b (<[i := p']> ts) ts' ->
  noticed (Conf st' ts' sub (sta ++ taken p p')).
Proof.
  intros Hn Hi Hp Hrun Hsig.
  assert (will_broadcast p' = true -> noticed (Conf st' ts' sub (sta ++ taken p p'))) as Hown.
  { intros Hb. eapply noticed_at; [|exact Hb]. apply (moved_at b ts ts' i i p p' p' Hsig Hi (broadcasting_settled p' Hb)). by rewrite decide_True. }
  destruct Hn as [Hu|(j & q & Hj & Hq)]; cbn [c_st c_ts] in *.
  - destruct (respects_or_lock p) as [Hsame|[->|[ke ->]]].
    + left. eapply unfinished_same; [|exact Hu]. eapply respects_run; [exact Hsame|exact Hrun].
    + destruct (schedule_takes st p' b st' Hrun) as [Hsame|(t & q & Hq & Hpend & ->)]; [left; by eapply unfinished_same|].
      destruct q as [|t' q]; [by apply Hown|]. left. unfold unfinished. cbn [c_st]. by rewrite Hpend.
    + cbn [thread_code] in Hrun. unfold mbind, M_bind in Hrun. destruct (out_event ke st) as [p1 st1|e st1| |] eqn:Hout; [|done..].
      injection Hrun as <- _ <-. destruct (out_event_tells ke st p1 st1 Hout) as [Hsame|[Hq [Hw| ->]]].
      * left. by eapply unfinished_same.
      * left. unfold unfinished. cbn [c_st]. destruct (todo st1) as [n q]. by intros [= -> _].
      * by apply Hown.
  - destruct (decide (i = j)) as [->|Hij].
    + rewrite Hi in Hj. injection Hj as <-. destruct p as [| |t []| | | | | | | | | | |]; try done. injection Hrun as <- _ _. by apply Hown.
    + eapply noticed_at; [|exact Hq]. by eapply others_broadcast.
Qed.

Lemma noticed_kept st ts sub sta st' ts' sub' sta' :
  (unfinished st -> unfinished st') -> (forall j p, ts !! j = Some p -> will_broadcast p = true -> ts' !! j = Some p) ->
  noticed (Conf st ts sub sta) -> noticed (Conf st' ts' sub' sta').
Proof. intros Hu Hts [H|(j & p & Hj & Hp)]; [left; by apply Hu|]. eapply noticed_at; [by apply Hts|exact Hp]. Qed.

Lemma same_kept {A} (m : M lst A) st st' :
  respects (same_by todo) m -> (exists a, m st = Ret a st') \/ (exists e, m st = Throw e st') -> unfinished st -> unfinished st'.
Proof.
  intros Hm Hrun. apply unfinished_same. destruct Hrun as [[a Hrun]|[e Hrun]]; [by eapply respects_run|by eapply respects_thrown].
Qed.

(** Every step keeps what was noticed, unless it is the broadcast itself. *)
Lemma step_noticed c c' :
  inv c -> step c c' -> noticed c ->
  (forall i, c_ts c !! i = Some PcFlush -> c_ts c' !! i = Some PcFlush) -> noticed c'.
Proof.
  intros Hinv Hs Hn Hfl.
  destruct Hs as [st ts sub sta i p p' b st' ts' Ha Hi Hh Hrun Hsig|st ts sub sta i h e a e' b st' ts' Ha Hi Hrm Hrun Hsig
    |st ts sub sta i h e cont Ha Hi|st ts sub sta f st' ts' Ha Hrun Hsig|st ts sub sta fd h st' Ha Hf Hr Hrun
    |st ts sub sta fd st' Ha Hr Hrun|st ts sub sta st' Ha Hrun|st ts sub sta st' Ha Hrun|st ts sub sta st' ex Ha Hrun
    |st ts sub sta op st' Ha Hw Hct Hrun]; cbn [c_st c_ts] in *.
  - eapply thread_noticed; [exact Hn|exact Hi| |exact Hrun|exact Hsig]. intros ->. injection Hrun as <- <- _. simpl in Hsig. subst ts'.
    specialize (Hfl i Hi). rewrite list_lookup_insert_eq in Hfl by (by eapply lookup_lt_Some). done.
  - eapply noticed_kept; [|intros j q Hj Hq|exact Hn].
    + eapply same_kept; [|left; by eexists]. destruct a; cbn [run_action]; unfold more, next_event, remove_event,
        event_more, event_next, event_remove; repeat todo_step.
    + apply (others_broadcast b ts ts' i j _ _ q Hsig Hi); [|done|done]. intros ->. rewrite Hi in Hj. by injection Hj as <-.
  - eapply noticed_kept; [done|intros j q Hj Hq|exact Hn]. rewrite list_lookup_insert_ne; [done|].
    intros ->. rewrite Hi in Hj. by injection Hj as <-.
  - left. cbn [c_st]. destruct st as [l w]. injection Hrun as <-. unfold unfinished, todo. simpl. intros [= _ Hnil].
    by destruct (m_task_queue l).
  - eapply noticed_kept; [|done|exact Hn]. eapply (same_kept (add_handler_impl fd h)); [unfold add_handler_impl; repeat todo_step|].
    destruct Hrun as [Hrun|[ex Hrun]]; [left|right]; by eexists.
  - eapply noticed_kept; [|done|exact Hn]. eapply (same_kept (remove_handler fd)); [unfold remove_handler; repeat todo_step|].
    left. by eexists.
  - eapply noticed_kept; [|intros j q Hj Hq|exact Hn].
    + eapply (same_kept end_loop); [unfold end_loop; repeat todo_step|left; by eexists].
    + by apply broadcast_at; [apply broadcasting_settled|].
  - eapply noticed_kept; [|intros j q Hj Hq|exact Hn].
    + eapply (same_kept (add_thread 1)); [cbn [add_thread]; repeat todo_step|left; by eexists].
    + by apply lookup_app_l_Some.
  - eapply noticed_kept; [|done|exact Hn].
    eapply (same_kept (add_thread 1)); [cbn [add_thread]; repeat todo_step|right; by eexists].
  - eapply noticed_kept; [|done|exact Hn]. destruct st as [l w]. destruct (co_out _ _ _ _ (iv_core _ Hinv)) as [acc Hg].
    assert (up_by (fun st => fst (todo st)) (l, w) st' /\ snd (todo st') = snd (todo (l, w))) as [Hup Hsnd].
    { destruct Hrun as [Hrun|[ex Hrun]]; [exact (respects_run _ _ _ _ _ (output_up op Hw) Hrun)
        |exact (respects_thrown _ _ _ _ _ (output_up op Hw) Hrun)]. }
    by eapply unfinished_up.
Qed.
End Workers.

(** ** Threads in flush *)

Inductive fpc : Type :=
| FlLock                    (* about to acquire the mutex *)
| FlWait                    (* in m_flush_cond.wait *)
| FlDone.                   (* flush returned *)

#[export] Instance fpc_eq_dec : EqDecision fpc.
Proof. solve_decision. Defined.

Section Flushers.
Context {OS : Os} {Spec : OsSpec OS} {K : Kernel OS} {L : KernelLaws K}.

Abbreviation lst := (loop * world)%type.

(** A turn of [flush()] under the mutex; [None] where it runs the loop itself,
    there being no workers. *)
Definition flush_turn : M lst (option fpc) :=
  l ← get_loop;
  if (m_watching (m_out l) =? 0) && bool_decide (m_task_queue l = []) then mret (Some FlDone)
  else
    running ← is_running;
    mret (if running : bool then Some FlWait else None).

Definition wake_all (fs : list fpc) : list fpc := (fun f => if decide (f = FlWait) then FlLock else f) <$> fs.

Abbreviation fconf := (conf * list fpc)%type.

(** Worker [i] broadcasts [m_flush_cond]. *)
Definition broadcasts (i : nat) (ts ts' : list pc) : Prop := ts !! i = Some PcFlush /\ ts' !! i = Some PcLock.

Inductive fstep : fconf -> fconf -> Prop :=
| fs_call c fs : fstep (c, fs) (c, fs ++ [FlLock])
| fs_turn c fs j f st' :
    alive (c_ts c) -> fs !! j = Some FlLock -> flush_turn (c_st c) = Ret (Some f) st' -> fstep (c, fs) (c, <[j := f]> fs)
| fs_spurious c fs j : fs !! j = Some FlWait -> fstep (c, fs) (c, <[j := FlLock]> fs)
| fs_broadcast c c' fs i : step c c' -> broadcasts i (c_ts c) (c_ts c') -> fstep (c, fs) (c', wake_all fs)
| fs_loop c c' fs : step c c' -> (forall i, ~ broadcasts i (c_ts c) (c_ts c')) -> fstep (c, fs) (c', fs).

Inductive freach : fconf -> Prop :=
| fr_start c : reach c -> freach (c, [])
| fr_step x x' : freach x -> fstep x x' -> freach x'.

Lemma freach_reach x : freach x -> reach (fst x).
Proof. induction 1 as [c Hc|x x' _ IH Hs]; [done|]. destruct Hs; cbn [fst] in *; try done; by eapply reach_step. Qed.

#[export] Instance broadcasts_dec i ts ts' : Decision (broadcasts i ts ts').
Proof.
  unfold broadcasts. destruct (ts !! i) as [p|]; [|by right; intros [? _]]. destruct (ts' !! i) as [p'|]; [|by right; intros [_ ?]].
  destruct p; try (by right; intros [? _]). destruct p'; first [by left | by right; intros [_ ?]].
Defined.

(** The worker that broadcasts in a step, if one does. *)
Definition broadcaster (ts ts' : list pc) : list nat := filter (fun i => broadcasts i ts ts') (seq 0 (length ts)).

Lemma broadcaster_spec ts ts' :
  match broadcaster ts ts' with i :: _ => broadcasts i ts ts' | [] => forall i, ~ broadcasts i ts ts' end.
Proof.
  destruct (broadcaster ts ts') as [|i is_] eqn:Hb.
  - intros i Hi. assert (i ∈ broadcaster ts ts') as Hin; [|by rewrite Hb in Hin; apply not_elem_of_nil in Hin].
    apply list_elem_of_filter. split; [done|]. apply elem_of_seq. destruct Hi as [Hi%lookup_lt_Some _]. lia.
  - assert (i ∈ broadcaster ts ts') as [? _]%list_elem_of_filter by (rewrite Hb; by left). done.
Qed.

(** The threads in flush after a step of the loop. *)
Definition told (ts ts' : list pc) (fs : list fpc) : list fpc :=
  match broadcaster ts ts' with _ :: _ => wake_all fs | [] => fs end.

(** They let the loop do any of its steps. *)
Lemma fstep_any c c' fs : step c c' -> fstep (c, fs) (c', told (c_ts c) (c_ts c') fs).
Proof.
  intros Hs. unfold told. pose proof (broadcaster_spec (c_ts c) (c_ts c')) as Hb.
  destruct (broadcaster _ _); [by apply fs_loop|by eapply fs_broadcast].
Qed.

Lemma fstep_alive x x' : fstep x x' -> alive (c_ts (fst x')) -> alive (c_ts (fst x)).
Proof. destruct 1; cbn [fst]; try done; intros _; by eapply step_alive. Qed.

(** A worker that is about to broadcast stays so, or does it. *)
Lemma flush_stays c c' i :
  step c c' -> (forall i, ~ broadcasts i (c_ts c) (c_ts c')) -> c_ts c !! i = Some PcFlush -> c_ts c' !! i = Some PcFlush.
Proof.
  intros Hs Hno Hi. specialize (Hno i).
  destruct Hs as [st ts sub sta j p p' b st' ts' Ha Hj Hh Hrun Hsig|st ts sub sta j h e a e' b st' ts' Ha Hj Hrm Hrun Hsig
    |st ts sub sta j h e cont Ha Hj|st ts sub sta f st' ts' Ha Hrun Hsig|st ts sub sta fd h st' Ha Hf Hr Hrun
    |st ts sub sta fd st' Ha Hr Hrun|st ts sub sta st' Ha Hrun|st ts sub sta st' Ha Hrun|st ts sub sta st' ex Ha Hrun
    |st ts sub sta op st' Ha Hw Hct Hrun]; cbn [c_ts] in *; try done.
  - destruct (decide (j = i)) as [->|Hne].
    + rewrite Hi in Hj. injection Hj as <-. injection Hrun as <- <- _. simpl in Hsig. subst ts'. destruct Hno. split; [done|].
      apply list_lookup_insert_eq. by eapply lookup_lt_Some.
    + by eapply others_broadcast.
  - eapply others_broadcast; [exact Hsig|exact Hj| |exact Hi|done]. intros ->. by rewrite Hi in Hj.
  - rewrite list_lookup_insert_ne; [done|]. intros ->. by rewrite Hi in Hj.
  - by apply (signal_at ts ts' i PcFlush Hsig).
  - by apply broadcast_at.
  - by apply lookup_app_l_Some.
Qed.

Lemma wake_all_none fs : FlWait ∉ wake_all fs.
Proof. unfold wake_all. intros (f & Hf & _)%list_elem_of_fmap. by destruct (decide (f = FlWait)). Qed.

Lemma flush_turn_waits (st : lst) st' : flush_turn st = Ret (Some FlWait) st' -> unfinished st.
Proof.
  unfold flush_turn, is_running, get_loop, mbind, M_bind, get, mret, M_ret, unfinished, todo. cbn [fst snd].
  destruct (Z.eqb_spec (m_watching (m_out (fst st))) 0) as [_|Hw]; cbn [andb]; [|intros _ [= ?]; done].
  case_bool_decide; [done|]. intros _ [= _ ?]. done.
Qed.

(** Whoever waits does so for something, and will be told. *)
Lemma waiting_noticed x : freach x -> alive (c_ts (fst x)) -> FlWait ∈ snd x -> noticed (fst x).
Proof.
  induction 1 as [c Hc|x x' Hr IH Hs]; intros Ha Hin; cbn [fst snd] in *; [by apply not_elem_of_nil in Hin|].
  pose proof (fstep_alive _ _ Hs Ha) as Ha0. specialize (IH Ha0). pose proof (freach_reach _ Hr) as Hrc.
  destruct Hs as [c fs|c fs j f st' Hal Hj Hrun|c fs j Hj|c c' fs i Hs Hb|c c' fs Hs Hno]; cbn [fst snd] in *.
  - apply elem_of_app in Hin as [Hin|Hin]; [by apply IH|]. by apply list_elem_of_singleton in Hin.
  - apply list_elem_of_lookup in Hin as [k Hk]. apply list_lookup_insert_Some in Hk as [(_ & -> & _)|[_ Hk]].
    + left. by eapply flush_turn_waits.
    + apply IH. by eapply list_elem_of_lookup_2.
  - apply list_elem_of_lookup in Hin as [k Hk]. apply list_lookup_insert_Some in Hk as [(_ & ? & _)|[_ Hk]]; [done|].
    apply IH. by eapply list_elem_of_lookup_2.
  - by apply wake_all_none in Hin.
  - eapply step_noticed; [by apply conf_inv|exact Hs|by apply IH|]. intros i. by apply flush_stays.
Qed.

(** What wakes a waiting flush: a queued task or transfer, or a worker that will. *)
Lemma noticed_spelled c :
  noticed c ->
  m_watching (m_out (fst (c_st c))) <> 0 \/ m_task_queue (fst (c_st c)) <> [] \/
  exists i, c_ts c !! i = Some PcFlush \/ exists t, c_ts c !! i = Some (PcTask t true).
Proof.
  intros [Hu|(i & p & Hp & Hw)].
  - unfold unfinished, todo in Hu. destruct (decide (m_watching (m_out (fst (c_st c))) = 0)) as [Hz|]; [|by left].
    right. left. intros Hq. by rewrite Hz, Hq in Hu.
  - right. right. exists i. destruct p as [| |t []| | | | | | | | | | |]; try done; [right; by exists t|by left].
Qed.

(** With two workers or more one of them is at work, or the kernel watches a
    descriptor with output. *)
Lemma noticed_awake c :
  inv c -> noticed c -> m_end_flag (fst (c_st c)) = false -> 2 <= zlen (c_ts c) ->
  all_accepted (w_trace (snd (c_st c))) ->
  (exists i p, c_ts c !! i = Some p /\ active p = true) \/
  armed (m_kernel (m_out (fst (c_st c)))) (w_trace (snd (c_st c))) <> ∅.
Proof.
  intros Hinv Hn He H2 Hacc. destruct (inv_awake c Hinv He H2) as [Hwork _].
  destruct Hn as [Hu|(i & p & Hp & Hw)].
  2:{ left. exists i, p. split; [done|]. by destruct p. }
  destruct (decide (m_task_queue (fst (c_st c)) = [])) as [Hq|Hq]; [|left; apply Hwork; by intros (? & _)].
  destruct (co_out _ _ _ _ (iv_core _ Hinv)) as [acc [qs [_ _ Hwat _ Htok]]]. cbn [fst snd] in *.
  assert (exists fd, OutProps.pending qs fd) as [fd Hfd].
  { unfold unfinished, todo in Hu. rewrite Hq in Hu. assert (npending qs <> 0) as Hne by (rewrite <-Hwat; congruence).
    unfold npending in Hne. destruct (filter (fun rs => rs <> []) qs) as [|rs rss] eqn:Hf; [done|].
    assert (rs ∈ filter (fun rs => rs <> []) qs) as [Hrs [j Hj]%list_elem_of_lookup]%list_elem_of_filter by (rewrite Hf; by left).
    exists (Z.of_nat j). split; [lia|]. exists rs. by rewrite Nat2Z.id. }
  destruct (tk_live _ _ _ _ _ Htok Hacc fd Hfd) as [Hx|[Hin|Harm]]; [by apply not_elem_of_nil in Hx| |].
  - left. rewrite fmap_app in Hin. apply elem_of_app in Hin as [Hin|Hin].
    + apply Hwork. intros (_ & _ & Hnil). rewrite Hnil in Hin. by apply not_elem_of_nil in Hin.
    + apply list_elem_of_fmap in Hin as (ke & _ & Hke). unfold hands in Hke. apply list_elem_of_omap in Hke as (p & Hp & Hh).
      apply list_elem_of_lookup in Hp as [i Hi]. exists i, p. split; [done|]. by destruct p.
  - right. set_solver.
Qed.

(** C6. [flush()] while workers run: no wakeup is lost.  A thread that waits in it has
    something to wait for, a queued task, queued output, or a worker that will
    broadcast after it took the last of them (no worker having died); and before [end], with two workers or
    more, while the kernel accepts registrations, a worker is at work or the
    descriptor is being watched. *)
Theorem flush_wakes (c : conf) (fs : list fpc) (Hr : freach (c, fs)) (Ha : alive (c_ts c)) (Hw : FlWait ∈ fs) :
  (m_watching (m_out (fst (c_st c))) <> 0 \/ m_task_queue (fst (c_st c)) <> [] \/
   exists i, c_ts c !! i = Some PcFlush \/ exists t, c_ts c !! i = Some (PcTask t true)) /\
  (m_end_flag (fst (c_st c)) = false -> 2 <= zlen (c_ts c) -> all_accepted (w_trace (snd (c_st c))) ->
   (exists i p, c_ts c !! i = Some p /\ active p = true) \/
   armed (m_kernel (m_out (fst (c_st c)))) (w_trace (snd (c_st c))) <> ∅).
Proof.
  pose proof (waiting_noticed _ Hr Ha Hw) as Hn. split; [by apply noticed_spelled|].
  intros He H2 Hacc. apply noticed_awake; [apply conf_inv; [exact (freach_reach _ Hr)|done]|done..].
Qed.
End Flushers.

(** ** Concrete runs *)

Section Run.
#[local] Instance flush_os : Os := ready_os [].

Inductive fmove : Type := FvLoop (m : move) | FvEnd | FvCall | FvTurn (j : nat).

Abbreviation fconf := (@conf flush_os (epoll_kernel flush_os) * list fpc)%type.

Definition run_fmove (m : fmove) (x : fconf) : option fconf :=
  let '(c, fs) := x in
  match m with
  | FvLoop m => c' ← run_move m c; Some (c', told (c_ts c) (c_ts c') fs)
  | FvEnd =>
      match end_loop (c_st c) with
      | Ret tt st' => let ts' := broadcast (c_ts c) in Some (Conf st' ts' (c_submitted c) (c_started c), told (c_ts c) ts' fs)
      | _ => None
      end
  | FvCall => Some (c, fs ++ [FlLock])
  | FvTurn j =>
      match fs !! j, flush_turn (c_st c) with
      | Some FlLock, Ret (Some f) _ => Some (c, <[j := f]> fs)
      | _, _ => None
      end
  end.

Fixpoint run_fmoves (ms : list fmove) (x : fconf) : option fconf :=
  match ms with
  | [] => Some x
  | m :: ms => if is_alive (c_ts (fst x)) then run_fmove m x ≫= run_fmoves ms else None
  end.

Lemma run_fmove_step m x x' : alive (c_ts (fst x)) -> run_fmove m x = Some x' -> fstep x x'.
Proof.
  destruct x as [c fs]. cbn [fst]. intros Ha. destruct m as [m| | |j]; cbn [run_fmove].
  - destruct (run_move m c) as [c'|] eqn:Hm; [|done]. intros [= <-]. apply fstep_any. by eapply run_move_step.
  - destruct (end_loop (c_st c)) as [[] st'|? ?| |] eqn:Hm; [|done..]. intros [= <-]. apply (fstep_any c (Conf _ _ _ _)).
    destruct c as [st ts sub sta]. by apply step_end.
  - intros [= <-]. constructor.
  - destruct (fs !! j) as [[]|] eqn:Hj; try done. destruct (flush_turn (c_st c)) as [[f|] st'|? ?| |] eqn:Hrun; try done.
    intros [= <-]. by eapply fs_turn.
Qed.

Lemma run_fmoves_reach ms x x' : freach x -> run_fmoves ms x = Some x' -> freach x'.
Proof.
  revert x. induction ms as [|m ms IH]; intros x Hr; cbn [run_fmoves]; [by intros [= <-]|].
  destruct (is_alive (c_ts (fst x))) eqn:Ha; [|done]. destruct (run_fmove m x) as [x1|] eqn:Hm; [|done]. cbn [mbind option_bind].
  apply IH. eapply fr_step; [exact Hr|]. by eapply run_fmove_step; [apply is_alive_spec|].
Qed.

Definition f_after (ms : list fmove) : fconf := default (w_loop, []) (run_fmoves ms (w_loop, [])).

Lemma f_reach ms : match run_fmoves ms (w_loop, []) with Some _ => true | None => false end = true -> freach (f_after ms).
Proof.
  destruct (run_fmoves ms (w_loop, [])) as [x|] eqn:Hx; [intros _|done]. unfold f_after. rewrite Hx.
  eapply run_fmoves_reach; [|exact Hx]. apply fr_start. constructor. apply w_initial.
Qed.

(** Two workers; one thread flushes while the second runs the only task. *)
Definition f_task : list fmove :=
  [FvLoop MWorker; FvLoop MWorker; FvLoop (MSubmit 7); FvCall; FvTurn 0; FvLoop (MThread 0); FvLoop (MThread 1)].

Definition f_seen (x : fconf) : list fpc * list Z * Z * list bool :=
  (snd x, m_task_queue (fst (c_st (fst x))), m_watching (m_out (fst (c_st (fst x)))), will_broadcast <$> c_ts (fst x)).

Lemma flush_wakes_witness :
  f_seen (f_after f_task) = ([FlWait], [], 0, [false; true]) /\
  (m_watching (m_out (fst (c_st (fst (f_after f_task))))) <> 0 \/ m_task_queue (fst (c_st (fst (f_after f_task)))) <> [] \/
   exists i, c_ts (fst (f_after f_task)) !! i = Some PcFlush \/ exists t, c_ts (fst (f_after f_task)) !! i = Some (PcTask t true)).
Proof.
  split; [evaluated|].
  refine (proj1 (flush_wakes (fst (f_after f_task)) (snd (f_after f_task)) _ _ _)).
  - rewrite <-surjective_pairing. apply f_reach. evaluated.
  - apply is_alive_spec. evaluated.
  - apply (bool_decide_unpack _). vm_compute. exact I.
Defined.

(** It returns once the worker has broadcast. *)
Lemma flush_returns :
  snd (f_after (f_task ++ [FvLoop (MThread 1); FvLoop (MThread 1)])) = [FlLock] /\
  snd (f_after (f_task ++ [FvLoop (MThread 1); FvLoop (MThread 1); FvTurn 0])) = [FlDone].
Proof. split; evaluated. Qed.

(** A task that is running is not waited for, only tasks that are queued. *)
Lemma flush_ignores_running :
  f_seen (f_after [FvLoop MWorker; FvLoop MWorker; FvLoop (MSubmit 7); FvLoop (MThread 0); FvLoop (MThread 1); FvCall; FvTurn 0]) =
    ([FlDone], [], 0, [false; true]).
Proof. evaluated. Qed.

(** After [end] the workers leave with the task still queued, and nobody is left to
    wake the thread that flushes. *)
Lemma flush_sleeps_after_end :
  let x := f_after [FvLoop MWorker; FvLoop (MSubmit 7); FvCall; FvTurn 0; FvEnd; FvLoop (MThread 0)] in
  f_seen x = ([FlWait], [7], 0, [false]) /\ m_end_flag (fst (c_st (fst x))) = true /\
  forallb (fun p => match p with PcExit => true | _ => false end) (c_ts (fst x)) = true.
Proof. split; [evaluated|]. split; evaluated. Qed.
End Run.
