(* ===== verification/LoopFlush.v ===== *)
(** * A loop without worker threads: run_once and flush

    The client's own thread calls [run_once], [run_nonblock] or [flush].  The
    theorems are about a loop whose tasks do not submit tasks: a task is a call of
    the client's function. *)

From Stdlib Require Import ZArith Lia.
From stdpp Require Import base tactics option list numbers.
From S2P Require Import Prelude Os Pthread Xfer XferQueue Kernel KernelEpoll Out Loop.

Section Flush.
Context {OS : Os} {K : Kernel OS}.

Abbreviation lst := (@loop OS K * world)%type.

(** The task with number [t]. *)
Definition client_task (t : Z) : M lst unit := in_world (_ ← call_client t []; mret tt).

Variable call_handler : Z -> M (lst * event_impl) bool.

(** The tasks of the list were called, once each and in order. *)
Definition called (ts : list Z) (tr : trace) : Prop :=
  Forall2 (fun t ev => exists a, ev = Sys (Callback t []) a) ts tr.

(** Taking a task and calling it, whether or not it throws. *)
Lemma do_task_calls (l : loop) (w : world) t q :
  lk_owns l = true -> m_task_queue l = t :: q ->
  wp (do_task client_task)
    (fun _ st => exists a, fst st = set_lk (bool_decide (q = [])) (set_tasks q l) /\
       w_trace (snd st) = w_trace w ++ [Sys (Callback t []) a]) no_exn (l, w).
Proof.
  intros Hlk Hq. unfold do_task, guarded, owns, pop_task, unlock, lock. repeat loop_step. rewrite Hlk.
  repeat loop_step. rewrite Hq. repeat loop_step.
  unfold client_task, call_client. repeat loop_step. apply wp_syscall. intros a _.
  destruct a as [n out|e]; repeat loop_step; destruct q as [|t' q]; repeat loop_step; by eexists.
Qed.

(** What flush needs: [end()] was not called, no event to resume, no output pending. *)
Definition flushable (l : loop) : Prop :=
  m_end_flag l = false /\ m_more_queue l = [] /\ m_watching (m_out l) = 0 /\ m_queue (m_out l) = [].

Lemma run_once_task (l : loop) (w : world) t q :
  flushable l -> lk_owns l = true -> m_task_queue l = t :: q ->
  wp (run_once client_task call_handler true)
    (fun _ st => exists a, fst st = set_lk (bool_decide (q = [])) (set_tasks q l) /\
       w_trace (snd st) = w_trace w ++ [Sys (Callback t []) a]) no_exn (l, w).
Proof.
  intros (He & Hm & _ & Ho) Hlk Hq. unfold run_once. repeat loop_step. rewrite He, Hm.
  destruct (m_pollable l); cbn [negb].
  - rewrite Hq. cbn [bool_decide negb]. by apply do_task_calls.
  - unfold do_queue, guarded, owns. repeat loop_step. rewrite Hlk. repeat loop_step. rewrite Ho, Hq. by apply do_task_calls.
Qed.

Lemma flush_loop_tasks q (l : loop) (w : world) fuel :
  flushable l -> lk_owns l = true -> m_task_queue l = q -> (length q < fuel)%nat ->
  wp (flush_loop client_task call_handler fuel)
    (fun _ st => fst st = set_tasks [] l /\ exists tr, w_trace (snd st) = w_trace w ++ tr /\ called q tr) no_exn (l, w).
Proof.
  revert l w fuel. induction q as [|t q IH]; intros l w [|fuel] Hf Hlk Hq Hlt; simpl in Hlt; try lia; cbn [flush_loop].
  - repeat loop_step. destruct Hf as (_ & _ & Hw & _). rewrite Hw, Hq. cbn. repeat loop_step. split.
    + destruct l. unfold set_tasks. simpl in *. by subst.
    + exists []. rewrite app_nil_r. split; [done|constructor].
  - repeat loop_step. destruct (Hf) as (_ & _ & Hw & _). rewrite Hw, Hq, bool_decide_false by done. cbn [Z.eqb andb].
    repeat loop_step. eapply wp_mono; [..|by apply (run_once_task l w t q)]; [|done].
    intros [] [l' w'] (a & Hl & Htr). simpl in Hl, Htr. subst l'. unfold owns, lock. repeat loop_step.
    assert (wp (flush_loop client_task call_handler fuel)
      (fun _ st => fst st = set_tasks [] l /\ exists tr, w_trace (snd st) = w_trace w ++ tr /\ called (t :: q) tr) no_exn
      (set_tasks q l, w')) as Hrest.
    { eapply wp_mono; [..|apply (IH (set_tasks q l) w' fuel)]; [|done|exact Hf|exact Hlk|done|lia].
      intros [] st (Hl & tr & Htr' & Hc). split; [exact Hl|]. eexists. rewrite Htr', Htr, <-app_assoc.
      split; [reflexivity|]. constructor; [by eexists|done]. }
    assert (set_lk true (set_tasks q l) = set_tasks q l) as Hsame by (destruct l; unfold set_lk, set_tasks; simpl in *; by subst).
    case_bool_decide; cbn [negb]; repeat loop_step; [by rewrite Hsame|].
    change (set_lk true (set_lk false ?x)) with (set_lk true x). by rewrite Hsame.
Qed.

(** C38. [flush()] without workers, before [end()], with no continued event queued and no
    output watched or polled, runs the queued tasks, which do not touch the loop, once
    each and in the order of their submission, whatever they throw, and returns with the
    queue empty and the mutex released.  (After [end()] it would spin for ever:
    [flush_after_end_hangs].) *)
Theorem flush_runs_tasks (l : loop) (w : world) (fuel : nat) :
  flushable l -> lk_owns l = false -> (length (m_task_queue l) < fuel)%nat ->
  wp (flush client_task call_handler fuel)
    (fun _ st => fst st = set_tasks [] l /\ exists tr, w_trace (snd st) = w_trace w ++ tr /\ called (m_task_queue l) tr)
    no_exn (l, w).
Proof.
  intros Hf Hlk Hlt. unfold flush, lock, unlock. repeat loop_step.
  eapply wp_mono; [..|apply (flush_loop_tasks (m_task_queue l) (set_lk true l) w fuel); done]; [|done].
  intros [] [l' w'] (Hl & tr & Htr & Hc). simpl in *. subst l'. repeat loop_step. split; [|by exists tr].
  destruct l. unfold set_lk, set_tasks. simpl in *. by subst.
Qed.

(** After [end()] a [flush()] of a loop that has work left spins for ever, with the
    mutex locked: [run_once] returns at once. *)
Theorem flush_after_end_hangs (l : loop) (w : world) (fuel : nat) :
  m_end_flag l = true -> m_task_queue l <> [] \/ m_watching (m_out l) <> 0 ->
  flush client_task call_handler fuel (l, w) = Diverge.
Proof.
  intros He Hwork.
  assert (flush_loop client_task call_handler fuel (set_lk true l, w) = Diverge) as Hloop.
  { induction fuel as [|fuel IH]; [done|]. cbn [flush_loop]. unfold get_loop, mbind, M_bind at 1, get, mret, M_ret. simpl.
    destruct (Z.eqb_spec (m_watching (m_out l)) 0) as [Hw|Hw], (bool_decide_reflect (m_task_queue l = [])) as [Hq|Hq];
      cbn [andb]; [destruct Hwork; congruence|..];
      unfold run_once, get_loop, owns, mbind, M_bind, get, mret, M_ret; simpl; rewrite He; exact IH. }
  unfold flush, lock, upd_loop, mbind, M_bind, modify. simpl. unfold catch.
  change (set_lk true (l, w).1, (l, w).2) with (set_lk true l, w). by rewrite Hloop.
Qed.

(** Nothing to do but poll. *)
Definition idle (l : loop) : Prop :=
  m_end_flag l = false /\ m_more_queue l = [] /\ m_task_queue l = [] /\ m_queue (m_out l) = [] /\
  m_pollable l = true /\ m_num l = m_off l /\ lk_owns l = false.

(** When the kernel's wait fails, other than for an interruption, [run_once] throws
    and leaves the loop not pollable: later calls return, or sleep, without asking
    the kernel for events. *)
Theorem poll_failure_sticks (l : loop) (w w1 : world) (block : bool) (e : errno) :
  idle l -> wait (m_lkernel l) (if block then 1000 else 0) w = Ret (inl e) w1 -> would_retry e = false ->
  run_once_locked client_task call_handler block (l, w) = Throw (SystemError (errno_code e)) (set_pollable false l, w1) /\
  forall block' w2, run_once_locked client_task call_handler block' (set_pollable false l, w2) = Ret tt (set_pollable false l, w2).
Proof.
  intros (He & Hm & Ht & Ho & Hp & Hn & Hlk) Hwait Hr.
  assert (set_lk false (set_pollable false l) = set_pollable false l) as Hl1
    by (destruct l; unfold set_lk, set_pollable; simpl in *; by subst).
  split.
  - assert (wp (run_once_locked client_task call_handler block) (fun _ _ => False)
      (fun e' st => e' = SystemError (errno_code e) /\ st = (set_pollable false l, w1)) (l, w)) as H.
    { unfold run_once_locked, run_once, lock, unlock. repeat loop_step. rewrite He, Hm, Hp, Ht, Ho. cbn [negb].
      rewrite !bool_decide_true by done. cbn [negb]. rewrite Hn, Z.eqb_refl. repeat loop_step. unfold wp at 1. rewrite Hwait, Hr.
      repeat loop_step. split; [done|]. f_equal. exact Hl1. }
    unfold wp in H. destruct (run_once_locked _ _ _ _) as [| e' st| |]; try done. by destruct H as [-> ->].
  - intros block' w2.
    assert (wp (run_once_locked client_task call_handler block') (fun _ st => st = (set_pollable false l, w2))
      no_exn (set_pollable false l, w2)) as H.
    { unfold run_once_locked, run_once, do_queue, guarded, owns, lock, unlock. repeat loop_step. rewrite He, Hm. cbn [negb].
      repeat loop_step. rewrite Ho, Ht, !bool_decide_true by done. cbn [negb]. repeat loop_step. f_equal. exact Hl1. }
    unfold wp, no_exn in H. destruct (run_once_locked _ _ _ _) as [[] st| | |]; try done. by subst.
Qed.
End Flush.

(** ** On a concrete environment: a client whose second task throws *)
Definition flush_os : Os := {|
  sys := fun tr r =>
    match r with
    | Callback 2 _ => SysErr EBUSY
    | EpollWait _ _ _ => SysErr (EOTHER 9)
    | _ => SysOk 0 []
    end;
  memcpy_may_overlap := true
|}.

Definition flush_loop_of (ts : list Z) (ended : bool) : @loop flush_os (epoll_kernel flush_os) :=
  set_end ended (set_tasks ts (empty_loop (OS := flush_os) (K := epoll_kernel _) 3 4)).

Definition no_handler (h : Z) : M (@loop flush_os (epoll_kernel flush_os) * world * @event_impl flush_os (epoll_kernel flush_os)) bool := mret false.

Lemma flush_runs_tasks_witness :
  match flush (OS := flush_os) client_task no_handler 4 (flush_loop_of [1; 2; 3] false, World [] []) with
  | Ret _ (l, w) => Some (m_task_queue l, w_trace w)
  | _ => None
  end = Some ([], [Sys (Callback 1 []) (SysOk 0 []); Sys (Callback 2 []) (SysErr EBUSY); Sys (Callback 3 []) (SysOk 0 [])]) /\
  wp (flush client_task no_handler 4)
    (fun _ st => fst st = set_tasks [] (flush_loop_of [1; 2; 3] false) /\
       exists tr, w_trace (snd st) = [] ++ tr /\ called [1; 2; 3] tr)
    no_exn (flush_loop_of [1; 2; 3] false, World [] []).
Proof.
  split; [by vm_compute|]. apply (flush_runs_tasks no_handler (flush_loop_of [1; 2; 3] false) (World [] []) 4); [done|done|simpl; lia].
Defined.

Lemma flush_after_end_hangs_witness :
  forall fuel, flush client_task no_handler fuel (flush_loop_of [1] true, World [] []) = Diverge.
Proof. intros fuel. apply flush_after_end_hangs; [done|by left]. Defined.

Lemma poll_failure_sticks_witness :
  let l := flush_loop_of [] false in
  let w1 := World [Sys (EpollWait 3 MP_WAVY_KERNEL_BACKLOG_SIZE 1000) (SysErr (EOTHER 9))] [] in
  run_once_locked client_task no_handler true (l, World [] []) = Throw (SystemError 9) (set_pollable false l, w1) /\
  forall block' w2, run_once_locked client_task no_handler block' (set_pollable false l, w2) = Ret tt (set_pollable false l, w2).
Proof. by apply (poll_failure_sticks no_handler (flush_loop_of [] false) (World [] []) _ true (EOTHER 9)). Defined.
