(* ===== verification/FlushOutput.v ===== *)
(** * Flushing output that is pending

    [loop::flush()] without workers runs [run_once] until nothing is watched for
    writing any more.  That it comes back is a property of the loop and of the
    operating system together: transfers may be told to come back (EAGAIN, EINTR)
    and waits may be interrupted or report nothing, but, as the peers go on reading,
    only finitely often.  [Responsive] bounds how often that is still to happen;
    the theorems then bound the number of turns by that and by what is owed, and
    show that everything was sent. *)

From Stdlib Require Import ZArith Lia.
From stdpp Require Import base tactics functions option list numbers gmap sets list_tactics.
From S2P Require Import Prelude Os Xfer XferQueue XferDecode Kernel KernelEpoll Out OutProps OutFrame Loop LoopThreads LoopCore LoopLife LoopFlush.

(** ** The operating system *)

(** The descriptors in the interest list of [ep], reported or not. *)
Definition known_step (ep : Z) (s : gset Z) (ev : event) : gset Z :=
  match ev with
  | Sys (EpollAdd ep' fd _ _) (SysOk _ _) | Sys (EpollMod ep' fd _ _) (SysOk _ _) =>
      if bool_decide (ep' = ep) then {[fd]} ∪ s else s
  | Sys (EpollDel ep' fd) (SysOk _ _) => if bool_decide (ep' = ep) then s ∖ {[fd]} else s
  | _ => s
  end.

Definition known (ep : Z) (tr : trace) : gset Z := fold_left (known_step ep) tr ∅.

(** Answers that achieve nothing: a transfer is told to come back, a wait is
    interrupted or reports nothing. *)
Definition fruitless (r : request) (a : sysret) : bool :=
  match r, a with
  | Writev _ _, SysErr e | Sendfile _ _ _ _, SysErr e | EpollWait _ _ _, SysErr e => would_retry e
  | EpollWait _ _ _, SysOk n out => bool_decide (take (Z.to_nat n) out = [])
  | _, _ => false
  end.

(** A wait is expected to report something when something is armed. *)
Definition expected (tr : trace) (r : request) : Prop :=
  match r with EpollWait ep maxevents _ => 0 < maxevents /\ epoll_armed ep tr <> ∅ | _ => True end.

(** [patience tr] is how many fruitless answers are still to come; a wait on an
    epoll descriptor fails by interruption only, and a descriptor in the list can
    be modified. *)
Class Responsive (OS : Os) := {
  patience : trace -> nat;
  rs_answer tr r : (patience (tr ++ [Sys r (sys tr r)]) <= patience tr)%nat;
  rs_finalize tr fin user : (patience (tr ++ [Finalize fin user]) <= patience tr)%nat;
  rs_fruitless tr r : expected tr r -> fruitless r (sys tr r) = true ->
    (patience (tr ++ [Sys r (sys tr r)]) < patience tr)%nat;
  rs_wait tr ep maxevents timeout e : expected tr (EpollWait ep maxevents timeout) ->
    sys tr (EpollWait ep maxevents timeout) = SysErr e -> would_retry e = true;
  rs_mod tr ep fd events data : fd ∈ known ep tr -> is_err (sys tr (EpollMod ep fd events data)) = false
}.

Lemma known_snoc ep tr ev : known ep (tr ++ [ev]) = known_step ep (known ep tr) ev.
Proof. unfold known. by rewrite fold_left_app. Qed.

Lemma known_step_mono ep s1 s2 ev : s1 ⊆ s2 -> known_step ep s1 ev ⊆ known_step ep s2 ev.
Proof. destruct ev as [[] []|]; simpl; try done; case_bool_decide; set_solver. Qed.

(** What may be reported is in the list. *)
Lemma armed_known ep tr : epoll_armed ep tr ⊆ known ep tr.
Proof.
  induction tr as [|ev tr IH] using rev_ind; [set_solver|]. rewrite known_snoc.
  etrans; [|by apply known_step_mono]. unfold epoll_armed. rewrite regs_of_snoc.
  destruct ev as [[] []|]; simpl; try done; case_bool_decide; try done.
  - by rewrite dom_insert_L.
  - by rewrite dom_insert_L.
  - by rewrite dom_delete_L.
  - intros fd [p [Hp _]%map_lookup_filter_Some]%elem_of_dom. apply elem_of_dom. by exists p.
Qed.

Lemma known_unregistered ep tr tr' :
  Forall (fun ev => epoll_registers ev = false) tr' -> known ep (tr ++ tr') = known ep tr.
Proof.
  intros H. revert tr. induction H as [|ev tr' Hev _ IH]; intros tr; [by rewrite app_nil_r|].
  rewrite cons_middle, app_assoc, IH, known_snoc. by destruct ev as [[] []|].
Qed.

(** ** What is owed *)

(** The bytes and finalizers that are queued, and one more for a queue that is not empty. *)
Definition weight (rs : list record) : Z := zlen (tokens rs) + (if bool_decide (rs = []) then 0 else 1).

Definition owed (ctx : xfer) : Z := match decode (x_buf ctx) with Some rs => weight rs | None => 0 end.

Definition owed_all (ctxs : list xfer) : Z := foldr (fun ctx n => owed ctx + n) 0 ctxs.

Lemma weight_nonneg rs : 0 <= weight rs.
Proof. unfold weight. case_bool_decide; lia. Qed.

Lemma owed_nonneg ctx : 0 <= owed ctx.
Proof. unfold owed. destruct (decode (x_buf ctx)); [apply weight_nonneg|done]. Qed.

Lemma owed_all_nonneg ctxs : 0 <= owed_all ctxs.
Proof. induction ctxs as [|ctx ctxs IH]; simpl; [done|]. pose proof (owed_nonneg ctx). lia. Qed.

Lemma owed_all_insert ctxs i ctx ctx' :
  ctxs !! i = Some ctx -> owed_all (<[i := ctx']> ctxs) = owed_all ctxs - owed ctx + owed ctx'.
Proof.
  revert i. induction ctxs as [|c ctxs IH]; intros [|i] Hi; simpl in *; try done; [injection Hi as ->; lia|].
  rewrite (IH i Hi). lia.
Qed.

Section Output.
Context {OS : Os} {Spec : OsSpec OS} {ESpec : EpollSpec OS} {RS : Responsive OS}.

Abbreviation ost := (@out OS (epoll_kernel OS) * world)%type.

Lemma owed_rep ctx rs : x_rep ctx rs -> owed ctx = weight rs.
Proof. intros H. unfold owed. by rewrite (x_rep_decodes _ _ H). Qed.

(** What is left of the patience. *)
Definition left_of (w : world) : Z := Z.of_nat (patience (w_trace w)).

(** No call uses up less than nothing. *)
Definition calmer (w w' : world) : Prop := left_of w' <= left_of w.

#[export] Instance calmer_preorder : PreOrder calmer.
Proof. unfold calmer. split; [by intros w|]. intros w1 w2 w3. lia. Qed.

Lemma respects_answer r : respects calmer (syscall r).
Proof. intros w. cbn. unfold calmer, left_of. cbn [w_trace]. pose proof (rs_answer (w_trace w) r). lia. Qed.

#[export] Instance calmer_frame : StreamFrame calmer.
Proof.
  split; [apply _|intros r _; apply respects_answer|..].
  - intros fin user w. cbn. unfold calmer, left_of. cbn [w_trace]. pose proof (rs_finalize (w_trace w) fin user). lia.
  - intros n w. unfold can_alloc. destruct w as [tr [|b s]]; apply Z.le_refl.
Qed.

Lemma wp_answer r (w : world) (Q : sysret -> world -> Prop) E :
  (forall a w', a = sys (w_trace w) r -> w' = World (w_trace w ++ [Sys r a]) (w_alloc w) -> left_of w' <= left_of w ->
     (expected (w_trace w) r -> fruitless r a = true -> left_of w' < left_of w) -> Q a w') ->
  wp (syscall r) Q E w.
Proof.
  intros H. apply wp_syscall. intros a Ha. apply H; [done|done|..]; unfold left_of; cbn [w_trace]; subst a.
  - pose proof (rs_answer (w_trace w) r). lia.
  - intros He Hf. pose proof (rs_fruitless (w_trace w) r He Hf). lia.
Qed.

(** A walk that is told to come back sent something, or patience. *)
Lemma exec_items_progress fd rs w rs' w' :
  Forall record_ok rs -> exec_items fd rs w = Ret (true, rs') w' ->
  zlen (tokens rs') + left_of w' < zlen (tokens rs) + left_of w.
Proof.
  intros Hok. revert w. induction Hok as [|r rs Hr Hok IH]; intros w; cbn [exec_items]; [done|].
  assert (forall w1, left_of w1 <= left_of w -> exec_items fd rs w1 = Ret (true, rs') w' ->
    zlen (tokens rs') + left_of w' < zlen (tokens (r :: rs)) + left_of w) as Hrest.
  { intros w1 Hw1 Hrun%IH. cbn [tokens flat_map]. rewrite length_app. fold (tokens rs). lia. }
  pose proof (fun r => respects_answer r w) as Hle. cbn in Hle. unfold calmer in Hle.
  destruct r as [vec|infd off len|fin user].
  - rewrite syscall_bind. cbv zeta. specialize (Hle (Writev fd vec)). pose proof (rs_fruitless (w_trace w) (Writev fd vec) I) as Hf.
    destruct (sys (w_trace w) (Writev fd vec)) as [n out|e] eqn:Hsys; cbn [fruitless] in Hf.
    + pose proof (writev_bound _ _ _ _ _ Hsys) as Hn. fold (iov_total vec) in Hn. destruct Hr as (_ & Hv & _).
      destruct (Z.leb_spec n 0); [done|]. pose proof (iov_rest_tokens vec n Hv Hn) as Hx.
      destruct (iov_rest vec n) as [vec'|]; [|by apply Hrest]. destruct Hx as (Ht & _).
      intros [= <- <-]. cbn [tokens flat_map record_tokens]. rewrite <-Ht, !length_app, length_take.
      pose proof (length_iov_tokens vec Hv). lia.
    + destruct (would_retry e); [|done]. intros [= <- <-]. specialize (Hf eq_refl).
      unfold left_of in *. cbn [w_trace] in *. lia.
  - rewrite syscall_bind. cbv zeta. specialize (Hle (Sendfile fd infd off len)).
    pose proof (rs_fruitless (w_trace w) (Sendfile fd infd off len) I) as Hf.
    destruct (sys (w_trace w) (Sendfile fd infd off len)) as [n out|e] eqn:Hsys; cbn [fruitless] in Hf.
    + destruct (Z.leb_spec n 0); [done|]. destruct (Z.ltb_spec n len); [|by apply Hrest].
      intros [= <- <-]. cbn [tokens flat_map record_tokens]. rewrite !length_app, !length_fmap, !length_seqZ. lia.
    + destruct (would_retry e); [|done]. intros [= <- <-]. specialize (Hf eq_refl).
      unfold left_of in *. cbn [w_trace] in *. lia.
  - rewrite finalize_bind. apply Hrest. pose proof (rs_finalize (w_trace w) fin user).
    unfold left_of. destruct (fin =? 0); cbn [w_trace]; lia.
Qed.

(** [try_write] leaves less, of the output or of the patience, or is done with the
    descriptor; it registers nothing. *)
Lemma try_write_progress ctx rs fd w :
  x_rep ctx rs -> rs <> [] ->
  exists b ctx' rs' w', try_write ctx fd w = Ret (b, ctx') w' /\ x_rep ctx' rs' /\
    unregistering (L := epoll_laws) w w' /\ left_of w' <= left_of w /\
    (b = true -> owed ctx' + left_of w' < owed ctx + left_of w).
Proof.
  intros Hx Hne. destruct (try_write_run ctx rs fd w Hx) as (b & ctx' & rs' & w1 & w' & Hrun & Hx' & _ & _ & _ & _).
  exists b, ctx', rs', w'. split; [done|]. split; [done|]. split; [|split].
  { pose proof (respects_try_write unregistering ctx fd w) as H. by rewrite Hrun in H. }
  { pose proof (respects_try_write calmer ctx fd w) as H. by rewrite Hrun in H. }
  intros ->. rewrite (owed_rep _ _ Hx), (owed_rep _ _ Hx').
  unfold try_write in Hrun. rewrite (xr_buf _ _ Hx) in Hrun. unfold mbind, M_bind in Hrun.
  rewrite execute_encoded in Hrun by apply Hx.
  destruct (exec_items_walks fd rs w (xr_ok _ _ Hx)) as (b4 & rs4 & w4 & Hex & tr4 & _ & _ & _ & _ & Hok4 & _ & Hb4).
  rewrite Hex in Hrun. cbn [encoded] in Hrun. cbv zeta in Hrun.
  assert (b4 = true /\ encode_all rs4 = x_buf ctx' /\ w' = w4) as (Hb & Hbuf & Hw).
  { destruct b4; cbn [negb andb] in Hrun; [by injection Hrun as <- <-|].
    destruct (negb _); [destruct (syscall _ _); try done|]; by injection Hrun. }
  subst b4 w'. rewrite (xr_buf _ _ Hx') in Hbuf. apply encode_all_inj in Hbuf as ->; [|done|apply Hx'].
  apply exec_items_progress in Hex; [|apply Hx]. unfold weight. destruct Hb4 as [Hne4 _].
  rewrite !bool_decide_false by done. lia.
Qed.

Abbreviation registered_fd o w e := (ev_ident e ∈ known (m_kernel o) (w_trace w)).

Lemma accepted_unregistering w w' :
  unregistering (L := epoll_laws) w w' -> all_accepted (L := epoll_laws) (w_trace w) -> all_accepted (L := epoll_laws) (w_trace w').
Proof.
  intros (tr & -> & Hr) Ha. apply Forall_app. split; [done|]. eapply Forall_impl; [exact Hr|]. intros ev Hev.
  destruct (refused ev) eqn:Href; [|done]. apply refused_registers in Href. congruence.
Qed.

Lemma known_unregistering ep w w' :
  unregistering (L := epoll_laws) w w' -> known ep (w_trace w') = known ep (w_trace w).
Proof. intros (tr & -> & Hr). by apply known_unregistered. Qed.

(** Resuming the transfers of a descriptor: less is owed or less patience left, the
    kernel accepted what it was asked, and it forgot at most that descriptor. *)
Lemma write_event_progress o w hands acc i e :
  good (L := epoll_laws) (o, w) hands acc -> hands !! i = Some e -> all_accepted (L := epoll_laws) (w_trace w) ->
  registered_fd o w e ->
  wp (write_event e) (fun _ st' => owed_all (m_fdctx (fst st')) + left_of (snd st') < owed_all (m_fdctx o) + left_of w /\
      all_accepted (L := epoll_laws) (w_trace (snd st')) /\
      forall fd, fd <> ev_ident e -> fd ∈ known (m_kernel o) (w_trace w) -> fd ∈ known (m_kernel o) (w_trace (snd st')))
    (fun _ _ => True) (o, w).
Proof.
  intros [qs [Hrep _ _ _ Htok]] Hi Ha Hk. cbn [fst snd] in *.
  destruct (tokens_drop _ _ _ _ _ _ Htok Hi) as (_ & _ & _ & (H0 & rs & Hq & Hne) & _).
  destruct (Forall2_lookup_r _ _ _ _ _ Hrep Hq) as (ctx & Hctx & Hx). cbn [event_ident epoll_kernel] in *.
  assert (in_range o (ev_ident e)) as Hr by (split; [done|]; apply lookup_lt_Some in Hctx; lia).
  unfold write_event. cbn [event_ident epoll_kernel]. wp_step. eapply wp_ctx_at; [done..|]. cbn [fst snd].
  intros ctx0 rs0 Hc0 _ _ _ _. assert (ctx0 = ctx) as -> by congruence.
  destruct (try_write_progress ctx rs (ev_ident e) w Hx Hne) as (b & ctx' & rs' & w' & Hrun & Hx' & Hun & Hle & Hlt).
  wp_step. wp_step. apply wp_on_world. unfold wp at 1. cbn [fst snd]. rewrite Hrun. wp_step. apply wp_set_ctx. cbn [fst snd].
  wp_step. apply wp_get_out. cbn [fst snd m_kernel upd_ctx].
  pose proof (accepted_unregistering _ _ Hun Ha) as Ha'.
  assert (forall ep, known ep (w_trace w') = known ep (w_trace w)) as Hkn by (intros ep; by apply known_unregistering).
  pose proof (owed_all_insert _ _ _ ctx' Hctx) as Hsum. destruct b; cbn [negb].
  - specialize (Hlt eq_refl). wp_step. apply wp_on_world. apply wp_answer. intros a w2 Hack -> Hc2 _. wp_step. cbn [fst snd upd_ctx m_fdctx w_trace w_alloc] in *.
    assert (is_err a = false) as Hok by (rewrite Hack; apply rs_mod; cbn [w_trace]; by rewrite Hkn).
    split; [lia|]. split.
    + apply Forall_app. split; [done|]. constructor; [|done]. done.
    + intros fd _ Hfd. rewrite known_snoc, Hkn. simpl. destruct a; [|done]. case_bool_decide; set_solver.
  - wp_step. apply wp_on_world. apply wp_answer. intros a w2 _ -> Hc2 _. wp_step. apply wp_on_world. cbn [fst snd] in *.
    pose proof (respects_clear calmer ctx') as Hcl. specialize (Hcl (World (w_trace w' ++ [Sys (EpollDel (m_kernel o) (ev_ident e)) a]) (w_alloc w'))).
    unfold wp at 1. rewrite (clear_run _ _ _ Hx') in Hcl |- *. unfold calmer in Hcl. wp_step. apply wp_set_ctx. cbn [fst snd]. wp_step.
    unfold add_watching. wp_step. apply wp_get_out. cbn [fst snd]. wp_step. apply wp_put_out. wp_step. wp_step.
    cbn [fst snd upd_ctx m_fdctx w_trace w_alloc]. rewrite list_insert_insert_eq. split; [|split].
    + rewrite (owed_all_insert _ _ _ _ Hctx). rewrite (owed_rep _ _ Hx). unfold owed. cbn [x_buf].
      change (decode []) with (Some (@nil record)). unfold weight. rewrite bool_decide_false, bool_decide_true by done.
      cbn [tokens flat_map length]. cbn [w_trace w_alloc] in Hcl. lia.
    + apply Forall_app; split; [apply Forall_app; split; [done|by constructor]|]. apply Forall_forall. intros ev Hev.
      apply list_elem_of_In, in_flat_map in Hev as (t & _ & Ht). destruct t; simpl in Ht; [done|done|].
      by destruct Ht as [<-|[]].
    + intros fd Hne' Hfd. rewrite known_unregistered.
      * rewrite known_snoc, Hkn. simpl. destruct a; [|done]. case_bool_decide; set_solver.
      * apply Forall_forall. intros ev Hev. apply list_elem_of_In, in_flat_map in Hev as (t & _ & Ht).
        destruct t; simpl in Ht; [done|done|]. by destruct Ht as [<-|[]].
Qed.

(** What a wait leaves. *)
Definition waited (w w' : world) : Prop :=
  left_of w' <= left_of w /\ exists ev, w_trace w' = w_trace w ++ [ev] /\ epoll_refused ev = false /\
    forall ep', known ep' (w_trace w') = known ep' (w_trace w).

(** Waiting on something that is registered reports it, or takes patience. *)
Lemma wait_progress ep t w :
  epoll_wf ep (w_trace w) -> epoll_armed ep (w_trace w) <> ∅ ->
  wp (epoll_wait ep t) (fun r w' => waited w w' /\
      match r with
      | inl e => would_retry e = true /\ left_of w' < left_of w
      | inr [] => left_of w' < left_of w
      | inr es => forall e', e' ∈ es -> ev_ident e' ∈ epoll_armed ep (w_trace w)
      end) no_exn w.
Proof.
  intros Hwf Harm. unfold epoll_wait. wp_step. apply wp_answer. intros a w' Ha -> Hle Hlt.
  assert (expected (w_trace w) (EpollWait ep MP_WAVY_KERNEL_BACKLOG_SIZE t)) as Hexp by done. specialize (Hlt Hexp).
  assert (waited w (World (w_trace w ++ [Sys (EpollWait ep MP_WAVY_KERNEL_BACKLOG_SIZE t) a]) (w_alloc w))) as Hw.
  { split; [done|]. eexists. split; [reflexivity|]. split; [done|]. intros ep'. cbn [w_trace]. by rewrite known_snoc. }
  destruct a as [n out|e]; wp_step; (split; [exact Hw|]).
  - destruct (epoll_wait_reports _ _ _ _ _ _ (eq_sym Ha)) as [_ Hrep]. destruct (reported _ _ _ Hwf Hrep) as (_ & _ & Hsub & _).
    destruct (take (Z.to_nat n) out) as [|e es] eqn:He; [apply Hlt; cbn [fruitless]; by rewrite He|].
    intros e' He'. apply Hsub, elem_of_list_to_set. apply list_elem_of_fmap. by exists e'.
  - pose proof (rs_wait _ _ _ _ _ Hexp (eq_sym Ha)) as Hr. split; [done|]. by apply Hlt.
Qed.
End Output.

(** ** One turn of flush *)

Section Turn.
Context {OS : Os} {Spec : OsSpec OS} {ESpec : EpollSpec OS} {RS : Responsive OS}.

Abbreviation elt := (@loop OS (epoll_kernel OS)).
Abbreviation lst := (elt * world)%type.

(** A loop with nothing to do but output: only [out] is registered. *)
Record flushing (acc : Z -> list token) (l : elt) (w : world) : Prop := {
  fl_end : m_end_flag l = false;
  fl_more : m_more_queue l = [];
  fl_tasks : m_task_queue l = [];
  fl_pollable : m_pollable l = true;
  fl_pos : m_num l = m_off l;
  fl_kernels : m_lkernel l <> m_kernel (m_out l);
  fl_good : good (L := epoll_laws) (m_out l, w) [] acc;
  fl_accepted : all_accepted (L := epoll_laws) (w_trace w);
  fl_queue e : e ∈ m_queue (m_out l) -> ev_ident e ∈ known (m_kernel (m_out l)) (w_trace w);
  fl_wf : epoll_wf (m_lkernel l) (w_trace w);
  fl_armed : epoll_armed (m_lkernel l) (w_trace w) = {[out_ident l]}
}.

(** Two turns for each byte that is owed, one that polls and one that writes, and for
    each answer that achieves nothing. *)
Definition turns (l : elt) (w : world) : Z :=
  2 * (owed_all (m_fdctx (m_out l)) + left_of w) + (if bool_decide (m_queue (m_out l) = []) then 1 else 0).

(** One turn closer to the end. *)
Definition closer (st st' : lst) : Prop :=
  turns (fst st') (snd st') < turns (fst st) (snd st) /\
  length (m_fdctx (m_out (fst st'))) = length (m_fdctx (m_out (fst st))) /\ m_workers (fst st') = m_workers (fst st).

Lemma flushing_lk acc l w b : flushing acc l w -> flushing acc (set_lk b l) w.
Proof. by intros []. Qed.

Lemma next_run (o : @out OS (epoll_kernel OS)) w e q :
  m_queue o = e :: q -> next (o, w) = Ret e (MkOut (m_kernel o) (m_fdctx o) q (m_watching o), w).
Proof. intros Hq. unfold next, get_out, put_out, mbind, M_bind, get, modify, mret, M_ret. simpl. by rewrite Hq. Qed.

(** A polled event is written. *)
Lemma do_out_turn acc l w e q (Q : unit -> lst -> Prop) :
  flushing acc l w -> lk_owns l = true -> m_queue (m_out l) = e :: q ->
  (forall l' w', flushing acc l' w' -> closer (l, w) (l', w') -> Q tt (l', w')) ->
  wp do_out Q no_exn (l, w).
Proof.
  intros Hf Hlk Hq HQ. unfold do_out, guarded, owns, unlock, lock. repeat loop_step. rewrite Hlk. repeat loop_step.
  pose proof (fl_good _ _ _ Hf) as Hg.
  pose proof (next_ok (m_out l) w [] acc Hg ltac:(by rewrite Hq)) as Hn. unfold wp at 1 in Hn. unfold wp at 1.
  rewrite (next_run _ _ _ _ Hq) in Hn |- *. destruct Hn as (Hg1 & _ & _). cbn [app] in Hg1. repeat loop_step.
  set (o1 := MkOut (m_kernel (m_out l)) (m_fdctx (m_out l)) q (m_watching (m_out l))) in *.
  assert (event_ok (KernelLaws := epoll_laws) EPOLLOUT e) as Hev.
  { destruct Hg as [qs Hg]. pose proof (tk_events _ _ _ _ _ (oi_tokens _ _ _ _ _ Hg)) as He. cbn [fst] in He.
    rewrite Hq in He. by apply Forall_inv in He. }
  assert (NoDup (ev_ident <$> e :: q)) as Hnd.
  { destruct Hg as [qs Hg]. pose proof (tk_nodup _ _ _ _ _ (oi_tokens _ _ _ _ _ Hg)) as Hn. cbn [fst] in Hn.
    by rewrite app_nil_r, Hq in Hn. }
  assert (ev_ident e ∈ known (m_kernel o1) (w_trace w)) as Hk
    by (apply (fl_queue _ _ _ Hf); rewrite Hq; by left).
  pose proof (fl_kernels _ _ _ Hf) as Hne.
  eapply wp_mono; [..|exact (own_out (set_out o1 l) w (write_event e) _ _
    (resp_write_event (m_lkernel l) (m_kernel o1) q Hne EPOLLOUT e Hev)
    (wp_and _ _ _ _ _ _ (write_event_ok o1 w [e] acc 0 e Hg1 eq_refl)
      (write_event_progress o1 w [e] acc 0 e Hg1 eq_refl (fl_accepted _ _ _ Hf) Hk)))]; [|by intros ex st' [[[] _] _]].
  intros b [o2 w2] [[(Hg2 & [Hk2 Hlen2] & _) (Hlt & Ha2 & Hkn2)] [[_ Hq2] Hs2]]. cbn [fst snd delete list_delete] in *.
  destruct (Hs2 EPOLLIN (fl_wf _ _ _ Hf)) as [Hwf2 Harm2].
  assert (forall b', Q tt (set_lk b' (set_out o2 l), w2)) as Hdone.
  { intros b'. apply HQ.
    - destruct Hf as [? ? ? ? ? ? _ _ Hqk _ Harm]. split; simpl; try done.
      + by rewrite Hk2.
      + rewrite Hq2, Hk2. intros e' He'. apply Hkn2; [|apply Hqk; rewrite Hq; by right].
        intros Heq. rewrite fmap_cons in Hnd. apply NoDup_cons_1_1 in Hnd. apply Hnd. rewrite <-Heq. by apply list_elem_of_fmap_2.
      + unfold out_ident. simpl. rewrite Hk2. exact (eq_trans Harm2 Harm).
    - change (m_fdctx o1) with (m_fdctx (m_out l)) in Hlt, Hlen2. split; [|split; [exact Hlen2|reflexivity]]. unfold turns. cbn [fst snd set_lk set_out m_out]. rewrite Hq. rewrite (bool_decide_false (e :: q = [])) by done.
      case_bool_decide; lia. }
  destruct b; repeat loop_step; [exact (Hdone true)|exact (Hdone false)].
Qed.

(** Output that is pending is registered, unless it was polled already. *)
Lemma flushing_armed acc l w :
  flushing acc l w -> m_watching (m_out l) <> 0 -> m_queue (m_out l) = [] ->
  epoll_armed (m_kernel (m_out l)) (w_trace w) <> ∅.
Proof.
  intros Hf Hw Hq Hemp. destruct (fl_good _ _ _ Hf) as [qs [_ _ Hwat _ Htok]]. cbn [fst snd] in *.
  assert (exists i rs, qs !! i = Some rs /\ rs <> []) as (i & rs & Hi & Hne).
  { rewrite Hwat in Hw. unfold npending in Hw. clear -Hw. induction qs as [|rs qs IH]; [done|].
    destruct (decide (rs = [])) as [->|Hne]; [|by exists 0%nat, rs].
    rewrite filter_cons_False in Hw by naive_solver. destruct (IH Hw) as (i & rs & Hi & Hne). by exists (S i), rs. }
  assert (pending qs (Z.of_nat i)) as Hp by (split; [lia|]; rewrite Nat2Z.id; by exists rs).
  destruct (tk_live _ _ _ _ _ Htok (fl_accepted _ _ _ Hf) _ Hp) as [Hx|[Hx|Hx]].
  - by apply not_elem_of_nil in Hx.
  - rewrite Hq in Hx. by apply not_elem_of_nil in Hx.
  - cbn [armed epoll_laws] in Hx. rewrite Hemp in Hx. set_solver.
Qed.

(** [out] polls: it gets an event, or less patience is left. *)
Lemma poll_event_progress o w acc :
  good (L := epoll_laws) (o, w) [] acc -> all_accepted (L := epoll_laws) (w_trace w) ->
  epoll_armed (m_kernel o) (w_trace w) <> ∅ -> m_queue o = [] ->
  wp poll_event (fun _ st' => good (L := epoll_laws) st' [] acc /\ m_kernel (fst st') = m_kernel o /\
      m_fdctx (fst st') = m_fdctx o /\ waited w (snd st') /\
      (m_queue (fst st') = [] -> left_of (snd st') < left_of w) /\
      (forall e, e ∈ m_queue (fst st') -> ev_ident e ∈ known (m_kernel o) (w_trace (snd st')))) no_exn (o, w).
Proof.
  intros Hg Ha Harm Hq. pose proof (poll_event_ok o w [] acc Hg) as Hok.
  assert (epoll_wf (m_kernel o) (w_trace w)) as Hwf by (destruct Hg as [qs [_ _ _ _ Htok]]; apply (tk_wf _ _ _ _ _ Htok)).
  pose proof (wait_progress (m_kernel o) 0 w Hwf Harm) as Hw.
  unfold poll_event in *. unfold wp, get_out, mbind, M_bind, get, on_world, zoom, mret, M_ret in *. simpl in *.
  destruct (epoll_wait (m_kernel o) 0 w) as [r w1|ex w1| |]; try done.
  destruct Hw as [Hw Hr]. pose proof Hw as (_ & ev & _ & _ & Hkn). destruct r as [e|es].
  - destruct Hr as [Hr Hlt]. rewrite Hr in Hok |- *. destruct Hok as [Hok _]. split_and!; [done..|]. simpl. rewrite Hq. by intros e' ?%not_elem_of_nil.
  - destruct Hok as [Hok _]. simpl in *. split_and!; [done..| |]; rewrite Hq.
    + cbn [app]. by intros ->.
    + cbn [app]. intros e' He'. rewrite Hkn. apply armed_known. destruct es as [|e2 es]; [by apply not_elem_of_nil in He'|by apply Hr].
Qed.

(** A loop that waited. *)
Lemma flushing_waited acc l w w' :
  flushing acc l w -> waited w w' -> quiet w w' ->
  (forall k', epoll_wf k' (w_trace w) -> epoll_wf k' (w_trace w') /\ epoll_armed k' (w_trace w') = epoll_armed k' (w_trace w)) ->
  flushing acc l w'.
Proof.
  intros Hf (_ & ev & Htr & Href & Hkn) Hquiet Hk. destruct Hf as [? ? ? ? ? Hne Hg Ha Hqk Hwf Harm].
  destruct (Hk (m_lkernel l) Hwf) as [Hwf' Harm']. split; try done.
  - eapply (good_own (m_lkernel l)); [exact Hne|exact Hg|exact Hquiet|]. intros k' m Hwfk _. by apply Hk.
  - rewrite Htr. apply Forall_app. split; [exact Ha|by constructor].
  - intros e He. rewrite Hkn. by apply Hqk.
  - exact (eq_trans Harm' Harm).
Qed.

(** The loop polls: it finds the event of [out], or nothing and less patience is left. *)
Lemma wait_own acc l w t :
  flushing acc l w ->
  wp (epoll_wait (m_lkernel l) t) (fun r w' => waited w w' /\
      match r with
      | inl e => would_retry e = true /\ left_of w' < left_of w /\ flushing acc l w'
      | inr [] => left_of w' < left_of w /\ flushing acc l w'
      | inr (e :: es) => es = [] /\ ev_ident e = out_ident l /\
          epoll_event_ok e /\ good (L := epoll_laws) (m_out l, w') [] acc /\
          epoll_wf (m_lkernel l) (w_trace w') /\ epoll_armed (m_lkernel l) (w_trace w') = ∅ /\
          epoll_armed (m_kernel (m_out l)) (w_trace w') = epoll_armed (m_kernel (m_out l)) (w_trace w)
      end) no_exn w.
Proof.
  intros Hf. pose proof (fl_armed _ _ _ Hf) as Harm. pose proof (fl_wf _ _ _ Hf) as Hwf.
  eapply wp_mono; [..|exact (wp_and _ _ _ _ _ _ (wait_progress (m_lkernel l) t w Hwf ltac:(rewrite Harm; set_solver))
    (wait_disarms (m_lkernel l) EPOLLIN t w Hwf))]; [|by intros ex st' [[] _]].
  intros r w' [[Hw Hr] (Hquiet & Hok & Hnd & _ & _ & Hk)]. cbv zeta in *. split; [done|].
  assert (match r with inl _ => [] | inr es => es end = [] -> flushing acc l w') as Hnone.
  { intros Hn. eapply flushing_waited; [done..|]. intros k' Hwfk. destruct (Hk k' EPOLLIN Hwfk) as [? Heq]. split; [done|].
    cbn [armed epoll_laws] in Heq. rewrite Heq. clear Heq. destruct r as [er|es]; [|rewrite Hn]; (destruct (same_kernel _ _); [|done]);
      cbn [fmap list_fmap list_to_set]; apply difference_empty_L. }
  destruct r as [er|[|e es]]; [destruct Hr; split_and!; [done..|by apply Hnone]|by split; [|apply Hnone]|]. clear Hnone.
  rename Hr into Hin.
  assert (forall e', e' ∈ e :: es -> ev_ident e' = out_ident l) as Hid.
  { intros e' He'%Hin. rewrite Harm in He'. by apply elem_of_singleton in He'. }
  assert (es = []) as ->.
  { destruct es as [|e2 es]; [done|]. rewrite !fmap_cons in Hnd. apply NoDup_cons_1_1 in Hnd. destruct Hnd.
    rewrite elem_of_cons. left. cbn [event_ident epoll_kernel]. rewrite !Hid by set_solver. done. }
  split; [done|]. split; [apply Hid; by left|]. split; [by apply Forall_inv in Hok|].
  destruct (Hk (m_lkernel l) EPOLLIN Hwf) as [Hwf' Ha']. unfold same_kernel in Ha'. rewrite bool_decide_true in Ha' by done.
  pose proof (fl_kernels _ _ _ Hf) as Hne.
  assert (good (L := epoll_laws) (m_out l, w') [] acc) as Hg'.
  { eapply (good_own (m_lkernel l)); [exact Hne|apply (fl_good _ _ _ Hf)|exact Hquiet|].
    intros k' m Hwfk Hs. destruct (Hk k' m Hwfk) as [? ->]; by rewrite Hs. }
  split_and!; try done.
  - cbn [armed epoll_laws] in Ha'. rewrite Ha', Harm. cbn [event_ident epoll_kernel]. rewrite fmap_cons, (Hid e) by (by left). set_solver.
  - assert (epoll_wf (m_kernel (m_out l)) (w_trace w)) as Hwfo
      by (destruct (fl_good _ _ _ Hf) as [qs [_ _ _ _ Htok]]; apply (tk_wf _ _ _ _ _ Htok)).
    destruct (Hk (m_kernel (m_out l)) EPOLLOUT Hwfo) as [_ Hao]. unfold same_kernel in Hao.
    rewrite bool_decide_false in Hao by (intros Heq; by apply Hne). exact Hao.
Qed.

(** Handing back an event of a registered descriptor. *)
Lemma reactivate_progress ep e w :
  ev_ident e ∈ known ep (w_trace w) ->
  wp (epoll_reactivate ep e) (fun r w' => is_err r = false /\ left_of w' <= left_of w /\
      (exists ev, w_trace w' = w_trace w ++ [ev] /\ epoll_refused ev = false) /\
      forall ep', known ep' (w_trace w) ⊆ known ep' (w_trace w')) no_exn w.
Proof.
  intros Hk. unfold epoll_reactivate. apply wp_answer. intros a w' Ha -> Hle _.
  assert (is_err a = false) as Hok by (rewrite Ha; by apply rs_mod). split; [done|]. split; [done|]. split; [by eexists|].
  intros ep'. cbn [w_trace]. rewrite known_snoc. simpl. destruct a; [|done]. case_bool_decide; set_solver.
Qed.

(** A loop whose wait was interrupted, or reported nothing: it may poll again. *)
Lemma flushing_nothing acc l w w1 :
  flushing acc l w1 -> left_of w1 < left_of w ->
  flushing acc (set_pollable true (set_lk false (set_pollable false l))) w1 /\
  closer (l, w) (set_pollable true (set_lk false (set_pollable false l)), w1).
Proof.
  intros Hf Hlt. split; [by destruct Hf|]. split; [|done]. unfold turns. cbn [fst snd set_pollable set_lk m_out]. lia.
Qed.

(** The loop's own event was reported: [out] polls. *)
Lemma once_out_turn acc l w w1 e call_handler (Q : unit -> lst -> Prop) :
  flushing acc l w -> m_queue (m_out l) = [] -> epoll_armed (m_kernel (m_out l)) (w_trace w) <> ∅ ->
  waited w w1 -> ev_ident e = out_ident l -> epoll_event_ok e -> good (L := epoll_laws) (m_out l, w1) [] acc ->
  epoll_wf (m_lkernel l) (w_trace w1) -> epoll_armed (m_lkernel l) (w_trace w1) = ∅ ->
  epoll_armed (m_kernel (m_out l)) (w_trace w1) = epoll_armed (m_kernel (m_out l)) (w_trace w) ->
  (forall l' w', flushing acc l' w' -> closer (l, w) (l', w') -> Q tt (l', w')) ->
  wp (once_handler call_handler e) Q no_exn (set_pos 1 1 (set_pollable true (set_pos 0 1 (set_lk true (set_backlog [e]
    (set_lk false (set_pollable false l)))))), w1).
Proof.
  intros Hf Hq Harmo (Hle1 & ev1 & Htr1 & Href1 & Hkn1) Hid Hev Hg1 Hwf1 Harm1 Harmo1 HQ. unfold once_handler, unlock. repeat loop_step.
  cbn [event_ident epoll_kernel]. change (out_ident (set_pos 1 1 _)) with (out_ident l). rewrite Hid, Z.eqb_refl.
  repeat loop_step. rewrite <-Harmo1 in Harmo. pose proof (fl_kernels _ _ _ Hf) as Hne.
  assert (all_accepted (L := epoll_laws) (w_trace w1)) as Ha1.
  { rewrite Htr1. apply Forall_app. split; [apply (fl_accepted _ _ _ Hf)|by constructor]. }
  eapply wp_mono; [..|exact (wp_and _ _ _ _ _ _ (poll_event_progress (m_out l) w1 acc Hg1 Ha1 Harmo Hq)
    (poll_event_spares (m_lkernel l) (m_kernel (m_out l)) ltac:(exact Hne) EPOLLOUT (m_out l) w1 eq_refl
      ltac:(destruct Hg1 as [qs [_ _ _ _ Htok]]; apply (tk_wf _ _ _ _ _ Htok))))]; [|by intros ex st' [[] _]].
  intros [] [o2 w2] [(Hg2 & Hk2 & Hc2 & (Hle2 & ev2 & Htr2 & Href2 & Hkn2) & Hq2 & Hin2) [_ Hs2]]. cbn [fst snd] in *.
  destruct (Hs2 EPOLLIN Hwf1) as [Hwf2 Harm2]. repeat loop_step.
  assert (out_ident l ∈ known (m_lkernel l) (w_trace w2)) as Hko.
  { rewrite Hkn2, Hkn1. apply armed_known. rewrite (fl_armed _ _ _ Hf). set_solver. }
  eapply wp_mono; [..|exact (wp_and _ _ _ _ _ _ (reactivate_arms (m_lkernel l) EPOLLIN e w2 Hev)
    (reactivate_progress (m_lkernel l) e w2 ltac:(by rewrite Hid)))]; [|by intros ex st' [[] _]].
  intros r w3 [(Hquiet & _ & Hk3) (Hok & Hle3 & (ev & Htr & Href) & Hkn3)]. repeat loop_step.
  destruct (Hk3 (m_lkernel l) EPOLLIN Hwf2 (fun _ => eq_refl)) as [Hwf3 Harm3].
  apply HQ; [|split; cbn [fst snd]; [|split; [by simpl; rewrite Hc2|reflexivity]]].
  2:{ unfold turns. simpl. rewrite Hc2, Hq, (bool_decide_true ([] = [])) by done. case_bool_decide as Hqe; [specialize (Hq2 Hqe)|]; lia. }
  destruct Hf as [? ? ? ? ? ? _ _ _ _ Harm]. split; simpl; try done.
  - by rewrite Hk2.
  - eapply (good_own (m_lkernel l)); [by rewrite Hk2|exact Hg2|exact Hquiet|].
    intros k' m Hwfk Hs. destruct (Hk3 k' m Hwfk) as [? ->]; [by rewrite Hs|]. split; [done|]. by apply arms_other.
  - rewrite Htr, Htr2. apply Forall_app. split; [apply Forall_app; split; [done|by constructor]|by constructor].
  - rewrite Hk2. intros e' He'. by apply Hkn3, Hin2.
  - cbn [armed epoll_laws] in Harm3, Harm2. unfold out_ident. simpl. rewrite Harm3, Harm2, Harm1, Hk2. unfold arms, same_kernel.
    rewrite bool_decide_true, Hok by done. cbn [negb andb]. cbn [event_ident epoll_kernel]. rewrite Hid. unfold out_ident. simpl. set_solver.
Qed.

(** A turn that polls. *)
Lemma poll_turn acc l w call_task call_handler (Q : unit -> lst -> Prop) :
  flushing acc l w -> m_watching (m_out l) <> 0 -> m_queue (m_out l) = [] ->
  (forall l' w', flushing acc l' w' -> closer (l, w) (l', w') -> Q tt (l', w')) ->
  wp (run_once call_task call_handler true) Q no_exn (l, w).
Proof.
  intros Hf Hw Hq HQ. pose proof (flushing_armed _ _ _ Hf Hw Hq) as Harmo.
  unfold run_once, unlock, lock. repeat loop_step. rewrite (fl_end _ _ _ Hf), (fl_more _ _ _ Hf), (fl_pollable _ _ _ Hf).
  rewrite (fl_tasks _ _ _ Hf), Hq, (fl_pos _ _ _ Hf), Z.eqb_refl. cbn [negb]. rewrite !bool_decide_true by done. cbn [negb].
  repeat loop_step. eapply wp_mono; [..|exact (wait_own acc l w 1000 Hf)]; [|done].
  intros [er|[|e es]] w1 [Hw1 Hr].
  - destruct Hr as (-> & Hlt & Hf1). repeat loop_step. destruct (flushing_nothing acc l w w1 Hf1 Hlt). by apply HQ.
  - destruct Hr as (Hlt & Hf1). repeat loop_step. destruct (flushing_nothing acc l w w1 Hf1 Hlt). by apply HQ.
  - destruct Hr as (-> & Hid & Hev & Hg1 & Hwf1 & Harm1 & Harmo1). repeat loop_step. unfold next_backlog. repeat loop_step.
    by apply (once_out_turn acc l w w1 e call_handler Q).
Qed.

(** ** flush *)

Lemma run_once_turn acc l w call_task call_handler (Q : unit -> lst -> Prop) :
  flushing acc l w -> lk_owns l = true -> m_watching (m_out l) <> 0 ->
  (forall l' w', flushing acc l' w' -> closer (l, w) (l', w') -> Q tt (l', w')) ->
  wp (run_once call_task call_handler true) Q no_exn (l, w).
Proof.
  intros Hf Hlk Hw HQ. destruct (m_queue (m_out l)) as [|e q] eqn:Hq; [by apply (poll_turn acc)|].
  unfold run_once. repeat loop_step. rewrite (fl_end _ _ _ Hf), (fl_more _ _ _ Hf), (fl_pollable _ _ _ Hf), (fl_tasks _ _ _ Hf), Hq.
  rewrite bool_decide_true, bool_decide_false by done. cbn [negb]. by eapply do_out_turn.
Qed.

Lemma flush_loop_drains acc fuel l w call_task call_handler :
  flushing acc l w -> lk_owns l = true -> turns l w < Z.of_nat fuel ->
  wp (flush_loop call_task call_handler fuel)
    (fun _ st' => flushing acc (fst st') (snd st') /\ m_watching (m_out (fst st')) = 0 /\
       length (m_fdctx (m_out (fst st'))) = length (m_fdctx (m_out l)) /\ m_workers (fst st') = m_workers l) no_exn (l, w).
Proof.
  revert l w. induction fuel as [|fuel IH]; intros l w Hf Hlk Hlt.
  { pose proof (owed_all_nonneg (m_fdctx (m_out l))). unfold turns, left_of in Hlt. destruct (bool_decide _) in Hlt; lia. }
  cbn [flush_loop]. repeat loop_step. rewrite (fl_tasks _ _ _ Hf). rewrite (bool_decide_true ([] = [])) by done.
  rewrite andb_true_r. destruct (Z.eqb_spec (m_watching (m_out l)) 0) as [Hw|Hw]; [by loop_step|].
  loop_step. eapply run_once_turn; [exact Hf|exact Hlk|exact Hw|]. intros l' w' Hf' (Hlt' & Hlen & Hwk). cbn [fst snd] in *. unfold owns, lock. repeat loop_step.
  rewrite <-Hlen, <-Hwk. destruct (lk_owns l') eqn:Hlk'; cbn [negb]; repeat loop_step; [apply IH; [done|done|lia]|].
  apply (IH (set_lk true l') w'); [by apply flushing_lk|done|]. change (turns (set_lk true l') w') with (turns l' w'). lia.
Qed.

(** Everything that was asked for was sent. *)
Definition drained (acc : Z -> list token) (st : lst) : Prop :=
  m_watching (m_out (fst st)) = 0 /\ Forall (fun ctx => x_buf ctx = []) (m_fdctx (m_out (fst st))) /\
  forall fd, in_range (m_out (fst st)) fd -> healthy fd (w_trace (snd st)) -> sent fd (w_trace (snd st)) = acc fd.

Lemma flushing_drained acc l w : flushing acc l w -> m_watching (m_out l) = 0 -> drained acc (l, w).
Proof.
  intros Hf Hw. destruct (fl_good _ _ _ Hf) as [qs [Hrep _ Hwat Hstr _]]. cbn [fst snd] in *.
  assert (Forall (fun rs => rs = []) qs) as Hall.
  { rewrite Hw in Hwat. unfold npending in Hwat. clear -Hwat. induction qs as [|rs qs IH]; [done|].
    rewrite filter_cons in Hwat. case_decide as Hne; [simpl in Hwat; lia|]. constructor; [|by apply IH].
    exact Hne. }
  split; [done|]. split; cbn [fst snd].
  - apply list.Forall_forall. intros ctx [i Hi]%list_elem_of_lookup_1. destruct (Forall2_lookup_l _ _ _ _ _ Hrep Hi) as (rs & Hrs & Hx).
    rewrite (xr_buf _ _ Hx). by rewrite (Forall_lookup_1 _ _ _ _ Hall Hrs).
  - intros fd [H0 Hlt] Hh. destruct (lookup_lt_is_Some_2 (m_fdctx (m_out l)) (Z.to_nat fd)) as [ctx Hctx]; [lia|].
    destruct (Forall2_lookup_l _ _ _ _ _ Hrep Hctx) as (rs & Hrs & _).
    pose proof (Hstr fd rs H0 Hrs Hh) as Hs. rewrite (Forall_lookup_1 _ _ _ _ Hall Hrs) in Hs. simpl in Hs. by rewrite app_nil_r in Hs.
Qed.

Lemma flush_drains_output acc l w fuel call_task call_handler :
  flushing acc l w -> turns l w < Z.of_nat fuel ->
  wp (flush call_task call_handler fuel) (fun _ st' => drained acc st' /\ lk_owns (fst st') = false /\
    flushing acc (fst st') (snd st') /\ length (m_fdctx (m_out (fst st'))) = length (m_fdctx (m_out l)) /\
    m_workers (fst st') = m_workers l) no_exn (l, w).
Proof.
  intros Hf Hlt. unfold flush, lock, unlock. repeat loop_step.
  eapply wp_mono; [..|apply (flush_loop_drains acc fuel (set_lk true l) w); [by apply flushing_lk|done|exact Hlt]]; [|done].
  intros [] [l' w'] (Hf' & Hw & Hlen & Hwk). loop_step. split; [|split; [done|split; [by apply flushing_lk|done]]]. apply (flushing_drained acc (set_lk false l') w'); [by apply flushing_lk|done].
Qed.

(** C5. [flush()] without workers comes back when output is pending: before [end()], with
    no task, continued event or polled event queued, only [out] registered with the loop
    and the kernel having accepted every registration, on an operating system whose
    transfers and waits achieve nothing only finitely often, it makes at most two turns
    for each byte, finalizer and busy descriptor that is owed and for each answer that
    achieves nothing, and one more; then nothing is queued for any descriptor, every descriptor that
    did not fail was sent all that was asked for, in order, and the mutex is released. *)
Theorem flush_drains (acc : Z -> list token) (l : elt) (w : world) (fuel : nat) call_task call_handler :
  flushing acc l w -> 2 * (owed_all (m_fdctx (m_out l)) + left_of w) + 1 < Z.of_nat fuel ->
  wp (flush call_task call_handler fuel) (fun _ st' => drained acc st' /\ lk_owns (fst st') = false) no_exn (l, w).
Proof.
  intros Hf Hlt. eapply wp_mono; [..|apply (flush_drains_output acc l w fuel); [exact Hf|]]; [|done|].
  - intros [] st' (? & ? & _). done.
  - unfold turns. case_bool_decide; lia.
Qed.

(** Writing uses up no patience beyond its own calls' answers. *)
Definition calmer_out (st st' : @out OS (epoll_kernel OS) * world) : Prop := calmer (snd st) (snd st').

#[export] Instance calmer_out_preorder : PreOrder calmer_out.
Proof. unfold calmer_out. split; [by intros st|]. intros st1 st2 st3 H1 H2. by etrans. Qed.

Lemma calmer_on_world {A} (m : M world A) : respects calmer m -> respects calmer_out (on_world m).
Proof. intros Hm. by apply (respects_zoom calmer id snd). Qed.

Lemma write_calmer fd buf size : respects calmer_out (write fd buf size).
Proof.
  assert (forall o, respects calmer_out (put_out o)) as Hput by (intros o st; apply Z.le_refl).
  assert (forall fd ctx, respects calmer_out (set_ctx fd ctx)) as Hset by (intros f c st; apply Z.le_refl).
  unfold write, ctx_at, watch, add_watching, get_out. cbv zeta. repeat first
    [ apply calmer_on_world, respects_answer | apply calmer_on_world, (respects_push_record calmer)
    | apply Hput | apply Hset | respects_step ].
Qed.

Lemma loop_write_calmer fd buf size (l : elt) w :
  match on_m_out (loop_write fd buf size) (l, w) with Ret _ st' | Throw _ st' => left_of (snd st') <= left_of w | _ => True end.
Proof.
  pose proof (write_calmer fd buf size (m_out l, w)) as H. unfold on_m_out, zoom, loop_write. cbn [fst snd].
  by destruct (write fd buf size (m_out l, w)).
Qed.
End Turn.

(** ** Writing while nothing is flushed *)

Section Writing.
Context {OS : Os} {Spec : OsSpec OS} {ESpec : EpollSpec OS}.

(** A record of twenty bytes makes the buffer grow at most once. *)
Lemma push_write_total ctx buf size (w : world) :
  0 <= x_free ctx -> total ctx <= 2 ^ 61 ->
  wp (push_write ctx buf size) (fun ctx' _ => total ctx' <= 2 * total ctx + 72) (fun _ _ => True) w.
Proof.
  intros Hf Ht. unfold push_write, push_record. assert (zlen (fill_mem buf size) = sizeof_mem) as Hl by done.
  unfold total in *. change sizeof_mem with 20 in *. wp_step. destruct (Z.ltb_spec (x_free ctx) 20).
  - unfold reserve. cbv zeta. rewrite (wrap64_small (20 + _)) by lia. rewrite (wrap64_small (zlen (x_buf ctx) + x_free ctx)) by lia.
    rewrite (wrap64_small (_ * 2)) by lia. rewrite wrap64_small by lia. wp_step. unfold grow.
    change growth_fuel with (S 64). cbn [double_until].
    destruct (Z.ltb_spec ((zlen (x_buf ctx) + x_free ctx) * 2 + 72) (20 + zlen (x_buf ctx))); [lia|].
    wp_step. wp_step. apply wp_can_alloc_any. intros [] s' _; wp_step; [|done]. wp_step. cbn [x_buf x_free].
    rewrite length_app. rewrite !wrap64_small by (rewrite ?wrap64_small; lia). lia.
  - wp_step. wp_step. cbn [x_buf x_free]. rewrite length_app. rewrite wrap64_small by lia. lia.
Qed.

(** A descriptor with nothing queued is not in the list. *)
Definition unlisted (o : @out OS (epoll_kernel OS)) (fd : Z) (w : world) : Prop :=
  forall ctx, m_fdctx o !! Z.to_nat fd = Some ctx -> x_buf ctx = [] -> fd ∉ known (m_kernel o) (w_trace w).

(** The descriptor can be registered when it is not. *)
Definition registrable (ep fd : Z) : Prop :=
  forall tr events data, fd ∉ known ep tr -> is_err (sys tr (EpollAdd ep fd events data)) = false.

(** What one [write] adds. *)
Definition wrote (o : @out OS (epoll_kernel OS)) (w : world) (fd size : Z) (st' : @out OS (epoll_kernel OS) * world) : Prop :=
  owed_all (m_fdctx (fst st')) <= owed_all (m_fdctx o) + size + 1 /\
  all_accepted (L := epoll_laws) (w_trace (snd st')) /\ unlisted (fst st') fd (snd st') /\
  ctx_total (fst st') fd <= 2 * ctx_total o fd + 72 /\
  forall ep fd', fd' ∈ known ep (w_trace w) -> fd' ∈ known ep (w_trace (snd st')).

Lemma wrote_nothing o w w' fd size ctx :
  m_fdctx o !! Z.to_nat fd = Some ctx -> unregistering (L := epoll_laws) w w' -> 0 <= size -> 0 <= total ctx ->
  all_accepted (L := epoll_laws) (w_trace w) -> unlisted o fd w -> wrote o w fd size (o, w').
Proof.
  intros Hc Hun Hs Ht Ha Hu. split; [cbn [fst]; lia|]. split; [by eapply accepted_unregistering|]. split; [|split].
  - intros ctx' Hc' Hb'. cbn [fst snd]. rewrite (known_unregistering _ _ _ Hun). by apply (Hu ctx').
  - cbn [fst]. unfold ctx_total. rewrite Hc. simpl. lia.
  - intros ep fd' Hfd'. cbn [snd]. by rewrite (known_unregistering _ _ _ Hun).
Qed.

(** A record was pushed. *)
Lemma push_write_adds ctx rs buf size (w : world) :
  x_rep ctx rs -> push_ok ctx (PushWrite buf size) ->
  wp (push_write ctx buf size) (fun ctx' w' => silent w w' /\ x_rep ctx' (rs ++ [XIov [(buf, size)]]) /\
      owed ctx' <= owed ctx + size + 1 /\ x_buf ctx' <> [] /\ total ctx' <= 2 * total ctx + 72)
    (fun e _ => e = BadAlloc) w.
Proof.
  intros Hx Hp. pose proof Hp as ((_ & Hv%Forall_inv & _) & _ & Ht). destruct Hv as (_ & Hs & _). cbn [fst snd] in Hs.
  eapply wp_mono; [..|exact (wp_and _ _ _ _ _ _
    (wp_run_push (PushWrite buf size) ctx rs (fun ctx' w' => silent w w' /\ x_rep ctx' (rs ++ [XIov [(buf, size)]]))
      (fun e _ => e = BadAlloc) w Hx Hp (fun _ _ H1 H2 => conj H1 H2) (fun _ _ => eq_refl))
    (push_write_total ctx buf size w (xr_free _ _ Hx) Ht))]; [|by intros ? ? [? _]].
  intros ctx' w' [[Hsil Hx'] Htot]. split_and!; [done|done| | |done].
  - rewrite (owed_rep _ _ Hx), (owed_rep _ _ Hx'). unfold weight. rewrite tokens_app, length_app.
    rewrite (bool_decide_false (rs ++ _ = [])) by (by destruct rs).
    cbn [tokens flat_map record_tokens iov_tokens fst snd]. rewrite !app_nil_r, length_fmap, length_seqZ.
    case_bool_decide; lia.
  - rewrite (xr_buf _ _ Hx'). intros Hn%encode_all_nil. by destruct rs.
Qed.

(** The context is not in the list of the descriptors with output yet. *)
Lemma write_enqueue_adds o w w1 fd ctx b s size :
  m_fdctx o !! Z.to_nat fd = Some ctx -> x_rep ctx [] -> x_buf ctx = [] -> push_ok ctx (PushWrite b s) -> s <= size ->
  unregistering (L := epoll_laws) w w1 -> all_accepted (L := epoll_laws) (w_trace w) ->
  registrable (m_kernel o) fd -> unlisted o fd w ->
  wp (ctx ← on_world (push_write ctx b s); _ ← set_ctx fd ctx; watch fd)
    (fun _ st' => wrote o w fd size st') (fun e _ => e = BadAlloc) (o, w1).
Proof.
  intros Hc Hx Hnil Hp Hs Hun Ha Hreg Hu. wp_step. apply wp_on_world. cbn [fst snd].
  eapply wp_mono; [..|exact (push_write_adds ctx [] b s w1 Hx Hp)]; [|done].
  intros ctx' w2 (Hsil & Hx' & Ho & Hne & Ht'). cbn [fst snd]. wp_step. apply wp_set_ctx. cbn [fst snd].
  unfold watch. wp_step. apply wp_get_out. cbn [fst snd m_kernel upd_ctx]. wp_step. apply wp_on_world. apply wp_syscall.
  intros a Hack. cbn [fst snd w_trace] in *. rewrite Hsil in Hack.
  assert (is_err a = false) as Hok.
  { rewrite Hack. apply Hreg. rewrite (known_unregistering _ _ _ Hun). by apply (Hu ctx). }
  unfold add_watching. wp_step. wp_step. apply wp_get_out. cbn [fst snd]. wp_step. apply wp_put_out. wp_step. wp_step.
  split_and!; cbn [fst snd upd_ctx m_fdctx m_kernel w_trace].
  - rewrite (owed_all_insert _ _ _ _ Hc). lia.
  - rewrite Hsil. apply Forall_app. split; [by eapply accepted_unregistering|]. by constructor.
  - intros ctx2 Hc2 Hb2. cbn [upd_ctx m_fdctx] in Hc2. rewrite list_lookup_insert_eq in Hc2 by (by eapply lookup_lt_Some). congruence.
  - unfold ctx_total. cbn [upd_ctx m_fdctx]. rewrite list_lookup_insert_eq by (by eapply lookup_lt_Some). rewrite Hc. exact Ht'.
  - intros ep fd' Hfd'. rewrite Hsil, known_snoc, (known_unregistering _ _ _ Hun). simpl. destruct a; [|done].
    case_bool_decide; [apply elem_of_union; by right|done].
Qed.

(** One write. *)
Lemma write_adds o w acc fd buf size :
  good (L := epoll_laws) (o, w) [] acc -> in_range o fd ->
  push_ok (default xfer_new (m_fdctx o !! Z.to_nat fd)) (PushWrite buf size) ->
  all_accepted (L := epoll_laws) (w_trace w) -> registrable (m_kernel o) fd -> unlisted o fd w ->
  wp (write fd buf size) (fun _ st' => wrote o w fd size st') (fun e _ => e = BadAlloc) (o, w).
Proof.
  intros [qs [Hrep _ _ _ _]] Hr Hp Ha Hreg Hu. cbn [fst snd] in *.
  unfold write. wp_step. eapply wp_ctx_at; [done..|]. cbn [fst snd]. intros ctx rs Hc _ Hx Hemp Htot.
  rewrite Hc in Hp. cbn [default] in Hp. rewrite Hemp. clear Hemp.
  assert (0 <= total ctx) as Htot0 by (pose proof (xr_free _ _ Hx); unfold total; lia).
  pose proof Hp as ((_ & Hv%Forall_inv & _) & _). destruct Hv as (_ & Hs0 & _). cbn [fst snd] in Hs0.
  assert (forall r a, stream_of r = Some fd -> unregistering (L := epoll_laws) w (World (w_trace w ++ [Sys r a]) (w_alloc w))) as Hun1.
  { intros r a Hr'. eapply unregistering_one; [done|]. by eapply stream_not_registers. }
  assert (forall r a a', stream_of r = Some fd ->
    wrote o w fd size (o, World ((w_trace w ++ [Sys r a]) ++ [Sys (ShutdownRd fd) a']) (w_alloc w))) as Hhang.
  { intros r a a' Hr'. eapply wrote_nothing; [exact Hc| |lia|done..]. etrans; [by apply (Hun1 r a)|].
    eapply unregistering_one; [done|]. by eapply stream_not_registers. }
  case_bool_decide as Hnil.
  - subst rs. pose proof (xr_buf _ _ Hx) as Hbuf. cbn in Hbuf. wp_step. apply wp_on_world. apply wp_syscall. intros a Hack. cbn [fst snd].
    destruct a as [wl out|e].
    + symmetry in Hack. apply write_bound in Hack. destruct (Z.leb_spec wl 0).
      { wp_step. apply wp_on_world, wp_syscall. intros a' _. wp_step. by apply Hhang. }
      destruct (Z.leb_spec size wl).
      * wp_step. eapply wrote_nothing; [exact Hc|by apply Hun1|lia|done..].
      * apply (write_enqueue_adds o w _ fd ctx _ _ size Hc Hx Hbuf); [apply push_ok_rest; [done|lia]|lia|by apply Hun1|done..].
    + destruct (would_retry e) eqn:He; cbn [negb].
      * apply (write_enqueue_adds o w _ fd ctx _ _ size Hc Hx Hbuf); [done|lia|by apply Hun1|done..].
      * wp_step. apply wp_on_world, wp_syscall. intros a' _. wp_step. by apply Hhang.
  - wp_step. apply wp_on_world. cbn [fst snd].
    eapply wp_mono; [..|exact (push_write_adds ctx rs buf size w Hx Hp)]; [|done].
    intros ctx' w2 (Hsil & Hx' & Ho & Hne & Ht'). cbn [fst snd]. apply wp_set_ctx. cbn [fst snd].
    split_and!; cbn [fst snd upd_ctx m_fdctx m_kernel].
    + rewrite (owed_all_insert _ _ _ _ Hc). lia.
    + by rewrite Hsil.
    + intros ctx2 Hc2 Hb2. cbn [upd_ctx m_fdctx] in Hc2. rewrite list_lookup_insert_eq in Hc2 by (by eapply lookup_lt_Some). congruence.
    + unfold ctx_total. cbn [upd_ctx m_fdctx]. rewrite list_lookup_insert_eq by (by eapply lookup_lt_Some). rewrite Hc. exact Ht'.
    + intros ep fd' Hfd'. by rewrite Hsil.
Qed.

(** A write from a loop that could be flushed leaves one that can. *)
Lemma write_flushing acc (l : @loop OS (epoll_kernel OS)) w fd buf size :
  flushing acc l w -> in_range (m_out l) fd ->
  push_ok (default xfer_new (m_fdctx (m_out l) !! Z.to_nat fd)) (PushWrite buf size) ->
  registrable (m_kernel (m_out l)) fd -> unlisted (m_out l) fd w ->
  wp (on_m_out (loop_write fd buf size))
    (fun _ st' => flushing (<[fd := acc fd ++ (TMem <$> seqZ buf size)]> acc) (fst st') (snd st') /\
       wrote (m_out l) w fd size (m_out (fst st'), snd st') /\ same_out (m_out l) (m_out (fst st')) /\
       fst st' = set_out (m_out (fst st')) l)
    (fun e st' => e = BadAlloc /\ fst st' = set_out (m_out (fst st')) l /\ exists acc', good (L := epoll_laws) (m_out (fst st'), snd st') [] acc') (l, w).
Proof.
  intros Hf Hr Hp Hreg Hu. loop_step. pose proof (fl_kernels _ _ _ Hf) as Hne.
  eapply wp_mono; [..|exact (own_out l w _ _ _ (resp_write _ _ _ Hne fd buf size)
    (wp_and _ _ _ _ _ _ (write_ok (m_out l) w [] acc fd buf size (fl_good _ _ _ Hf) Hr Hp)
      (write_adds (m_out l) w acc fd buf size (fl_good _ _ _ Hf) Hr Hp (fl_accepted _ _ _ Hf) Hreg Hu)))];
    [|intros e st' [[Hcut _] _]].
  2:{ destruct Hcut as (-> & toks & _ & Hg & _). cbn [fst snd set_out m_out]. split; [done|]. split; [done|]. eexists. destruct st'. exact Hg. }
  intros [] [o w'] [[[Hg Hsame] Hwr] [[Hk' Hq] Hs]]. cbn [fst snd] in *.
  pose proof Hwr as (_ & Ha' & _ & _ & Hkn). cbn [fst snd] in *.
  destruct (Hs EPOLLIN (fl_wf _ _ _ Hf)) as [Hwf' Harm']. split; [|by destruct o, l].
  destruct Hf as [? ? ? ? ? ? _ _ Hqk _ Harm]. split; simpl; try done.
  - by rewrite Hk'.
  - rewrite Hq, Hk'. intros e He. by apply Hkn, Hqk.
  - unfold out_ident. simpl. rewrite Hk'. exact (eq_trans Harm' Harm).
Qed.
End Writing.

(** ** A concrete operating system

    Transfers take what a list says, and then everything; the first waits are
    interrupted or report nothing, in turn; the epoll descriptors are among 3 to 7. *)
Definition is_wait_call (ev : event) : bool := match ev with Sys (EpollWait _ _ _) _ => true | _ => false end.

Definition waits (tr : trace) : nat := length (filter (fun ev => is_wait_call ev = true) tr).

Definition slow_os (answers : list sysret) (naps : nat) : Os := {|
  sys := fun tr r =>
    match r with
    | EpollWait _ maxevents _ =>
        if decide (0 <= maxevents /\ (waits tr < naps)%nat) then (if Nat.even (waits tr) then SysErr EINTR else SysOk 0 [])
        else sys (Os := ready_os answers) tr r
    | EpollCreate _ => match free_descriptor 5 tr with Some n => SysOk n [] | None => SysErr EMFILE end
    | _ => sys (Os := ready_os answers) tr r
    end;
  memcpy_may_overlap := true
|}.

#[export] Instance slow_os_spec answers naps : OsSpec (slow_os answers naps).
Proof. split; [apply (writev_bound (OsSpec := ready_os_spec answers))|apply (sendfile_bound (OsSpec := ready_os_spec answers))|apply (write_bound (OsSpec := ready_os_spec answers))]. Qed.

#[export] Instance slow_epoll_spec answers naps : EpollSpec (slow_os answers naps).
Proof.
  split; [apply (epoll_add_fd_valid (EpollSpec := ready_epoll_spec answers))|].
  intros tr ep maxevents timeout n out. cbn [sys slow_os]. case_decide; [|apply (epoll_wait_reports (EpollSpec := ready_epoll_spec answers))].
  destruct (Nat.even _); [done|]. intros [= <- <-]. split; [lia|]. exists []. split; constructor.
Qed.

#[export] Instance slow_descriptors answers naps : DescriptorSpec (slow_os answers naps) 16.
Proof.
  split; [lia|by intros * [= <- _]|]. intros tr size n out. cbn. destruct (free_descriptor 5 tr) as [m|] eqn:Hf; [|done].
  intros [= <- _]. apply free_descriptor_new in Hf as [Hn Hr]. split; [done|lia].
Qed.

(** The errors that are left in the list, and the naps. *)
Definition errors (answers : list sysret) : nat := length (filter (fun a => is_err a = true) answers).

Definition slow_patience (answers : list sysret) (naps : nat) (tr : trace) : nat :=
  (errors (drop (stream_calls tr) answers) + (naps - waits tr))%nat.

Lemma errors_next answers n :
  errors (drop n answers) = (match answers !! n with Some a => if is_err a then 1 else 0 | None => 0 end + errors (drop (S n) answers))%nat.
Proof.
  destruct (answers !! n) as [a|] eqn:Hn.
  - rewrite (drop_S _ _ _ Hn). unfold errors. rewrite filter_cons. destruct (is_err a); [by rewrite decide_True|by rewrite decide_False].
  - apply lookup_ge_None_1 in Hn. by rewrite !drop_ge by lia.
Qed.

Lemma stream_calls_snoc tr ev : stream_calls (tr ++ [ev]) = (stream_calls tr + (if is_stream_call ev then 1 else 0))%nat.
Proof. unfold stream_calls. rewrite filter_app, length_app, filter_cons. by destruct (is_stream_call ev). Qed.

Lemma waits_snoc tr ev : waits (tr ++ [ev]) = (waits tr + (if is_wait_call ev then 1 else 0))%nat.
Proof. unfold waits. rewrite filter_app, length_app, filter_cons. by destruct (is_wait_call ev). Qed.

(** A call leaves at most as much, and less by an error of the list or by a nap. *)
Lemma slow_patience_snoc answers naps tr ev :
  (slow_patience answers naps (tr ++ [ev]) + (if is_wait_call ev && bool_decide (waits tr < naps)%nat then 1 else 0) +
   (if is_stream_call ev then match answers !! stream_calls tr with Some a => if is_err a then 1 else 0 | None => 0 end else 0) <=
   slow_patience answers naps tr)%nat.
Proof.
  unfold slow_patience. rewrite stream_calls_snoc, waits_snoc. pose proof (errors_next answers (stream_calls tr)) as He.
  case_bool_decide; destruct (is_wait_call ev), (is_stream_call ev); cbn [andb]; rewrite ?Nat.add_0_r, ?Nat.add_1_r; lia.
Qed.

(** A transfer is told to come back by an error of the list. *)
Lemma clamp_retry r a e : clamp_answer r a = SysErr e -> would_retry e = true -> is_err a = true.
Proof. unfold clamp_answer. destruct (transfer_limit r), a as [n out|]; try done. destruct (_ <? _); [by intros [= <-]|done]. Qed.

Lemma ready_transfer (answers : list sysret) tr r :
  fruitless r (clamp_answer r (default (full_answer r) (answers !! stream_calls tr))) = true -> is_stream_call (Sys r (SysOk 0 [])) = true ->
  match answers !! stream_calls tr with Some a => is_err a | None => false end = true.
Proof.
  intros Hf Hs. destruct (clamp_answer _ _) as [n out|e] eqn:Hc; [by destruct r|].
  assert (would_retry e = true) as Hr by (by destruct r). pose proof (clamp_retry _ _ _ Hc Hr) as He.
  destruct (answers !! stream_calls tr); [done|]. by destruct r.
Qed.

(** What is armed is reported. *)
Lemma ready_waits answers tr ep maxevents timeout :
  0 < maxevents -> epoll_armed ep tr <> ∅ ->
  fruitless (EpollWait ep maxevents timeout) (sys (Os := ready_os answers) tr (EpollWait ep maxevents timeout)) = false.
Proof.
  intros Hm Harm. cbn [sys ready_os]. destruct (Z.ltb_spec maxevents 0); [lia|]. cbn [fruitless].
  apply bool_decide_false. intros Hn. rewrite Nat2Z.id, firstn_all in Hn. apply Harm. unfold epoll_armed.
  assert (map_to_list (regs_of ep tr) = []) as ->%map_to_list_empty_iff; [|apply dom_empty_L].
  destruct (map_to_list (regs_of ep tr)); [done|]. by destruct (Z.to_nat maxevents) eqn:Hz; [lia|].
Qed.

Lemma slow_fruitless answers naps tr r :
  expected tr r -> fruitless r (sys (Os := slow_os answers naps) tr r) = true ->
  (slow_patience answers naps (tr ++ [Sys r (sys (Os := slow_os answers naps) tr r)]) < slow_patience answers naps tr)%nat.
Proof.
  intros Hexp Hf. pose proof (slow_patience_snoc answers naps tr (Sys r (sys (Os := slow_os answers naps) tr r))) as Hle.
  assert (is_stream_call (Sys r (SysOk 0 [])) = true -> fruitless r (sys (Os := ready_os answers) tr r) = true ->
    match answers !! stream_calls tr with Some a => is_err a | None => false end = true) as Ht.
  { intros Hs Hf'. apply (ready_transfer answers tr r); [|done]. by destruct r. }
  destruct r; try done.
  - specialize (Ht eq_refl Hf). change (is_stream_call _) with true in Hle. destruct (answers !! _) as [[]|]; try done.
    cbn [is_wait_call andb is_err] in Hle. lia.
  - specialize (Ht eq_refl Hf). change (is_stream_call _) with true in Hle. destruct (answers !! _) as [[]|]; try done.
    cbn [is_wait_call andb is_err] in Hle. lia.
  - destruct Hexp as [Hm Harm]. cbn [sys slow_os] in *. case_decide as Hd.
    + cbn [is_wait_call andb] in Hle. rewrite bool_decide_true in Hle by apply Hd. lia.
    + change (fruitless (EpollWait ep maxevents timeout) (sys (Os := ready_os answers) tr (EpollWait ep maxevents timeout)) = true) in Hf.
      by rewrite ready_waits in Hf.
Qed.

#[export] Instance slow_responsive answers naps : Responsive (slow_os answers naps).
Proof.
  refine {| patience := slow_patience answers naps |}.
  - intros tr r. pose proof (slow_patience_snoc answers naps tr (Sys r (sys (Os := slow_os answers naps) tr r))). lia.
  - intros tr fin user. pose proof (slow_patience_snoc answers naps tr (Finalize fin user)). lia.
  - apply slow_fruitless.
  - intros tr ep maxevents timeout e [Hm _]. cbn [sys slow_os]. case_decide.
    + destruct (Nat.even _); [by intros [= <-]|done].
    + cbn [sys ready_os]. destruct (Z.ltb_spec maxevents 0); [lia|done].
  - done.
Defined.

(** Five bytes are written to descriptor 9 of a new loop; the kernel takes two at
    once, has no room, takes one, is interrupted, and takes the rest; three waits
    come to nothing. *)
Definition flush_answers : list sysret := [SysOk 2 []; SysErr EAGAIN; SysOk 1 []; SysErr EINTR].

Section Witness.
#[local] Instance fos : Os := slow_os flush_answers 3.

Definition f_loop : @loop fos (epoll_kernel fos) :=
  MkLoop 0 0 true [] (<[5%nat := Some out_handler]> (replicate 16 None)) 3 [] [] (MkOut 5 (replicate 16 xfer_new) [] 0) false 0 false.

Definition f_world : world := World
  [Sys (EpollCreate 1024) (SysOk 3 []); Sys Getrlimit (SysOk 16 []); Sys (EpollCreate 1024) (SysOk 5 []);
   Sys Getrlimit (SysOk 16 []); Sys (EpollAdd 3 5 1073741825 4611686022722355205) (SysOk 0 [])] [].

Lemma f_flushing : flushing (fun _ => []) f_loop f_world.
Proof.
  split; try done.
  - apply fresh_good; [decided|decided|decided|]. intros fd. unfold sent. cbn [f_world w_trace].
    by repeat (rewrite filter_cons_False; [|by destruct (decide (fd = 0))]).
  - by repeat constructor.
  - by intros e ?%not_elem_of_nil.
  - decided.
Qed.

Definition f_written : (@loop fos (epoll_kernel fos)) * world :=
  match on_m_out (loop_write 9 1000 5) (f_loop, f_world) with Ret _ st => st | _ => (f_loop, f_world) end.

Definition no_client_handler (h : Z) : M (@loop fos (epoll_kernel fos) * world * @event_impl fos (epoll_kernel fos)) bool := mret false.

Definition f_acc : Z -> list token := <[9 := [] ++ (TMem <$> seqZ 1000 5)]> (fun _ => []).

Lemma f_written_flushing : flushing f_acc (fst f_written) (snd f_written).
Proof.
  assert (in_range (m_out f_loop) 9) as Hr by (unfold in_range; simpl; lia).
  assert (push_ok (default xfer_new (m_fdctx (m_out f_loop) !! Z.to_nat 9)) (PushWrite 1000 5)) as Hp by decided.
  assert (registrable (OS := fos) (m_kernel (m_out f_loop)) 9) as Hreg by (by intros tr events data _).
  assert (unlisted (m_out f_loop) 9 f_world) as Hu by (intros ctx _ _; decided).
  pose proof (write_flushing (fun _ => []) f_loop f_world 9 1000 5 f_flushing Hr Hp Hreg Hu) as H.
  unfold wp, f_written in *. destruct (on_m_out (loop_write 9 1000 5) (f_loop, f_world)) as [[] st| | |] eqn:Hrun; [by apply H| |done|done].
  exfalso. assert (match on_m_out (loop_write 9 1000 5) (f_loop, f_world) with Ret _ _ => true | _ => false end = true) as Hb by (by vm_compute).
  by rewrite Hrun in Hb.
Qed.

Lemma flush_drains_witness :
  (owed_all (m_fdctx (m_out (fst f_written))) = 4 /\ left_of (snd f_written) = 5) /\
  match flush (OS := fos) client_task no_client_handler 20 f_written with
  | Ret _ st' => Some (delivered (w_trace (snd st')))
  | _ => None
  end = Some (TMem <$> [1000; 1001; 1002; 1003; 1004]) /\
  wp (flush client_task no_client_handler 20)
    (fun _ st' => drained f_acc st' /\ lk_owns (fst st') = false) no_exn (fst f_written, snd f_written).
Proof.
  assert (owed_all (m_fdctx (m_out (fst f_written))) = 4 /\ left_of (snd f_written) = 5) as Ho by (by vm_compute).
  split; [exact Ho|]. split; [by vm_compute|]. destruct Ho as [Ho Hl].
  apply (flush_drains f_acc (fst f_written) (snd f_written) 20 client_task no_client_handler f_written_flushing).
  rewrite Ho, Hl. lia.
Defined.
End Witness.
