(* ===== verification/Timer.v ===== *)
(** * Timers (src/mpsrc/wavy_timer.h, wavy_timer.cc)

    A timer is a handler that owns a descriptor of the kernel (a timerfd, with
    the epoll kernel), reads the expiration and calls the client's callback. *)

From Stdlib Require Import ZArith Lia SpecFloat.
From stdpp Require Import base tactics option list numbers gmap.
From S2P Require Import Prelude Os Kernel KernelEpoll Out Loop.

Abbreviation timespec := (Z * Z)%type.
Abbreviation double := spec_float.

Definition sizeof_timer_handler : Z := 80.
Definition sizeof_timer_count : Z := 24.

(** class timer_handler: the kernel's timer (its descriptor), and the members. *)
Record timer_handler := TimerHandler {
  th_timer : Z;
  m_periodic : bool;
  m_callback : Z
}.

Section Timer.
Context {OS : Os}.

Definition kernel_timer_new (kern : Z) (value interval : option timespec) : M world Z :=
  '(r, tm) ← epoll_add_timer kern (-1) value interval;
  match r with
  | SysErr e => throw (SystemError (errno_code e))
  | SysOk _ _ => mret tm
  end.

Definition timer_handler_new (kern : Z) (value interval : option timespec) (callback : Z) : M world timer_handler :=
  tm ← kernel_timer_new kern value interval;
  let periodic :=
    match interval with
    | Some (tv_sec, tv_nsec) => negb (tv_sec =? 0) || negb (tv_nsec =? 0)
    | None => false
    end in
  mret (TimerHandler tm periodic callback).

Definition timer_handler_delete (h : timer_handler) : M world unit := epoll_timer_delete (th_timer h).

(** [operator()]: whether the timer goes on. *)
Definition timer_handler_call (h : timer_handler) (e : Z) : M world bool :=
  _ ← epoll_read_timer e;
  b ← call_client (m_callback h) [];
  mret (negb (b =? 0) && m_periodic h).

Abbreviation lst := (@loop OS (epoll_kernel OS) * world)%type.

(** [loop::add_timer]; [number] is the number of the handler. *)
Definition add_timer (value interval : option timespec) (callback : Z) (number : timer_handler -> Z) : M lst Z :=
  l ← get_loop;
  ok ← in_world (can_alloc sizeof_timer_handler);
  if negb ok then throw BadAlloc else
  h ← in_world (timer_handler_new (m_lkernel l) value interval callback);
  ok ← in_world (can_alloc sizeof_timer_count);
  if negb ok then _ ← in_world (timer_handler_delete h); throw BadAlloc else
  _ ← set_handler (th_timer h) (number h);
  mret (th_timer h).

(** [loop::remove_timer]: the table's reference goes first; [destroy] is what
    dropping it does. *)
Definition remove_timer (destroy : Z -> M world unit) (ident : Z) : M lst unit :=
  l ← get_loop;
  let old := m_state l !! Z.to_nat ident in
  _ ← reset_handler ident;
  _ ← (match old with Some (Some h) => in_world (destroy h) | _ => mret tt end);
  _ ← in_world (epoll_remove_timer (m_lkernel l) ident);
  mret tt.

(** ** Seconds as a [double]: IEEE 754 binary64 *)

Definition double_of_Z (z : Z) : double := binary_normalize 53 1024 z 0 false.

(** The value towards zero. *)
Definition trunc (f : double) : option Z :=
  match f with
  | S754_zero _ => Some 0
  | S754_finite s m e =>
      let a := if 0 <=? e then Z.pos m * 2 ^ e else Z.pos m / 2 ^ (- e) in
      Some (if s then - a else a)
  | _ => None
  end.

(** Conversion to a 64-bit integer, undefined if it does not fit. *)
Definition to_int64 (f : double) : M world Z :=
  match trunc f with
  | Some z => if (- 2 ^ 63 <=? z) && (z <? 2 ^ 63) then mret z else undef
  | None => undef
  end.

Definition sec2spec (sec : double) : M world timespec :=
  s ← to_int64 sec;
  n ← to_int64 (SFmul 53 1024 (SFsub 53 1024 sec (double_of_Z s)) (double_of_Z (10 ^ 9)));
  mret (s, n).

Definition add_timer_sec (value_sec interval_sec : double) (callback : Z) (number : timer_handler -> Z) : M lst Z :=
  let zero := S754_zero false in
  if SFleb zero value_sec then
    if SFltb zero interval_sec then
      value ← in_world (sec2spec value_sec);
      interval ← in_world (sec2spec interval_sec);
      add_timer (Some value) (Some interval) callback number
    else
      value ← in_world (sec2spec value_sec);
      add_timer (Some value) None callback number
  else
    if SFltb zero interval_sec then
      interval ← in_world (sec2spec interval_sec);
      add_timer None (Some interval) callback number
    else add_timer None None callback number.
End Timer.

(** ** Properties *)

(** Conversion of a whole number of seconds, checked by evaluation. *)
Definition whole_seconds (n : Z) : bool :=
  bool_decide (trunc (double_of_Z n) = Some n) &&
  bool_decide (trunc (SFmul 53 1024 (SFsub 53 1024 (double_of_Z n) (double_of_Z n)) (double_of_Z (10 ^ 9))) = Some 0).

Lemma whole_seconds_below n : 0 <= n < 1000 -> whole_seconds n = true.
Proof.
  intros Hn. assert (forallb whole_seconds (seqZ 0 1000) = true) as H by (by vm_compute).
  rewrite List.forallb_forall in H. apply H, list_elem_of_In, elem_of_seqZ. lia.
Qed.

Lemma sec2spec_whole n w : 0 <= n < 1000 -> sec2spec (double_of_Z n) w = Ret (n, 0) w.
Proof.
  intros Hn. pose proof (whole_seconds_below n Hn) as Hw. unfold whole_seconds in Hw.
  apply andb_true_iff in Hw as [H1 H2]. apply bool_decide_eq_true in H1, H2.
  unfold sec2spec, to_int64, mbind, M_bind. rewrite H1.
  destruct (Z.leb_spec (- 2 ^ 63) n), (Z.ltb_spec n (2 ^ 63)); try lia. cbn [andb mret M_ret].
  by rewrite H2.
Qed.

Section Properties.
Context {OS : Os}.

Abbreviation lst := (@loop OS (epoll_kernel OS) * world)%type.

(** The times a timer is set to: without a value, the interval. *)
Definition it_value (value interval : option timespec) : timespec := default (default (0, 0) interval) value.
Definition it_interval (interval : option timespec) : timespec := default (0, 0) interval.

(** The calls that make a timer, and their failure, which closes the descriptor. *)
Definition timer_made (kern fd : Z) (value interval : option timespec) (tr : trace) : Prop :=
  exists a1 a2 a3 a4, is_err a1 = false /\ is_err a2 = false /\ is_err a3 = false /\
    tr = [Sys TimerfdCreate (SysOk fd a4); Sys (SetNonblock fd) a1;
          Sys (TimerfdSettime fd (it_value value interval) (it_interval interval)) a2;
          Sys (EpollAdd kern fd (wrap32 (Z.lor EPOLLIN EPOLLONESHOT)) (ev_data fd (wrap32 (Z.lor EPOLLIN EPOLLONESHOT)))) a3].

Definition timer_undone (tr : trace) : Prop :=
  tr = [] \/ (exists e, tr = [Sys TimerfdCreate (SysErr e)]) \/
  exists fd out tr', tr = Sys TimerfdCreate (SysOk fd out) :: tr' /\ calls (Close fd) tr' = 1.

Lemma timer_handler_new_made kern value interval callback w :
  wp (timer_handler_new kern value interval callback)
    (fun h w' => exists tr, w' = World (w_trace w ++ tr) (w_alloc w) /\ timer_made kern (th_timer h) value interval tr /\
      (exists out, sys (w_trace w) TimerfdCreate = SysOk (th_timer h) out) /\ m_callback h = callback /\
      m_periodic h = match interval with Some p => negb (bool_decide (p = (0, 0))) | None => false end)
    (fun e w' => exists tr code, w_trace w' = w_trace w ++ tr /\ timer_undone tr /\ e = SystemError code) w.
Proof.
  unfold timer_handler_new, kernel_timer_new, epoll_add_timer. repeat wp_step. apply wp_syscall. intros a Hcr.
  destruct a as [fd out|e]; [|repeat wp_step; eexists _, _; split; [reflexivity|]; split; [right; left; by exists e|done]].
  unfold close_and_fail, epoll_add_fd.
  do 3 (repeat wp_step; apply wp_syscall; intros ? _;
    match goal with |- context [match ?a with SysOk _ _ => _ | SysErr _ => _ end] => destruct a as [? ?|e] end;
    [|repeat wp_step; apply wp_syscall; intros a _; repeat wp_step; eexists _, _; simpl; rewrite <-!app_assoc;
      split; [reflexivity|]; split; [|done]; right; right; eexists fd, out, _; split; [reflexivity|]; by count_calls]).
  repeat wp_step. eexists. cbn [w_trace w_alloc]. rewrite <-!app_assoc. split; [reflexivity|]. split; [|split; [by eexists|split; [done|]]].
  { by eexists (SysOk _ _), (SysOk _ _), (SysOk _ _), out. }
  destruct interval as [[s ns]|]; [|done]. simpl.
  destruct (Z.eqb_spec s 0), (Z.eqb_spec ns 0), (bool_decide_reflect ((s, ns) = (0, 0))); simpl; congruence.
Qed.

(** [loop::add_timer] sets the timer to the given times, registers it with the
    kernel and enters the handler, and returns the open descriptor; if it throws,
    the loop is as before and a descriptor that was made is closed once. *)
Theorem add_timer_outcome (l : @loop OS (epoll_kernel OS)) (w : world) (value interval : option timespec)
    (callback : Z) (number : timer_handler -> Z) :
  (forall tr n out, sys tr TimerfdCreate = SysOk n out -> table_range l n) ->
  wp (add_timer value interval callback number)
    (fun fd st' => exists h tr, th_timer h = fd /\ fst st' = set_state (<[Z.to_nat fd := Some (number h)]> (m_state l)) l /\
      w_trace (snd st') = w_trace w ++ tr /\ timer_made (m_lkernel l) fd value interval tr)
    (fun e st' => fst st' = l /\ exists tr, w_trace (snd st') = w_trace w ++ tr /\ timer_undone tr) (l, w).
Proof.
  intros Hfd. unfold add_timer. repeat loop_step. apply wp_can_alloc; [done|].
  destruct (default true _); simpl; [|repeat loop_step; split; [done|]; exists []; rewrite app_nil_r; split; [done|by left]].
  repeat loop_step. eapply wp_mono; [..|apply timer_handler_new_made]; simpl.
  2:{ intros e w' (tr & code & Htr & Hu & ->). split; [done|]. by exists tr. }
  intros h w' (tr & -> & Hm & (out & Hcr) & _). repeat loop_step. apply wp_can_alloc; [done|].
  destruct Hm as (a1 & a2 & a3 & a4 & ? & ? & ? & ->).
  match goal with |- context [negb ?b] => destruct b end; simpl.
  - loop_step. unfold wp at 1. rewrite set_handler_run by (by eapply Hfd). repeat loop_step.
    eexists h, _. split_and!; [done..|]. by exists a1, a2, a3, a4.
  - unfold timer_handler_delete, epoll_timer_delete. destruct (Z.leb_spec 0 (th_timer h)).
    2:{ specialize (Hfd _ _ _ Hcr). unfold table_range in Hfd. lia. }
    repeat loop_step. apply wp_syscall. intros a _. repeat loop_step. split; [done|].
    eexists. rewrite <-app_assoc. split; [reflexivity|]. right; right. eexists _, _, _. split; [reflexivity|]. cbn [app]. by count_calls.
Qed.

(** A timer without an interval, or with the interval zero, expires once: the
    handler returns false, or lets the exception of the callback through, for
    which the loop removes it. *)
Theorem one_shot_timer_ends (kern : Z) (value interval : option timespec) (callback e : Z) (w : world) :
  default (0, 0) interval = (0, 0) ->
  wp (h ← timer_handler_new kern value interval callback; timer_handler_call h e)
    (fun cont _ => cont = false) (fun _ _ => True) w.
Proof.
  intros Hi. wp_step. eapply wp_mono; [..|apply timer_handler_new_made]; [|done].
  intros h w' (tr & -> & _ & _ & _ & Hp). assert (m_periodic h = false) as Hf.
  { rewrite Hp. destruct interval as [p|]; [|done]. simpl in Hi. subst p. done. }
  unfold timer_handler_call, epoll_read_timer, call_client. repeat wp_step. apply wp_syscall. intros a _.
  repeat wp_step. apply wp_syscall. intros b _. destruct b; repeat wp_step; [|done]. by rewrite Hf, andb_false_r.
Qed.

(** [loop::remove_timer] closes the descriptor, if the table holds the last
    reference, before the kernel is told to forget it. *)
Theorem remove_timer_order (l : @loop OS (epoll_kernel OS)) (w : world) (ident h : Z) :
  table_range l ident -> m_state l !! Z.to_nat ident = Some (Some h) ->
  wp (remove_timer (fun _ => epoll_timer_delete ident) ident)
    (fun _ st' => fst st' = set_state (<[Z.to_nat ident := None]> (m_state l)) l /\
      exists a b, w_trace (snd st') = w_trace w ++ [Sys (Close ident) a; Sys (EpollDel (m_lkernel l) ident) b])
    no_exn (l, w).
Proof.
  intros Hr Hh. unfold remove_timer. repeat loop_step. unfold wp at 1. rewrite reset_handler_run by done.
  repeat loop_step. rewrite Hh. unfold epoll_timer_delete. destruct (Z.leb_spec 0 ident); [|unfold table_range in Hr; lia].
  repeat loop_step. apply wp_syscall. intros a _. repeat loop_step. unfold epoll_remove_timer, epoll_remove_fd.
  apply wp_syscall. intros b _. repeat loop_step. split; [done|]. eexists a, b. by rewrite <-app_assoc.
Qed.
End Properties.

(** ** On a concrete environment *)

(** A system that gives descriptor 5 and whose callbacks return true. *)
Definition timer_os : Os := {|
  sys := fun tr r =>
    match r with TimerfdCreate => SysOk 5 [] | Callback _ _ => SysOk 1 [] | Read _ n => SysOk n [] | _ => SysOk 0 [] end;
  memcpy_may_overlap := true
|}.

Definition timer_loop : loop := empty_loop (OS := timer_os) (K := epoll_kernel _) 3 4.

Definition half : double := S754_finite false (2 ^ 52) (-53).
Definition three_halves : double := S754_finite false (3 * 2 ^ 51) (-52).

(** Half a second, and every one and a half seconds after that. *)
Definition timer_run : option (Z * list (option Z) * trace) :=
  match add_timer_sec (OS := timer_os) half three_halves 7 (fun _ => 1) (timer_loop, World [] []) with
  | Ret fd (l, w) => Some (fd, m_state l, w_trace w)
  | _ => None
  end.

Lemma timer_runs : timer_run = Some (5, <[5%nat := Some 1]> (replicate 8 None),
  [Sys TimerfdCreate (SysOk 5 []); Sys (SetNonblock 5) (SysOk 0 []);
   Sys (TimerfdSettime 5 (0, 500000000) (1, 500000000)) (SysOk 0 []);
   Sys (EpollAdd 3 5 1073741825 4611686022722355205) (SysOk 0 [])]).
Proof. by vm_compute. Qed.

Lemma timer_returns :
  match add_timer (OS := timer_os) (Some (0, 500000000)) None 7 (fun _ => 1) (timer_loop, World [] []) with
  | Ret _ _ => true
  | _ => false
  end = true.
Proof. by vm_compute. Qed.

Lemma add_timer_outcome_witness :
  exists fd st', add_timer (OS := timer_os) (Some (0, 500000000)) None 7 (fun _ => 1) (timer_loop, World [] []) = Ret fd st' /\
    exists h tr, th_timer h = fd /\ fst st' = set_state (<[Z.to_nat fd := Some 1]> (m_state timer_loop)) timer_loop /\
      w_trace (snd st') = [] ++ tr /\ timer_made 3 fd (Some (0, 500000000)) None tr.
Proof.
  assert (forall tr n out, sys (Os := timer_os) tr TimerfdCreate = SysOk n out -> table_range timer_loop n) as Hfd.
  { intros tr n out Hs. injection Hs as <- _. unfold table_range. simpl. lia. }
  pose proof (add_timer_outcome timer_loop (World [] []) (Some (0, 500000000)) None 7 (fun _ => 1) Hfd) as H.
  pose proof timer_returns as Hr. unfold wp in H. destruct (add_timer _ _ _ _ _) as [fd st'|e st'| |]; [by exists fd, st'|done..].
Defined.

Lemma one_shot_timer_ends_witness :
  wp (h ← timer_handler_new (OS := timer_os) 3 (Some (1, 0)) None 7; timer_handler_call (OS := timer_os) h 5)
    (fun cont _ => cont = false) (fun _ _ => True) (World [] []).
Proof. by apply one_shot_timer_ends. Defined.

Definition timer_loop_at_5 : @loop timer_os (epoll_kernel timer_os) :=
  set_state [None; None; None; None; None; Some 1; None; None] timer_loop.

Lemma remove_timer_order_witness :
  wp (remove_timer (OS := timer_os) (fun _ => epoll_timer_delete (OS := timer_os) 5) 5)
    (fun _ st' => fst st' = set_state (replicate 8 None) timer_loop_at_5 /\
      exists a b, w_trace (snd st') = [] ++ [Sys (Close 5) a; Sys (EpollDel 3 5) b])
    no_exn (timer_loop_at_5, World [] []).
Proof. apply (remove_timer_order timer_loop_at_5 (World [] []) 5 1); [unfold table_range; simpl; lia|done]. Defined.
