(* ===== verification/Signal.v ===== *)
(** * Signals (src/mp/signal.h, src/mpsrc/wavy_signal.h, wavy_signal.cc)

    Scoped changes of the signal mask and of a signal's disposition, the
    handler that gives a signal to a callback through the event loop, and the
    thread that does so with sigwait. *)

From Stdlib Require Import ZArith Lia.
From stdpp Require Import base tactics option list numbers gmap sets fin_sets.
From S2P Require Import Prelude Os Pthread Kernel KernelEpoll Out Loop.

(** class sigset: the members, in the order of [sigaddset]; signals are 1 to 64,
    and sigaddset and sigdelset refuse any other number. *)
Abbreviation sigset := (list Z).

Definition valid_signo (signo : Z) : bool := (1 <=? signo) && (signo <=? 64).
Definition set_empty : sigset := [].
Definition set_fill : sigset := seqZ 1 64.
Definition set_add (signo : Z) (m_set : sigset) : sigset :=
  if valid_signo signo && negb (bool_decide (signo ∈ m_set)) then m_set ++ [signo] else m_set.
Definition set_del (signo : Z) (m_set : sigset) : sigset := filter (fun s => s <> signo) m_set.

Definition SIG_DFL : Z := 0.
Definition SIG_IGN : Z := 1.

(** class scoped_signal *)
Record scoped_signal := ScopedSignal {
  ss_signo : Z;
  ss_save : Z                    (* the handler of m_save *)
}.

Section Signal.
Context {OS : Os}.

Definition scoped_sigprocmask_new (set : sigset) : M world sigset :=
  r ← syscall (SigBlock set);
  match r with SysErr e => throw (SystemError (errno_code e)) | SysOk _ _ => mret set end.

Definition scoped_sigprocmask_delete (m_set : sigset) : M world unit := _ ← syscall (SigUnblock m_set); mret tt.

Definition scoped_signal_new (signo handler : Z) : M world scoped_signal :=
  r ← syscall (Sigaction signo handler);
  match r with
  | SysErr e => throw (SystemError (errno_code e))
  | SysOk _ out => mret (ScopedSignal signo (default SIG_DFL (head out)))
  end.

Definition scoped_signal_delete (s : scoped_signal) : M world unit :=
  _ ← syscall (Sigaction (ss_signo s) (ss_save s)); mret tt.

(** ** class pthread_signal

    [thread_main] overwrites [signo], which it does not read again; fuel counts
    the signals. *)
Fixpoint thread_main (fuel : nat) (set : sigset) (handler : Z) : M world unit :=
  match fuel with
  | O => diverge
  | S fuel =>
      _ ← syscall (Sigwait set);
      b ← call_client handler [];
      if b =? 0 then mret tt else thread_main fuel set handler
  end.

Definition pthread_signal_thread (fuel : nat) (signo handler : Z) : M world unit :=
  thread_main fuel (set_add signo set_empty) handler.

(** The constructor: the members, then the thread; what was made is undone when
    a later part throws. *)
Definition pthread_signal_new (signo : Z) : M world (scoped_signal * sigset) :=
  m_signal ← scoped_signal_new signo SIG_IGN;
  catch
    (m_sigmask ← scoped_sigprocmask_new (set_add signo set_empty);
     catch (_ ← thread_run; mret (m_signal, m_sigmask))
       (fun e => _ ← scoped_sigprocmask_delete m_sigmask; throw e))
    (fun e => _ ← scoped_signal_delete m_signal; throw e).

(** ** class signal_handler *)

Record signal_handler := SignalHandler {
  sg_fd : Z;                     (* kernel_signal *)
  m_signo : Z;
  sg_callback : Z;
  m_signal : scoped_signal;
  m_sigmask : sigset
}.

Definition kernel_signal_new (kern signo : Z) : M world Z :=
  '(r, sg) ← epoll_add_signal kern (-1) signo;
  match r with
  | SysErr e => throw (SystemError (errno_code e))
  | SysOk _ _ => mret sg
  end.

Definition signal_handler_new (kern signo callback : Z) : M world signal_handler :=
  fd ← kernel_signal_new kern signo;
  catch
    (s ← scoped_signal_new signo SIG_IGN;
     catch
       (mask ← scoped_sigprocmask_new (set_add signo set_empty);
        mret (SignalHandler fd signo callback s mask))
       (fun e => _ ← scoped_signal_delete s; throw e))
    (fun e => _ ← epoll_signal_delete fd; throw e).

Definition signal_handler_delete (h : signal_handler) : M world unit :=
  _ ← scoped_sigprocmask_delete (m_sigmask h);
  _ ← scoped_signal_delete (m_signal h);
  epoll_signal_delete (sg_fd h).

Definition signal_handler_call (h : signal_handler) (e : Z) : M world bool :=
  _ ← epoll_read_signal e;
  b ← call_client (sg_callback h) [];
  mret (negb (b =? 0)).

(** ** loop::add_signal, loop::remove_signal *)

Definition sizeof_signal_handler : Z := 384.
Definition sizeof_signal_count : Z := 24.

Abbreviation lst := (@loop OS (epoll_kernel OS) * world)%type.

Definition add_signal (signo callback : Z) (number : signal_handler -> Z) : M lst Z :=
  l ← get_loop;
  ok ← in_world (can_alloc sizeof_signal_handler);
  if negb ok then throw BadAlloc else
  h ← in_world (signal_handler_new (m_lkernel l) signo callback);
  ok ← in_world (can_alloc sizeof_signal_count);
  if negb ok then _ ← in_world (signal_handler_delete h); throw BadAlloc else
  _ ← set_handler (sg_fd h) (number h);
  mret (sg_fd h).

(** [destroy] is what dropping the table's reference does. *)
Definition remove_signal (destroy : Z -> M world unit) (ident : Z) : M lst unit :=
  l ← get_loop;
  _ ← in_world (epoll_remove_signal (m_lkernel l) ident);
  let old := m_state l !! Z.to_nat ident in
  _ ← reset_handler ident;
  match old with Some (Some h) => in_world (destroy h) | _ => mret tt end.
End Signal.

(** ** The signal state of the process, from its calls *)

(** The handler of [signo], which was [initial signo] at the start. *)
Definition dispose (signo h : Z) (ev : event) : Z :=
  match ev with
  | Sys (Sigaction s h') (SysOk _ _) => if s =? signo then h' else h
  | _ => h
  end.

Definition disposition (initial : Z -> Z) (signo : Z) (tr : trace) : Z :=
  fold_left (dispose signo) tr (initial signo).

(** The signals that are blocked in the calling thread. *)
Definition blocked (initial : gset Z) (tr : trace) : gset Z :=
  fold_left (fun b ev =>
    match ev with
    | Sys (SigBlock set) (SysOk _ _) => b ∪ list_to_set set
    | Sys (SigUnblock set) (SysOk _ _) => b ∖ list_to_set set
    | _ => b
    end) tr initial.

(** sigaction(2) fails only for a signal that cannot be changed, and gives the
    previous handler; sigprocmask(2) fails only for invalid arguments. *)
Class SignalSpec (OS : Os) (initial : Z -> Z) : Prop := {
  sigaction_saves tr signo h n out :
    sys tr (Sigaction signo h) = SysOk n out -> head out = Some (disposition initial signo tr);
  sigaction_again tr tr' signo h h' :
    is_err (sys tr (Sigaction signo h)) = false -> is_err (sys tr' (Sigaction signo h')) = false;
  sigunblock_succeeds tr set : is_err (sys tr (SigUnblock set)) = false
}.

(** ** Properties *)

(** The signals of the trace [tr2] that follows [tr1]. *)
Lemma disposition_app initial s tr1 tr2 :
  disposition initial s (tr1 ++ tr2) = disposition (fun s => disposition initial s tr1) s tr2.
Proof. unfold disposition. by rewrite fold_left_app. Qed.

Lemma disposition_snoc initial s tr ev :
  disposition initial s (tr ++ [ev]) = dispose s (disposition initial s tr) ev.
Proof. unfold disposition. by rewrite fold_left_app. Qed.

Lemma blocked_app b tr1 tr2 : blocked b (tr1 ++ tr2) = blocked (blocked b tr1) tr2.
Proof. unfold blocked. by rewrite fold_left_app. Qed.

(** The disposition of every signal and the mask are the same. *)
Definition signals_kept (initial : Z -> Z) (b : gset Z) (w w' : world) : Prop :=
  (forall s, disposition initial s (w_trace w') = disposition initial s (w_trace w)) /\
  blocked b (w_trace w') = blocked b (w_trace w).

Section Properties.
Context {OS : Os} {initial : Z -> Z} {Spec : SignalSpec OS initial} {ESpec : EpollSpec OS}.
Context (b : gset Z).

(** The descriptor of the signal: made and open, or closed again. *)
Lemma epoll_add_signal_spec kern signo w :
  wp (epoll_add_signal kern (-1) signo) (fun p w' => exists tr, w' = World (w_trace w ++ tr) (w_alloc w) /\
    signals_kept initial b w w' /\
    match fst p with
    | SysErr _ => snd p = -1 /\ ((exists e, tr = [Sys (Signalfd signo) (SysErr e)]) \/
        exists fd out tr', tr = Sys (Signalfd signo) (SysOk fd out) :: tr' /\ calls (Close fd) tr' = 1)
    | SysOk _ _ => 0 <= snd p /\ exists out tr', sys (w_trace w) (Signalfd signo) = SysOk (snd p) out /\
        tr = Sys (Signalfd signo) (SysOk (snd p) out) :: tr' /\ calls (Close (snd p)) tr' = 0
    end) no_exn w.
Proof.
  unfold epoll_add_signal, close_and_fail, epoll_add_fd. wp_step. apply wp_syscall. intros a Hsfd. symmetry in Hsfd.
  assert (forall tr, (forall s, disposition (fun s => disposition initial s (w_trace w)) s tr =
      disposition initial s (w_trace w)) -> blocked (blocked b (w_trace w)) tr = blocked b (w_trace w) ->
    signals_kept initial b w (World (w_trace w ++ tr) (w_alloc w))) as Hkept.
  { intros tr Hd Hb. split; [intros s|]; cbn [w_trace]; by rewrite ?disposition_app, ?blocked_app. }
  destruct a as [fd out|e]; [|wp_step; eexists; split; [reflexivity|]; split; [by apply Hkept|]; split; [done|left; by eexists]].
  wp_step. apply wp_syscall. intros a _. destruct a as [n o|e].
  2:{ repeat wp_step. apply wp_syscall. intros c _. wp_step. eexists. cbn [w_trace w_alloc]. rewrite <-!app_assoc.
      split; [reflexivity|]. split; [by apply Hkept|]. split; [done|]. right. eexists fd, out, _. split; [reflexivity|]. cbn [app]. by count_calls. }
  wp_step. apply wp_syscall. intros a Ha. destruct a as [n' o'|e].
  2:{ repeat wp_step. apply wp_syscall. intros c _. wp_step. eexists. cbn [w_trace w_alloc]. rewrite <-!app_assoc.
      split; [reflexivity|]. split; [by apply Hkept|]. split; [done|]. right. eexists fd, out, _. split; [reflexivity|]. cbn [app]. by count_calls. }
  wp_step. eexists. cbn [w_trace w_alloc]. rewrite <-!app_assoc. split; [reflexivity|]. split; [by apply Hkept|].
  symmetry in Ha. apply epoll_add_fd_valid in Ha. split; [simpl; lia|]. eexists _, _. split; [exact Hsfd|]. split; [reflexivity|]. cbn [app]. by count_calls.
Qed.

(** What a handler has taken over: the previous disposition, and the mask. *)
Definition handler_holds (signo callback : Z) (w : world) (h : signal_handler) : Prop :=
  0 <= sg_fd h /\ sg_callback h = callback /\ m_sigmask h = set_add signo set_empty /\
  m_signal h = ScopedSignal signo (disposition initial signo (w_trace w)) /\
  exists tr, is_err (sys tr (Sigaction signo SIG_IGN)) = false.

(** Restoring what a call of sigaction saved. *)
Lemma scoped_signal_restores signo tr0 w :
  is_err (sys tr0 (Sigaction signo SIG_IGN)) = false ->
  forall save, wp (scoped_signal_delete (ScopedSignal signo save)) (fun _ w' =>
    exists a, is_err a = false /\ w' = World (w_trace w ++ [Sys (Sigaction signo save) a]) (w_alloc w)) no_exn w.
Proof.
  intros Hok save. unfold scoped_signal_delete. wp_step. apply wp_syscall. intros a ->. wp_step.
  eexists. split; [|reflexivity]. by eapply sigaction_again.
Qed.

Lemma epoll_signal_closes fd w :
  0 <= fd -> wp (epoll_signal_delete fd) (fun _ w' =>
    exists a, w' = World (w_trace w ++ [Sys (Close fd) a]) (w_alloc w)) no_exn w.
Proof.
  intros H0. unfold epoll_signal_delete. destruct (Z.leb_spec 0 fd); [|lia].
  wp_step. apply wp_syscall. intros a _. wp_step. by eexists.
Qed.

(** No descriptor was made, or the one that was made was closed once. *)
Definition descriptor_closed (signo : Z) (tr : trace) : Prop :=
  (exists e, tr = [Sys (Signalfd signo) (SysErr e)]) \/
  exists fd out tr', tr = Sys (Signalfd signo) (SysOk fd out) :: tr' /\ calls (Close fd) tr' = 1.

(** Making the handler of a signal ignores and blocks the signal; if any step
    fails, the disposition and the mask are as before, and the descriptor is closed. *)
Lemma signal_handler_new_spec (kern signo callback : Z) (w : world) :
  wp (signal_handler_new kern signo callback)
    (fun h w' => handler_holds signo callback w h /\
      (forall s, disposition initial s (w_trace w') = if s =? signo then SIG_IGN else disposition initial s (w_trace w)) /\
      blocked b (w_trace w') = blocked b (w_trace w) ∪ list_to_set (set_add signo set_empty) /\
      exists tr, w_trace w' = w_trace w ++ tr /\ calls (Close (sg_fd h)) tr = 0 /\
        exists out tr', sys (w_trace w) (Signalfd signo) = SysOk (sg_fd h) out /\ tr = Sys (Signalfd signo) (SysOk (sg_fd h) out) :: tr')
    (fun _ w' => signals_kept initial b w w' /\
      exists tr, w_trace w' = w_trace w ++ tr /\ descriptor_closed signo tr) w.
Proof.
  unfold signal_handler_new, kernel_signal_new. wp_step. wp_step. eapply wp_mono; [..|apply epoll_add_signal_spec]; [|done].
  intros [[fd n|e] sg] w' (tr & -> & [Hd Hb] & H); cbn [fst snd] in H.
  2:{ destruct H as [-> H]. wp_step. split; [done|]. by exists tr. }
  destruct H as (H0 & out & tr' & Hsfd & -> & Hc). cbn [w_trace] in Hd, Hb.
  remember (w_trace w ++ Sys (Signalfd signo) (SysOk sg out) :: tr') as t1 eqn:Ht1.
  repeat wp_step. unfold scoped_signal_new. wp_step. apply wp_syscall. intros a Ha. destruct a as [k o|e].
  - pose proof (sigaction_saves _ _ _ _ _ (eq_sym Ha)) as Hsave.
    assert (is_err (sys t1 (Sigaction signo SIG_IGN)) = false) as Hok
      by (cbn [w_trace] in Ha; by rewrite <-Ha).
    cbn [w_trace w_alloc] in *. rewrite Hd in Hsave. repeat wp_step. unfold scoped_sigprocmask_new. wp_step. apply wp_syscall. intros a _.
    destruct a as [k' o'|e]; repeat wp_step; cbn [w_trace w_alloc].
    + rewrite Hsave. split; [split_and!; [done..|by eexists]|]. split; [|split].
      * intros s. rewrite !disposition_snoc. cbn. rewrite Hd, Z.eqb_sym. done.
      * rewrite !blocked_app. cbn. by rewrite Hb.
      * eexists. rewrite Ht1, <-!app_assoc. split; [reflexivity|]. cbn [sg_fd app]. split; [by count_calls|by eexists _, _].
    + eapply wp_mono; [..|by eapply scoped_signal_restores]; [|done]. intros [] w' (a & Ha' & ->). repeat wp_step.
      eapply wp_mono; [..|by apply epoll_signal_closes]; [|done]. intros [] w' (c & ->). repeat wp_step. cbn [w_trace w_alloc].
      rewrite Hsave. destruct a as [n1 o1|]; [|done]. split.
      * split; [intros s|]; cbn [w_trace].
        -- rewrite !disposition_snoc. cbn. rewrite Hd. by destruct (Z.eqb_spec signo s) as [->|].
        -- rewrite !blocked_app. cbn. by rewrite Hb.
      * eexists. rewrite Ht1, <-!app_assoc. split; [reflexivity|]. right. eexists _, _, (tr' ++ _). split; [reflexivity|]. by count_calls.
  - repeat wp_step. eapply wp_mono; [..|by apply epoll_signal_closes]; [|done]. intros [] w' (c & ->). repeat wp_step. cbn [w_trace w_alloc].
    split.
    + split; [intros s|]; cbn [w_trace]; rewrite ?disposition_snoc, ?blocked_app; cbn; by rewrite ?Hd, ?Hb.
    + eexists. rewrite Ht1, <-!app_assoc. split; [reflexivity|]. right. eexists _, _, (tr' ++ _). split; [reflexivity|]. by count_calls.
Qed.

(** Destroying a handler, whatever happened since it took over the signal. *)
Lemma signal_handler_delete_spec signo callback w h w2 :
  handler_holds signo callback w h ->
  wp (signal_handler_delete h) (fun _ w3 =>
    disposition initial signo (w_trace w3) = disposition initial signo (w_trace w) /\
    (forall s, s <> signo -> disposition initial s (w_trace w3) = disposition initial s (w_trace w2)) /\
    blocked b (w_trace w3) = blocked b (w_trace w2) ∖ list_to_set (set_add signo set_empty) /\
    exists tr, w_trace w3 = w_trace w2 ++ tr /\ calls (Close (sg_fd h)) tr = 1) no_exn w2.
Proof.
  intros (H0 & _ & Hmask & Hsig & tr0 & Hok). unfold signal_handler_delete, scoped_sigprocmask_delete.
  repeat wp_step. apply wp_syscall. intros a Ha. rewrite Hmask in Ha. repeat wp_step. rewrite Hsig.
  eapply wp_mono; [..|by eapply scoped_signal_restores]; [|done]. intros [] w' (a' & Ha' & ->). repeat wp_step.
  eapply wp_mono; [..|by apply epoll_signal_closes]; [|done]. intros [] w' (c & ->). cbn [w_trace w_alloc].
  destruct a' as [n o|]; [|done]. pose proof (sigunblock_succeeds (w_trace w2) (set_add signo set_empty)) as Hu.
  rewrite <-Ha in Hu. destruct a as [k o'|]; [|done]. rewrite Hmask. split; [|split; [|split]].
  - rewrite !disposition_snoc. cbn. by rewrite Z.eqb_refl.
  - intros s Hs. rewrite !disposition_snoc. cbn. destruct (Z.eqb_spec signo s); congruence.
  - rewrite !blocked_app. done.
  - eexists. rewrite <-!app_assoc. split; [reflexivity|]. cbn [app]. by count_calls.
Qed.
(** C32. Destroying the handler of a signal, whatever happened meanwhile, gives the
    signal the disposition it had before the handler was made, touches no other
    signal, and closes the descriptor; the signal is unblocked even if it was
    blocked before the handler was made. *)
Theorem signal_handler_restores (kern signo callback : Z) (w w1 w2 : world) (h : signal_handler) :
  signal_handler_new kern signo callback w = Ret h w1 ->
  wp (signal_handler_delete h) (fun _ w3 =>
    disposition initial signo (w_trace w3) = disposition initial signo (w_trace w) /\
    (forall s, s <> signo -> disposition initial s (w_trace w3) = disposition initial s (w_trace w2)) /\
    blocked b (w_trace w3) = blocked b (w_trace w2) ∖ list_to_set (set_add signo set_empty) /\
    exists tr, w_trace w3 = w_trace w2 ++ tr /\ calls (Close (sg_fd h)) tr = 1) no_exn w2.
Proof.
  intros Hnew. pose proof (signal_handler_new_spec kern signo callback w) as H. unfold wp in H at 1. rewrite Hnew in H.
  destruct H as [Hh _]. by apply (signal_handler_delete_spec signo callback).
Qed.

(** [loop::add_signal] ignores and blocks the signal and enters the handler of its
    descriptor; if it throws, the loop and the dispositions are as before, no signal
    is blocked that was not, and a descriptor that was made is closed once. *)
Theorem add_signal_outcome (l : @loop OS (epoll_kernel OS)) (w : world) (signo callback : Z) (number : signal_handler -> Z) :
  (forall tr n out, sys tr (Signalfd signo) = SysOk n out -> table_range l n) ->
  wp (add_signal signo callback number)
    (fun fd st' => exists h tr, sg_fd h = fd /\ sg_callback h = callback /\
       fst st' = set_state (<[Z.to_nat fd := Some (number h)]> (m_state l)) l /\
       (forall s, disposition initial s (w_trace (snd st')) = if s =? signo then SIG_IGN else disposition initial s (w_trace w)) /\
       blocked b (w_trace (snd st')) = blocked b (w_trace w) ∪ list_to_set (set_add signo set_empty) /\
       w_trace (snd st') = w_trace w ++ tr /\ calls (Close fd) tr = 0)
    (fun e st' => fst st' = l /\ (forall s, disposition initial s (w_trace (snd st')) = disposition initial s (w_trace w)) /\
       blocked b (w_trace (snd st')) ⊆ blocked b (w_trace w) /\
       exists tr, w_trace (snd st') = w_trace w ++ tr /\ (tr = [] \/ descriptor_closed signo tr)) (l, w).
Proof.
  intros Hfd. unfold add_signal. repeat loop_step. apply wp_can_alloc; [done|].
  destruct (default true _); simpl; [|repeat loop_step; split_and!; [done..|]; exists []; rewrite app_nil_r; by eauto].
  repeat loop_step. eapply wp_mono; [..|apply signal_handler_new_spec]; simpl.
  2:{ intros e w' ([Hd Hb] & tr & Htr & Hc). split_and!; [done..|by rewrite Hb|]. by eauto. }
  intros h w' (Hh & Hd & Hb & tr & Htr & Hc & Hr). repeat loop_step. apply wp_can_alloc; [done|].
  match goal with |- context [negb ?c] => destruct c end; simpl.
  - loop_step. unfold wp at 1. rewrite set_handler_run by (destruct Hr as (? & ? & Hs & _); by eapply Hfd).
    repeat loop_step. exists h, tr. split_and!; try done. by destruct Hh as (_ & ? & _).
  - loop_step. loop_step. eapply wp_mono; [..|by apply (signal_handler_delete_spec signo callback (World (w_trace w) (tail (w_alloc w))))]; [|done].
    intros [] w3 (Hd3 & Hds & Hb3 & tr3 & Htr3 & Hc3). repeat loop_step. cbn [w_trace] in *. split; [done|]. split; [|split].
    + intros s. destruct (decide (s = signo)) as [->|Hne]; [done|]. rewrite Hds, Hd by done.
      destruct (Z.eqb_spec s signo); congruence.
    + rewrite Hb3, Hb. set_solver.
    + exists (tr ++ tr3). split; [by rewrite Htr3, Htr, <-app_assoc|]. right. right.
      destruct Hr as (out & tr' & _ & ->). eexists _, out, (tr' ++ tr3). split; [done|].
      revert Hc. rewrite calls_cons, calls_app, Hc3. rewrite calls_other by done. lia.
Qed.
End Properties.

(** ** On a concrete environment *)

(** A system that remembers dispositions; [can_block] tells whether sigprocmask blocks. *)
Definition signal_os (can_block : bool) : Os := {|
  sys := fun tr r =>
    match r with
    | Signalfd _ => SysOk 6 []
    | Sigaction signo _ => if valid_signo signo then SysOk 0 [disposition (fun _ => SIG_DFL) signo tr] else SysErr (EOTHER 22)
    | SigBlock _ => if can_block then SysOk 0 [] else SysErr (EOTHER 22)
    | EpollWait _ _ _ => SysErr EINTR
    | EpollAdd _ fd _ _ => if bool_decide (0 <= fd < 2 ^ 31) then SysOk 0 [] else SysErr (EOTHER 9)
    | _ => SysOk 0 []
    end;
  memcpy_may_overlap := true
|}.

#[export] Instance signal_os_spec can_block : SignalSpec (signal_os can_block) (fun _ => SIG_DFL).
Proof.
  split.
  - intros tr signo h n out. cbn. destruct (valid_signo signo); [|done]. by intros [= _ <-].
  - intros tr tr' signo h h'. cbn. by destruct (valid_signo signo).
  - done.
Qed.

#[export] Instance signal_os_epoll can_block : EpollSpec (signal_os can_block).
Proof.
  split; [|done]. intros tr ep fd events data n out. cbn. by case_bool_decide.
Qed.

Definition SIGUSR1 : Z := 10.

(** What is left of the signal state: the disposition, whether it is blocked, and
    how often descriptor 6 was closed. *)
Definition left_of (w : world) : Z * bool * Z :=
  (disposition (fun _ => SIG_DFL) SIGUSR1 (w_trace w), bool_decide (SIGUSR1 ∈ blocked ∅ (w_trace w)),
   calls (Close 6) (w_trace w)).

Definition signal_run (can_block : bool) : option (Z * bool * Z) :=
  match (h ← signal_handler_new (OS := signal_os can_block) 3 SIGUSR1 7;
         signal_handler_delete (OS := signal_os can_block) h) (World [] []) with
  | Ret _ w | Throw _ w => Some (left_of w)
  | _ => None
  end.

Definition signal_loop (can_block : bool) : @loop (signal_os can_block) (epoll_kernel _) := empty_loop (OS := signal_os can_block) (K := epoll_kernel _) 3 4.

(** The signal cannot be blocked: everything is undone. *)
Lemma add_signal_outcome_witness :
  signal_run false = Some (SIG_DFL, false, 1) /\
  wp (add_signal (OS := signal_os false) SIGUSR1 7 (fun _ => 1))
    (fun fd st' => exists h tr, sg_fd h = fd /\ sg_callback h = 7 /\
       fst st' = set_state (<[Z.to_nat fd := Some 1]> (replicate 8 None)) (signal_loop false) /\
       (forall s, disposition (fun _ => SIG_DFL) s (w_trace (snd st')) = if s =? SIGUSR1 then SIG_IGN else SIG_DFL) /\
       blocked ∅ (w_trace (snd st')) = ∅ ∪ list_to_set (set_add SIGUSR1 set_empty) /\
       w_trace (snd st') = [] ++ tr /\ calls (Close fd) tr = 0)
    (fun e st' => fst st' = signal_loop false /\ (forall s, disposition (fun _ => SIG_DFL) s (w_trace (snd st')) = SIG_DFL) /\
       blocked ∅ (w_trace (snd st')) ⊆ ∅ /\
       exists tr, w_trace (snd st') = [] ++ tr /\ (tr = [] \/ descriptor_closed SIGUSR1 tr)) (signal_loop false, World [] []).
Proof.
  split; [by vm_compute|].
  apply (add_signal_outcome (initial := fun _ => SIG_DFL) ∅ (signal_loop false) (World [] []) SIGUSR1 7 (fun _ => 1)).
  intros tr n out Hs. injection Hs as <- _. unfold table_range. simpl. lia.
Defined.

(** The handler of a signal in a process that had blocked the signal before. *)
Definition blocked_before : world := World [Sys (SigBlock [SIGUSR1]) (SysOk 0 [])] [].

Definition signal_handler_1 : option (signal_handler * world) :=
  match signal_handler_new (OS := signal_os true) 3 SIGUSR1 7 blocked_before with Ret h w => Some (h, w) | _ => None end.

Lemma signal_handler_restores_witness :
  bool_decide (SIGUSR1 ∈ blocked ∅ (w_trace blocked_before)) = true /\
  exists h w1, signal_handler_1 = Some (h, w1) /\
    wp (signal_handler_delete (OS := signal_os true) h) (fun _ w3 =>
      disposition (fun _ => SIG_DFL) SIGUSR1 (w_trace w3) = SIG_DFL /\
      (forall s, s <> SIGUSR1 -> disposition (fun _ => SIG_DFL) s (w_trace w3) = disposition (fun _ => SIG_DFL) s (w_trace w1)) /\
      blocked ∅ (w_trace w3) = blocked ∅ (w_trace w1) ∖ list_to_set (set_add SIGUSR1 set_empty) /\
      exists tr, w_trace w3 = w_trace w1 ++ tr /\ calls (Close (sg_fd h)) tr = 1) no_exn w1.
Proof.
  split; [by vm_compute|]. assert (exists h w1, signal_handler_new (OS := signal_os true) 3 SIGUSR1 7 blocked_before = Ret h w1)
    as (h & w1 & Hnew) by (by eexists _, _; vm_compute).
  exists h, w1. split; [unfold signal_handler_1; by rewrite Hnew|].
  exact (signal_handler_restores (initial := fun _ => SIG_DFL) ∅ 3 SIGUSR1 7 blocked_before w1 w1 h Hnew).
Defined.
