(* ===== verification/Connect.v ===== *)
(** * Connecting (src/mpsrc/wavy_connect.cc)

    [loop::connect] submits a task that creates a socket, connects it, waits
    with poll(2) for the outcome, and calls its callback with the descriptor or
    with an error.  [tried] says which calls an attempt makes, and what they come to.
    The second implementation in the file is disabled by the preprocessor. *)

From Stdlib Require Import ZArith Lia SpecFloat.
From stdpp Require Import base tactics option list numbers.
From S2P Require Import Prelude Os Kernel Out Loop Timer.

(** struct connect_task::pack *)
Record pack := Pack {
  p_socket_family : Z;
  p_socket_type : Z;
  p_protocol : Z;
  p_timeout_msec : Z;
  p_addr : list Z
}.

Definition sizeof_pack : Z := 20.

Section Connect.
Context {OS : Os}.

(** [m->timeout_msec = timeout->tv_sec + timeout->tv_nsec * 1e6]: a [double]
    converted to [int], which is undefined out of the range of [int]. *)
Definition timeout_msec (timeout : option (Z * Z)) : M world Z :=
  match timeout with
  | Some (tv_sec, tv_nsec) =>
      if negb (tv_sec =? 0) && negb (tv_nsec =? 0) then
        let v := tv_sec + tv_nsec * 10 ^ 6 in
        if (- 2 ^ 31 <=? v) && (v <? 2 ^ 31) then mret v else undef
      else mret (-1)
  | None => mret (-1)
  end.

Definition connect_task_new (family type protocol : Z) (addr : list Z) (timeout : option (Z * Z)) : M world pack :=
  ok ← can_alloc (wrap64 (sizeof_pack + zlen addr));
  if negb ok then throw BadAlloc else
  msec ← timeout_msec timeout;
  mret (Pack family type protocol msec addr).

(** [error:], with [errno] *)
Definition connect_error (fd : Z) (e : errno) : M world (Z * Z) :=
  _ ← syscall (Close fd); mret (-1, errno_code e).

(** The loop around poll(2); the pair is what the callback is given. *)
Fixpoint connect_poll (fuel : nat) (fd msec : Z) : M world (Z * Z) :=
  match fuel with
  | O => diverge
  | S fuel =>
      ret ← syscall (PollOut fd msec);
      match ret with
      | SysErr EINTR => connect_poll fuel fd msec
      | SysErr e => connect_error fd e
      | SysOk ret _ =>
          if ret =? 0 then connect_error fd ETIMEDOUT
          else
            r ← syscall (SockError fd);
            match r with
            | SysErr e => connect_error fd e
            | SysOk _ out =>
                let value := default 0 (head out) in
                if negb (value =? 0) then connect_error fd (EOTHER value) else mret (fd, 0)
            end
      end
  end.

(** [connect_task::operator()] up to the callback. *)
Definition connect_outcome (fuel : nat) (m : pack) : M world (Z * Z) :=
  r ← syscall (Socket (p_socket_family m) (p_socket_type m) (p_protocol m));
  match r with
  | SysErr e => mret (-1, errno_code e)
  | SysOk fd _ =>
      r ← syscall (SetNonblock fd);
      match r with
      | SysErr e => connect_error fd e
      | SysOk _ _ =>
          r ← syscall (Connect fd (p_addr m));
          match r with
          | SysOk _ _ => mret (fd, 0)
          | SysErr EINPROGRESS => connect_poll fuel fd (p_timeout_msec m)
          | SysErr e => connect_error fd e
          end
      end
  end.

Definition connect_task (fuel : nat) (m : pack) (m_callback : Z) : M world unit :=
  '(fd, err) ← connect_outcome fuel m;
  _ ← call_client m_callback [fd; err];
  mret tt.
End Connect.

(** [loop::connect]; [task] is the number under which the loop knows the task. *)
Definition loop_connect {OS : Os} {K : Kernel OS} (family type protocol : Z) (addr : list Z)
    (timeout : option (Z * Z)) (callback : Z) (task : pack -> Z -> Z) : M (loop * world) unit :=
  m ← in_world (connect_task_new family type protocol addr timeout);
  submit_impl (task m callback).

(** The overload that takes the timeout in seconds. *)
Definition loop_connect_sec {OS : Os} {K : Kernel OS} (family type protocol : Z) (addr : list Z)
    (timeout_sec : double) (callback : Z) (task : pack -> Z -> Z) : M (loop * world) unit :=
  timeout ← in_world (sec2spec timeout_sec);
  loop_connect family type protocol addr (Some timeout) callback task.

(** ** Properties *)

Section Properties.
Context {OS : Os}.

(** The waits with poll(2) after EINPROGRESS, and what they come to: an interrupted
    one is repeated; the first that is not decides. *)
Inductive waited (fd msec : Z) : trace -> Z * Z -> Prop :=
| wt_interrupted tr r :
    waited fd msec tr r -> waited fd msec (Sys (PollOut fd msec) (SysErr EINTR) :: tr) r
| wt_failed e a :
    e <> EINTR -> waited fd msec [Sys (PollOut fd msec) (SysErr e); Sys (Close fd) a] (-1, errno_code e)
| wt_timeout o a :
    waited fd msec [Sys (PollOut fd msec) (SysOk 0 o); Sys (Close fd) a] (-1, errno_code ETIMEDOUT)
| wt_no_answer n o e a :
    n <> 0 -> waited fd msec [Sys (PollOut fd msec) (SysOk n o); Sys (SockError fd) (SysErr e); Sys (Close fd) a] (-1, errno_code e)
| wt_error n o k out a :
    n <> 0 -> default 0 (head out) <> 0 ->
    waited fd msec [Sys (PollOut fd msec) (SysOk n o); Sys (SockError fd) (SysOk k out); Sys (Close fd) a] (-1, default 0 (head out))
| wt_connected n o k out :
    n <> 0 -> default 0 (head out) = 0 ->
    waited fd msec [Sys (PollOut fd msec) (SysOk n o); Sys (SockError fd) (SysOk k out)] (fd, 0).

(** The calls on the socket, with what the callback is given. *)
Inductive tried_on (m : pack) : Z -> trace -> Z * Z -> Prop :=
| td_no_flag fd e a : tried_on m fd [Sys (SetNonblock fd) (SysErr e); Sys (Close fd) a] (-1, errno_code e)
| td_at_once fd n o k o' :
    tried_on m fd [Sys (SetNonblock fd) (SysOk n o); Sys (Connect fd (p_addr m)) (SysOk k o')] (fd, 0)
| td_refused fd n o e a :
    e <> EINPROGRESS ->
    tried_on m fd [Sys (SetNonblock fd) (SysOk n o); Sys (Connect fd (p_addr m)) (SysErr e); Sys (Close fd) a] (-1, errno_code e)
| td_waited fd n o tr r :
    waited fd (p_timeout_msec m) tr r ->
    tried_on m fd (Sys (SetNonblock fd) (SysOk n o) :: Sys (Connect fd (p_addr m)) (SysErr EINPROGRESS) :: tr) r.

(** The calls of the task up to its callback. *)
Inductive tried (m : pack) : trace -> Z * Z -> Prop :=
| td_no_socket e :
    tried m [Sys (Socket (p_socket_family m) (p_socket_type m) (p_protocol m)) (SysErr e)] (-1, errno_code e)
| td_socket fd o tr r :
    tried_on m fd tr r ->
    tried m (Sys (Socket (p_socket_family m) (p_socket_type m) (p_protocol m)) (SysOk fd o) :: tr) r.

(** A part of the task made these calls. *)
Definition made (P : trace -> Z * Z -> Prop) (w : world) (r : Z * Z) (w' : world) : Prop :=
  exists tr, w_trace w' = w_trace w ++ tr /\ P tr r.

Lemma made_more (P P' : trace -> Z * Z -> Prop) ev w r w' :
  (forall tr, P' tr r -> P (ev :: tr) r) -> made P' (World (w_trace w ++ [ev]) (w_alloc w)) r w' -> made P w r w'.
Proof. intros HP (tr & Htr & H). exists (ev :: tr). split; [by rewrite Htr; cbn [w_trace]; rewrite <-app_assoc|by apply HP]. Qed.

Lemma wp_made_more (P P' : trace -> Z * Z -> Prop) ev (m : M world (Z * Z)) w :
  (forall tr r, P' tr r -> P (ev :: tr) r) ->
  let w1 := World (w_trace w ++ [ev]) (w_alloc w) in wp m (made P' w1) no_exn w1 -> wp m (made P w) no_exn w1.
Proof. intros HP w1. apply wp_mono; [|done]. intros r w'. apply made_more. intros tr. apply HP. Qed.

Lemma connect_error_made (P : trace -> Z * Z -> Prop) fd e w :
  (forall a, P [Sys (Close fd) a] (-1, errno_code e)) -> wp (connect_error fd e) (made P w) no_exn w.
Proof. intros HP. unfold connect_error. wp_step. apply wp_syscall. intros a _. wp_step. eexists. split; [reflexivity|]. apply HP. Qed.

(** A turn of the poll loop that a signal does not interrupt. *)
Lemma connect_turn fuel fd msec w :
  sys (w_trace w) (PollOut fd msec) <> SysErr EINTR ->
  wp (connect_poll (S fuel) fd msec) (made (waited fd msec) w) no_exn w.
Proof.
  intros Hne. cbn [connect_poll]. wp_step. apply wp_syscall. intros a Ha.
  destruct a as [ret out|e].
  - destruct (Z.eqb_spec ret 0) as [->|Hret].
    { eapply wp_made_more; [|apply connect_error_made]; [by intros tr r; exact (fun H => H)|]. intros a. apply wt_timeout. }
    apply (wp_made_more _ (fun tr r => waited fd msec (Sys (PollOut fd msec) (SysOk ret out) :: tr) r)); [done|].
    wp_step. apply wp_syscall. intros b _. destruct b as [k val|e].
    + destruct (Z.eqb_spec (default 0 (head val)) 0) as [H0|H0]; cbn [negb].
      * wp_step. eexists. split; [reflexivity|]. by apply wt_connected.
      * eapply wp_made_more; [|apply connect_error_made]; [by intros tr r; exact (fun H => H)|]. intros a. by apply wt_error.
    + eapply wp_made_more; [|apply connect_error_made]; [by intros tr r; exact (fun H => H)|]. intros a. by apply wt_no_answer.
  - assert (e <> EINTR) as He by congruence.
    assert (wp (connect_error fd e) (made (waited fd msec) w) no_exn (World (w_trace w ++ [Sys (PollOut fd msec) (SysErr e)]) (w_alloc w))) as H.
    { eapply wp_made_more; [|apply connect_error_made]; [by intros tr r; exact (fun H => H)|]. intros a. by apply wt_failed. }
    by destruct e.
Qed.

(** The poll loop in its first turns, interrupted each time. *)
Definition interrupted (tr : trace) (fd msec : Z) (n : nat) : trace :=
  tr ++ replicate n (Sys (PollOut fd msec) (SysErr EINTR)).

Lemma connect_poll_waited n fuel fd msec w :
  (n < fuel)%nat -> sys (interrupted (w_trace w) fd msec n) (PollOut fd msec) <> SysErr EINTR ->
  wp (connect_poll fuel fd msec) (made (waited fd msec) w) no_exn w.
Proof.
  revert fuel w. induction n as [|n IH]; intros [|fuel] w Hlt Hne; try lia.
  { unfold interrupted in Hne. simpl in Hne. rewrite app_nil_r in Hne. by apply connect_turn. }
  destruct (decide (sys (w_trace w) (PollOut fd msec) = SysErr EINTR)) as [Hi|]; [|by apply connect_turn].
  cbn [connect_poll]. wp_step. apply wp_syscall. intros a ->. rewrite Hi.
  apply (wp_made_more _ (waited fd msec)); [intros tr r; apply wt_interrupted|].
  apply IH; [lia|]. unfold interrupted in Hne |- *. simpl in Hne |- *. by rewrite <-app_assoc.
Qed.

Lemma connect_outcome_tried fuel n m w :
  (n < fuel)%nat ->
  (forall tr fd, sys (interrupted tr fd (p_timeout_msec m) n) (PollOut fd (p_timeout_msec m)) <> SysErr EINTR) ->
  wp (connect_outcome fuel m) (made (tried m) w) no_exn w.
Proof.
  intros Hlt Hne. unfold connect_outcome. wp_step. apply wp_syscall. intros a _.
  destruct a as [fd out|e]; [|wp_step; eexists; split; [reflexivity|]; constructor].
  apply (wp_made_more _ (tried_on m fd)); [intros tr r; apply td_socket|]. wp_step. apply wp_syscall. intros a _.
  destruct a as [k o|e].
  2:{ eapply wp_made_more; [|apply connect_error_made]; [by intros tr r; exact (fun H => H)|]. intros a. apply td_no_flag. }
  apply (wp_made_more _ (fun tr r => tried_on m fd (Sys (SetNonblock fd) (SysOk k o) :: tr) r)); [done|].
  wp_step. apply wp_syscall. intros b _. destruct b as [j val|e].
  { wp_step. eexists. split; [reflexivity|]. apply td_at_once. }
  apply (wp_made_more _ (fun tr r => tried_on m fd (Sys (SetNonblock fd) (SysOk k o) :: Sys (Connect fd (p_addr m)) (SysErr e) :: tr) r)); [done|].
  assert (e <> EINPROGRESS -> forall w, wp (connect_error fd e)
    (made (fun tr r => tried_on m fd (Sys (SetNonblock fd) (SysOk k o) :: Sys (Connect fd (p_addr m)) (SysErr e) :: tr) r) w) no_exn w) as Herr.
  { intros He w1. apply connect_error_made. intros a. by apply td_refused. }
  destruct e; try by apply Herr. eapply wp_mono; [..|by apply connect_poll_waited with n]; [|done].
  intros r w' (tr & Htr & H). exists tr. split; [done|]. by apply td_waited.
Qed.

(** ** What the calls come to *)

(** The kernel answered that [fd] is connected. *)
Definition connected (fd : Z) (tr : trace) : Prop :=
  (exists addr n out, Sys (Connect fd addr) (SysOk n out) ∈ tr) \/
  (exists n out, Sys (SockError fd) (SysOk n out) ∈ tr /\ default 0 (head out) = 0).

(** The socket is connected and open, or was closed once. *)
Definition settled (fd : Z) (tr : trace) (r : Z * Z) : Prop :=
  (r = (fd, 0) /\ connected fd tr /\ calls (Close fd) tr = 0) \/ (fst r = -1 /\ calls (Close fd) tr = 1).

Lemma settled_more fd ev tr r : calls (Close fd) [ev] = 0 -> settled fd tr r -> settled fd (ev :: tr) r.
Proof.
  intros Hev H. unfold settled. rewrite calls_cons, Hev. destruct H as [(-> & Hc & Hz)|H]; [left|by right]. split_and!; [done| |done].
  destruct Hc as [(addr & n & out & Hin)|(n & out & Hin & H0)]; [left; exists addr, n, out|right; exists n, out]; [|split; [|done]]; by right.
Qed.

Lemma settled_closed fd e a : settled fd [Sys (Close fd) a] (-1, e).
Proof. right. split; [done|apply calls_one]. Qed.

Lemma waited_settles fd msec tr r : waited fd msec tr r -> no_callback tr /\ settled fd tr r.
Proof.
  induction 1 as [tr r _ [Hn Hs]|e a He|o a|n o e a Hn|n o k out a Hn Hv|n o k out Hn Hv].
  - split; [by constructor|]. apply settled_more; [by apply calls_other|done].
  - split; [by repeat constructor|]. apply settled_more; [by apply calls_other|apply settled_closed].
  - split; [by repeat constructor|]. apply settled_more; [by apply calls_other|apply settled_closed].
  - split; [by repeat constructor|]. do 2 (apply settled_more; [by apply calls_other|]). apply settled_closed.
  - split; [by repeat constructor|]. do 2 (apply settled_more; [by apply calls_other|]). apply settled_closed.
  - split; [by repeat constructor|]. apply settled_more; [by apply calls_other|]. left. split; [done|]. split; [|by apply calls_other].
    right. exists k, out. split; [by left|done].
Qed.

Lemma tried_on_settles m fd tr r : tried_on m fd tr r -> no_callback tr /\ settled fd tr r.
Proof.
  destruct 1 as [fd e a|fd n o k o'|fd n o e a He|fd n o tr r [Hn Hs]%waited_settles].
  - split; [by repeat constructor|]. apply settled_more; [by apply calls_other|apply settled_closed].
  - split; [by repeat constructor|]. apply settled_more; [by apply calls_other|]. left. split; [done|]. split; [|by apply calls_other].
    left. eexists _, k, o'. by left.
  - split; [by repeat constructor|]. do 2 (apply settled_more; [by apply calls_other|]). apply settled_closed.
  - split; [by repeat constructor|]. by do 2 (apply settled_more; [by apply calls_other|]).
Qed.

(** What the callback is given: no socket and an error, or a connected and open
    socket, or an error after the socket was closed once; the client was not called
    before. *)
Definition reported (m : pack) (w : world) (r : Z * Z) (w' : world) : Prop :=
  exists a tr, w_trace w' = w_trace w ++ [Sys (Socket (p_socket_family m) (p_socket_type m) (p_protocol m)) a] ++ tr /\
    no_callback tr /\
    match a with
    | SysErr e => r = (-1, errno_code e) /\ tr = []
    | SysOk fd _ => settled fd tr r
    end.

Lemma tried_reported m w r w' : made (tried m) w r w' -> reported m w r w'.
Proof.
  intros (tr & Htr & H). destruct H as [e|fd o tr r H].
  - exists (SysErr e), []. by repeat constructor.
  - exists (SysOk fd o), tr. split; [done|]. by apply tried_on_settles with m.
Qed.

Lemma connect_outcome_reported fuel n m w :
  (n < fuel)%nat ->
  (forall tr fd, sys (interrupted tr fd (p_timeout_msec m) n) (PollOut fd (p_timeout_msec m)) <> SysErr EINTR) ->
  wp (connect_outcome fuel m) (reported m w) no_exn w.
Proof. intros Hlt Hne. eapply wp_mono; [..|by apply connect_outcome_tried with n]; [|done]. intros r w'. apply tried_reported. Qed.

(** C30. The task ends when fewer than [fuel] signals in a row interrupt poll.  Its calls are
    those of [tried]: an interrupted poll is repeated, and any other error, a timeout or
    an error of the socket is what the callback is told; the callback is called once,
    last, with a connected and open socket, or with an error after the socket was
    closed once. *)
Theorem connect_reports (fuel n : nat) (m : pack) (m_callback : Z) (w : world) :
  (n < fuel)%nat ->
  (forall tr fd, sys (interrupted tr fd (p_timeout_msec m) n) (PollOut fd (p_timeout_msec m)) <> SysErr EINTR) ->
  let done w' := exists fd err w1 a, made (tried m) w (fd, err) w1 /\ reported m w (fd, err) w1 /\
    w_trace w' = w_trace w1 ++ [Sys (Callback m_callback [fd; err]) a] in
  wp (connect_task fuel m m_callback) (fun _ => done) (fun e w' => e = UserException /\ done w') w.
Proof.
  intros Hlt Hne finished. unfold connect_task. wp_step.
  eapply wp_mono; [..|by apply (connect_outcome_tried fuel n)]; [|done].
  intros [fd err] w1 Hrep. wp_step. unfold call_client. wp_step. apply wp_syscall. intros a Ha.
  destruct a; repeat wp_step; [|split; [done|]]; (eexists fd, err, w1, _; split; [done|]; split; [by apply tried_reported|done]).
Qed.

(** The timeout in milliseconds is [-1], for ever, as soon as one of the two
    fields is zero; otherwise the seconds and a million times the nanoseconds
    are added, and the sum must fit an int. *)
Theorem connect_timeout (tv_sec tv_nsec : Z) (w : world) :
  timeout_msec (Some (tv_sec, tv_nsec)) w =
    if bool_decide (tv_sec = 0 \/ tv_nsec = 0) then Ret (-1) w
    else if bool_decide (- 2 ^ 31 <= tv_sec + tv_nsec * 10 ^ 6 < 2 ^ 31) then Ret (tv_sec + tv_nsec * 10 ^ 6) w
    else Undef.
Proof.
  unfold timeout_msec. repeat case_bool_decide; destruct (Z.eqb_spec tv_sec 0), (Z.eqb_spec tv_nsec 0); cbn [negb andb];
    try tauto; destruct (Z.leb_spec (- 2 ^ 31) (tv_sec + tv_nsec * 10 ^ 6)),
      (Z.ltb_spec (tv_sec + tv_nsec * 10 ^ 6) (2 ^ 31)); cbn [andb]; tauto || lia.
Qed.

(** A timeout of a whole number of seconds is no timeout: the task waits for ever. *)
Theorem connect_whole_seconds (n : Z) (family type protocol : Z) (addr : list Z) (w : world) :
  0 <= n < 1000 -> zlen addr < 2 ^ 32 ->
  wp (timeout ← sec2spec (double_of_Z n); connect_task_new family type protocol addr (Some timeout))
    (fun m _ => m = Pack family type protocol (-1) addr) (fun e _ => e = BadAlloc) w.
Proof.
  intros Hn Ha. wp_step. unfold wp at 1. rewrite sec2spec_whole by done. unfold connect_task_new.
  wp_step. apply wp_can_alloc; [unfold sizeof_pack; rewrite wrap64_small by lia; lia|].
  destruct (default true _); cbn [negb]; [|by wp_step].
  wp_step. unfold timeout_msec. change (0 =? 0) with true. rewrite andb_false_r. by repeat wp_step.
Qed.
End Properties.

(** A socket that connects after poll was interrupted twice, and one refused by the peer. *)
Definition connecting_os (so_error : Z) : Os := {|
  sys := fun tr r =>
    match r with
    | Socket _ _ _ => SysOk 5 []
    | Connect _ _ => SysErr EINPROGRESS
    | PollOut _ _ => if calls r tr <? 2 then SysErr EINTR else SysOk 1 []
    | SockError _ => SysOk 0 [so_error]
    | _ => SysOk 0 []
    end;
  memcpy_may_overlap := true
|}.

Definition sample_pack : pack := Pack 2 1 0 (-1) [127; 0; 0; 1].

Lemma connecting_interrupted so_error tr fd msec :
  sys (Os := connecting_os so_error) (interrupted tr fd msec 2) (PollOut fd msec) <> SysErr EINTR.
Proof.
  cbn [sys connecting_os]. unfold interrupted. rewrite calls_app.
  assert (calls (PollOut fd msec) (replicate 2 (Sys (PollOut fd msec) (SysErr EINTR))) = 2) as ->.
  { change (replicate 2 ?x) with ([x] ++ [x]). by rewrite calls_app, !calls_one. }
  pose proof (countb_range (is_call (PollOut fd msec)) tr). unfold calls.
  destruct (Z.ltb_spec (countb (is_call (PollOut fd msec)) tr + 2) 2); [lia|done].
Qed.

Definition connect_args (so_error : Z) : option (list Z) :=
  match connect_task (OS := connecting_os so_error) 3 sample_pack 7 (World [] []) with
  | Ret _ w => match list.head (reverse (w_trace w)) with Some (Sys (Callback _ args) _) => Some args | _ => None end
  | _ => None
  end.

Lemma connect_reports_witness :
  connect_args 0 = Some [5; 0] /\ connect_args 111 = Some [-1; 111] /\
  exists w', connect_task (OS := connecting_os 0) 3 sample_pack 7 (World [] []) = Ret tt w' /\
    exists fd err w1 a, made (tried sample_pack) (World [] []) (fd, err) w1 /\ reported sample_pack (World [] []) (fd, err) w1 /\
      w_trace w' = w_trace w1 ++ [Sys (Callback 7 [fd; err]) a].
Proof.
  split; [by vm_compute|]. split; [by vm_compute|].
  pose proof (connect_reports (OS := connecting_os 0) 3 2 sample_pack 7 (World [] [])
    ltac:(lia) (fun tr fd => connecting_interrupted 0 tr fd (-1))) as H.
  unfold wp in H. destruct (connect_task _ _ _ _) as [[] w'|e w'| |] eqn:Hrun; [|exfalso..].
  - by exists w'.
  - by vm_compute in Hrun.
  - done.
  - done.
Defined.

Lemma connect_whole_seconds_witness :
  wp (timeout ← sec2spec (double_of_Z 5); connect_task_new 2 1 0 [127; 0; 0; 1] (Some timeout))
    (fun m _ => m = Pack 2 1 0 (-1) [127; 0; 0; 1]) (fun e _ => e = BadAlloc) (World [] []).
Proof. apply connect_whole_seconds; simpl; lia. Defined.

(** Five and a half seconds do not fit. *)
Lemma connect_five_and_a_half :
  match (timeout ← sec2spec (S754_finite false (11 * 2 ^ 49) (-50)); timeout_msec (Some timeout)) (World [] []) with
  | Undef => true
  | _ => false
  end = true.
Proof. by vm_compute. Qed.
