(* ===== verification/Listen.v ===== *)
(** * Listening (src/mpsrc/wavy_listen.cc)

    [loop::listen] makes a listening socket and registers a handler for it; the
    handler accepts the pending connections and gives each one to the callback
    of the client. *)

From Stdlib Require Import ZArith Lia.
From stdpp Require Import base tactics option list numbers.
From S2P Require Import Prelude Os Kernel KernelEpoll Out Loop.

Definition SOL_SOCKET : Z := 1.
Definition SO_REUSEADDR : Z := 2.
Definition sizeof_listen_handler : Z := 72.
Definition sizeof_counted : Z := 24.      (* the counts of a shared_ptr *)

Section Handler.
Context {OS : Os}.

(** [handler::~handler()] *)
Definition handler_delete (fd : Z) : M world unit := _ ← syscall (Close fd); mret tt.

(** [handler::callback_on_read]: such a handler is always continued. *)
Definition callback_on_read (on_read : M world unit) : M world bool := _ ← on_read; mret true.

(** [listen_handler::on_read]; an error of accept(2) is reported to the callback
    and thrown, with the errno that the callback left (what it stored). *)
Fixpoint on_read (fuel : nat) (fd m_callback : Z) : M world unit :=
  match fuel with
  | O => diverge
  | S fuel =>
      sock ← syscall (Accept fd);
      match sock with
      | SysErr e =>
          if would_retry e then mret tt
          else
            r ← syscall (Callback m_callback [-1; errno_code e]);
            match r with
            | SysErr _ => throw UserException
            | SysOk _ out => throw (SystemError (default (errno_code e) (head out)))
            end
      | SysOk sock _ =>
          _ ← catch (_ ← call_client m_callback [sock; 0]; mret tt)
                (fun _ => _ ← syscall (Close sock); mret tt);
          on_read fuel fd m_callback
      end
  end.
End Handler.

Section Listen.
Context {OS : Os} {K : Kernel OS}.

(** [add_handler<Handler>(fd, ...)], of [size] bytes: a handler whose shared_ptr cannot be made, or
    that cannot be registered, is destroyed. *)
Definition add_handler (size fd h : Z) : M (loop * world) unit :=
  ok ← in_world (can_alloc size);
  if negb ok then throw BadAlloc else
  ok ← in_world (can_alloc sizeof_counted);
  if negb ok then _ ← in_world (handler_delete fd); throw BadAlloc else
  catch (add_handler_impl fd h) (fun e => _ ← in_world (handler_delete fd); throw e).

(** [::close(lsock); throw system_error(errno, ...)] *)
Definition close_and_throw (lsock : Z) (e : errno) : M (loop * world) Z :=
  a ← in_world (syscall (Close lsock)); throw (SystemError (errno_code (errno_after e a))).

Definition loop_listen (family type protocol : Z) (addr : list Z) (backlog h : Z) : M (loop * world) Z :=
  r ← in_world (syscall (Socket family type protocol));
  match r with
  | SysErr e => throw (SystemError (errno_code e))
  | SysOk lsock _ =>
      r ← in_world (syscall (Setsockopt lsock SOL_SOCKET SO_REUSEADDR [1]));
      match r with
      | SysErr e => close_and_throw lsock e
      | SysOk _ _ =>
          r ← in_world (syscall (Bind lsock addr));
          match r with
          | SysErr e => close_and_throw lsock e
          | SysOk _ _ =>
              r ← in_world (syscall (Listen lsock backlog));
              match r with
              | SysErr e => close_and_throw lsock e
              | SysOk _ _ =>
                  _ ← catch (add_handler sizeof_listen_handler lsock h)
                        (fun e => _ ← in_world (syscall (Close lsock)); throw e);
                  mret lsock
              end
          end
      end
  end.
End Listen.

(** ** The accept loop *)

(** Connections accepted and given to the callback: one that the callback
    refuses with an exception is closed. *)
Inductive served (fd m_callback : Z) : trace -> Prop :=
| served_nil : served fd m_callback []
| served_kept sock out n o tr :
    served fd m_callback tr ->
    served fd m_callback (Sys (Accept fd) (SysOk sock out) :: Sys (Callback m_callback [sock; 0]) (SysOk n o) :: tr)
| served_closed sock out e a tr :
    served fd m_callback tr ->
    served fd m_callback (Sys (Accept fd) (SysOk sock out) :: Sys (Callback m_callback [sock; 0]) (SysErr e) ::
      Sys (Close sock) a :: tr).

(** At most [n] connections are accepted before accept(2) fails. *)
Definition drains {OS : Os} (n : Z) (fd : Z) : Prop :=
  forall tr, n <= calls (Accept fd) tr -> is_err (sys tr (Accept fd)) = true.

Section Accept.
Context {OS : Os}.

(** What [on_read] adds to the trace before the last call of accept(2). *)
Definition accepted (fd m_callback : Z) (w : world) (rest : trace) (w' : world) : Prop :=
  exists tr, w_trace w' = w_trace w ++ tr ++ rest /\ served fd m_callback tr.

Lemma accepted_more fd m_callback w evs rest w' :
  (forall tr, served fd m_callback tr -> served fd m_callback (evs ++ tr)) ->
  accepted fd m_callback (World (w_trace w ++ evs) (w_alloc w)) rest w' -> accepted fd m_callback w rest w'.
Proof.
  intros Hs (tr & Htr & H). exists (evs ++ tr). split; [|by apply Hs].
  cbn [w_trace] in Htr. by rewrite Htr, <-!app_assoc.
Qed.

(** The outcomes of [on_read]: no connection is left, or accept(2) failed. *)
Definition read_done fd m_callback w (w' : world) : Prop :=
  exists e, would_retry e = true /\ accepted fd m_callback w [Sys (Accept fd) (SysErr e)] w'.

Definition read_failed fd m_callback w (ex : exn) (w' : world) : Prop :=
  exists e a, would_retry e = false /\
    accepted fd m_callback w [Sys (Accept fd) (SysErr e); Sys (Callback m_callback [-1; errno_code e]) a] w' /\
    ex = match a with
         | SysErr _ => UserException
         | SysOk _ out => SystemError (default (errno_code e) (head out))
         end.

Lemma wp_on_read_more fuel fd m_callback w evs w1 :
  (forall tr, served fd m_callback tr -> served fd m_callback (evs ++ tr)) ->
  w1 = World (w_trace w ++ evs) (w_alloc w) ->
  wp (on_read fuel fd m_callback) (fun _ => read_done fd m_callback w1) (read_failed fd m_callback w1) w1 ->
  wp (on_read fuel fd m_callback) (fun _ => read_done fd m_callback w) (read_failed fd m_callback w) w1.
Proof.
  intros Hs ->. apply wp_mono.
  - intros [] w' (e & He & H). exists e. split; [done|]. by eapply accepted_more.
  - intros ex w' (e & a & He & H & Hex). exists e, a. split; [done|]. split; [|done]. by eapply accepted_more.
Qed.

Lemma on_read_serves n fuel fd m_callback w :
  drains n fd -> Z.max 0 (n - calls (Accept fd) (w_trace w)) < Z.of_nat fuel ->
  wp (on_read fuel fd m_callback) (fun _ => read_done fd m_callback w) (read_failed fd m_callback w) w.
Proof.
  intros Hdr. revert w. induction fuel as [|fuel IH]; intros w Hn; [lia|]. cbn [on_read].
  wp_step. apply wp_syscall. intros a Ha. destruct a as [sock out|e].
  - assert (calls (Accept fd) (w_trace w) < n) as Hlt.
    { apply Z.nle_gt. intros Hle. specialize (Hdr _ Hle). by rewrite <-Ha in Hdr. }
    wp_step. wp_step. wp_step. unfold call_client. wp_step. apply wp_syscall. intros b _.
    destruct b as [k o|e]; wp_step.
    + wp_step. eapply (wp_on_read_more _ _ _ _ [_; _]); [intros tr; by apply served_kept| |apply IH].
      * cbn [w_trace w_alloc]. by rewrite <-app_assoc.
      * cbn [w_trace]. rewrite !calls_app, calls_one, calls_other by done. lia.
    + wp_step. apply wp_syscall. intros c _. wp_step.
      eapply (wp_on_read_more _ _ _ _ [_; _; _]); [intros tr; by apply served_closed| |apply IH].
      * cbn [w_trace w_alloc]. by rewrite <-!app_assoc.
      * cbn [w_trace]. rewrite !calls_app, calls_one, !calls_other by done. lia.
  - destruct (would_retry e) eqn:He.
    + wp_step. exists e. split; [done|]. exists []. split; [done|constructor].
    + wp_step. apply wp_syscall. intros b _. destruct b as [k o|e']; wp_step; eexists e, _; (split; [done|]);
        (split; [exists []; split; [cbn [w_trace]; by rewrite <-app_assoc|constructor]|reflexivity]).
Qed.

(** Every accepted connection is given to the callback once, and closed exactly
    if the callback throws; the handler returns when no connection is left, and
    throws after it reported any other error of accept(2). *)
Theorem accept_serves (n : Z) (fuel : nat) (fd m_callback : Z) (w : world) :
  drains n fd -> 0 <= n < Z.of_nat fuel ->
  wp (on_read fuel fd m_callback) (fun _ => read_done fd m_callback w) (read_failed fd m_callback w) w.
Proof.
  intros Hdr Hn. apply on_read_serves with n; [done|].
  pose proof (countb_range (is_call (Accept fd)) (w_trace w)). unfold calls. lia.
Qed.
End Accept.

(** ** The listening socket *)

Section Socket.
Context {OS : Os}.

Abbreviation lst := (loop * world)%type.

Context (l : loop) (family type protocol : Z) (addr : list Z) (backlog h : Z).

(** [loop::listen] returned: the socket listens, is open, and has the handler. *)
Definition listening (w : world) (lsock : Z) (st' : lst) : Prop :=
  fst st' = set_state (<[Z.to_nat lsock := Some h]> (m_state l)) l /\
  exists tr, w_trace (snd st') = w_trace w ++ tr /\ calls (Close lsock) tr = 0 /\
    exists n out, Sys (Listen lsock backlog) (SysOk n out) ∈ tr.

(** It threw: nothing is registered, and the socket, if there was one, was closed;
    [destroyed] tells that a handler was made for it and destroyed. *)
Definition not_listening (w : world) (e : exn) (st' : lst) : Prop :=
  fst st' = l /\
  exists a tr, w_trace (snd st') = w_trace w ++ Sys (Socket family type protocol) a :: tr /\
    match a with
    | SysErr e' => e = SystemError (errno_code e') /\ tr = []
    | SysOk lsock _ =>
        exists destroyed, calls (Close lsock) tr = (if destroyed : bool then 2 else 1) /\
          (destroyed = true <->
            (exists e', Sys (SetNonblock lsock) (SysErr e') ∈ tr) \/
            (e = BadAlloc /\ default true (head (w_alloc w)) = true))
    end.

Lemma close_and_throw_fails w w1 lsock out tr e Q :
  w_trace w1 = w_trace w ++ Sys (Socket family type protocol) (SysOk lsock out) :: tr ->
  calls (Close lsock) tr = 0 -> (forall e', Sys (SetNonblock lsock) (SysErr e') ∉ tr) ->
  wp (close_and_throw lsock e) Q (not_listening w) (l, w1).
Proof.
  intros Htr Hc Hn. unfold close_and_throw. repeat loop_step. apply wp_syscall. intros a _. repeat loop_step.
  split; [done|]. eexists _, (tr ++ [Sys (Close lsock) a]). split; [by simpl; rewrite Htr, <-app_assoc|]. simpl.
  exists false. split; [by count_calls|]. split; [done|]. intros [(e' & Hin)|[? _]]; [|done].
  apply elem_of_app in Hin as [Hin|Hin]; [by destruct (Hn _ Hin)|]. apply list_elem_of_singleton in Hin. done.
Qed.

(** A handler for a listening socket: added, or destroyed if it was made. *)
Lemma add_handler_fails w1 lsock :
  table_range l lsock ->
  wp (add_handler (K := epoll_kernel OS) sizeof_listen_handler lsock h)
    (fun _ st' => fst st' = set_state (<[Z.to_nat lsock := Some h]> (m_state l)) l /\
      exists tr, w_trace (snd st') = w_trace w1 ++ tr /\ calls (Close lsock) tr = 0)
    (fun e st' => fst st' = l /\ exists tr destroyed, w_trace (snd st') = w_trace w1 ++ tr /\
      calls (Close lsock) tr = (if destroyed : bool then 1 else 0) /\
      (destroyed = true <-> (exists e', Sys (SetNonblock lsock) (SysErr e') ∈ tr) \/
        (e = BadAlloc /\ default true (head (w_alloc w1)) = true))) (l, w1).
Proof.
  intros Hr. unfold add_handler. repeat loop_step. apply wp_can_alloc; [done|]. destruct (default true _) eqn:Ha; simpl.
  2:{ repeat loop_step. split; [done|]. exists [], false. rewrite app_nil_r. split_and!; [done..|].
      split; [done|]. intros [(e' & Hin)|[_ ?]]; [by apply not_elem_of_nil in Hin|done]. }
  repeat loop_step. apply wp_can_alloc; [done|]. match goal with |- context [negb ?b] => destruct b end; simpl.
  2:{ unfold handler_delete. repeat loop_step. apply wp_syscall. intros a _. repeat loop_step. split; [done|].
      eexists _, true. split; [reflexivity|]. split; [by count_calls|]. split; [by right|done]. }
  unfold add_handler_impl. repeat loop_step. apply wp_syscall. intros a _. destruct a as [n out|e].
  - loop_step. unfold wp at 1. rewrite set_handler_run by done. repeat loop_step.
    unfold epoll_add_fd. apply wp_syscall. intros a _. repeat loop_step. split; [done|].
    eexists. split; [by rewrite <-app_assoc|]. by count_calls.
  - unfold handler_delete. repeat loop_step. apply wp_syscall. intros a _. repeat loop_step. split; [done|].
    eexists _, true. split; [by rewrite <-app_assoc|]. split; [by count_calls|]. split; [|done]. intros _. left.
    exists e. by left.
Qed.
(** C31. [loop::listen] returns an open socket that listens and has its handler, or
    throws and leaves the loop as it was.  A socket is not leaked, but if fcntl
    fails, or the shared_ptr of the handler cannot be made, it is closed by the
    handler and then once more. *)
Theorem listen_outcome (w : world) :
  (forall tr n out, sys tr (Socket family type protocol) = SysOk n out -> table_range l n) ->
  wp (loop_listen (K := epoll_kernel OS) family type protocol addr backlog h)
    (listening w) (not_listening w) (l, w).
Proof.
  intros Hsock. unfold loop_listen. repeat loop_step. apply wp_syscall. intros a Ha.
  destruct a as [lsock out|e]; [|repeat loop_step; split; [done|]; by exists (SysErr e), []].
  specialize (Hsock _ _ _ (eq_sym Ha)). clear Ha.
  do 3 (repeat loop_step; apply wp_syscall; intros a _; destruct a as [? ?|e];
    [|eapply close_and_throw_fails; [simpl; by rewrite <-?app_assoc|by count_calls|];
      by (intros e'; rewrite ?elem_of_app, ?list_elem_of_singleton, ?elem_of_cons, ?elem_of_nil; intuition congruence)]).
  repeat loop_step. eapply wp_mono; [..|apply add_handler_fails; done].
  - intros [] [l' w'] (Hl & tr & Htr & Hc). repeat loop_step. split; [done|].
    eexists. split; [simpl in *; rewrite Htr, <-!app_assoc; reflexivity|]. split; [by count_calls|].
    eexists _, _. simpl. do 3 right. by left.
  - intros e [l' w'] (Hl & tr & b & Htr & Hc & Hb). repeat loop_step. apply wp_syscall. intros a _. repeat loop_step.
    split; [done|]. eexists _, _. split; [simpl in *; rewrite Htr, <-!app_assoc; reflexivity|]. simpl.
    exists b. split; [count_calls; destruct b; lia|]. rewrite Hb. clear Hb. split; (intros [(e' & Hin)|?]; [left; exists e'|by right]).
    + rewrite !elem_of_cons, elem_of_app. auto.
    + rewrite !elem_of_cons, elem_of_app, list_elem_of_singleton in Hin. intuition congruence.
Qed.
End Socket.

(** ** On concrete environments *)

(** Two pending connections. *)
Definition two_pending : Os := {|
  sys := fun tr r =>
    match r with
    | Accept fd => if calls r tr <? 2 then SysOk (10 + calls r tr) [] else SysErr EAGAIN
    | Callback _ [sock; _] => if sock =? 11 then SysErr (EOTHER 1) else SysOk 0 []
    | _ => SysOk 0 []
    end;
  memcpy_may_overlap := true
|}.

Lemma two_pending_drains fd : drains (OS := two_pending) 2 fd.
Proof. intros tr Hle. cbn [sys two_pending]. destruct (Z.ltb_spec (calls (Accept fd) tr) 2); [lia|done]. Qed.

Definition accept_run : trace :=
  match on_read (OS := two_pending) 3 4 7 (World [] []) with Ret _ w => w_trace w | _ => [] end.

Lemma accept_serves_witness :
  accept_run = [Sys (Accept 4) (SysOk 10 []); Sys (Callback 7 [10; 0]) (SysOk 0 []);
                Sys (Accept 4) (SysOk 11 []); Sys (Callback 7 [11; 0]) (SysErr (EOTHER 1)); Sys (Close 11) (SysOk 0 []);
                Sys (Accept 4) (SysErr EAGAIN)] /\
  wp (on_read (OS := two_pending) 3 4 7) (fun _ => read_done 4 7 (World [] []))
    (read_failed 4 7 (World [] [])) (World [] []).
Proof. split; [by vm_compute|]. apply (accept_serves (OS := two_pending) 2); [apply two_pending_drains|lia]. Defined.

(** A system whose sockets are numbered 5; [fcntl_fails] makes fcntl fail. *)
Definition socket_os (fcntl_fails : bool) : Os := {|
  sys := fun tr r =>
    match r with
    | Socket _ _ _ => SysOk 5 []
    | SetNonblock _ => if fcntl_fails then SysErr (EOTHER 9) else SysOk 0 []
    | _ => SysOk 0 []
    end;
  memcpy_may_overlap := true
|}.

Definition listen_loop (fcntl_fails : bool) : loop :=
  empty_loop (OS := socket_os fcntl_fails) (K := epoll_kernel _) 3 4.

Definition listen_run (fcntl_fails : bool) : option (option Z * list (option Z) * Z) :=
  match loop_listen (OS := socket_os fcntl_fails) (K := epoll_kernel _) 2 1 0 [0] 128 7
          (listen_loop fcntl_fails, World [] []) with
  | Ret s (l, w) => Some (Some s, m_state l, calls (Close 5) (w_trace w))
  | Throw _ (l, w) => Some (None, m_state l, calls (Close 5) (w_trace w))
  | _ => None
  end.

Lemma listen_outcome_witness :
  listen_run false = Some (Some 5, <[5%nat := Some 7]> (replicate 8 None), 0) /\
  listen_run true = Some (None, replicate 8 None, 2) /\
  wp (loop_listen (OS := socket_os true) (K := epoll_kernel _) 2 1 0 [0] 128 7)
    (listening (listen_loop true) 128 7 (World [] []))
    (not_listening (listen_loop true) 2 1 0 (World [] []))
    (listen_loop true, World [] []).
Proof.
  split; [by vm_compute|]. split; [by vm_compute|]. apply listen_outcome.
  intros tr n out Hs. cbn [sys socket_os] in Hs. injection Hs as <- _. unfold table_range. simpl. lia.
Defined.
