(* ===== verification/Dispatch.v ===== *)
(** * What a worker makes of an event (src/mp/wavy.hmpl, src/mpsrc/wavy_loop.cc)

    The handlers of the library, the accept loop of [listen], timers and signals,
    and those that clients derive from [handler], are called through
    [basic_handler::operator()], a comparison that saves the indirect call for the
    most common kind.  The file composes the loop's part that runs a handler
    ([Loop.run_handler]) with them and says what becomes of the descriptor in each
    case.  The [on_read] of a client is the client's code: calls of its own and, in any
    order, [more], [next] and [remove] on the event it is given. *)

From Stdlib Require Import ZArith Lia.
From stdpp Require Import base tactics option list numbers.
From S2P Require Import Prelude Os Kernel KernelEpoll Out OutProps Loop LoopThreads Timer Signal Listen.

(** ** Handlers *)

(** The classes derived from [basic_handler]. *)
Inductive impl : Type :=
| ListenImpl (callback : Z)       (* listen_handler *)
| ClientImpl (client : Z)         (* a client's class derived from handler *)
| TimerImpl (h : timer_handler)
| SignalImpl (h : signal_handler).

(** The function pointer: [&handler::callback_on_read] or [&static_callback<IMPL>]. *)
Inductive callback_t : Type := CallbackOnRead | StaticCallback.

#[export] Instance callback_t_eq_dec : EqDecision callback_t.
Proof. solve_decision. Defined.

Record basic_handler := BasicHandler {
  m_ident : Z;
  m_callback : callback_t;
  self : impl
}.

(** [handler(fd)], and the constructor that takes [this]. *)
Definition handler_new (fd : Z) (i : impl) : basic_handler := BasicHandler fd CallbackOnRead i.
Definition basic_handler_new (ident : Z) (i : impl) : basic_handler := BasicHandler ident StaticCallback i.

(** The classes derived from [handler] use the first. *)
Definition is_handler (i : impl) : bool := match i with ListenImpl _ | ClientImpl _ => true | _ => false end.
Definition well_made (h : basic_handler) : Prop :=
  h = (if is_handler (self h) then handler_new else basic_handler_new) (m_ident h) (self h).

(** What a client's [on_read] consists of. *)
Inductive client_op : Type :=
| CallOut                  (* code of the client; it may throw *)
| Act (a : action).        (* e.more(), e.next(), e.remove() *)

Section Dispatch.
Context {OS : Os}.

Abbreviation elt := (@loop OS (epoll_kernel OS)).
Abbreviation evt := (@event_impl OS (epoll_kernel OS)).
Abbreviation lst := (elt * world)%type.
Abbreviation hst := (lst * evt)%type.

(** Turns of the accept loop. *)
Variable fuel : nat.

(** What the [on_read] of a client does, which depends on all that happened before. *)
Variable on_read_ops : Z -> trace -> list client_op.

Definition in_os {A} (m : M world A) : M hst A := zoom (fun s => snd (fst s)) (fun w s => (fst (fst s), w, snd s)) m.

Definition act (a : action) : M hst unit := fun s =>
  match run_action a (snd s) (fst s) with
  | Ret (e, _) st => Ret tt (st, e)
  | Throw x st => Throw x (st, snd s)
  | Undef => Undef
  | Diverge => Diverge
  end.

Fixpoint client_run (client fd : Z) (ops : list client_op) : M hst unit :=
  match ops with
  | [] => mret tt
  | CallOut :: ops => _ ← in_os (call_client client [fd]); client_run client fd ops
  | Act a :: ops => _ ← act a; client_run client fd ops
  end.

(** [handler::callback_on_read]: the virtual [on_read], and true. *)
Definition handler_on_read (h : basic_handler) : M hst bool :=
  _ ← match self h with
      | ListenImpl callback => in_os (Listen.on_read fuel (m_ident h) callback)
      | ClientImpl client => s ← get; client_run client (m_ident h) (on_read_ops client (w_trace (snd (fst s))))
      | _ => undef
      end;
  mret true.

(** [basic_handler::static_callback<IMPL>]: the class's own [operator()]. *)
Definition static_callback (h : basic_handler) : M hst bool :=
  s ← get;
  match self h with
  | TimerImpl t => in_os (timer_handler_call t (m_pe (snd s)))
  | SignalImpl g => in_os (signal_handler_call g (m_pe (snd s)))
  | _ => undef
  end.

(** The indirect call. *)
Definition call_callback (c : callback_t) (h : basic_handler) : M hst bool :=
  match c with CallbackOnRead => handler_on_read h | StaticCallback => static_callback h end.

(** [basic_handler::operator()] *)
Definition call_handler (h : basic_handler) : M hst bool :=
  if decide (m_callback h = CallbackOnRead) then handler_on_read h
  else call_callback (m_callback h) h.

Lemma call_handler_indirect h : call_handler h = call_callback (m_callback h) h.
Proof. unfold call_handler. case_decide as H; [by rewrite H|done]. Qed.

(** The objects of the numbers in the table. *)
Variable objects : Z -> option basic_handler.

Definition call_object (n : Z) : M hst bool :=
  match objects n with Some h => call_handler h | None => undef end.

(** ** What each handler does with an event, and whether it goes on *)

(** The handlers of the library leave the event alone. *)
Inductive ran (e : Z) : basic_handler -> trace -> bool -> Prop :=
| ran_timer id t a n o :
    ran e (basic_handler_new id (TimerImpl t))
      [Sys (Read (ev_ident e) 8) a; Sys (Callback (Timer.m_callback t) []) (SysOk n o)] (negb (n =? 0) && m_periodic t)
| ran_timer_throws id t a x :
    ran e (basic_handler_new id (TimerImpl t))
      [Sys (Read (ev_ident e) 8) a; Sys (Callback (Timer.m_callback t) []) (SysErr x)] false
| ran_signal id s a n o :
    ran e (basic_handler_new id (SignalImpl s))
      [Sys (Read (ev_ident e) sizeof_signalfd_siginfo) a; Sys (Callback (sg_callback s) []) (SysOk n o)] (negb (n =? 0))
| ran_signal_throws id s a x :
    ran e (basic_handler_new id (SignalImpl s))
      [Sys (Read (ev_ident e) sizeof_signalfd_siginfo) a; Sys (Callback (sg_callback s) []) (SysErr x)] false
| ran_accept fd k tr x :
    served fd k tr -> would_retry x = true -> ran e (handler_new fd (ListenImpl k)) (tr ++ [Sys (Accept fd) (SysErr x)]) true
| ran_accept_fails fd k tr x a :
    served fd k tr -> would_retry x = false ->
    ran e (handler_new fd (ListenImpl k)) (tr ++ [Sys (Accept fd) (SysErr x); Sys (Callback k [-1; errno_code x]) a]) false.

Definition entry_emptied (ident : Z) (l : elt) : elt := set_state (<[Z.to_nat ident := None]> (m_state l)) l.

Definition flagged (f : Z) (e : evt) : evt := EventImpl (Z.lor (m_flags e) f) (m_pe e).

(** An action that was made before does nothing. *)
Definition spent (a : action) (e : evt) : bool := match a with ActRemove => is_removed e | _ => is_reactivated e end.

(** A client's [on_read]: from the loop and the event it is given to those it leaves,
    its calls, and whether it returned. *)
Inductive client_ran (k fd : Z) : list client_op -> elt -> evt -> trace -> elt -> evt -> bool -> Prop :=
| cr_done l e : client_ran k fd [] l e [] l e true
| cr_call ops l e n o tr l' e' b :
    client_ran k fd ops l e tr l' e' b -> client_ran k fd (CallOut :: ops) l e (Sys (Callback k [fd]) (SysOk n o) :: tr) l' e' b
| cr_throw ops l e x : client_ran k fd (CallOut :: ops) l e [Sys (Callback k [fd]) (SysErr x)] l e false
| cr_more ops l e tr l' e' b :
    is_reactivated e = false -> client_ran k fd ops (set_more (m_more_queue l ++ [m_pe e]) l) (flagged 1 e) tr l' e' b ->
    client_ran k fd (Act ActMore :: ops) l e tr l' e' b
| cr_next ops l e a tr l' e' b :
    is_reactivated e = false -> client_ran k fd ops l (flagged FLAG_REACTIVATED e) tr l' e' b ->
    client_ran k fd (Act ActNext :: ops) l e
      (Sys (EpollMod (m_lkernel l) (ev_ident (m_pe e)) (ev_events (m_pe e)) (m_pe e)) a :: tr) l' e' b
| cr_remove ops l e a tr l' e' b :
    is_removed e = false -> client_ran k fd ops (entry_emptied (ev_ident (m_pe e)) l) (flagged FLAG_REMOVED e) tr l' e' b ->
    client_ran k fd (Act ActRemove :: ops) l e (Sys (EpollDel (m_lkernel l) (ev_ident (m_pe e))) a :: tr) l' e' b
| cr_spent a ops l e tr l' e' b :
    spent a e = true -> client_ran k fd ops l e tr l' e' b -> client_ran k fd (Act a :: ops) l e tr l' e' b.

(** A handler run for the event [ke], in the loop [l] after [tr0]. *)
Inductive handled (ke : Z) (l : elt) (tr0 : trace) (h : basic_handler) : trace -> elt -> evt -> bool -> Prop :=
| handled_own tr b : ran ke h tr b -> handled ke l tr0 h tr l (EventImpl 0 ke) b
| handled_client k tr l' e b :
    self h = ClientImpl k -> client_ran k (m_ident h) (on_read_ops k tr0) l (EventImpl 0 ke) tr l' e b ->
    handled ke l tr0 h tr l' e b.

(** What the worker does then: nothing when the event was handed on or the descriptor
    removed; else the descriptor is registered again, or given up. *)
Definition ended (l : elt) (e : evt) (b : bool) (tr : trace) (l' : elt) : Prop :=
  if is_reactivated e || is_removed e then tr = [] /\ l' = l
  else if b then l' = l /\ exists a, tr = [Sys (EpollMod (m_lkernel l) (ev_ident (m_pe e)) (ev_events (m_pe e)) (m_pe e)) a]
  else l' = entry_emptied (ev_ident (m_pe e)) l /\ exists a, tr = [Sys (EpollDel (m_lkernel l) (ev_ident (m_pe e))) a].

(** ** Proofs *)

Lemma wp_in_os {A} (m : M world A) (s : hst) (Q : A -> hst -> Prop) E :
  wp m (fun a w => Q a (fst (fst s), w, snd s)) (fun x w => E x (fst (fst s), w, snd s)) (snd (fst s)) -> wp (in_os m) Q E s.
Proof. intros H. by apply wp_zoom. Qed.

Lemma wp_act a (s : hst) (Q : unit -> hst -> Prop) :
  wp (run_action a (snd s)) (fun r st => Q tt (st, fst r)) no_exn (fst s) -> wp (act a) Q no_exn s.
Proof. unfold wp, act, no_exn. by destruct (run_action a (snd s) (fst s)) as [[e b] st| | |]. Qed.

Definition after (w : world) (P : trace -> elt -> evt -> bool -> Prop) (b : bool) (s : hst) : Prop :=
  exists tr, w_trace (snd (fst s)) = w_trace w ++ tr /\ P tr (fst (fst s)) (snd s) b.

Lemma after_more w w' (P P' : trace -> elt -> evt -> bool -> Prop) tr1 b s :
  w_trace w' = w_trace w ++ tr1 -> (forall tr l e, P' tr l e b -> P (tr1 ++ tr) l e b) -> after w' P' b s -> after w P b s.
Proof. intros Hw HP (tr & Htr & H). exists (tr1 ++ tr). split; [by rewrite Htr, Hw, app_assoc|]. by apply HP. Qed.

Definition flag_of (a : action) : Z := match a with ActRemove => FLAG_REMOVED | _ => 1 end.

(** An action that was not made before. *)
Lemma act_run k fd a (l : elt) (w : world) (e : evt) :
  table_range l (ev_ident (m_pe e)) -> spent a e = false ->
  exists evs l1, act a (l, w, e) = Ret tt (l1, World (w_trace w ++ evs) (w_alloc w), flagged (flag_of a) e) /\
    table_range l1 (ev_ident (m_pe e)) /\
    forall ops tr l' e' b, client_ran k fd ops l1 (flagged (flag_of a) e) tr l' e' b -> client_ran k fd (Act a :: ops) l e (evs ++ tr) l' e' b.
Proof.
  intros Hr Hs. unfold act, run_action, more, next_event, remove_event. cbn [fst snd].
  destruct a; simpl in Hs; rewrite Hs; cbn [negb].
  - exists [], (set_more (m_more_queue l ++ [m_pe e]) l). rewrite app_nil_r. split; [by destruct w|]. split; [done|].
    intros ops tr l' e' b. by apply cr_more.
  - eexists [_], l. split; [reflexivity|]. split; [done|]. intros ops tr l' e' b. by apply cr_next.
  - eexists [_], (entry_emptied (ev_ident (m_pe e)) l). split; [|split].
    + unfold event_remove, mbind, M_bind, get_loop, mbind, M_bind, get, mret, M_ret, in_world, zoom, remove, epoll_kernel, epoll_remove, syscall.
      cbn [fst snd]. cbn [event_ident epoll_kernel]. by rewrite reset_handler_run.
    + unfold table_range, entry_emptied. cbn [set_state m_state]. by rewrite length_insert.
    + intros ops tr l' e' b. by apply cr_remove.
Qed.

(** At most [n] connections are ever pending on a listening socket. *)
Definition serves (n : Z) (h : basic_handler) : Prop := forall k, self h = ListenImpl k -> drains n (m_ident h).

(** The code of a client does what [client_ran] says. *)
Lemma client_run_ran k fd ops (l : elt) (w : world) (e : evt) :
  table_range l (ev_ident (m_pe e)) ->
  let P tr l' e' b := client_ran k fd ops l e tr l' e' b /\ table_range l' (ev_ident (m_pe e)) /\ m_pe e' = m_pe e in
  wp (client_run k fd ops) (fun _ s => after w P true s) (fun _ s => after w P false s) (l, w, e).
Proof.
  revert l w e. induction ops as [|[|a] ops IH]; intros l w e Hr P; cbn [client_run].
  - wp_step. exists []. rewrite app_nil_r. split; [done|]. cbn [fst snd]. split; [constructor|done].
  - wp_step. apply wp_in_os. unfold call_client. wp_step. apply wp_syscall. intros a _. cbn [fst snd].
    destruct a as [n o|x]; wp_step.
    + eapply wp_mono; [..|by apply (IH l)]; intros ? s; eapply after_more; try reflexivity; intros tr l' e' [? ?];
        (split; [by constructor|done]).
    + eexists. cbn [fst snd w_trace]. split; [reflexivity|]. split; [constructor|done].
  - wp_step. destruct (spent a e) eqn:Hs.
    + assert (act a (l, w, e) = Ret tt (l, w, e)) as Hrun.
      { unfold act, run_action, more, next_event, remove_event. cbn [fst snd]. destruct a; simpl in Hs; by rewrite Hs. }
      unfold wp at 1. rewrite Hrun. eapply wp_mono; [..|by apply (IH l)]; intros ? s; eapply (after_more _ _ _ _ []); rewrite ?app_nil_r; try done;
        intros tr l' e' [? ?]; (split; [by apply cr_spent|done]).
    + destruct (act_run k fd a l w e Hr Hs) as (evs & l1 & Hrun & Hr1 & Hran). unfold wp at 1. rewrite Hrun.
      eapply wp_mono; [..|by apply (IH l1)]; intros ? s; eapply after_more; try reflexivity; intros tr l' e' [? ?];
        (split; [by apply Hran|done]).
Qed.

(** The handlers of the library. *)
Lemma own_handler_runs (h : basic_handler) (ke : Z) (l : elt) (w : world) (n : Z) :
  well_made h -> (forall k, self h <> ClientImpl k) -> serves n h -> 0 <= n < Z.of_nat fuel ->
  let P tr l' e' b := ran ke h tr b /\ l' = l /\ e' = EventImpl 0 ke in
  wp (call_handler h) (fun b s => after w P b s) (fun _ s => after w P false s) (l, w, EventImpl 0 ke).
Proof.
  intros Hw Hcl Hdr Hn P. rewrite call_handler_indirect. destruct h as [id c i]. unfold well_made in Hw. simpl in *.
  destruct i as [k|k|t|s]; simpl in Hw; injection Hw as ->; cbn [call_callback m_callback]; [|by destruct (Hcl k)|..].
  - unfold handler_on_read. cbn [self m_ident]. wp_step. apply wp_in_os. cbn [fst snd].
    pose proof (countb_range (is_call (Accept id)) (w_trace w)) as Hc.
    eapply wp_mono; [..|apply (on_read_serves n fuel id k w (Hdr k eq_refl)); unfold calls; lia].
    + intros [] w' (x & Hx & tr & Htr & Hs). apply wp_ret. eexists. split; [exact Htr|]. split; [by constructor|done].
    + intros ex w' (x & a & Hx & (tr & Htr & Hs) & _). eexists. split; [exact Htr|]. split; [by constructor|done].
  - unfold static_callback, timer_handler_call, epoll_read_timer, call_client. repeat wp_step. cbn [self fst snd m_pe]. apply wp_in_os. cbn [fst snd].
    repeat wp_step. apply wp_syscall. intros a _.
    repeat wp_step. apply wp_syscall. intros b _. destruct b as [m o|x]; repeat wp_step; eexists; cbn [fst snd w_trace]; rewrite <-app_assoc;
      (split; [reflexivity|]); (split; [constructor|done]).
  - unfold static_callback, signal_handler_call, epoll_read_signal, call_client. repeat wp_step. cbn [self fst snd m_pe]. apply wp_in_os. cbn [fst snd].
    repeat wp_step. apply wp_syscall. intros a _.
    repeat wp_step. apply wp_syscall. intros b _. destruct b as [m o|x]; repeat wp_step; eexists; cbn [fst snd w_trace]; rewrite <-app_assoc;
      (split; [reflexivity|]); (split; [constructor|done]).
Qed.

(** Every handler; false stands for an exception. *)
Lemma call_object_runs (l : elt) (w : world) (ke k : Z) (h : basic_handler) (n : Z) :
  table_range l (ev_ident ke) -> objects k = Some h -> well_made h -> serves n h -> 0 <= n < Z.of_nat fuel ->
  let P tr l' e' b := handled ke l (w_trace w) h tr l' e' b /\ table_range l' (ev_ident ke) /\ m_pe e' = ke in
  wp (catch (call_object k) (fun _ => mret false)) (fun b s => after w P b s) no_exn (l, w, EventImpl 0 ke).
Proof.
  intros Hr Hobj Hw Hdr Hn P. wp_step. unfold call_object. rewrite Hobj.
  assert ((exists c, self h = ClientImpl c) \/ forall c, self h <> ClientImpl c) as [[c Hc]|Hcl]
    by (destruct (self h); [by right|by left; eexists|by right|by right]).
  - assert (m_callback h = CallbackOnRead) as Hcb by (rewrite Hw, Hc; done).
    rewrite call_handler_indirect, Hcb. cbn [call_callback]. unfold handler_on_read. rewrite Hc. repeat wp_step. cbn [fst snd].
    eapply wp_mono; [..|apply (client_run_ran c (m_ident h) _ l w (@EventImpl OS (epoll_kernel OS) 0 ke) Hr)].
    + intros [] s (tr & Htr & Hran & ? & ?). wp_step. exists tr. split; [done|]. split; [by eapply handled_client|done].
    + intros x s (tr & Htr & Hran & ? & ?). wp_step. exists tr. split; [done|]. split; [by eapply handled_client|done].
  - eapply wp_mono; [..|by apply (own_handler_runs h ke l w n)].
    + intros b s (tr & Htr & Hran & Hl & He). exists tr. split; [done|]. rewrite Hl, He. split; [by constructor|done].
    + intros x s (tr & Htr & Hran & Hl & He). wp_step. exists tr. split; [done|]. rewrite Hl, He. split; [by constructor|done].
Qed.

(** The end of the turn. *)
Lemma finish_turn (l : elt) (w : world) (e : evt) (b : bool) (Q : unit -> lst -> Prop) :
  table_range l (ev_ident (m_pe e)) ->
  (forall tr l', ended l e b tr l' -> Q tt (l', World (w_trace w ++ tr) (w_alloc w))) ->
  wp (finish e b) (fun p st => wp (match p with PcReset ident => reset_handler ident | _ => mret tt end) Q no_exn st) no_exn (l, w).
Proof.
  intros Hr HQ. unfold finish, ended in *. destruct (is_reactivated e), (is_removed e); cbn [orb] in HQ.
  1-3: repeat loop_step; specialize (HQ [] l (conj eq_refl eq_refl)); rewrite app_nil_r in HQ; by destruct w.
  repeat loop_step. destruct b; cbn [negb]; repeat loop_step.
  - unfold reactivate, epoll_kernel, epoll_reactivate. apply wp_syscall. intros a _. repeat loop_step. apply HQ. split; [done|by eexists].
  - unfold remove, epoll_kernel, epoll_remove. apply wp_syscall. intros a _. repeat loop_step.
    cbn [event_ident]. unfold wp. rewrite reset_handler_run by done. apply HQ. split; [done|by eexists].
Qed.

End Dispatch.

(** ** Destruction

    What the class of each handler does, which is what the destructor of the loop
    asks of it ([LoopLife.loop_delete_outcome]): it never throws. *)
Section Delete.
Context {OS : Os}.

(** [~handler()], which those of the classes derived from it end with; [~timer_handler()]
    and [~signal_handler()] destroy their members. *)
Definition object_delete (h : basic_handler) : M world unit :=
  match self h with
  | ListenImpl _ | ClientImpl _ => Listen.handler_delete (m_ident h)
  | TimerImpl t => timer_handler_delete t
  | SignalImpl g => signal_handler_delete g
  end.

Definition object_destroyed (h : basic_handler) (tr : trace) : Prop :=
  match self h with
  | ListenImpl _ | ClientImpl _ => exists a, tr = [Sys (Close (m_ident h)) a]
  | TimerImpl t => if 0 <=? th_timer t then exists a, tr = [Sys (Close (th_timer t)) a] else tr = []
  | SignalImpl g => exists a b,
      let restored := [Sys (SigUnblock (m_sigmask g)) a; Sys (Sigaction (ss_signo (m_signal g)) (ss_save (m_signal g))) b] in
      if 0 <=? sg_fd g then exists c, tr = restored ++ [Sys (Close (sg_fd g)) c] else tr = restored
  end.

Lemma object_delete_destroys h w :
  wp (object_delete h) (fun _ w' => exists tr, w_trace w' = w_trace w ++ tr /\ object_destroyed h tr) no_exn w.
Proof.
  unfold object_delete, object_destroyed. destruct (self h) as [k|k|t|g].
  - unfold Listen.handler_delete. wp_step. apply wp_syscall. intros a _. wp_step. eexists. split; [reflexivity|by eexists].
  - unfold Listen.handler_delete. wp_step. apply wp_syscall. intros a _. wp_step. eexists. split; [reflexivity|by eexists].
  - unfold timer_handler_delete, epoll_timer_delete. destruct (0 <=? th_timer t); [|wp_step; exists []; by rewrite app_nil_r].
    wp_step. apply wp_syscall. intros a _. wp_step. eexists. split; [reflexivity|by eexists].
  - unfold signal_handler_delete, scoped_sigprocmask_delete, scoped_signal_delete, epoll_signal_delete. repeat wp_step.
    apply wp_syscall. intros a _. repeat wp_step. apply wp_syscall. intros b _. repeat wp_step.
    destruct (0 <=? sg_fd g); repeat wp_step.
    + apply wp_syscall. intros c _. wp_step. cbn [w_trace]. rewrite <-!app_assoc. eexists. split; [reflexivity|]. exists a, b. by exists c.
    + cbn [w_trace]. rewrite <-!app_assoc. eexists. split; [reflexivity|]. by exists a, b.
Qed.
End Delete.

(** ** On a concrete environment *)

Definition turn_event : Z := ev_data 4 (wrap32 (Z.lor EPOLLIN EPOLLONESHOT)).

Definition turn_loop : @loop two_pending (epoll_kernel two_pending) :=
  let l := empty_loop (OS := two_pending) (K := epoll_kernel _) 3 4 in set_state (<[4%nat := Some 9]> (m_state l)) l.

Definition one_object (h : basic_handler) (k : Z) : option basic_handler := if k =? 9 then Some h else None.

(** The table and the calls of a turn. *)
Definition turn (ops : list client_op) (h : basic_handler) : option (list (option Z) * trace) :=
  match run_handler (call_object (OS := two_pending) 3 (fun _ _ => ops) (one_object h)) turn_event (turn_loop, World [] []) with
  | Ret _ (l, w) => Some (m_state l, w_trace w)
  | _ => None
  end.

Definition client_object : basic_handler := handler_new 4 (ClientImpl 7).


(** One that gives its descriptor up: it is unregistered once. *)
Lemma removing_turn :
  turn [Act ActRemove; Act ActRemove; CallOut] client_object =
    Some (replicate 8 None, [Sys (EpollDel 3 4) (SysOk 0 []); Sys (Callback 7 [4]) (SysOk 0 [])]).
Proof. by vm_compute. Qed.

(** The accept loop of a socket with two connections: it is continued. *)
Lemma accept_turn :
  match turn [] (handler_new 4 (ListenImpl 7)) with
  | Some (state, tr) => state = m_state turn_loop /\
      tr !! 6%nat = Some (Sys (EpollMod 3 4 (wrap32 (Z.lor EPOLLIN EPOLLONESHOT)) turn_event) (SysOk 0 []))
  | None => False
  end.
Proof. by vm_compute. Qed.

(** A timer without an interval, whatever its callback returns: its entry is emptied. *)
Lemma one_shot_turn :
  match turn [] (basic_handler_new 4 (TimerImpl (TimerHandler 4 false 7))) with
  | Some (state, tr) => state = replicate 8 None /\ tr !! 2%nat = Some (Sys (EpollDel 3 4) (SysOk 0 []))
  | None => False
  end.
Proof. by vm_compute. Qed.
