(* ===== verification/ListenConnect.v ===== *)
(** * test/listen_connect.cc

    The callbacks of the program with the code that calls them: [accepted] with
    the handler of the listening socket, [connected] with the task that connects.
    Each descriptor that accept(2) or socket(2) made is closed once. *)

From Stdlib Require Import ZArith Lia.
From stdpp Require Import base tactics option list numbers.
From S2P Require Import Prelude Os Kernel KernelEpoll Out Loop Timer Connect Listen.

(** What the program prints; with an error, the errno that perror(3) explains. *)
Inductive message : Type := AcceptError (err : Z) | ConnectError (err : Z) | Accepted | Connected.

Abbreviation cst := (world * list message)%type.

Section Callbacks.
Context {OS : Os}.

Definition on_os {A} (m : M world A) : M cst A := zoom fst (fun w st => (w, snd st)) m.
Definition say (m : message) : M cst unit := modify (fun st => (fst st, snd st ++ [m])).

Definition accepted (fd err : Z) : M cst unit :=
  if fd <? 0 then say (AcceptError err)
  else catch (_ ← say Accepted; _ ← on_os (syscall (Close fd)); mret tt)
             (fun _ => _ ← on_os (syscall (Close fd)); mret tt).

Definition connected (fd err : Z) : M cst unit :=
  if fd <? 0 then say (ConnectError err)
  else _ ← (catch (say Connected) (fun _ => mret tt)); _ ← on_os (syscall (Close fd)); mret tt.

(** ** Calls with the code they run

    A call of the client stands for a run of its function: it returns or throws as
    the function does, and the system calls of the run take its place. *)
Definition runs_as (body : Z -> Z -> M cst unit) (args : list Z) (a : sysret) (evs : trace) : Prop :=
  exists fd err w out w' out', args = [fd; err] /\ w_trace w' = w_trace w ++ evs /\
    match a with
    | SysOk _ _ => body fd err (w, out) = Ret tt (w', out')
    | SysErr _ => exists e, body fd err (w, out) = Throw e (w', out')
    end.

Inductive inlined (cb : Z) (body : Z -> Z -> M cst unit) : trace -> trace -> Prop :=
| in_nil : inlined cb body [] []
| in_event ev tr tr' : calls_back ev = false -> inlined cb body tr tr' -> inlined cb body (ev :: tr) (ev :: tr')
| in_call args a evs tr tr' : runs_as body args a evs -> inlined cb body tr tr' ->
    inlined cb body (Sys (Callback cb args) a :: tr) (evs ++ tr').

Lemma inlined_no_callback cb body tr1 tr2 tr' :
  no_callback tr1 -> inlined cb body (tr1 ++ tr2) tr' -> exists tr2', tr' = tr1 ++ tr2' /\ inlined cb body tr2 tr2'.
Proof.
  intros Hno. revert tr'. induction Hno as [|ev tr1 Hev _ IH]; intros tr' Hin; [by exists tr'|].
  inversion Hin as [|? ? ? _ Hin'|]; subst; [|done]. destruct (IH _ Hin') as (tr2' & -> & H2). by exists tr2'.
Qed.

Lemma inlined_event cb body ev tr tr' :
  calls_back ev = false -> inlined cb body (ev :: tr) tr' -> exists tr2, tr' = ev :: tr2 /\ inlined cb body tr tr2.
Proof. intros Hev Hin. by apply (inlined_no_callback cb body [ev]) in Hin; [|by constructor]. Qed.

Lemma inlined_call cb body args a tr tr' :
  inlined cb body (Sys (Callback cb args) a :: tr) tr' ->
  exists evs tr2, tr' = evs ++ tr2 /\ runs_as body args a evs /\ inlined cb body tr tr2.
Proof. inversion 1; subst; [done|]. by eexists _, _. Qed.

(** ** What the callbacks do *)

(** The descriptor given to a callback is closed, and the callback returns. *)
Definition closes (body : Z -> Z -> M cst unit) : Prop := forall fd err w out,
  wp (body fd err) (fun _ st' => exists evs, w_trace (fst st') = w_trace w ++ evs /\
      if fd <? 0 then evs = [] else exists a, evs = [Sys (Close fd) a]) no_exn (w, out).

Lemma accepted_closes : closes accepted.
Proof.
  intros fd err w out. unfold accepted, say, on_os. destruct (fd <? 0).
  - wp_step. exists []. by rewrite app_nil_r.
  - wp_step. wp_step. wp_step. wp_step. wp_step. apply wp_syscall. intros a _. wp_step. eexists. split; [done|by eexists].
Qed.

Lemma connected_closes : closes connected.
Proof.
  intros fd err w out. unfold connected, say, on_os. destruct (fd <? 0).
  - wp_step. exists []. by rewrite app_nil_r.
  - wp_step. wp_step. wp_step. wp_step. wp_step. apply wp_syscall. intros a _. wp_step. eexists. split; [done|by eexists].
Qed.

Lemma runs_as_closes body fd err a evs :
  closes body -> runs_as body [fd; err] a evs ->
  (exists n out, a = SysOk n out) /\ if fd <? 0 then evs = [] else exists a', evs = [Sys (Close fd) a'].
Proof.
  intros Hb (fd' & err' & w & out & w' & out' & [= <- <-] & Htr & Hrun). specialize (Hb fd err w out). unfold wp in Hb.
  destruct a as [n o|e].
  - rewrite Hrun in Hb. destruct Hb as (evs' & Htr' & H). cbn [fst] in *. rewrite Htr' in Htr. apply app_inv_head in Htr as ->.
    split; [by eexists _, _|done].
  - destruct Hrun as [e' Hrun]. by rewrite Hrun in Hb.
Qed.

Lemma runs_as_calls body fd err a evs sock :
  closes body -> runs_as body [fd; err] a evs -> 0 <= fd ->
  (exists n out, a = SysOk n out) /\ calls (Close sock) evs = if decide (fd = sock) then 1 else 0.
Proof.
  intros Hb Hr Hfd. destruct (runs_as_closes _ _ _ _ _ Hb Hr) as [Hok He]. split; [done|].
  destruct (Z.ltb_spec fd 0); [lia|]. destruct He as [a' ->]. case_decide as Heq; [subst; apply calls_one|].
  apply calls_other. congruence.
Qed.

(** ** Accepting *)

(** How often accept(2) gave [sock]. *)
Definition gives (fd sock : Z) (ev : event) : bool :=
  match ev with Sys (Accept fd') (SysOk n _) => bool_decide (fd' = fd) && bool_decide (n = sock) | _ => false end.

Definition given (fd sock : Z) (tr : trace) : Z := countb (gives fd sock) tr.

(** accept(2) gives descriptors. *)
Definition accepts_valid (fd : Z) : Prop := forall tr n out, sys tr (Accept fd) = SysOk n out -> 0 <= n.

Definition valid (tr : trace) : Prop :=
  Forall (fun ev => match ev with Sys (Accept _) (SysOk n _) => 0 <= n | _ => True end) tr.

Lemma gives_one fd n out sock : given fd sock [Sys (Accept fd) (SysOk n out)] = if decide (n = sock) then 1 else 0.
Proof.
  unfold given, countb. rewrite filter_cons. simpl. rewrite (bool_decide_true (fd = fd)) by done. simpl.
  destruct (decide (n = sock)); [by rewrite bool_decide_true|by rewrite bool_decide_false].
Qed.

Lemma served_closed_once fd cb tr rest rest' sock :
  served fd cb tr -> valid tr -> inlined cb accepted (tr ++ rest) rest' ->
  exists tr' rest2, rest' = tr' ++ rest2 /\ inlined cb accepted rest rest2 /\ calls (Close sock) tr' = given fd sock tr.
Proof.
  intros Hs. revert rest'. induction Hs as [|s out n o tr Hs IH|s out e a tr Hs IH]; intros rest' Hv Hin.
  - by exists [], rest'.
  - apply inlined_event in Hin as (t1 & -> & Hin); [|done]. apply inlined_call in Hin as (evs & t2 & -> & Hr & Hin).
    inversion Hv as [|? ? Hs0 Hv1]; subst. inversion Hv1 as [|? ? _ Hv2]; subst.
    destruct (IH _ Hv2 Hin) as (tr' & rest2 & -> & Hin2 & Hc).
    destruct (runs_as_calls _ _ _ _ _ sock accepted_closes Hr Hs0) as [_ Hcalls].
    exists ([Sys (Accept fd) (SysOk s out)] ++ evs ++ tr'), rest2. split; [simpl; by rewrite <-app_assoc|]. split; [done|].
    rewrite !calls_app, Hcalls, Hc, calls_other by done.
    change (given fd sock (_ :: _ :: tr)) with (given fd sock ([Sys (Accept fd) (SysOk s out)] ++ [Sys (Callback cb [s; 0]) (SysOk n o)] ++ tr)).
    unfold given. rewrite !countb_app. change (countb (gives fd sock) [Sys (Accept fd) (SysOk s out)]) with (given fd sock [Sys (Accept fd) (SysOk s out)]).
    rewrite gives_one. change (countb (gives fd sock) [Sys (Callback cb [s; 0]) (SysOk n o)]) with 0. lia.
  - apply inlined_event in Hin as (t1 & -> & Hin); [|done]. apply inlined_call in Hin as (evs & t2 & -> & Hr & Hin).
    inversion Hv as [|? ? Hs0 _]; subst. destruct (runs_as_calls _ _ _ _ _ sock accepted_closes Hr Hs0) as [(? & ? & ?) _]. done.
Qed.

(** What a computation adds to the trace is answers of the system. *)
Definition adds_valid {A} (m : M world A) : Prop := forall w,
  match m w with
  | Ret _ w' | Throw _ w' => exists tr, w_trace w' = w_trace w ++ tr /\ valid tr
  | _ => True
  end.

Lemma adds_valid_ret {A} (a : A) : adds_valid (mret a).
Proof. intros w. exists []. split; [by rewrite app_nil_r|constructor]. Qed.

Lemma adds_valid_throw {A} e : adds_valid (throw e : M world A).
Proof. intros w. exists []. split; [by rewrite app_nil_r|constructor]. Qed.

Lemma adds_valid_after {A} (w w1 : world) tr (o : outcome world A) :
  w_trace w1 = w_trace w ++ tr -> valid tr ->
  match o with Ret _ w' | Throw _ w' => exists tr, w_trace w' = w_trace w1 ++ tr /\ valid tr | _ => True end ->
  match o with Ret _ w' | Throw _ w' => exists tr, w_trace w' = w_trace w ++ tr /\ valid tr | _ => True end.
Proof.
  intros Hw Hv. destruct o; try done; intros (tr' & Htr & Hv'); exists (tr ++ tr');
    (split; [by rewrite Htr, Hw, <-app_assoc|by apply Forall_app]).
Qed.

Lemma adds_valid_bind {A B} (m : M world A) (k : A -> M world B) :
  adds_valid m -> (forall a, adds_valid (k a)) -> adds_valid (m ≫= k).
Proof.
  intros Hm Hk w. specialize (Hm w). unfold mbind, M_bind. destruct (m w) as [a w1|e w1| |]; try done.
  destruct Hm as (tr & Htr & Hv). by eapply adds_valid_after, (Hk a).
Qed.

Lemma adds_valid_catch {A} (m : M world A) h : adds_valid m -> (forall e, adds_valid (h e)) -> adds_valid (catch m h).
Proof.
  intros Hm Hh w. specialize (Hm w). unfold catch. destruct (m w) as [a w1|e w1| |]; try done.
  destruct Hm as (tr & Htr & Hv). by eapply adds_valid_after, (Hh e).
Qed.

Lemma adds_valid_syscall {A} r (k : sysret -> M world A) :
  (forall fd n out tr, r = Accept fd -> sys tr r = SysOk n out -> 0 <= n) -> (forall a, adds_valid (k a)) ->
  adds_valid (a ← syscall r; k a).
Proof.
  intros Hr Hk. apply adds_valid_bind; [|done]. intros w. unfold syscall. eexists. split; [reflexivity|].
  constructor; [|constructor]. destruct r; try done. destruct (sys _ _) eqn:Hs; [by eapply Hr|done].
Qed.

Lemma on_read_valid fuel fd cb : accepts_valid fd -> adds_valid (on_read fuel fd cb).
Proof.
  intros Ha. induction fuel as [|fuel IH]; [done|]. cbn [on_read].
  apply adds_valid_syscall; [by intros fd' n out tr [= ->]; apply Ha|]. intros [s out|e].
  - apply adds_valid_bind; [|done]. apply adds_valid_catch.
    + apply adds_valid_bind; [|intros; apply adds_valid_ret]. apply adds_valid_syscall; [done|].
      intros []; [apply adds_valid_ret|apply adds_valid_throw].
    + intros _. apply adds_valid_syscall; [done|]. intros; apply adds_valid_ret.
  - destruct (would_retry e); [apply adds_valid_ret|]. apply adds_valid_syscall; [done|]. intros []; apply adds_valid_throw.
Qed.

(** Every connection that was accepted is closed as often as it was. *)
Definition all_closed (fd cb : Z) (w w' : world) : Prop :=
  exists tr, w_trace w' = w_trace w ++ tr /\
    forall tr' sock, inlined cb accepted tr tr' -> calls (Close sock) tr' = given fd sock tr.

Lemma all_closed_served fd cb w w' rest :
  Listen.accepted fd cb w rest w' -> (exists tr, w_trace w' = w_trace w ++ tr /\ valid tr) ->
  (forall rest' sock, inlined cb accepted rest rest' -> calls (Close sock) rest' = given fd sock rest) ->
  all_closed fd cb w w'.
Proof.
  intros (tr & Htr & Hs) (tr0 & Htr0 & Hv) Hrest. rewrite Htr in Htr0. apply app_inv_head in Htr0 as <-.
  exists (tr ++ rest). split; [done|]. intros tr' sock Hin. apply Forall_app in Hv as [Hv _].
  destruct (served_closed_once _ _ _ _ _ sock Hs Hv Hin) as (tr1 & rest1 & -> & Hin1 & Hc).
  rewrite calls_app, Hc, (Hrest _ _ Hin1). unfold given. by rewrite countb_app.
Qed.

(** No call was made that closes or accepts. *)
Lemma last_accept_closed fd cb e rest rest' sock :
  (forall rest2, inlined cb accepted rest rest2 -> rest2 = []) -> given fd sock rest = 0 ->
  inlined cb accepted (Sys (Accept fd) (SysErr e) :: rest) rest' ->
  calls (Close sock) rest' = given fd sock (Sys (Accept fd) (SysErr e) :: rest).
Proof.
  intros Hr Hg Hin. apply inlined_event in Hin as (r2 & -> & Hin); [|done]. rewrite (Hr _ Hin), calls_other by done.
  change (given fd sock (?ev :: rest)) with (given fd sock ([ev] ++ rest)). unfold given in *. rewrite countb_app, Hg. done.
Qed.

(** The handler of the listening socket with the callback of the program: every
    connection is closed exactly once, by the callback, whether the handler returns
    or an error of accept(2) is thrown, which the callback does not replace. *)
Theorem accepted_closed_once (n : Z) (fuel : nat) (fd cb : Z) (w : world) :
  drains n fd -> 0 <= n < Z.of_nat fuel -> accepts_valid fd ->
  wp (on_read fuel fd cb) (fun _ w' => all_closed fd cb w w') (fun _ w' => all_closed fd cb w w') w.
Proof.
  intros Hdr Hn Hacc. pose proof (countb_range (is_call (Accept fd)) (w_trace w)) as Hrange.
  pose proof (on_read_serves n fuel fd cb w Hdr ltac:(unfold calls; lia)) as H.
  pose proof (on_read_valid fuel fd cb Hacc w) as Hv. unfold wp in *.
  destruct (on_read fuel fd cb w) as [[] w'|ex w'| |]; try done.
  - destruct H as (e & _ & Ha). eapply all_closed_served; [exact Ha|done|]. intros rest' sock.
    apply last_accept_closed; [by inversion 1|done].
  - destruct H as (e & a & _ & Ha & _). eapply all_closed_served; [exact Ha|done|]. intros rest' sock.
    apply last_accept_closed; [|done]. intros rest2 Hin. apply inlined_call in Hin as (evs & r3 & -> & Hr & Hin).
    destruct (runs_as_closes _ _ _ _ _ accepted_closes Hr) as [_ ->]. by inversion Hin.
Qed.

(** ** Connecting *)

(** The socket of a task is closed exactly once: by the task when it did not
    connect, by the callback of the program otherwise. *)
Theorem connected_closed_once (fuel n : nat) (m : pack) (cb : Z) (w : world) :
  (n < fuel)%nat ->
  (forall tr fd, sys (interrupted tr fd (p_timeout_msec m) n) (PollOut fd (p_timeout_msec m)) <> SysErr EINTR) ->
  let once w' := exists a tr,
    w_trace w' = w_trace w ++ Sys (Socket (p_socket_family m) (p_socket_type m) (p_protocol m)) a :: tr /\
    forall tr' fd out, inlined cb connected tr tr' -> a = SysOk fd out -> 0 <= fd -> calls (Close fd) tr' = 1 in
  wp (connect_task fuel m cb) (fun _ w' => once w') (fun _ w' => once w') w.
Proof.
  intros Hlt Hne once.
  assert (forall fd err w1 a, reported m w (fd, err) w1 ->
    once (World (w_trace w1 ++ [Sys (Callback cb [fd; err]) a]) (w_alloc w1))) as Honce.
  { intros fd err w1 b (a & tr & Htr & Hno & Ha). exists a, (tr ++ [Sys (Callback cb [fd; err]) b]).
    split; [cbn [w_trace]; by rewrite Htr, <-!app_assoc|]. intros tr' s out Hin -> Hs.
    apply inlined_no_callback in Hin as (t2 & -> & Hin); [|done]. apply inlined_call in Hin as (evs & t3 & -> & Hr & Hin).
    inversion Hin; subst t3; clear Hin. rewrite app_nil_r, calls_app.
    destruct (runs_as_closes _ _ _ _ _ connected_closes Hr) as [_ Hevs].
    destruct Ha as [([= -> ->] & _ & Hc)|(Hfd & Hc)]; rewrite Hc.
    - destruct (Z.ltb_spec s 0); [lia|]. destruct Hevs as [b' ->]. rewrite calls_one. lia.
    - cbn [fst] in Hfd. subst fd. rewrite Hevs. done. }
  unfold connect_task. wp_step. eapply wp_mono; [..|by apply (connect_outcome_reported fuel n)]; [|done].
  intros [fd err] w1 Hrep. wp_step. unfold call_client. wp_step. apply wp_syscall. intros a _.
  destruct a; repeat wp_step; by apply Honce.
Qed.
End Callbacks.

(** ** The program *)
Section Main.
Context {OS : Os} {K : Kernel OS}.

(** [server] and [client] are the two addresses, [h] the handler of the listening
    socket, [cb] the callback [connected]; [usleep] only waits. *)
Variables (server client : list Z) (h cb : Z) (task : pack -> Z -> Z) (destroy : Z -> M world unit).

Definition listen_connect_body : M (loop * world) unit :=
  _ ← loop_listen 2 1 0 server 1024 h;
  _ ← start 4;
  _ ← loop_connect_sec 2 1 0 client (double_of_Z 0) cb task;
  _ ← end_loop;
  join.

Definition listen_connect_main : M world unit :=
  l ← loop_new;
  _ ← with_loop
    (_ ← (catch listen_connect_body (fun e => _ ← loop_delete destroy; throw e));
     loop_delete destroy) l;
  mret tt.
End Main.

(** ** Concrete runs *)

Section Run.
(** Two pending connections. *)
#[local] Instance pending_os : Os := {|
  sys := fun tr r =>
    match r with
    | Accept fd => if calls r tr <? 2 then SysOk (10 + calls r tr) [] else SysErr EAGAIN
    | _ => SysOk 0 []
    end;
  memcpy_may_overlap := true
|}.

Definition pending_run : trace :=
  match on_read 3 4 7 (World [] []) with Ret _ w => w_trace w | _ => [] end.

(** The same run with the code of the callback in place of its calls. *)
Definition pending_inlined : trace :=
  [Sys (Accept 4) (SysOk 10 []); Sys (Close 10) (SysOk 0 []); Sys (Accept 4) (SysOk 11 []); Sys (Close 11) (SysOk 0 []);
   Sys (Accept 4) (SysErr EAGAIN)].

Lemma runs_as_accepted fd : runs_as accepted [fd; 0] (SysOk 0 []) (if fd <? 0 then [] else [Sys (Close fd) (SysOk 0 [])]).
Proof.
  exists fd, 0, (World [] []), []. unfold accepted, say, on_os, zoom, modify, catch, mbind, M_bind, syscall. cbn.
  destruct (fd <? 0); eexists _, _; (split; [done|]; split; [|reflexivity]; done).
Qed.

Lemma pending_inlined_run : inlined 7 accepted pending_run pending_inlined.
Proof.
  assert (pending_run = [Sys (Accept 4) (SysOk 10 []); Sys (Callback 7 [10; 0]) (SysOk 0 []);
    Sys (Accept 4) (SysOk 11 []); Sys (Callback 7 [11; 0]) (SysOk 0 []); Sys (Accept 4) (SysErr EAGAIN)]) as -> by (by vm_compute).
  constructor; [done|]. apply (in_call 7 accepted _ _ [_]); [apply (runs_as_accepted 10)|].
  constructor; [done|]. apply (in_call 7 accepted _ _ [_]); [apply (runs_as_accepted 11)|].
  constructor; [done|]. constructor.
Qed.

Lemma accepted_closed_once_witness :
  inlined 7 accepted pending_run pending_inlined /\
  (calls (Close 10) pending_inlined = 1 /\ given 4 10 pending_run = 1) /\
  wp (on_read 3 4 7) (fun _ w' => all_closed 4 7 (World [] []) w') (fun _ w' => all_closed 4 7 (World [] []) w') (World [] []).
Proof.
  split; [exact pending_inlined_run|]. split; [by vm_compute|]. apply (accepted_closed_once 2); [|lia|].
  - intros tr Hle. cbn [sys pending_os]. destruct (Z.ltb_spec (calls (Accept 4) tr) 2); [lia|done].
  - intros tr n out Hs. cbn [sys pending_os] in Hs. destruct (_ <? 2); [|done]. injection Hs as <- _.
    pose proof (countb_range (is_call (Accept 4)) tr). unfold calls. lia.
Defined.

#[local] Instance main_os : Os := {|
  sys := fun tr r =>
    match r with
    | EpollCreate _ => SysOk (3 + calls r tr * 2) [] | Getrlimit => SysOk 16 [] | Socket _ _ _ => SysOk 8 []
    | PthreadCreate => SysOk (calls r tr) [] | _ => SysOk 0 []
    end;
  memcpy_may_overlap := true
|}.

(** What the main thread does with the socket and the threads: the handler of the
    listening socket closes it when the loop is destroyed. *)
Definition main_calls (tr : trace) : list request :=
  filter (fun r => match r with
    | Socket _ _ _ | Listen _ _ | PthreadCreate | PthreadJoin _ | Close 8 => true | _ => false end = true)
    (omap (fun ev => match ev with Sys r _ => Some r | _ => None end) tr).

Lemma listen_connect_run :
  match listen_connect_main (OS := main_os) (K := epoll_kernel main_os) [0; 0; 0; 0] [127; 0; 0; 1] 70 7 (fun _ _ => 1)
    (fun _ => handler_delete 8) (World [] []) with
  | Ret _ w => Some (main_calls (w_trace w))
  | _ => None
  end = Some ([Socket 2 1 0; Listen 8 1024] ++ replicate 4 PthreadCreate ++ (PthreadJoin <$> [0; 1; 2; 3]) ++ [Close 8]).
Proof. by vm_compute. Qed.
End Run.
