(* ===== verification/LoopRegister.v ===== *)
(** * Timers and signals in a running loop

    [loop::add_timer] and [loop::add_signal] may be called while workers run.
    They make a descriptor of their own, so what they need from their caller is
    only what the operating system promises of a new descriptor: no handler has an
    event of it and it is not registered. *)

From Stdlib Require Import ZArith Lia.
From stdpp Require Import base tactics option list numbers gmap sets list_tactics.
From S2P Require Import Prelude Os Pthread Xfer XferQueue Kernel KernelEpoll Out OutProps OutFrame Loop LoopThreads LoopCore LoopProps Timer Signal.

Section Register.
Context {OS : Os} {Spec : OsSpec OS} {ESpec : EpollSpec OS}.

Abbreviation lst := (@loop OS (epoll_kernel OS) * world)%type.

(** The descriptor that call [r] makes is new to the loop. *)
Definition new_descriptor (r : request) (l : loop) (w : world) (ts : list pc) : Prop :=
  forall n out, sys (w_trace w) r = SysOk n out ->
    (n ∉ event_ident <$> events l ts) /\ (n ∉ armed (m_lkernel l) (w_trace w)) /\ table_range l n.

(** What registering [number] for [fd] leaves. *)
Definition registered (l : loop) (ts : list pc) (fd number : Z) (st' : lst) : Prop :=
  core [] (fst st') (snd st') ts /\
  fst st' = set_state (<[Z.to_nat fd := Some number]> (m_state l)) l /\ table_range l fd /\
  (fd ∉ event_ident <$> events l ts).

(** One call that concerns no kernel. *)
Ltac core_syscall :=
  wp_step; simpl; apply wp_syscall; let a := fresh "a" in intros a ?; simpl;
  match goal with
  | Hc : core [] ?l ?w ?ts |- context [Sys ?r a] =>
      let Hc' := fresh "Hc" in
      pose proof (core_call l w ts r a eq_refl eq_refl Hc) as Hc'; clear Hc; rename Hc' into Hc; simpl in Hc
  end.

(** A way out by an exception. *)
Ltac core_fails :=
  unfold close_and_fail, signal_handler_delete, scoped_signal_delete, scoped_sigprocmask_delete, epoll_signal_delete, epoll_timer_delete;
  repeat first
    [ wp_step; simpl
    | apply wp_syscall; intros ? _; simpl
    | match goal with |- wp (if ?b then _ else _) _ _ _ => destruct b; simpl end ];
  exact I.

Lemma timer_handler_new_core l w ts value interval callback :
  core [] l w ts -> new_descriptor TimerfdCreate l w ts ->
  wp (timer_handler_new (m_lkernel l) value interval callback)
    (fun th w' => core [] l w' ts /\ table_range l (th_timer th) /\ (th_timer th ∉ event_ident <$> events l ts))
    (fun _ _ => True) w.
Proof.
  intros Hc Hn. unfold timer_handler_new, kernel_timer_new, epoll_add_timer. wp_step. wp_step.
  core_syscall. destruct a as [fd out|e]; [|core_fails].
  destruct (Hn fd out) as (Hev & _ & Hr); [done|].
  core_syscall. destruct a as [n out2|e]; [|core_fails].
  core_syscall. destruct a as [n2 out3|e]; [|core_fails].
  wp_step. simpl. eapply wp_mono; [..|exact (core_add_fd fd l _ ts Hc Hr Hev)]; [|done].
  intros [n3 out4|e] w' Hc'; [|core_fails]. repeat wp_step. by split_and!.
Qed.

Lemma signal_handler_new_core l w ts signo callback :
  core [] l w ts -> new_descriptor (Signalfd signo) l w ts ->
  wp (signal_handler_new (m_lkernel l) signo callback)
    (fun sg w' => core [] l w' ts /\ table_range l (sg_fd sg) /\ (sg_fd sg ∉ event_ident <$> events l ts))
    (fun _ _ => True) w.
Proof.
  intros Hc Hn. unfold signal_handler_new, kernel_signal_new, epoll_add_signal. wp_step. wp_step.
  core_syscall. destruct a as [fd out|e]; [|core_fails].
  destruct (Hn fd out) as (Hev & _ & Hr); [done|].
  core_syscall. destruct a as [n out2|e]; [|core_fails].
  wp_step. simpl. eapply wp_mono; [..|exact (core_add_fd fd l _ ts Hc Hr Hev)]; [|done].
  intros [n3 out4|e] w' Hc'; [|core_fails]. clear Hc. rename Hc' into Hc. repeat (wp_step; simpl).
  unfold scoped_signal_new. core_syscall. destruct a as [n4 out5|e]; [|core_fails]. repeat (wp_step; simpl).
  unfold scoped_sigprocmask_new. core_syscall. destruct a as [n6 out6|e]; [|core_fails]. repeat (wp_step; simpl).
  by split_and!.
Qed.

(** The table gets the handler of the new descriptor. *)
Lemma table_registered l w ts fd number :
  core [] l w ts -> table_range l fd -> (fd ∉ event_ident <$> events l ts) ->
  registered l ts fd number (set_state (<[Z.to_nat fd := Some number]> (m_state l)) l, w).
Proof. intros Hc Hr Hev. split; [by apply core_table|by split_and!]. Qed.

Lemma add_timer_core l w ts value interval callback number :
  core [] l w ts -> new_descriptor TimerfdCreate l w ts ->
  wp (add_timer value interval callback (fun _ => number)) (fun fd => registered l ts fd number) (fun _ _ => True) (l, w).
Proof.
  intros Hc Hn. unfold add_timer. loop_step. loop_step. loop_step. loop_step. apply wp_can_alloc_any. intros ok s _.
  pose proof (core_alloc l w (World (w_trace w) s) ts Hc eq_refl) as Hc1. destruct ok; simpl; [|by wp_step].
  loop_step. loop_step. eapply wp_mono; [..|by apply (timer_handler_new_core l _ ts)]; [|done].
  intros th w' (Hc2 & Hr & Hev). loop_step. loop_step. apply wp_can_alloc_any. intros ok s2 _.
  pose proof (core_alloc l w' (World (w_trace w') s2) ts Hc2 eq_refl) as Hc3. destruct ok; simpl.
  - loop_step. unfold wp at 1. rewrite set_handler_run by done. loop_step. by apply table_registered.
  - loop_step. loop_step. unfold timer_handler_delete. core_fails.
Qed.

Lemma add_signal_core l w ts signo callback number :
  core [] l w ts -> new_descriptor (Signalfd signo) l w ts ->
  wp (add_signal signo callback (fun _ => number)) (fun fd => registered l ts fd number) (fun _ _ => True) (l, w).
Proof.
  intros Hc Hn. unfold add_signal. loop_step. loop_step. loop_step. loop_step. apply wp_can_alloc_any. intros ok s _.
  pose proof (core_alloc l w (World (w_trace w) s) ts Hc eq_refl) as Hc1. destruct ok; simpl; [|by wp_step].
  loop_step. loop_step. eapply wp_mono; [..|by apply (signal_handler_new_core l _ ts)]; [|done].
  intros sg w' (Hc2 & Hr & Hev). loop_step. loop_step. apply wp_can_alloc_any. intros ok s2 _.
  pose proof (core_alloc l w' (World (w_trace w') s2) ts Hc2 eq_refl) as Hc3. destruct ok; simpl.
  - loop_step. unfold wp at 1. rewrite set_handler_run by done. loop_step. by apply table_registered.
  - loop_step. loop_step. core_fails.
Qed.

(** The invariant of the workers is kept. *)
Lemma registered_inv c fd number st' :
  inv c -> registered (fst (c_st c)) (c_ts c) fd number st' ->
  inv (Conf st' (c_ts c) (c_submitted c) (c_started c)).
Proof.
  destruct c as [[l w] ts sub sta]. intros Hinv (Hc & Hl & _). eapply inv_unaffected; [exact Hinv|].
  split; [exact Hc|]. simpl in *. by rewrite Hl.
Qed.
End Register.
