(* ===== verification/CountTest.v ===== *)
(** * test/timer.cc, test/signal.cc and the timer of test/handler.cc

    Each of these programs has a callback that counts in an [int] of [main]
    without a lock, and ends the loop at the third call.  They run it on three
    or four workers.  The callback is modelled statement by statement, with the
    load and the store of the counter as separate steps, in a loop in which
    anything else may happen as well; that the counter is nevertheless right is
    what the loop promises its clients: one handler is never run by two workers,
    and never again after it returned false. *)

From Stdlib Require Import ZArith Lia SpecFloat.
From stdpp Require Import base tactics option list numbers gmap sets list_tactics.
From S2P Require Import Prelude Os Pthread Xfer XferQueue Kernel KernelEpoll Out OutProps OutFrame Loop LoopThreads LoopCore LoopProps LoopOthers Timer Signal LoopRegister.

(** ** The callback *)

(** [int count] of [main], and the lines the callback printed. *)
Record shared := Shared {
  sh_count : Z;
  sh_printed : Z
}.

(** Where a worker is in [timer_handler::operator()], or [signal_handler]'s. *)
Inductive body : Type :=
| BRead                     (* about to read the descriptor *)
| BPrint                    (* in the callback: about to print *)
| BLoad                     (* about to load *count *)
| BStore (v : Z)            (* loaded v, about to store v + 1 *)
| BTest (v : Z)             (* the value of ++( *count) is v *)
| BEnd                      (* about to call lo->end() *)
| BReturn (r : bool).       (* the callback returned r *)

Definition INT_MAX : Z := 2 ^ 31 - 1.

Section Callback.
Context {OS : Os}.

Abbreviation lst := (@loop OS (epoll_kernel OS) * world)%type.

(** What the programs register the callback for. *)
Inductive source : Type :=
| SrcTimer (value interval : option timespec)
| SrcSignal (signo : Z).

Definition setup (s : source) (callback number : Z) : M lst Z :=
  match s with
  | SrcTimer value interval => add_timer value interval callback (fun _ => number)
  | SrcSignal signo => add_signal signo callback (fun _ => number)
  end.

Definition source_call (s : source) : request :=
  match s with SrcTimer _ _ => TimerfdCreate | SrcSignal signo => Signalfd signo end.

(** [m_periodic]; a signal handler always goes on. *)
Definition periodic (s : source) : bool :=
  match s with
  | SrcTimer _ (Some (tv_sec, tv_nsec)) => negb (tv_sec =? 0) || negb (tv_nsec =? 0)
  | SrcTimer _ None => false
  | SrcSignal _ => true
  end.

Definition read_source (s : source) (e : Z) : M world bool :=
  match s with SrcTimer _ _ => epoll_read_timer e | SrcSignal _ => epoll_read_signal e end.

Abbreviation cst := (lst * shared)%type.

Definition on_loop {A} (m : M lst A) : M cst A := zoom fst (fun l st => (l, snd st)) m.
Definition get_shared : M cst shared := st ← get; mret (snd st).
Definition put_shared (sh : shared) : M cst unit := modify (fun st => (fst st, sh)).

(** One statement of the handler and of the callback; adding 1 to INT_MAX is undefined. *)
Definition body_code (s : source) (e : Z) (b : body) : M cst body :=
  match b with
  | BRead => _ ← on_loop (in_world (read_source s e)); mret BPrint
  | BPrint => sh ← get_shared; _ ← put_shared (Shared (sh_count sh) (sh_printed sh + 1)); mret BLoad
  | BLoad => sh ← get_shared; mret (BStore (sh_count sh))
  | BStore v =>
      if v <? INT_MAX
      then sh ← get_shared; _ ← put_shared (Shared (v + 1) (sh_printed sh)); mret (BTest (v + 1))
      else undef
  | BTest v => mret (if 3 <=? v then BEnd else BReturn true)
  | BEnd => _ ← on_loop end_loop; mret (BReturn false)
  | BReturn r => mret (BReturn r)
  end.

Definition is_end_call (b : body) : bool := match b with BEnd => true | _ => false end.
Definition is_return (b : body) : bool := match b with BReturn _ => true | _ => false end.

(** ** The program

    The loop, the variable, and where each worker in the handler is. *)
Record tconf := TConf {
  t_fd : Z;
  t_c : @conf OS (epoll_kernel OS);
  t_sh : shared;
  t_bodies : gmap nat body
}.

Context {Spec : OsSpec OS} {ESpec : EpollSpec OS}.
Variable s : source.
Variable h : Z.

(** A worker that gets to the handler starts with its first statement. *)
Definition enter (i : nat) (p : pc) (bodies : gmap nat body) : gmap nat body :=
  match p with PcHandler g _ => if g =? h then <[i := BRead]> bodies else bodies | _ => bodies end.

Inductive tstep : tconf -> tconf -> Prop :=
| t_thread fd st ts sub sta sh bodies i p p' b st' ts' :
    alive ts -> ts !! i = Some p -> is_handler p = false ->
    thread_code p st = Ret (p', b) st' -> signalled b (<[i := p']> ts) ts' ->
    tstep (TConf fd (Conf st ts sub sta) sh bodies)
      (TConf fd (Conf st' ts' sub (sta ++ taken p p')) sh (enter i p' bodies))
| t_others fd c c' sh bodies :
    others fd h c c' -> tstep (TConf fd c sh bodies) (TConf fd c' sh bodies)
| t_body fd st ts sub sta sh bodies i e b b' st' sh' :
    alive ts -> ts !! i = Some (PcHandler h e) -> bodies !! i = Some b -> is_return b = false ->
    body_code s (m_pe e) b (st, sh) = Ret b' (st', sh') ->
    tstep (TConf fd (Conf st ts sub sta) sh bodies)
      (TConf fd (Conf st' (if is_end_call b then broadcast ts else ts) sub sta) sh' (<[i := b']> bodies))
| t_return fd st ts sub sta sh bodies i e r :
    alive ts -> ts !! i = Some (PcHandler h e) -> bodies !! i = Some (BReturn r) ->
    tstep (TConf fd (Conf st ts sub sta) sh bodies)
      (TConf fd (Conf st (<[i := PcFinish e (r && periodic s)]> ts) sub sta) sh (delete i bodies)).

(** The handler is a new object. *)
Definition unused (c : @conf OS (epoll_kernel OS)) : Prop :=
  (forall k, m_state (fst (c_st c)) !! k <> Some (Some h)) /\ (forall e, PcHandler h e ∉ c_ts c).

(** [int count = 0;] and the registration, in any loop. *)
Inductive treach : tconf -> Prop :=
| tr_start c callback fd st' :
    reach c -> alive (c_ts c) -> unused c ->
    new_descriptor (source_call s) (fst (c_st c)) (snd (c_st c)) (c_ts c) ->
    setup s callback h (c_st c) = Ret fd st' ->
    treach (TConf fd (Conf st' (c_ts c) (c_submitted c) (c_started c)) (Shared 0 0) ∅)
| tr_step x x' : treach x -> tstep x x' -> treach x'.
End Callback.

(** ** The invariant *)

Section Invariant.
Context {OS : Os} {Spec : OsSpec OS} {ESpec : EpollSpec OS}.

Abbreviation lst := (@loop OS (epoll_kernel OS) * world)%type.

Variable s : source.
Variable h : Z.

(** What a worker at a statement of the callback knows of the variable: nobody
    else changes it. *)
Definition agrees (b : body) (sh : shared) (ended : bool) : Prop :=
  0 <= sh_count sh /\
  match b with
  | BRead | BPrint => sh_printed sh = sh_count sh /\ sh_count sh < 3
  | BLoad => sh_printed sh = sh_count sh + 1 /\ sh_count sh < 3
  | BStore v => v = sh_count sh /\ sh_printed sh = sh_count sh + 1 /\ sh_count sh < 3
  | BTest v => v = sh_count sh /\ sh_printed sh = sh_count sh /\ sh_count sh <= 3
  | BEnd => sh_printed sh = sh_count sh /\ sh_count sh = 3
  | BReturn r =>
      sh_printed sh = sh_count sh /\ sh_count sh <= 3 /\ r = (sh_count sh <? 3) /\ (r = false -> ended = true)
  end.

(** The worker that got false from the handler still has its event. *)
Definition finishing (fd : Z) (ts : list pc) : Prop :=
  exists i e, ts !! i = Some (PcFinish e false) /\ m_flags e = 0 /\ event_ident (m_pe e) = fd.

(** No event of [fd] will come to the handler. *)
Definition gone (fd : Z) (c : conf) : Prop := exists e, event_ident e = fd /\ inv (ghosted h e c).

Record tinv (x : tconf) : Prop := {
  ti_inv : inv (t_c x);
  ti_in i e : c_ts (t_c x) !! i = Some (PcHandler h e) ->
    event_ident (m_pe e) = t_fd x /\ m_flags e = 0 /\ is_Some (t_bodies x !! i);
  ti_body i b : t_bodies x !! i = Some b -> exists e, c_ts (t_c x) !! i = Some (PcHandler h e);
  ti_table k : m_state (fst (c_st (t_c x))) !! k = Some (Some h) -> Z.of_nat k = t_fd x;
  ti_agrees i b : t_bodies x !! i = Some b -> agrees b (t_sh x) (m_end_flag (fst (c_st (t_c x))));
  ti_idle : t_bodies x = ∅ ->
    0 <= sh_count (t_sh x) <= 3 /\ sh_printed (t_sh x) = sh_count (t_sh x) /\
    (sh_count (t_sh x) = 3 -> m_end_flag (fst (c_st (t_c x))) = true /\
       (finishing (t_fd x) (c_ts (t_c x)) \/ gone (t_fd x) (t_c x)))
}.

(** *** At most one worker is in the handler *)

Lemma held_handler e : m_flags e = 0 -> held (PcHandler h e) = [m_pe e].
Proof. destruct e as [f pe]. simpl. by intros ->. Qed.

Lemma held_finish e cont : m_flags e = 0 -> held (PcFinish e cont) = [m_pe e].
Proof. destruct e as [f pe]. simpl. by intros ->. Qed.

Lemma held_apart c i j p q e e' :
  inv c -> i <> j -> c_ts c !! i = Some p -> c_ts c !! j = Some q -> held p = [e] -> held q = [e'] ->
  event_ident e <> event_ident e'.
Proof.
  intros Hinv Hij Hp Hq He He'.
  apply (held_exclusive _ _ _ i j p q e e' (iv_core _ Hinv)); [done..|rewrite He|rewrite He']; apply list_elem_of_singleton; done.
Qed.

Lemma bodies_unique x i j b b' :
  tinv x -> t_bodies x !! i = Some b -> t_bodies x !! j = Some b' -> i = j.
Proof.
  intros Hx Hi Hj. destruct (decide (i = j)) as [|Hne]; [done|exfalso].
  destruct (ti_body _ Hx _ _ Hi) as [e He], (ti_body _ Hx _ _ Hj) as [e' He'].
  destruct (ti_in _ Hx _ _ He) as (Hid & Hf & _), (ti_in _ Hx _ _ He') as (Hid' & Hf' & _).
  apply (held_apart _ i j _ _ (m_pe e) (m_pe e') (ti_inv _ Hx) Hne He He'); [by apply held_handler..|congruence].
Qed.

(** The map of a worker's statement: it is the only one. *)
Lemma bodies_single x i b :
  tinv x -> t_bodies x !! i = Some b -> t_bodies x = {[i := b]}.
Proof.
  intros Hx Hi. apply map_eq. intros j. destruct (decide (j = i)) as [->|Hne]; [by rewrite lookup_singleton_eq|].
  rewrite lookup_singleton_ne by done. destruct (t_bodies x !! j) as [b'|] eqn:Hj; [|done].
  by destruct Hne; apply (bodies_unique x j i b' b).
Qed.

(** *** Workers that others leave where they are *)

(** Not waiting, and not about to lock: others do not move such a worker. *)
Definition stays (p : pc) : bool := match p with PcHandler g _ => g =? h | PcFinish _ _ => true | _ => false end.

Lemma stays_settled p : stays p = true -> settled p = true.
Proof. by destruct p. Qed.

Lemma others_at fd c c' j p :
  others fd h c c' -> stays p = true -> c_ts c !! j = Some p -> c_ts c' !! j = Some p.
Proof.
  intros Ho Hp. pose proof (stays_settled p Hp) as Hp'. destruct Ho as [st ts sub sta i g ev a e' b st' ts' Hg Ha Hi Hrm Hrun Hsig|st ts sub sta i g ev cont Hg Ha Hi
    |st ts sub sta f st' ts' Ha Hrun Hsig|?|?|st ts sub sta st' Ha Hrun|st ts sub sta st' Ha Hrun|?|?]; cbn [c_ts]; intros Hj; try done.
  - apply (moved_at b ts ts' i j _ _ p Hsig Hi Hp'). case_decide as Hji; [|done]. subst. rewrite Hi in Hj. injection Hj as <-.
    simpl in Hp. lia.
  - rewrite list_lookup_insert_ne; [done|]. intros ->. rewrite Hi in Hj. injection Hj as <-. simpl in Hp. lia.
  - by apply (signal_at ts).
  - by apply broadcast_at.
  - by apply app_at.
Qed.

Lemma others_in fd c c' j e :
  others fd h c c' -> c_ts c' !! j = Some (PcHandler h e) -> c_ts c !! j = Some (PcHandler h e).
Proof.
  assert (settled (PcHandler h e) = true) as Hp by done.
  intros Ho. destruct Ho as [st ts sub sta i g ev a e' b st' ts' Hg Ha Hi Hrm Hrun Hsig|st ts sub sta i g ev cont Hg Ha Hi
    |st ts sub sta f st' ts' Ha Hrun Hsig|?|?|st ts sub sta st' Ha Hrun|st ts sub sta st' Ha Hrun|?|?]; cbn [c_ts]; intros Hj; try done.
  - apply (moved_at b ts ts' i j _ _ _ Hsig Hi Hp) in Hj. case_decide; [congruence|done].
  - apply list_lookup_insert_Some in Hj as [(_ & Hbad & _)|[_ Hj]]; [done|done].
  - by apply (signal_at ts ts').
  - by apply (broadcast_at ts j _ Hp) in Hj.
  - by apply (app_at ts j _ Hp) in Hj.
Qed.

(** *** Every step keeps the invariant *)

(** Nobody enters the handler after the third call returned. *)
Lemma no_fourth x i ke :
  tinv x -> c_ts (t_c x) !! i = Some (PcFetch ke) -> event_ident ke = t_fd x -> t_bodies x = ∅ ->
  sh_count (t_sh x) < 3.
Proof.
  intros Hx Hi Hid Hemp. destruct (ti_idle _ Hx Hemp) as (Hc & _ & Hg).
  destruct (decide (sh_count (t_sh x) = 3)) as [H3|]; [exfalso|lia].
  destruct (Hg H3) as [_ [(j & e & Hj & Hf & He)|(e & He & Hinv)]].
  - assert (i <> j) as Hij by (intros ->; congruence).
    apply (held_apart _ i j _ _ ke (m_pe e) (ti_inv _ Hx) Hij Hi Hj); [done|by apply held_finish|congruence].
  - apply (held_apart _ (S i) 0 (PcFetch ke) (ghost h e) ke e Hinv); [done|exact Hi|done|done|done|congruence].
Qed.

Lemma enter_same i p bodies : (forall e, p <> PcHandler h e) -> enter h i p bodies = bodies.
Proof.
  intros Hp. destruct p as [| |t l| |ke| |n|ke|ke|g e|e cont|ident| |]; try done. simpl. destruct (Z.eqb_spec g h); [|done].
  subst. by destruct (Hp e).
Qed.

(** A worker gets to the handler. *)
Lemma thread_enters_tinv fd st ts sub sta sh bodies i p e b st' ts' :
  tinv (TConf fd (Conf st ts sub sta) sh bodies) -> alive ts' -> ts !! i = Some p -> is_handler p = false ->
  thread_code p st = Ret (PcHandler h e, b) st' -> signalled b (<[i := PcHandler h e]> ts) ts' ->
  tinv (TConf fd (Conf st' ts' sub (sta ++ taken p (PcHandler h e))) sh (<[i := BRead]> bodies)).
Proof.
  intros Hx Ha' Hi Hh Hrun Hsig.
  pose proof (thread_inv _ _ _ _ _ _ _ _ _ _ (ti_inv _ Hx) Hi Hrun Hsig Ha') as Hinv'.
  destruct (thread_enters _ _ _ _ _ _ Hh Hrun) as (ke & -> & -> & -> & -> & Hr & Hk).
  simpl in Hsig. subst ts'. apply (ti_table _ Hx) in Hk. cbn [t_fd t_c c_st] in *.
  assert (event_ident ke = fd) as Hid by (unfold table_range in Hr; lia).
  assert (bodies = ∅) as ->.
  { apply map_empty. intros j. destruct (bodies !! j) as [bj|] eqn:Hj; [exfalso|done].
    destruct (ti_body _ Hx j bj Hj) as [e' He']. destruct (ti_in _ Hx _ _ He') as (Hid' & Hf' & _). cbn [t_c c_ts t_fd] in *.
    assert (i <> j) as Hij by (intros ->; congruence).
    apply (held_apart _ i j _ _ ke (m_pe e') (ti_inv _ Hx) Hij Hi He'); [done|by apply held_handler|congruence]. }
  pose proof (no_fourth _ i ke Hx Hi Hid eq_refl) as H3. destruct (ti_idle _ Hx eq_refl) as (Hc & Hpr & _).
  cbn [t_sh] in *. split; cbn [t_c t_sh t_fd t_bodies c_ts c_st]; [exact Hinv'|..].
  - intros j e Hj. apply list_lookup_insert_Some in Hj as [(<- & Heq & _)|[Hne Hj]].
    + injection Heq as <-. by rewrite lookup_insert_eq.
    + destruct (ti_in _ Hx _ _ Hj) as (_ & _ & [b Hb]). done.
  - intros j b Hj. apply lookup_insert_Some in Hj as [[<- <-]|[_ Hj]]; [|done].
    exists (EventImpl 0 ke). apply list_lookup_insert_eq. by eapply lookup_lt_Some.
  - apply (ti_table _ Hx).
  - intros j b Hj. apply lookup_insert_Some in Hj as [[<- <-]|[_ Hj]]; [|done]. split; [lia|done].
  - intros Hbad. by apply insert_non_empty in Hbad.
Qed.

(** A worker does something else. *)
Lemma thread_tinv fd st ts sub sta sh bodies i p p' b st' ts' :
  tinv (TConf fd (Conf st ts sub sta) sh bodies) -> alive ts -> alive ts' -> ts !! i = Some p -> is_handler p = false ->
  (forall e, p' <> PcHandler h e) ->
  thread_code p st = Ret (p', b) st' -> signalled b (<[i := p']> ts) ts' ->
  tinv (TConf fd (Conf st' ts' sub (sta ++ taken p p')) sh bodies).
Proof.
  intros Hx Ha Ha' Hi Hh Hp' Hrun Hsig.
  pose proof (thread_inv _ _ _ _ _ _ _ _ _ _ (ti_inv _ Hx) Hi Hrun Hsig Ha') as Hinv'.
  destruct (respects_run _ _ _ _ _ (thread_code_steady h p) Hrun) as [Hend Htab].
  assert (forall j e, ts' !! j = Some (PcHandler h e) <-> ts !! j = Some (PcHandler h e)) as Hsame.
  { intros j e. etrans; [by apply (moved_at b ts ts' i j _ _ _ Hsig Hi)|]. case_decide as Hj; [|done].
    subst j. rewrite Hi. split; [by intros []%Hp'|by intros [= ->]]. }
  split; cbn [t_c t_sh t_fd t_bodies c_ts c_st]; [exact Hinv'|..].
  - intros j e Hj. by apply Hsame, (ti_in _ Hx) in Hj.
  - intros j bj [e He]%(ti_body _ Hx). exists e. by apply Hsame.
  - intros k Hk. by apply (ti_table _ Hx), Htab.
  - intros j bj Hj. destruct (ti_agrees _ Hx _ _ Hj) as [H0 Hag]. cbn [t_c c_st t_sh] in *. split; [done|].
    destruct bj; try done. destruct Hag as (? & ? & ? & Hr). split_and!; auto.
  - intros Hemp. destruct (ti_idle _ Hx Hemp) as (Hc & Hpr & Hg). cbn [t_c c_st c_ts t_sh t_fd] in *.
    split_and!; [lia..|done|]. intros H3. destruct (Hg H3) as [He Hgone]. split; [by apply Hend|].
    destruct Hgone as [(j & e & Hj & Hf & Hid)|(e & Hid & Hginv)].
    + destruct (decide (j = i)) as [->|Hne].
      * right. assert (p = PcFinish e false) as -> by congruence. destruct st as [l w].
        assert (is_reactivated e = false /\ is_removed e = false) as [Hre Hrm]
          by (unfold is_reactivated, is_removed; by rewrite Hf).
        destruct (finish_gone h l w ts i e p' b st' (iv_core _ (ti_inv _ Hx)) Hi Hre Hrm Hrun) as (-> & -> & Hl & Hcore).
        simpl in Hsig. subst ts'. exists (m_pe e). split; [done|]. apply ghosted_inv; [exact Hinv'|exact Hcore].
      * left. exists j, e. split; [|done]. apply (moved_at b ts ts' i j _ _ _ Hsig Hi); [done|].
        by rewrite decide_False.
    + right. exists e. split; [done|]. eapply step_inv; [exact Hginv| |by apply alive_cons].
      exact (ghosted_thread h e _ _ _ _ _ _ _ _ _ _ Ha Hi Hh Hrun Hsig).
Qed.

(** Others do something. *)
Lemma others_tinv fd c c' sh bodies :
  tinv (TConf fd c sh bodies) -> alive (c_ts c') -> others fd h c c' -> tinv (TConf fd c' sh bodies).
Proof.
  intros Hx Ha' Ho. pose proof (step_inv _ _ (ti_inv _ Hx) (others_step _ _ _ _ Ho) Ha') as Hinv'.
  destruct (others_steady _ _ _ _ Ho) as [Hend Htab].
  split; cbn [t_c t_sh t_fd t_bodies]; [exact Hinv'|..].
  - intros j e Hj. by apply (others_in fd c), (ti_in _ Hx) in Hj.
  - intros j bj [e He]%(ti_body _ Hx). exists e. eapply others_at; [exact Ho|simpl; lia|exact He].
  - intros k Hk. by apply (ti_table _ Hx), Htab.
  - intros j bj Hj. destruct (ti_agrees _ Hx _ _ Hj) as [H0 Hag]. cbn [t_c t_sh] in *. split; [done|].
    destruct bj; try done. destruct Hag as (? & ? & ? & Hr). split_and!; auto.
  - intros Hemp. destruct (ti_idle _ Hx Hemp) as (Hc & Hpr & Hg). cbn [t_c t_sh t_fd] in *.
    split_and!; [lia..|done|]. intros H3. destruct (Hg H3) as [He Hgone]. split; [by apply Hend|].
    destruct Hgone as [(j & e & Hj & Hf & Hid)|(e & Hid & Hginv)].
    + left. exists j, e. split; [|done]. by eapply others_at; [exact Ho| |].
    + right. exists e. split; [done|]. eapply step_inv; [exact Hginv| |by apply alive_cons].
      eapply ghosted_others; [exact Hid|exact Ho].
Qed.

(** One statement: what it needs, what it leaves, and that it is defined. *)
Lemma body_code_ok e b (st : lst) sh :
  agrees b sh (m_end_flag (fst st)) -> is_return b = false ->
  exists b' st' sh', body_code s e b (st, sh) = Ret b' (st', sh') /\
    agrees b' sh' (m_end_flag (fst st')) /\ m_state (fst st') = m_state (fst st) /\
    if is_end_call b then end_loop st = Ret tt st'
    else fst st' = fst st /\ (snd st' = snd st \/
      exists n a, snd st' = World (w_trace (snd st) ++ [Sys (Read (ev_ident e) n) a]) (w_alloc (snd st))).
Proof.
  destruct st as [l w], sh as [count printed]. intros [H0 Hag] Hr. cbn [sh_count sh_printed fst snd] in *.
  destruct b as [| | |v|v| |r]; try done; cbn [body_code is_end_call].
  - destruct Hag as [-> Hc]. exists BPrint.
    destruct s; do 2 eexists; (split; [reflexivity|]); (split; [split_and!; simpl; [lia|done|lia]|]); (split; [done|]);
      (split; [done|]); right; by do 2 eexists.
  - destruct Hag as [-> Hc]. do 3 eexists. split; [reflexivity|]. split; [split_and!; simpl; lia|].
    split; [done|]. split; [done|by left].
  - destruct Hag as [-> Hc]. do 3 eexists. split; [reflexivity|]. split; [split_and!; simpl; [lia|done|done|lia]|].
    split; [done|]. split; [done|by left].
  - destruct Hag as (-> & -> & Hc). destruct (Z.ltb_spec count INT_MAX); [|unfold INT_MAX in *; lia].
    do 3 eexists. split; [reflexivity|]. split; [split_and!; simpl; lia|]. split; [done|]. split; [done|by left].
  - destruct Hag as (-> & -> & Hc). do 3 eexists. split; [reflexivity|]. split; [|split; [done|]; split; [done|by left]].
    destruct (Z.leb_spec 3 count); (split; [done|]); simpl; [split; [done|lia]|].
    split_and!; [done|lia|symmetry; by apply Z.ltb_lt|done].
  - destruct Hag as (-> & ->). do 3 eexists. split; [reflexivity|]. split; [|done]. split; [done|]. simpl. by split_and!.
Qed.

(** A worker executes a statement of the callback. *)
Lemma body_tinv fd st ts sub sta sh bodies i e b b' st' sh' :
  tinv (TConf fd (Conf st ts sub sta) sh bodies) -> ts !! i = Some (PcHandler h e) ->
  bodies !! i = Some b -> is_return b = false ->
  body_code s (m_pe e) b (st, sh) = Ret b' (st', sh') ->
  tinv (TConf fd (Conf st' (if is_end_call b then broadcast ts else ts) sub sta) sh' (<[i := b']> bodies)).
Proof.
  intros Hx Hi Hb Hr Hrun. pose proof (ti_agrees _ Hx _ _ Hb) as Hag. cbn [t_sh t_c c_st] in Hag.
  destruct (body_code_ok (m_pe e) b st sh Hag Hr) as (b1 & st1 & sh1 & Hrun1 & Hag1 & Hs & Hst).
  rewrite Hrun in Hrun1. injection Hrun1 as <- <- <-.
  assert (bodies = {[i := b]}) as -> by (exact (bodies_single _ i b Hx Hb)).
  rewrite insert_singleton_eq.
  assert (forall j e', (if is_end_call b then broadcast ts else ts) !! j = Some (PcHandler h e') <->
    ts !! j = Some (PcHandler h e')) as Hsame.
  { intros j e'. destruct (is_end_call b); [|done]. by apply broadcast_at. }
  split; cbn [t_c t_sh t_fd t_bodies c_ts c_st].
  - pose proof (ti_inv _ Hx) as Hinv. cbn [t_c] in Hinv. destruct (is_end_call b); [by eapply end_inv|].
    eapply inv_unaffected; [exact Hinv|]. destruct st as [l w], st' as [l' w']. simpl in Hst. destruct Hst as [-> Hw].
    split; [|done]. cbn [fst snd]. pose proof (iv_core _ Hinv) as Hc. cbn [c_st c_ts fst snd] in Hc.
    destruct Hw as [->|(n & a & ->)]; [done|]. by apply core_call.
  - intros j e' Hj%Hsame. destruct (ti_in _ Hx _ _ Hj) as (? & ? & [bj Hbj]). cbn [t_bodies t_fd] in *.
    split_and!; [done..|]. apply lookup_singleton_Some in Hbj as [<- _]. by rewrite lookup_singleton_eq.
  - intros j bj [<- <-]%lookup_singleton_Some. exists e. by apply Hsame.
  - rewrite Hs. apply (ti_table _ Hx).
  - intros j bj [<- <-]%lookup_singleton_Some. done.
  - intros Hbad. by apply map_non_empty_singleton in Hbad.
Qed.

(** The handler returns. *)
Lemma return_tinv fd st ts sub sta sh bodies i e r :
  tinv (TConf fd (Conf st ts sub sta) sh bodies) -> ts !! i = Some (PcHandler h e) -> bodies !! i = Some (BReturn r) ->
  tinv (TConf fd (Conf st (<[i := PcFinish e (r && periodic s)]> ts) sub sta) sh (delete i bodies)).
Proof.
  intros Hx Hi Hb. destruct (ti_agrees _ Hx _ _ Hb) as (H0 & Hpr & H3 & Hr & Hend).
  destruct (ti_in _ Hx _ _ Hi) as (Hid & Hf & _). cbn [t_sh t_c c_st t_fd] in *.
  assert (bodies = {[i := BReturn r]}) as -> by (exact (bodies_single _ i _ Hx Hb)). rewrite delete_singleton_eq.
  pose proof (return_inv _ _ _ _ _ _ _ (r && periodic s) (ti_inv _ Hx) Hi) as Hinv'.
  split; cbn [t_c t_sh t_fd t_bodies c_ts c_st]; [exact Hinv'| |done| |done|].
  - intros j e' Hj. apply list_lookup_insert_Some in Hj as [(_ & Hbad & _)|[Hne Hj]]; [done|].
    destruct (ti_in _ Hx _ _ Hj) as (_ & _ & [bj Hbj]). cbn [t_bodies] in Hbj. by apply lookup_singleton_Some in Hbj as [? _].
  - apply (ti_table _ Hx).
  - intros _. split_and!; [lia..|done|]. intros Hc. rewrite Hc in Hr. simpl in Hr. split; [by apply Hend|]. left.
    exists i, e. rewrite Hr. cbn [andb]. split; [|done]. apply list_lookup_insert_eq. by eapply lookup_lt_Some.
Qed.

(** The beginning. *)
Lemma start_tinv c callback fd st' :
  inv c -> unused h c -> new_descriptor (source_call s) (fst (c_st c)) (snd (c_st c)) (c_ts c) ->
  setup s callback h (c_st c) = Ret fd st' ->
  tinv (TConf fd (Conf st' (c_ts c) (c_submitted c) (c_started c)) (Shared 0 0) ∅).
Proof.
  intros Hinv [Hu1 Hu2] Hn Hrun.
  assert (registered (fst (c_st c)) (c_ts c) fd h st') as Hreg.
  { destruct c as [[l w] ts sub sta]. pose proof (iv_core _ Hinv) as Hc. cbn [c_st c_ts fst snd] in *.
    destruct s; [exact (wp_at _ _ _ _ _ _ (add_timer_core l w ts _ _ callback h Hc Hn) Hrun)
      |exact (wp_at _ _ _ _ _ _ (add_signal_core l w ts _ callback h Hc Hn) Hrun)]. }
  pose proof (registered_inv _ _ _ _ Hinv Hreg) as Hinv'. destruct Hreg as (_ & Hl & Hr & _).
  split; cbn [t_c t_sh t_fd t_bodies c_ts c_st]; [exact Hinv'| |done| |done|].
  - intros i e Hi. apply list_elem_of_lookup_2 in Hi. by destruct (Hu2 e).
  - intros k. rewrite Hl. simpl. intros Hk. apply list_lookup_insert_Some in Hk as [(<- & _)|[_ Hk]]; [|by destruct (Hu1 k)].
    unfold table_range in Hr. lia.
  - intros _. split_and!; simpl; [lia..|done|lia].
Qed.

Lemma tstep_alive x x' : tstep s h x x' -> alive (c_ts (t_c x)).
Proof. destruct 1 as [| ? ? ? ? ? Ho| |]; [done|by eapply step_alive, others_step|done..]. Qed.

Lemma treach_inv x : treach s h x -> alive (c_ts (t_c x)) -> tinv x.
Proof.
  induction 1 as [c callback fd st' Hr Hal Hu Hn Hrun|x x' Hr IH Hs]; intros Ha.
  { eapply start_tinv; [by apply conf_inv|done..]. }
  specialize (IH (tstep_alive _ _ Hs)).
  destruct Hs as [fd st ts sub sta sh bodies i p p' b st' ts' Hal Hi Hh Hrun Hsig|fd c c' sh bodies Ho
    |fd st ts sub sta sh bodies i e b b' st' sh' Hal Hi Hb Hret Hrun|fd st ts sub sta sh bodies i e r Hal Hi Hb];
    cbn [t_c c_ts] in Ha.
  - assert ((exists e, p' = PcHandler h e) \/ forall e, p' <> PcHandler h e) as [[e ->]|Hp'].
    { destruct p' as [| |t l| |ke| |n|ke|ke|g e|e cont|ident| |]; try (by right). destruct (decide (g = h)) as [->|]; [left; eauto|].
      right. intros e' [=]. done. }
    + cbn [enter]. rewrite Z.eqb_refl. by eapply thread_enters_tinv.
    + rewrite enter_same by done. by eapply thread_tinv.
  - by eapply others_tinv.
  - by eapply body_tinv.
  - by eapply return_tinv.
Qed.
End Invariant.

(** ** Properties *)

Section Properties.
Context {OS : Os} {Spec : OsSpec OS} {ESpec : EpollSpec OS}.

(** C7. The counter that the callbacks of test/timer.cc, test/signal.cc and
    test/handler.cc keep without a lock is exact, on any number of workers and
    whatever else happens in the loop: at most one worker is in the callback,
    every statement of it is defined, the callback is called at most three times,
    and when no worker is in it the counter is the number of calls and, from the
    third call on, the loop was ended. *)
Theorem callback_counts (s : source) (h : Z) (x : tconf) (Hr : treach s h x) (Ha : alive (c_ts (t_c x))) :
  (forall i j e e', c_ts (t_c x) !! i = Some (PcHandler h e) -> c_ts (t_c x) !! j = Some (PcHandler h e') -> i = j) /\
  (forall i e, c_ts (t_c x) !! i = Some (PcHandler h e) ->
     exists b, t_bodies x !! i = Some b /\
       exists b' st', body_code s (m_pe e) b (c_st (t_c x), t_sh x) = Ret b' st') /\
  0 <= sh_count (t_sh x) <= sh_printed (t_sh x) /\ sh_printed (t_sh x) <= 3 /\
  ((forall e, PcHandler h e ∉ c_ts (t_c x)) -> sh_count (t_sh x) = sh_printed (t_sh x) /\
     (sh_printed (t_sh x) = 3 -> m_end_flag (fst (c_st (t_c x))) = true)).
Proof.
  pose proof (treach_inv s h x Hr Ha) as Hx. split_and!.
  - intros i j e e' Hi Hj. destruct (ti_in _ _ Hx _ _ Hi) as (_ & _ & [b Hb]), (ti_in _ _ Hx _ _ Hj) as (_ & _ & [b' Hb']).
    by apply (bodies_unique h x i j b b').
  - intros i e Hi. destruct (ti_in _ _ Hx _ _ Hi) as (_ & _ & [b Hb]). exists b. split; [done|].
    destruct (is_return b) eqn:Hret; [by destruct b; eauto|].
    destruct (body_code_ok s (m_pe e) b (c_st (t_c x)) (t_sh x) (ti_agrees _ _ Hx _ _ Hb) Hret) as (b' & st' & sh' & Hrun & _). eauto.
  - destruct (decide (t_bodies x = ∅)) as [He|(i & b & Hb)%map_choose]; [apply (ti_idle _ _ Hx) in He; lia|].
    by destruct (ti_agrees _ _ Hx _ _ Hb).
  - destruct (decide (t_bodies x = ∅)) as [He|(i & b & Hb)%map_choose]; [apply (ti_idle _ _ Hx) in He; lia|].
    destruct (ti_agrees _ _ Hx _ _ Hb) as [_ Hag]. destruct b; simpl in Hag; lia.
  - destruct (decide (t_bodies x = ∅)) as [He|(i & b & Hb)%map_choose]; [apply (ti_idle _ _ Hx) in He; lia|].
    destruct (ti_agrees _ _ Hx _ _ Hb) as [_ Hag]. destruct b; simpl in Hag; lia.
  - intros Hno. assert (t_bodies x = ∅) as He.
    { apply map_empty. intros i. destruct (t_bodies x !! i) as [b|] eqn:Hb; [|done].
      destruct (ti_body _ _ Hx _ _ Hb) as [e Hi]. by destruct (Hno e); eapply list_elem_of_lookup_2. }
    destruct (ti_idle _ _ Hx He) as (Hc & Hp & Hend). split; [done|]. intros H3. apply Hend. lia.
Qed.
End Properties.

(** ** A run of test/timer.cc

    Four workers take turns; the timer is always due. *)
Section Run.
#[local] Instance count_os : Os := ready_os [].

Definition tenth : timespec := (0, 100000000).

(** [0.1], the nearest double, as [add_timer] converts it. *)
Definition tenth_sec : double := S754_finite false 7205759403792794 (-56).

Lemma tenth_converts w : sec2spec tenth_sec w = Ret tenth w.
Proof. by vm_compute. Qed.

(** [main] of test/timer.cc; [number] is the number of the handler. *)
Definition timer_main {OS : Os} (callback number : Z) (destroy : Z -> M world unit) : M world unit :=
  l ← loop_new (K := epoll_kernel OS);
  _ ← with_loop
    (_ ← (catch (_ ← add_timer_sec tenth_sec tenth_sec callback (fun _ => number); run 4)
            (fun e => _ ← loop_delete destroy; throw e));
     loop_delete destroy) l;
  mret tt.

(** [main] of test/signal.cc before it sends itself the signal. *)
Definition signal_main {OS : Os} (callback number : Z) : M (@loop OS (epoll_kernel OS) * world) unit :=
  _ ← add_signal SIGUSR1 callback (fun _ => number);
  start 3.

(** The mains, as far as the main thread goes: the timer registered, four workers
    started and joined; the signal registered and three workers started. *)
Lemma mains_run :
  match timer_main (OS := ready_os []) 7 100 (fun _ => mret tt) (World [] []) with
  | Ret _ w => Some (calls TimerfdCreate (w_trace w), calls PthreadCreate (w_trace w), calls (PthreadJoin 3) (w_trace w))
  | _ => None
  end = Some (1, 4, 1) /\
  match (l ← loop_new; with_loop (signal_main (OS := ready_os []) 7 100) l) (World [] []) with
  | Ret l w => Some (calls (Signalfd SIGUSR1) (w_trace w), calls PthreadCreate (w_trace w), m_workers l)
  | _ => None
  end = Some (1, 3, 3).
Proof. split; by vm_compute. Qed.

(** What the three programs register. *)
Definition timer_cc : source := SrcTimer (Some tenth) (Some tenth).
Definition handler_cc : source := SrcTimer (Some tenth) (Some tenth).
Definition signal_cc : source := SrcSignal SIGUSR1.

Definition test_source : source := timer_cc.
Definition test_handler : Z := 100.

(** The next step of worker [i]. *)
Definition run_worker (i : nat) (x : @tconf count_os) : option (@tconf count_os) :=
  let '(TConf fd (Conf st ts sub sta) sh bodies) := x in
  match ts !! i, bodies !! i with
  | Some (PcHandler g e), Some (BReturn r) =>
      if g =? test_handler
      then Some (TConf fd (Conf st (<[i := PcFinish e (r && periodic test_source)]> ts) sub sta) sh (delete i bodies))
      else None
  | Some (PcHandler g e), Some b =>
      if g =? test_handler then
        match body_code test_source (m_pe e) b (st, sh) with
        | Ret b' (st', sh') =>
            Some (TConf fd (Conf st' (if is_end_call b then broadcast ts else ts) sub sta) sh' (<[i := b']> bodies))
        | _ => None
        end
      else None
  | Some (PcHandler g e), None => None
  | Some p, _ =>
      match thread_code p st with
      | Ret (p', b) st' =>
          Some (TConf fd (Conf st' (woken b (<[i := p']> ts)) sub (sta ++ taken p p')) sh (enter test_handler i p' bodies))
      | _ => None
      end
  | None, _ => None
  end.

Definition add_worker (x : @tconf count_os) : option (@tconf count_os) :=
  let '(TConf fd (Conf st ts sub sta) sh bodies) := x in
  match add_thread 1 st with
  | Ret tt st' => Some (TConf fd (Conf st' (ts ++ [PcLock]) sub sta) sh bodies)
  | _ => None
  end.

(** [n] more workers, then the workers in the order of the list. *)
Fixpoint run_workers (is_ : list nat) (x : @tconf count_os) : option (@tconf count_os) :=
  match is_ with
  | [] => Some x
  | i :: is_ => if is_alive (c_ts (t_c x)) then run_worker i x ≫= run_workers is_ else None
  end.

Fixpoint add_workers (n : nat) (x : @tconf count_os) : option (@tconf count_os) :=
  match n with
  | O => Some x
  | S n => if is_alive (c_ts (t_c x)) then add_worker x ≫= add_workers n else None
  end.

Lemma run_worker_step i x x' : alive (c_ts (t_c x)) -> run_worker i x = Some x' -> tstep test_source test_handler x x'.
Proof.
  destruct x as [fd [st ts sub sta] sh bodies]. cbn [t_c c_ts]. intros Ha. unfold run_worker.
  destruct (ts !! i) as [p|] eqn:Hi; [|done]. destruct (is_handler p) eqn:Hh.
  - destruct p as [| |t l| |ke| |n|ke|ke|g e|e cont|ident| |]; try done.
    destruct (bodies !! i) as [b|] eqn:Hb; [|done]. destruct (Z.eqb_spec g test_handler) as [->|]; [|by destruct b].
    destruct (is_return b) eqn:Hr.
    + destruct b as [| | | | | |r]; try done. intros [= <-]. by apply t_return.
    + assert (match body_code test_source (m_pe e) b (st, sh) with
        | Ret b' (st', sh') => Some (TConf fd (Conf st' (if is_end_call b then broadcast ts else ts) sub sta) sh' (<[i := b']> bodies))
        | _ => None end = Some x' -> tstep test_source test_handler (TConf fd (Conf st ts sub sta) sh bodies) x') as Hstep.
      { destruct (body_code _ _ _ _) as [b' [st' sh']|? ?| |] eqn:Hrun; [|done..]. intros [= <-]. by eapply t_body. }
      destruct b; try done; exact Hstep.
  - intros Hrun. assert (match thread_code p st with
      | Ret (p', b) st' => Some (TConf fd (Conf st' (woken b (<[i := p']> ts)) sub (sta ++ taken p p')) sh (enter test_handler i p' bodies))
      | _ => None end = Some x') as Hrun' by (destruct p; try done; destruct (bodies !! i); exact Hrun).
    destruct (thread_code p st) as [[p' b] st'|? ?| |] eqn:Hcode; [|done..]. injection Hrun' as <-.
    eapply t_thread; [done..|apply woken_signalled].
Qed.

Lemma run_workers_treach is_ x x' : treach test_source test_handler x -> run_workers is_ x = Some x' -> treach test_source test_handler x'.
Proof.
  revert x. induction is_ as [|i is_ IH]; intros x Hr; simpl; [by intros [= <-]|].
  destruct (is_alive (c_ts (t_c x))) eqn:Ha; [|done]. destruct (run_worker i x) as [x1|] eqn:Hm; [|done]. simpl.
  apply IH. eapply tr_step; [exact Hr|]. by eapply run_worker_step; [apply is_alive_spec|].
Qed.

Lemma add_workers_treach n x x' : treach test_source test_handler x -> add_workers n x = Some x' -> treach test_source test_handler x'.
Proof.
  revert x. induction n as [|n IH]; intros x Hr; simpl; [by intros [= <-]|].
  destruct (is_alive (c_ts (t_c x))) eqn:Ha; [|done]. destruct (add_worker x) as [x1|] eqn:Hm; [|done]. simpl.
  apply IH. eapply tr_step; [exact Hr|]. destruct x as [fd [st ts sub sta] sh bodies]. unfold add_worker in Hm.
  destruct (add_thread 1 st) as [[] st'|? ?| |] eqn:Hrun; [|done..]. injection Hm as <-.
  apply t_others, others_add_thread; [by apply is_alive_spec|done].
Qed.

Definition test_start : option (@tconf count_os) :=
  match setup test_source 7 test_handler (w_l, w_w) with
  | Ret fd st' => Some (TConf fd (Conf st' [] [] []) (Shared 0 0) ∅)
  | _ => None
  end.

(** [n] rounds. *)
Definition rounds (n : nat) : list nat := mjoin (replicate n [0; 1; 2; 3]%nat).

Definition test_run (n : nat) : option (@tconf count_os) :=
  x ← test_start; x ← add_workers 4 x; run_workers (rounds n) x.

Definition seen (x : @tconf count_os) : Z * Z * bool * bool :=
  (sh_count (t_sh x), sh_printed (t_sh x), m_end_flag (fst (c_st (t_c x))),
   forallb (fun p => match p with PcExit => true | _ => false end) (c_ts (t_c x))).

Lemma test_run_treach n x : test_run n = Some x -> treach test_source test_handler x.
Proof.
  unfold test_run, test_start. destruct (setup _ _ _ _) as [fd st'|? ?| |] eqn:Hset; [|done..]. cbn [mbind option_bind].
  destruct (add_workers 4 _) as [y|] eqn:Hw; [|done]. cbn [mbind option_bind]. apply run_workers_treach.
  eapply add_workers_treach; [|exact Hw].
  apply (tr_start test_source test_handler w_loop 7 fd st'); [constructor; apply w_initial| | | |exact Hset].
  - by intros p ?%not_elem_of_nil.
  - split; [|by intros e ?%not_elem_of_nil]. intros k Hk. apply list_lookup_insert_Some in Hk as [(_ & Hbad & _)|[_ Hk]]; [done|].
    by apply lookup_replicate in Hk as [? _].
  - intros n2 out Hs. vm_compute in Hs. injection Hs as <- _. split_and!; [decided|decided|].
    change (0 <= 8 < 16). lia.
Qed.

Definition test_end : @tconf count_os := default (TConf 0 w_loop (Shared 0 0) ∅) (test_run 36).

(** All workers left; the callback was called three times. *)
Lemma callback_counts_witness :
  seen test_end = (3, 3, true, true) /\ length (c_ts (t_c test_end)) = 4%nat /\
  ((forall e, PcHandler test_handler e ∉ c_ts (t_c test_end)) -> sh_count (t_sh test_end) = sh_printed (t_sh test_end) /\
     (sh_printed (t_sh test_end) = 3 -> m_end_flag (fst (c_st (t_c test_end))) = true)).
Proof.
  split; [evaluated|]. split; [evaluated|].
  assert (treach test_source test_handler test_end) as Hr.
  { apply (test_run_treach 36). unfold test_end.
    assert (match test_run 36 with Some _ => true | None => false end = true) as H by evaluated.
    by destruct (test_run 36). }
  assert (alive (c_ts (t_c test_end))) as Ha by (apply is_alive_spec; evaluated).
  apply (callback_counts test_source test_handler test_end Hr Ha).
Defined.

(** On the way a worker is between the load and the store of the second call. *)
Lemma test_midway :
  (fun x => (map_to_list (t_bodies x), sh_count (t_sh x), sh_printed (t_sh x))) <$> test_run 16 = Some ([(3%nat, BStore 1)], 1, 2).
Proof. evaluated. Qed.
End Run.
