(* ===== verification/HandlerTest.v ===== *)
(** * test/handler.cc

    [writer_main] writes four bytes to a pipe fifteen times and flushes, in a loop
    without workers: [writer_delivers] follows it from the constructor of the loop to
    its destructor.  The reader's handler prints what it reads and ends its
    loop.  The timer of [reader_main] is in CountTest. *)

From Stdlib Require Import ZArith Lia.
From stdpp Require Import base tactics functions option list numbers gmap sets list_tactics.
From S2P Require Import Prelude Os Xfer XferQueue XferDecode Kernel KernelEpoll Out OutProps OutFrame Loop LoopThreads LoopCore LoopProps LoopLife LoopFlush FlushOutput Timer Listen CountTest.

Section Program.
Context {OS : Os}.

Abbreviation elt := (@loop OS (epoll_kernel OS)).
Abbreviation lst := (elt * world)%type.

(** ** The writer

    [wpipe] and the address of the literal are what [main] and the compiler chose. *)
Variables wpipe buf : Z.

(** [for(int i=0; i < n; ++i) { lo.write(wpipe, "test", 4); }] *)
Fixpoint writes (n : nat) : M lst unit :=
  match n with
  | O => mret tt
  | S n => _ ← on_m_out (loop_write wpipe buf 4); writes n
  end.

(** The program registers no tasks and no handlers. *)
Definition no_task (t : Z) : M lst unit := mret tt.
Definition no_read (h : Z) : M (lst * @event_impl OS (epoll_kernel OS)) bool := mret false.
Definition no_destroy (h : Z) : M world unit := mret tt.

Definition writer_body (fuel : nat) : M lst unit := _ ← writes 15; flush no_task no_read fuel.

(** The loop is destroyed on every way out. *)
Definition writer_main (fuel : nat) : M world unit :=
  l ← loop_new;
  _ ← with_loop
    (_ ← catch (writer_body fuel) (fun e => _ ← loop_delete no_destroy; throw e);
     loop_delete no_destroy) l;
  mret tt.

(** ** The reader

    [reader_main] up to the destruction of its loop; the handler of the pipe, the
    callback of the timer and the task are numbers. *)
Definition sizeof_test_handler : Z := 48.

Definition reader_body (rpipe h callback number my_function : Z) : M lst unit :=
  _ ← add_handler sizeof_test_handler rpipe h;
  _ ← add_timer_sec tenth_sec tenth_sec callback (fun _ => number);
  _ ← submit_impl my_function;
  run 4.

Definition reader_main (rpipe h callback number my_function : Z) (destroy : Z -> M world unit) : M world unit :=
  l ← loop_new;
  _ ← with_loop
    (_ ← (catch (reader_body rpipe h callback number my_function) (fun e => _ ← loop_delete destroy; throw e));
     loop_delete destroy) l;
  mret tt.

(** [handler::on_read]; a line is the number of bytes it says it read.  With an
    error other than EINTR and EAGAIN it goes on with -1; at the end of the pipe it
    throws with whatever [errno] was left. *)
Abbreviation rst := (lst * list Z)%type.

Definition reader_on_read (errno fd : Z) : M rst unit :=
  let say rl :=
    _ ← modify (fun st => (fst st, snd st ++ [rl]));
    zoom fst (fun l st => (l, snd st)) end_loop in
  r ← zoom fst (fun l st => (l, snd st)) (in_world (syscall (Read fd 512)));
  match r with
  | SysErr e => if would_retry e then mret tt else say (-1)
  | SysOk rl _ => if rl =? 0 then throw (SystemError errno) else say rl
  end.

(** What a call does, by what [read] answered: it prints at most one line, and ends
    the loop with it. *)
Lemma reader_on_read_ok errno fd (l : elt) w out :
  wp (reader_on_read errno fd)
    (fun _ st' => snd (fst st') = World (w_trace w ++ [Sys (Read fd 512) (sys (w_trace w) (Read fd 512))]) (w_alloc w) /\
       match sys (w_trace w) (Read fd 512) with
       | SysErr e => if would_retry e then fst (fst st') = l /\ snd st' = out
                     else fst (fst st') = set_end true l /\ snd st' = out ++ [-1]
       | SysOk rl _ => rl <> 0 /\ fst (fst st') = set_end true l /\ snd st' = out ++ [rl]
       end)
    (fun e st' => e = SystemError errno /\ fst (fst st') = l /\ snd st' = out /\ exists o, sys (w_trace w) (Read fd 512) = SysOk 0 o)
    (l, w, out).
Proof.
  unfold reader_on_read, wp, mbind, M_bind, zoom, in_world, zoom, syscall. cbn [fst snd].
  destruct (sys (w_trace w) (Read fd 512)) as [rl o|e]; cbn [fst snd].
  - destruct (Z.eqb_spec rl 0) as [->|Hrl]; [split_and!; try done; by eexists|done].
  - by destruct (would_retry e).
Qed.
End Program.

(** ** The writer delivers *)

Section Writer.
Context {OS : Os} {Spec : OsSpec OS} {ESpec : EpollSpec OS} {limit : Z} {DSpec : DescriptorSpec OS limit} {RS : Responsive OS}.

Abbreviation elt := (@loop OS (epoll_kernel OS)).
Abbreviation lst := (elt * world)%type.

Variables wpipe buf : Z.

(** The bytes of [n] writes. *)
Definition copies (n : nat) : list token := mjoin (replicate n (TMem <$> seqZ buf 4)).

(** After [n] writes. *)
Record written (n : nat) (acc : Z -> list token) (st : lst) : Prop := {
  wn_flushing : flushing acc (fst st) (snd st);
  wn_workers : m_workers (fst st) = 0;
  wn_range : in_range (m_out (fst st)) wpipe;
  wn_owed : owed_all (m_fdctx (m_out (fst st))) <= 5 * Z.of_nat n;
  wn_left : left_of (snd st) <= Z.of_nat (patience []);
  wn_total : ctx_total (m_out (fst st)) wpipe <= 72 * (2 ^ Z.of_nat n - 1);
  wn_unlisted : unlisted (m_out (fst st)) wpipe (snd st);
  wn_reg : registrable (m_kernel (m_out (fst st))) wpipe;
  wn_acc : acc wpipe = copies n
}.

(** What a write that throws leaves: a loop that can be destroyed. *)
Definition write_failed (e : exn) (st : lst) : Prop :=
  e = BadAlloc /\ m_workers (fst st) = 0 /\ exists acc, good (L := epoll_laws) (m_out (fst st), snd st) [] acc.

Hypothesis Hbuf : 0 <= buf /\ buf + 4 < 2 ^ 64.

Lemma push_test_ok n acc st :
  written n acc st -> (n <= 40)%nat ->
  push_ok (default xfer_new (m_fdctx (m_out (fst st)) !! Z.to_nat wpipe)) (PushWrite buf 4).
Proof.
  intros Hw Hn. split; [|split; [done|]].
  - split_and!; [done| |by right]. constructor; [|done]. unfold range_ok. simpl. lia.
  - pose proof (wn_total _ _ _ Hw) as Ht. unfold ctx_total in Ht.
    assert (2 ^ Z.of_nat n <= 2 ^ 40) by (apply Z.pow_le_mono_r; lia).
    destruct (m_fdctx _ !! Z.to_nat wpipe); simpl in *; [lia|done].
Qed.

Lemma copies_snoc n : copies n ++ (TMem <$> seqZ buf 4) = copies (S n).
Proof.
  induction n as [|n IH]; [done|]. change (copies (S n)) with ((TMem <$> seqZ buf 4) ++ copies n) at 1.
  by rewrite <-app_assoc, IH.
Qed.

Lemma write_once n acc l w :
  written n acc (l, w) -> (n <= 40)%nat ->
  wp (on_m_out (loop_write wpipe buf 4)) (fun _ st' => exists acc', written (S n) acc' st') write_failed (l, w).
Proof.
  intros Hw Hn. pose proof (push_test_ok _ _ _ Hw Hn) as Hp. destruct Hw as [Hf H0 Hr Ho Hl Ht Hu Hreg Hacc]. cbn [fst snd] in *.
  pose proof (loop_write_calmer wpipe buf 4 l w) as Hc.
  pose proof (write_flushing acc l w wpipe buf 4 Hf Hr Hp Hreg Hu) as Hwf. unfold wp in *.
  destruct (on_m_out (loop_write wpipe buf 4) (l, w)) as [[] [l' w']|e [l' w']| |]; cbn [fst snd] in *; [| |done|done].
  2:{ destruct Hwf as (-> & -> & Hg). by split. }
  destruct Hwf as (Hf' & (Ho' & _ & Hu' & Ht' & _) & [Hk Hlen] & Hl'). cbn [fst snd] in *.
  exists (<[wpipe := acc wpipe ++ (TMem <$> seqZ buf 4)]> acc).
  split; cbn [fst snd]; [exact Hf'|by rewrite Hl'| |lia|lia| |done|by rewrite Hk|].
  - unfold in_range in *. by rewrite Hlen.
  - rewrite Nat2Z.inj_succ, Z.pow_succ_r by lia. lia.
  - by rewrite fn_lookup_insert, Hacc, copies_snoc.
Qed.

Lemma writes_ok k n acc l w :
  written n acc (l, w) -> (n + k <= 40)%nat ->
  wp (writes wpipe buf k) (fun _ st' => exists acc', written (n + k) acc' st') write_failed (l, w).
Proof.
  revert n acc l w. induction k as [|k IH]; intros n acc l w Hw Hn; cbn [writes].
  - wp_step. exists acc. by rewrite Nat.add_0_r.
  - wp_step. eapply wp_mono; [..|apply (write_once n acc l w Hw); lia]; [|done].
    intros [] [l' w'] [acc' Hw']. replace (n + S k)%nat with (S n + k)%nat by lia. eapply IH; [done|lia].
Qed.

(** *** The loop that was constructed *)

Lemma calmer_loop_new : respects calmer (loop_new (OS := OS)).
Proof.
  assert (forall ident h l, respects calmer (with_loop (OS := OS) (set_handler ident h) l)) as Hset.
  { intros ident h l w. unfold with_loop, set_handler, get_loop, mbind, M_bind, get, mret, M_ret, upd_loop, modify, undef. cbn.
    destruct (_ && _); [apply Z.le_refl|done]. }
  unfold loop_new, out_new. cbn [kernel_new kernel_max kernel_delete epoll_kernel]. unfold epoll_new, epoll_max, epoll_delete, add_kernel.
  repeat first [apply respects_answer | apply (sf_can_alloc (R := calmer)) | apply Hset | respects_step].
Qed.

(** The write end of the pipe is open, so that no new epoll descriptor is that one; epoll_ctl(2)
    accepts a descriptor that is not in the list. *)
Hypothesis Hopen : forall tr size n out, sys tr (EpollCreate size) = SysOk n out -> n <> wpipe.
Hypothesis Hreg : forall ep fd, 0 <= fd < limit -> fd <> ep -> registrable ep fd.
Hypothesis Hpipe : 0 <= wpipe < limit.

(** A loop on which nothing was written. *)
Lemma initial_written l w :
  initial (Conf (l, w) [] [] []) -> epoll_armed (m_lkernel l) (w_trace w) = {[out_ident l]} ->
  all_accepted (L := epoll_laws) (w_trace w) -> Forall (fun ctx => ctx = xfer_new) (m_fdctx (m_out l)) -> m_queue (m_out l) = [] ->
  in_range (m_out l) wpipe -> wpipe ∉ known (m_kernel (m_out l)) (w_trace w) -> registrable (m_kernel (m_out l)) wpipe ->
  m_workers l = 0 -> left_of w <= Z.of_nat (patience []) ->
  written 0 (fun _ => []) (l, w).
Proof.
  intros (_ & _ & _ & Ho & Hn & _ & Hp & Hq & Hm & He & Hk & Hwf & _ & _ & Hg) Harm Hacc Hnew Hqe Hr Hu Hrg H0 Hl. cbn [c_st fst snd] in *.
  assert (forall ctxs, Forall (fun ctx => ctx = xfer_new) ctxs -> owed_all ctxs = 0) as Howed.
  { induction 1 as [|ctx ctxs -> _ IH]; [done|]. simpl. by rewrite IH. }
  split; cbn [fst snd]; try done.
  - split; try done; [congruence|]. rewrite Hqe. by intros e ?%not_elem_of_nil.
  - by rewrite Howed.
  - unfold ctx_total. destruct (m_fdctx (m_out l) !! Z.to_nat wpipe) as [ctx|] eqn:Hc; [|done].
    by rewrite (Forall_lookup_1 _ _ _ _ Hnew Hc).
  - by intros ctx _ _.
Qed.

Lemma created_written s :
  wp (loop_new (OS := OS)) (fun l w => written 0 (fun _ => []) (l, w)) (fun e w => unbuilt e (w_trace w)) (World [] s).
Proof.
  pose proof (calmer_loop_new (World [] s)) as Hc. pose proof (loop_new_shape s) as Hn. unfold wp in *.
  destruct (loop_new (World [] s)) as [l w|e w| |]; [|by destruct Hn|done|done].
  destruct Hn as (ep & ep2 & a & b & c & d & Hne & Hr & -> & Hs & Htr). apply Hopen in Hs as Hw.
  pose proof limit_fits as Hlim.
  assert (known ep (constructed ep ep2 a b c d) = ∅ /\ known ep2 (constructed ep ep2 a b c d) = ∅) as [Hk Hk2] by (by destruct b, d).
  assert (is_err (sys (constructed ep ep2 a b c d) (add_out ep ep2)) = false) as Hok by (apply (Hreg ep ep2 Hr Hne); rewrite Hk; set_solver).
  destruct w as [tr s']. cbn [w_trace] in Htr. subst tr. set (r := sys _ _) in *.
  destruct (constructed_regs ep ep2 a b c d r Hne) as [Hregs _]. rewrite Hok in Hregs.
  apply initial_written; cbn [m_lkernel m_out m_kernel m_fdctx m_queue m_workers new_loop set_state w_trace].
  - by apply constructed_initial.
  - unfold epoll_armed. rewrite Hregs. apply dom_singleton_L.
  - apply Forall_app. split; [destruct b, d; by repeat constructor|]. constructor; [|done]. by destruct r.
  - by apply Forall_replicate.
  - done.
  - unfold in_range. cbn [m_fdctx]. rewrite length_replicate. lia.
  - rewrite known_snoc, Hk2. unfold add_out. cbn [known_step]. destruct r; [|set_solver]. rewrite bool_decide_false by congruence. set_solver.
  - apply Hreg; [done|congruence].
  - done.
  - exact Hc.
Qed.

(** *** The flush, and the destruction of the loop *)

Lemma writer_body_delivers acc l w fuel :
  written 0 acc (l, w) -> (151 + 2 * patience [] < fuel)%nat ->
  wp (writer_body wpipe buf fuel)
    (fun _ st' => m_workers (fst st') = 0 /\ (exists qs, Forall2 x_rep (m_fdctx (m_out (fst st'))) qs) /\
       (healthy wpipe (w_trace (snd st')) -> sent wpipe (w_trace (snd st')) = copies 15)) write_failed (l, w).
Proof.
  intros Hw Hfuel. unfold writer_body. wp_step. eapply wp_mono; [..|eapply (writes_ok 15 0); [exact Hw|lia]]; [|done].
  intros [] [l' w'] [acc' [Hf H0 Hr Ho Hl _ _ _ Ha]]. cbn [fst snd] in *.
  eapply wp_mono; [..|apply (flush_drains_output acc' l' w' fuel); [exact Hf|]]; [|done|].
  2:{ unfold turns. case_bool_decide; lia. }
  intros [] [l2 w2] ((_ & _ & Hsent) & _ & Hf2 & Hlen & Hwk). cbn [fst snd] in *. split; [by rewrite Hwk|]. split.
  - destruct (fl_good _ _ _ Hf2) as [qs Hinv]. exists qs. apply (oi_rep _ _ _ _ _ Hinv).
  - intros Hh. change (copies 15) with (copies (0 + 15)). rewrite <-Ha. apply Hsent; [|done]. unfold in_range in *. by rewrite Hlen.
Qed.

Lemma finalized_unsent fd qs : sent fd (finalized qs) = [].
Proof.
  unfold finalized. induction (reverse qs) as [|rs l IH]; [done|]. cbn [mbind list_bind]. rewrite sent_app, IH, app_nil_r.
  induction (fins (tokens rs)) as [|t ts IHt]; [done|]. cbn [flat_map]. rewrite sent_app, IHt. by destruct t.
Qed.

(** The destructor sends nothing. *)
Lemma destroyed_sends (l : elt) w qs :
  m_workers l = 0 -> Forall2 x_rep (m_fdctx (m_out l)) qs ->
  wp (loop_delete no_destroy) (fun _ st' => exists tr, w_trace (snd st') = w_trace w ++ tr /\ sent wpipe tr = []) no_exn (l, w).
Proof.
  intros H0 Hrep. eapply wp_mono; [..|apply (loop_delete_idle (fun _ => false) no_destroy (fun _ tr => tr = [])); [|exact H0|exact Hrep]]; [|done|].
  - intros [] st' (dtors & a & b & Htr & trs & -> & Hd). eexists. split; [exact Htr|].
    assert (mjoin trs = []) as -> by (clear Htr; induction Hd as [|h tr hs trs -> _ IH]; [done|exact IH]).
    rewrite !sent_app, finalized_unsent. by destruct a, b.
  - intros h w0. unfold no_destroy. wp_step. exists []. by rewrite app_nil_r.
Qed.

Lemma wp_with_loop (m : M lst unit) l w (Q : elt -> world -> Prop) E :
  wp m (fun _ st => Q (fst st) (snd st)) (fun e st => E e (snd st)) (l, w) -> wp (with_loop m l) Q E w.
Proof. unfold wp, with_loop. by destruct (m (l, w)) as [[] []|e []| |]. Qed.

(** C14. [writer_main] of test/handler.cc returns with all sixty bytes sent through
    the pipe, in order, unless the pipe failed; it throws only when memory ran out or the
    constructor of its loop failed.  This is so whatever part of the writes the kernel
    takes at once, if transfers and waits achieve nothing only finitely often and
    epoll_ctl accepts the descriptors it is given; the turns of the flush are bounded. *)
Theorem writer_delivers (s : list bool) (fuel : nat) :
  (151 + 2 * patience [] < fuel)%nat ->
  wp (writer_main wpipe buf fuel)
    (fun _ w' => healthy wpipe (w_trace w') -> sent wpipe (w_trace w') = copies 15)
    (fun e w' => unbuilt e (w_trace w')) (World [] s).
Proof.
  intros Hfuel. unfold writer_main. wp_step. eapply wp_mono; [..|apply created_written]; [|done].
  intros l w Hw. wp_step. apply wp_with_loop. wp_step. apply wp_catch.
  eapply wp_mono; [..|exact (writer_body_delivers _ l w fuel Hw Hfuel)].
  - intros [] [l1 w1] (H0 & [qs Hrep] & Hsent). cbn [fst snd] in *.
    eapply wp_mono; [..|exact (destroyed_sends l1 w1 qs H0 Hrep)]; [|done].
    intros [] [l2 w2] (tr & Htr & Hs). cbn [fst snd] in *. wp_step. rewrite Htr, sent_app, Hs, app_nil_r.
    intros [Hh _]%healthy_app. by apply Hsent.
  - intros e [l1 w1] (-> & H0 & acc & qs & Hinv). cbn [fst snd] in *. wp_step.
    eapply wp_mono; [..|exact (destroyed_sends l1 w1 qs H0 (oi_rep _ _ _ _ _ Hinv))]; [|done].
    intros [] [l2 w2] _. wp_step. by left.
Qed.
End Writer.

(** ** Concrete runs

    The kernel takes two bytes, has no room, takes three, is interrupted, takes one,
    and then everything; three waits come to nothing. *)
Definition pipe_answers : list sysret := [SysOk 2 []; SysErr EAGAIN; SysOk 3 []; SysErr EINTR; SysOk 1 []].

Section Run.
#[local] Instance pipe_os : Os := slow_os pipe_answers 3.

Lemma pipe_registrable ep fd : 0 <= fd < 16 -> fd <> ep -> registrable ep fd.
Proof.
  intros Hr _ tr events data _. cbn. destruct (Z.leb_spec 0 fd); [|lia]. by destruct (Z.ltb_spec fd (2 ^ 31)); [|lia].
Qed.

Lemma pipe_open tr size n out : sys tr (EpollCreate size) = SysOk n out -> n <> 9.
Proof.
  cbn. destruct (free_descriptor 5 tr) as [m|] eqn:Hf; [|done]. intros [= <- _]. apply free_descriptor_new in Hf as [_ Hf]. lia.
Qed.

Lemma writer_delivers_witness :
  match writer_main 9 1000 162 (World [] []) with
  | Ret _ w' => Some (sent 9 (w_trace w'), open_epolls (w_trace w'))
  | _ => None
  end = Some (copies 1000 15, ∅) /\
  wp (writer_main 9 1000 162)
    (fun _ w' => healthy 9 (w_trace w') -> sent 9 (w_trace w') = copies 1000 15)
    (fun e w' => unbuilt e (w_trace w')) (World [] []).
Proof.
  split; [by vm_compute|].
  apply (writer_delivers (limit := 16) 9 1000 ltac:(lia) pipe_open pipe_registrable ltac:(lia) [] 162).
  apply Nat.ltb_lt. by vm_compute.
Defined.

(** Without memory for the first record, it throws, with its descriptors closed. *)
Lemma writer_out_of_memory :
  match writer_main 9 1000 162 (World [] [true; true; true; true; false]) with
  | Throw e w' => Some (e, open_epolls (w_trace w'))
  | _ => None
  end = Some (BadAlloc, ∅).
Proof. by vm_compute. Qed.

(** The reader: the pipe and the timer are registered, four workers are started and
    joined. *)
Definition reader_run : option (list Z * list Z * Z) :=
  match (l ← loop_new; with_loop (reader_body 8 100 101 102 103) l) (World [] []) with
  | Ret l w => Some (omap id (take 16 (m_state l)), m_task_queue l, calls PthreadCreate (w_trace w))
  | _ => None
  end.

(** The handlers of [out], of the pipe and of the timer are in the table. *)
Lemma reader_runs : reader_run = Some ([out_handler; 100; 102], [103], 4).
Proof. by vm_compute. Qed.
End Run.
