(* ===== verification/Endian.v ===== *)
(** * Byte order (src/mp/endian.h)

    [htonll] where neither the compiler nor the C library has a byte swap, on a
    little-endian machine. *)

From Stdlib Require Import ZArith Lia.
From stdpp Require Import base tactics list numbers.
From S2P Require Import Prelude.

Definition htonll (x : Z) : Z :=
  Z.lor (Z.land (wrap64 (Z.shiftl x 56)) 0xff00000000000000)
  (Z.lor (Z.land (wrap64 (Z.shiftl x 40)) 0x00ff000000000000)
  (Z.lor (Z.land (wrap64 (Z.shiftl x 24)) 0x0000ff0000000000)
  (Z.lor (Z.land (wrap64 (Z.shiftl x 8)) 0x000000ff00000000)
  (Z.lor (Z.land (Z.shiftr x 8) 0x00000000ff000000)
  (Z.lor (Z.land (Z.shiftr x 24) 0x0000000000ff0000)
  (Z.lor (Z.land (Z.shiftr x 40) 0x000000000000ff00)
         (Z.land (Z.shiftr x 56) 0x00000000000000ff))))))).

Definition ntohll (x : Z) : Z := htonll x.

(** The byte of weight [256 ^ i]. *)
Definition byte_at (x i : Z) : Z := Z.land (Z.shiftr x (8 * i)) 0xff.

(** Bit [n] of a swapped word comes from the mirrored byte. *)
Definition mirror (n : Z) : Z := 8 * (7 - n / 8) + n mod 8.

Lemma htonll_bit x n : 0 <= n < 64 -> Z.testbit (htonll x) n = Z.testbit x (mirror n).
Proof.
  intros Hn. unfold htonll, wrap. rewrite !Z.lor_spec, !Z.land_spec.
  assert (exists m, n = Z.of_nat m /\ (m < 64)%nat) as (m & -> & Hm) by (exists (Z.to_nat n); lia). clear Hn.
  let rec go k := lazymatch k with O => lia | S ?k => destruct m as [|m]; [|go k] end in go 64%nat.
  all: cbn [Z.of_nat Pos.of_succ_nat Pos.succ].
  all: rewrite !Z.mod_pow2_bits_low, !Z.shiftl_spec, !Z.shiftr_spec by lia.
  all: repeat match goal with
    | |- context [Z.testbit (Zpos ?p) ?i] =>
        let v := eval vm_compute in (Z.testbit (Zpos p) i) in change (Z.testbit (Zpos p) i) with v
    end.
  all: rewrite ?andb_false_r, ?andb_true_r, ?orb_false_r; cbn [orb]; rewrite ?orb_false_r; f_equal.
Qed.

Lemma htonll_range x : 0 <= htonll x < 2 ^ 64.
Proof.
  assert (htonll x = Z.land (htonll x) (Z.ones 64)) as ->.
  { unfold htonll. rewrite !Z.land_lor_distr_l, <-!Z.land_assoc. reflexivity. }
  rewrite Z.land_ones by lia. apply Z.mod_pos_bound. lia.
Qed.

Lemma word_eq x y : 0 <= x < 2 ^ 64 -> 0 <= y < 2 ^ 64 ->
  (forall n, 0 <= n < 64 -> Z.testbit x n = Z.testbit y n) -> x = y.
Proof.
  intros Hx Hy H. rewrite <-(Z.mod_small x (2 ^ 64)), <-(Z.mod_small y (2 ^ 64)) by lia.
  apply Z.bits_inj'. intros n Hn. destruct (Z.lt_ge_cases n 64).
  - rewrite !Z.mod_pow2_bits_low by lia. apply H. lia.
  - by rewrite !Z.mod_pow2_bits_high by lia.
Qed.

Lemma mirror_range n : 0 <= n < 64 -> 0 <= mirror n < 64.
Proof. intros. unfold mirror. pose proof (Z.div_lt_upper_bound n 8 8). pose proof (Z.div_pos n 8). pose proof (Z.mod_pos_bound n 8). lia. Qed.

Lemma mirror_mirror n : 0 <= n < 64 -> mirror (mirror n) = n.
Proof.
  intros. unfold mirror. pose proof (Z.mod_pos_bound n 8). pose proof (Z.div_mod n 8).
  rewrite <-(Z.div_unique (8 * (7 - n / 8) + n mod 8) 8 (7 - n / 8) (n mod 8)) by lia.
  rewrite <-(Z.mod_unique (8 * (7 - n / 8) + n mod 8) 8 (7 - n / 8) (n mod 8)) by lia. lia.
Qed.

(** [ntohll] and [htonll] are inverse to each other on 64-bit words. *)
Theorem htonll_involutive (x : Z) : 0 <= x < 2 ^ 64 -> ntohll (htonll x) = x.
Proof.
  intros Hx. apply word_eq; [apply htonll_range|done|]. intros n Hn. unfold ntohll.
  rewrite !htonll_bit by (try apply mirror_range; lia). by rewrite mirror_mirror.
Qed.

(** The bytes are reversed: the most significant one comes first in memory. *)
Theorem htonll_bytes (x i : Z) : 0 <= i < 8 -> byte_at (htonll x) i = byte_at x (7 - i).
Proof.
  intros Hi. unfold byte_at. change 0xff with (Z.ones 8). apply Z.bits_inj'. intros n Hn.
  rewrite !Z.land_spec, !Z.shiftr_spec by lia. destruct (Z.lt_ge_cases n 8).
  - rewrite htonll_bit by lia. f_equal. unfold mirror.
    rewrite <-(Z.div_unique (n + 8 * i) 8 i n), <-(Z.mod_unique (n + 8 * i) 8 i n) by lia. f_equal. lia.
  - by rewrite Z.ones_spec_high, !andb_false_r by lia.
Qed.

Lemma htonll_involutive_witness :
  htonll 0x0123456789abcdef = 0xefcdab8967452301 /\ ntohll (htonll 0x0123456789abcdef) = 0x0123456789abcdef.
Proof. split; [by vm_compute|]. apply htonll_involutive. lia. Defined.

Lemma htonll_bytes_witness : byte_at (htonll 0x0123456789abcdef) 0 = byte_at 0x0123456789abcdef (7 - 0).
Proof. apply htonll_bytes. lia. Defined.
